(* ===== verification/_CoqProject ===== *)
-Q . S2P
Prelude.v
Float.v
Order.v
PointId.v
RrfScoring.v
RrfState.v
RrfSession.v
RrfExact.v
RrfFairness.v
RankStream.v
ShardStream.v
DenseRank.v
SegmentRank.v
Postings.v
SparseVectors.v
InvertedIndex.v
BlockMax.v
TopK.v
SparseSearch.v
SparseIndex.v
ShardRank.v
HybridSession.v
ExactRrfApi.v
MachineInt.v
BitPacking.v
DeltaPack.v
PackedLinks.v
OrderedPacking.v
GraphLinks.v
GraphLinksExact.v
CompressedPostings.v
CompressedLaws.v
CompressedBuild.v
CompressedIndex.v
FloatBits.v
CompressedFile.v
FloatReal.v
RealSums.v
DotKernels.v
ScoreKernels.v
ScalarRows.v
ScalarBounds.v
