(* ===== verification/Prelude.v ===== *)
(** * Stratumind: exact hybrid retrieval, verified

    Stratumind extends a vector search engine with an exact hybrid search: a
    request names a dense and a sparse query, each ranks every visible point
    of a collection, and the answer is the prefix of the weighted reciprocal
    rank fusion (RRF) of the two rankings.  The code does not rank everything.
    It reads both rankings lazily, through streams that certify each next
    point by bounds, and stops as soon as no unread point can change the
    answer.  This library models that stack from the HTTP endpoint down to
    the posting lists and the certificates of the dense rankings, and proves
    that the answer is the one exhaustive ranking and fusion would give.

    ** Parts of the program and files of the library

    - Shared vocabulary: [Prelude] (errors, results, outcomes, lists), [Float]
      (IEEE 754 binary32 and binary64 as exact integers in units of the
      smallest subnormal, rounded to nearest even), [Order] (comparators as
      functions with laws, sorting, heaps as bags), [PointId] (identities and
      their order, lib/segment/src/types.rs).
    - Fusion, lib/segment/src/common/reciprocal_rank_fusion/: [RrfScoring]
      (scoring.rs: exhaustive fusion, the specification of everything above
      it), [RrfState] (state.rs: observed prefixes, bounds, the certificate
      [fixed_top_k]), [RrfSession] (session.rs, executor.rs, types.rs:
      sources, scheduling, the advance loop, pauses, growing prefixes,
      replacement of a source), [RrfExact] and [RrfFairness] (the theorems
      about sessions).
    - [RankStream], lib/segment/src/index/exact_rank_stream.rs: the k-way
      merge of local score streams into one global ranking per channel.
    - [ShardStream], lib/shard/src/exact_shard_stream.rs and
      exact_rank_fallback.rs: the merge of the frozen segments of a shard,
      with copies removed, and the exhaustive fallback.
    - [DenseRank], lib/segment/src/index/dense_rank_state/: interval
      certificates, the exhaustive scan and the choice between them.
    - [SegmentRank], lib/segment/src/segment/read_view/search.rs: a segment's
      ranking in external identities, ties regrouped.
    - [Postings], [BlockMax], lib/sparse/src/index/: posting lists and the
      block-max ranking over them.  [SparseVectors],
      lib/sparse/src/common/sparse_vector.rs and the dimension tracker.
      [InvertedIndex]: the inverted index in memory, its updates and its
      builder.  [SparseSearch]: the ordinary search over posting lists,
      search_context.rs, with [TopK], lib/common/common/src/top_k.rs.
      [SparseIndex]: sparse segments.
    - Compressed sparse indices, lib/sparse/src/index/: [CompressedPostings]
      (compressed_posting_list.rs: blocks of packed identifiers, the builder
      and the cursor), [CompressedLaws] (the cursor is a lawful posting
      list), [CompressedBuild] (lists hold what they are built from),
      [CompressedIndex] (inverted_index_compressed_immutable_ram.rs, made from
      the index in memory), [CompressedFile]
      (inverted_index_compressed_mmap.rs, the file read in place) with
      [FloatBits] (the 32 bits of a float).
    - [ShardRank], lib/shard/src/dense_rank_plan.rs and sparse_rank_plan.rs:
      the channel plans that open every segment of a shard.
    - [HybridSession], lib/collection/src/collection/exact_rrf/: one request
      over all shards.  [ExactRrfApi], src/actix/api/query_api/exact_rrf.rs:
      the endpoint.
    - Packed storage.  [MachineInt]: machine integers with checked and
      wrapping arithmetic, little-endian bytes.  lib/common/common/src/:
      [BitPacking] (bitpacking.rs, the bit writer and reader), [DeltaPack]
      (delta_pack.rs), [PackedLinks] (bitpacking_links.rs) and
      [OrderedPacking] (bitpacking_ordered.rs, sorted values with random
      access).  [GraphLinks] and [GraphLinksExact],
      lib/segment/src/index/hnsw_index/graph_links/: the three file formats
      of the links of an HNSW graph, written and opened.

    ** How the model follows the code

    A struct is a record, an enum an inductive type, a method a function from
    the old state to the new one and its result.  [OperationResult] is
    Rust's [Result]; [outcome] adds a panic and the end of the fuel.  Closures
    over shared cells ([Rc<RefCell<..>>]) thread the cells explicitly: a pull
    takes and returns a memory, and the contracts of streams say what other
    pulls may do to it.  The cancellation flag is a function from the number
    of the load to what it sees, so that theorems can speak about any moment
    of a cancellation.  [f32] and [f64] are modelled bit for bit as far as the
    order, the additions, the products and the quotients of the code see
    them.  Heaps are bags popped at their maximum.  [usize] counters that can
    reach their limit saturate or wrap as in the code; lengths are naturals.
    The packed formats keep every integer at its width: an arithmetic
    operation that would overflow gives [None] or [Panicked], so that a
    theorem that ends in a value shows there was no overflow.

    Components meet at contracts, type classes with laws: [ExactPointStream],
    [ExactBatchStream], [ExactScores], [ExactScoreBatches], [ExactSegment],
    [ExactOffsets], [LawfulPosting], [SharedMemory], [Weight], [StoredWeight].  A client is proved
    against the class; the component below discharges it with an instance.

    ** What the theorems show

    - The endpoint and the session of a request return the exact prefix with
      ranks and versions ([endpoint_exact], [execute_exact]); everything else
      fails closed ([endpoint_fails_closed], [validate_exact_rrf_request_spec],
      [observed_versions_stable]).
    - The early-stopping fusion equals exhaustive fusion, certifies only what
      every completion confirms and certifies it as soon as the bounds allow,
      whatever the sources deliver ([dynamic_rrf_equals_exhaustive],
      [fixed_top_k_certificate], [advance_until_each_safe]), runs to
      completion ([run_to_completion_exact]), grows and replaces exactly, and
      starves no source beyond a bound ([fairness_bound]).
    - Each stream below refines one sorted list: k-way merges, shards, dense
      and sparse segments, block-max rankings, the dense certificate.
    - The inverted index in memory implements a map from records to vectors,
      and an updated index is a rebuilt one ([ram_index_represents],
      [updates_equal_rebuild]); searching it ends and returns a best selection
      of the stored vectors, pruned or not ([search_exact],
      [ram_search_exact], [top_k_exact]).
    - Compressing an index changes no answer: lists hold their records
      ([compressed_build_exact]), no operation of a cursor panics or leaves
      the blocks ([compressed_cursor_safe]), searches stay exact
      ([compressed_search_exact]), and a written index is read back and
      refuses the same offsets ([mmap_index_roundtrip]).
    - What is packed is read back: streams of bit fields, delta-packed
      sequences, links, sorted values and whole graphs
      ([bit_stream_roundtrip], [packed_sequences_roundtrip],
      [packed_links_roundtrip], [ordered_roundtrip],
      [graph_links_roundtrip]); the reader without bounds checks stays inside
      its slice, whatever it is opened on ([reader_in_bounds]).
    - Errors are sticky, conflicting versions are refused, cancellation is an
      error and never the end of a stream.

    ** Fuel

    Loops whose bound is not syntactic take fuel.  A theorem that promises an
    answer says how much is enough: one unit per rank and source left for a
    session ([stream_fuel]), two replies per pop for a shard, one more than
    the number of offsets for a segment; block-max rankings compute their own
    bound from the pending batches; a sparse search takes one turn per
    posting element at most.

    ** Not modelled

    Storage, memory maps, locks, asynchronous execution, HTTP and gRPC are
    input and output; what they return is a parameter of the definitions that
    use it.  The exact scorers and quantized scorers are SIMD kernels over
    storage; the dense theorems take the scorer as a parameter and ask that
    it scores each offset by itself and that the intervals of a quantizer
    contain the scores.  Text inference (BM25), the filter of a request, the
    id tracker and the selection of shards are parameters.  The unstable
    sorts of the search are any functions with their documented contract, as
    are the sort of the points of a graph by level and the variable-length
    integers of its third format (classes [UnstableByLevel] and [VarInt]) and
    the packed blocks of strictly increasing identifiers ([BitPacker]), which
    come from other packages.  Of the weights of compressed lists, [f32] is an
    instance; half precision and 8-bit quantization are not modelled.
    Searching and building HNSW graphs is not modelled, only their links.
    Hardware counters and logging are left out. *)

From stdpp Require Export base list sorting strings gmap sets.
From Stdlib Require Export ZArith Lia.

(** ** Errors as values

    Every fallible Rust function of the modelled code returns an
    [OperationResult<T>], that is [Result<T, OperationError>].  The variants
    kept here are the ones the modelled functions can build or forward.  A
    [description] is the format string of the source, its holes unfilled. *)
Inductive OperationError : Type :=
  | ValidationError (description : string)
  | InconsistentStorage (description : string)
  | ServiceError (description : string)
  | Cancelled (description : string)
  | VectorNameNotExists (received_name : string)
  | WrongSparse.

#[export] Instance OperationError_eq_dec : EqDecision OperationError.
Proof. solve_decision. Defined.

Inductive OperationResult (A : Type) : Type :=
  | Ok (a : A)
  | Err (e : OperationError).

Arguments Ok {A} a.
Arguments Err {A} e.

Declare Scope result_scope.
Delimit Scope result_scope with result.

Notation "'let?' x ':=' c 'in' k" :=
  (match c with Ok x => k | Err e => Err e end)
  (at level 10, x pattern, c at level 100, k at level 200) : result_scope.

Definition is_ok {A} (r : OperationResult A) : bool :=
  match r with Ok _ => true | Err _ => false end.

(** How a call ends: it returns a [Result], it panics, or the bound given to
    the model of its loop is used up. *)
Inductive outcome (A : Type) : Type :=
  | Returned (r : OperationResult A)
  | Panicked
  | OutOfFuel.

Arguments Returned {A} r.
Arguments Panicked {A}.
Arguments OutOfFuel {A}.

(** [?] in a function that may also panic. *)
#[export] Instance outcome_ret : MRet outcome := fun A a => Returned (Ok a).
#[export] Instance outcome_bind : MBind outcome := fun A B k m =>
  match m with
  | Returned (Ok a) => k a
  | Returned (Err e) => Returned (Err e)
  | Panicked => Panicked
  | OutOfFuel => OutOfFuel
  end.

(** [Option::unwrap], an index in bounds, a checked operation. *)
Definition unwrap {A} (o : option A) : outcome A :=
  match o with Some a => Returned (Ok a) | None => Panicked end.

(** ** Lists *)

(** [v[i]] where the source has checked, or an invariant says, that [i] is in
    range; an arbitrary value where Rust would panic. *)
Definition index {A} `{Inhabited A} (l : list A) (i : nat) : A := l !!! i.

Declare Scope vec_scope.
Notation "l .[ i ]" := (index l i)
  (at level 1, left associativity, format "l .[ i ]") : vec_scope.
Open Scope vec_scope.

Lemma index_lookup {A} `{Inhabited A} (l : list A) i x : l !! i = Some x -> l.[i] = x.
Proof. apply list_lookup_total_correct. Qed.

Lemma lookup_index {A} `{Inhabited A} (l : list A) i :
  i < length l -> l !! i = Some (l.[i]).
Proof. apply list_lookup_lookup_total_lt. Qed.

Lemma fmap_zip_with {A B C D} (g : C -> D) (f : A -> B -> C) l k :
  g <$> zip_with f l k = zip_with (fun x y => g (f x y)) l k.
Proof. revert k. induction l as [|x l IH]; intros [|y k]; simpl; f_equal; auto. Qed.

Lemma NoDup_fmap_filter {A B} (g : A -> B) (P : A -> Prop) {Hdec : forall x, Decision (P x)} l :
  NoDup (g <$> l) -> NoDup (g <$> filter P l).
Proof.
  induction l as [|x l IH]; simpl; [done |]. intros [Hx N]%NoDup_cons.
  rewrite filter_cons. case_decide; simpl; [|auto]. apply NoDup_cons. split; [|auto].
  contradict Hx. apply list_elem_of_fmap in Hx as (y & -> & [_ Hy]%list_elem_of_filter).
  by apply list_elem_of_fmap_2.
Qed.

Lemma elem_of_concat {A} (ls : list (list A)) x :
  x ∈ concat ls <-> exists i l, ls !! i = Some l /\ x ∈ l.
Proof.
  induction ls as [|l ls IH]; simpl.
  - split; [by intros ?%elem_of_nil | by intros (? & ? & [=] & _)].
  - rewrite elem_of_app, IH. split.
    + intros [H|(i & l' & Hi & Hx)]; [by exists 0, l | by exists (S i), l'].
    + intros ([|i] & l' & Hi & Hx); simpl in Hi; [left; congruence | right; eauto].
Qed.

Lemma concat_absent {A} (ls : list (list A)) x i l :
  x ∉ concat ls -> ls !! i = Some l -> x ∉ l.
Proof. rewrite elem_of_concat. naive_solver. Qed.

Lemma existsb_false_elem {A} (f : A -> bool) l x : existsb f l = false -> x ∈ l -> f x = false.
Proof.
  intros E Hx. apply not_true_is_false. intros Ht.
  assert (existsb f l = true); [|congruence].
  apply existsb_exists. exists x. by rewrite <- list_elem_of_In.
Qed.

Lemma forallb_false_elem {A} (f : A -> bool) l :
  forallb f l = false -> exists i x, l !! i = Some x /\ f x = false.
Proof.
  induction l as [|x l IH]; simpl; [done |].
  destruct (f x) eqn:E; simpl; [|intros _; by exists 0, x].
  intros (i & y & Hi & Hy)%IH. by exists (S i), y.
Qed.

(** [filter_map] that keeps [g x] when [b (g x)]. *)
Lemma omap_filter {A B} (g : A -> B) (b : B -> bool) (f : A -> option B) (l : list A) :
  (forall x, f x = if b (g x) then Some (g x) else None) ->
  omap f l = filter (fun y => b y = true) (g <$> l).
Proof.
  intros Hf. induction l as [|x l IH]; [done |]. csimpl. rewrite filter_cons, Hf, IH.
  by destruct (b (g x)); [rewrite decide_True | rewrite decide_False].
Qed.

(** Consecutive pieces of a list, of the given sizes. *)
Fixpoint cut {A} (l : list A) (sizes : list nat) : list (list A) :=
  match sizes with
  | [] => []
  | n :: sizes => take n l :: cut (drop n l) sizes
  end.

(** The replies of a stateful component to successive requests. *)
Fixpoint replies {St A} (step : St -> nat -> St * A) (s : St) (requests : list nat) : list A :=
  match requests with
  | [] => []
  | n :: requests => let '(s, r) := step s n in r :: replies step s requests
  end.

(** A component whose state represents what is left of a list, and whose every
    reply is the next piece of it, cuts the list. *)
Lemma replies_cut {St A B} (step : St -> nat -> St * B) (ok : list A -> B)
    (rest : St -> list A -> Prop) s l sizes :
  (forall s l n, n <> 0 -> rest s l ->
     exists s', step s n = (s', ok (take n l)) /\ rest s' (drop n l)) ->
  rest s l -> Forall (fun n => n <> 0) sizes -> replies step s sizes = ok <$> cut l sizes.
Proof.
  intros Hstep Hr Hz. revert s l Hr. induction Hz as [|n sizes Hn Hz IH]; intros s l Hr; [done |].
  simpl. destruct (Hstep s l n Hn Hr) as (s' & -> & Hr'). csimpl. f_equal. by apply IH.
Qed.

(** ** Sorted and filtered lists *)

Lemma exists_last' {A} (l : list A) : l = [] \/ exists k x, l = k ++ [x].
Proof. destruct l using rev_ind; [by left | right; eauto]. Qed.

Lemma StronglySorted_app_r {A} (R : A -> A -> Prop) (l1 l2 : list A) :
  StronglySorted R (l1 ++ l2) -> StronglySorted R l2.
Proof. induction l1; simpl; [done |]. intros [? _]%StronglySorted_inv. auto. Qed.

Lemma StronglySorted_app_2 {A} (R : A -> A -> Prop) (l1 l2 : list A) :
  StronglySorted R l1 -> StronglySorted R l2 -> (forall x y, x ∈ l1 -> y ∈ l2 -> R x y) ->
  StronglySorted R (l1 ++ l2).
Proof.
  intros H1 H2 H. induction H1 as [|x l1 Hl1 IH Hx]; simpl; [done |]. constructor.
  - apply IH. intros a b Ha. apply H. by right.
  - apply Forall_app. split; [done |]. apply Forall_forall. intros y Hy. apply H; [left | done].
Qed.

Lemma filter_all {A} (P : A -> Prop) `{forall x, Decision (P x)} (l : list A) :
  (forall x, P x) -> filter P l = l.
Proof. intros HP. induction l; [done |]. by rewrite filter_cons_True, IHl. Qed.

Lemma StronglySorted_filter {A} (R : A -> A -> Prop) (P : A -> Prop) `{forall x, Decision (P x)}
    (l : list A) :
  StronglySorted R l -> StronglySorted R (filter P l).
Proof.
  induction 1 as [|x l Hl IH Hx]; [constructor |]. rewrite filter_cons. case_decide; [|done].
  constructor; [done |]. rewrite Forall_forall in *. intros y [_ ?]%list_elem_of_filter. auto.
Qed.

Lemma filter_id {A} (P : A -> Prop) `{forall x, Decision (P x)} (l : list A) :
  Forall P l -> filter P l = l.
Proof. induction 1; [done |]. by rewrite filter_cons_True, IHForall. Qed.

Lemma filter_nil {A} (P : A -> Prop) `{forall x, Decision (P x)} (l : list A) :
  Forall (fun x => ~ P x) l -> filter P l = [].
Proof. induction 1; [done |]. by rewrite filter_cons_False. Qed.

(** ** Slices cut into chunks *)

(** [slice::chunks] *)
Fixpoint chunks_loop {A} (fuel k : nat) (l : list A) : list (list A) :=
  match fuel, l with
  | S fuel', _ :: _ => take k l :: chunks_loop fuel' k (drop k l)
  | _, _ => []
  end.

Definition slice_chunks {A} (k : nat) (l : list A) : list (list A) := chunks_loop (length l) k l.

Lemma chunks_loop_lookup {A} fuel k (l : list A) i : (0 < k) -> (length l <= fuel) ->
  l !! i = (chunk ← chunks_loop fuel k l !! (i / k); chunk !! (i mod k)).
Proof.
  intros Hk. revert l i. induction fuel as [| fuel IH]; intros l i Hl.
  { destruct l; [done | simpl in Hl; lia]. }
  destruct l as [| x l]; [done |]. cbn [chunks_loop].
  destruct (Nat.lt_ge_cases i k) as [Hi | Hi].
  - rewrite Nat.div_small, Nat.mod_small by done. simpl. by rewrite lookup_take_lt.
  - replace i with (k + (i - k)) by lia. rewrite <- lookup_drop.
    replace (k + (i - k)) with (1 * k + (i - k)) by lia.
    rewrite Nat.div_add_l by lia. rewrite (Nat.add_comm (1 * k)), Nat.Div0.mod_add.
    simpl. apply IH. rewrite length_drop. simpl in *. lia.
Qed.

Lemma chunks_lookup {A} k (l : list A) i : (0 < k) ->
  l !! i = (chunk ← slice_chunks k l !! (i / k); chunk !! (i mod k)).
Proof. intros Hk. by apply chunks_loop_lookup. Qed.

(** Each chunk is a piece of the list. *)
Lemma chunks_pieces {A} k (l : list A) : (0 < k) ->
  Forall (fun c => exists pre post, l = pre ++ c ++ post /\ (1 <= length c <= k)) (slice_chunks k l).
Proof.
  intros Hk. unfold slice_chunks. generalize (length l) at 1. intros fuel. revert l.
  induction fuel as [| fuel IH]; intros l; [constructor |].
  destruct l as [| x l]; [constructor |]. cbn [chunks_loop]. constructor.
  - exists [], (drop k (x :: l)). rewrite take_drop. split; [done |]. rewrite length_take. simpl. lia.
  - eapply Forall_impl; [apply IH |]. intros c (pre & post & E & Hc).
    exists (take k (x :: l) ++ pre), post. split; [| done]. rewrite <- app_assoc, <- E. by rewrite take_drop.
Qed.

(** All chunks but the last are full. *)
Lemma slice_chunks_full {A} k (l : list A) : 0 < k ->
  exists full rest, l = mjoin full ++ rest /\ Forall (fun c => length c = k) full /\ length rest < k /\
    slice_chunks k l = full ++ match rest with [] => [] | _ => [rest] end.
Proof.
  intros Hk. unfold slice_chunks. generalize (Nat.le_refl (length l)). generalize (length l) at 2 3.
  intros fuel. revert l. induction fuel as [| fuel IH]; intros l Hl.
  { destruct l; [| simpl in Hl; lia]. exists [], []. simpl. split_and!; [done | constructor | lia | done]. }
  destruct l as [| x l]; [exists [], []; simpl; split_and!; [done | constructor | lia | done] |].
  set (l0 := x :: l) in *. destruct (Nat.lt_ge_cases (length l0) k) as [Hs | Hs].
  { exists [], l0. change (chunks_loop (S fuel) k l0) with (take k l0 :: chunks_loop fuel k (drop k l0)).
    rewrite take_ge, drop_ge by lia. split_and!; [done | constructor | done |]. by destruct fuel. }
  destruct (IH (drop k l0)) as (full & rest & E & Hf & Hr & Ec); [rewrite length_drop; simpl in *; lia |].
  exists (take k l0 :: full), rest.
  change (chunks_loop (S fuel) k l0) with (take k l0 :: chunks_loop fuel k (drop k l0)). rewrite Ec.
  simpl. rewrite <- app_assoc, <- E, take_drop. split_and!; try done.
  constructor; [rewrite length_take; lia | done].
Qed.
