(* ===== verification/Float.v ===== *)
(** * IEEE 754 arithmetic of [f32] and [f64]

    The scores of the modelled code are Rust [f32] values and its scheduling
    priorities and dense bounds are [f64] values.  A finite value of a binary
    format is an integer multiple of the smallest positive subnormal
    [2 ^ emin], so it is kept as a sign and a magnitude counted in that unit.
    Every operation computes the exact result as a rational number of units
    and rounds it to nearest, ties to even, once.

    The second half proves what the certificates rely on: rounding is
    monotone and idempotent, every operation yields a representable value,
    and addition and division are monotone on non-negative values. *)

From S2P Require Import Prelude.

Local Open Scope Z_scope.

(** ** Formats and values *)

Record format : Type := Format {
  prec : Z;   (** bits of the significand *)
  emin : Z;   (** exponent of the smallest positive subnormal *)
  emax : Z;   (** every finite value is below [2 ^ emax] *)
}.

Definition binary32 : format := {| prec := 24; emin := -149; emax := 128 |}.
Definition binary64 : format := {| prec := 53; emin := -1074; emax := 1024 |}.

Inductive float : Type :=
  | NaN
  | Inf (neg : bool)
  | Fin (neg : bool) (mag : Z).

#[export] Instance float_eq_dec : EqDecision float.
Proof. solve_decision. Defined.

(** ** Rounding *)

(** The integer nearest to [n / d], ties to even ([0 < d]). *)
Definition rne (n d : Z) : Z :=
  let k := n / d in
  let r := n mod d in
  if 2 * r <? d then k
  else if d <? 2 * r then k + 1
  else if Z.even k then k else k + 1.

Section Ops.
Variable f : format.

(** First magnitude that is too large to be finite. *)
Definition limit : Z := 2 ^ (emax f - emin f).

(** Units dropped by a value whose integer part is [u]. *)
Definition shift_of (u : Z) : Z := Z.max 0 (Z.log2 u - prec f + 1).

(** Round the magnitude [p / q] to the format, exponent unbounded above. *)
Definition round_mag (p q : Z) : Z :=
  let e := shift_of (p / q) in
  rne p (q * 2 ^ e) * 2 ^ e.

Definition fin_round (neg : bool) (p q : Z) : float :=
  let m := round_mag p q in
  if m <? limit then Fin neg m else Inf neg.

Definition signed (neg : bool) (m : Z) : Z := if neg then - m else m.

Definition fneg (x : float) : float :=
  match x with
  | NaN => NaN
  | Inf s => Inf (negb s)
  | Fin s m => Fin (negb s) m
  end.

Definition fabs (x : float) : float :=
  match x with
  | NaN => NaN
  | Inf _ => Inf false
  | Fin _ m => Fin false m
  end.

Definition fadd (x y : float) : float :=
  match x, y with
  | NaN, _ | _, NaN => NaN
  | Inf s, Inf t => if Bool.eqb s t then Inf s else NaN
  | Inf s, Fin _ _ => Inf s
  | Fin _ _, Inf t => Inf t
  | Fin s a, Fin t b =>
      let v := signed s a + signed t b in
      if v =? 0 then Fin (s && t) 0
      else fin_round (v <? 0) (Z.abs v) 1
  end.

Definition fsub (x y : float) : float := fadd x (fneg y).

Definition fmul (x y : float) : float :=
  match x, y with
  | NaN, _ | _, NaN => NaN
  | Inf s, Inf t => Inf (xorb s t)
  | Inf s, Fin t b => if b =? 0 then NaN else Inf (xorb s t)
  | Fin s a, Inf t => if a =? 0 then NaN else Inf (xorb s t)
  | Fin s a, Fin t b => fin_round (xorb s t) (a * b) (2 ^ (- emin f))
  end.

Definition fdiv (x y : float) : float :=
  match x, y with
  | NaN, _ | _, NaN => NaN
  | Inf _, Inf _ => NaN
  | Inf s, Fin t _ => Inf (xorb s t)
  | Fin s _, Inf t => Fin (xorb s t) 0
  | Fin s a, Fin t b =>
      if b =? 0 then (if a =? 0 then NaN else Inf (xorb s t))
      else fin_round (xorb s t) (a * 2 ^ (- emin f)) b
  end.

(** [n as f32], [n as f64] for an integer [n]. *)
Definition of_Z (n : Z) : float :=
  fin_round (n <? 0) (Z.abs n * 2 ^ (- emin f)) 1.

(** [x.next_up()] and [x.next_down()]: the neighbouring values. *)
Definition next_up (x : float) : float :=
  match x with
  | NaN => NaN
  | Inf false => Inf false
  | Inf true => Fin true (limit - 2 ^ shift_of (limit - 1))
  | Fin s m =>
      if m =? 0 then Fin false 1
      else if s then Fin true (m - 2 ^ shift_of (m - 1))
      else let m' := m + 2 ^ shift_of m in
           if m' <? limit then Fin false m' else Inf false
  end.

Definition next_down (x : float) : float := fneg (next_up (fneg x)).

(** [x.sqrt()], correctly rounded: [k] units of the last place, or one more. *)
Definition fsqrt (x : float) : float :=
  match x with
  | Fin s m =>
      if m =? 0 then x
      else if s then NaN
      else
        let n := m * 2 ^ (- emin f) in
        let e := shift_of (Z.sqrt n) in
        let k := Z.sqrt (n / 4 ^ e) in
        let d := 4 * n - (2 * k + 1) ^ 2 * 4 ^ e in
        let k' := if d <? 0 then k else if 0 <? d then k + 1 else if Z.even k then k else k + 1 in
        Fin false (k' * 2 ^ e)
  | Inf true => NaN
  | _ => x
  end.

(** [x.partial_cmp(&y)]; the two zeros are equal. *)
Definition fcompare (x y : float) : option comparison :=
  match x, y with
  | NaN, _ | _, NaN => None
  | Inf s, Inf t =>
      Some (if Bool.eqb s t then Eq else if s then Lt else Gt)
  | Inf s, Fin _ _ => Some (if s then Lt else Gt)
  | Fin _ _, Inf t => Some (if t then Gt else Lt)
  | Fin s a, Fin t b => Some (Z.compare (signed s a) (signed t b))
  end.

Definition flt (x y : float) : bool :=
  match fcompare x y with Some Lt => true | _ => false end.
Definition fle (x y : float) : bool :=
  match fcompare x y with Some Lt | Some Eq => true | _ => false end.
Definition feq (x y : float) : bool :=
  match fcompare x y with Some Eq => true | _ => false end.

(** [x.max(y)]: the other operand when one is a NaN. *)
Definition fmax (x y : float) : float :=
  match x, y with
  | NaN, _ => y
  | _, NaN => x
  | _, _ => if flt x y then y else x
  end.

Definition is_finite (x : float) : bool :=
  match x with Fin _ _ => true | _ => false end.

(** [OrderedFloat(x).cmp(&OrderedFloat(y))]: the order of [f32] completed
    with a NaN that equals itself and is above everything else. *)
Definition ordered_cmp (x y : float) : comparison :=
  match fcompare x y with
  | Some c => c
  | None =>
      match x, y with
      | NaN, NaN => Eq
      | NaN, _ => Gt
      | _, _ => Lt
      end
  end.
End Ops.

Definition fzero : float := Fin false 0.

(** ** Rounding to an integer *)

Lemma rne_spec n d :
  0 < d ->
  - d <= 2 * (n - d * rne n d) <= d /\
  (2 * (n - d * rne n d) = d \/ 2 * (n - d * rne n d) = - d ->
   Z.even (rne n d) = true).
Proof.
  intros Hd. unfold rne.
  pose proof (Z.div_mod n d ltac:(lia)) as E.
  pose proof (Z.mod_pos_bound n d Hd) as B.
  generalize dependent (n mod d). generalize dependent (n / d). intros k r E B.
  destruct (Z.ltb_spec (2 * r) d); [split; [lia | intros [?|?]; lia] |].
  destruct (Z.ltb_spec d (2 * r)); [split; [lia | intros [?|?]; lia] |].
  destruct (Z.even k) eqn:K; [split; [lia | done] |].
  split; [lia |]. intros _. rewrite Z.even_add, K. done.
Qed.

Lemma rne_mono n1 d1 n2 d2 :
  0 < d1 -> 0 < d2 -> n1 * d2 <= n2 * d1 -> rne n1 d1 <= rne n2 d2.
Proof.
  intros H1 H2 Hle.
  destruct (rne_spec n1 d1 H1) as [B1 T1]. destruct (rne_spec n2 d2 H2) as [B2 T2].
  generalize dependent (rne n1 d1). generalize dependent (rne n2 d2).
  intros k2 B2 T2 k1 B1 T1.
  destruct (Z.le_gt_cases k1 k2) as [|Hgt]; [done | exfalso].
  assert (2 * n1 >= d1 * (2 * k1 - 1)) by lia.
  assert (2 * n2 <= d2 * (2 * k2 + 1)) by lia.
  assert (X1 : d1 * d2 * (2 * k1 - 1) <= 2 * n1 * d2) by nia.
  assert (X2 : 2 * n2 * d1 <= d1 * d2 * (2 * k2 + 1)) by nia.
  assert (D : 0 < d1 * d2) by nia.
  assert (k1 = k2 + 1) as ->.
  { assert (2 * k1 - 1 <= 2 * k2 + 1); [|lia].
    apply (Z.mul_le_mono_pos_l _ _ _ D). nia. }
  replace (2 * (k2 + 1) - 1) with (2 * k2 + 1) in * by lia.
  assert (2 * n1 = d1 * (2 * k2 + 1)).
  { apply (Z.mul_reg_r _ _ d2); nia. }
  assert (2 * n2 = d2 * (2 * k2 + 1)).
  { apply (Z.mul_reg_r _ _ d1); nia. }
  assert (E1 : Z.even (k2 + 1) = true) by (apply T1; right; lia).
  assert (E2 : Z.even k2 = true) by (apply T2; left; lia).
  rewrite Z.even_add, E2 in E1. done.
Qed.

Lemma rne_exact k d : 0 < d -> rne (k * d) d = k.
Proof.
  intros Hd. unfold rne. rewrite Z.div_mul, Z.mod_mul by lia.
  destruct (Z.ltb_spec (2 * 0) d); lia.
Qed.

Lemma rne_nonneg n d : 0 < d -> 0 <= n -> 0 <= rne n d.
Proof.
  intros Hd Hn. rewrite <- (rne_exact 0 1) by lia.
  apply rne_mono; lia.
Qed.

(** ** Rounding to a format *)

(** What the proofs need of a format; both Rust formats have it. *)
Class Format_ok (f : format) : Prop := {
  prec_pos : 1 < prec f;
  emin_neg : emin f < 0;
  emax_big : prec f <= emax f;
}.

#[export] Instance binary32_ok : Format_ok binary32.
Proof. split; simpl; lia. Qed.

#[export] Instance binary64_ok : Format_ok binary64.
Proof. split; simpl; lia. Qed.

Section Rounding.
Context (f : format) {Hf : Format_ok f}.

Lemma shift_of_nonneg u : 0 <= shift_of f u.
Proof. unfold shift_of. lia. Qed.

Lemma shift_of_mono u v : u <= v -> shift_of f u <= shift_of f v.
Proof. intros H. unfold shift_of. pose proof (Z.log2_le_mono _ _ H). lia. Qed.

(** The scaled value lies below [2 ^ prec]. *)
Lemma shift_of_upper p q :
  0 <= p -> 0 < q -> p < q * 2 ^ shift_of f (p / q) * 2 ^ prec f.
Proof.
  intros Hp Hq. set (u := p / q).
  assert (Hu : 0 <= u) by (apply Z.div_pos; lia).
  assert (Hpu : p < q * (u + 1)).
  { unfold u. pose proof (Z.div_mod p q ltac:(lia)).
    pose proof (Z.mod_pos_bound p q Hq). nia. }
  pose proof (shift_of_nonneg u) as Hs. pose proof prec_pos.
  rewrite <- Z.mul_assoc, <- Z.pow_add_r by lia.
  enough (u < 2 ^ (shift_of f u + prec f)) by nia.
  destruct (Z.eq_dec u 0) as [->|]; [apply Z.pow_pos_nonneg; lia |].
  apply Z.lt_le_trans with (2 ^ Z.succ (Z.log2 u)).
  - apply Z.log2_spec. lia.
  - apply Z.pow_le_mono_r; [lia |]. unfold shift_of. lia.
Qed.

(** When bits are dropped the scaled value is at least [2 ^ (prec - 1)]. *)
Lemma shift_of_lower p q :
  0 <= p -> 0 < q -> 0 < shift_of f (p / q) ->
  q * 2 ^ shift_of f (p / q) * 2 ^ (prec f - 1) <= p.
Proof.
  intros Hp Hq Hs. set (u := p / q) in *.
  assert (Hpu : q * u <= p) by (apply Z.mul_div_le; lia).
  pose proof prec_pos.
  rewrite <- Z.mul_assoc, <- Z.pow_add_r by lia.
  enough (2 ^ (shift_of f u + (prec f - 1)) <= u) by nia.
  assert (0 < u) by (unfold shift_of in Hs; pose proof (Z.log2_nonpos u); lia).
  replace (shift_of f u + (prec f - 1)) with (Z.log2 u)
    by (unfold shift_of in *; lia).
  apply Z.log2_spec. done.
Qed.

Lemma round_mag_nonneg p q : 0 <= p -> 0 < q -> 0 <= round_mag f p q.
Proof.
  intros Hp Hq. unfold round_mag. pose proof (shift_of_nonneg (p / q)).
  assert (0 < 2 ^ shift_of f (p / q)) by (apply Z.pow_pos_nonneg; lia).
  apply Z.mul_nonneg_nonneg; [apply rne_nonneg; nia | lia].
Qed.

Lemma round_mag_upper p q :
  0 <= p -> 0 < q ->
  rne p (q * 2 ^ shift_of f (p / q)) <= 2 ^ prec f.
Proof.
  intros Hp Hq. pose proof (shift_of_upper p q Hp Hq).
  pose proof (shift_of_nonneg (p / q)).
  assert (0 < 2 ^ shift_of f (p / q)) by (apply Z.pow_pos_nonneg; lia).
  rewrite <- (rne_exact (2 ^ prec f) 1) by lia.
  apply rne_mono; nia.
Qed.

Lemma round_mag_lower p q :
  0 <= p -> 0 < q -> 0 < shift_of f (p / q) ->
  2 ^ (prec f - 1) <= rne p (q * 2 ^ shift_of f (p / q)).
Proof.
  intros Hp Hq Hs. pose proof (shift_of_lower p q Hp Hq Hs).
  assert (0 < 2 ^ shift_of f (p / q)) by (apply Z.pow_pos_nonneg; lia).
  rewrite <- (rne_exact (2 ^ (prec f - 1)) 1) by lia.
  apply rne_mono; nia.
Qed.

(** Rounding is monotone. *)
Lemma round_mag_mono p1 q1 p2 q2 :
  0 <= p1 -> 0 <= p2 -> 0 < q1 -> 0 < q2 -> p1 * q2 <= p2 * q1 ->
  round_mag f p1 q1 <= round_mag f p2 q2.
Proof.
  intros Hp1 Hp2 Hq1 Hq2 Hle.
  assert (Hu : p1 / q1 <= p2 / q2).
  { apply Z.div_le_lower_bound; [lia |].
    pose proof (Z.mul_div_le p1 q1 Hq1).
    destruct (Z.le_gt_cases (q2 * (p1 / q1)) p2); [done | nia]. }
  pose proof (shift_of_mono _ _ Hu) as He.
  pose proof (shift_of_nonneg (p1 / q1)). pose proof prec_pos.
  pose proof (round_mag_upper p1 q1 Hp1 Hq1) as U.
  pose proof (round_mag_lower p2 q2 Hp2 Hq2) as L.
  unfold round_mag.
  set (e1 := shift_of f (p1 / q1)) in *. set (e2 := shift_of f (p2 / q2)) in *.
  assert (P1 : 0 < 2 ^ e1) by (apply Z.pow_pos_nonneg; lia).
  destruct (Z.eq_dec e1 e2) as [<-|Hne].
  - apply Z.mul_le_mono_nonneg_r; [lia |]. apply rne_mono; nia.
  - specialize (L ltac:(lia)).
    transitivity (2 ^ prec f * 2 ^ e1); [nia |].
    transitivity (2 ^ (prec f - 1) * 2 ^ e2).
    + rewrite <- !Z.pow_add_r by lia. apply Z.pow_le_mono_r; lia.
    + assert (0 < 2 ^ e2) by (apply Z.pow_pos_nonneg; lia). nia.
Qed.

(** A magnitude with a [prec]-bit significand is not changed. *)
Lemma round_mag_exact m e :
  0 <= m < 2 ^ prec f -> 0 <= e -> (0 < e -> 2 ^ (prec f - 1) <= m) ->
  round_mag f (m * 2 ^ e) 1 = m * 2 ^ e.
Proof.
  intros Hm He Hn. unfold round_mag. rewrite Z.div_1_r, Z.mul_1_l.
  pose proof prec_pos.
  assert (shift_of f (m * 2 ^ e) = e) as ->.
  { unfold shift_of. destruct (Z.eq_dec e 0) as [->|].
    - rewrite Z.mul_1_r.
      assert (Z.log2 m < prec f); [|lia].
      destruct (Z.eq_dec m 0) as [->|]; [simpl; lia |].
      apply Z.log2_lt_pow2; lia.
    - specialize (Hn ltac:(lia)).
      assert (0 < 2 ^ (prec f - 1)) by (apply Z.pow_pos_nonneg; lia).
      rewrite Z.log2_mul_pow2 by lia.
      enough (Z.log2 m = prec f - 1) by lia.
      apply Z.log2_unique; [lia |]. split; [lia |].
      replace (Z.succ (prec f - 1)) with (prec f) by lia. lia. }
  rewrite rne_exact; [done |]. apply Z.pow_pos_nonneg; lia.
Qed.

(** Rounding is idempotent: its results are representable. *)
Lemma round_mag_idem p q :
  0 <= p -> 0 < q -> round_mag f (round_mag f p q) 1 = round_mag f p q.
Proof.
  intros Hp Hq. unfold round_mag at 2 3.
  pose proof (round_mag_upper p q Hp Hq) as U.
  pose proof (round_mag_lower p q Hp Hq) as L.
  pose proof (shift_of_nonneg (p / q)). pose proof prec_pos.
  set (e := shift_of f (p / q)) in *.
  assert (0 < 2 ^ e) by (apply Z.pow_pos_nonneg; lia).
  assert (0 <= rne p (q * 2 ^ e)) by (apply rne_nonneg; nia).
  set (m := rne p (q * 2 ^ e)) in *. clearbody m.
  destruct (Z.eq_dec m (2 ^ prec f)) as [->|].
  - replace (2 ^ prec f * 2 ^ e) with (2 ^ (prec f - 1) * 2 ^ (e + 1))
      by (rewrite <- !Z.pow_add_r by lia; f_equal; lia).
    apply round_mag_exact; [|lia|lia].
    split; [apply Z.pow_nonneg; lia | apply Z.pow_lt_mono_r; lia].
  - apply round_mag_exact; [lia | lia | auto].
Qed.

Lemma round_mag_0 q : 0 < q -> round_mag f 0 q = 0.
Proof.
  intros Hq. unfold round_mag. rewrite Z.div_0_l by lia.
  set (e := shift_of f 0).
  assert (0 < 2 ^ e) by (apply Z.pow_pos_nonneg; [lia | apply shift_of_nonneg]).
  rewrite <- (Z.mul_0_l (q * 2 ^ e)), rne_exact by nia. lia.
Qed.
End Rounding.

(** ** Values

    [wf] says that a value is one the format really has: its magnitude is
    representable and below the limit.  [rank] places the values of a format
    on the integer line in their IEEE order. *)

Section Values.
Context (f : format) {Hf : Format_ok f}.

Definition wf (x : float) : Prop :=
  match x with
  | Fin _ m => 0 <= m < limit f /\ round_mag f m 1 = m
  | _ => True
  end.

Definition rank (x : float) : Z :=
  match x with
  | Fin s m => signed s m
  | Inf s => signed s (limit f)
  | NaN => limit f + 1
  end.

(** Values in [0, +inf], the range of every score of the rank fusion. *)
Definition nonneg (x : float) : Prop :=
  match x with
  | Fin false m => 0 <= m
  | Inf false => True
  | _ => False
  end.

Lemma limit_pos : 0 < limit f.
Proof.
  pose proof emin_neg. pose proof emax_big. pose proof prec_pos.
  apply Z.pow_pos_nonneg; lia.
Qed.

Lemma wf_abs_rank x : wf x -> x <> NaN -> - limit f <= rank x <= limit f.
Proof.
  pose proof limit_pos.
  destruct x as [|[]|[] m]; simpl; intros; [done | lia ..].
Qed.

Lemma ordered_cmp_rank x y :
  wf x -> wf y -> ordered_cmp x y = Z.compare (rank x) (rank y).
Proof.
  pose proof limit_pos.
  destruct x as [|[]|[] m], y as [|[]|[] n]; simpl; intros; unfold ordered_cmp; simpl;
    symmetry; first [done | apply Z.compare_refl
                    | apply Z.compare_lt_iff; lia | apply Z.compare_gt_iff; lia].
Qed.

Lemma fcompare_rank x y :
  wf x -> wf y -> x <> NaN -> y <> NaN ->
  fcompare x y = Some (Z.compare (rank x) (rank y)).
Proof.
  intros Wx Wy Nx Ny. pose proof (ordered_cmp_rank x y Wx Wy) as E.
  unfold ordered_cmp in E.
  destruct x as [|?|? ?], y as [|?|? ?]; simpl in *; congruence.
Qed.

Lemma nonneg_not_NaN x : nonneg x -> x <> NaN.
Proof. by destruct x. Qed.

Lemma nonneg_rank x : nonneg x -> 0 <= rank x.
Proof. pose proof limit_pos. destruct x as [|[]|[] m]; simpl; intros; lia. Qed.

Lemma rank_inj x y :
  wf x -> wf y -> nonneg x -> nonneg y -> rank x = rank y -> x = y.
Proof.
  destruct x as [|[]|[] m], y as [|[]|[] n]; simpl; intros; subst; try done; lia.
Qed.

Section Comparisons.
Context (x y : float).
Hypotheses (Wx : wf x) (Wy : wf y) (Nx : nonneg x) (Ny : nonneg y).

Lemma flt_rank : flt x y = (rank x <? rank y).
Proof.
  unfold flt. rewrite fcompare_rank by (done || by apply nonneg_not_NaN).
  unfold Z.ltb. by destruct (_ ?= _).
Qed.

Lemma fle_rank : fle x y = (rank x <=? rank y).
Proof.
  unfold fle. rewrite fcompare_rank by (done || by apply nonneg_not_NaN).
  unfold Z.leb. by destruct (_ ?= _).
Qed.

Lemma feq_rank : feq x y = (rank x =? rank y).
Proof.
  unfold feq. rewrite fcompare_rank by (done || by apply nonneg_not_NaN).
  rewrite Z.eqb_compare. by destruct (_ ?= _).
Qed.
End Comparisons.

(** *** Representability *)

Lemma fin_round_wf s p q : 0 <= p -> 0 < q -> wf (fin_round f s p q).
Proof.
  intros Hp Hq. unfold fin_round.
  destruct (Z.ltb_spec (round_mag f p q) (limit f)); [|done].
  split; [pose proof (round_mag_nonneg f p q Hp Hq); lia |].
  by apply round_mag_idem.
Qed.

Lemma wf_zero s : wf (Fin s 0).
Proof. simpl. rewrite round_mag_0 by lia. pose proof limit_pos. lia. Qed.

Lemma fin_round_rank p q :
  rank (fin_round f false p q) = Z.min (round_mag f p q) (limit f).
Proof.
  unfold fin_round. destruct (Z.ltb_spec (round_mag f p q) (limit f)); simpl; lia.
Qed.

Lemma fin_round_nonneg p q : 0 <= p -> 0 < q -> nonneg (fin_round f false p q).
Proof.
  intros Hp Hq. unfold fin_round. pose proof (round_mag_nonneg f p q Hp Hq).
  by destruct (Z.ltb_spec (round_mag f p q) (limit f)).
Qed.

Lemma fin_round_id s m : wf (Fin s m) -> fin_round f s m 1 = Fin s m.
Proof.
  intros [B E]. unfold fin_round. rewrite E.
  destruct (Z.ltb_spec m (limit f)); [done | lia].
Qed.

Lemma fadd_wf x y : wf x -> wf y -> wf (fadd f x y).
Proof.
  destruct x as [|s|s a], y as [|t|t b]; simpl; try done.
  - by destruct (Bool.eqb s t).
  - intros _ _. destruct (Z.eqb_spec (signed s a + signed t b) 0).
    + apply wf_zero.
    + apply fin_round_wf; lia.
Qed.

Lemma fneg_wf x : wf x -> wf (fneg x).
Proof. by destruct x. Qed.

Lemma fsub_wf x y : wf x -> wf y -> wf (fsub f x y).
Proof. intros. apply fadd_wf; [done | by apply fneg_wf]. Qed.

Lemma fmul_wf x y : wf x -> wf y -> wf (fmul f x y).
Proof.
  pose proof emin_neg.
  destruct x as [|s|s a], y as [|t|t b]; simpl; try done.
  - by destruct (b =? 0).
  - by destruct (a =? 0).
  - intros [? _] [? _]. apply fin_round_wf; [nia |].
    apply Z.pow_pos_nonneg; lia.
Qed.

Lemma fdiv_wf x y : wf x -> wf y -> wf (fdiv f x y).
Proof.
  pose proof emin_neg.
  destruct x as [|s|s a], y as [|t|t b]; simpl; try done.
  - intros _ _. apply (wf_zero false).
  - intros [? _] [? _]. destruct (Z.eqb_spec b 0); [by destruct (a =? 0) |].
    apply fin_round_wf; [|lia].
    apply Z.mul_nonneg_nonneg; [lia | apply Z.pow_nonneg; lia].
Qed.

Lemma of_Z_wf n : wf (of_Z f n).
Proof.
  pose proof emin_neg. apply fin_round_wf; [|lia].
  apply Z.mul_nonneg_nonneg; [lia | apply Z.pow_nonneg; lia].
Qed.

(** *** Monotone operations on non-negative values *)

Lemma of_Z_nonneg n : 0 <= n -> nonneg (of_Z f n).
Proof.
  intros Hn. unfold of_Z. pose proof emin_neg.
  destruct (Z.ltb_spec n 0); [lia |]. apply fin_round_nonneg; [|lia].
  apply Z.mul_nonneg_nonneg; [lia | apply Z.pow_nonneg; lia].
Qed.

Lemma of_Z_mono m n : 0 <= m -> m <= n -> rank (of_Z f m) <= rank (of_Z f n).
Proof.
  intros Hm Hmn. unfold of_Z. pose proof emin_neg.
  destruct (Z.ltb_spec m 0); [lia |]. destruct (Z.ltb_spec n 0); [lia |].
  rewrite !fin_round_rank.
  assert (0 < 2 ^ (- emin f)) by (apply Z.pow_pos_nonneg; lia).
  pose proof (round_mag_mono f (Z.abs m * 2 ^ (- emin f)) 1
    (Z.abs n * 2 ^ (- emin f)) 1 ltac:(nia) ltac:(nia) ltac:(lia) ltac:(lia)
    ltac:(nia)).
  lia.
Qed.

Lemma fadd_nonneg x y : nonneg x -> nonneg y -> nonneg (fadd f x y).
Proof.
  destruct x as [|[]|[] a], y as [|[]|[] b]; simpl; try done.
  intros. destruct (Z.eqb_spec (a + b) 0); [done |].
  destruct (Z.ltb_spec (a + b) 0); [lia |]. apply fin_round_nonneg; lia.
Qed.

(** The rounded sum as a function of the exact one. *)
Lemma fadd_rank x y :
  wf x -> wf y -> nonneg x -> nonneg y ->
  rank (fadd f x y) =
    Z.min (round_mag f (Z.min (rank x + rank y) (2 * limit f)) 1) (limit f).
Proof.
  intros Wx Wy Nx Ny. pose proof limit_pos as HL.
  assert (Hbig : forall v, limit f <= v -> limit f <= round_mag f v 1).
  { intros v Hv.
    assert (E : round_mag f (limit f) 1 = limit f).
    { pose proof prec_pos. pose proof emin_neg. pose proof emax_big.
      unfold limit. replace (2 ^ (emax f - emin f))
        with (2 ^ (prec f - 1) * 2 ^ (emax f - emin f - (prec f - 1)))
        by (rewrite <- Z.pow_add_r by lia; f_equal; lia).
      apply (round_mag_exact f); [|lia|lia].
      split; [apply Z.pow_nonneg; lia | apply Z.pow_lt_mono_r; lia]. }
    rewrite <- E at 1. apply (round_mag_mono f); lia. }
  destruct x as [|[]|[] a], y as [|[]|[] b]; simpl in Nx, Ny; try done; simpl rank.
  - pose proof (Hbig (Z.min (limit f + limit f) (2 * limit f)) ltac:(lia)). lia.
  - simpl in Wy. pose proof (Hbig (Z.min (limit f + b) (2 * limit f)) ltac:(lia)). lia.
  - simpl in Wx. pose proof (Hbig (Z.min (a + limit f) (2 * limit f)) ltac:(lia)). lia.
  - simpl in Wx, Wy. simpl fadd.
    replace (Z.min (a + b) (2 * limit f)) with (a + b) by lia.
    destruct (Z.eqb_spec (a + b) 0) as [->|].
    + rewrite round_mag_0 by lia. simpl. lia.
    + destruct (Z.ltb_spec (a + b) 0); [lia |].
      rewrite fin_round_rank, Z.abs_eq by lia. done.
Qed.

Lemma fadd_mono x x' y y' :
  wf x -> wf x' -> wf y -> wf y' ->
  nonneg x -> nonneg x' -> nonneg y -> nonneg y' ->
  rank x <= rank x' -> rank y <= rank y' ->
  rank (fadd f x y) <= rank (fadd f x' y').
Proof.
  intros. rewrite !fadd_rank by done. pose proof limit_pos.
  pose proof (nonneg_rank x ltac:(done)). pose proof (nonneg_rank y ltac:(done)).
  pose proof (round_mag_mono f (Z.min (rank x + rank y) (2 * limit f)) 1
    (Z.min (rank x' + rank y') (2 * limit f)) 1
    ltac:(lia) ltac:(lia) ltac:(lia) ltac:(lia) ltac:(lia)).
  lia.
Qed.

Lemma fadd_zero_l x : wf x -> nonneg x -> fadd f fzero x = x.
Proof.
  intros Wx Nx. destruct x as [|[]|[] m]; try done. unfold fadd, fzero, signed.
  simpl in Nx. rewrite Z.add_0_l. destruct (Z.eqb_spec m 0) as [->|]; [done |].
  destruct (Z.ltb_spec m 0); [lia |]. rewrite Z.abs_eq by lia.
  by apply fin_round_id.
Qed.

Lemma fadd_zero_r x : wf x -> nonneg x -> fadd f x fzero = x.
Proof.
  intros Wx Nx. destruct x as [|[]|[] m]; try done. unfold fadd, fzero, signed.
  simpl in Nx. rewrite Z.add_0_r. destruct (Z.eqb_spec m 0) as [->|]; [done |].
  destruct (Z.ltb_spec m 0); [lia |]. rewrite Z.abs_eq by lia.
  by apply fin_round_id.
Qed.

(** Adding to zero keeps the value; a negative zero loses its sign. *)
Lemma fadd_zero_rank x : wf x -> rank (fadd f fzero x) = rank x.
Proof.
  intros Wx. destruct x as [|s|s m]; try done. unfold fadd, fzero. cbn [signed].
  rewrite Z.add_0_l. destruct Wx as [Bm Em].
  destruct (Z.eqb_spec (signed s m) 0) as [Ez|Ez]; [by destruct s |].
  assert (Hs : (signed s m <? 0) = s /\ Z.abs (signed s m) = m).
  { destruct s; simpl in *; lia. }
  destruct Hs as [-> ->]. by rewrite fin_round_id.
Qed.

(** Division by a fixed positive finite value is monotone. *)
Lemma fdiv_pos_nonneg x b : nonneg x -> 0 < b -> nonneg (fdiv f x (Fin false b)).
Proof.
  pose proof emin_neg. intros Nx Hb. destruct x as [|[]|[] a]; simpl in *; try done.
  destruct (Z.eqb_spec b 0); [lia |].
  apply fin_round_nonneg; [|lia].
  apply Z.mul_nonneg_nonneg; [lia | apply Z.pow_nonneg; lia].
Qed.

Lemma scale_mono a a' p b : a <= a' -> 0 <= p -> 0 <= b -> a * p * b <= a' * p * b.
Proof. intros. by apply Z.mul_le_mono_nonneg_r, Z.mul_le_mono_nonneg_r. Qed.

Lemma fdiv_mono_l x x' b :
  nonneg x -> nonneg x' -> wf x -> wf x' -> 0 < b -> rank x <= rank x' ->
  rank (fdiv f x (Fin false b)) <= rank (fdiv f x' (Fin false b)).
Proof.
  pose proof emin_neg. pose proof limit_pos. intros Nx Nx' Wx Wx' Hb Hle.
  assert (0 < 2 ^ (- emin f)) by (apply Z.pow_pos_nonneg; lia).
  destruct x as [|[]|[] a], x' as [|[]|[] a']; simpl in *; try done; try lia;
    destruct (Z.eqb_spec b 0); try lia; simpl; rewrite !fin_round_rank; [lia |].
  pose proof (round_mag_mono f (a * 2 ^ (- emin f)) b (a' * 2 ^ (- emin f)) b
    ltac:(nia) ltac:(nia) ltac:(lia) ltac:(lia) ltac:(apply scale_mono; lia)).
  lia.
Qed.

(** The reciprocal of a positive finite value is antitone; a zero
    denominator gives the infinity and an infinite one gives zero. *)
Lemma fdiv_recip_nonneg a y : 0 < a -> nonneg y -> nonneg (fdiv f (Fin false a) y).
Proof.
  pose proof emin_neg. intros Ha Ny. destruct y as [|[]|[] b]; simpl in *; try done.
  destruct (Z.eqb_spec b 0); [by destruct (Z.eqb_spec a 0); [lia |] |].
  apply fin_round_nonneg; [|lia].
  apply Z.mul_nonneg_nonneg; [lia | apply Z.pow_nonneg; lia].
Qed.

Lemma fdiv_recip_anti a y y' :
  0 < a -> nonneg y -> nonneg y' -> wf y -> wf y' -> rank y <= rank y' ->
  rank (fdiv f (Fin false a) y') <= rank (fdiv f (Fin false a) y).
Proof.
  pose proof emin_neg. pose proof limit_pos. intros Ha Ny Ny' Wy Wy' Hle.
  assert (0 < 2 ^ (- emin f)) by (apply Z.pow_pos_nonneg; lia).
  pose proof (nonneg_rank _ (fdiv_recip_nonneg a y Ha Ny)) as N0.
  destruct y as [|[]|[] b], y' as [|[]|[] b']; simpl in *; try done; try lia.
  destruct (Z.eqb_spec b' 0), (Z.eqb_spec b 0), (Z.eqb_spec a 0); try lia; simpl;
    rewrite ?fin_round_rank; try lia.
  pose proof (round_mag_mono f (a * 2 ^ (- emin f)) b' (a * 2 ^ (- emin f)) b
    ltac:(nia) ltac:(nia) ltac:(lia) ltac:(lia)
    ltac:(apply Z.mul_le_mono_nonneg_l; [nia | lia])).
  lia.
Qed.

(** Subtracting a finite [c] from values that are at least [c]. *)
Lemma fsub_nonneg x c :
  nonneg x -> wf (Fin false c) -> rank (Fin false c) <= rank x ->
  nonneg (fsub f x (Fin false c)).
Proof.
  intros Nx Wc Hle. destruct x as [|[]|[] a]; simpl in *; try done.
  destruct (Z.eqb_spec (a + - c) 0); [done |].
  destruct (Z.ltb_spec (a + - c) 0); [lia |]. apply fin_round_nonneg; lia.
Qed.

Lemma fsub_mono x x' c :
  nonneg x -> nonneg x' -> wf x -> wf x' -> wf (Fin false c) ->
  rank (Fin false c) <= rank x -> rank x <= rank x' ->
  rank (fsub f x (Fin false c)) <= rank (fsub f x' (Fin false c)).
Proof.
  intros Nx Nx' Wx Wx' Wc Hc Hle.
  pose proof (nonneg_rank _ (fsub_nonneg x' c Nx' Wc ltac:(lia))) as N'.
  pose proof (wf_abs_rank _ (fsub_wf x' _ Wx' Wc)) as B'.
  destruct x as [|[]|[] a], x' as [|[]|[] a']; simpl in *; try done; try lia.
  - destruct (Z.eqb_spec (a + - c) 0); [pose proof limit_pos; simpl; lia |].
    destruct (Z.ltb_spec (a + - c) 0); [lia |].
    rewrite fin_round_rank. lia.
  - destruct (Z.eqb_spec (a + - c) 0), (Z.ltb_spec (a + - c) 0),
      (Z.eqb_spec (a' + - c) 0), (Z.ltb_spec (a' + - c) 0); try lia; simpl; try lia;
      rewrite !fin_round_rank.
    pose proof (round_mag_mono f (Z.abs (a + - c)) 1 (Z.abs (a' + - c)) 1
      ltac:(lia) ltac:(lia) ltac:(lia) ltac:(lia) ltac:(lia)).
    lia.
Qed.
(** Weights: finite, at least zero, of either zero. *)
Definition impact (x : float) : Prop :=
  wf x /\ match x with Fin s m => s = true -> m = 0 | _ => False end.

(** A product of weights; it may overflow, and zero may have a sign. *)
Definition addend (t : float) : Prop := wf t /\ (nonneg t \/ t = Fin true 0).

Lemma addend_rank t : addend t -> 0 <= rank t.
Proof. intros [_ [?| ->]]; [by apply nonneg_rank | done]. Qed.

Lemma impact_addend x : impact x -> addend x.
Proof.
  intros [Hw Hx]. split; [done |]. destruct x as [| |[] m]; try done.
  - right. by rewrite Hx.
  - left. simpl in *. lia.
Qed.

Lemma fmul_addend x y : impact x -> impact y -> addend (fmul f x y).
Proof.
  pose proof emin_neg. intros [Wx Hx] [Wy Hy]. split; [by apply fmul_wf |].
  destruct x as [| |s a], y as [| |t b]; try done. simpl in Wx, Wy. unfold fmul.
  assert (0 < 2 ^ (- emin f)) by (apply Z.pow_pos_nonneg; lia).
  destruct (xorb s t) eqn:E; [right | left; apply fin_round_nonneg; nia].
  assert (a * b = 0) as ->.
  { destruct s, t; try done; [rewrite Hx by done | rewrite Hy by done]; lia. }
  unfold fin_round. rewrite round_mag_0 by lia. pose proof limit_pos.
  by destruct (Z.ltb_spec 0 (limit f)); [|lia].
Qed.

Lemma fmul_mono_l x x' y :
  impact x -> impact x' -> impact y -> rank x <= rank x' ->
  rank (fmul f x y) <= rank (fmul f x' y).
Proof.
  intros Hx Hx' Hy Hle. pose proof emin_neg. pose proof limit_pos.
  pose proof (addend_rank _ (fmul_addend x' y Hx' Hy)) as Hpos.
  destruct Hx as [Wx Hx], Hx' as [Wx' Hx'], Hy as [Wy Hy].
  destruct x as [| |s a], x' as [| |s' a'], y as [| |t b]; try done. simpl in Wx, Wx', Wy, Hle.
  assert (0 < 2 ^ (- emin f)) by (apply Z.pow_pos_nonneg; lia).
  assert (Ha : a <= a') by (destruct s, s'; simpl in Hle; try rewrite Hx by done; lia).
  assert (Hr : forall u c, 0 <= c -> (u = true -> c = 0) ->
    rank (fin_round f u c (2 ^ (- emin f))) = Z.min (round_mag f c (2 ^ (- emin f))) (limit f)).
  { intros [] c Hc Hz; [|apply fin_round_rank]. rewrite Hz by done. unfold fin_round.
    rewrite round_mag_0 by lia. destruct (Z.ltb_spec 0 (limit f)); simpl; lia. }
  unfold fmul. rewrite !Hr; [| nia | | nia |].
  - pose proof (round_mag_mono f (a * b) (2 ^ (- emin f)) (a' * b) (2 ^ (- emin f))
      ltac:(nia) ltac:(nia) ltac:(lia) ltac:(lia) ltac:(apply scale_mono; lia)). lia.
  - destruct s', t; try done; intros _; [rewrite Hx' by done | rewrite Hy by done]; lia.
  - destruct s, t; try done; intros _; [rewrite Hx by done | rewrite Hy by done]; lia.
Qed.

Lemma fadd_negative_zero a : wf a -> nonneg a -> fadd f a (Fin true 0) = a.
Proof.
  intros Wa Na. rewrite <- (fadd_zero_r a) at 2 by done. by destruct a as [| |[] m].
Qed.

Lemma fadd_addend a t : wf a -> nonneg a -> addend t -> nonneg (fadd f a t).
Proof.
  intros Wa Na [Wt [Nt| ->]]; [by apply fadd_nonneg | by rewrite fadd_negative_zero].
Qed.

Lemma fadd_addend_mono a a' t t' :
  wf a -> wf a' -> nonneg a -> nonneg a' -> addend t -> addend t' ->
  rank a <= rank a' -> rank t <= rank t' -> rank (fadd f a t) <= rank (fadd f a' t').
Proof.
  intros Wa Wa' Na Na' [Wt [Nt| ->]] [Wt' [Nt'| ->]] Ha Ht.
  - by apply fadd_mono.
  - rewrite fadd_negative_zero by done. simpl in Ht.
    rewrite <- (fadd_zero_r a') by done. apply fadd_mono; try done; apply (wf_zero false).
  - rewrite fadd_negative_zero by done. rewrite <- (fadd_zero_r a) by done.
    apply fadd_mono; try done; apply (wf_zero false).
  - by rewrite !fadd_negative_zero.
Qed.
End Values.

#[global] Arguments fadd f x y : simpl never.
#[global] Arguments fsub f x y : simpl never.
#[global] Arguments fmul f x y : simpl never.
#[global] Arguments fdiv f x y : simpl never.
#[global] Arguments of_Z f n : simpl never.

(** ** Representable magnitudes *)

Section Representable.
Context (f : format) {Hf : Format_ok f}.

Lemma shift_of_split m : (0 <= m) -> round_mag f m 1 = m -> exists k, m = (k * 2 ^ shift_of f m).
Proof. intros Hm E. exists (rne m (1 * 2 ^ shift_of f m)). unfold round_mag in E. by rewrite Z.div_1_r in E. Qed.

Lemma round_mag_fits m e : (0 <= m <= 2 ^ prec f) -> (0 <= e) -> round_mag f (m * 2 ^ e) 1 = (m * 2 ^ e).
Proof.
  intros Hm He. pose proof (prec_pos (f := f)) as Hp. assert (Hpe : (0 < 2 ^ e)) by (apply Z.pow_pos_nonneg; lia).
  unfold round_mag. rewrite Z.div_1_r, Z.mul_1_l. set (e' := shift_of f (m * 2 ^ e)).
  destruct (Z.eq_dec m 0) as [->|Hz].
  { rewrite Z.mul_0_l in *. rewrite <- (Z.mul_0_l (2 ^ e')), rne_exact; [lia |].
    apply Z.pow_pos_nonneg; [lia | apply shift_of_nonneg]. }
  destruct (Z.eq_dec m (2 ^ prec f)) as [Em|Hne].
  - assert (Es : e' = (e + 1)).
    { unfold e', shift_of. rewrite Em, <- Z.pow_add_r, Z.log2_pow2 by lia. lia. }
    rewrite Es, Em. replace (2 ^ prec f * 2 ^ e) with (2 ^ (prec f - 1) * 2 ^ (e + 1)) by (rewrite <- !Z.pow_add_r by lia; f_equal; lia).
    rewrite rne_exact; [done | apply Z.pow_pos_nonneg; lia].
  - assert (Hs : (e' <= e)).
    { unfold e', shift_of. rewrite Z.log2_mul_pow2 by lia. assert (Z.log2 m < prec f) by (apply Z.log2_lt_pow2; lia). lia. }
    pose proof (shift_of_nonneg f (m * 2 ^ e)). fold e' in H.
    replace (m * 2 ^ e) with (m * 2 ^ (e - e') * 2 ^ e') by (rewrite <- Z.mul_assoc, <- Z.pow_add_r by lia; do 2 f_equal; lia).
    rewrite rne_exact; [done | apply Z.pow_pos_nonneg; lia].
Qed.

Lemma shift_of_0 : shift_of f 0 = 0.
Proof. unfold shift_of. pose proof (prec_pos (f := f)). simpl. lia. Qed.

(** The neighbour above a magnitude. *)
Lemma next_mag_fits m : (0 <= m) -> round_mag f m 1 = m -> round_mag f (m + 2 ^ shift_of f m) 1 = (m + 2 ^ shift_of f m).
Proof.
  intros Hm Hr. destruct (shift_of_split m Hm Hr) as [k Ek].
  assert (Hpos : (0 < 2 ^ shift_of f m)) by (apply Z.pow_pos_nonneg; [lia | apply shift_of_nonneg]).
  pose proof (shift_of_upper f m 1 ltac:(lia) ltac:(lia)) as Hu. rewrite Z.div_1_r, Z.mul_1_l in Hu.
  set (e := shift_of f m) in *. replace (m + 2 ^ e) with ((k + 1) * 2 ^ e) by lia.
  apply round_mag_fits; [|apply shift_of_nonneg]. split; [nia |].
  assert (k < 2 ^ prec f); [|lia]. rewrite Ek in Hu. apply (Z.mul_lt_mono_pos_r (2 ^ e)); lia.
Qed.

Lemma shift_pow_le m : (0 < m) -> (2 ^ shift_of f m <= m).
Proof.
  intros Hm. unfold shift_of. pose proof (prec_pos (f := f)). pose proof (Z.log2_nonneg m).
  transitivity (2 ^ Z.log2 m); [apply Z.pow_le_mono_r; lia | apply Z.log2_spec; lia].
Qed.
End Representable.

(** ** [f64] *)

Declare Scope f64_scope.
Delimit Scope f64_scope with f64.
Infix "+" := (fadd binary64) : f64_scope.
Infix "-" := (fsub binary64) : f64_scope.
Infix "*" := (fmul binary64) : f64_scope.
Infix "/" := (fdiv binary64) : f64_scope.

(** [f64::from(x)]: every [f32] is an [f64], counted in a smaller unit. *)
Definition f64_of_f32 (x : float) : float :=
  match x with
  | Fin s m => Fin s (m * 2 ^ (emin binary32 - emin binary64))
  | _ => x
  end.

(** [x as f32] *)
Definition f32_of_f64 (x : float) : float :=
  match x with
  | Fin s m => fin_round binary32 s m (2 ^ (emin binary32 - emin binary64))
  | _ => x
  end.

Definition f64_one : float := of_Z binary64 1.
Definition f64_of_nat (n : nat) : float := of_Z binary64 (Z.of_nat n).

(** ** Finite values on the integer line *)

(** The value of a finite float, in units of its format. *)
Definition val (x : float) : Z := match x with Fin s m => signed s m | _ => 0 end.

Section Finite.
Context (x y : float).
Hypotheses (Hx : is_finite x = true) (Hy : is_finite y = true).

Lemma finite_compare : fcompare x y = Some (Z.compare (val x) (val y)).
Proof. by destruct x, y. Qed.

Lemma finite_ordered : ordered_cmp x y = Z.compare (val x) (val y).
Proof. unfold ordered_cmp. by rewrite finite_compare. Qed.

Lemma finite_lt : flt x y = (val x <? val y)%Z.
Proof. unfold flt. rewrite finite_compare. unfold Z.ltb. by destruct (Z.compare _ _). Qed.

Lemma finite_eq : feq x y = (val x =? val y)%Z.
Proof.
  unfold feq. rewrite finite_compare. destruct (Z.compare_spec (val x) (val y)).
  - symmetry. by apply Z.eqb_eq.
  - symmetry. apply Z.eqb_neq. lia.
  - symmetry. apply Z.eqb_neq. lia.
Qed.
End Finite.

Lemma finite_f64 x : is_finite (f64_of_f32 x) = is_finite x.
Proof. by destruct x. Qed.

Definition f64_unit : Z := 2 ^ (emin binary32 - emin binary64).

Lemma f64_unit_pos : (0 < f64_unit)%Z.
Proof. vm_compute. reflexivity. Qed.

Lemma val_f64 x : val (f64_of_f32 x) = (val x * f64_unit)%Z.
Proof.
  destruct x as [| |b m]; [done | done |].
  change (f64_of_f32 (Fin b m)) with (Fin b (m * f64_unit)). unfold val, signed. destruct b; ring.
Qed.

#[global] Opaque f64_unit.
