(* ===== verification/Order.v ===== *)
(** * Orders, sorting and priority queues

    Rust's [Ord::cmp] is a function into [Ordering]; this file has the
    library functions the modelled code calls with such a function:
    [Ordering::then_with], [sort_unstable_by], [Iterator::min_by] and
    [max_by], [Vec::swap_remove], and [BinaryHeap] as a bag whose [pop] takes
    a greatest element. *)

From S2P Require Import Prelude Float.

#[export] Instance comparison_eq_dec : EqDecision comparison.
Proof. solve_decision. Defined.

(** ** Comparison functions *)

(** [a.then_with(|| b)] *)
Definition then_with (a b : comparison) : comparison :=
  match a with Eq => b | _ => a end.

(** A comparison function that is a total preorder. *)
Class TotalCmp {A : Type} (cmp : A -> A -> comparison) : Prop := {
  cmp_opp : forall x y, cmp y x = CompOpp (cmp x y);
  cmp_trans : forall x y z, cmp x y <> Gt -> cmp y z <> Gt -> cmp x z <> Gt;
}.

Arguments cmp_opp {A} cmp {_} x y.
Arguments cmp_trans {A} cmp {_} x y z.

Definition cmp_le {A} (cmp : A -> A -> comparison) (x y : A) : Prop := cmp x y <> Gt.

#[export] Instance cmp_le_dec {A} (cmp : A -> A -> comparison) : RelDecision (cmp_le cmp).
Proof. intros x y. unfold cmp_le. apply _. Defined.

Section TotalCmp.
Context {A : Type} (cmp : A -> A -> comparison) `{!TotalCmp cmp}.

Lemma cmp_refl x : cmp x x = Eq.
Proof. pose proof (cmp_opp cmp x x). by destruct (cmp x x). Qed.

Lemma cmp_gt_lt x y : cmp x y = Gt <-> cmp y x = Lt.
Proof. rewrite (cmp_opp cmp x y). by destruct (cmp x y). Qed.

Lemma cmp_eq_sym x y : cmp x y = Eq <-> cmp y x = Eq.
Proof. rewrite (cmp_opp cmp x y). by destruct (cmp x y). Qed.

#[export] Instance cmp_le_trans : Transitive (cmp_le cmp).
Proof. intros x y z. apply (cmp_trans cmp). Qed.

#[export] Instance cmp_le_total : Total (cmp_le cmp).
Proof.
  intros x y. unfold cmp_le. rewrite (cmp_opp cmp x y).
  destruct (cmp x y); simpl; naive_solver.
Qed.

Lemma cmp_lt_le_trans x y z : cmp x y = Lt -> cmp y z <> Gt -> cmp x z = Lt.
Proof.
  intros H1 H2. destruct (cmp x z) eqn:E; [|done|].
  - assert (cmp z x <> Gt) by (rewrite (cmp_opp cmp), E; done).
    pose proof (cmp_trans cmp y z x H2 ltac:(done)) as H3.
    rewrite (cmp_opp cmp), H1 in H3. done.
  - pose proof (cmp_trans cmp x y z). rewrite H1, E in *. naive_solver.
Qed.

Lemma cmp_le_lt_trans x y z : cmp x y <> Gt -> cmp y z = Lt -> cmp x z = Lt.
Proof.
  intros H1 H2. destruct (cmp x z) eqn:E; [|done|].
  - assert (cmp z x <> Gt) by (rewrite (cmp_opp cmp), E; done).
    pose proof (cmp_trans cmp z x y ltac:(done) H1) as H3.
    rewrite (cmp_opp cmp), H2 in H3. done.
  - pose proof (cmp_trans cmp x y z H1). rewrite H2, E in *. naive_solver.
Qed.
End TotalCmp.

(** Comparing through a key, and lexicographically. *)
Lemma TotalCmp_key {A B} (cmp : B -> B -> comparison) (g : A -> B) :
  TotalCmp cmp -> TotalCmp (fun x y => cmp (g x) (g y)).
Proof. intros [H1 H2]. split; eauto. Qed.

Lemma TotalCmp_flip {A} (cmp : A -> A -> comparison) :
  TotalCmp cmp -> TotalCmp (fun x y => cmp y x).
Proof. intros [H1 H2]. split; eauto. Qed.

Lemma TotalCmp_then {A} (c1 c2 : A -> A -> comparison) :
  TotalCmp c1 -> TotalCmp c2 -> TotalCmp (fun x y => then_with (c1 x y) (c2 x y)).
Proof.
  intros T1 T2. split.
  - intros x y. rewrite (cmp_opp c1 x y), (cmp_opp c2 x y).
    by destruct (c1 x y).
  - intros x y z H1 H2.
    destruct (c1 x y) eqn:E1; simpl in H1; try done.
    + destruct (c1 y z) eqn:E2; simpl in H2; try done.
      * pose proof (cmp_trans c1 x y z). pose proof (cmp_trans c1 z y x).
        rewrite (cmp_opp c1 y z), (cmp_opp c1 x y),
          (cmp_opp c1 x z) in *.
        rewrite E1, E2 in *. simpl in *.
        destruct (c1 x z); simpl in *; [|done|naive_solver].
        by apply (cmp_trans c2 x y z).
      * rewrite (cmp_le_lt_trans c1 x y z); [done | by rewrite E1 | done].
    + rewrite (cmp_lt_le_trans c1 x y z); [done | done |].
      by destruct (c1 y z).
Qed.

#[export] Instance Zcompare_TotalCmp : TotalCmp Z.compare.
Proof.
  split.
  - intros. apply Z.compare_antisym.
  - intros x y z. unfold not. rewrite !Z.compare_gt_iff. lia.
Qed.

#[export] Instance Ncompare_TotalCmp : TotalCmp N.compare.
Proof.
  split.
  - intros. apply N.compare_antisym.
  - intros x y z. unfold not. rewrite !N.compare_gt_iff. lia.
Qed.

#[export] Instance Natcompare_TotalCmp : TotalCmp Nat.compare.
Proof.
  split.
  - intros. apply Nat.compare_antisym.
  - intros x y z. unfold not. rewrite !Nat.compare_gt_iff. lia.
Qed.

(** [OrderedFloat] is a total order on all values, NaN included. *)
#[export] Instance ordered_cmp_TotalCmp : TotalCmp ordered_cmp.
Proof.
  set (c (x : float) := (match x with
    | NaN => 2 | Inf false => 1 | Fin _ _ => 0 | Inf true => -1 end)%Z).
  set (v (x : float) := match x with Fin s m => signed s m | _ => 0%Z end).
  assert (E : forall x y, ordered_cmp x y =
    then_with (Z.compare (c x) (c y)) (Z.compare (v x) (v y))).
  { intros [|[]|? ?] [|[]|? ?]; reflexivity. }
  pose proof (TotalCmp_then _ _ (TotalCmp_key Z.compare c _) (TotalCmp_key Z.compare v _))
    as [H1 H2].
  split; intros *; rewrite !E; eauto.
Qed.

(** ** [sort_unstable_by] *)

Definition sort_by {A} (cmp : A -> A -> comparison) (l : list A) : list A :=
  merge_sort (cmp_le cmp) l.

Section Sorting.
Context {A : Type} (cmp : A -> A -> comparison) `{!TotalCmp cmp}.

Lemma sort_by_perm l : sort_by cmp l ≡ₚ l.
Proof. apply merge_sort_Permutation. Qed.

Lemma sort_by_sorted l : StronglySorted (cmp_le cmp) (sort_by cmp l).
Proof. apply StronglySorted_merge_sort; apply _. Qed.

(** Two sorted arrangements of elements that only tie when equal agree. *)
Lemma sorted_unique l1 l2 :
  (forall x y, x ∈ l1 -> y ∈ l1 -> cmp x y = Eq -> x = y) ->
  StronglySorted (cmp_le cmp) l1 -> StronglySorted (cmp_le cmp) l2 ->
  l1 ≡ₚ l2 -> l1 = l2.
Proof.
  intros Hanti S1 S2 P.
  apply (StronglySorted_unique_strong (cmp_le cmp)); [|done..].
  intros x y Hx Hy H1 H2. apply Hanti; [done | by rewrite P |].
  unfold cmp_le in *. rewrite (cmp_opp cmp x y) in H2.
  by destruct (cmp x y).
Qed.

(** An element strictly below all the others is the head. *)
Lemma sorted_head x l l' :
  StronglySorted (cmp_le cmp) l -> l ≡ₚ x :: l' ->
  (forall y, y ∈ l' -> cmp x y = Lt) ->
  exists l'', l = x :: l'' /\ l'' ≡ₚ l'.
Proof.
  intros S P H. destruct l as [|z l]; [by apply Permutation_nil_cons in P |].
  assert (z ∈ x :: l') as [->|Hz]%elem_of_cons by (rewrite <- P; left).
  - exists l. split; [done |]. by apply (Permutation_cons_inv (a:=x)).
  - exfalso. apply StronglySorted_inv in S as [_ S].
    assert (x ∈ z :: l) as [Hx|Hx]%elem_of_cons by (rewrite P; left).
    + subst. pose proof (H _ Hz) as E. by rewrite (cmp_refl cmp) in E.
    + rewrite Forall_forall in S. specialize (S _ Hx). unfold cmp_le in S.
      rewrite (cmp_opp cmp), (H _ Hz) in S. done.
Qed.
End Sorting.

(** ** [Iterator::min_by] and [Iterator::max_by] *)

(** The first of several equally small elements. *)
Definition min_by {A} (cmp : A -> A -> comparison) (l : list A) : option A :=
  match l with
  | [] => None
  | x :: l => Some (fold_left (fun x y => match cmp x y with Gt => y | _ => x end) l x)
  end.

(** The last of several equally great elements. *)
Definition max_by {A} (cmp : A -> A -> comparison) (l : list A) : option A :=
  match l with
  | [] => None
  | x :: l => Some (fold_left (fun x y => match cmp x y with Gt => x | _ => y end) l x)
  end.

Section MinMax.
Context {A : Type} (cmp : A -> A -> comparison) `{!TotalCmp cmp}.

Lemma min_fold_spec l x :
  let m := fold_left (fun x y => match cmp x y with Gt => y | _ => x end) l x in
  m ∈ x :: l /\ forall y, y ∈ x :: l -> cmp m y <> Gt.
Proof.
  revert x. induction l as [|z l IH]; intros x; simpl.
  - split; [left |]. intros y ->%list_elem_of_singleton. by rewrite (cmp_refl cmp).
  - destruct (IH (match cmp x z with Gt => z | _ => x end)) as [I1 I2].
    split.
    + rewrite !elem_of_cons in *. destruct (cmp x z); tauto.
    + intros y Hy.
      assert (Hm : forall w, w = x \/ w = z ->
        cmp (match cmp x z with Gt => z | _ => x end) w <> Gt).
      { intros w [->| ->]; destruct (cmp x z) eqn:E; rewrite ?(cmp_refl cmp); try done;
          try (by rewrite E). apply (cmp_gt_lt cmp) in E. by rewrite E. }
      rewrite !elem_of_cons in Hy. destruct Hy as [Hy|[Hy|Hy]].
      * eapply (cmp_trans cmp); [apply I2; left | apply Hm; auto].
      * eapply (cmp_trans cmp); [apply I2; left | apply Hm; auto].
      * apply I2. by right.
Qed.

Lemma min_by_spec l m :
  min_by cmp l = Some m -> m ∈ l /\ forall y, y ∈ l -> cmp m y <> Gt.
Proof. destruct l as [|x l]; [done |]. intros [= <-]. apply min_fold_spec. Qed.

Lemma min_by_None l : min_by cmp l = None <-> l = [].
Proof. by destruct l. Qed.

Lemma max_fold_elem l x :
  fold_left (fun x y => match cmp x y with Gt => x | _ => y end) l x ∈ x :: l.
Proof.
  revert x. induction l as [|z l IH]; intros x; simpl; [left |].
  specialize (IH (match cmp x z with Gt => x | _ => z end)).
  rewrite !elem_of_cons in *. destruct (cmp x z); tauto.
Qed.

Lemma max_by_elem l m : max_by cmp l = Some m -> m ∈ l.
Proof. destruct l; [done |]. intros [= <-]. apply max_fold_elem. Qed.

Lemma max_fold_spec l x :
  let m := fold_left (fun x y => match cmp x y with Gt => x | _ => y end) l x in
  forall y, y ∈ x :: l -> cmp y m <> Gt.
Proof.
  revert x. induction l as [|z l IH]; intros x; simpl.
  - intros y ->%list_elem_of_singleton. by rewrite (cmp_refl cmp).
  - intros y Hy. set (b := match cmp x z with Gt => x | _ => z end).
    assert (Hm : forall w, w = x \/ w = z -> cmp w b <> Gt).
    { intros w [->| ->]; unfold b; destruct (cmp x z) eqn:E; rewrite ?(cmp_refl cmp); try done;
        try (by rewrite E). apply (cmp_gt_lt cmp) in E. by rewrite E. }
    rewrite !elem_of_cons in Hy. destruct Hy as [Hy|[Hy|Hy]].
    + eapply (cmp_trans cmp); [apply Hm; auto | apply IH; left].
    + eapply (cmp_trans cmp); [apply Hm; auto | apply IH; left].
    + apply IH. by right.
Qed.

Lemma max_by_spec l m :
  max_by cmp l = Some m -> m ∈ l /\ forall y, y ∈ l -> cmp y m <> Gt.
Proof.
  intros E. split; [by apply max_by_elem |]. destruct l; [done |].
  injection E as <-. apply max_fold_spec.
Qed.

Lemma max_by_None l : max_by cmp l = None <-> l = [].
Proof. by destruct l. Qed.
End MinMax.

(** ** [Vec::swap_remove] *)

(** The last element moves into the hole. *)
Definition swap_remove {A} (i : nat) (l : list A) : list A :=
  match last l with
  | None => l
  | Some z => if decide (S i = length l) then take i l else <[i := z]> (take (length l - 1) l)
  end.

(** ** [BinaryHeap]

    The heap holds a bag of elements; [peek] and [pop] give one that no other
    exceeds.  Which of several tying elements they give is not specified by
    the library, and no theorem depends on it. *)

Fixpoint select_max {A} (cmp : A -> A -> comparison) (x : A) (l : list A) : A * list A :=
  match l with
  | [] => (x, [])
  | y :: l =>
      let '(m, r) := select_max cmp y l in
      match cmp x m with Lt => (m, x :: r) | _ => (x, m :: r) end
  end.

Definition heap_pop {A} (cmp : A -> A -> comparison) (h : list A) : option (A * list A) :=
  match h with [] => None | x :: h => Some (select_max cmp x h) end.

Definition heap_peek {A} (cmp : A -> A -> comparison) (h : list A) : option A :=
  fst <$> heap_pop cmp h.

Definition heap_push {A} (x : A) (h : list A) : list A := x :: h.

Section Heap.
Context {A : Type} (cmp : A -> A -> comparison) `{!TotalCmp cmp}.

Lemma select_max_spec x l m r :
  select_max cmp x l = (m, r) ->
  x :: l ≡ₚ m :: r /\ forall y, y ∈ x :: l -> cmp y m <> Gt.
Proof.
  revert x m r. induction l as [|z l IH]; intros x m r; simpl.
  - intros [= <- <-]. split; [done |].
    intros y ->%list_elem_of_singleton. by rewrite (cmp_refl cmp).
  - destruct (select_max cmp z l) as [m' r'] eqn:E. destruct (IH _ _ _ E) as [P B].
    destruct (cmp x m') eqn:C; intros [= <- <-].
    + split; [by rewrite P |]. intros y [->|Hy]%elem_of_cons.
      * by rewrite (cmp_refl cmp).
      * eapply (cmp_trans cmp); [by apply B |]. rewrite (cmp_opp cmp), C. done.
    + split; [rewrite P; constructor |]. intros y [->|Hy]%elem_of_cons; [congruence |].
      by apply B.
    + split; [by rewrite P |]. intros y [->|Hy]%elem_of_cons.
      * by rewrite (cmp_refl cmp).
      * eapply (cmp_trans cmp); [by apply B |]. rewrite (cmp_opp cmp), C. done.
Qed.

Lemma heap_pop_spec h m r :
  heap_pop cmp h = Some (m, r) -> h ≡ₚ m :: r /\ forall y, y ∈ h -> cmp y m <> Gt.
Proof.
  destruct h as [|x h]; [done |]. simpl. intros [= E]. by apply select_max_spec.
Qed.

Lemma heap_pop_None h : heap_pop cmp h = None <-> h = [].
Proof. by destruct h. Qed.

Lemma heap_peek_spec h m :
  heap_peek cmp h = Some m -> m ∈ h /\ forall y, y ∈ h -> cmp y m <> Gt.
Proof.
  unfold heap_peek. destruct (heap_pop cmp h) as [[m' r]|] eqn:E; [|done].
  intros [= <-]. destruct (heap_pop_spec _ _ _ E) as [P B].
  split; [rewrite P; left | done].
Qed.

Lemma heap_peek_None h : heap_peek cmp h = None <-> h = [].
Proof. by destruct h. Qed.
End Heap.

Lemma swap_remove_perm {A} (l : list A) i x :
  l !! i = Some x -> l ≡ₚ x :: swap_remove i l.
Proof.
  intros Hi. unfold swap_remove.
  destruct l as [|z l _] using rev_ind; [done |].
  rewrite last_snoc, length_app. simpl.
  replace (length l + 1 - 1) with (length l) by lia.
  pose proof (lookup_lt_Some _ _ _ Hi) as Hlt. rewrite length_app in Hlt. simpl in Hlt.
  case_decide as Hd.
  - rewrite take_app_le, take_ge by lia.
    rewrite lookup_app_r in Hi by lia.
    replace (i - length l) with 0 in Hi by lia. injection Hi as <-.
    by rewrite Permutation_app_comm.
  - rewrite take_app_le, take_ge by lia.
    rewrite lookup_app_l in Hi by lia.
    rewrite <- (take_drop_middle l i x Hi) at 1.
    rewrite insert_take_drop by (apply lookup_lt_Some in Hi; lia).
    solve_Permutation.
Qed.
