(* ===== verification/PointId.v ===== *)
(** * Point identities and scored points

    [ExtendedPointId], [ScoredPoint] and [ScoredPointOffset] of
    lib/segment/src/types.rs and lib/common/common/src/types.rs, with the
    derived order on identities that every exact ranking breaks ties with. *)

From S2P Require Import Prelude Float Order.

(** [NumId] holds a [u64]; [Uuid] holds the 16 bytes of a UUID read as a
    big-endian number, whose order is the bytewise order of [uuid::Uuid]. *)
Inductive ExtendedPointId : Type :=
  | NumId (num : N)
  | Uuid (uuid : N).

#[export] Instance ExtendedPointId_eq_dec : EqDecision ExtendedPointId.
Proof. solve_decision. Defined.

#[export] Instance ExtendedPointId_countable : Countable ExtendedPointId.
Proof.
  apply (inj_countable'
    (fun i => match i with NumId n => inl n | Uuid u => inr u end)
    (fun s => match s with inl n => NumId n | inr u => Uuid u end)).
  by intros [].
Defined.

(** [#[derive(Ord)]]: the variant first, then its payload. *)
Definition id_cmp (a b : ExtendedPointId) : comparison :=
  match a, b with
  | NumId m, NumId n => N.compare m n
  | NumId _, Uuid _ => Lt
  | Uuid _, NumId _ => Gt
  | Uuid u, Uuid v => N.compare u v
  end.

Definition id_ltb (a b : ExtendedPointId) : bool :=
  match id_cmp a b with Lt => true | _ => false end.

#[export] Instance id_cmp_TotalCmp : TotalCmp id_cmp.
Proof.
  set (c (i : ExtendedPointId) := match i with NumId _ => 0%N | Uuid _ => 1%N end).
  set (v (i : ExtendedPointId) := match i with NumId n => n | Uuid u => u end).
  assert (E : forall a b, id_cmp a b =
    then_with (N.compare (c a) (c b)) (N.compare (v a) (v b))).
  { intros [] []; reflexivity. }
  pose proof (TotalCmp_then _ _ (TotalCmp_key N.compare c _) (TotalCmp_key N.compare v _))
    as [H1 H2].
  split; intros *; rewrite !E; eauto.
Qed.

Lemma id_cmp_eq a b : id_cmp a b = Eq <-> a = b.
Proof.
  destruct a, b; simpl; rewrite ?N.compare_eq_iff; split; congruence.
Qed.

(** A result of a search.  The payload, vector, shard key and order value that
    travel with it are never read by the modelled code and are left out. *)
Record ScoredPoint : Type := mkScoredPoint {
  sp_id : ExtendedPointId;
  sp_version : N;
  sp_score : float;
}.

#[export] Instance ScoredPoint_eq_dec : EqDecision ScoredPoint.
Proof. solve_decision. Defined.

(** A result inside one segment, named by its [u32] offset. *)
Record ScoredPointOffset : Type := mkScoredPointOffset {
  idx : N;
  score : float;
}.

#[export] Instance ScoredPointOffset_eq_dec : EqDecision ScoredPointOffset.
Proof. solve_decision. Defined.
