(* ===== verification/RrfScoring.v ===== *)
(** * Reciprocal rank fusion: the scoring functions

    lib/segment/src/common/reciprocal_rank_fusion/scoring.rs: the
    contribution of one rank, the order of fused identities, and the
    exhaustive composition [exact_rrf_scoring] that the incremental session
    must reproduce. *)

From S2P Require Import Prelude Float Order PointId.

(** ** [f32] notation *)

Declare Scope f32_scope.
Delimit Scope f32_scope with f32.
Infix "+" := (fadd binary32) : f32_scope.
Infix "-" := (fsub binary32) : f32_scope.
Infix "*" := (fmul binary32) : f32_scope.
Infix "/" := (fdiv binary32) : f32_scope.

(** [n as f32] *)
Definition f32_of_nat (n : nat) : float := of_Z binary32 (Z.of_nat n).

Definition f32_one : float := of_Z binary32 1.

(** [iter.sum::<f32>()]: a left fold from [-0.0]. *)
Definition f32_sum (l : list float) : float :=
  fold_left (fadd binary32) l (Fin true 0).

(** ** The scoring functions *)

Definition DEFAULT_RRF_K : nat := 2.

Definition position_score (position k : nat) (weight : float) : float :=
  if fle weight fzero then fzero
  else (f32_one /
        (f32_of_nat (position + 1) / weight + f32_of_nat k - f32_one))%f32.

Definition rrf_order (left_id : ExtendedPointId) (left_score : float)
    (right_id : ExtendedPointId) (right_score : float) : comparison :=
  then_with (ordered_cmp right_score left_score) (id_cmp left_id right_id).

Definition guaranteed_before (winner_id : ExtendedPointId) (winner_lower_bound : float)
    (challenger_id : ExtendedPointId) (challenger_upper_bound : float) : bool :=
  flt challenger_upper_bound winner_lower_bound
  || (feq winner_lower_bound challenger_upper_bound && id_ltb winner_id challenger_id).

(** One ranked answer of a source: accumulate its contribution, keeping the
    payload of the first occurrence. *)
Definition rrf_add_point (k : nat) (weight : float)
    (points_by_id : gmap ExtendedPointId ScoredPoint) (pos : nat) (point : ScoredPoint)
    : gmap ExtendedPointId ScoredPoint :=
  let rrf_score := position_score pos k weight in
  match points_by_id !! sp_id point with
  | Some entry =>
      <[sp_id point := {| sp_id := sp_id entry; sp_version := sp_version entry;
                          sp_score := (sp_score entry + rrf_score)%f32 |}]> points_by_id
  | None =>
      <[sp_id point := {| sp_id := sp_id point; sp_version := sp_version point;
                          sp_score := rrf_score |}]> points_by_id
  end.

(** The inner loop over one response, positions counted from [pos]. *)
Fixpoint rrf_add_response (k : nat) (weight : float)
    (points_by_id : gmap ExtendedPointId ScoredPoint) (pos : nat)
    (response : list ScoredPoint) : gmap ExtendedPointId ScoredPoint :=
  match response with
  | [] => points_by_id
  | point :: response =>
      rrf_add_response k weight (rrf_add_point k weight points_by_id pos point) (S pos) response
  end.

Definition rrf_accumulate (k : nat) (responses : list (list ScoredPoint))
    (weights : list float) : gmap ExtendedPointId ScoredPoint :=
  fold_left (fun m '(response, weight) => rrf_add_response k weight m 0 response)
    (zip responses weights) ∅.

Definition rrf_scoring (responses : list (list ScoredPoint)) (k : nat)
    (weights : option (list float)) : OperationResult (list ScoredPoint) :=
  let finish weights :=
    let scores := (map_to_list (rrf_accumulate k responses weights)).*2 in
    Ok (sort_by (fun a b => ordered_cmp (sp_score b) (sp_score a)) scores) in
  match weights with
  | Some weights =>
      if decide (length weights = length responses) then finish weights
      else Err (ValidationError
        "Number of weights in RRF should match number of pre-fetches: got {}, expected {}")
  | None => finish (replicate (length responses) f32_one)
  end.

Definition exact_rrf_scoring (responses : list (list ScoredPoint)) (k : nat)
    (weights : option (list float)) : OperationResult (list ScoredPoint) :=
  match rrf_scoring responses k weights with
  | Err e => Err e
  | Ok scores =>
      let scores := filter (fun point => flt fzero (sp_score point) = true) scores in
      Ok (sort_by (fun left right =>
            rrf_order (sp_id left) (sp_score left) (sp_id right) (sp_score right)) scores)
  end.

(** ** The specification: exhaustive weighted reciprocal rank fusion

    A source is its complete ranking, a list of identities.  The fused score
    of an identity adds, in source order, the contribution of its position in
    every source that ranks it. *)

Definition wrrf_contribution (k : nat) (weight : float)
    (stream : list ExtendedPointId) (id : ExtendedPointId) : option float :=
  (fun '(p, _) => position_score p k weight) <$> list_find (id =.) stream.

Definition wrrf_score (k : nat) (weights : list float)
    (streams : list (list ExtendedPointId)) (id : ExtendedPointId) : float :=
  f32_sum (zip_with (fun w st => default fzero (wrrf_contribution k w st id)) weights streams).

(** Ranked identities with their scores. *)
Abbreviation scored := (ExtendedPointId * float)%type.

Definition pair_order (a b : scored) : comparison := rrf_order a.1 a.2 b.1 b.2.

Definition wrrf_order (k : nat) (weights : list float)
    (streams : list (list ExtendedPointId)) : list ExtendedPointId :=
  (sort_by pair_order
     (filter (fun p : scored => flt fzero p.2 = true)
        ((fun id => (id, wrrf_score k weights streams id)) <$>
         remove_dups (concat streams)))).*1.

(** Weights that [DynamicRrfState::new] accepts: finite, not negative. *)
Definition weight_valid (w : float) : bool := is_finite w && negb (flt w fzero).

(** ** Arithmetic of scores *)

(** Every score is a representable value in [0, +inf]. *)
Definition score_ok (x : float) : Prop := wf binary32 x /\ nonneg x.

Lemma score_ok_zero : score_ok fzero.
Proof. split; [apply (wf_zero binary32 false) | simpl; lia]. Qed.

Lemma f32_one_eq : f32_one = Fin false (2 ^ 149)%Z.
Proof. vm_compute. reflexivity. Qed.

Lemma score_ok_of_nat n : score_ok (f32_of_nat n).
Proof. split; [apply (of_Z_wf binary32) | apply (of_Z_nonneg binary32); lia]. Qed.

Lemma score_ok_add x y : score_ok x -> score_ok y -> score_ok (x + y)%f32.
Proof. intros [? ?] [? ?]. split; [by apply (fadd_wf binary32) | by apply (fadd_nonneg binary32)]. Qed.

Lemma score_ok_div_weight x m :
  score_ok x -> wf binary32 (Fin false m) -> (0 < m)%Z -> score_ok (x / Fin false m)%f32.
Proof. intros [? ?] ? ?. split; [by apply (fdiv_wf binary32) | by apply (fdiv_pos_nonneg binary32)]. Qed.

Create HintDb score discriminated.
#[export] Hint Resolve score_ok_zero score_ok_of_nat score_ok_add score_ok_div_weight : score.

(** The order of scores, on the integer line. *)
Definition score_le (x y : float) : Prop := (rank binary32 x <= rank binary32 y)%Z.

#[export] Instance score_le_preorder : PreOrder score_le.
Proof. unfold score_le. split; [intros x; lia | intros x y z; lia]. Qed.

Lemma score_le_add x x' y y' :
  score_ok x -> score_ok x' -> score_ok y -> score_ok y' ->
  score_le x x' -> score_le y y' -> score_le (x + y)%f32 (x' + y')%f32.
Proof. intros [? ?] [? ?] [? ?] [? ?]. by apply (fadd_mono binary32). Qed.

Lemma score_le_zero x : score_ok x -> score_le fzero x.
Proof. intros [? ?]. by apply (nonneg_rank binary32). Qed.

Lemma f32_of_nat_mono m n : m <= n -> score_le (f32_of_nat m) (f32_of_nat n).
Proof. intros. apply (of_Z_mono binary32); lia. Qed.

(** The denominator of a contribution is a non-negative value, and it grows
    with the position. *)
Section Denominator.
Context (k : nat) (m : Z).
Hypotheses (Hk : 1 <= k) (Hm : (0 < m)%Z) (W : wf binary32 (Fin false m)).

Local Abbreviation shifted p := ((f32_of_nat (p + 1) / Fin false m + f32_of_nat k)%f32).

Lemma shifted_ok p : score_ok (shifted p).
Proof. auto with score. Qed.

Lemma shifted_mono p q : p <= q -> score_le (shifted p) (shifted q).
Proof.
  intros Hpq. apply score_le_add; [auto with score ..| | done].
  destruct (score_ok_of_nat (p + 1)), (score_ok_of_nat (q + 1)).
  apply (fdiv_mono_l binary32); [done .. |]. apply f32_of_nat_mono. lia.
Qed.

Lemma shifted_ge_one p : score_le f32_one (shifted p).
Proof.
  transitivity (f32_of_nat k); [by apply (f32_of_nat_mono 1) |].
  destruct (score_ok_of_nat k) as [? ?].
  rewrite <- (fadd_zero_l binary32 (f32_of_nat k)) at 1 by done.
  apply score_le_add; auto with score; [|done].
  apply score_le_zero. auto with score.
Qed.

Lemma one_wf : wf binary32 (Fin false (2 ^ 149)).
Proof. rewrite <- f32_one_eq. apply (of_Z_wf binary32). Qed.

Lemma denominator_ok p : score_ok (shifted p - f32_one)%f32.
Proof.
  destruct (shifted_ok p) as [Ws Ns]. pose proof (shifted_ge_one p) as G.
  pose proof one_wf. unfold score_le in G. rewrite f32_one_eq in *. split.
  - by apply (fsub_wf binary32).
  - by apply (fsub_nonneg binary32).
Qed.

Lemma denominator_mono p q :
  p <= q -> score_le (shifted p - f32_one)%f32 (shifted q - f32_one)%f32.
Proof.
  intros Hpq. destruct (shifted_ok p), (shifted_ok q).
  pose proof (shifted_ge_one p) as G. pose proof one_wf.
  pose proof (shifted_mono p q Hpq). unfold score_le in *.
  rewrite f32_one_eq in *. by apply (fsub_mono binary32).
Qed.
End Denominator.

(** A weight that is accepted either contributes nothing or is positive. *)
Lemma weight_cases w :
  wf binary32 w -> weight_valid w = true ->
  fle w fzero = true \/ exists m, (0 < m)%Z /\ w = Fin false m /\ fle w fzero = false.
Proof.
  intros W V. destruct (fle w fzero) eqn:L; [by left | right].
  unfold weight_valid in V. destruct w as [|?|s m]; try done.
  simpl in W. unfold fle in L. destruct s; simpl in L.
  - destruct (Z.compare_spec (- m) 0); [done | done | lia].
  - destruct (Z.compare_spec m 0); [done | done |]. by exists m.
Qed.

Lemma position_score_ok position k w :
  1 <= k -> wf binary32 w -> weight_valid w = true ->
  score_ok (position_score position k w).
Proof.
  intros Hk W V. unfold position_score.
  destruct (weight_cases w W V) as [->|(m & Hm & -> & ->)]; [auto with score |].
  destruct (denominator_ok k m Hk Hm W position) as [Wd Nd].
  pose proof one_wf. rewrite f32_one_eq in *. split.
  - by apply (fdiv_wf binary32).
  - by apply (fdiv_recip_nonneg binary32).
Qed.

(** A later rank never contributes more. *)
Lemma position_score_antitone p q k w :
  1 <= k -> wf binary32 w -> weight_valid w = true -> p <= q ->
  score_le (position_score q k w) (position_score p k w).
Proof.
  intros Hk W V Hpq. unfold position_score.
  destruct (weight_cases w W V) as [->|(m & Hm & -> & ->)]; [done |].
  destruct (denominator_ok k m Hk Hm W p), (denominator_ok k m Hk Hm W q).
  pose proof (denominator_mono k m Hk Hm W p q Hpq). unfold score_le in *.
  rewrite f32_one_eq in *. by apply (fdiv_recip_anti binary32).
Qed.

(** ** Sums of scores *)

Lemma fold_add_ok l a :
  score_ok a -> Forall score_ok l -> score_ok (fold_left (fadd binary32) l a).
Proof.
  intros Ha Hl. revert a Ha. induction Hl as [|x l Hx _ IH]; intros a Ha; simpl; [done |].
  apply IH. auto with score.
Qed.

Lemma f32_sum_cons x l : score_ok x -> f32_sum (x :: l) = fold_left (fadd binary32) l x.
Proof.
  intros [W N]. unfold f32_sum. simpl. f_equal.
  destruct x as [|[]|[] m]; try done. simpl in W, N. unfold fadd, signed.
  replace (- 0 + m)%Z with m by lia.
  destruct (Z.eqb_spec m 0) as [->|]; [done |].
  destruct (Z.ltb_spec m 0); [lia |]. rewrite Z.abs_eq by lia.
  by apply (fin_round_id binary32).
Qed.

Lemma f32_sum_ok l : l <> [] -> Forall score_ok l -> score_ok (f32_sum l).
Proof.
  intros Hne Hl. destruct Hl as [|x l Hx Hl]; [done |].
  rewrite f32_sum_cons by done. by apply fold_add_ok.
Qed.

Lemma fold_add_le l l' a a' :
  score_ok a -> score_ok a' -> Forall score_ok l -> Forall score_ok l' ->
  score_le a a' -> Forall2 score_le l l' ->
  score_le (fold_left (fadd binary32) l a) (fold_left (fadd binary32) l' a').
Proof.
  intros Ha Ha' Hl Hl' Hle H2. revert a a' Ha Ha' Hl Hl' Hle.
  induction H2 as [|x x' l l' Hx H2 IH]; intros a a' Ha Ha' Hl Hl' Hle; simpl; [done |].
  inv Hl. inv Hl'. apply IH; auto with score. by apply score_le_add.
Qed.

Lemma f32_sum_le l l' :
  Forall score_ok l -> Forall score_ok l' -> Forall2 score_le l l' ->
  score_le (f32_sum l) (f32_sum l').
Proof.
  intros Hl Hl' H2. destruct H2 as [|x x' l l' Hx H2]; [done |].
  inv Hl. inv Hl'. rewrite !f32_sum_cons by done. by apply fold_add_le.
Qed.

Lemma f32_sum_pointwise (l l' : list float) :
  length l = length l' -> l <> [] ->
  (forall i x y, l !! i = Some x -> l' !! i = Some y ->
     score_ok x /\ score_ok y /\ score_le x y) ->
  score_ok (f32_sum l) /\ score_ok (f32_sum l') /\ score_le (f32_sum l) (f32_sum l').
Proof.
  intros Hlen Hne H.
  assert (F : Forall score_ok l /\ Forall score_ok l' /\ Forall2 score_le l l').
  { clear Hne. revert l' Hlen H.
    induction l as [|x l IH]; intros [|y l'] Hlen H; try done.
    destruct (H 0 x y eq_refl eq_refl) as (? & ? & ?).
    destruct (IH l') as (? & ? & ?); [by injection Hlen | |].
    - intros i. apply (H (S i)).
    - split_and!; by constructor. }
  destruct F as (? & ? & ?).
  split_and!; [by apply f32_sum_ok | apply f32_sum_ok; [by destruct l, l' | done] |].
  by apply f32_sum_le.
Qed.

(** Adding contributions only where a source ranks the identity gives the
    same value as adding a zero where it does not. *)
Definition add_contribution (acc c : option float) : option float :=
  match acc, c with
  | Some a, Some c => Some (a + c)%f32
  | Some a, None => Some a
  | None, c => c
  end.

Definition contribution_ok (c : option float) : Prop := forall x, c = Some x -> score_ok x.

Lemma contribution_ok_default c : contribution_ok c -> score_ok (default fzero c).
Proof. intros H. destruct c; simpl; [by apply H | auto with score]. Qed.

Lemma fold_add_contributions cs a :
  score_ok a -> Forall contribution_ok cs ->
  fold_left add_contribution cs (Some a) =
    Some (fold_left (fadd binary32) (default fzero <$> cs) a).
Proof.
  intros Ha Hcs. revert a Ha. induction Hcs as [|c cs Hc _ IH]; intros a Ha; [done |].
  destruct c as [c|]; simpl.
  - rewrite IH; [done |]. apply score_ok_add; [done | by apply Hc].
  - destruct Ha. rewrite (fadd_zero_r binary32) by done. by apply IH.
Qed.

Lemma f32_sum_contributions cs :
  cs <> [] -> Forall contribution_ok cs ->
  f32_sum (default fzero <$> cs) = default fzero (fold_left add_contribution cs None).
Proof.
  intros Hne Hcs. destruct Hcs as [|c cs Hc Hcs]; [done | clear Hne].
  assert (H0 : fold_left (fadd binary32) (default fzero <$> cs) fzero =
    default fzero (fold_left add_contribution cs None)).
  { clear c Hc. induction Hcs as [|c cs Hc Hcs IH]; [done |]. simpl.
    destruct c as [c|]; simpl; [|apply IH].
    destruct (Hc c eq_refl). rewrite (fadd_zero_l binary32) by done.
    by rewrite fold_add_contributions by done. }
  rewrite fmap_cons, f32_sum_cons by (by apply contribution_ok_default).
  destruct c as [c|]; simpl; [|apply H0].
  by rewrite fold_add_contributions by (done || by apply Hc).
Qed.

(** ** The exhaustive composition computes the specification *)

(** The contribution of a response whose first position is [pos]. *)
Definition response_contribution (k : nat) (weight : float) (pos : nat)
    (ids : list ExtendedPointId) (id : ExtendedPointId) : option float :=
  (fun '(p, _) => position_score (pos + p) k weight) <$> list_find (id =.) ids.

Lemma response_contribution_cons k w pos x ids id :
  response_contribution k w pos (x :: ids) id =
    if decide (id = x) then Some (position_score pos k w)
    else response_contribution k w (S pos) ids id.
Proof.
  unfold response_contribution. simpl. case_decide; simpl.
  - by rewrite Nat.add_0_r.
  - destruct (list_find (id =.) ids) as [[p y]|]; simpl; [|done].
    do 2 f_equal. lia.
Qed.

Lemma response_contribution_absent k w pos ids id :
  id ∉ ids -> response_contribution k w pos ids id = None.
Proof.
  intros H. unfold response_contribution.
  destruct (list_find (id =.) ids) as [[p y]|] eqn:E; [|done].
  apply list_find_Some in E as (E & -> & _). by apply list_elem_of_lookup_2 in E.
Qed.

Definition keyed (m : gmap ExtendedPointId ScoredPoint) : Prop :=
  forall id e, m !! id = Some e -> sp_id e = id.

Lemma rrf_add_point_keyed k w m pos p : keyed m -> keyed (rrf_add_point k w m pos p).
Proof.
  intros K id e. unfold rrf_add_point.
  destruct (m !! sp_id p) as [q|] eqn:E; intros [[<- <-]|[? ?]]%lookup_insert_Some; simpl;
    eauto.
Qed.

Lemma rrf_add_point_score k w m pos p id :
  sp_score <$> rrf_add_point k w m pos p !! id =
    add_contribution (sp_score <$> m !! id)
      (if decide (id = sp_id p) then Some (position_score pos k w) else None).
Proof.
  unfold rrf_add_point. case_decide as D; subst.
  - destruct (m !! sp_id p) as [q|] eqn:E; by rewrite lookup_insert_eq.
  - destruct (m !! sp_id p) as [q|] eqn:E; rewrite lookup_insert_ne by done;
      by destruct (m !! id).
Qed.

Lemma rrf_add_response_spec k w m pos resp :
  keyed m -> NoDup (sp_id <$> resp) ->
  keyed (rrf_add_response k w m pos resp) /\
  forall id, sp_score <$> rrf_add_response k w m pos resp !! id =
    add_contribution (sp_score <$> m !! id)
      (response_contribution k w pos (sp_id <$> resp) id).
Proof.
  revert m pos. induction resp as [|p resp IH]; intros m pos K N; simpl.
  - split; [done |]. intros id. by destruct (m !! id).
  - apply NoDup_cons in N as [N1 N2].
    destruct (IH (rrf_add_point k w m pos p) (S pos) (rrf_add_point_keyed _ _ _ _ _ K) N2)
      as [K' L'].
    split; [done |]. intros id.
    rewrite L', rrf_add_point_score, response_contribution_cons.
    case_decide; subst.
    + rewrite response_contribution_absent by done. by destruct (_ <$> m !! _).
    + by destruct (_ <$> m !! _).
Qed.

Lemma rrf_accumulate_spec k responses weights :
  length weights = length responses ->
  Forall (fun r : list ScoredPoint => NoDup (sp_id <$> r)) responses ->
  keyed (rrf_accumulate k responses weights) /\
  forall id, sp_score <$> rrf_accumulate k responses weights !! id =
    fold_left add_contribution
      (zip_with (fun w r => wrrf_contribution k w (sp_id <$> r) id) weights responses) None.
Proof.
  intros Hlen Hnd. unfold rrf_accumulate.
  assert (K : keyed ∅) by (intros id e; by rewrite lookup_empty).
  assert (S0 : forall id, sp_score <$> (∅ : gmap ExtendedPointId ScoredPoint) !! id = None)
    by (intros id; by rewrite lookup_empty).
  revert K S0. generalize (∅ : gmap ExtendedPointId ScoredPoint).
  intros m K S0. setoid_rewrite <- S0. clear S0. revert m K weights Hlen.
  induction Hnd as [|r responses Hr Hnd IH]; intros m K [|w weights] Hlen; try done.
  simpl in *. destruct (rrf_add_response_spec k w m 0 r K Hr) as [K' L'].
  destruct (IH _ K' weights) as [K'' L'']; [lia |].
  split; [done |]. intros id. by rewrite L'', L'.
Qed.

(** ** Canonical order *)

#[export] Instance pair_order_TotalCmp : TotalCmp pair_order.
Proof.
  unfold pair_order, rrf_order. apply TotalCmp_then.
  - apply (TotalCmp_flip (fun a b : scored => ordered_cmp a.2 b.2)).
    apply (TotalCmp_key ordered_cmp snd), _.
  - apply (TotalCmp_key id_cmp fst), _.
Qed.

Lemma pair_order_eq_id (a b : scored) : pair_order a b = Eq -> a.1 = b.1.
Proof.
  unfold pair_order, rrf_order. destruct (ordered_cmp b.2 a.2); [|done..].
  apply id_cmp_eq.
Qed.

(** Identities are distinct, so nothing ties. *)
Lemma NoDup_fst_inj (P : list scored) a b :
  NoDup P.*1 -> a ∈ P -> b ∈ P -> a.1 = b.1 -> a = b.
Proof.
  intros N [i Ha]%list_elem_of_lookup [j Hb]%list_elem_of_lookup E.
  assert (P.*1 !! i = Some a.1) by (by rewrite list_lookup_fmap, Ha).
  assert (P.*1 !! j = Some a.1) by (by rewrite list_lookup_fmap, Hb, E).
  assert (i = j) as -> by (by eapply NoDup_lookup). congruence.
Qed.

Lemma sort_pairs_perm (P Q : list scored) :
  NoDup P.*1 -> P ≡ₚ Q -> sort_by pair_order P = sort_by pair_order Q.
Proof.
  intros N PQ. apply (sorted_unique pair_order).
  - intros a b Ha Hb E. rewrite sort_by_perm in Ha, Hb.
    eapply NoDup_fst_inj; eauto using pair_order_eq_id.
  - apply sort_by_sorted, _.
  - apply sort_by_sorted, _.
  - by rewrite !sort_by_perm.
Qed.

(** The ranking depends only on the set of scored identities. *)
Lemma sort_pairs_canonical (P Q : list scored) :
  NoDup P.*1 -> NoDup Q.*1 -> (forall p, p ∈ P <-> p ∈ Q) ->
  sort_by pair_order P = sort_by pair_order Q.
Proof.
  intros NP NQ H. apply sort_pairs_perm; [done |].
  apply NoDup_Permutation; eauto using NoDup_fmap_1.
Qed.

Lemma sorted_fmap {A B} (cmp : B -> B -> comparison) (g : A -> B) l :
  StronglySorted (cmp_le (fun x y => cmp (g x) (g y))) l ->
  StronglySorted (cmp_le cmp) (g <$> l).
Proof.
  induction 1 as [|x l S IH F]; simpl; [constructor |].
  constructor; [done |]. rewrite Forall_fmap. done.
Qed.

(** Sorting records by a key that is a scored identity. *)
Lemma sort_by_key {A} (g : A -> scored) (l : list A) :
  NoDup (g <$> l).*1 ->
  g <$> sort_by (fun x y => pair_order (g x) (g y)) l = sort_by pair_order (g <$> l).
Proof.
  intros N. apply (sorted_unique pair_order).
  - intros a b Ha Hb E. rewrite sort_by_perm in Ha, Hb.
    eapply NoDup_fst_inj; eauto using pair_order_eq_id.
  - apply sorted_fmap, sort_by_sorted. apply (TotalCmp_key pair_order), _.
  - apply sort_by_sorted, _.
  - by rewrite !sort_by_perm.
Qed.

(** ** The specification's scores *)

Lemma wrrf_contribution_absent k w st id : id ∉ st -> wrrf_contribution k w st id = None.
Proof. apply (response_contribution_absent k w 0). Qed.

(** The rankings behind a list of responses. *)
Definition rankings (responses : list (list ScoredPoint)) : list (list ExtendedPointId) :=
  (fun r : list ScoredPoint => sp_id <$> r) <$> responses.

Definition scored_of (p : ScoredPoint) : scored := (sp_id p, sp_score p).

(** The values of a keyed map are exactly its identities with their scores. *)
Lemma keyed_values_NoDup m : keyed m -> NoDup (sp_id <$> (map_to_list m).*2).
Proof.
  intros K. enough (sp_id <$> (map_to_list m).*2 = (map_to_list m).*1) as ->
    by apply NoDup_fst_map_to_list.
  rewrite <- list_fmap_compose. apply list_fmap_ext. intros i [id e] H. simpl.
  apply K. apply elem_of_map_to_list. by apply list_elem_of_lookup_2 in H.
Qed.

Lemma keyed_values_elem m p :
  keyed m -> p ∈ (map_to_list m).*2 <-> m !! sp_id p = Some p.
Proof.
  intros K. rewrite list_elem_of_fmap. split.
  - intros ([id e] & -> & H%elem_of_map_to_list). simpl. by rewrite (K _ _ H).
  - intros H. exists (sp_id p, p). by rewrite elem_of_map_to_list.
Qed.

Section Spec.
Context (k : nat) (ws : list float) (streams : list (list ExtendedPointId)).
Hypotheses (Hk : 1 <= k) (Hlen : length ws = length streams) (Hne : ws <> [])
  (Hws : Forall (fun w => wf binary32 w /\ weight_valid w = true) ws).

Lemma wrrf_contribution_ok w st id :
  w ∈ ws -> contribution_ok (wrrf_contribution k w st id).
Proof.
  intros Hw x. unfold wrrf_contribution. rewrite Forall_forall in Hws.
  destruct (Hws _ Hw). destruct (list_find _ _) as [[p y]|]; simpl; [|done].
  intros [= <-]. by apply position_score_ok.
Qed.

Lemma wrrf_contributions_ok id :
  Forall contribution_ok (zip_with (fun w st => wrrf_contribution k w st id) ws streams).
Proof.
  apply Forall_lookup. intros i c. rewrite lookup_zip_with_Some.
  intros (w & st & -> & Hw & _). apply wrrf_contribution_ok.
  by apply list_elem_of_lookup_2 in Hw.
Qed.

Lemma wrrf_score_fold id :
  wrrf_score k ws streams id =
    default fzero (fold_left add_contribution
      (zip_with (fun w st => wrrf_contribution k w st id) ws streams) None).
Proof.
  rewrite <- f32_sum_contributions.
  - unfold wrrf_score. f_equal. by rewrite fmap_zip_with.
  - destruct ws, streams; done.
  - apply wrrf_contributions_ok.
Qed.

(** An identity scores exactly when some source ranks it. *)
Lemma wrrf_score_absent id : id ∉ concat streams -> wrrf_score k ws streams id = fzero.
Proof.
  intros Hid. rewrite wrrf_score_fold.
  enough (fold_left add_contribution
    (zip_with (fun w st => wrrf_contribution k w st id) ws streams) None = None) as -> by done.
  clear Hne Hws. revert streams Hlen Hid.
  induction ws as [|w l IH]; intros [|st sts] Hl Hid; simpl in *; try done.
  rewrite elem_of_app in Hid.
  rewrite wrrf_contribution_absent by tauto. simpl. apply IH; [lia | tauto].
Qed.

Lemma wrrf_score_ok id : score_ok (wrrf_score k ws streams id).
Proof.
  unfold wrrf_score. apply f32_sum_ok; [by destruct ws, streams |].
  apply Forall_lookup. intros i x. rewrite lookup_zip_with_Some.
  intros (w & st & -> & Hw & _). apply contribution_ok_default, wrrf_contribution_ok.
  by apply list_elem_of_lookup_2 in Hw.
Qed.
End Spec.

(** [exact_rrf_scoring] is exhaustive weighted reciprocal rank fusion: on
    rankings without repetitions it returns exactly the identities with a
    positive fused score, ranked by descending score and ascending identity,
    each with its fused score. *)
Lemma exact_rrf_scoring_spec k ws (responses : list (list ScoredPoint)) :
  1 <= k -> length ws = length responses -> ws <> [] ->
  Forall (fun w => wf binary32 w /\ weight_valid w = true) ws ->
  Forall (fun r : list ScoredPoint => NoDup (sp_id <$> r)) responses ->
  exists scores,
    exact_rrf_scoring responses k (Some ws) = Ok scores /\
    sp_id <$> scores = wrrf_order k ws (rankings responses) /\
    forall p, p ∈ scores ->
      sp_score p = wrrf_score k ws (rankings responses) (sp_id p).
Proof.
  intros Hk Hlen Hne Hws Hnd.
  destruct (rrf_accumulate_spec k responses ws Hlen Hnd) as [K L].
  set (m := rrf_accumulate k responses ws) in *.
  set (streams := rankings responses).
  assert (Hlen' : length ws = length streams) by (unfold streams, rankings; by rewrite length_fmap).
  assert (S : forall id, wrrf_score k ws streams id = default fzero (sp_score <$> m !! id)).
  { intros id. rewrite L, (wrrf_score_fold k ws streams Hk Hlen' Hne Hws).
    unfold streams, rankings. by rewrite zip_with_fmap_r. }
  unfold exact_rrf_scoring, rrf_scoring. rewrite decide_True by done. fold m.
  eexists. split; [done |].
  set (l := filter _ _).
  assert (Hl : forall p, p ∈ l <-> m !! sp_id p = Some p /\ flt fzero (sp_score p) = true).
  { intros p. unfold l. rewrite list_elem_of_filter, sort_by_perm, keyed_values_elem by done.
    tauto. }
  assert (N : NoDup (scored_of <$> l).*1).
  { rewrite <- list_fmap_compose. unfold l.
    apply (NoDup_fmap_filter sp_id). rewrite sort_by_perm. by apply keyed_values_NoDup. }
  split.
  - rewrite <- (list_fmap_ext (fst ∘ scored_of) sp_id) by done.
    rewrite list_fmap_compose, (sort_by_key scored_of) by done.
    unfold wrrf_order. f_equal. apply sort_pairs_canonical; [done | |].
    + apply NoDup_fmap_filter. rewrite <- list_fmap_compose, list_fmap_id. apply NoDup_remove_dups.
    + intros [id s]. rewrite list_elem_of_filter, !list_elem_of_fmap. split.
      * intros (p & [= -> ->] & [Hm Hp]%Hl). simpl. split; [done |].
        exists (sp_id p). rewrite S, Hm. split; [done |].
        rewrite elem_of_remove_dups. apply dec_stable. intros Hn.
        pose proof (wrrf_score_absent k ws streams Hk Hlen' Hne Hws _ Hn) as E.
        rewrite S, Hm in E. simpl in E. rewrite E in Hp. done.
      * intros (Hp & id' & [= -> ->] & Hin). simpl in Hp. rewrite S in Hp.
        destruct (m !! id') as [p|] eqn:Hm; [|done]. simpl in Hp.
        exists p. rewrite S, Hm, Hl, (K _ _ Hm). unfold scored_of. by rewrite (K _ _ Hm).
  - intros p Hp. rewrite sort_by_perm in Hp. apply Hl in Hp as [Hm _].
    by rewrite S, Hm.
Qed.
