(* ===== verification/RrfState.v ===== *)
(** * Reciprocal rank fusion: the incremental state and its certificate

    lib/segment/src/common/reciprocal_rank_fusion/state.rs.  The state records
    the contributions observed so far; [fixed_top_k] decides that the first
    [top_k] fused identities can no longer change, whatever the sources still
    hold.  The file proves that decision sound and complete against
    exhaustive fusion. *)

From S2P Require Import Prelude Float Order PointId RrfScoring.

(** ** Data *)

Record ChannelRankBatch : Type := mkChannelRankBatch {
  start_rank : nat;
  point_ids : list ExtendedPointId;
  batch_exhausted : bool;
}.

Record PartialRrfPoint : Type := mkPartialRrfPoint {
  contributions : list (option float);
}.

#[export] Instance PartialRrfPoint_inhabited : Inhabited PartialRrfPoint :=
  populate (mkPartialRrfPoint []).

Record DynamicRrfState : Type := mkDynamicRrfState {
  rrf_k : nat;
  top_k : nat;
  weights : list float;
  next_positions : list nat;
  exhausted : list bool;
  points : gmap ExtendedPointId PartialRrfPoint;
}.

#[export] Instance float_inhabited : Inhabited float := populate fzero.

(** ** Operations *)

Open Scope result_scope.

Definition DynamicRrfState_new (source_count top_k rrf_k : nat)
    (weights : option (list float)) : OperationResult DynamicRrfState :=
  if decide (source_count = 0) then
    Err (ValidationError "Dynamic RRF requires at least one source")
  else if decide (rrf_k = 0) then
    Err (ValidationError "Dynamic RRF requires k to be greater than zero")
  else
    let? ws :=
      match weights with
      | Some ws =>
          if decide (length ws <> source_count) then
            Err (ValidationError "Number of weights in Dynamic RRF should match number of sources: got {}, expected {source_count}")
          else Ok ws
      | None => Ok (replicate source_count f32_one)
      end in
    if existsb (fun weight => negb (is_finite weight) || flt weight fzero) ws then
      Err (ValidationError "Dynamic RRF weights must be finite and non-negative")
    else
      Ok {| rrf_k := rrf_k; top_k := top_k; weights := ws;
            next_positions := replicate source_count 0;
            exhausted := replicate source_count false;
            points := ∅ |}.

(** [self.points.entry(id).or_insert_with(..)] *)
Definition entry_or_insert (s : DynamicRrfState) (id : ExtendedPointId) : PartialRrfPoint :=
  default {| contributions := replicate (length (weights s)) None |} (points s !! id).

Definition set_contribution (s : DynamicRrfState) (source : nat) (id : ExtendedPointId)
    (c : float) : DynamicRrfState :=
  let point := entry_or_insert s id in
  {| rrf_k := rrf_k s; top_k := top_k s; weights := weights s;
     next_positions := next_positions s; exhausted := exhausted s;
     points := <[id := {| contributions := <[source := Some c]> (contributions point) |}]>
                 (points s) |}.

Definition set_position (s : DynamicRrfState) (source position : nat) : DynamicRrfState :=
  {| rrf_k := rrf_k s; top_k := top_k s; weights := weights s;
     next_positions := <[source := position]> (next_positions s);
     exhausted := exhausted s; points := points s |}.

Definition set_exhausted (s : DynamicRrfState) (source : nat) : DynamicRrfState :=
  {| rrf_k := rrf_k s; top_k := top_k s; weights := weights s;
     next_positions := next_positions s;
     exhausted := <[source := true]> (exhausted s); points := points s |}.

(** Whether [source] already ranked [id]. *)
Definition has_contribution (s : DynamicRrfState) (source : nat) (id : ExtendedPointId) : bool :=
  match points s !! id with
  | Some point => match contributions point !! source with Some (Some _) => true | _ => false end
  | None => false
  end.

(** A rejected observation leaves the state as it was: the entry it would
    create exists whenever the duplicate check fails. *)
Definition observe (s : DynamicRrfState) (source : nat) (id : ExtendedPointId)
    : DynamicRrfState * OperationResult unit :=
  if decide (length (weights s) <= source) then
    (s, Err (ValidationError "Dynamic RRF source {source} is out of range"))
  else if (exhausted s).[source] then
    (s, Err (ValidationError "Dynamic RRF source {source} was already exhausted"))
  else
    let position := (next_positions s).[source] in
    let contribution := position_score position (rrf_k s) (weights s).[source] in
    if has_contribution s source id then
      (s, Err (ValidationError "Point {id} occurs more than once in Dynamic RRF source {source}"))
    else (set_position (set_contribution s source id contribution) source (S position), Ok tt).

(** The first loop of [observe_batch]: no identity repeats. *)
Fixpoint check_batch_unique (s : DynamicRrfState) (source : nat)
    (unique : gset ExtendedPointId) (ids : list ExtendedPointId) : OperationResult unit :=
  match ids with
  | [] => Ok tt
  | id :: ids =>
      if decide (id ∈ unique) then
        Err (ValidationError "Point {id} occurs more than once in one Dynamic RRF source {source} batch")
      else if has_contribution s source id then
        Err (ValidationError "Point {id} occurs more than once in Dynamic RRF source {source}")
      else check_batch_unique s source ({[id]} ∪ unique) ids
  end.

(** The second loop: record the contributions from rank [rank] on. *)
Fixpoint apply_batch (s : DynamicRrfState) (source rank : nat)
    (ids : list ExtendedPointId) : DynamicRrfState :=
  match ids with
  | [] => s
  | id :: ids =>
      let contribution := position_score rank (rrf_k s) (weights s).[source] in
      apply_batch (set_contribution s source id contribution) source (S rank) ids
  end.

Definition observe_batch (s : DynamicRrfState) (source : nat) (batch : ChannelRankBatch)
    : DynamicRrfState * OperationResult unit :=
  if decide (length (weights s) <= source) then
    (s, Err (ValidationError "Dynamic RRF source {source} is out of range"))
  else if (exhausted s).[source] then
    (s, Err (ValidationError "Dynamic RRF source {source} was already exhausted"))
  else if decide (start_rank batch <> (next_positions s).[source]) then
    (s, Err (ValidationError "Dynamic RRF source {source} batch starts at rank {}; expected {}"))
  else if bool_decide (point_ids batch = []) && negb (batch_exhausted batch) then
    (s, Err (ValidationError "Dynamic RRF source {source} returned an empty non-exhausted batch"))
  else
    match check_batch_unique s source ∅ (point_ids batch) with
    | Err e => (s, Err e)
    | Ok _ =>
        let s1 := apply_batch s source (start_rank batch) (point_ids batch) in
        let s2 := set_position s1 source
          ((next_positions s1).[source] + length (point_ids batch)) in
        (if batch_exhausted batch then set_exhausted s2 source else s2, Ok tt)
    end.

Definition finish_source (s : DynamicRrfState) (source : nat)
    : DynamicRrfState * OperationResult unit :=
  match exhausted s !! source with
  | None => (s, Err (ValidationError "Dynamic RRF source {source} is out of range"))
  | Some _ => (set_exhausted s source, Ok tt)
  end.

Definition next_possible_contribution (s : DynamicRrfState) (source : nat) : option float :=
  if decide (length (weights s) <= source) then None
  else if (exhausted s).[source] then None
  else Some (position_score (next_positions s).[source] (rrf_k s) (weights s).[source]).

Definition all_sources_exhausted (s : DynamicRrfState) : bool := forallb id (exhausted s).

Definition next_contributions (s : DynamicRrfState) : list float :=
  (fun source => default fzero (next_possible_contribution s source)) <$>
    seq 0 (length (weights s)).

Definition lower_bound (point : PartialRrfPoint) : float :=
  f32_sum (default fzero <$> contributions point).

Definition upper_bound (next : list float) (point : PartialRrfPoint) : float :=
  f32_sum (zip_with (fun contribution next => default next contribution)
             (contributions point) next).

(** The scheduler's advisory snapshot; [None] is the index panic of
    [lower_bounds[self.top_k - 1]]. *)
Definition competitive_missing_counts (s : DynamicRrfState) : option (list nat) :=
  let source_count := length (weights s) in
  if all_sources_exhausted s then Some (replicate source_count 0)
  else if decide (size (points s) < top_k s) then
    let demand := Nat.max (top_k s - size (points s)) 1 in
    Some ((fun e : bool => if e then 0 else demand) <$> exhausted s)
  else
    let next := next_contributions s in
    let observed := (map_to_list (points s)).*2 in
    let lower_bounds := sort_by (fun left right => ordered_cmp right left)
      (lower_bound <$> observed) in
    match top_k s with
    | 0 => None
    | S last =>
        threshold ← lower_bounds !! last;
        let add_point counts point :=
          if flt (upper_bound next point) threshold then counts
          else zip_with (fun count '(contribution, e) =>
                 match contribution, e with
                 | None, false => S count
                 | _, _ => count
                 end) counts (zip (contributions point) (exhausted s)) in
        let counts := fold_left add_point observed (replicate source_count 0) in
        Some (if fle threshold (f32_sum next) then
                zip_with (fun count (e : bool) => if e then count else S count)
                  counts (exhausted s)
              else counts)
    end.

(** Remaining candidates of the certificate: identity, lower and upper bound. *)
Abbreviation candidate := (ExtendedPointId * float * float)%type.

Definition candidate_order (a b : nat * candidate) : comparison :=
  rrf_order a.2.1.1 a.2.1.2 b.2.1.1 b.2.1.2.

(** One winner per iteration, or [None] when it is not yet fixed. *)
Fixpoint fix_winners (n : nat) (unseen_upper_bound : float) (remaining : list candidate)
    (fixed : list ExtendedPointId) : option (list ExtendedPointId) :=
  match n with
  | 0 => Some fixed
  | S n =>
      '(winner_index, winner) ← min_by candidate_order (imap pair remaining);
      if fle winner.1.2 unseen_upper_bound then None
      else if existsb (fun '(index, challenger) =>
                negb (index =? winner_index)%nat
                && negb (guaranteed_before winner.1.1 winner.1.2
                           (challenger : candidate).1.1 challenger.2))
              (imap pair remaining) then None
      else fix_winners n unseen_upper_bound (swap_remove winner_index remaining)
             (fixed ++ [winner.1.1])
  end.

Definition complete_order (s : DynamicRrfState) : list ExtendedPointId :=
  let scores := omap (fun '(id, point) =>
      let score := lower_bound point in
      if flt fzero score then Some (id, score) else None)
    (map_to_list (points s)) in
  (sort_by pair_order scores).*1.

Definition fixed_top_k (s : DynamicRrfState) : option (list ExtendedPointId) :=
  if decide (top_k s = 0) then Some []
  else
    let all_exhausted := all_sources_exhausted s in
    if negb all_exhausted && bool_decide (size (points s) < top_k s) then None
    else if all_exhausted then Some (take (top_k s) (complete_order s))
    else
      let next := next_contributions s in
      let unseen_upper_bound := f32_sum next in
      let remaining := (fun '(id, point) => (id, lower_bound point, upper_bound next point)) <$>
        map_to_list (points s) in
      fix_winners (top_k s) unseen_upper_bound remaining [].

(** ** What a state stands for

    The abstract state is the list of ranking prefixes read so far, one per
    source.  Every field of the concrete state is a function of it. *)

Definition weights_ok (ws : list float) : Prop :=
  ws <> [] /\ Forall (fun w => wf binary32 w /\ weight_valid w = true) ws.

Definition contributions_of (k : nat) (ws : list float)
    (hist : list (list ExtendedPointId)) (id : ExtendedPointId) : list (option float) :=
  zip_with (fun w h => wrrf_contribution k w h id) ws hist.

Definition points_rep (k : nat) (ws : list float) (hist : list (list ExtendedPointId))
    (m : gmap ExtendedPointId PartialRrfPoint) : Prop :=
  forall id, m !! id =
    if decide (id ∈ concat hist)
    then Some {| contributions := contributions_of k ws hist id |} else None.

Record rep (s : DynamicRrfState) (hist : list (list ExtendedPointId)) : Prop := {
  rep_k : 1 <= rrf_k s;
  rep_weights : weights_ok (weights s);
  rep_hist : length hist = length (weights s);
  rep_exhausted : length (exhausted s) = length (weights s);
  rep_positions : next_positions s = length <$> hist;
  rep_nodup : Forall NoDup hist;
  rep_points : points_rep (rrf_k s) (weights s) hist (points s);
}.

(** Reading [ids] from [source]. *)
Definition read_more (source : nat) (ids : list ExtendedPointId)
    (hist : list (list ExtendedPointId)) : list (list ExtendedPointId) :=
  alter (fun h => h ++ ids) source hist.

(** *** Contributions of longer prefixes *)

Lemma response_contribution_app k w pos h t id :
  response_contribution k w pos (h ++ t) id =
    match response_contribution k w pos h id with
    | Some c => Some c
    | None => response_contribution k w (pos + length h) t id
    end.
Proof.
  revert pos. induction h as [|x h IH]; intros pos; simpl.
  - by rewrite Nat.add_0_r.
  - rewrite !response_contribution_cons. case_decide; [done |].
    rewrite IH. by rewrite Nat.add_succ_comm.
Qed.

Lemma wrrf_contribution_app k w h t id :
  wrrf_contribution k w (h ++ t) id =
    match wrrf_contribution k w h id with
    | Some c => Some c
    | None => response_contribution k w (length h) t id
    end.
Proof. apply (response_contribution_app k w 0). Qed.

Lemma wrrf_contribution_present k w h id :
  id ∈ h -> exists p, p < length h /\ wrrf_contribution k w h id = Some (position_score p k w).
Proof.
  intros Hid. unfold wrrf_contribution.
  destruct (list_find (id =.) h) as [[p y]|] eqn:E.
  - exists p. split; [|done]. apply list_find_Some in E as (E & _). by eapply lookup_lt_Some.
  - apply list_find_None in E. rewrite Forall_forall in E. by destruct (E id).
Qed.

Lemma wrrf_contribution_None k w h id : wrrf_contribution k w h id = None <-> id ∉ h.
Proof.
  split; [|apply wrrf_contribution_absent].
  intros E Hid. destruct (wrrf_contribution_present k w h id Hid) as (p & _ & ?). congruence.
Qed.

Lemma length_read_more source ids hist : length (read_more source ids hist) = length hist.
Proof. apply length_alter. Qed.

Lemma read_more_lookup source ids hist h :
  hist !! source = Some h -> read_more source ids hist !! source = Some (h ++ ids).
Proof. intros H. unfold read_more. by rewrite list_lookup_alter_eq, H. Qed.

Lemma elem_of_read_more source ids hist id :
  source < length hist ->
  id ∈ concat (read_more source ids hist) <-> id ∈ concat hist \/ id ∈ ids.
Proof.
  intros Hs. rewrite !elem_of_concat. unfold read_more. split.
  - intros (i & l & Hi & Hx). rewrite list_lookup_alter in Hi. case_decide; subst.
    + destruct (hist !! i) as [h|] eqn:Eh; [|done]. injection Hi as <-.
      apply elem_of_app in Hx as [|]; [left; eauto | by right].
    + left. eauto.
  - apply lookup_lt_is_Some in Hs as [h Hh].
    intros [(i & l & Hi & Hx)|Hx].
    + destruct (decide (source = i)) as [->|].
      * exists i, (l ++ ids). rewrite list_lookup_alter_eq, Hi. set_solver.
      * exists i, l. by rewrite list_lookup_alter_ne.
    + exists source, (h ++ ids). rewrite list_lookup_alter_eq, Hh. set_solver.
Qed.

Lemma contributions_of_absent k ws hist id :
  length hist = length ws -> id ∉ concat hist ->
  contributions_of k ws hist id = replicate (length ws) None.
Proof.
  intros Hl Hid. apply list_eq. intros i. unfold contributions_of.
  destruct (decide (i < length ws)) as [Hi|Hi].
  - rewrite lookup_replicate_2 by done.
    destruct (lookup_lt_is_Some_2 ws i Hi) as [w Hw].
    destruct (lookup_lt_is_Some_2 hist i ltac:(lia)) as [h Hh].
    rewrite lookup_zip_with, Hw, Hh. simpl.
    by rewrite wrrf_contribution_absent by (by eapply concat_absent).
  - rewrite !lookup_ge_None_2; rewrite ?length_zip_with, ?length_replicate; [done | lia | lia].
Qed.

Lemma contributions_of_read k ws hist source h w id :
  hist !! source = Some h -> ws !! source = Some w -> id ∉ h ->
  contributions_of k ws (read_more source [id] hist) id =
    <[source := Some (position_score (length h) k w)]> (contributions_of k ws hist id).
Proof.
  intros Hh Hw Hid. apply list_eq. intros i. unfold contributions_of.
  rewrite list_lookup_insert, !lookup_zip_with, length_zip_with.
  destruct (decide (source = i)) as [<-|Hne].
  - rewrite read_more_lookup with (h := h), Hw by done. simpl.
    apply lookup_lt_Some in Hh, Hw. rewrite decide_True by lia.
    rewrite wrrf_contribution_app, wrrf_contribution_absent by done.
    rewrite response_contribution_cons. by rewrite decide_True.
  - unfold read_more. rewrite list_lookup_alter_ne by done.
    rewrite decide_False by tauto. done.
Qed.

Lemma contributions_of_other k ws hist source id id' :
  id <> id' ->
  contributions_of k ws (read_more source [id] hist) id' = contributions_of k ws hist id'.
Proof.
  intros Hne. apply list_eq. intros i. unfold contributions_of.
  rewrite !lookup_zip_with. unfold read_more.
  rewrite list_lookup_alter. case_decide; [subst i | done].
  destruct (ws !! source), (hist !! source) as [h|]; simpl; try done.
  f_equal. rewrite wrrf_contribution_app.
  destruct (wrrf_contribution _ _ h id'); [done |].
  rewrite response_contribution_cons, decide_False by done. done.
Qed.

(** Recording the next rank of a source extends its prefix by one. *)
Lemma points_rep_read s hist source h w id :
  length hist = length (weights s) ->
  hist !! source = Some h -> weights s !! source = Some w -> id ∉ h ->
  points_rep (rrf_k s) (weights s) hist (points s) ->
  points_rep (rrf_k s) (weights s) (read_more source [id] hist)
    (points (set_contribution s source id (position_score (length h) (rrf_k s) w))).
Proof.
  intros Hlen Hh Hw Hid R x. simpl.
  assert (Hs : source < length hist) by (by eapply lookup_lt_Some).
  rewrite lookup_insert. case_decide as D; subst.
  - rewrite decide_True by (rewrite elem_of_read_more by done; set_solver).
    rewrite (contributions_of_read _ _ _ _ h w) by done. do 3 f_equal.
    unfold entry_or_insert. rewrite R. case_decide; simpl; [done |].
    by rewrite contributions_of_absent.
  - rewrite R, contributions_of_other by done.
    rewrite (decide_ext (x ∈ concat (read_more source [id] hist)) (x ∈ concat hist))
      by (rewrite elem_of_read_more, list_elem_of_singleton by done; naive_solver).
    done.
Qed.

(** ** The operations refine reading ranking prefixes *)

Lemma weights_ok_valid ws :
  ws <> [] -> Forall (wf binary32) ws ->
  existsb (fun weight => negb (is_finite weight) || flt weight fzero) ws = false ->
  weights_ok ws.
Proof.
  intros Hne Hwf E. split; [done |].
  induction Hwf as [|w ws Hw Hwf IH]; [done |]. simpl in E.
  apply orb_false_elim in E as [E1 E2]. constructor.
  - split; [done |]. unfold weight_valid. by destruct (is_finite w), (flt w fzero).
  - destruct Hwf; [done |]. by apply IH.
Qed.

Lemma new_weights_ok n ws :
  n <> 0 -> from_option (Forall (wf binary32)) True ws ->
  existsb (fun weight => negb (is_finite weight) || flt weight fzero)
    (default (replicate n f32_one) ws) = false ->
  (forall l, ws = Some l -> length l = n) ->
  weights_ok (default (replicate n f32_one) ws).
Proof.
  intros Hn Hwf E Hl. apply weights_ok_valid; [| |done].
  - destruct ws as [l|]; simpl; [specialize (Hl l eq_refl); by destruct l; simplify_eq/= |].
    by destruct n.
  - destruct ws as [l|]; simpl; [done |]. apply Forall_replicate. apply of_Z_wf, _.
Qed.

Lemma DynamicRrfState_new_rep n tk k ws s :
  from_option (Forall (wf binary32)) True ws ->
  DynamicRrfState_new n tk k ws = Ok s ->
  rep s (replicate n []) /\ top_k s = tk /\ rrf_k s = k /\
  weights s = default (replicate n f32_one) ws /\ length (weights s) = n /\
  exhausted s = replicate n false.
Proof.
  intros Hwf. unfold DynamicRrfState_new.
  case_decide as Hn; [done |]. case_decide as Hk; [done |].
  destruct (match ws with Some _ => _ | None => _ end) as [l|] eqn:El; [|done].
  assert (Hl : l = default (replicate n f32_one) ws /\ length l = n).
  { destruct ws as [l'|]; [|injection El as <-; by rewrite length_replicate].
    case_decide as D; [done |]. injection El as <-. done. }
  destruct Hl as [-> Hlen].
  destruct (existsb _ _) eqn:E; [done |]. intros [= <-]. simpl.
  split_and!; try done. split; simpl; try done.
  - lia.
  - eapply new_weights_ok; [done..|]. intros l' ->. by simpl in Hlen.
  - by rewrite length_replicate.
  - by rewrite length_replicate.
  - by rewrite fmap_replicate.
  - apply Forall_replicate. constructor.
  - intros id. rewrite lookup_empty, decide_False; [done |].
    rewrite elem_of_concat. intros (i & l & Hi & Hx).
    apply lookup_replicate in Hi as [-> _]. by apply elem_of_nil in Hx.
Qed.

Lemma apply_batch_frame s source rank ids :
  let s' := apply_batch s source rank ids in
  rrf_k s' = rrf_k s /\ top_k s' = top_k s /\ weights s' = weights s /\
  next_positions s' = next_positions s /\ exhausted s' = exhausted s.
Proof.
  revert s rank. induction ids as [|id ids IH]; intros s rank; simpl; [done |].
  destruct (IH (set_contribution s source id
    (position_score rank (rrf_k s) (weights s).[source])) (S rank)) as (-> & -> & -> & -> & ->).
  done.
Qed.

Lemma read_more_read_more source ids ids' hist :
  read_more source ids' (read_more source ids hist) = read_more source (ids ++ ids') hist.
Proof.
  unfold read_more. apply list_eq. intros i. rewrite !list_lookup_alter.
  case_decide; [|done]. subst. rewrite decide_True by done.
  destruct (hist !! i); simpl; [by rewrite app_assoc | done].
Qed.

Lemma read_more_nil source hist : read_more source [] hist = hist.
Proof.
  unfold read_more. apply list_eq. intros i. rewrite list_lookup_alter.
  case_decide; [|done]. subst. destruct (hist !! i); simpl; [by rewrite app_nil_r | done].
Qed.

Lemma apply_batch_points ids s hist source h w :
  length hist = length (weights s) ->
  hist !! source = Some h -> weights s !! source = Some w -> NoDup (h ++ ids) ->
  points_rep (rrf_k s) (weights s) hist (points s) ->
  points_rep (rrf_k s) (weights s) (read_more source ids hist)
    (points (apply_batch s source (length h) ids)).
Proof.
  revert s hist h. induction ids as [|id ids IH]; intros s hist h Hlen Hh Hw Hnd R; simpl.
  - by rewrite read_more_nil.
  - rewrite (index_lookup _ _ _ Hw).
    assert (Hid : id ∉ h) by (apply NoDup_app in Hnd; set_solver).
    pose proof (points_rep_read s hist source h w id Hlen Hh Hw Hid R) as R'.
    set (s' := set_contribution s source id _) in *.
    replace (S (length h)) with (length (h ++ [id])) by (rewrite length_app; simpl; lia).
    change (id :: ids) with ([id] ++ ids). rewrite <- read_more_read_more.
    change (rrf_k s) with (rrf_k s'). change (weights s) with (weights s').
    apply IH; try done.
    + by rewrite length_read_more.
    + by apply read_more_lookup.
    + by rewrite <- app_assoc.
Qed.

Section Observe.
Context (s : DynamicRrfState) (hist : list (list ExtendedPointId)) (R : rep s hist).
Context (source : nat) (h : list ExtendedPointId) (Hh : hist !! source = Some h).

Lemma rep_weight : exists w, weights s !! source = Some w.
Proof.
  apply lookup_lt_is_Some. rewrite <- (rep_hist _ _ R). by eapply lookup_lt_Some.
Qed.

Lemma rep_position : (next_positions s).[source] = length h.
Proof. apply index_lookup. by rewrite (rep_positions _ _ R), list_lookup_fmap, Hh. Qed.

Lemma rep_in_range : ~ length (weights s) <= source.
Proof. rewrite <- (rep_hist _ _ R). apply lookup_lt_Some in Hh. lia. Qed.

Lemma rep_has_contribution id : has_contribution s source id = bool_decide (id ∈ h).
Proof.
  unfold has_contribution. rewrite (rep_points _ _ R). destruct rep_weight as [w Hw].
  case_decide as D; simpl.
  - unfold contributions_of. rewrite lookup_zip_with, Hw, Hh. simpl.
    destruct (wrrf_contribution (rrf_k s) w h id) eqn:E.
    + symmetry. apply bool_decide_eq_true. apply dec_stable.
      intros Hn. by rewrite wrrf_contribution_absent in E.
    + symmetry. apply bool_decide_eq_false. by eapply wrrf_contribution_None.
  - symmetry. apply bool_decide_eq_false. by eapply concat_absent.
Qed.

Lemma check_batch_unique_spec unique ids :
  check_batch_unique s source unique ids = Ok tt <->
  NoDup ids /\ (forall id, id ∈ ids -> (id ∉ unique) /\ (id ∉ h)).
Proof.
  revert unique. induction ids as [|id ids IH]; intros unique; simpl.
  - split; [intros _; split; [constructor | by intros ? ?%elem_of_nil] | done].
  - rewrite rep_has_contribution, NoDup_cons. case_decide as D.
    + split; [done |]. intros [_ H]. destruct (H id); [left | done].
    + case_bool_decide as B; [split; [done |] |].
      { intros [_ H]. destruct (H id); [left | done]. }
      rewrite IH. setoid_rewrite elem_of_cons. setoid_rewrite not_elem_of_union.
      setoid_rewrite not_elem_of_singleton. naive_solver.
Qed.
End Observe.

(** What makes a batch acceptable: it continues an unfinished source exactly
    where the source stands, and no identity repeats. *)
Definition batch_acceptable (s : DynamicRrfState) (hist : list (list ExtendedPointId))
    (source : nat) (b : ChannelRankBatch) : Prop :=
  exists h, hist !! source = Some h /\ exhausted s !! source = Some false /\
    start_rank b = length h /\
    (point_ids b = [] -> batch_exhausted b = true) /\
    NoDup (h ++ point_ids b).

#[export] Instance batch_acceptable_dec s hist source b :
  Decision (batch_acceptable s hist source b).
Proof.
  destruct (hist !! source) as [h|] eqn:Eh.
  - destruct (decide (exhausted s !! source = Some false /\ start_rank b = length h /\
      (point_ids b = [] -> batch_exhausted b = true) /\ NoDup (h ++ point_ids b))) as [D|D].
    + left. exists h. tauto.
    + right. intros (h' & ? & ?). simplify_eq. tauto.
  - right. intros (h' & ? & _). congruence.
Qed.

Lemma rep_read_more s hist source h ids s' :
  rep s hist -> hist !! source = Some h -> NoDup (h ++ ids) ->
  rrf_k s' = rrf_k s -> weights s' = weights s ->
  length (exhausted s') = length (exhausted s) ->
  next_positions s' = <[source := length h + length ids]> (next_positions s) ->
  points_rep (rrf_k s) (weights s) (read_more source ids hist) (points s') ->
  rep s' (read_more source ids hist).
Proof.
  intros R Hh Hnd Ek Ew Ee En Ep. split.
  - rewrite Ek. apply R.
  - rewrite Ew. apply R.
  - rewrite length_read_more, Ew. apply R.
  - rewrite Ee, Ew. apply R.
  - rewrite En, (rep_positions _ _ R). apply list_eq. intros i.
    rewrite list_lookup_insert, !list_lookup_fmap, length_fmap.
    destruct (decide (source = i)) as [->|].
    + rewrite (read_more_lookup _ _ _ h) by done. apply lookup_lt_Some in Hh.
      rewrite decide_True by done. simpl. by rewrite length_app.
    + rewrite decide_False by tauto. unfold read_more. by rewrite list_lookup_alter_ne.
  - apply Forall_alter; [apply R |]. intros x Hx _. by simplify_eq.
  - by rewrite Ek, Ew.
Qed.

(** [observe_batch] is atomic and refines reading a ranking prefix: an
    acceptable batch extends the prefix of its source by exactly its
    identities (and closes the source when it says so), any other batch is
    rejected with the state unchanged. *)
Lemma observe_batch_refines s hist source b :
  rep s hist ->
  (batch_acceptable s hist source b ->
     exists s', observe_batch s source b = (s', Ok tt) /\
       rep s' (read_more source (point_ids b) hist) /\
       exhausted s' = (if batch_exhausted b then <[source := true]> (exhausted s)
                       else exhausted s) /\
       top_k s' = top_k s /\ rrf_k s' = rrf_k s /\ weights s' = weights s) /\
  (~ batch_acceptable s hist source b ->
     exists e, observe_batch s source b = (s, Err e)).
Proof.
  intros R. unfold observe_batch.
  destruct (decide (length (weights s) <= source)) as [D|D].
  { split; [|eauto]. intros (h & Hh & _). by destruct (rep_in_range s hist R source h Hh). }
  destruct (lookup_lt_is_Some_2 hist source) as [h Hh]; [rewrite (rep_hist _ _ R); lia |].
  destruct (lookup_lt_is_Some_2 (exhausted s) source) as [e He];
    [rewrite (rep_exhausted _ _ R); lia |].
  rewrite (index_lookup _ _ _ He), (rep_position s hist R source h Hh).
  destruct e; [split; [|eauto]; intros (? & ? & ? & _); congruence |].
  case_decide as Dr; [split; [|eauto]; intros (? & ? & ? & ? & _); by simplify_eq |].
  destruct (bool_decide (point_ids b = []) && negb (batch_exhausted b)) eqn:Eb.
  { split; [|eauto]. apply andb_prop in Eb as [E1%bool_decide_eq_true E2].
    intros (? & ? & ? & ? & H & _). rewrite (H E1) in E2. done. }
  destruct (check_batch_unique s source ∅ (point_ids b)) as [[]|e] eqn:Ec.
  - apply (check_batch_unique_spec s hist R source h Hh) in Ec as [Hnd Hdis].
    assert (Happ : NoDup (h ++ point_ids b)).
    { apply NoDup_app. split_and!; [|set_solver|done].
      pose proof (rep_nodup _ _ R) as F. rewrite Forall_lookup in F. eauto. }
    split; [|intros []; exists h; split_and!; try done].
    2: { intros Hnil. rewrite Hnil in Eb. simpl in Eb. by destruct (batch_exhausted b). }
    intros _. eexists. split; [done |].
    destruct (rep_weight s hist R source h Hh) as [w Hw].
    destruct (apply_batch_frame s source (start_rank b) (point_ids b))
      as (Fk & Ft & Fw & Fp & Fe).
    assert (Ep : points_rep (rrf_k s) (weights s) (read_more source (point_ids b) hist)
      (points (apply_batch s source (start_rank b) (point_ids b)))).
    { rewrite Dr. by eapply apply_batch_points; [apply R | | | | apply R]. }
    rewrite Fp, (rep_position s hist R source h Hh).
    split; [|destruct (batch_exhausted b); simpl; by rewrite Fe].
    eapply rep_read_more; try done; destruct (batch_exhausted b); simpl;
      rewrite ?Fk, ?Fw, ?Fe, ?Fp, ?length_insert; done.
  - split; [|eauto]. intros (h' & Hh' & _ & _ & _ & Hnd). simplify_eq.
    apply NoDup_app in Hnd as (_ & Hd & Hn).
    assert (check_batch_unique s source ∅ (point_ids b) = Ok tt); [|congruence].
    apply (check_batch_unique_spec s hist R source h Hh). set_solver.
Qed.

(** ** Soundness of the certificate *)

Lemma pair_order_score_lt (a b : scored) :
  score_ok a.2 -> score_ok b.2 -> (rank binary32 b.2 < rank binary32 a.2)%Z ->
  pair_order a b = Lt.
Proof.
  intros [Wa _] [Wb _] H. unfold pair_order, rrf_order.
  rewrite (ordered_cmp_rank binary32) by done.
  by rewrite (proj2 (Z.compare_lt_iff _ _) H).
Qed.

Lemma pair_order_score_eq (a b : scored) :
  score_ok a.2 -> score_ok b.2 -> (rank binary32 b.2 <= rank binary32 a.2)%Z ->
  id_cmp a.1 b.1 = Lt -> pair_order a b = Lt.
Proof.
  intros [Wa _] [Wb _] H I. unfold pair_order, rrf_order.
  rewrite (ordered_cmp_rank binary32) by done. rewrite I.
  destruct (Z.compare_spec (rank binary32 b.2) (rank binary32 a.2)); [done | done | lia].
Qed.

Lemma guaranteed_before_sound w lw c uc Fw Fc :
  score_ok lw -> score_ok uc -> score_ok Fw -> score_ok Fc ->
  score_le lw Fw -> score_le Fc uc ->
  guaranteed_before w lw c uc = true -> pair_order (w, Fw) (c, Fc) = Lt.
Proof.
  intros Olw Ouc OFw OFc Hl Hu G. unfold score_le in *.
  destruct Olw as [? ?], Ouc as [? ?]. unfold guaranteed_before in G.
  rewrite (flt_rank binary32), (feq_rank binary32) in G by done.
  apply orb_prop in G as [G|G].
  - apply Z.ltb_lt in G. apply pair_order_score_lt; simpl; [done..| lia].
  - apply andb_prop in G as [G1%Z.eqb_eq G2]. unfold id_ltb in G2.
    apply pair_order_score_eq; simpl; [done.. | lia |].
    by destruct (id_cmp w c).
Qed.

Section Winners.
Context (F : ExtendedPointId -> float) (U : float).
Hypotheses (HF : forall id, score_ok (F id)) (HU : score_ok U).

(** The bounds of a candidate enclose its final score. *)
Definition enclosed (c : candidate) : Prop :=
  score_ok c.1.2 /\ score_ok c.2 /\ score_le c.1.2 (F c.1.1) /\ score_le (F c.1.1) c.2.

(** [rest] is the ranking still to be emitted. *)
Record open_ranking (remaining : list candidate) (rest : list scored) : Prop := {
  open_sorted : StronglySorted (cmp_le pair_order) rest;
  open_nodup : NoDup rest.*1;
  open_score : forall p, p ∈ rest -> p.2 = F p.1;
  open_cases : forall p, p ∈ rest ->
    p.1 ∈ (fst ∘ fst <$> remaining) \/ score_le (F p.1) U;
  open_positive : forall c, c ∈ remaining ->
    (0 < rank binary32 (F c.1.1))%Z -> (c.1.1, F c.1.1) ∈ rest;
  open_ids : NoDup (fst ∘ fst <$> remaining);
  open_enclosed : Forall enclosed remaining;
}.

Lemma candidate_order_TotalCmp : TotalCmp candidate_order.
Proof.
  apply (TotalCmp_key pair_order (fun a : nat * candidate => (a.2.1.1, a.2.1.2))), _.
Qed.

Lemma elem_of_imap_pair {A} (l : list A) i x : (i, x) ∈ imap pair l <-> l !! i = Some x.
Proof.
  rewrite list_elem_of_lookup. setoid_rewrite list_lookup_imap. split.
  - intros [j H]. destruct (l !! j) eqn:E; simpl in H; [|done]. by injection H as -> ->.
  - intros H. exists i. by rewrite H.
Qed.

(** A winner that passes both tests heads the remaining ranking. *)
Lemma winner_heads remaining rest i w :
  open_ranking remaining rest -> remaining !! i = Some w ->
  fle w.1.2 U = false ->
  existsb (fun '(index, challenger) =>
    negb (index =? i)%nat
    && negb (guaranteed_before w.1.1 w.1.2 (challenger : candidate).1.1 challenger.2))
    (imap pair remaining) = false ->
  exists rest', rest = (w.1.1, F w.1.1) :: rest' /\
    open_ranking (swap_remove i remaining) rest'.
Proof.
  intros O Hi HwU Hch. pose proof (swap_remove_perm _ _ _ Hi) as P.
  pose proof (open_enclosed _ _ O) as Enc. rewrite Forall_forall in Enc.
  assert (Hw : w ∈ remaining) by (by eapply list_elem_of_lookup_2).
  destruct (Enc w Hw) as (Ol & Ou & Hl & Hu).
  destruct HU as [WU NU], Ol as [Wl Nl].
  rewrite (fle_rank binary32) in HwU by done. apply Z.leb_gt in HwU.
  pose proof (nonneg_rank binary32 U NU) as HU0. unfold score_le in *.
  pose proof (open_positive _ _ O w Hw ltac:(lia)) as Hin.
  apply list_elem_of_split in Hin as (l1 & l2 & Hsplit).
  assert (Prest : rest ≡ₚ (w.1.1, F w.1.1) :: l1 ++ l2) by (subst; by rewrite Permutation_middle).
  destruct (sorted_head pair_order (w.1.1, F w.1.1) rest (l1 ++ l2)) as (rest' & -> & Prest');
    [apply O | done | |].
  - intros y Hy.
    assert (Hyr : y ∈ rest) by (rewrite Prest; by right).
    assert (Hne : y.1 <> w.1.1).
    { intros E. pose proof (open_nodup _ _ O) as N. rewrite Prest in N. simpl in N.
      apply NoDup_cons in N as [N _]. apply N. rewrite <- E. by apply list_elem_of_fmap_2. }
    rewrite (surjective_pairing y), (open_score _ _ O y Hyr).
    destruct (open_cases _ _ O y Hyr) as [Hc|Hc].
    + apply list_elem_of_fmap in Hc as (c & Hc1 & Hc2). simpl in Hc1.
      apply list_elem_of_lookup in Hc2 as [j Hj].
      destruct (Enc c (list_elem_of_lookup_2 _ _ _ Hj)) as (_ & Ouc & _ & Huc).
      rewrite Hc1. apply (guaranteed_before_sound _ w.1.2 _ c.2); try done.
      apply elem_of_imap_pair in Hj.
      pose proof (existsb_false_elem _ _ _ Hch Hj) as G. simpl in G.
      destruct (Nat.eqb_spec j i) as [->|].
      { apply elem_of_imap_pair in Hj. assert (c = w) as -> by congruence. by destruct Hne. }
      by apply negb_false_iff in G.
    + apply pair_order_score_lt; simpl; [done..|]. unfold score_le in Hc. lia.
  - exists rest'. split; [done |].
    assert (HN := open_nodup _ _ O). simpl in HN. apply NoDup_cons in HN as [HN1 HN2].
    pose proof (open_ids _ _ O) as HI. rewrite P in HI. simpl in HI.
    apply NoDup_cons in HI as [HI1 HI2].
    split; try done.
    + pose proof (open_sorted _ _ O) as SS. by apply StronglySorted_inv in SS as [? _].
    + intros p Hp. apply (open_score _ _ O). by right.
    + intros p Hp. destruct (open_cases _ _ O p) as [H|H]; [by right | | by right].
      rewrite P in H. simpl in H. apply elem_of_cons in H as [H|H]; [|by left].
      exfalso. apply HN1. rewrite <- H. by apply list_elem_of_fmap_2.
    + intros c Hc Hpos.
      assert (Hc' : c ∈ remaining) by (rewrite P; by right).
      pose proof (open_positive _ _ O c Hc' Hpos) as [H|H]%elem_of_cons; [|done].
      exfalso. apply HI1. injection H as H _. rewrite <- H.
      apply (list_elem_of_fmap_2 (fst ∘ fst) _ c). done.
    + pose proof (open_enclosed _ _ O) as E. rewrite P in E. by inv E.
Qed.

Lemma fix_winners_sound n remaining rest fixed res :
  open_ranking remaining rest ->
  fix_winners n U remaining fixed = Some res ->
  n <= length rest /\ res = fixed ++ take n rest.*1.
Proof.
  revert remaining rest fixed. induction n as [|n IH]; intros remaining rest fixed O; simpl.
  - intros [= <-]. split; [lia |]. by rewrite app_nil_r.
  - destruct (min_by candidate_order (imap pair remaining)) as [[i w]|] eqn:Em; [|done].
    simpl. pose proof candidate_order_TotalCmp.
    apply (min_by_spec candidate_order) in Em as [Hin%elem_of_imap_pair _].
    destruct (fle w.1.2 U) eqn:Ele; [done |].
    destruct (existsb _ _) eqn:Eex; [done |]. intros E.
    destruct (winner_heads remaining rest i w O Hin Ele Eex) as (rest' & -> & O').
    destruct (IH _ _ _ O' E) as [Hn ->]. simpl. split; [lia |].
    by rewrite <- app_assoc.
Qed.
End Winners.

(** ** Completeness of the certificate

    What the bounds leave open: every candidate has some score between its
    bounds, every point that was not seen, whatever its identity, some score up
    to the bound of unseen points.  [determined] says that all these
    possibilities agree on the first [n] identities. *)

Definition ranked_by (score : ExtendedPointId -> float) (remaining : list candidate) : list scored :=
  sort_by pair_order ((fun c : candidate => (c.1.1, score c.1.1)) <$> remaining).

Definition determined (U : float) (n : nat) (remaining : list candidate) (ids : list ExtendedPointId) : Prop :=
  length ids = n /\
  forall score u, (forall id, score_ok (score id)) -> Forall (enclosed score) remaining ->
    score_ok u -> score_le u U ->
    take n (ranked_by score remaining).*1 = ids /\ Forall (fun id => flt u (score id) = true) ids.

(** The bounds of a candidate are in order. *)
Definition bounded (c : candidate) : Prop := score_ok c.1.2 /\ score_ok c.2 /\ score_le c.1.2 c.2.

(** A choice of scores, candidate by candidate. *)
Definition score_of (g : candidate -> float) (remaining : list candidate) (id : ExtendedPointId) : float :=
  default fzero (g <$> List.find (fun c : candidate => bool_decide (c.1.1 = id)) remaining).

Section Determined.
Context (U : float) (HU : score_ok U).

Lemma score_of_elem g remaining c : NoDup (fst ∘ fst <$> remaining) -> c ∈ remaining ->
  score_of g remaining c.1.1 = g c.
Proof.
  unfold score_of. induction remaining as [|d l IH]; intros N Hc; [by apply not_elem_of_nil in Hc |].
  simpl. apply NoDup_cons in N as [Nd N]. apply elem_of_cons in Hc as [->|Hc]; [by rewrite bool_decide_true |].
  rewrite bool_decide_false; [by apply IH |]. intros E. apply Nd. simpl. rewrite E.
  by apply (list_elem_of_fmap_2 (fst ∘ fst)).
Qed.

Lemma score_of_allowed g remaining : NoDup (fst ∘ fst <$> remaining) ->
  Forall (fun c => bounded c /\ score_ok (g c) /\ score_le c.1.2 (g c) /\ score_le (g c) c.2) remaining ->
  (forall id, score_ok (score_of g remaining id)) /\ Forall (enclosed (score_of g remaining)) remaining.
Proof.
  intros N H. rewrite Forall_forall in H. split.
  - intros id. unfold score_of. destruct (List.find _ remaining) as [c|] eqn:E; simpl; [|apply score_ok_zero].
    apply find_some in E as [Hc _]. apply list_elem_of_In in Hc. by apply H.
  - apply Forall_forall. intros c Hc. destruct (H c Hc) as ((? & ? & _) & _ & ? & ?).
    unfold enclosed. by rewrite score_of_elem.
Qed.

Lemma lower_allowed remaining : NoDup (fst ∘ fst <$> remaining) -> Forall bounded remaining ->
  (forall id, score_ok (score_of (fun c => c.1.2) remaining id)) /\ Forall (enclosed (score_of (fun c => c.1.2) remaining)) remaining.
Proof.
  intros N B. apply score_of_allowed; [done |]. apply Forall_impl with (1 := B). intros c (? & ? & ?). by split_and!.
Qed.

Lemma ranked_nodup (score : ExtendedPointId -> float) (remaining : list candidate) : NoDup (fst ∘ fst <$> remaining) ->
  NoDup ((fun c : candidate => (c.1.1, score c.1.1)) <$> remaining).*1.
Proof. intros N. rewrite <- list_fmap_compose. done. Qed.

(** All the possible rankings form open rankings. *)
Lemma ranked_open score remaining : NoDup (fst ∘ fst <$> remaining) -> Forall (enclosed score) remaining ->
  open_ranking score U remaining (ranked_by score remaining).
Proof.
  intros N En. unfold ranked_by. split; try done.
  - apply sort_by_sorted, _.
  - rewrite sort_by_perm. by apply ranked_nodup.
  - intros p. rewrite sort_by_perm, list_elem_of_fmap. by intros (c & -> & _).
  - intros p. rewrite sort_by_perm, list_elem_of_fmap. intros (c & -> & Hc). left.
    by apply (list_elem_of_fmap_2 (fst ∘ fst)).
  - intros c Hc _. rewrite sort_by_perm. by apply (list_elem_of_fmap_2 (fun c : candidate => (c.1.1, score c.1.1))).
Qed.

Lemma fix_winners_above n remaining fixed res : fix_winners n U remaining fixed = Some res ->
  exists ids, res = fixed ++ ids /\ length ids = n /\
    Forall (fun id => exists c, c ∈ remaining /\ c.1.1 = id /\ fle c.1.2 U = false) ids.
Proof.
  revert remaining fixed. induction n as [|n IH]; intros remaining fixed; simpl.
  { intros [= <-]. exists []. by rewrite app_nil_r. }
  destruct (min_by candidate_order (imap pair remaining)) as [[i w]|] eqn:Em; [|done]. simpl.
  pose proof candidate_order_TotalCmp. apply (min_by_spec candidate_order) in Em as [Hin%elem_of_imap_pair _].
  destruct (fle w.1.2 U) eqn:Ele; [done |]. destruct (existsb _ _); [done |]. intros E.
  destruct (IH _ _ E) as (ids & -> & Hn & Hids). exists (w.1.1 :: ids).
  rewrite <- app_assoc. split_and!; [done | simpl; lia |]. pose proof (swap_remove_perm _ _ _ Hin) as P.
  constructor; [exists w; split_and!; [by eapply list_elem_of_lookup_2 | done | done] |].
  apply Forall_impl with (1 := Hids). intros id (c & Hc & ?). exists c. split; [|done]. rewrite P. by right.
Qed.

(** An answer is determined. *)
Lemma fix_winners_determined n remaining ids : NoDup (fst ∘ fst <$> remaining) ->
  fix_winners n U remaining [] = Some ids -> determined U n remaining ids.
Proof.
  intros N E. destruct (fix_winners_above _ _ _ _ E) as (ids' & [= <-] & Hn & Hab). split; [done |].
  intros score u Hs En Hu Hle.
  destruct (fix_winners_sound score U Hs HU n remaining _ [] ids (ranked_open score remaining N En) E) as [_ ->].
  split; [done |]. simpl. apply Forall_impl with (1 := Hab). intros id (c & Hc & <- & Hlow).
  rewrite Forall_forall in En. destruct (En c Hc) as ((Wl & ?) & _ & Hl & _). destruct Hu, HU. pose proof (Hs c.1.1) as [? ?].
  rewrite (fle_rank binary32) in Hlow by done. apply Z.leb_gt in Hlow. rewrite (flt_rank binary32) by done.
  apply Z.ltb_lt. unfold score_le in *. lia.
Qed.

(** The first of a possible ranking, and what follows it. *)
Lemma ranked_first score remaining i w n ids : NoDup (fst ∘ fst <$> remaining) -> remaining !! i = Some w ->
  take (S n) (ranked_by score remaining).*1 = w.1.1 :: ids ->
  (forall c, c ∈ swap_remove i remaining -> pair_order (w.1.1, score w.1.1) (c.1.1, score c.1.1) = Lt) /\
  take n (ranked_by score (swap_remove i remaining)).*1 = ids.
Proof.
  intros N Hi Ht. pose proof (swap_remove_perm _ _ _ Hi) as P.
  assert (N' : NoDup (fst ∘ fst <$> w :: swap_remove i remaining)) by by rewrite <- P.
  apply NoDup_cons in N' as [Nw N'].
  pose proof (sort_by_sorted pair_order ((fun c : candidate => (c.1.1, score c.1.1)) <$> remaining)) as SS.
  pose proof (sort_by_perm pair_order ((fun c : candidate => (c.1.1, score c.1.1)) <$> remaining)) as PP.
  fold (ranked_by score remaining) in SS, PP.
  pose proof (fmap_Permutation (fun c : candidate => (c.1.1, score c.1.1)) _ _ P) as PF. csimpl in PF. rewrite PF in PP. clear PF.
  destruct (ranked_by score remaining) as [|p l] eqn:El; [by apply Permutation_nil_cons in PP |].
  simpl in Ht. injection Ht as Hp Ht.
  assert (p = (w.1.1, score w.1.1)) as ->.
  { assert (Hin : p ∈ (w.1.1, score w.1.1) :: ((fun c : candidate => (c.1.1, score c.1.1)) <$> swap_remove i remaining))
      by (rewrite <- PP; left).
    apply elem_of_cons in Hin as [->|Hin]; [done |]. exfalso. apply Nw.
    apply list_elem_of_fmap in Hin as (c & -> & Hc). simpl in Hp. simpl. rewrite <- Hp.
    by apply (list_elem_of_fmap_2 (fst ∘ fst)). }
  apply Permutation_cons_inv in PP. apply StronglySorted_inv in SS as [SS Hw]. split.
  - intros c Hc. rewrite Forall_forall in Hw.
    assert (Hcl : (c.1.1, score c.1.1) ∈ l).
    { rewrite PP. by apply (list_elem_of_fmap_2 (fun c : candidate => (c.1.1, score c.1.1))). }
    specialize (Hw _ Hcl). unfold cmp_le in Hw. destruct (pair_order _ _) eqn:E; [|done|done].
    exfalso. apply Nw. apply pair_order_eq_id in E. simpl in E. simpl. rewrite E.
    by apply (list_elem_of_fmap_2 (fst ∘ fst)).
  - rewrite <- Ht. do 2 f_equal. pose proof (ranked_nodup score _ N') as N2. unfold ranked_by.
    apply (sorted_unique pair_order); [| apply sort_by_sorted, _ | done | by rewrite sort_by_perm].
    intros a b Ha Hb E. rewrite sort_by_perm in Ha, Hb. eapply NoDup_fst_inj; eauto using pair_order_eq_id.
Qed.

(** The scores that put every candidate but one at its upper bound. *)
Definition at_upper (w : ExtendedPointId) (c : candidate) : float := if decide (c.1.1 = w) then c.1.2 else c.2.

Lemma guaranteed_before_complete w lw c uc : score_ok lw -> score_ok uc ->
  pair_order (w, lw) (c, uc) = Lt -> guaranteed_before w lw c uc = true.
Proof.
  intros [Wl Nl] [Wu Nu]. unfold pair_order, rrf_order, guaranteed_before. simpl.
  rewrite (ordered_cmp_rank binary32), (flt_rank binary32), (feq_rank binary32) by done. unfold id_ltb.
  destruct (Z.compare_spec (rank binary32 uc) (rank binary32 lw)) as [E|E|E]; simpl; intros Hid; [| |done].
  - rewrite E, Z.eqb_refl, Hid. by rewrite orb_true_r.
  - by rewrite (proj2 (Z.ltb_lt _ _) E).
Qed.

Lemma others_differ (remaining : list candidate) i w c : NoDup (fst ∘ fst <$> remaining) -> remaining !! i = Some w ->
  c ∈ swap_remove i remaining -> c.1.1 <> w.1.1.
Proof.
  intros N Hi Hc E. rewrite (swap_remove_perm _ _ _ Hi) in N. apply NoDup_cons in N as [Nw _]. apply Nw. simpl.
  rewrite <- E. by apply (list_elem_of_fmap_2 (fst ∘ fst)).
Qed.

Lemma challengers_pass n remaining i w ids : NoDup (fst ∘ fst <$> remaining) -> Forall bounded remaining ->
  remaining !! i = Some w -> determined U (S n) remaining (w.1.1 :: ids) ->
  existsb (fun '(index, challenger) => negb (index =? i)%nat
    && negb (guaranteed_before w.1.1 w.1.2 (challenger : candidate).1.1 challenger.2)) (imap pair remaining) = false.
Proof.
  intros N B Hi [_ D]. rewrite Forall_forall in B.
  assert (Up : Forall (fun c : candidate => bounded c /\ score_ok (at_upper w.1.1 c) /\ score_le c.1.2 (at_upper w.1.1 c)
    /\ score_le (at_upper w.1.1 c) c.2) remaining).
  { apply Forall_forall. intros c Hc. destruct (B c Hc) as (? & ? & ?). unfold at_upper. by case_decide. }
  destruct (score_of_allowed _ _ N Up) as [U1 U2]. destruct (D _ U U1 U2 HU (reflexivity U)) as [Dt _].
  destruct (ranked_first _ remaining i w n ids N Hi Dt) as [First _]. pose proof (swap_remove_perm _ _ _ Hi) as P.
  apply not_true_is_false. intros ([j c] & Hj & Hf)%existsb_exists. apply list_elem_of_In, elem_of_imap_pair in Hj.
  apply andb_prop in Hf as [Hne%negb_true_iff%Nat.eqb_neq Hg%negb_true_iff].
  assert (Hw : w ∈ remaining) by by eapply list_elem_of_lookup_2.
  assert (Hc : c ∈ remaining) by by eapply list_elem_of_lookup_2.
  assert (Hcs : c ∈ swap_remove i remaining).
  { assert (Hc' := Hc). rewrite P in Hc'. apply elem_of_cons in Hc' as [->|Hc']; [|done]. destruct Hne.
    eapply NoDup_lookup; [exact N | rewrite list_lookup_fmap, Hj; done | rewrite list_lookup_fmap, Hi; done]. }
  specialize (First c Hcs). rewrite !score_of_elem in First by done. unfold at_upper in First.
  rewrite decide_True in First by done. rewrite decide_False in First by by eapply others_differ.
  rewrite (guaranteed_before_complete _ _ _ _ (proj1 (B w Hw)) (proj1 (proj2 (B c Hc))) First) in Hg. done.
Qed.

Lemma determined_rest n remaining i w ids : NoDup (fst ∘ fst <$> remaining) -> Forall bounded remaining ->
  remaining !! i = Some w -> determined U (S n) remaining (w.1.1 :: ids) ->
  determined U n (swap_remove i remaining) ids.
Proof.
  intros N B Hi [Hn D]. split; [by injection Hn |]. intros score u Hs En Hu Hle.
  assert (Hw : w ∈ remaining) by by eapply list_elem_of_lookup_2. pose proof (swap_remove_perm _ _ _ Hi) as P.
  rewrite Forall_forall in B. destruct (B w Hw) as (Ow & Ouw & Hlu).
  set (score' id := if decide (id = w.1.1) then w.1.2 else score id).
  assert (Same : forall c, c ∈ swap_remove i remaining -> score' c.1.1 = score c.1.1).
  { intros c Hc. unfold score'. by rewrite decide_False by by eapply others_differ. }
  destruct (D score' u) as [Dt Du]; [intros id; unfold score'; by case_decide | | done | done |].
  { rewrite P. constructor; [unfold enclosed, score'; by rewrite decide_True |]. rewrite Forall_forall in *.
    intros c Hc. unfold enclosed. rewrite Same by done. by apply En. }
  destruct (ranked_first score' remaining i w n ids N Hi Dt) as [_ Ht].
  assert (Er : ranked_by score' (swap_remove i remaining) = ranked_by score (swap_remove i remaining)).
  { unfold ranked_by. f_equal. apply list_fmap_ext. intros k c Hc. by rewrite Same by by eapply list_elem_of_lookup_2. }
  rewrite Er in Ht. split; [done |]. apply Forall_cons in Du as [_ Du]. rewrite Forall_forall in *. intros id Hid.
  assert (Hin : id ∈ (ranked_by score (swap_remove i remaining)).*1) by (eapply subseteq_take; by rewrite Ht).
  unfold ranked_by in Hin. rewrite sort_by_perm, <- list_fmap_compose in Hin. apply list_elem_of_fmap in Hin as (c & -> & Hc).
  simpl in Hid |- *. rewrite <- (Same c Hc). by apply (Du c.1.1).
Qed.

(** A determined answer is given. *)
Lemma determined_fix_winners n remaining ids fixed : NoDup (fst ∘ fst <$> remaining) -> Forall bounded remaining ->
  determined U n remaining ids -> fix_winners n U remaining fixed = Some (fixed ++ ids).
Proof.
  revert remaining ids fixed. induction n as [|n IH]; intros remaining ids fixed N B [Hlen D]; simpl.
  { apply nil_length_inv in Hlen as ->. by rewrite app_nil_r. }
  destruct ids as [|a ids]; [done |]. injection Hlen as Hlen.
  destruct (lower_allowed remaining N B) as [Lo1 Lo2].
  destruct (D _ U Lo1 Lo2 HU (reflexivity U)) as [Dl Al].
  destruct (min_by candidate_order (imap pair remaining)) as [[i w]|] eqn:Em; simpl.
  2:{ apply min_by_None in Em. apply (f_equal length) in Em. rewrite length_imap in Em. apply nil_length_inv in Em as ->. done. }
  pose proof candidate_order_TotalCmp as TC. apply (min_by_spec candidate_order) in Em as [Hin%elem_of_imap_pair Hmin].
  assert (exists j ca, remaining !! j = Some ca /\ ca.1.1 = a) as (j & ca & Hj & Ea).
  { assert (Ha : a ∈ (ranked_by (score_of (fun c => c.1.2) remaining) remaining).*1).
    { eapply subseteq_take. rewrite Dl. left. }
    unfold ranked_by in Ha. rewrite sort_by_perm, <- list_fmap_compose in Ha.
    apply list_elem_of_fmap in Ha as (ca & -> & [j Hj]%list_elem_of_lookup). eauto. }
  assert (Hwa : w.1.1 = a).
  { rewrite <- Ea in Dl. destruct (ranked_first _ remaining j ca n ids N Hj Dl) as [First _].
    pose proof (swap_remove_perm _ _ _ Hj) as Pj.
    assert (Hw : w ∈ ca :: swap_remove j remaining) by (rewrite <- Pj; by eapply list_elem_of_lookup_2).
    apply elem_of_cons in Hw as [->|Hw]; [done |]. exfalso. specialize (First w Hw).
    rewrite !score_of_elem in First; [|done|by eapply list_elem_of_lookup_2|done|by eapply list_elem_of_lookup_2].
    apply (Hmin (j, ca)); [by apply elem_of_imap_pair |]. apply (cmp_gt_lt candidate_order). exact First. }
  clear j ca Hj Ea Dl. subst a.
  assert (Hw : w ∈ remaining) by by eapply list_elem_of_lookup_2.
  pose proof (swap_remove_perm _ _ _ Hin) as P. rewrite Forall_forall in B. destruct (B w Hw) as (Ow & _ & Hlu).
  assert (fle w.1.2 U = false) as ->.
  { inversion Al as [|? ? Hab _]; subst. rewrite score_of_elem in Hab by done. destruct Ow, HU.
    rewrite (flt_rank binary32) in Hab by done. rewrite (fle_rank binary32) by done. apply Z.ltb_lt in Hab. apply Z.leb_gt. lia. }
  rewrite (challengers_pass n remaining i w ids); [|done | by apply Forall_forall | done | by split; simpl; [f_equal|]].
  assert (N' : NoDup (fst ∘ fst <$> w :: swap_remove i remaining)) by by rewrite <- P. apply NoDup_cons in N' as [_ N'].
  rewrite (IH (swap_remove i remaining) ids); [by rewrite <- app_assoc | done | |].
  - apply Forall_forall. intros c Hc. apply B. rewrite P. by right.
  - apply (determined_rest n remaining i w ids); [done | by apply Forall_forall | done |]. split; [simpl; by f_equal | done].
Qed.
End Determined.

(** ** What the sources may still hold *)

(** Complete rankings that agree with everything read so far. *)
Definition extends (s : DynamicRrfState) (hist streams : list (list ExtendedPointId)) : Prop :=
  length streams = length hist /\
  forall i h, hist !! i = Some h ->
    exists t, streams !! i = Some (h ++ t) /\ (exhausted s !! i = Some true -> t = []).

Section Bounds.
Context (s : DynamicRrfState) (hist streams : list (list ExtendedPointId)).
Hypotheses (R : rep s hist) (E : extends s hist streams).
Let k := rrf_k s.
Let ws := weights s.

(** One source: its prefix, what follows, and its weight. *)
Lemma source_at i :
  i < length ws ->
  exists w h t e, ws !! i = Some w /\ hist !! i = Some h /\ streams !! i = Some (h ++ t) /\
    exhausted s !! i = Some e /\ (e = true -> t = []) /\
    wf binary32 w /\ weight_valid w = true /\
    next_contributions s !! i =
      Some (if e then fzero else position_score (length h) k w).
Proof.
  intros Hi. destruct (lookup_lt_is_Some_2 ws i Hi) as [w Hw].
  destruct (lookup_lt_is_Some_2 hist i) as [h Hh]; [rewrite (rep_hist _ _ R); done |].
  destruct (lookup_lt_is_Some_2 (exhausted s) i) as [e He];
    [rewrite (rep_exhausted _ _ R); done |].
  destruct (proj2 E i h Hh) as (t & Ht & Hx).
  pose proof (proj2 (rep_weights _ _ R)) as F. rewrite Forall_lookup in F.
  destruct (F i w Hw). exists w, h, t, e. split_and!; try done.
  - intros ->. by apply Hx.
  - unfold next_contributions. rewrite list_lookup_fmap, lookup_seq_lt by done. simpl.
    unfold next_possible_contribution.
    rewrite decide_False by (change (weights s) with ws; lia).
    rewrite (index_lookup _ _ _ He), (index_lookup _ _ _ Hw), (rep_position s hist R i h Hh).
    by destruct e.
Qed.

Lemma length_next_contributions : length (next_contributions s) = length ws.
Proof. unfold next_contributions. by rewrite length_fmap, length_seq. Qed.

Lemma ext_length : length hist = length ws /\ length streams = length ws.
Proof. pose proof (rep_hist _ _ R). destruct E as [-> _]. done. Qed.

Lemma ws_nonempty : ws <> [].
Proof. apply (rep_weights _ _ R). Qed.

(** The contribution of source [i] is enclosed by what is known of it. *)
Lemma contribution_bounds i w h t e id :
  ws !! i = Some w -> hist !! i = Some h -> (e = true -> t = []) ->
  wf binary32 w -> weight_valid w = true ->
  let known := wrrf_contribution k w h id in
  let final := default fzero (wrrf_contribution k w (h ++ t) id) in
  let next := if e then fzero else position_score (length h) k w in
  score_ok (default fzero known) /\ score_ok final /\ score_ok (default next known) /\
  score_ok next /\
  score_le (default fzero known) final /\ score_le final (default next known) /\
  (known = None -> score_le final next).
Proof.
  intros Hw Hh Ht Ww Vw. pose proof (rep_k _ _ R) as Hk. fold k in Hk.
  assert (Ops : forall p, score_ok (position_score p k w))
    by (intros; by apply position_score_ok).
  assert (Onext : score_ok (if e then fzero else position_score (length h) k w))
    by (destruct e; auto with score).
  destruct (wrrf_contribution k w h id) as [c|] eqn:Ec; rewrite wrrf_contribution_app, Ec; simpl.
  - assert (score_ok c).
    { unfold wrrf_contribution in Ec. destruct (list_find _ _) as [[p y]|]; [|done].
      injection Ec as <-. apply Ops. }
    done.
  - assert (Hf : score_ok (default fzero (response_contribution k w (length h) t id)) /\
      score_le (default fzero (response_contribution k w (length h) t id))
        (if e then fzero else position_score (length h) k w)).
    { destruct e; [rewrite Ht by done; split; [auto with score | done] |].
      unfold response_contribution. destruct (list_find _ t) as [[p y]|]; simpl.
      - split; [apply Ops |]. apply position_score_antitone; [done..| lia].
      - split; [auto with score |]. by apply score_le_zero. }
    destruct Hf. split_and!; try done; auto with score. by apply score_le_zero.
Qed.

(** The final score of an identity lies between its bounds. *)
Lemma lower_bound_ok id :
  let lo := lower_bound {| contributions := contributions_of k ws hist id |} in
  score_ok lo /\ score_le lo (wrrf_score k ws streams id).
Proof.
  unfold lower_bound, wrrf_score, contributions_of; simpl. rewrite fmap_zip_with.
  destruct ext_length as [Hl1 Hl2]. pose proof ws_nonempty as Hne.
  edestruct f32_sum_pointwise as (H1 & H2 & H3); [| | | split; [apply H1 | apply H3]].
  - rewrite !length_zip_with. lia.
  - by destruct ws, hist.
  - intros i x y. rewrite !lookup_zip_with_Some.
    intros (w & h & -> & Hw & Hh) (w' & st & -> & Hw' & Hst). simplify_eq.
    destruct (source_at i) as (w' & h' & t & e & ? & ? & ? & ? & ? & ? & ? & _);
      [by eapply lookup_lt_Some |]. simplify_eq.
    destruct (contribution_bounds i w h t e id) as (? & ? & _ & _ & ? & _); done.
Qed.

Lemma upper_bound_ok id :
  let hi := upper_bound (next_contributions s)
    {| contributions := contributions_of k ws hist id |} in
  score_ok hi /\ score_le (wrrf_score k ws streams id) hi.
Proof.
  unfold upper_bound, wrrf_score, contributions_of; simpl.
  destruct ext_length as [Hl1 Hl2]. pose proof ws_nonempty as Hne.
  pose proof length_next_contributions as Hn.
  edestruct f32_sum_pointwise as (H1 & H2 & H3); [| | | split; [apply H2 | apply H3]].
  - rewrite !length_zip_with. lia.
  - by destruct ws, streams.
  - intros i x y. rewrite !lookup_zip_with_Some. setoid_rewrite lookup_zip_with_Some.
    intros (w & st & -> & Hw & Hst) (c & n & -> & (w' & h & -> & Hw' & Hh) & Hnx).
    simplify_eq.
    destruct (source_at i) as (w' & h' & t & e & ? & ? & ? & ? & ? & ? & ? & ?);
      [by eapply lookup_lt_Some |]. simplify_eq.
    destruct (contribution_bounds i w h t e id) as (? & ? & ? & _ & _ & ? & _); done.
Qed.

Lemma next_sum_ok : score_ok (f32_sum (next_contributions s)).
Proof.
  pose proof ws_nonempty as Hne. pose proof length_next_contributions as Hn.
  apply f32_sum_ok; [by destruct ws, (next_contributions s) |].
  apply Forall_lookup. intros i x Hx.
  destruct (source_at i) as (w & h & t & e & ? & ? & ? & ? & ? & ? & ? & ?);
    [apply lookup_lt_Some in Hx; lia |]. simplify_eq.
  destruct (contribution_bounds i w h t e (NumId 0)) as (_ & _ & _ & ? & _); done.
Qed.

Lemma unseen_bound_ok id :
  id ∉ concat hist ->
  score_le (wrrf_score k ws streams id) (f32_sum (next_contributions s)).
Proof.
  intros Hid. destruct ext_length as [Hl1 Hl2]. pose proof ws_nonempty as Hne.
  pose proof length_next_contributions as Hn. unfold wrrf_score.
  edestruct f32_sum_pointwise as (H1 & H2 & H3); [| | | apply H3].
  - rewrite !length_zip_with. lia.
  - by destruct ws, streams.
  - intros i x y. rewrite !lookup_zip_with_Some.
    intros (w & st & -> & Hw & Hst) Hnx.
    destruct (source_at i) as (w' & h & t & e & ? & ? & ? & ? & ? & ? & ? & ?);
      [by eapply lookup_lt_Some |]. simplify_eq.
    destruct (contribution_bounds i w h t e id) as (? & ? & ? & ? & _ & _ & Hx); try done.
    split_and!; [done | done |]. apply Hx, wrrf_contribution_absent.
    by eapply concat_absent.
Qed.
End Bounds.

(** ** The certificate *)

(** The scored identities that exhaustive fusion ranks. *)
Definition wrrf_scored (k : nat) (ws : list float) (streams : list (list ExtendedPointId))
    : list scored :=
  filter (fun p : scored => flt fzero p.2 = true)
    ((fun id => (id, wrrf_score k ws streams id)) <$> remove_dups (concat streams)).

Lemma wrrf_scored_nodup k ws streams : NoDup (wrrf_scored k ws streams).*1.
Proof.
  apply NoDup_fmap_filter. rewrite <- list_fmap_compose, list_fmap_id.
  apply NoDup_remove_dups.
Qed.

Lemma elem_of_wrrf_scored k ws streams (p : scored) :
  p ∈ wrrf_scored k ws streams <->
    flt fzero p.2 = true /\ p.2 = wrrf_score k ws streams p.1 /\ p.1 ∈ concat streams.
Proof.
  unfold wrrf_scored. rewrite list_elem_of_filter, list_elem_of_fmap.
  setoid_rewrite elem_of_remove_dups. destruct p as [id x]; simpl. split.
  - intros (? & ? & [= -> ->] & ?). done.
  - intros (? & -> & ?). eauto.
Qed.

Lemma elem_of_wrrf_order k ws streams n id :
  id ∈ take n (wrrf_order k ws streams) -> id ∈ concat streams.
Proof.
  intros (i & Hi & _)%elem_of_take. apply list_elem_of_lookup_2 in Hi. revert Hi.
  unfold wrrf_order. rewrite list_elem_of_fmap. intros (p & -> & Hp). rewrite sort_by_perm in Hp.
  by apply (elem_of_wrrf_scored k ws) in Hp as (_ & _ & ?).
Qed.

Lemma points_rep_elem s hist id p :
  rep s hist ->
  (id, p) ∈ map_to_list (points s) <->
  id ∈ concat hist /\ p = {| contributions := contributions_of (rrf_k s) (weights s) hist id |}.
Proof.
  intros R. rewrite elem_of_map_to_list, (rep_points _ _ R).
  case_decide; split; try done; [by intros [= <-] | by intros [_ ->] | tauto].
Qed.

(** Once every source is exhausted the state holds the exhaustive fusion. *)
Lemma complete_order_spec s hist :
  rep s hist -> complete_order s = wrrf_order (rrf_k s) (weights s) hist.
Proof.
  intros R. unfold complete_order, wrrf_order. fold (wrrf_scored (rrf_k s) (weights s) hist).
  rewrite (omap_filter (fun '(id, point) => (id, lower_bound point) : scored)
    (fun p => flt fzero p.2)) by (by intros [? ?]).
  f_equal. apply sort_pairs_canonical; [| apply wrrf_scored_nodup |].
  - apply NoDup_fmap_filter. rewrite <- list_fmap_compose.
    rewrite (list_fmap_ext _ fst) by (by intros i [? ?]). apply NoDup_fst_map_to_list.
  - intros [id x]. rewrite list_elem_of_filter, elem_of_wrrf_scored, list_elem_of_fmap. simpl.
    assert (L : lower_bound {| contributions := contributions_of (rrf_k s) (weights s) hist id |}
      = wrrf_score (rrf_k s) (weights s) hist id).
    { unfold lower_bound, wrrf_score, contributions_of. simpl. by rewrite fmap_zip_with. }
    split.
    + intros (Hx & [id' p] & [= -> ->] & [H1 ->]%(points_rep_elem _ _ _ _ R)).
      rewrite L in *. done.
    + intros (Hx & -> & Hid). split; [done |].
      exists (id, {| contributions := contributions_of (rrf_k s) (weights s) hist id |}).
      rewrite L, (points_rep_elem _ _ _ _ R). done.
Qed.

Lemma extends_exhausted s hist streams :
  rep s hist -> extends s hist streams -> all_sources_exhausted s = true -> streams = hist.
Proof.
  intros R [Hlen E] A. unfold all_sources_exhausted in A. rewrite forallb_forall in A.
  apply list_eq. intros i. destruct (hist !! i) as [h|] eqn:Hh.
  - destruct (E i h Hh) as (t & -> & Ht).
    destruct (lookup_lt_is_Some_2 (exhausted s) i) as [e He].
    { rewrite (rep_exhausted _ _ R), <- (rep_hist _ _ R). by eapply lookup_lt_Some. }
    assert (e = true) as ->.
    { apply (A e). apply list_elem_of_In. by eapply list_elem_of_lookup_2. }
    by rewrite (Ht He), app_nil_r.
  - apply lookup_ge_None_2. apply lookup_ge_None_1 in Hh. lia.
Qed.

(** The candidates of the certificate with the exhaustive ranking form an
    open ranking. *)
Lemma certificate_open s hist streams :
  rep s hist -> extends s hist streams ->
  open_ranking (wrrf_score (rrf_k s) (weights s) streams) (f32_sum (next_contributions s))
    ((fun '(id, point) =>
        (id, lower_bound point, upper_bound (next_contributions s) point)) <$>
      map_to_list (points s))
    (sort_by pair_order (wrrf_scored (rrf_k s) (weights s) streams)).
Proof.
  intros R E.
  assert (Fst : fst ∘ fst <$> ((fun '(id, point) =>
      (id, lower_bound point, upper_bound (next_contributions s) point)) <$>
      map_to_list (points s)) = (map_to_list (points s)).*1).
  { rewrite <- list_fmap_compose. apply list_fmap_ext. by intros i [? ?]. }
  split.
  - apply sort_by_sorted, _.
  - rewrite sort_by_perm. apply wrrf_scored_nodup.
  - intros p. rewrite sort_by_perm, elem_of_wrrf_scored. tauto.
  - intros p _. rewrite Fst. destruct (decide (p.1 ∈ concat hist)) as [D|D].
    + left. apply list_elem_of_fmap. exists (p.1, {| contributions :=
        contributions_of (rrf_k s) (weights s) hist p.1 |}). split; [done |].
      by apply (points_rep_elem s hist _ _ R).
    + right. by apply unseen_bound_ok with hist.
  - intros c Hc Hpos. apply list_elem_of_fmap in Hc as ([id p] & -> & Hp).
    apply (points_rep_elem _ _ _ _ R) in Hp as [Hid ->]. simpl in *.
    rewrite sort_by_perm, elem_of_wrrf_scored. simpl.
    assert (Hin : id ∈ concat streams).
    { apply elem_of_concat in Hid as (i & h & Hh & Hid).
      destruct (proj2 E i h Hh) as (t & Ht & _). apply elem_of_concat.
      exists i, (h ++ t). set_solver. }
    split_and!; [|done|done].
    destruct (wrrf_score_ok (rrf_k s) (weights s) streams) with (id := id) as [W N];
      [apply R | | apply (rep_weights _ _ R) | apply (rep_weights _ _ R) |].
    { destruct E as [-> _]. by rewrite (rep_hist _ _ R). }
    rewrite (flt_rank binary32) by (done || apply score_ok_zero). by apply Z.ltb_lt.
  - rewrite Fst. apply NoDup_fst_map_to_list.
  - apply Forall_fmap, Forall_forall. intros [id p] Hp.
    apply (points_rep_elem _ _ _ _ R) in Hp as [_ ->]. unfold enclosed; simpl.
    destruct (lower_bound_ok s hist streams R E id) as [? ?].
    destruct (upper_bound_ok s hist streams R E id) as [? ?]. done.
Qed.

(** The certificate is sound: when [fixed_top_k] answers, its answer is
    the exact first [top_k] identities of exhaustive fusion, for every way
    the sources may continue. *)
Lemma fixed_top_k_sound s hist streams ids :
  rep s hist -> extends s hist streams -> fixed_top_k s = Some ids ->
  ids = take (top_k s) (wrrf_order (rrf_k s) (weights s) streams).
Proof.
  intros R E. unfold fixed_top_k. case_decide as Hz; [by intros [= <-]; rewrite Hz |].
  destruct (all_sources_exhausted s) eqn:A; simpl.
  - intros [= <-]. rewrite (complete_order_spec s hist R).
    by rewrite (extends_exhausted s hist streams R E A).
  - destruct (bool_decide _); [done |]. intros H.
    eapply fix_winners_sound in H as [_ ->];
      [|intros id| by eapply next_sum_ok| by apply (certificate_open s hist streams)].
    + done.
    + apply wrrf_score_ok; [apply R | | apply (rep_weights _ _ R) | apply (rep_weights _ _ R)].
      destruct E as [-> _]. by rewrite (rep_hist _ _ R).
Qed.

(** The certificate is complete at exhaustion: once every source is
    exhausted [fixed_top_k] always answers. *)
Lemma fixed_top_k_complete s hist :
  rep s hist -> all_sources_exhausted s = true ->
  fixed_top_k s = Some (take (top_k s) (wrrf_order (rrf_k s) (weights s) hist)).
Proof.
  intros R A. unfold fixed_top_k. case_decide as Hz; [by rewrite Hz |].
  rewrite A. simpl. by rewrite (complete_order_spec s hist R).
Qed.

(** The candidates of a state with their bounds. *)
Definition open_candidates (s : DynamicRrfState) : list candidate :=
  (fun '(id, point) => (id, lower_bound point, upper_bound (next_contributions s) point)) <$> map_to_list (points s).

(** The bounds of a state determine its first [top_k] identities: whatever
    scores the bounds allow, the observed points rank [ids] first, and every
    point that was not observed has a smaller score than each of them. *)
Definition bounds_determine (s : DynamicRrfState) (ids : list ExtendedPointId) : Prop :=
  determined (f32_sum (next_contributions s)) (top_k s) (open_candidates s) ids.

Lemma extends_self s hist : rep s hist -> extends s hist hist.
Proof. intros R. split; [done |]. intros i h Hh. exists []. by rewrite app_nil_r. Qed.

Lemma candidates_bounded s hist : rep s hist ->
  NoDup (fst ∘ fst <$> open_candidates s) /\ Forall bounded (open_candidates s).
Proof.
  intros R. pose proof (certificate_open s hist hist R (extends_self s hist R)) as O. split; [apply (open_ids _ _ _ _ O) |].
  apply Forall_impl with (1 := open_enclosed _ _ _ _ O). intros c (? & ? & H1 & H2). split_and!; try done. by etransitivity.
Qed.

(** While a source is open, [fixed_top_k] answers exactly when the bounds
    determine the answer. *)
Lemma fixed_top_k_determined s hist ids : rep s hist -> all_sources_exhausted s = false ->
  fixed_top_k s = Some ids <-> bounds_determine s ids.
Proof.
  intros R A. destruct (candidates_bounded s hist R) as [N B].
  pose proof (next_sum_ok s hist hist R (extends_self s hist R)) as HU. unfold fixed_top_k, bounds_determine. rewrite A. simpl.
  fold (open_candidates s). case_decide as Hz.
  { rewrite Hz. split; [intros [= <-]; by split |]. intros [->%nil_length_inv _]. done. }
  case_bool_decide as Hsz; simpl.
  - split; [done |]. intros D. pose proof (determined_fix_winners _ HU _ _ _ [] N B D) as E.
    destruct (fix_winners_determined _ HU _ _ _ N E) as [Hlen _]. exfalso.
    destruct (fix_winners_sound (score_of (fun c => c.1.2) (open_candidates s)) _ (proj1 (lower_allowed _ N B)) HU _ _ _ [] _
      (ranked_open _ _ _ N (proj2 (lower_allowed _ N B))) E) as [Hle _].
    unfold ranked_by in Hle. rewrite sort_by_perm, length_fmap in Hle. unfold open_candidates in Hle.
    rewrite length_fmap, length_map_to_list in Hle. lia.
  - split; [by apply fix_winners_determined | apply (determined_fix_winners _ HU _ _ _ [] N B)].
Qed.

(** [C2] The certificate is exact.  When [fixed_top_k] answers, its answer is
    the first [top_k] identities of exhaustive fusion for every way the sources
    may continue, in [f32] arithmetic with its rounding and ties.  While a
    source is open it answers exactly when its bounds determine the answer: all
    scores between the lower and upper bounds of the observed points rank the
    same identities first, in the same order, strictly above every score an
    unobserved point may have.  Once every source is exhausted it does answer. *)
Theorem fixed_top_k_certificate s hist :
  rep s hist ->
  (forall streams ids, extends s hist streams -> fixed_top_k s = Some ids ->
     ids = take (top_k s) (wrrf_order (rrf_k s) (weights s) streams)) /\
  (all_sources_exhausted s = false -> forall ids, fixed_top_k s = Some ids <-> bounds_determine s ids) /\
  (all_sources_exhausted s = true ->
     fixed_top_k s = Some (take (top_k s) (wrrf_order (rrf_k s) (weights s) hist))).
Proof.
  intros R. split; [intros streams ids; by apply fixed_top_k_sound |].
  split; [intros A ids; by apply (fixed_top_k_determined s hist) | by apply fixed_top_k_complete].
Qed.

(** ** Sequences of observations *)

(** [observe_batch] called for each [(source, batch)] in turn. *)
Fixpoint observe_batches (s : DynamicRrfState) (ops : list (nat * ChannelRankBatch))
    : OperationResult DynamicRrfState :=
  match ops with
  | [] => Ok s
  | (source, b) :: ops =>
      match observe_batch s source b with
      | (s, Ok _) => observe_batches s ops
      | (_, Err e) => Err e
      end
  end.

(** What a sequence delivers for one source, and whether it ends it. *)
Definition delivered_to (i : nat) (ops : list (nat * ChannelRankBatch)) : list ExtendedPointId :=
  concat ((fun op => if decide (op.1 = i) then point_ids op.2 else []) <$> ops).

Definition finishes (i : nat) (ops : list (nat * ChannelRankBatch)) : bool :=
  existsb (fun op => bool_decide (op.1 = i) && batch_exhausted op.2) ops.

Lemma observe_batches_rep s hist ops s' :
  rep s hist -> observe_batches s ops = Ok s' ->
  exists hist', rep s' hist' /\
    (forall i, hist' !! i = (fun h => h ++ delivered_to i ops) <$> hist !! i) /\
    (forall i, exhausted s' !! i = (fun e => e || finishes i ops) <$> exhausted s !! i) /\
    top_k s' = top_k s /\ rrf_k s' = rrf_k s /\ weights s' = weights s.
Proof.
  revert s hist. induction ops as [|[source b] ops IH]; intros s hist R; simpl.
  - intros [= <-]. exists hist. split_and!; try done.
    + intros i. destruct (hist !! i); simpl; [by rewrite app_nil_r | done].
    + intros i. destruct (exhausted s !! i); simpl; [by rewrite orb_false_r | done].
  - destruct (observe_batch_refines s hist source b R) as [Hok Herr].
    destruct (decide (batch_acceptable s hist source b)) as [A|A];
      [|by destruct (Herr A) as [e ->]].
    destruct (Hok A) as (s1 & -> & R1 & Ex & Et & Ek & Ew). intros E.
    destruct (IH s1 _ R1 E) as (hist' & R' & Hh & Hx & Et' & Ek' & Ew').
    exists hist'. split_and!; try congruence.
    + intros i. rewrite Hh. unfold read_more. rewrite list_lookup_alter.
      change (delivered_to i ((source, b) :: ops)) with
        ((if decide (source = i) then point_ids b else []) ++ delivered_to i ops).
      case_decide as D; [subst | done].
      destruct (hist !! i); simpl; [by rewrite <- app_assoc | done].
    + intros i. rewrite Hx, Ex. unfold finishes. csimpl.
      destruct A as (h & Hsh & He & _).
      destruct (decide (source = i)) as [<-|D].
      * rewrite bool_decide_eq_true_2, He by done. simpl.
        destruct (batch_exhausted b); simpl; [|by rewrite He].
        rewrite list_lookup_insert_eq; [done | by eapply lookup_lt_Some].
      * rewrite bool_decide_eq_false_2 by done. simpl.
        destruct (batch_exhausted b); [by rewrite list_lookup_insert_ne | done].
Qed.

(** A state is determined by what was read. *)
Lemma rep_unique s1 s2 hist :
  rep s1 hist -> rep s2 hist ->
  rrf_k s1 = rrf_k s2 -> top_k s1 = top_k s2 -> weights s1 = weights s2 ->
  exhausted s1 = exhausted s2 -> s1 = s2.
Proof.
  intros R1 R2 Ek Et Ew Ee.
  assert (En : next_positions s1 = next_positions s2)
    by (by rewrite (rep_positions _ _ R1), (rep_positions _ _ R2)).
  assert (Ep : points s1 = points s2).
  { apply map_eq. intros id. by rewrite (rep_points _ _ R1), (rep_points _ _ R2), Ek, Ew. }
  destruct s1, s2; simpl in *. congruence.
Qed.

(** [C33] Interleaving does not matter: two sequences of batches that the
    same fresh state accepts, and that deliver the same ranking prefix and
    end marker for every source, lead to the same state, however the sources
    are interleaved and the prefixes cut into batches. *)
Theorem observe_batches_confluent n tk k ws s ops1 ops2 s1 s2 :
  from_option (Forall (wf binary32)) True ws ->
  DynamicRrfState_new n tk k ws = Ok s ->
  observe_batches s ops1 = Ok s1 -> observe_batches s ops2 = Ok s2 ->
  (forall i, delivered_to i ops1 = delivered_to i ops2 /\ finishes i ops1 = finishes i ops2) ->
  s1 = s2.
Proof.
  intros Hws E E1 E2 Hd. apply DynamicRrfState_new_rep in E as (R & _); [|done].
  destruct (observe_batches_rep _ _ _ _ R E1) as (h1 & R1 & Hh1 & Hx1 & ? & ? & ?).
  destruct (observe_batches_rep _ _ _ _ R E2) as (h2 & R2 & Hh2 & Hx2 & ? & ? & ?).
  assert (h1 = h2) as <-.
  { apply list_eq. intros i. by rewrite Hh1, Hh2, (proj1 (Hd i)). }
  apply (rep_unique s1 s2 h1); try congruence.
  apply list_eq. intros i. by rewrite Hx1, Hx2, (proj2 (Hd i)).
Qed.

(** ** Examples *)

Definition example_ops : list (nat * ChannelRankBatch) :=
  [(0, {| start_rank := 0; point_ids := [NumId 1; NumId 2]; batch_exhausted := false |});
   (1, {| start_rank := 0; point_ids := [NumId 1]; batch_exhausted := true |})].

Definition example_ops' : list (nat * ChannelRankBatch) :=
  [(0, {| start_rank := 0; point_ids := [NumId 1]; batch_exhausted := false |});
   (1, {| start_rank := 0; point_ids := [NumId 1]; batch_exhausted := true |});
   (0, {| start_rank := 1; point_ids := [NumId 2]; batch_exhausted := false |})].

Lemma observe_batches_confluent_witness :
  exists s s1, DynamicRrfState_new 2 1 60 None = Ok s /\
    observe_batches s example_ops = Ok s1 /\ observe_batches s example_ops' = Ok s1.
Proof.
  destruct (DynamicRrfState_new 2 1 60 None) as [s|] eqn:E; [|vm_compute in E; discriminate E].
  exists s.
  destruct (observe_batches s example_ops) as [s1|] eqn:E1;
    [|vm_compute in E; injection E as <-; vm_compute in E1; discriminate E1].
  destruct (observe_batches s example_ops') as [s2|] eqn:E2;
    [|vm_compute in E; injection E as <-; vm_compute in E2; discriminate E2].
  assert (s1 = s2) as <-.
  { apply (observe_batches_confluent 2 1 60 None s example_ops example_ops' s1 s2).
    - exact Logic.I.
    - exact E.
    - exact E1.
    - exact E2.
    - intros [|[|i]]; split; reflexivity. }
  exists s1. split; [reflexivity | split; [reflexivity | reflexivity]].
Defined.

(** One source exhausted, the other open: identity 1 is already the winner. *)
Lemma fixed_top_k_certificate_witness :
  exists s hist, rep s hist /\
    fixed_top_k s = Some [NumId 1] /\
    forall streams, extends s hist streams ->
      [NumId 1] = take 1 (wrrf_order (rrf_k s) (weights s) streams).
Proof.
  destruct (DynamicRrfState_new 2 1 60 None) as [s|] eqn:E; [|vm_compute in E; discriminate E].
  destruct (observe_batches s example_ops) as [s1|] eqn:E1;
    [|vm_compute in E; injection E as <-; vm_compute in E1; discriminate E1].
  destruct (DynamicRrfState_new_rep 2 1 60 None s Logic.I E) as (R & Et & _).
  destruct (observe_batches_rep _ _ _ _ R E1) as (hist & R1 & _ & _ & Et1 & _).
  assert (F : fixed_top_k s1 = Some [NumId 1]).
  { vm_compute in E. injection E as <-. vm_compute in E1. injection E1 as <-.
    vm_compute. reflexivity. }
  exists s1, hist. split; [exact R1 |]. split; [exact F |]. intros streams Hx.
  destruct (fixed_top_k_certificate s1 hist R1) as [Hs _].
  specialize (Hs streams [NumId 1] Hx F). rewrite Et1, Et in Hs. exact Hs.
Defined.
