(* ===== verification/RrfSession.v ===== *)
(** * Reciprocal rank fusion: the recoverable session

    lib/segment/src/common/reciprocal_rank_fusion/session.rs, types.rs and
    executor.rs.  A session pulls rank batches from its sources in the order
    a scheduler chooses, feeds them to [DynamicRrfState] and stops as soon as
    the certificate fixes the answer.  The scheduler computes in [f64] and
    only decides the order of the pulls.

    The theorems about sessions are in RrfExact.v and RrfFairness.v. *)

From S2P Require Import Prelude Float Order PointId RrfScoring RrfState.

(** ** Machine arithmetic *)

Definition USIZE_MAX : N := 2 ^ 64 - 1.

(** [a.saturating_mul(b)] on [usize]. *)
Definition saturating_mul (a b : nat) : nat :=
  N.to_nat (N.min (N.of_nat a * N.of_nat b) USIZE_MAX).

(** [n.is_power_of_two()] *)
Definition is_power_of_two (n : nat) : bool :=
  let n := N.of_nat n in negb (n =? 0)%N && (N.land n (n - 1) =? 0)%N.

(** [x.clamp(lo, hi)] *)
Definition clamp (x lo hi : nat) : nat := if x <? lo then lo else if hi <? x then hi else x.

(** ** Sources

    The two kinds of producer a session accepts: an iterator of identities
    and a batch puller.  Both are closures with private state, so each is a
    type with its step function.  Batch pullers may also share memory (the
    [Rc] and [Arc] cells their closures capture): its type [W] is a parameter,
    and a pull reads and writes it. *)

(** [Iterator<Item = OperationResult<ExtendedPointId>>] *)
Class PointStream (P : Type) := next_point : P -> option (OperationResult ExtendedPointId) * P.

(** [FnMut(usize) -> OperationResult<ChannelRankBatch>] *)
Class BatchStream (W B : Type) :=
  pull_batch : W -> B -> nat -> OperationResult ChannelRankBatch * (B * W).

Inductive DynamicRrfSource (P B : Type) : Type :=
  | SourcePoint (stream : P)
  | SourceBatch (pull : B).

Arguments SourcePoint {P B} stream.
Arguments SourceBatch {P B} pull.

(** [infallible_exact_rrf_stream]: an in-memory ranking as a stream. *)
#[export] Instance list_PointStream : PointStream (list ExtendedPointId) :=
  fun l => match l with [] => (None, []) | x :: l => (Some (Ok x), l) end.

(** ** Policies, results and the session *)

Inductive DynamicRrfScheduler : Type := MaxNextContribution | CompetitorCostAware.

Record DynamicRrfPolicy : Type := mkDynamicRrfPolicy {
  warmup_check_interval : option nat;
  exhaustive_after_pulls_per_source : option nat;
  scheduler : DynamicRrfScheduler;
  fairness_after_actions_per_source : option nat;
}.

Definition DynamicRrfPolicy_default : DynamicRrfPolicy :=
  {| warmup_check_interval := None; exhaustive_after_pulls_per_source := None;
     scheduler := CompetitorCostAware; fairness_after_actions_per_source := Some 8 |}.

Inductive DynamicRrfStopReason : Type := TopKFixed | AllSourcesExhausted.

Record DynamicRrfExecution : Type := mkDynamicRrfExecution {
  ex_point_ids : list ExtendedPointId;
  ex_source_pulls : list nat;
  ex_source_exhausted : list bool;
  ex_certification_checks : nat;
  ex_stop_reason : DynamicRrfStopReason;
}.

Inductive DynamicRrfAdvance : Type :=
  | Fixed (execution : DynamicRrfExecution)
  | Paused.

Definition MIN_CERTIFICATION_INTERVAL : nat := 64.
Definition MAX_CERTIFICATION_INTERVAL : nat := N.to_nat 1024.

Section Session.
Context {W P B : Type} `{PointStream P} `{BatchStream W B}.

Record DynamicRrfSession : Type := mkDynamicRrfSession {
  sources : list (DynamicRrfSource P B);
  shared : W;
  source_batch_size : nat;
  state : DynamicRrfState;
  source_pulls : list nat;
  source_history : list (list ExtendedPointId);
  source_costs : list float;
  source_last_advanced : list nat;
  source_schedule : list nat;
  competitive_missing : list nat;
  policy : DynamicRrfPolicy;
  warmup_pulls : nat;
  total_pulls : nat;
  advance_actions : nat;
  pulls_since_check : nat;
  certification_checks : nat;
  force_check : bool;
  exhausted_order : option (list ExtendedPointId);
}.

(** *** Construction *)

Definition new_with_inputs (sources : list (DynamicRrfSource P B)) (shared : W)
    (source_batch_size top_k rrf_k : nat) (weights : option (list float)) (source_costs : list float)
    (policy : DynamicRrfPolicy) : OperationResult DynamicRrfSession :=
  let source_count := length sources in
  if decide (source_batch_size = 0) then
    Err (ValidationError "Dynamic RRF source batch size must be positive")
  else if decide (warmup_check_interval policy = Some 0) then
    Err (ValidationError "Dynamic RRF warmup check interval must be positive")
  else if decide (exhaustive_after_pulls_per_source policy = Some 0) then
    Err (ValidationError "Dynamic RRF exhaustive pull budget must be positive")
  else if decide (fairness_after_actions_per_source policy = Some 0) then
    Err (ValidationError "Dynamic RRF fairness interval must be positive")
  else if decide (length source_costs <> source_count) then
    Err (ValidationError "Dynamic RRF source costs have length {}; expected {source_count}")
  else if existsb (fun cost => negb (is_finite cost) || fle cost fzero) source_costs then
    Err (ValidationError "Dynamic RRF source costs must be finite and positive")
  else
    let? state := DynamicRrfState_new source_count top_k rrf_k weights in
    Ok {| sources := sources; shared := shared; source_batch_size := source_batch_size;
          state := state;
          source_pulls := replicate source_count 0;
          source_history := replicate source_count [];
          source_costs := source_costs;
          source_last_advanced := replicate source_count 0;
          source_schedule := [];
          competitive_missing := replicate source_count (Nat.max top_k 1);
          policy := policy;
          warmup_pulls := saturating_mul (saturating_mul top_k source_count) 2;
          total_pulls := 0; advance_actions := 0; pulls_since_check := 0;
          certification_checks := 0; force_check := true; exhausted_order := None |}.

Definition new_with_source_costs (streams : list P) (shared : W) (top_k rrf_k : nat)
    (weights : option (list float)) (source_costs : list float) (policy : DynamicRrfPolicy)
    : OperationResult DynamicRrfSession :=
  new_with_inputs (SourcePoint <$> streams) shared 1 top_k rrf_k weights source_costs policy.

Definition session_new (streams : list P) (shared : W) (top_k rrf_k : nat)
    (weights : option (list float)) (policy : DynamicRrfPolicy) : OperationResult DynamicRrfSession :=
  new_with_source_costs streams shared top_k rrf_k weights
    (replicate (length streams) f64_one) policy.

Definition new_batched (pulls : list B) (shared : W) (source_batch_size top_k rrf_k : nat)
    (weights : option (list float)) (policy : DynamicRrfPolicy)
    : OperationResult DynamicRrfSession :=
  new_with_inputs (SourceBatch <$> pulls) shared source_batch_size top_k rrf_k weights
    (replicate (length pulls) f64_one) policy.

(** *** Field updates *)

Definition with_state (s : DynamicRrfSession) (st : DynamicRrfState) : DynamicRrfSession :=
  {| sources := sources s; shared := shared s; source_batch_size := source_batch_size s;
     state := st;
     source_pulls := source_pulls s; source_history := source_history s;
     source_costs := source_costs s; source_last_advanced := source_last_advanced s;
     source_schedule := source_schedule s; competitive_missing := competitive_missing s;
     policy := policy s; warmup_pulls := warmup_pulls s; total_pulls := total_pulls s;
     advance_actions := advance_actions s; pulls_since_check := pulls_since_check s;
     certification_checks := certification_checks s; force_check := force_check s;
     exhausted_order := exhausted_order s |}.

Definition with_sources (s : DynamicRrfSession) (srcs : list (DynamicRrfSource P B)) (memory : W)
    : DynamicRrfSession :=
  {| sources := srcs; shared := memory; source_batch_size := source_batch_size s; state := state s;
     source_pulls := source_pulls s; source_history := source_history s;
     source_costs := source_costs s; source_last_advanced := source_last_advanced s;
     source_schedule := source_schedule s; competitive_missing := competitive_missing s;
     policy := policy s; warmup_pulls := warmup_pulls s; total_pulls := total_pulls s;
     advance_actions := advance_actions s; pulls_since_check := pulls_since_check s;
     certification_checks := certification_checks s; force_check := force_check s;
     exhausted_order := exhausted_order s |}.

(** [self.certification_checks += 1] *)
Definition count_check (s : DynamicRrfSession) : DynamicRrfSession :=
  {| sources := sources s; shared := shared s; source_batch_size := source_batch_size s;
     state := state s;
     source_pulls := source_pulls s; source_history := source_history s;
     source_costs := source_costs s; source_last_advanced := source_last_advanced s;
     source_schedule := source_schedule s; competitive_missing := competitive_missing s;
     policy := policy s; warmup_pulls := warmup_pulls s; total_pulls := total_pulls s;
     advance_actions := advance_actions s; pulls_since_check := pulls_since_check s;
     certification_checks := S (certification_checks s); force_check := force_check s;
     exhausted_order := exhausted_order s |}.

Definition with_missing (s : DynamicRrfSession) (missing : list nat) : DynamicRrfSession :=
  {| sources := sources s; shared := shared s; source_batch_size := source_batch_size s;
     state := state s;
     source_pulls := source_pulls s; source_history := source_history s;
     source_costs := source_costs s; source_last_advanced := source_last_advanced s;
     source_schedule := source_schedule s; competitive_missing := missing;
     policy := policy s; warmup_pulls := warmup_pulls s; total_pulls := total_pulls s;
     advance_actions := advance_actions s; pulls_since_check := pulls_since_check s;
     certification_checks := certification_checks s; force_check := force_check s;
     exhausted_order := exhausted_order s |}.

(** [self.pulls_since_check = 0; self.force_check = false] *)
Definition reset_check (s : DynamicRrfSession) : DynamicRrfSession :=
  {| sources := sources s; shared := shared s; source_batch_size := source_batch_size s;
     state := state s;
     source_pulls := source_pulls s; source_history := source_history s;
     source_costs := source_costs s; source_last_advanced := source_last_advanced s;
     source_schedule := source_schedule s; competitive_missing := competitive_missing s;
     policy := policy s; warmup_pulls := warmup_pulls s; total_pulls := total_pulls s;
     advance_actions := advance_actions s; pulls_since_check := 0;
     certification_checks := certification_checks s; force_check := false;
     exhausted_order := exhausted_order s |}.

(** The bookkeeping before a source is pulled. *)
Definition schedule_source (s : DynamicRrfSession) (source : nat) : DynamicRrfSession :=
  {| sources := sources s; shared := shared s; source_batch_size := source_batch_size s;
     state := state s;
     source_pulls := source_pulls s; source_history := source_history s;
     source_costs := source_costs s;
     source_last_advanced := <[source := S (advance_actions s)]> (source_last_advanced s);
     source_schedule := source_schedule s ++ [source];
     competitive_missing := competitive_missing s;
     policy := policy s; warmup_pulls := warmup_pulls s; total_pulls := total_pulls s;
     advance_actions := S (advance_actions s); pulls_since_check := pulls_since_check s;
     certification_checks := certification_checks s; force_check := force_check s;
     exhausted_order := exhausted_order s |}.

(** The bookkeeping after a batch was observed. *)
Definition account_batch (s : DynamicRrfSession) (source : nat) (batch : ChannelRankBatch)
    : DynamicRrfSession :=
  let n := length (point_ids batch) in
  {| sources := sources s; shared := shared s; source_batch_size := source_batch_size s;
     state := state s;
     source_pulls := <[source := (source_pulls s).[source] + n]> (source_pulls s);
     source_history := alter (fun h => h ++ point_ids batch) source (source_history s);
     source_costs := source_costs s; source_last_advanced := source_last_advanced s;
     source_schedule := source_schedule s; competitive_missing := competitive_missing s;
     policy := policy s; warmup_pulls := warmup_pulls s;
     total_pulls := total_pulls s + n;
     advance_actions := advance_actions s; pulls_since_check := pulls_since_check s + n;
     certification_checks := certification_checks s;
     force_check := batch_exhausted batch || force_check s;
     exhausted_order := exhausted_order s |}.
End Session.

Arguments DynamicRrfSession W P B : clear implicits.

Section Advance.
Context {W P B : Type} `{PointStream P} `{BatchStream W B}.
Local Abbreviation session := (DynamicRrfSession W P B).

(** *** The scheduler *)

Definition below_pause_target (s : session) (minimum_pulls : list (option nat))
    (source : nat) : bool :=
  match minimum_pulls.[source] with
  | None => true
  | Some target => (source_pulls s).[source] <? target
  end.

(** Actions since [source] was last advanced. *)
Definition source_wait (s : session) (source : nat) : nat :=
  advance_actions s - (source_last_advanced s).[source].

Definition starved_sources (s : session) (minimum_pulls : list (option nat))
    (fairness : nat) : list nat :=
  let fairness_window := saturating_mul fairness (length (sources s)) in
  filter (fun source =>
      is_Some (next_possible_contribution (state s) source) /\
      below_pause_target s minimum_pulls source = true /\
      fairness_window <= source_wait s source)
    (seq 0 (length (sources s))).

Definition wait_order (s : session) (left right : nat) : comparison :=
  then_with (Nat.compare (source_wait s left) (source_wait s right)) (Nat.compare right left).

Definition source_priority (s : session) (source : nat) (bound : float) : float :=
  match scheduler (policy s) with
  | MaxNextContribution => f64_of_f32 bound
  | CompetitorCostAware =>
      let next_bound := position_score (S (next_positions (state s)).[source])
        (rrf_k (state s)) (weights (state s)).[source] in
      let bound_reduction := f64_of_f32 (fmax (bound - next_bound)%f32 fzero) in
      let live_competitors := f64_of_nat (Nat.max (competitive_missing s).[source] 1) in
      (bound_reduction * live_competitors / (source_costs s).[source])%f64
  end.

Definition schedulable (s : session) (minimum_pulls : list (option nat))
    : list (nat * float * float) :=
  omap (fun source =>
      if below_pause_target s minimum_pulls source then
        bound ← next_possible_contribution (state s) source;
        Some (source, source_priority s source bound, bound)
      else None)
    (seq 0 (length (sources s))).

Definition priority_order (left right : nat * float * float) : comparison :=
  then_with (ordered_cmp left.1.2 right.1.2)
    (then_with (ordered_cmp left.2 right.2) (Nat.compare right.1.1 left.1.1)).

(** [None] is the panic of [expect]. *)
Definition select_source_to_advance (s : session) (minimum_pulls : list (option nat))
    : option nat :=
  let by_priority :=
    (fun '(source, _, _) => source) <$> max_by priority_order (schedulable s minimum_pulls) in
  match fairness_after_actions_per_source (policy s) with
  | Some fairness =>
      match max_by (wait_order s) (starved_sources s minimum_pulls fairness) with
      | Some source => Some source
      | None => by_priority
      end
  | None => by_priority
  end.

(** *** One iteration *)

Definition execution_of (s : session) (ids : list ExtendedPointId) : DynamicRrfExecution :=
  {| ex_point_ids := ids; ex_source_pulls := source_pulls s;
     ex_source_exhausted := exhausted (state s);
     ex_certification_checks := certification_checks s;
     ex_stop_reason := if all_sources_exhausted (state s) then AllSourcesExhausted
                       else TopKFixed |}.

(** Refresh the scheduler's snapshot on a doubling schedule; [None] is an
    index panic. *)
Definition refresh_missing (s : session) : option session :=
  match scheduler (policy s) with
  | CompetitorCostAware =>
      if (certification_checks s <=? 4) || is_power_of_two (certification_checks s)
      then with_missing s <$> competitive_missing_counts (state s)
      else Some s
  | MaxNextContribution => Some s
  end.

Definition drain_to_exhaustion (s : session) : bool :=
  match exhaustive_after_pulls_per_source (policy s) with
  | Some budget => saturating_mul budget (length (sources s)) <=? total_pulls s
  | None => false
  end.

Definition check_interval (s : session) : nat :=
  if total_pulls s <=? warmup_pulls s
  then default (length (sources s)) (warmup_check_interval (policy s))
  else clamp (total_pulls s / 8) MIN_CERTIFICATION_INTERVAL MAX_CERTIFICATION_INTERVAL.

Definition pause_reached (s : session) (minimum_pulls : list (option nat)) : bool :=
  existsb (fun target => bool_decide (is_Some target)) minimum_pulls
  && forallb (fun '(source, target) =>
       match target with
       | None => true
       | Some target =>
           (target <=? (source_pulls s).[source]) || (exhausted (state s)).[source]
       end) (imap pair minimum_pulls).

(** The batch a source delivers, the source and the shared memory afterwards. *)
Definition pull_source (memory : W) (src : DynamicRrfSource P B) (start max_batch : nat)
    : OperationResult ChannelRankBatch * (DynamicRrfSource P B * W) :=
  match src with
  | SourcePoint stream =>
      let '(item, stream') := next_point stream in
      (match item with
       | Some (Ok id) => Ok {| start_rank := start; point_ids := [id];
                               batch_exhausted := false |}
       | Some (Err e) => Err e
       | None => Ok {| start_rank := start; point_ids := []; batch_exhausted := true |}
       end, (SourcePoint stream', memory))
  | SourceBatch pull =>
      let '(r, (pull', memory)) := pull_batch memory pull max_batch in
      (r, (SourceBatch pull', memory))
  end.

(** What an iteration of the loop decides. *)
Inductive iteration : Type :=
  | Done (r : OperationResult DynamicRrfAdvance)
  | Panic
  | Continue.

(** Pull the chosen source and feed the state. *)
Definition advance_source (s : session) (source : nat) : session * iteration :=
  let s := schedule_source s source in
  match sources s !! source with
  | None => (s, Panic)
  | Some src =>
      let '(pulled, (src', memory)) :=
        pull_source (shared s) src (source_pulls s).[source] (source_batch_size s) in
      let s := with_sources s (<[source := src']> (sources s)) memory in
      match pulled with
      | Err e => (s, Done (Err e))
      | Ok batch =>
          if source_batch_size s <? length (point_ids batch) then
            (s, Done (Err (ValidationError
               "Dynamic RRF source {source} returned {} identities for a maximum batch size of {}")))
          else
            let '(st, observed) := observe_batch (state s) source batch in
            let s := with_state s st in
            match observed with
            | Err e => (s, Done (Err e))
            | Ok _ => (account_batch s source batch, Continue)
            end
      end
  end.

(** The second half of an iteration: the pause test and the pull. *)
Definition pause_or_advance (s : session) (minimum_pulls : list (option nat))
    : session * iteration :=
  if pause_reached s minimum_pulls then
    let s := count_check s in
    match fixed_top_k (state s) with
    | Some ids => (s, Done (Ok (Fixed (execution_of s ids))))
    | None =>
        match refresh_missing s with
        | None => (s, Panic)
        | Some s => (s, Done (Ok Paused))
        end
    end
  else
    match select_source_to_advance s minimum_pulls with
    | None => (s, Panic)
    | Some source => advance_source s source
    end.

(** The first half: the scheduled certification check. *)
Definition advance_iteration (s : session) (minimum_pulls : list (option nat))
    : session * iteration :=
  if all_sources_exhausted (state s)
     || (negb (drain_to_exhaustion s)
         && (force_check s || (check_interval s <=? pulls_since_check s)))
  then
    let s := count_check s in
    match fixed_top_k (state s) with
    | Some ids => (s, Done (Ok (Fixed (execution_of s ids))))
    | None =>
        match refresh_missing s with
        | None => (s, Panic)
        | Some s => pause_or_advance (reset_check s) minimum_pulls
        end
    end
  else pause_or_advance s minimum_pulls.

Fixpoint advance_loop (fuel : nat) (s : session) (minimum_pulls : list (option nat))
    : session * outcome DynamicRrfAdvance :=
  match fuel with
  | 0 => (s, OutOfFuel)
  | S fuel =>
      match advance_iteration s minimum_pulls with
      | (s, Done r) => (s, Returned r)
      | (s, Panic) => (s, Panicked)
      | (s, Continue) => advance_loop fuel s minimum_pulls
      end
  end.

Definition advance_until_each (fuel : nat) (s : session) (minimum_pulls : list (option nat))
    : session * outcome DynamicRrfAdvance :=
  if decide (length minimum_pulls <> length (sources s)) then
    (s, Returned (Err (ValidationError
       "Dynamic RRF pause targets have length {}; expected {}")))
  else advance_loop fuel s minimum_pulls.

Definition run_to_completion (fuel : nat) (s : session)
    : session * outcome DynamicRrfExecution :=
  match advance_until_each fuel s (replicate (length (sources s)) None) with
  | (s, Returned (Ok (Fixed execution))) => (s, Returned (Ok execution))
  | (s, Returned (Ok Paused)) => (s, Panicked)
  | (s, Returned (Err e)) => (s, Returned (Err e))
  | (s, Panicked) => (s, Panicked)
  | (s, OutOfFuel) => (s, OutOfFuel)
  end.

(** *** Growing the answer and replacing a source *)

Definition extend_top_k (s : session) (k : nat) : session * OperationResult unit :=
  if decide (k < top_k (state s)) then
    (s, Err (ValidationError "Dynamic RRF prefix target cannot decrease from {} to {top_k}"))
  else
    ({| sources := sources s; shared := shared s; source_batch_size := source_batch_size s;
        state := {| rrf_k := rrf_k (state s); top_k := k; weights := weights (state s);
                    next_positions := next_positions (state s);
                    exhausted := exhausted (state s); points := points (state s) |};
        source_pulls := source_pulls s; source_history := source_history s;
        source_costs := source_costs s; source_last_advanced := source_last_advanced s;
        source_schedule := source_schedule s; competitive_missing := competitive_missing s;
        policy := policy s;
        warmup_pulls := Nat.max (warmup_pulls s)
          (saturating_mul (saturating_mul k (length (sources s))) 2);
        total_pulls := total_pulls s; advance_actions := advance_actions s;
        pulls_since_check := pulls_since_check s;
        certification_checks := certification_checks s; force_check := true;
        exhausted_order := exhausted_order s |}, Ok tt).

Definition with_exhausted_order (s : session) (order : list ExtendedPointId) : session :=
  {| sources := sources s; shared := shared s; source_batch_size := source_batch_size s;
     state := state s;
     source_pulls := source_pulls s; source_history := source_history s;
     source_costs := source_costs s; source_last_advanced := source_last_advanced s;
     source_schedule := source_schedule s; competitive_missing := competitive_missing s;
     policy := policy s; warmup_pulls := warmup_pulls s; total_pulls := total_pulls s;
     advance_actions := advance_actions s; pulls_since_check := pulls_since_check s;
     certification_checks := certification_checks s; force_check := force_check s;
     exhausted_order := Some order |}.

Definition run_to_prefix (fuel : nat) (s : session) (k : nat)
    : session * outcome DynamicRrfExecution :=
  match extend_top_k s k with
  | (s, Err e) => (s, Returned (Err e))
  | (s, Ok _) =>
      match exhausted_order s with
      | Some order =>
          (s, Returned (Ok {| ex_point_ids := take k order;
                              ex_source_pulls := source_pulls s;
                              ex_source_exhausted := exhausted (state s);
                              ex_certification_checks := certification_checks s;
                              ex_stop_reason := AllSourcesExhausted |}))
      | None =>
          match run_to_completion fuel s with
          | (s, Returned (Ok execution)) =>
              match ex_stop_reason execution with
              | AllSourcesExhausted =>
                  let order := complete_order (state s) in
                  (with_exhausted_order s order,
                   Returned (Ok {| ex_point_ids := take k order;
                                   ex_source_pulls := ex_source_pulls execution;
                                   ex_source_exhausted := ex_source_exhausted execution;
                                   ex_certification_checks := ex_certification_checks execution;
                                   ex_stop_reason := AllSourcesExhausted |}))
              | TopKFixed => (s, Returned (Ok execution))
              end
          | r => r
          end
      end
  end.

(** Replay the observed prefix against a replacement stream. *)
Fixpoint replay (replacement : P) (history : list ExtendedPointId) : OperationResult P :=
  match history with
  | [] => Ok replacement
  | expected :: history =>
      match next_point replacement with
      | (Some (Ok actual), replacement) =>
          if decide (actual = expected) then replay replacement history
          else Err (ValidationError
            "Dynamic RRF replacement source {source} disagrees at rank {rank}: expected {expected}, got {actual}")
      | (Some (Err e), _) => Err e
      | (None, _) => Err (ValidationError
          "Dynamic RRF replacement source {source} ended before observed rank {rank}")
      end
  end.

Definition replace_source (s : session) (source : nat) (replacement : P)
    : session * OperationResult unit :=
  match source_history s !! source with
  | None => (s, Err (ValidationError "Dynamic RRF replacement source {source} is out of range"))
  | Some history =>
      if (exhausted (state s)).[source] then
        (s, Err (ValidationError
           "Dynamic RRF source {source} is already exhausted and cannot be replaced"))
      else
        match replay replacement history with
        | Err e => (s, Err e)
        | Ok replacement =>
            (with_sources s (<[source := SourcePoint replacement]> (sources s)) (shared s), Ok tt)
        end
  end.
End Advance.

(** ** The executor

    A session opened over one kind of source has none of the other. *)

#[export] Instance no_points : PointStream Empty_set := fun p : Empty_set => match p with end.
#[export] Instance no_batches W : BatchStream W Empty_set :=
  fun _ (b : Empty_set) => match b with end.

Definition execute_dynamic_rrf_with_policy {P} `{PointStream P} (fuel : nat)
    (streams : list P) (top_k rrf_k : nat) (weights : option (list float))
    (policy : DynamicRrfPolicy) : outcome DynamicRrfExecution :=
  match session_new (W := unit) (B := Empty_set) streams tt top_k rrf_k weights policy with
  | Err e => Returned (Err e)
  | Ok s => snd (run_to_completion fuel s)
  end.

Definition execute_dynamic_rrf {P} `{PointStream P} (fuel : nat) (streams : list P)
    (top_k rrf_k : nat) (weights : option (list float)) : outcome DynamicRrfExecution :=
  execute_dynamic_rrf_with_policy fuel streams top_k rrf_k weights DynamicRrfPolicy_default.

(** The batch executor, with the memory its pullers share before and after. *)
Definition execute_dynamic_rrf_batches_with_policy {W B} `{BatchStream W B} (fuel : nat)
    (pulls : list B) (memory : W) (source_batch_size top_k rrf_k : nat)
    (weights : option (list float)) (policy : DynamicRrfPolicy)
    : outcome DynamicRrfExecution * W :=
  match new_batched (P := Empty_set) pulls memory source_batch_size top_k rrf_k weights policy with
  | Err e => (Returned (Err e), memory)
  | Ok s => let '(s, r) := run_to_completion fuel s in (r, shared s)
  end.
