(* ===== verification/RrfExact.v ===== *)
(** * Reciprocal rank fusion: sessions are exact

    Theorems about the sessions of RrfSession.v.  Whatever the sources do, an
    answer is the exact prefix of exhaustive fusion for every continuation of
    what was read, the loop never panics, and an error leaves a session that
    can be resumed.  Over sources that keep the contract of an exact rank
    stream ([ExactPointStream], [ExactBatchStream]) a run ends with the exact
    answer, for every policy, cost vector and batch size. *)

From S2P Require Import Prelude Float Order PointId RrfScoring RrfState RrfSession.

(** ** The invariant *)

Section Invariant.
Context {W P B : Type} `{PointStream P} `{BatchStream W B}.
Local Abbreviation session := (DynamicRrfSession W P B).
Implicit Types (s : session).

(** What the bookkeeping of a session says about its fusion state. *)
Record session_inv s : Prop := {
  inv_rep : rep (state s) (source_history s);
  inv_pulls : source_pulls s = length <$> source_history s;
  inv_sources : length (sources s) = length (weights (state s));
  inv_batch : 1 <= source_batch_size s;
  inv_order : forall o, exhausted_order s = Some o ->
    all_sources_exhausted (state s) = true /\
    o = wrrf_order (rrf_k (state s)) (weights (state s)) (source_history s);
}.

(** Sessions that differ only in what the scheduler and the telemetry use. *)
Record same_core s s' : Prop := {
  core_state : state s' = state s;
  core_history : source_history s' = source_history s;
  core_pulls : source_pulls s' = source_pulls s;
  core_sources : length (sources s') = length (sources s);
  core_batch : source_batch_size s' = source_batch_size s;
  core_order : exhausted_order s' = exhausted_order s;
}.

Lemma same_core_refl s : same_core s s.
Proof. done. Qed.

Lemma same_core_trans s1 s2 s3 : same_core s1 s2 -> same_core s2 s3 -> same_core s1 s3.
Proof. intros [] []. split; congruence. Qed.

Lemma same_core_inv s s' : same_core s s' -> session_inv s -> session_inv s'.
Proof. intros [E1 E2 E3 E4 E5 E6] []. split; rewrite ?E1, ?E2, ?E3, ?E4, ?E5, ?E6; done. Qed.

(** [s'] has read at least as much as [s]. *)
Record grows s s' : Prop := {
  grows_k : rrf_k (state s') = rrf_k (state s);
  grows_top_k : top_k (state s') = top_k (state s);
  grows_weights : weights (state s') = weights (state s);
  grows_batch : source_batch_size s' = source_batch_size s;
  grows_sources : length (sources s') = length (sources s);
  grows_history : extends (state s) (source_history s) (source_history s');
  grows_exhausted : forall i, exhausted (state s) !! i = Some true ->
    exhausted (state s') !! i = Some true;
}.

Lemma extends_refl (st : DynamicRrfState) hist : extends st hist hist.
Proof. split; [done |]. intros i h Hh. exists []. by rewrite app_nil_r. Qed.

Lemma same_core_grows s s' : same_core s s' -> grows s s'.
Proof.
  intros [E1 E2 E3 E4 E5]. split; rewrite ?E1, ?E2; try done. apply extends_refl.
Qed.

(** A continuation of the later session continues the earlier one. *)
Lemma grows_extends s s' streams :
  grows s s' -> extends (state s') (source_history s') streams ->
  extends (state s) (source_history s) streams.
Proof.
  intros G [L E]. destruct (grows_history _ _ G) as [L' E']. split; [congruence |].
  intros i h Hh. destruct (E' i h Hh) as (t & Ht & Hx).
  destruct (E i _ Ht) as (t' & Ht' & Hx'). exists (t ++ t'). rewrite app_assoc.
  split; [done |]. intros He. rewrite Hx by done.
  by rewrite Hx' by (by apply (grows_exhausted _ _ G)).
Qed.

Lemma grows_trans s1 s2 s3 : grows s1 s2 -> grows s2 s3 -> grows s1 s3.
Proof.
  intros G1 G2. split.
  - by rewrite (grows_k _ _ G2), (grows_k _ _ G1).
  - by rewrite (grows_top_k _ _ G2), (grows_top_k _ _ G1).
  - by rewrite (grows_weights _ _ G2), (grows_weights _ _ G1).
  - by rewrite (grows_batch _ _ G2), (grows_batch _ _ G1).
  - by rewrite (grows_sources _ _ G2), (grows_sources _ _ G1).
  - by apply (grows_extends s1 s2), (grows_history _ _ G2).
  - intros i Hi. by apply (grows_exhausted _ _ G2), (grows_exhausted _ _ G1).
Qed.

(** *** A new session *)

Lemma new_with_inputs_inv (srcs : list (DynamicRrfSource P B)) w n tk k ws costs p s :
  from_option (Forall (wf binary32)) True ws ->
  new_with_inputs srcs w n tk k ws costs p = Ok s ->
  session_inv s /\ sources s = srcs /\ shared s = w /\ source_batch_size s = n /\ policy s = p /\
  top_k (state s) = tk /\ rrf_k (state s) = k /\
  weights (state s) = default (replicate (length srcs) f32_one) ws /\
  source_history s = replicate (length srcs) [] /\
  exhausted (state s) = replicate (length srcs) false /\
  advance_actions s = 0 /\ source_last_advanced s = replicate (length srcs) 0.
Proof.
  intros Hws. unfold new_with_inputs. do 5 (case_decide; [done |]).
  destruct (existsb _ costs); [done |].
  destruct (DynamicRrfState_new _ _ _ _) as [st|] eqn:E; [|done]. intros [= <-].
  apply DynamicRrfState_new_rep in E as (R & E1 & E2 & E3 & E4 & E5); [|done].
  split_and!; try done. split; simpl; try done; [| lia].
  by rewrite fmap_replicate.
Qed.

(** When a valid configuration is accepted. *)
Lemma new_with_inputs_ok (srcs : list (DynamicRrfSource P B)) (w : W) n tk k ws costs p :
  srcs <> [] -> 1 <= n -> 1 <= k ->
  warmup_check_interval p <> Some 0 -> exhaustive_after_pulls_per_source p <> Some 0 ->
  fairness_after_actions_per_source p <> Some 0 ->
  length costs = length srcs ->
  Forall (fun c => is_finite c = true /\ fle c fzero = false) costs ->
  length ws = length srcs -> Forall (fun w => weight_valid w = true) ws ->
  exists s, new_with_inputs srcs w n tk k (Some ws) costs p = Ok s.
Proof.
  intros Hs Hn Hk H1 H2 H3 Hc Fc Hw Fw. unfold new_with_inputs.
  rewrite !decide_False by (done || lia || tauto).
  assert (existsb (fun cost => negb (is_finite cost) || fle cost fzero) costs = false) as ->.
  { clear -Fc. induction Fc as [|c l [E1 E2] F IH]; simpl; [done |]. by rewrite E1, E2. }
  unfold DynamicRrfState_new.
  rewrite !decide_False by (done || lia || (destruct srcs; simpl; [done | lia])).
  assert (existsb (fun w => negb (is_finite w) || flt w fzero) ws = false) as ->.
  { clear -Fw. induction Fw as [|w l E F IH]; simpl; [done |]. unfold weight_valid in E.
    destruct (is_finite w), (flt w fzero); done. }
  eauto.
Qed.
End Invariant.

Create HintDb session.
#[export] Hint Resolve same_core_refl same_core_grows : session.

(** ** Scheduling never panics *)

Section Scheduling.
Context {W P B : Type} `{PointStream P} `{BatchStream W B}.
Local Abbreviation session := (DynamicRrfSession W P B).
Implicit Types (s : session).

Lemma next_possible_open (st : DynamicRrfState) hist source :
  rep st hist ->
  is_Some (next_possible_contribution st source) <-> exhausted st !! source = Some false.
Proof.
  intros R. unfold next_possible_contribution. pose proof (rep_exhausted _ _ R) as L.
  case_decide as D.
  - rewrite (lookup_ge_None_2 (exhausted st)) by lia. split; [by intros [? ?] | done].
  - rewrite (lookup_index (exhausted st)) by lia.
    destruct ((exhausted st).[source]); split; [by intros [? ?] | done | done | eauto].
Qed.

(** The scheduler returns an open source that may still be advanced. *)
Lemma select_source_open s mp source :
  session_inv s -> select_source_to_advance s mp = Some source ->
  exhausted (state s) !! source = Some false /\ below_pause_target s mp source = true.
Proof.
  intros I E.
  assert (Hp : (fun '(source, _, _) => source) <$> max_by priority_order (schedulable s mp)
      = Some source ->
    is_Some (next_possible_contribution (state s) source) /\
    below_pause_target s mp source = true).
  { intros Hs. apply fmap_Some in Hs as ([[i pr] bd] & Hm & ->).
    apply max_by_elem, list_elem_of_omap in Hm as (i' & _ & Hm).
    destruct (below_pause_target s mp i') eqn:Eb; [|done].
    apply bind_Some in Hm as (bd' & Hb & [= <- _ _]). by rewrite Hb. }
  rewrite <- (next_possible_open _ _ _ (inv_rep _ I)).
  unfold select_source_to_advance in E.
  destruct (fairness_after_actions_per_source (policy s)) as [f|]; [|by apply Hp].
  destruct (max_by (wait_order s) _) as [i|] eqn:Em; [|by apply Hp].
  injection E as <-. apply max_by_elem, list_elem_of_filter in Em. tauto.
Qed.

(** It finds one unless the pause is reached or every source is exhausted. *)
Lemma open_source_exists s mp :
  session_inv s -> length mp = length (sources s) ->
  pause_reached s mp = false -> all_sources_exhausted (state s) = false ->
  exists source, exhausted (state s) !! source = Some false /\
    below_pause_target s mp source = true.
Proof.
  intros I L Hp Ha. pose proof (rep_exhausted _ _ (inv_rep _ I)) as Le.
  pose proof (inv_sources _ I) as Ls. unfold pause_reached in Hp.
  apply andb_false_iff in Hp as [Hp|Hp].
  - assert (exists source, exhausted (state s) !! source = Some false) as [i Hi].
    { apply forallb_false_elem in Ha as (i & e & Hi & He). simpl in He. subst. eauto. }
    exists i. split; [done |]. unfold below_pause_target.
    destruct (lookup_lt_is_Some_2 mp i) as [m Hm]; [apply lookup_lt_Some in Hi; lia |].
    rewrite (index_lookup _ _ _ Hm). destruct m as [t|]; [|done].
    exfalso. apply (existsb_false_elem _ _ (Some t)) in Hp;
      [|by eapply list_elem_of_lookup_2]. apply bool_decide_eq_false in Hp. eauto.
  - apply forallb_false_elem in Hp as (i & [i' m] & Hi & Hx).
    rewrite list_lookup_imap in Hi. apply fmap_Some in Hi as (m' & Hi & [= <- <-]).
    destruct m as [t|]; [|done]. apply orb_false_iff in Hx as [Hx1 Hx2].
    exists i'. unfold below_pause_target. rewrite (index_lookup _ _ _ Hi).
    rewrite (lookup_index (exhausted (state s))) by (apply lookup_lt_Some in Hi; lia).
    rewrite Hx2. split; [done |]. apply Nat.ltb_lt. apply Nat.leb_gt in Hx1. done.
Qed.

Lemma select_source_some s mp :
  session_inv s -> length mp = length (sources s) ->
  pause_reached s mp = false -> all_sources_exhausted (state s) = false ->
  exists source, select_source_to_advance s mp = Some source.
Proof.
  intros I L Hp Ha. destruct (open_source_exists s mp I L Hp Ha) as (i & Hi & Hb).
  assert (exists j, (fun '(source, _, _) => source) <$>
    max_by priority_order (schedulable s mp) = Some j) as [j Hj].
  { destruct (max_by priority_order (schedulable s mp)) as [[[j ?] ?]|] eqn:Em;
      [by exists j |]. apply max_by_None in Em.
    apply (next_possible_open _ _ _ (inv_rep _ I)) in Hi as Hc. destruct Hc as [c Hc].
    assert ((i, source_priority s i c, c) ∈ schedulable s mp) as Hin;
      [|rewrite Em in Hin; by apply elem_of_nil in Hin].
    apply list_elem_of_omap. exists i. rewrite Hb, Hc. split; [|done].
    apply elem_of_seq. apply lookup_lt_Some in Hi.
    rewrite (rep_exhausted _ _ (inv_rep _ I)) in Hi. rewrite (inv_sources _ I). lia. }
  unfold select_source_to_advance. destruct (fairness_after_actions_per_source _); [|eauto].
  destruct (max_by (wait_order s) _); eauto.
Qed.

(** The advisory snapshot is computable whenever the certificate fails. *)
Lemma competitive_missing_some (st : DynamicRrfState) :
  fixed_top_k st = None -> is_Some (competitive_missing_counts st).
Proof.
  unfold fixed_top_k, competitive_missing_counts. case_decide as Hz; [done |].
  destruct (all_sources_exhausted st); simpl; [done |]. intros _.
  case_decide as Hs; [eauto |].
  destruct (top_k st) as [|last] eqn:Ek; [done |].
  destruct (lookup_lt_is_Some_2 (sort_by (fun left right => ordered_cmp right left)
    (lower_bound <$> (map_to_list (points st)).*2)) last) as [x Hx]; [|rewrite Hx; eauto].
  rewrite (Permutation_length (sort_by_perm _ _)), !length_fmap, length_map_to_list. lia.
Qed.

Lemma refresh_missing_some s :
  fixed_top_k (state s) = None ->
  exists s', refresh_missing s = Some s' /\ same_core s s' /\ sources s' = sources s /\
    shared s' = shared s /\
    advance_actions s' = advance_actions s /\
    source_last_advanced s' = source_last_advanced s /\ policy s' = policy s.
Proof.
  intros [m Hm]%competitive_missing_some. unfold refresh_missing.
  destruct (scheduler (policy s)); [by exists s |].
  destruct ((certification_checks s <=? 4) || is_power_of_two (certification_checks s));
    [|by exists s]. rewrite Hm. by exists (with_missing s m).
Qed.

(** *** What one iteration does *)

(** Sessions that schedule alike. *)
Record same_schedule s s' : Prop := {
  sched_core : same_core s s';
  sched_sources : sources s' = sources s;
  sched_shared : shared s' = shared s;
  sched_actions : advance_actions s' = advance_actions s;
  sched_last : source_last_advanced s' = source_last_advanced s;
  sched_policy : policy s' = policy s;
}.

Lemma pause_reached_core s s' mp : same_core s s' -> pause_reached s' mp = pause_reached s mp.
Proof. intros [E1 E2 E3]. unfold pause_reached. by rewrite E1, E3. Qed.

(** The three ends of an iteration; it never panics before the pull. *)
Inductive iteration_cases s (mp : list (option nat)) : session * iteration -> Prop :=
  | iteration_fixed s' ids :
      fixed_top_k (state s) = Some ids -> same_schedule s s' ->
      iteration_cases s mp (s', Done (Ok (Fixed (execution_of s' ids))))
  | iteration_paused s' :
      pause_reached s mp = true -> same_schedule s s' ->
      iteration_cases s mp (s', Done (Ok Paused))
  | iteration_pull s' source :
      pause_reached s mp = false -> same_schedule s s' ->
      select_source_to_advance s' mp = Some source ->
      exhausted (state s) !! source = Some false ->
      iteration_cases s mp (advance_source s' source).

Lemma same_schedule_check s s' s'' :
  same_schedule s s' -> same_schedule (count_check s') s'' -> same_schedule s s''.
Proof. intros [[] ? ? ? ? ?] [[] ? ? ? ? ?]. split; [split |..]; simpl in *; congruence. Qed.

Lemma refresh_missing_schedule s :
  fixed_top_k (state s) = None ->
  exists s', refresh_missing s = Some s' /\ same_schedule s s'.
Proof.
  intros (s' & E & C & ? & ? & ? & ? & ?)%refresh_missing_some. exists s'. done.
Qed.

Lemma pause_or_advance_cases s s1 mp :
  session_inv s -> length mp = length (sources s) -> same_schedule s s1 ->
  all_sources_exhausted (state s) = false ->
  iteration_cases s mp (pause_or_advance s1 mp).
Proof.
  intros I L Hs Ha. unfold pause_or_advance. pose proof (sched_core _ _ Hs) as C.
  pose proof (core_state _ _ C) as Est.
  pose proof (same_core_inv _ _ C I) as I1.
  rewrite (pause_reached_core s s1 mp C). destruct (pause_reached s mp) eqn:Ep.
  - change (state (count_check s1)) with (state s1). rewrite Est.
    destruct (fixed_top_k (state s)) as [ids|] eqn:Ef.
    + apply iteration_fixed; [done |]. by apply (same_schedule_check s s1).
    + destruct (refresh_missing_schedule (count_check s1)) as (s2 & -> & S2).
      { simpl. by rewrite Est. }
      apply iteration_paused; [done |]. by apply (same_schedule_check s s1).
  - destruct (select_source_some s1 mp) as [source Hsrc]; [done |..].
    + by rewrite (sched_sources _ _ Hs).
    + by rewrite (pause_reached_core s).
    + by rewrite Est.
    + rewrite Hsrc. eapply iteration_pull; try done.
      rewrite <- Est. by eapply select_source_open.
Qed.

Lemma advance_iteration_cases s mp :
  session_inv s -> length mp = length (sources s) ->
  iteration_cases s mp (advance_iteration s mp).
Proof.
  intros I L. unfold advance_iteration.
  destruct (_ || _) eqn:Ec.
  - change (state (count_check s)) with (state s).
    destruct (fixed_top_k (state s)) as [ids|] eqn:Ef.
    + by apply iteration_fixed.
    + destruct (refresh_missing_schedule (count_check s)) as (s2 & -> & S2); [done |].
      apply pause_or_advance_cases; [done | done | by destruct S2 as [[] ? ? ? ? ?] |].
      apply not_true_iff_false. intros Ha.
      by rewrite (fixed_top_k_complete _ _ (inv_rep _ I) Ha) in Ef.
  - apply orb_false_iff in Ec as [Ha _]. by apply pause_or_advance_cases.
Qed.
End Scheduling.

(** ** Any sources: safety *)

Section Safety.
Context {W P B : Type} `{PointStream P} `{BatchStream W B}.
Local Abbreviation session := (DynamicRrfSession W P B).
Implicit Types (s : session).

Local Abbreviation pulled s src source :=
  (pull_source (shared s) src (source_pulls s).[source] (source_batch_size s)).

(** A pull either fails and leaves what was read, or reads one batch. *)
Inductive pull_cases s (source : nat) : session * iteration -> Prop :=
  | pull_error s' e src :
      same_core s s' -> sources s !! source = Some src ->
      (forall batch,
        fst (pulled s src source) = Ok batch ->
        length (point_ids batch) <= source_batch_size s ->
        ~ batch_acceptable (state s) (source_history s) source batch) ->
      pull_cases s source (s', Done (Err e))
  | pull_batch_read s' batch src :
      sources s !! source = Some src ->
      fst (pulled s src source) = Ok batch ->
      batch_acceptable (state s) (source_history s) source batch ->
      length (point_ids batch) <= source_batch_size s ->
      session_inv s' -> grows s s' ->
      sources s' = <[source := (snd (pulled s src source)).1]> (sources s) ->
      shared s' = (snd (pulled s src source)).2 ->
      source_history s' = read_more source (point_ids batch) (source_history s) ->
      exhausted (state s') = (if batch_exhausted batch
        then <[source := true]> (exhausted (state s)) else exhausted (state s)) ->
      exhausted_order s' = exhausted_order s ->
      pull_cases s source (s', Continue).

Lemma length_fmap_read_more source ids (hist : list (list ExtendedPointId)) h :
  hist !! source = Some h ->
  length <$> read_more source ids hist =
    <[source := length h + length ids]> (length <$> hist).
Proof.
  intros Hh. apply list_eq. intros i. unfold read_more.
  rewrite list_lookup_insert, !list_lookup_fmap, list_lookup_alter, length_fmap.
  destruct (decide (source = i)) as [<-|].
  - rewrite Hh, decide_True by (split; [done | by eapply lookup_lt_Some]). simpl.
    by rewrite length_app.
  - rewrite decide_False by tauto. done.
Qed.

Lemma extends_read_more (st : DynamicRrfState) hist source ids :
  exhausted st !! source = Some false -> extends st hist (read_more source ids hist).
Proof.
  intros He. split; [apply length_read_more |]. intros i h Hh. unfold read_more.
  rewrite list_lookup_alter. case_decide as D; subst; rewrite Hh.
  - exists ids. split; [done |]. intros He'. simplify_eq.
  - exists []. by rewrite app_nil_r.
Qed.

Lemma inv_position s source h :
  session_inv s -> source_history s !! source = Some h -> (source_pulls s).[source] = length h.
Proof.
  intros I Hh. apply index_lookup. by rewrite (inv_pulls _ I), list_lookup_fmap, Hh.
Qed.

Lemma with_sources_core s srcs w :
  length srcs = length (sources s) -> same_core s (with_sources s srcs w).
Proof. by split. Qed.

(** The session after an accepted batch. *)
Lemma account_batch_inv s s' source batch st h :
  session_inv s -> source_history s !! source = Some h ->
  exhausted (state s) !! source = Some false ->
  same_core s s' ->
  rep st (read_more source (point_ids batch) (source_history s)) ->
  weights st = weights (state s) ->
  session_inv (account_batch (with_state s' st) source batch).
Proof.
  intros I Hh He [E1 E2 E3 E4 E5 E6] R Ew. split; simpl.
  - by rewrite E2.
  - rewrite E2, E3. fold (read_more source (point_ids batch) (source_history s)).
    rewrite (length_fmap_read_more _ _ _ h Hh), <- (inv_position s source h) by done.
    by rewrite (inv_pulls _ I).
  - rewrite E4, Ew. apply I.
  - rewrite E5. apply I.
  - rewrite E6. intros o Ho. destruct (inv_order _ I o Ho) as [Ha _]. exfalso.
    unfold all_sources_exhausted in Ha. rewrite forallb_forall in Ha.
    specialize (Ha false). simpl in Ha. apply not_false_iff_true in Ha; [done |].
    apply list_elem_of_In. by eapply list_elem_of_lookup_2.
Qed.

Lemma advance_source_cases s source :
  session_inv s -> exhausted (state s) !! source = Some false ->
  pull_cases s source (advance_source s source).
Proof.
  intros I He. unfold advance_source.
  destruct (lookup_lt_is_Some_2 (sources s) source) as [src Hsrc].
  { rewrite (inv_sources _ I), <- (rep_exhausted _ _ (inv_rep _ I)). by eapply lookup_lt_Some. }
  simpl sources. rewrite Hsrc. simpl source_batch_size. simpl source_pulls.
  simpl shared. destruct (pull_source _ src _ _) as [pulled [src' w']] eqn:Ep.
  set (s1 := with_sources (schedule_source s source) (<[source := src']> (sources s)) w').
  assert (C : same_core s s1) by (split; try done; apply length_insert).
  destruct pulled as [batch|e];
    [|by apply pull_error with src; [..| intros batch; rewrite Ep]].
  simpl source_batch_size. destruct (_ <? _) eqn:Eb.
  { apply Nat.ltb_lt in Eb. apply pull_error with src; [done | done |].
    intros b. rewrite Ep. intros [= <-]. lia. }
  apply Nat.ltb_ge in Eb. simpl state.
  destruct (observe_batch_refines (state s) (source_history s) source batch (inv_rep _ I))
    as [Hok Herr].
  destruct (decide (batch_acceptable (state s) (source_history s) source batch)) as [A|A].
  - destruct (Hok A) as (st & -> & R & Ex & Etk & Ek & Ew). simpl.
    pose proof A as (h & Hh & _ & _ & _).
    eapply pull_batch_read; rewrite ?Ep; simpl; try done.
    + by apply (account_batch_inv s s1 source batch st h).
    + split; simpl; try done; [apply length_insert | by apply extends_read_more |].
      intros i Hi. rewrite Ex. destruct (batch_exhausted batch); [|done].
      rewrite list_lookup_insert, Hi. case_decide; [done | done].
  - destruct (Herr A) as [e ->]. apply pull_error with src; [done | done |].
    intros b. rewrite Ep. by intros [= <-].
Qed.

(** *** Runs *)

(** What a call of the loop guarantees, whatever the sources do. *)
Definition advance_safe s (mp : list (option nat))
    (r : session * outcome DynamicRrfAdvance) : Prop :=
  let '(s', o) := r in
  session_inv s' /\ grows s s' /\
  match o with
  | Panicked => False
  | Returned (Ok (Fixed x)) =>
      (exists ids, fixed_top_k (state s') = Some ids /\ x = execution_of s' ids)
  | Returned (Ok Paused) => pause_reached s' mp = true
  | _ => True
  end.

Lemma advance_loop_safe fuel s mp :
  session_inv s -> length mp = length (sources s) ->
  advance_safe s mp (advance_loop fuel s mp).
Proof.
  revert s. induction fuel as [|fuel IH]; intros s I L; simpl.
  { auto with session. }
  destruct (advance_iteration_cases s mp I L) as [s' ids Hf [C _]|s' Hp [C _]|s' source Hp [C Es _ _] Hsel He].
  - simpl. split_and!; [by apply (same_core_inv s) | auto with session |].
    exists ids. by rewrite (core_state _ _ C).
  - simpl. split_and!; [by apply (same_core_inv s) | auto with session |].
    by rewrite (pause_reached_core s).
  - destruct (advance_source_cases s' source) as
      [s'' e src C' _ _|s'' batch src Hsrc Hb A Hl I' G Es' Ew' Eh Ee Eo].
    + by apply (same_core_inv s).
    + by rewrite (core_state _ _ C).
    + simpl. split_and!; [| |done].
      * by apply (same_core_inv s'), (same_core_inv s).
      * apply same_core_grows. by apply (same_core_trans _ s').
    + specialize (IH s'' I'). assert (length mp = length (sources s'')) as L'.
      { rewrite (grows_sources _ _ G), Es. done. }
      specialize (IH L'). destruct (advance_loop fuel s'' mp) as [s3 o].
      destruct IH as (I3 & G3 & Ho). split_and!; [done | |done].
      eapply grows_trans; [by apply same_core_grows | by eapply grows_trans].
Qed.
End Safety.

(** ** Exact rank streams: liveness *)

(** A point stream that still has exactly [rest] to deliver. *)
Class ExactPointStream (P : Type) `{PointStream P} := {
  point_rest : P -> list ExtendedPointId -> Prop;
  point_rest_next p rest : point_rest p rest ->
    match rest with
    | [] => exists p', next_point p = (None, p')
    | id :: rest => exists p', next_point p = (Some (Ok id), p') /\ point_rest p' rest
    end;
}.

(** The memory that batch streams share: how pulls may change it, and which
    identities it has recorded. *)
Class SharedMemory (W : Type) := {
  shared_step : relation W;
  shared_step_preorder :: PreOrder shared_step;
  recorded : W -> ExtendedPointId -> Prop;
  recorded_step w w' id : shared_step w w' -> recorded w id -> recorded w' id;
}.

#[export] Program Instance unit_memory : SharedMemory unit :=
  {| shared_step _ _ := True; recorded _ _ := True |}.
Next Obligation. by split. Qed.

(** A batch stream that has delivered [start] ranks and still has exactly
    [rest] to deliver; any size up to the requested one may come back, but an
    empty or exhausted batch says that nothing is left.  Pulls of other
    streams that share the memory change nothing about it. *)
Class ExactBatchStream (W B : Type) `{SharedMemory W} `{BatchStream W B} := {
  batch_rest : W -> B -> nat -> list ExtendedPointId -> Prop;
  batch_rest_step w w' b start rest :
    shared_step w w' -> batch_rest w b start rest -> batch_rest w' b start rest;
  batch_rest_pull w b start rest n : batch_rest w b start rest -> 1 <= n ->
    exists ids rest' e b' w',
      pull_batch w b n =
        (Ok {| start_rank := start; point_ids := ids; batch_exhausted := e |}, (b', w')) /\
      rest = ids ++ rest' /\ length ids <= n /\
      (ids = [] -> e = true) /\ (e = true -> rest' = []) /\
      (e = false -> batch_rest w' b' (start + length ids) rest') /\
      shared_step w w' /\ Forall (recorded w') ids;
}.

#[export] Program Instance list_ExactPointStream : ExactPointStream (list ExtendedPointId) :=
  {| point_rest p rest := p = rest |}.
Next Obligation. intros p [|id rest] ->; eexists; [done | by split]. Qed.

#[export] Program Instance no_exact_points : ExactPointStream Empty_set :=
  {| point_rest _ _ := False |}.
Next Obligation. done. Qed.

#[export] Program Instance no_exact_batches W `{SharedMemory W} : ExactBatchStream W Empty_set :=
  {| batch_rest _ _ _ _ := False |}.
Next Obligation. done. Qed.
Next Obligation. done. Qed.

Section Liveness.
Context {W P B : Type} `{ExactPointStream P} `{ExactBatchStream W B}.
Local Abbreviation session := (DynamicRrfSession W P B).
Implicit Types (s : session) (streams : list (list ExtendedPointId)).

Definition source_rest (w : W) (src : DynamicRrfSource P B) (start : nat)
    (rest : list ExtendedPointId) : Prop :=
  match src with
  | SourcePoint p => point_rest p rest
  | SourceBatch b => batch_rest w b start rest
  end.

(** What a batch stream delivered is recorded. *)
Definition source_recorded (w : W) (src : DynamicRrfSource P B) (h : list ExtendedPointId)
    : Prop :=
  match src with SourcePoint _ => True | SourceBatch _ => Forall (recorded w) h end.

Lemma source_rest_step w w' src start rest :
  shared_step w w' -> source_rest w src start rest -> source_rest w' src start rest.
Proof. intros Hw. destruct src; simpl; [done | by apply batch_rest_step]. Qed.

Lemma source_recorded_step w w' src h :
  shared_step w w' -> source_recorded w src h -> source_recorded w' src h.
Proof.
  intros Hw. destruct src; simpl; [done |]. intros Hh. eapply Forall_impl; [done |].
  intros id. by apply recorded_step.
Qed.

(** Both kinds of source answer a pull alike. *)
Lemma source_rest_pull w src start rest n :
  source_rest w src start rest -> 1 <= n ->
  exists ids rest' e src' w',
    pull_source w src start n =
      (Ok {| start_rank := start; point_ids := ids; batch_exhausted := e |}, (src', w')) /\
    rest = ids ++ rest' /\ length ids <= n /\
    (ids = [] -> e = true) /\ (e = true -> rest' = []) /\
    (e = false -> source_rest w' src' (start + length ids) rest') /\
    shared_step w w' /\
    (forall h, source_recorded w src h -> source_recorded w' src' (h ++ ids)).
Proof.
  destruct src as [p|b]; simpl; intros Hr Hn.
  - apply point_rest_next in Hr. destruct rest as [|id rest].
    + destruct Hr as [p' ->]. exists [], [], true, (SourcePoint p'), w.
      split_and!; try done; simpl; lia.
    + destruct Hr as (p' & -> & Hr). exists [id], rest, false, (SourcePoint p'), w.
      split_and!; try done; simpl; lia.
  - apply (batch_rest_pull w b start rest n) in Hr
      as (ids & rest' & e & b' & w' & -> & ? & ? & ? & ? & ? & Hw & Hi); [|done].
    exists ids, rest', e, (SourceBatch b'), w'. split_and!; try done. simpl. intros h Hh.
    apply Forall_app. split; [|done]. by apply (source_recorded_step w w' (SourceBatch b)).
Qed.

(** The sources of [s] still hold the rest of [streams]. *)
Definition serves s streams : Prop :=
  length streams = length (sources s) /\ Forall NoDup streams /\
  forall i src h, sources s !! i = Some src -> source_history s !! i = Some h ->
    source_recorded (shared s) src h /\
    exists rest, streams !! i = Some (h ++ rest) /\
      if (exhausted (state s)).[i] then rest = [] else source_rest (shared s) src (length h) rest.

Lemma serves_extends s streams :
  session_inv s -> serves s streams -> extends (state s) (source_history s) streams.
Proof.
  intros I (L & _ & Hs). pose proof (rep_hist _ _ (inv_rep _ I)) as Lh.
  split; [rewrite L, (inv_sources _ I); by symmetry |]. intros i h Hh.
  destruct (lookup_lt_is_Some_2 (sources s) i) as [src Hsrc].
  { rewrite (inv_sources _ I), <- Lh. by eapply lookup_lt_Some. }
  destruct (Hs i src h Hsrc Hh) as (_ & rest & Hst & Hr). exists rest. split; [done |].
  intros He. by rewrite (index_lookup _ _ _ He) in Hr.
Qed.

Lemma serves_core s s' streams :
  same_schedule s s' -> serves s streams -> serves s' streams.
Proof. intros [[E1 E2 _ _ _ _] Es Ew _ _ _]. unfold serves. by rewrite E1, E2, Es, Ew. Qed.

(** *** What is left to do *)

Definition source_slack (stream : list ExtendedPointId) (seen : list ExtendedPointId * bool)
    : nat := length stream - length seen.1 + if seen.2 then 0 else 1.

Definition slack s streams : nat :=
  sum_list (zip_with source_slack streams (zip (source_history s) (exhausted (state s)))).

Lemma sum_list_insert_lt (l : list nat) i x y :
  l !! i = Some x -> y < x -> sum_list (<[i := y]> l) < sum_list l.
Proof.
  revert i. induction l as [|z l IH]; intros [|i] E Hy; simplify_eq/=; [lia |].
  specialize (IH i E Hy). lia.
Qed.

Lemma slack_decreases s s' streams source h rest ids (e : bool) :
  source_history s !! source = Some h -> exhausted (state s) !! source = Some false ->
  streams !! source = Some (h ++ ids ++ rest) -> (ids = [] -> e = true) ->
  source_history s' = read_more source ids (source_history s) ->
  exhausted (state s') =
    (if e then <[source := true]> (exhausted (state s)) else exhausted (state s)) ->
  slack s' streams < slack s streams.
Proof.
  intros Hh He Hst Hne Eh Ee. unfold slack.
  set (L := zip_with _ _ (zip (source_history s) _)).
  assert (EL : zip_with source_slack streams
    (zip (source_history s') (exhausted (state s'))) =
    <[source := source_slack (h ++ ids ++ rest) (h ++ ids, e)]> L).
  { apply list_eq. intros i. rewrite list_lookup_insert. unfold L.
    rewrite !lookup_zip_with, Eh, Ee.
    destruct (decide (source = i)) as [<-|Hi].
    - rewrite (read_more_lookup _ _ _ h Hh), Hst.
      assert ((if e then <[source:=true]> (exhausted (state s)) else exhausted (state s))
        !! source = Some e) as ->.
      { destruct e; [|done]. apply list_lookup_insert_eq. by eapply lookup_lt_Some. }
      rewrite decide_True; [done |]. split; [done |].
      apply lookup_lt_Some in Hst, Hh, He. rewrite !length_zip_with. lia.
    - rewrite decide_False by tauto. unfold read_more. rewrite list_lookup_alter_ne by done.
      destruct e; [|done]. by rewrite list_lookup_insert_ne. }
  rewrite EL. eapply sum_list_insert_lt.
  - unfold L. by rewrite !lookup_zip_with, Hst, Hh, He.
  - unfold source_slack. simpl. rewrite !length_app.
    destruct ids; [rewrite Hne by done |destruct e]; simpl; lia.
Qed.

(** A pull of a serving source reads the next part of its stream. *)
Lemma advance_source_serves s streams source :
  session_inv s -> serves s streams -> exhausted (state s) !! source = Some false ->
  exists s', advance_source s source = (s', Continue) /\ session_inv s' /\ grows s s' /\
    serves s' streams /\ slack s' streams < slack s streams /\
    shared_step (shared s) (shared s').
Proof.
  intros I (L & Nd & Hs) He. pose proof (rep_hist _ _ (inv_rep _ I)) as Lh.
  destruct (lookup_lt_is_Some_2 (source_history s) source) as [h Hh].
  { rewrite Lh, <- (rep_exhausted _ _ (inv_rep _ I)). by eapply lookup_lt_Some. }
  destruct (lookup_lt_is_Some_2 (sources s) source) as [src Hsrc].
  { rewrite (inv_sources _ I), <- Lh. by eapply lookup_lt_Some. }
  destruct (Hs source src h Hsrc Hh) as (Hrec & rest & Hst & Hr).
  rewrite (index_lookup _ _ _ He) in Hr.
  destruct (source_rest_pull (shared s) src (length h) rest (source_batch_size s) Hr (inv_batch _ I))
    as (ids & rest' & e & src' & w' & Ep & -> & Hl & Hne & Hx & Hr' & Hw & Hrec').
  rewrite <- (inv_position s source h I Hh) in Ep.
  assert (A : batch_acceptable (state s) (source_history s) source
    {| start_rank := (source_pulls s).[source]; point_ids := ids; batch_exhausted := e |}).
  { exists h. split_and!; simpl; try done; [by apply inv_position |].
    rewrite Forall_lookup in Nd. specialize (Nd _ _ Hst). rewrite app_assoc in Nd.
    by apply NoDup_app in Nd as [? _]. }
  destruct (advance_source_cases s source I He) as
    [s' er src0 _ Hsrc0 Hno|s' batch src0 Hsrc0 Hb _ _ I' G Es Ew Eh Ee _]; simplify_eq.
  { exfalso. eapply Hno; [by rewrite Ep | done | done]. }
  rewrite Ep in Hb, Es, Ew. simpl in *. injection Hb as <-. simpl in *.
  exists s'. split_and!; try done.
  - split_and!; [by rewrite Es, length_insert | done |]. intros i src1 h1.
    rewrite Es, Ew, Eh. unfold read_more. rewrite list_lookup_insert, list_lookup_alter.
    destruct (decide (source = i)) as [<-|Hi].
    + rewrite Hh, decide_True by (split; [done | by eapply lookup_lt_Some]).
      intros [= <-] [= <-]. split; [by apply Hrec' |].
      exists rest'. rewrite <- app_assoc. split; [done |].
      rewrite Ee. destruct e.
      * rewrite (index_lookup _ _ true) by (apply list_lookup_insert_eq; by eapply lookup_lt_Some).
        by apply Hx.
      * rewrite (index_lookup _ _ _ He), length_app. by apply Hr'.
    + rewrite decide_False by tauto. intros Hi1 Hi2.
      destruct (Hs i src1 h1 Hi1 Hi2) as (Hc & r & Hr1 & Hr2).
      split; [by apply (source_recorded_step (shared s)) |]. exists r. split; [done |].
      replace ((exhausted (state s')).[i]) with ((exhausted (state s)).[i]).
      * destruct ((exhausted (state s)).[i]); [done |]. by apply (source_rest_step (shared s)).
      * rewrite Ee. destruct e; [|done]. unfold index. by rewrite list_lookup_total_insert_ne.
  - eapply slack_decreases; try done.
  - by rewrite Ew.
Qed.

(** Enough fuel gives an answer or the requested pause. *)
Lemma advance_loop_serves fuel s streams mp :
  session_inv s -> serves s streams -> length mp = length (sources s) ->
  slack s streams < fuel ->
  exists s' a, advance_loop fuel s mp = (s', Returned (Ok a)) /\ serves s' streams /\
    shared_step (shared s) (shared s').
Proof.
  revert s. induction fuel as [|fuel IH]; intros s I Sv L Hf; [lia |]. simpl.
  destruct (advance_iteration_cases s mp I L) as
    [s' ids _ C|s' _ C|s' source Hp C Hsel He].
  - do 2 eexists. split; [done |]. rewrite (sched_shared _ _ C). split; [by apply (serves_core s) | done].
  - do 2 eexists. split; [done |]. rewrite (sched_shared _ _ C). split; [by apply (serves_core s) | done].
  - pose proof (sched_core _ _ C) as C'.
    destruct (advance_source_serves s' streams source) as (s'' & -> & I' & G & Sv' & Hlt & Hw).
    + by apply (same_core_inv s).
    + by apply (serves_core s).
    + by rewrite (core_state _ _ C').
    + destruct (IH s'') as (s3 & a & E & Sv3 & Hw3); try done.
      * by rewrite (grows_sources _ _ G), (sched_sources _ _ C).
      * replace (slack s streams) with (slack s' streams) in Hf; [lia |].
        unfold slack. by rewrite (core_state _ _ C'), (core_history _ _ C').
      * exists s3, a. split_and!; [done | done |]. rewrite (sched_shared _ _ C) in Hw. by etrans.
Qed.
End Liveness.

(** ** Theorems *)

Section Theorems.
Context {W P B : Type}.
Local Abbreviation session := (DynamicRrfSession W P B).

(** The reference answer of [s] over complete rankings. *)
Definition exact_prefix (s : session) (k : nat) (streams : list (list ExtendedPointId))
    : list ExtendedPointId :=
  take k (wrrf_order (rrf_k (state s)) (weights (state s)) streams).

Section AnySources.
Context `{PointStream P} `{BatchStream W B}.

Lemma advance_until_each_cases fuel (s : session) mp :
  session_inv s ->
  advance_until_each fuel s mp =
    (s, Returned (Err (ValidationError
       "Dynamic RRF pause targets have length {}; expected {}"))) \/
  length mp = length (sources s) /\
  advance_until_each fuel s mp = advance_loop fuel s mp.
Proof. intros I. unfold advance_until_each. case_decide; [by left | right; split; [lia | done]]. Qed.

(** [C27] Whatever the sources deliver (errors, repeated identities, wrong
    ranks, oversized batches), a call of [advance_until_each] keeps the
    session's invariant and everything already read, never panics, and an
    answer it returns is the exact first [top_k] of exhaustive fusion for
    every continuation of the rankings read so far. *)
Theorem advance_until_each_safe fuel (s s' : session) mp o :
  session_inv s -> advance_until_each fuel s mp = (s', o) ->
  session_inv s' /\ grows s s' /\ o <> Panicked /\
  forall x, o = Returned (Ok (Fixed x)) ->
    ex_source_pulls x = source_pulls s' /\
    forall streams, extends (state s') (source_history s') streams ->
      ex_point_ids x = exact_prefix s (top_k (state s)) streams.
Proof.
  intros I E. destruct (advance_until_each_cases fuel s mp I) as [E'|[L E']].
  { rewrite E' in E. injection E as <- <-. split_and!; auto with session; done. }
  rewrite E' in E. pose proof (advance_loop_safe fuel s mp I L) as Sf. rewrite E in Sf.
  destruct Sf as (I' & G & Ho). split_and!; try done; [by intros -> |].
  intros x ->. destruct Ho as (ids & Hf & ->). split; [done |]. intros streams Hx. simpl.
  rewrite (fixed_top_k_sound _ _ _ _ (inv_rep _ I') Hx Hf). unfold exact_prefix.
  by rewrite (grows_k _ _ G), (grows_top_k _ _ G), (grows_weights _ _ G).
Qed.
End AnySources.

Section ExactSources.
Context `{ExactPointStream P} `{ExactBatchStream W B}.

Lemma no_pause n (s : session) : pause_reached s (replicate n None) = false.
Proof.
  unfold pause_reached. apply andb_false_iff. left.
  by induction n.
Qed.

Lemma run_to_completion_spec fuel (s : session) streams :
  session_inv s -> serves s streams -> slack s streams < fuel ->
  exists s' x, run_to_completion fuel s = (s', Returned (Ok x)) /\
    session_inv s' /\ grows s s' /\ serves s' streams /\
    ex_point_ids x = exact_prefix s (top_k (state s)) streams /\
    (forall id, id ∈ ex_point_ids x -> id ∈ concat (source_history s')) /\
    (ex_stop_reason x = AllSourcesExhausted ->
       all_sources_exhausted (state s') = true /\ source_history s' = streams) /\
    shared_step (shared s) (shared s').
Proof.
  intros I Sv Hf. unfold run_to_completion, advance_until_each.
  rewrite length_replicate, decide_False by tauto.
  set (mp := replicate _ None).
  assert (L : length mp = length (sources s)) by apply length_replicate.
  destruct (advance_loop_serves fuel s streams mp I Sv L Hf) as (s' & a & E & Sv' & Hw).
  pose proof (advance_loop_safe fuel s mp I L) as Sf. rewrite E in Sf |- *.
  destruct Sf as (I' & G & Ho). destruct a as [x|].
  - pose proof (serves_extends s' streams I' Sv') as Hx.
    destruct Ho as (ids & Hfix & ->). exists s', (execution_of s' ids).
    split_and!; try done; simpl.
    + rewrite (fixed_top_k_sound _ _ _ _ (inv_rep _ I') Hx Hfix). unfold exact_prefix.
      by rewrite (grows_k _ _ G), (grows_top_k _ _ G), (grows_weights _ _ G).
    + intros id. rewrite (fixed_top_k_sound _ _ _ _ (inv_rep _ I') (extends_refl _ _) Hfix).
      apply elem_of_wrrf_order.
    + destruct (all_sources_exhausted (state s')) eqn:Ea; [|done]. split; [done |].
      symmetry. by apply (extends_exhausted _ _ _ (inv_rep _ I') Hx Ea).
  - unfold mp in Ho. by rewrite no_pause in Ho.
Qed.

(** [C28] A session over exact rank streams runs to completion: with one
    unit of fuel per rank and source left, [run_to_completion] returns
    without panicking, and its answer is the exact first [top_k] of
    exhaustive fusion of the complete rankings, whatever the policy, the
    costs and the batch size. *)
Theorem run_to_completion_exact fuel (s : session) streams :
  session_inv s -> serves s streams -> slack s streams < fuel ->
  exists s' x, run_to_completion fuel s = (s', Returned (Ok x)) /\
    ex_point_ids x = exact_prefix s (top_k (state s)) streams.
Proof.
  intros I Sv Hf. destruct (run_to_completion_spec fuel s streams I Sv Hf)
    as (s' & x & E & _ & _ & _ & Ex & _). eauto.
Qed.

(** *** Growing the prefix *)

Lemma extend_top_k_spec (s : session) k streams :
  session_inv s -> serves s streams -> top_k (state s) <= k ->
  exists s', extend_top_k s k = (s', Ok tt) /\ session_inv s' /\ serves s' streams /\
    top_k (state s') = k /\ rrf_k (state s') = rrf_k (state s) /\
    weights (state s') = weights (state s) /\ exhausted_order s' = exhausted_order s /\
    state s' = mkDynamicRrfState (rrf_k (state s)) k (weights (state s))
      (next_positions (state s)) (exhausted (state s)) (points (state s)) /\
    source_history s' = source_history s.
Proof.
  intros I Sv Hk. unfold extend_top_k. rewrite decide_False by lia.
  eexists. split; [done |]. split_and!; try done.
  destruct I as [[] ? ? ? ?]. by split; [split |..].
Qed.

(** Fuel for every rank and for noticing the end of every source. *)
Definition stream_fuel (streams : list (list ExtendedPointId)) : nat :=
  S (sum_list (length <$> streams) + length streams).

Lemma slack_bound (s : session) streams : slack s streams < stream_fuel streams.
Proof.
  unfold slack, stream_fuel. generalize (zip (source_history s) (exhausted (state s))).
  induction streams as [|st streams IH]; intros [|c l]; csimpl; try lia.
  assert (source_slack st c <= S (length st)) by (unfold source_slack; destruct (c.2); lia).
  specialize (IH l). lia.
Qed.

Lemma with_exhausted_order_inv (s : session) :
  session_inv s -> all_sources_exhausted (state s) = true ->
  session_inv (with_exhausted_order s (complete_order (state s))).
Proof.
  intros I Ha. destruct I as [R ? ? ? ?]. split; try done. simpl. intros o [= <-].
  split; [done |]. by apply complete_order_spec.
Qed.

(** [C29] Growing prefixes: a session asked for a longer prefix answers
    with the exact longer prefix of the same fusion, and is again a
    session of the same rankings, so any increasing sequence of requests
    reads off one and the same order. *)
Theorem run_to_prefix_exact (s : session) k streams fuel :
  session_inv s -> serves s streams -> top_k (state s) <= k ->
  stream_fuel streams <= fuel ->
  exists s' x, run_to_prefix fuel s k = (s', Returned (Ok x)) /\
    ex_point_ids x = exact_prefix s k streams /\
    session_inv s' /\ serves s' streams /\ top_k (state s') = k /\
    (forall n, exact_prefix s' n streams = exact_prefix s n streams).
Proof.
  intros I Sv Hk Hf. unfold run_to_prefix.
  destruct (extend_top_k_spec s k streams I Sv Hk)
    as (s1 & -> & I1 & Sv1 & Ek & Er & Ew & Eo & Es & Eh).
  assert (Hp : forall n, exact_prefix s1 n streams = exact_prefix s n streams)
    by (intros n; unfold exact_prefix; by rewrite Er, Ew).
  destruct (exhausted_order s1) as [o|] eqn:Eord.
  - destruct (inv_order _ I1 o Eord) as [Ha Ho]. do 2 eexists. split; [done |]. simpl.
    split_and!; try done. rewrite Ho, <- Hp. unfold exact_prefix. by rewrite
      (extends_exhausted _ _ _ (inv_rep _ I1) (serves_extends _ _ I1 Sv1) Ha).
  - destruct (run_to_completion_spec fuel s1 streams I1 Sv1) as
      (s2 & x & -> & I2 & G & Sv2 & Ex & _ & Hstop & _); [pose proof (slack_bound s1 streams); lia |].
    rewrite Ek, Hp in Ex.
    assert (Hp2 : forall n, exact_prefix s2 n streams = exact_prefix s n streams).
    { intros n. rewrite <- Hp. unfold exact_prefix.
      by rewrite (grows_k _ _ G), (grows_weights _ _ G). }
    assert (Ek2 : top_k (state s2) = k) by (rewrite (grows_top_k _ _ G); done).
    destruct (ex_stop_reason x); [by exists s2, x |].
    destruct Hstop as [Ha Hh]; [done |]. do 2 eexists. split; [done |]. simpl.
    split_and!; try done; [|by apply with_exhausted_order_inv].
    rewrite <- Hp2, (complete_order_spec _ _ (inv_rep _ I2)), Hh. done.
Qed.

(** *** Replacing a source *)

Lemma replay_spec (p : P) ranking h :
  point_rest p ranking ->
  match replay p h with
  | Ok p' => exists rest, ranking = h ++ rest /\ point_rest p' rest
  | Err _ => ~ h `prefix_of` ranking
  end.
Proof.
  revert p ranking. induction h as [|x h IH]; intros p ranking Hp; simpl; [eauto |].
  apply point_rest_next in Hp. destruct ranking as [|y ranking].
  - destruct Hp as [p' ->]. by intros ?%prefix_nil_not.
  - destruct Hp as (p' & -> & Hp). case_decide as D.
    + subst. specialize (IH p' ranking Hp). destruct (replay p' h).
      * destruct IH as (rest & -> & Hr). by exists rest.
      * by intros ?%prefix_cons_inv_2.
    + intros Hx. by apply prefix_cons_inv_1 in Hx.
Qed.

(** [C30] Replacing a source by another exact stream: it is accepted
    exactly when the source is not exhausted and the new ranking starts
    with everything read from the old one, and then the session serves
    the rankings with the new one in its place; a refused replacement
    leaves the session as it was. *)
Theorem replace_source_exact (s : session) streams source h p ranking :
  session_inv s -> serves s streams -> source_history s !! source = Some h ->
  point_rest p ranking -> NoDup ranking ->
  ((exhausted (state s)).[source] = false /\ h `prefix_of` ranking ->
     exists s', replace_source s source p = (s', Ok tt) /\
       session_inv s' /\ state s' = state s /\ serves s' (<[source := ranking]> streams)) /\
  (~ ((exhausted (state s)).[source] = false /\ h `prefix_of` ranking) ->
     exists e, replace_source s source p = (s, Err e)).
Proof.
  intros I (L & Nd & Hs) Hh Hp Hnd. unfold replace_source. rewrite Hh.
  pose proof (replay_spec p ranking h Hp) as Rp.
  assert (Hlt : source < length (sources s)).
  { rewrite (inv_sources _ I), <- (rep_hist _ _ (inv_rep _ I)). by eapply lookup_lt_Some. }
  split.
  - intros [He Hpre]. rewrite He. destruct (replay p h) as [p'|e]; [|done].
    destruct Rp as (rest & -> & Hr). eexists. split; [done |]. split_and!; [|done|].
    + apply (same_core_inv s); [|done]. split; try done. apply length_insert.
    + split_and!; [by simpl; rewrite !length_insert | by apply Forall_insert |].
      intros i src1 h1. simpl. rewrite !list_lookup_insert.
      destruct (decide (source = i)) as [<-|Hi].
      * rewrite !decide_True by (split; [done | lia]). intros [= <-] Hh1. simplify_eq.
        split; [done |].
        exists rest. split; [done |]. by rewrite He.
      * rewrite !decide_False by tauto. apply Hs.
  - intros Hn. destruct ((exhausted (state s)).[source]); [eauto |].
    destruct (replay p h) as [p'|e]; [|eauto]. destruct Rp as (rest & -> & _).
    exfalso. apply Hn. split; [done |]. by exists rest.
Qed.
End ExactSources.
End Theorems.

(** ** The executor *)

Definition policy_ok (p : DynamicRrfPolicy) : Prop :=
  warmup_check_interval p <> Some 0 /\ exhaustive_after_pulls_per_source p <> Some 0 /\
  fairness_after_actions_per_source p <> Some 0.

Section Execute.
Context {W P B : Type} `{ExactPointStream P} `{ExactBatchStream W B}.

(** A new session over fresh exact sources serves their rankings. *)
Lemma new_session_serves (srcs : list (DynamicRrfSource P B)) w streams n tk k ws p :
  1 <= n -> 1 <= k -> policy_ok p -> weights_ok ws -> length ws = length srcs ->
  Forall2 (fun src stream => source_rest w src 0 stream) srcs streams ->
  Forall NoDup streams ->
  exists s, new_with_inputs srcs w n tk k (Some ws)
      (replicate (length srcs) f64_one) p = Ok s /\
    session_inv s /\ serves s streams /\ top_k (state s) = tk /\ rrf_k (state s) = k /\
    weights (state s) = ws /\ shared s = w.
Proof.
  intros Hn Hk (Hp1 & Hp2 & Hp3) [Hne Hws] Hl F2 Nd.
  destruct (new_with_inputs_ok srcs w n tk k ws (replicate (length srcs) f64_one) p)
    as [s E]; try done.
  { by destruct ws, srcs. }
  { apply length_replicate. }
  { apply Forall_replicate. by vm_compute. }
  { eapply Forall_impl; [done |]. by intros ? [? ?]. }
  pose proof E as E'. apply new_with_inputs_inv in E'
    as (I & Es & Em & _ & _ & Et & Ek & Ew & Eh & Ex & _);
    [|eapply Forall_impl; [done |]; by intros ? [? ?]].
  exists s. split_and!; try done. split_and!; [|done|].
  - rewrite Es. symmetry. by eapply Forall2_length.
  - intros i src h. rewrite Es, Em, Eh, Ex. intros Hsrc Hh.
    apply lookup_replicate in Hh as [-> Hi].
    rewrite (index_lookup _ i false) by (by apply lookup_replicate).
    destruct (Forall2_lookup_l _ _ _ i src F2 Hsrc) as (st & Hst & Hr).
    split; [by destruct src; [|constructor] | by exists st].
Qed.
End Execute.

(** [C1] Dynamic fusion equals exhaustive fusion: run over the rankings of
    the responses with any policy, the early-stopping executor returns the
    identities of the first [top_k] points that [exact_rrf_scoring] computes
    from the complete responses. *)
Theorem dynamic_rrf_equals_exhaustive responses tk k ws policy fuel :
  1 <= k -> policy_ok policy -> weights_ok ws -> length ws = length responses ->
  Forall (fun r : list ScoredPoint => NoDup (sp_id <$> r)) responses ->
  stream_fuel (rankings responses) <= fuel ->
  exists x scores,
    execute_dynamic_rrf_with_policy fuel (rankings responses) tk k (Some ws) policy
      = Returned (Ok x) /\
    exact_rrf_scoring responses k (Some ws) = Ok scores /\
    ex_point_ids x = take tk (sp_id <$> scores).
Proof.
  intros Hk Hp Hw Hl Nd Hf. set (streams := rankings responses) in *.
  assert (Hl' : length streams = length responses) by apply length_fmap.
  destruct (new_session_serves (B := Empty_set) (SourcePoint <$> streams) tt streams 1 tk k ws policy)
    as (s & E & I & Sv & Et & Ek & Ew & _); try done.
  { by rewrite length_fmap, Hl'. }
  { apply Forall2_fmap_l, Forall_Forall2_diag, Forall_true. done. }
  { by apply Forall_fmap. }
  unfold execute_dynamic_rrf_with_policy, session_new, new_with_source_costs.
  rewrite length_fmap in E. rewrite E.
  destruct (run_to_completion_spec fuel s streams I Sv) as (s' & x & -> & _ & _ & _ & Ex & _).
  { pose proof (slack_bound s streams). lia. }
  destruct (exact_rrf_scoring_spec k ws responses) as (scores & Es & Ei & _);
    [done | done | apply Hw | apply Hw | done |].
  exists x, scores. split_and!; [done | done |].
  rewrite Ex, Ei. unfold exact_prefix. by rewrite Et, Ek, Ew.
Qed.

(** The batch executor is exact over any sources that keep the contract of an
    exact batch stream, whatever sizes they answer with, and every identity of
    its answer is recorded in the shared memory. *)
Lemma execute_batches_exact {W B} `{ExactBatchStream W B} (pulls : list B) w streams
    batch_size tk k ws policy fuel :
  1 <= batch_size -> 1 <= k -> policy_ok policy -> weights_ok ws ->
  length ws = length pulls -> Forall NoDup streams ->
  Forall2 (fun pull stream => batch_rest w pull 0 stream) pulls streams ->
  stream_fuel streams <= fuel ->
  exists x w',
    execute_dynamic_rrf_batches_with_policy fuel pulls w batch_size tk k (Some ws) policy
      = (Returned (Ok x), w') /\
    ex_point_ids x = take tk (wrrf_order k ws streams) /\
    Forall (recorded w') (ex_point_ids x) /\ shared_step w w'.
Proof.
  intros Hn Hk Hp Hw Hl Nd F2 Hf.
  destruct (new_session_serves (P := Empty_set) (SourceBatch <$> pulls) w streams batch_size tk k
    ws policy) as (s & E & I & Sv & Et & Ek & Ew & Em); try done.
  { by rewrite length_fmap. }
  { by apply Forall2_fmap_l. }
  unfold execute_dynamic_rrf_batches_with_policy, new_batched.
  rewrite length_fmap in E. rewrite E.
  destruct (run_to_completion_spec fuel s streams I Sv) as (s' & x & -> & I' & _ & (_ & _ & Hs) & Ex & Hin & _ & Hsh).
  { pose proof (slack_bound s streams). lia. }
  exists x, (shared s'). rewrite Em in Hsh. split_and!; [done | | |done].
  - rewrite Ex. unfold exact_prefix. by rewrite Et, Ek, Ew.
  - apply Forall_forall. intros id (i & h & Hh & Hid)%Hin%elem_of_concat.
    destruct (lookup_lt_is_Some_2 (sources s') i) as [[[]|b] Hsrc].
    { rewrite (inv_sources _ I'), <- (rep_hist _ _ (inv_rep _ I')). by eapply lookup_lt_Some. }
    destruct (Hs i _ h Hsrc Hh) as [Hr _]. simpl in Hr. rewrite Forall_forall in Hr. auto.
Qed.

(** ** Examples *)

Lemma weights_ok_ones n : n <> 0 -> weights_ok (replicate n f32_one).
Proof.
  intros Hn. split; [by destruct n |]. apply Forall_replicate.
  split; [apply (of_Z_wf binary32) | by vm_compute].
Qed.

Lemma default_policy_ok : policy_ok DynamicRrfPolicy_default.
Proof. done. Qed.

Definition example_rankings : list (list ExtendedPointId) :=
  [[NumId 1; NumId 2; NumId 3; NumId 4]; [NumId 2; NumId 5; NumId 1]].

Lemma example_nodup : Forall NoDup example_rankings.
Proof. apply (bool_decide_unpack _). by vm_compute. Qed.

Lemma example_session :
  exists s : DynamicRrfSession unit (list ExtendedPointId) Empty_set,
    session_inv s /\ serves s example_rankings /\ top_k (state s) = 2 /\ rrf_k (state s) = 60 /\
    weights (state s) = replicate 2 f32_one /\ source_history s = [[]; []] /\
    exhausted (state s) = [false; false].
Proof.
  destruct (new_session_serves (B := Empty_set) (SourcePoint <$> example_rankings)
    tt example_rankings 1 2 60 (replicate 2 f32_one) DynamicRrfPolicy_default)
    as (s & E & I & Sv & Et & Ek & Ew & _);
    [lia | lia | apply default_policy_ok | by apply weights_ok_ones | done | | apply example_nodup |].
  - apply Forall2_fmap_l, Forall_Forall2_diag, Forall_true. done.
  - exists s. apply new_with_inputs_inv in E as (_ & _ & _ & _ & _ & _ & _ & _ & Eh & Ex & _);
      [done | apply Forall_replicate, (of_Z_wf binary32)].
Qed.

Lemma advance_until_each_safe_witness :
  exists s : DynamicRrfSession unit (list ExtendedPointId) Empty_set,
    session_inv s /\
    forall s' o, advance_until_each 3 s [Some 1; None] = (s', o) ->
      session_inv s' /\ grows s s' /\ o <> Panicked.
Proof.
  destruct example_session as (s & I & _). exists s. split; [done |]. intros s' o E.
  destruct (advance_until_each_safe 3 s s' [Some 1; None] o I E) as (I' & G & Hp & _). done.
Defined.

Lemma run_to_completion_exact_witness :
  exists (s s' : DynamicRrfSession unit (list ExtendedPointId) Empty_set) x,
    run_to_completion 10 s = (s', Returned (Ok x)) /\ ex_point_ids x = [NumId 2; NumId 1].
Proof.
  destruct example_session as (s & I & Sv & Et & Ek & Ew & _).
  destruct (run_to_completion_exact 10 s example_rankings I Sv) as (s' & x & E & Ex).
  - pose proof (slack_bound s example_rankings) as Hs.
    change (stream_fuel example_rankings) with 10 in Hs. exact Hs.
  - exists s, s', x. split; [exact E |]. rewrite Ex. unfold exact_prefix.
    rewrite Et, Ek, Ew. vm_compute. reflexivity.
Defined.

Lemma run_to_prefix_exact_witness :
  exists (s s' : DynamicRrfSession unit (list ExtendedPointId) Empty_set) x,
    run_to_prefix 10 s 3 = (s', Returned (Ok x)) /\
    ex_point_ids x = [NumId 2; NumId 1; NumId 5].
Proof.
  destruct example_session as (s & I & Sv & Et & Ek & Ew & _).
  destruct (run_to_prefix_exact s 3 example_rankings 10 I Sv) as (s' & x & E & Ex & _).
  - rewrite Et. lia.
  - change (stream_fuel example_rankings) with 10. lia.
  - exists s, s', x. split; [exact E |]. rewrite Ex. unfold exact_prefix.
    rewrite Ek, Ew. vm_compute. reflexivity.
Defined.

Lemma replace_source_exact_witness :
  exists (s s' : DynamicRrfSession unit (list ExtendedPointId) Empty_set),
    replace_source s 1 [NumId 7; NumId 8] = (s', Ok tt) /\
    serves s' (<[1 := [NumId 7; NumId 8]]> example_rankings).
Proof.
  destruct example_session as (s & I & Sv & _ & _ & _ & Eh & Ex).
  destruct (replace_source_exact s example_rankings 1 [] [NumId 7; NumId 8]
    [NumId 7; NumId 8] I Sv) as [Hok _].
  - rewrite Eh. reflexivity.
  - reflexivity.
  - apply (bool_decide_unpack _). vm_compute. exact Logic.I.
  - destruct Hok as (s' & E' & _ & _ & Sv').
    + rewrite Ex. split; [reflexivity | apply prefix_nil].
    + exists s, s'. split; [exact E' | exact Sv'].
Defined.

Definition example_responses : list (list ScoredPoint) :=
  let point id := {| sp_id := NumId id; sp_version := 0; sp_score := f32_one |} in
  [point <$> [1; 2; 3; 4]%N; point <$> [2; 5; 1]%N].

Lemma dynamic_rrf_equals_exhaustive_witness :
  exists x scores,
    execute_dynamic_rrf_with_policy 10 (rankings example_responses) 2 60
      (Some (replicate 2 f32_one)) DynamicRrfPolicy_default = Returned (Ok x) /\
    exact_rrf_scoring example_responses 60 (Some (replicate 2 f32_one)) = Ok scores /\
    ex_point_ids x = take 2 (sp_id <$> scores).
Proof.
  apply (dynamic_rrf_equals_exhaustive example_responses 2 60 (replicate 2 f32_one)
    DynamicRrfPolicy_default 10).
  - lia.
  - apply default_policy_ok.
  - apply weights_ok_ones. lia.
  - reflexivity.
  - apply (bool_decide_unpack _). vm_compute. exact Logic.I.
  - change (stream_fuel (rankings example_responses)) with 10. lia.
Defined.
