(* ===== verification/RrfFairness.v ===== *)
(** * Reciprocal rank fusion: no source starves

    The fairness clause of [select_source_to_advance]: when a source has
    waited for a window of actions it is advanced before the priorities are
    consulted, the longest waiting one first.  The file proves the bound this
    gives on how long an open source can wait, and that the bound is the
    window plus the number of other sources, not the window alone. *)

From S2P Require Import Prelude Float Order PointId RrfScoring RrfState RrfSession RrfExact.

Lemma saturating_mul_pos a b : a <> 0 -> b <> 0 -> 1 <= saturating_mul a b.
Proof. intros Ha Hb. unfold saturating_mul, USIZE_MAX. lia. Qed.

Lemma NoDup_smaller {A} (l l' : list A) x :
  NoDup l' -> l' ⊆ l -> x ∈ l -> x ∉ l' -> length l' < length l.
Proof.
  intros N S Hx Hn. apply (submseteq_length (x :: l') l).
  apply NoDup_submseteq; [by apply NoDup_cons | set_solver].
Qed.

Section Fairness.
Context {W P B : Type} `{PointStream P} `{BatchStream W B}.
Local Abbreviation session := (DynamicRrfSession W P B).
Implicit Types (s : session).

(** The open sources that have waited for at least [w] actions. *)
Definition waiting s (w : nat) : list nat :=
  filter (fun i => exhausted (state s) !! i = Some false /\ w <= source_wait s i)
    (seq 0 (length (sources s))).

(** The fairness window of that many sources. *)
Definition window (source_count fairness : nat) : nat := saturating_mul fairness source_count.

(** Ever fewer sources wait ever longer beyond the window. *)
Definition fair s (fairness : nat) : Prop :=
  fairness_after_actions_per_source (policy s) = Some fairness /\ fairness <> 0 /\
  length (source_last_advanced s) = length (sources s) /\
  forall j, length (waiting s (window (length (sources s)) fairness + j)) <= length (sources s) - 1 - j.

Lemma elem_of_waiting s w i :
  session_inv s ->
  i ∈ waiting s w <-> exhausted (state s) !! i = Some false /\ w <= source_wait s i.
Proof.
  intros I. unfold waiting. rewrite list_elem_of_filter, elem_of_seq. split; [tauto |].
  intros [He Hw]. split; [done |]. apply lookup_lt_Some in He.
  rewrite (rep_exhausted _ _ (inv_rep _ I)) in He. rewrite (inv_sources _ I). lia.
Qed.

Lemma waiting_nodup s w : NoDup (waiting s w).
Proof. apply NoDup_filter, NoDup_seq. Qed.

#[local] Instance wait_order_TotalCmp s : TotalCmp (wait_order s).
Proof.
  apply TotalCmp_then; [apply (TotalCmp_key Nat.compare (source_wait s)), _ |].
  apply (TotalCmp_flip Nat.compare), _.
Qed.

(** While some source is past the window, the longest waiting one is next. *)
Lemma select_longest s n f source i j :
  session_inv s -> fairness_after_actions_per_source (policy s) = Some f ->
  select_source_to_advance s (replicate n None) = Some source ->
  n = length (sources s) ->
  i ∈ waiting s (window (length (sources s)) f + j) -> source ∈ waiting s (window (length (sources s)) f + j).
Proof.
  intros I Hf Hsel -> Hi.
  pose proof (select_source_open _ _ _ I Hsel) as [He _].
  apply elem_of_waiting; [done |]. split; [done |].
  apply elem_of_waiting in Hi as [Hie Hiw]; [|done].
  assert (Hstarved : i ∈ starved_sources s (replicate (length (sources s)) None) f).
  { apply list_elem_of_filter. split_and!.
    - by apply (next_possible_open _ _ _ (inv_rep _ I)).
    - unfold below_pause_target. rewrite (index_lookup _ _ None); [done |].
      apply lookup_replicate. split; [done |]. apply lookup_lt_Some in Hie.
      rewrite (rep_exhausted _ _ (inv_rep _ I)) in Hie. rewrite (inv_sources _ I). lia.
    - fold (window (length (sources s)) f). lia.
    - apply elem_of_seq. apply lookup_lt_Some in Hie.
      rewrite (rep_exhausted _ _ (inv_rep _ I)) in Hie. rewrite (inv_sources _ I). lia. }
  unfold select_source_to_advance in Hsel. rewrite Hf in Hsel.
  destruct (max_by (wait_order s) _) as [m|] eqn:Em.
  - injection Hsel as ->. apply (max_by_spec (wait_order s)) in Em as [_ Hmax].
    specialize (Hmax i Hstarved). unfold wait_order, then_with in Hmax.
    destruct (Nat.compare_spec (source_wait s i) (source_wait s source)); [lia | lia | done].
  - apply max_by_None in Em. rewrite Em in Hstarved. by apply elem_of_nil in Hstarved.
Qed.

(** The clock after a pull, whatever its result. *)
Lemma advance_source_clock s source :
  let s' := (advance_source s source).1 in
  advance_actions s' = S (advance_actions s) /\
  source_last_advanced s' = <[source := S (advance_actions s)]> (source_last_advanced s) /\
  policy s' = policy s.
Proof.
  unfold advance_source. destruct (sources _ !! source); [|done].
  destruct (pull_source _ _ _ _) as [[batch|] [src' w']]; [|done].
  destruct (_ <? _); [done |]. destruct (observe_batch _ _ _) as [st [|]]; done.
Qed.

Lemma advance_source_wait s source i :
  source < length (source_last_advanced s) ->
  let s' := (advance_source s source).1 in
  source_wait s' source = 0 /\ source_wait s' i <= S (source_wait s i).
Proof.
  intros Hlt. destruct (advance_source_clock s source) as (Ea & El & _).
  unfold source_wait. rewrite Ea, El. split.
  - rewrite (index_lookup _ _ (S (advance_actions s))); [lia |].
    by apply list_lookup_insert_eq.
  - destruct (decide (source = i)) as [<-|].
    + rewrite (index_lookup _ _ (S (advance_actions s))); [lia |].
      by apply list_lookup_insert_eq.
    + unfold index. rewrite list_lookup_total_insert_ne by done. lia.
Qed.

(** Sources that waited [S w] after a pull waited [w] before it. *)
Lemma waiting_step s s' source w :
  session_inv s -> session_inv s' -> grows s s' ->
  s' = (advance_source s source).1 -> source < length (source_last_advanced s) ->
  waiting s' (S w) ⊆ waiting s w /\ source ∉ waiting s' (S w).
Proof.
  intros I I' G -> Hlt. split.
  - intros i [He Hw]%elem_of_waiting; [|done]. apply elem_of_waiting; [done |].
    pose proof (advance_source_wait s source i Hlt) as [_ Hi]. split; [|simpl in Hi; lia].
    destruct (lookup_lt_is_Some_2 (exhausted (state s)) i) as [[] Hx]; [| |done].
    + rewrite (rep_exhausted _ _ (inv_rep _ I)), <- (grows_weights _ _ G),
        <- (rep_exhausted _ _ (inv_rep _ I')). by eapply lookup_lt_Some.
    + apply (grows_exhausted _ _ G) in Hx. congruence.
  - intros [_ Hw]%elem_of_waiting; [|done].
    pose proof (advance_source_wait s source source Hlt) as [H1 _]. simpl in H1. lia.
Qed.

Lemma fair_step s s' source f :
  session_inv s -> session_inv s' -> grows s s' -> fair s f ->
  exhausted (state s) !! source = Some false ->
  select_source_to_advance s (replicate (length (sources s)) None) = Some source ->
  s' = (advance_source s source).1 -> fair s' f.
Proof.
  intros I I' G (Hf & Hf0 & Hlen & Hj) He Hsel E.
  destruct (advance_source_clock s source) as (_ & El & Ep). rewrite <- E in El, Ep.
  assert (Hn : source < length (sources s)).
  { rewrite (inv_sources _ I), <- (rep_exhausted _ _ (inv_rep _ I)). by eapply lookup_lt_Some. }
  assert (Hlt : source < length (source_last_advanced s)) by lia.
  split_and!; [congruence | done | by rewrite El, length_insert, (grows_sources _ _ G) |].
  rewrite (grows_sources _ _ G). intros [|j].
  - assert (1 <= window (length (sources s)) f) by (apply saturating_mul_pos; lia).
    destruct (window (length (sources s)) f) as [|w] eqn:Ew; [lia |]. rewrite Nat.add_0_r.
    destruct (waiting_step s s' source w I I' G E Hlt) as [_ Hnot].
    apply NoDup_smaller with (l := seq 0 (length (sources s))) in Hnot.
    + rewrite length_seq in Hnot. lia.
    + apply waiting_nodup.
    + intros i Hi. apply list_elem_of_filter in Hi as [_ Hi].
      by rewrite (grows_sources _ _ G) in Hi.
    + apply elem_of_seq. lia.
  - rewrite Nat.add_succ_r. destruct (waiting_step s s' source (window (length (sources s)) f + j) I I' G E Hlt)
      as [Hsub Hnot]. specialize (Hj j).
    destruct (waiting s' (S (window (length (sources s)) f + j))) as [|i l] eqn:Ewt; [simpl; lia |].
    rewrite <- Ewt in *. apply NoDup_smaller with (l := waiting s (window (length (sources s)) f + j)) in Hnot;
      [lia | apply waiting_nodup | done |].
    eapply select_longest with (i := i); [done.. |]. apply Hsub. rewrite Ewt. left.
Qed.

Lemma fair_schedule s s' f : same_schedule s s' -> fair s f -> fair s' f.
Proof.
  intros [[E1 _ _ _ _ _] Es _ Ea El Ep] (Hf & Hf0 & Hlen & Hj).
  unfold fair, waiting, window, source_wait. rewrite E1, Es, Ea, El, Ep. done.
Qed.

Lemma fair_loop fuel s f :
  session_inv s -> fair s f ->
  fair (advance_loop fuel s (replicate (length (sources s)) None)).1 f.
Proof.
  remember (length (sources s)) as n eqn:Hn. revert s Hn.
  induction fuel as [|fuel IH]; intros s Hn I F; [done |]. simpl.
  destruct (advance_iteration_cases s (replicate n None) I) as
    [s' ids _ C|s' _ C|s' source Hp C Hsel He]; [by rewrite length_replicate | ..].
  - by apply (fair_schedule s).
  - by apply (fair_schedule s).
  - pose proof (same_core_inv _ _ (sched_core _ _ C) I) as I'.
    apply (fair_schedule s s') in F; [|done].
    rewrite <- (core_state _ _ (sched_core _ _ C)) in He.
    rewrite <- (sched_sources _ _ C) in Hn. rewrite Hn in Hsel.
    pose proof (fair_step s' (advance_source s' source).1 source f I') as Hst.
    destruct (advance_source_cases s' source I' He) as
      [s'' e src C' _ _|s'' batch src _ _ _ _ I'' G _ _ _ _]; simpl in *.
    + apply Hst; auto with session. by apply (same_core_inv s').
    + apply IH; [by rewrite (grows_sources _ _ G) | done |]. by apply Hst.
Qed.
End Fairness.

(** [C32] No source starves: in every state a run of a new session passes
    through (the loop cut off after any number of iterations), an open source
    has waited for less than the fairness window plus the number of the other
    sources. *)
Theorem fairness_bound {W P B} `{PointStream P} `{BatchStream W B}
    (srcs : list (DynamicRrfSource P B)) (w : W) n tk k ws costs p f s fuel s' o i :
  from_option (Forall (wf binary32)) True ws ->
  new_with_inputs srcs w n tk k ws costs p = Ok s ->
  fairness_after_actions_per_source p = Some f ->
  run_to_completion fuel s = (s', o) ->
  exhausted (state s') !! i = Some false ->
  source_wait s' i < window (length srcs) f + (length srcs - 1).
Proof.
  intros Hws E Hf Hrun He.
  assert (Hf0 : f <> 0).
  { intros ->. unfold new_with_inputs in E. do 3 (case_decide; [done |]).
    by rewrite Hf, decide_True in E. }
  pose proof (new_with_inputs_inv _ _ _ _ _ _ _ _ _ Hws E)
    as (I & Es & _ & _ & Ep & _ & _ & _ & _ & Ex & Ea & El).
  assert (F : fair s f).
  { split_and!; [by rewrite Ep | done | by rewrite El, Es, length_replicate |].
    intros j. destruct (waiting s _) as [|i' l] eqn:Ew; [simpl; lia |]. exfalso.
    assert (Hin : i' ∈ waiting s (window (length (sources s)) f + j)) by (rewrite Ew; left).
    apply elem_of_waiting in Hin as [Hi Hw]; [|done].
    unfold source_wait in Hw. rewrite Ea in Hw.
    assert (1 <= window (length (sources s)) f); [|lia]. apply saturating_mul_pos; [done |].
    rewrite Ex in Hi. apply lookup_replicate in Hi as [_ Hi]. rewrite Es. lia. }
  pose proof (fair_loop fuel s f I F) as F'.
  pose proof (advance_loop_safe fuel s (replicate (length (sources s)) None) I
    (length_replicate _ _)) as Sf.
  assert (Es' : s' = (advance_loop fuel s (replicate (length (sources s)) None)).1).
  { unfold run_to_completion, advance_until_each in Hrun.
    rewrite length_replicate, decide_False in Hrun by tauto.
    destruct (advance_loop _ _ _) as [s1 [[[|]|]| |]]; by injection Hrun. }
  destruct (advance_loop _ _ _) as [s1 o1]. simpl in *. subst s1.
  destruct Sf as (I' & G & _). destruct F' as (_ & _ & _ & Hj).
  specialize (Hj (length (sources s') - 1)). rewrite Nat.sub_diag in Hj.
  pose proof (grows_sources _ _ G) as Ls. rewrite Es in Ls.
  apply Nat.nle_gt. intros Hle.
  assert (i ∈ waiting s' (window (length (sources s')) f + (length (sources s') - 1))) as Hin.
  { apply elem_of_waiting; [done |]. split; [done |]. by rewrite Ls. }
  destruct (waiting s' _); [by apply elem_of_nil in Hin | simpl in Hj; lia].
Qed.

(** ** Examples *)

Definition heavy_first : option (list float) :=
  Some [of_Z binary32 1000; of_Z binary32 1; of_Z binary32 1].

Definition eager_policy : DynamicRrfPolicy :=
  {| warmup_check_interval := None; exhaustive_after_pulls_per_source := None;
     scheduler := MaxNextContribution; fairness_after_actions_per_source := Some 1 |}.

Definition three_rankings : list (list ExtendedPointId) :=
  [NumId <$> [0; 1; 2; 3; 4]%N; NumId <$> [20; 21; 22; 23]%N; NumId <$> [40; 41; 42; 43]%N].

(** The session after [fuel] iterations. *)
Definition after_iterations (fuel : nat)
    : option (DynamicRrfSession unit (list ExtendedPointId) Empty_set) :=
  match session_new (B := Empty_set) three_rankings tt 2 60 heavy_first eager_policy with
  | Ok s => Some (run_to_completion fuel s).1
  | Err _ => None
  end.

Lemma fairness_bound_witness :
  exists (s : DynamicRrfSession unit (list ExtendedPointId) Empty_set),
    new_with_inputs (SourcePoint <$> three_rankings) tt 1 2 60 heavy_first
      (replicate 3 f64_one) eager_policy = Ok s /\
    source_wait (run_to_completion 4 s).1 2 < 5.
Proof.
  destruct (new_with_inputs (B := Empty_set) (SourcePoint <$> three_rankings) tt 1 2 60 heavy_first
    (replicate 3 f64_one) eager_policy) as [s|e] eqn:E; [|vm_compute in E; discriminate E].
  exists s. split; [reflexivity |].
  destruct (run_to_completion 4 s) as [s' o] eqn:Er.
  cbn [fst].
  assert (W : 5 = window (length three_rankings) 1 + (length three_rankings - 1))
    by (vm_compute; reflexivity).
  rewrite W, <- (length_fmap (SourcePoint (B := Empty_set)) three_rankings).
  apply (fairness_bound (SourcePoint <$> three_rankings) tt 1 2 60 heavy_first
    (replicate 3 f64_one) eager_policy 1 s 4 s' o 2).
  - apply Forall_cons_2; [apply (of_Z_wf binary32) |].
    apply Forall_cons_2; [apply (of_Z_wf binary32) |].
    apply Forall_singleton. apply (of_Z_wf binary32).
  - exact E.
  - reflexivity.
  - exact Er.
  - assert (Hr : match new_with_inputs (B := Empty_set) (SourcePoint <$> three_rankings) tt 1 2 60
        heavy_first (replicate 3 f64_one) eager_policy with
      | Ok s => exhausted (state (run_to_completion 4 s).1) !! 2
      | Err _ => None
      end = Some false) by (vm_compute; reflexivity).
    rewrite E, Er in Hr. exact Hr.
Defined.

(** The documented maximum is the window itself, one action per source here;
    three sources make the last one wait for four actions. *)
Lemma fairness_window_exceeded :
  (fun s => source_wait s 2) <$> after_iterations 4 = Some 4 /\
  saturating_mul 1 (length three_rankings) = 3.
Proof. split; vm_compute; reflexivity. Qed.
