(* ===== verification/RankStream.v ===== *)
(** * Exact channel ranking: the k-way merge

    lib/segment/src/index/exact_rank_stream.rs.  [KWayExactScoreStream]
    restores one channel-global order from exact local score streams: each
    source is primed, the best pending head is emitted, and its source is
    refilled before the next winner is chosen.

    The file proves that over exact local streams the merge delivers the
    sorted union, batch by batch, so that it keeps the contract
    [ExactBatchStream] the fusion session asks of its sources; and that over
    arbitrary sources what it emits is sorted and free of duplicates, and a
    failure is never followed by a batch. *)

From S2P Require Import Prelude Float Order PointId RrfScoring RrfState RrfSession RrfExact.

Open Scope result_scope.

(** ** Data *)

Record ExactScoredIdentity : Type := mkExactScoredIdentity {
  es_id : ExtendedPointId;
  es_score : float;
}.

Record ExactScoreBatch : Type := mkExactScoreBatch {
  sb_points : list ExactScoredIdentity;
  sb_exhausted : bool;
}.

(** [Iterator<Item = OperationResult<ExactScoredIdentity>>] *)
Class ScoreStream (Q : Type) :=
  next_score : Q -> option (OperationResult ExactScoredIdentity) * Q.

(** [FnMut(usize) -> OperationResult<ExactScoreBatch>]; the closures of a
    merge may share the memory [W]. *)
Class ScoreBatchStream (W R : Type) :=
  pull_scores : W -> R -> nat -> OperationResult ExactScoreBatch * (R * W).

Inductive ExactScoreSource (Q R : Type) : Type :=
  | ScorePoint (stream : Q)
  | ScoreBatch (pull : R) (buffer : list ExactScoredIdentity) (exhausted : bool).

Arguments ScorePoint {Q R} stream.
Arguments ScoreBatch {Q R} pull buffer exhausted.

Record PendingExactScore : Type := mkPendingExactScore {
  pe_source : nat;
  pe_point : ExactScoredIdentity;
}.

(** [Ord for PendingExactScore] *)
Definition pending_cmp (a b : PendingExactScore) : comparison :=
  then_with (ordered_cmp (es_score (pe_point a)) (es_score (pe_point b)))
    (then_with (id_cmp (es_id (pe_point b)) (es_id (pe_point a)))
       (Nat.compare (pe_source b) (pe_source a))).

Definition exact_score_order (left right : ExactScoredIdentity) : comparison :=
  then_with (ordered_cmp (es_score right) (es_score left)) (id_cmp (es_id left) (es_id right)).

(** [kw_memory] is the shared memory as the merge last saw it. *)
Record KWayExactScoreStream (W Q R : Type) : Type := mkKWay {
  kw_sources : list (ExactScoreSource Q R);
  kw_memory : W;
  source_refill_batch_size : nat;
  kw_pending : list PendingExactScore;
  previous : list (option ExactScoredIdentity);
  refill_source : option nat;
  seen : gset ExtendedPointId;
  t_source_pulls : list nat;
  t_source_exhausted : list bool;
  points_emitted : nat;
  terminal_error : option OperationError;
  error_delivered : bool;
}.

Arguments mkKWay {W Q R}.
Arguments kw_sources {W Q R} _.
Arguments kw_memory {W Q R} _.
Arguments source_refill_batch_size {W Q R} _.
Arguments kw_pending {W Q R} _.
Arguments previous {W Q R} _.
Arguments refill_source {W Q R} _.
Arguments seen {W Q R} _.
Arguments t_source_pulls {W Q R} _.
Arguments t_source_exhausted {W Q R} _.
Arguments points_emitted {W Q R} _.
Arguments terminal_error {W Q R} _.
Arguments error_delivered {W Q R} _.

(** ** Operations *)

Section Merge.
Context {W Q R : Type} `{ScoreStream Q} `{ScoreBatchStream W R}.
Local Abbreviation kway := (KWayExactScoreStream W Q R).

Definition set_source (st : kway) (source : nat) (src : ExactScoreSource Q R) : kway :=
  {| kw_sources := <[source := src]> (kw_sources st); kw_memory := kw_memory st;
     source_refill_batch_size := source_refill_batch_size st;
     kw_pending := kw_pending st; previous := previous st;
     refill_source := refill_source st; seen := seen st;
     t_source_pulls := t_source_pulls st; t_source_exhausted := t_source_exhausted st;
     points_emitted := points_emitted st; terminal_error := terminal_error st;
     error_delivered := error_delivered st |}.

Definition with_memory (st : kway) (memory : W) : kway :=
  {| kw_sources := kw_sources st; kw_memory := memory;
     source_refill_batch_size := source_refill_batch_size st;
     kw_pending := kw_pending st; previous := previous st;
     refill_source := refill_source st; seen := seen st;
     t_source_pulls := t_source_pulls st; t_source_exhausted := t_source_exhausted st;
     points_emitted := points_emitted st; terminal_error := terminal_error st;
     error_delivered := error_delivered st |}.

(** The loop over the points of a refill batch. *)
Fixpoint check_score_batch (st_seen : gset ExtendedPointId) (prev : option ExactScoredIdentity)
    (batch_ids : gset ExtendedPointId) (points : list ExactScoredIdentity)
    : OperationResult unit :=
  match points with
  | [] => Ok tt
  | point :: points =>
      if negb (is_finite (es_score point)) then
        Err (ValidationError "exact score source {source} produced a non-finite score")
      else if match prev with
              | Some prev => match exact_score_order prev point with Gt => true | _ => false end
              | None => false
              end then
        Err (ValidationError
          "exact score source {source} violated descending score/identity order inside a batch")
      else if bool_decide (es_id point ∈ st_seen) || bool_decide (es_id point ∈ batch_ids) then
        Err (ValidationError
          "exact score source {source} repeated visible identity {} inside a batch")
      else check_score_batch st_seen (Some point) ({[es_id point]} ∪ batch_ids) points
  end.

(** The next point of a source, the source and the shared memory afterwards. *)
Definition next_of_source (st : kway) (source : nat) (src : ExactScoreSource Q R)
    : OperationResult (option ExactScoredIdentity) * (ExactScoreSource Q R * W) :=
  match src with
  | ScorePoint stream =>
      let '(item, stream') := next_score stream in
      (match item with
       | Some (Ok point) => Ok (Some point)
       | Some (Err e) => Err e
       | None => Ok None
       end, (ScorePoint stream', kw_memory st))
  | ScoreBatch pull buffer exhausted =>
      if bool_decide (buffer = []) && negb exhausted then
        let '(r, (pull', memory)) := pull_scores (kw_memory st) pull (source_refill_batch_size st) in
        let unchanged := (ScoreBatch pull' buffer exhausted, memory) in
        match r with
        | Err e => (Err e, unchanged)
        | Ok batch =>
            if source_refill_batch_size st <? length (sb_points batch) then
              (Err (ValidationError
                 "exact score source {source} returned {} points for a maximum refill size of {}"),
               unchanged)
            else if bool_decide (sb_points batch = []) && negb (sb_exhausted batch) then
              (Err (ValidationError
                 "exact score source {source} returned an empty non-exhausted batch"), unchanged)
            else
              match check_score_batch (seen st) (previous st).[source] ∅ (sb_points batch) with
              | Err e => (Err e, unchanged)
              | Ok _ =>
                  (Ok (head (sb_points batch)),
                   (ScoreBatch pull' (tail (sb_points batch)) (sb_exhausted batch), memory))
              end
        end
      else (Ok (head buffer), (ScoreBatch pull (tail buffer) exhausted, kw_memory st))
  end.

Definition mark_exhausted (st : kway) (source : nat) : kway :=
  {| kw_sources := kw_sources st; kw_memory := kw_memory st;
     source_refill_batch_size := source_refill_batch_size st;
     kw_pending := kw_pending st; previous := previous st;
     refill_source := refill_source st; seen := seen st;
     t_source_pulls := t_source_pulls st;
     t_source_exhausted := <[source := true]> (t_source_exhausted st);
     points_emitted := points_emitted st; terminal_error := terminal_error st;
     error_delivered := error_delivered st |}.

Definition push_pending (st : kway) (source : nat) (point : ExactScoredIdentity) : kway :=
  {| kw_sources := kw_sources st; kw_memory := kw_memory st;
     source_refill_batch_size := source_refill_batch_size st;
     kw_pending := heap_push {| pe_source := source; pe_point := point |} (kw_pending st);
     previous := <[source := Some point]> (previous st);
     refill_source := refill_source st; seen := seen st;
     t_source_pulls := <[source := S (t_source_pulls st).[source]]> (t_source_pulls st);
     t_source_exhausted := t_source_exhausted st;
     points_emitted := points_emitted st; terminal_error := terminal_error st;
     error_delivered := error_delivered st |}.

(** [source] is always the index of a source; indexing past the end, which
    would panic, is left out. *)
Definition refill (st : kway) (source : nat) : kway * OperationResult unit :=
  if (t_source_exhausted st).[source] then (st, Ok tt)
  else
    match kw_sources st !! source with
    | None => (st, Ok tt)
    | Some src =>
        let '(pulled, (src', memory)) := next_of_source st source src in
        let st := set_source (with_memory st memory) source src' in
        match pulled with
        | Err e => (st, Err e)
        | Ok None => (mark_exhausted st source, Ok tt)
        | Ok (Some point) =>
            if negb (is_finite (es_score point)) then
              (st, Err (ValidationError
                "exact score source {source} produced a non-finite score"))
            else if match (previous st).[source] with
                    | Some prev =>
                        match exact_score_order prev point with Gt => true | _ => false end
                    | None => false
                    end then
              (st, Err (ValidationError
                "exact score source {source} violated descending score/identity order"))
            else (push_pending st source point, Ok tt)
        end
    end.

Definition take_refill (st : kway) : kway :=
  {| kw_sources := kw_sources st; kw_memory := kw_memory st;
     source_refill_batch_size := source_refill_batch_size st;
     kw_pending := kw_pending st; previous := previous st;
     refill_source := None; seen := seen st;
     t_source_pulls := t_source_pulls st; t_source_exhausted := t_source_exhausted st;
     points_emitted := points_emitted st; terminal_error := terminal_error st;
     error_delivered := error_delivered st |}.

(** Pop the best pending point; its source is to be refilled. *)
Definition pop_pending (st : kway) : option (PendingExactScore * kway) :=
  '(pending, rest) ← heap_pop pending_cmp (kw_pending st);
  Some (pending,
    {| kw_sources := kw_sources st; kw_memory := kw_memory st;
     source_refill_batch_size := source_refill_batch_size st;
       kw_pending := rest; previous := previous st;
       refill_source := Some (pe_source pending); seen := seen st;
       t_source_pulls := t_source_pulls st; t_source_exhausted := t_source_exhausted st;
       points_emitted := points_emitted st; terminal_error := terminal_error st;
       error_delivered := error_delivered st |}).

Definition emit (st : kway) (id : ExtendedPointId) : kway :=
  {| kw_sources := kw_sources st; kw_memory := kw_memory st;
     source_refill_batch_size := source_refill_batch_size st;
     kw_pending := kw_pending st; previous := previous st;
     refill_source := refill_source st; seen := {[id]} ∪ seen st;
     t_source_pulls := t_source_pulls st; t_source_exhausted := t_source_exhausted st;
     points_emitted := S (points_emitted st); terminal_error := terminal_error st;
     error_delivered := error_delivered st |}.

Definition next_inner (st : kway)
    : kway * OperationResult (option ExactScoredIdentity) :=
  let '(st, refilled) :=
    match refill_source st with
    | Some source => refill (take_refill st) source
    | None => (st, Ok tt)
    end in
  match refilled with
  | Err e => (st, Err e)
  | Ok _ =>
      match pop_pending st with
      | None => (st, Ok None)
      | Some (pending, st) =>
          let point := pe_point pending in
          if decide (es_id point ∈ seen st) then
            (st, Err (ValidationError
               "exact score merge observed duplicate visible identity {}"))
          else (emit st (es_id point), Ok (Some point))
      end
  end.

(** [fail], and the flag that the iterator sets with it. *)
Definition fail (st : kway) (error : OperationError) (delivered : bool) : kway :=
  {| kw_sources := kw_sources st; kw_memory := kw_memory st;
     source_refill_batch_size := source_refill_batch_size st;
     kw_pending := []; previous := previous st; refill_source := None; seen := seen st;
     t_source_pulls := t_source_pulls st; t_source_exhausted := t_source_exhausted st;
     points_emitted := points_emitted st; terminal_error := Some error;
     error_delivered := delivered |}.

(** The loop of [next_rank_batch], [n] identities to go. *)
Fixpoint rank_batch_loop (n : nat) (st : kway) (ids : list ExtendedPointId)
    : kway * OperationResult (list ExtendedPointId * bool) :=
  match n with
  | 0 => (st, Ok (ids, false))
  | S n =>
      match next_inner st with
      | (st, Ok (Some point)) => rank_batch_loop n st (ids ++ [es_id point])
      | (st, Ok None) => (st, Ok (ids, true))
      | (st, Err e) => (fail st e (error_delivered st), Err e)
      end
  end.

Definition next_rank_batch (st : kway) (max_results : nat)
    : OperationResult ChannelRankBatch * kway :=
  if decide (max_results = 0) then
    (Err (ValidationError "exact score merge batch size must be positive"), st)
  else
    match terminal_error st with
    | Some error => (Err error, st)
    | None =>
        match rank_batch_loop max_results st [] with
        | (st', Err e) => (Err e, st')
        | (st', Ok (ids, exhausted)) =>
            (Ok {| start_rank := points_emitted st; point_ids := ids;
                   batch_exhausted := exhausted |}, st')
        end
    end.

Definition set_delivered (st : kway) : kway :=
  {| kw_sources := kw_sources st; kw_memory := kw_memory st;
     source_refill_batch_size := source_refill_batch_size st;
     kw_pending := kw_pending st; previous := previous st;
     refill_source := refill_source st; seen := seen st;
     t_source_pulls := t_source_pulls st; t_source_exhausted := t_source_exhausted st;
     points_emitted := points_emitted st; terminal_error := terminal_error st;
     error_delivered := true |}.

(** [Iterator::next] *)
Definition kway_next (st : kway) : option (OperationResult ExactScoredIdentity) * kway :=
  match terminal_error st with
  | Some error =>
      if error_delivered st then (None, st) else (Some (Err error), set_delivered st)
  | None =>
      match next_inner st with
      | (st, Ok (Some point)) => (Some (Ok point), st)
      | (st, Ok None) => (None, st)
      | (st, Err e) => (Some (Err e), fail st e true)
      end
  end.

Fixpoint prime (st : kway) (sources : list nat) : kway * OperationResult unit :=
  match sources with
  | [] => (st, Ok tt)
  | source :: sources =>
      match refill st source with
      | (st, Ok _) => prime st sources
      | (st, Err e) => (st, Err e)
      end
  end.

Definition kway_start (sources : list (ExactScoreSource Q R)) (memory : W) (batch : nat) : kway :=
  let n := length sources in
  {| kw_sources := sources; kw_memory := memory; source_refill_batch_size := batch;
     kw_pending := [];
     previous := replicate n None; refill_source := None; seen := ∅;
     t_source_pulls := replicate n 0; t_source_exhausted := replicate n false;
     points_emitted := 0; terminal_error := None; error_delivered := false |}.

(** [new_with_sources], with the memory it leaves behind. *)
Definition open_sources (sources : list (ExactScoreSource Q R)) (memory : W) (batch : nat)
    : OperationResult kway * W :=
  if decide (sources = []) then
    (Err (ValidationError "exact score merge requires at least one source"), memory)
  else if decide (batch = 0) then
    (Err (ValidationError "exact score merge source refill batch size must be positive"), memory)
  else
    match prime (kway_start sources memory batch) (seq 0 (length sources)) with
    | (st, Ok _) => (Ok st, kw_memory st)
    | (st, Err e) => (Err e, kw_memory st)
    end.

Definition new_with_sources (sources : list (ExactScoreSource Q R)) (memory : W) (batch : nat)
    : OperationResult kway :=
  (open_sources sources memory batch).1.

Definition kway_new (sources : list Q) (memory : W) : OperationResult kway :=
  new_with_sources (ScorePoint <$> sources) memory 1.

Definition kway_new_batched (sources : list R) (memory : W) (batch : nat)
    : OperationResult kway * W :=
  open_sources ((fun pull => ScoreBatch pull [] false) <$> sources) memory batch.

(** [into_rank_stream]: the merge as a stream of identities. *)
#[export] Instance kway_PointStream : PointStream kway := fun st =>
  let '(item, st) := kway_next st in
  (match item with
   | Some (Ok point) => Some (Ok (es_id point))
   | Some (Err e) => Some (Err e)
   | None => None
   end, st).

(** [next_rank_batch] as a batch source of a session. *)
#[export] Instance kway_BatchStream : BatchStream W kway := fun memory st n =>
  let '(r, st) := next_rank_batch (with_memory st memory) n in (r, (st, kw_memory st)).
End Merge.

(** ** Orders *)

#[export] Instance exact_score_order_TotalCmp : TotalCmp exact_score_order.
Proof.
  apply TotalCmp_then.
  - apply (TotalCmp_flip (fun a b => ordered_cmp (es_score a) (es_score b))).
    apply (TotalCmp_key ordered_cmp es_score), _.
  - apply (TotalCmp_key id_cmp es_id), _.
Qed.

#[export] Instance pending_cmp_TotalCmp : TotalCmp pending_cmp.
Proof.
  apply TotalCmp_then; [|apply TotalCmp_then].
  - apply (TotalCmp_key ordered_cmp (fun p => es_score (pe_point p))), _.
  - apply (TotalCmp_flip (fun a b => id_cmp (es_id (pe_point a)) (es_id (pe_point b)))).
    apply (TotalCmp_key id_cmp (fun p => es_id (pe_point p))), _.
  - apply (TotalCmp_flip (fun a b => Nat.compare (pe_source a) (pe_source b))).
    apply (TotalCmp_key Nat.compare pe_source), _.
Qed.

(** The greatest pending point comes first in the channel order. *)
Lemma pending_cmp_order a b :
  pending_cmp a b <> Gt -> exact_score_order (pe_point b) (pe_point a) <> Gt.
Proof.
  unfold pending_cmp, exact_score_order, then_with.
  destruct (ordered_cmp (es_score (pe_point a)) (es_score (pe_point b))); [|done|done].
  by destruct (id_cmp _ _).
Qed.

Lemma exact_score_order_eq_id a b : exact_score_order a b = Eq -> es_id a = es_id b.
Proof.
  unfold exact_score_order, then_with. destruct (ordered_cmp _ _); [|done|done].
  apply id_cmp_eq.
Qed.

(** ** Exact local streams *)

(** A score stream that still has exactly [rest] to deliver. *)
Class ExactScores (Q : Type) `{ScoreStream Q} := {
  score_rest : Q -> list ExactScoredIdentity -> Prop;
  score_rest_next q rest : score_rest q rest ->
    match rest with
    | [] => exists q', next_score q = (None, q')
    | p :: rest => exists q', next_score q = (Some (Ok p), q') /\ score_rest q' rest
    end;
}.

(** A batch of what is left, recorded in the shared memory. *)
Class ExactScoreBatches (W R : Type) `{SharedMemory W} `{ScoreBatchStream W R} := {
  scores_rest : W -> R -> list ExactScoredIdentity -> Prop;
  scores_rest_step w w' r rest :
    shared_step w w' -> scores_rest w r rest -> scores_rest w' r rest;
  scores_rest_pull w r rest n : scores_rest w r rest -> 1 <= n ->
    exists ps rest' e r' w',
      pull_scores w r n = (Ok {| sb_points := ps; sb_exhausted := e |}, (r', w')) /\
      rest = ps ++ rest' /\ length ps <= n /\ (ps = [] -> e = true) /\
      (if e then rest' = [] else scores_rest w' r' rest') /\
      shared_step w w' /\ Forall (fun p => recorded w' (es_id p)) ps;
}.

(** The rankings of the sources as the merge needs them. *)
Record mergeable (lines : list (list ExactScoredIdentity)) : Prop := {
  lines_sorted : Forall (StronglySorted (cmp_le exact_score_order)) lines;
  lines_finite : Forall (fun p => is_finite (es_score p) = true) (concat lines);
  lines_ids : NoDup (es_id <$> concat lines);
}.

(** The channel-global order. *)
Definition merged (lines : list (list ExactScoredIdentity)) : list ExactScoredIdentity :=
  sort_by exact_score_order (concat lines).

Section Exact.
Context {W Q R : Type} `{ExactScores Q} `{ExactScoreBatches W R}.
Local Abbreviation kway := (KWayExactScoreStream W Q R).
Implicit Types (st : kway) (lines : list (list ExactScoredIdentity)) (U : gset nat).

(** What a source still delivers; points that no pull will record have to be
    recorded already. *)
Definition src_rest (w : W) (src : ExactScoreSource Q R) (rest : list ExactScoredIdentity)
    : Prop :=
  match src with
  | ScorePoint q => score_rest q rest /\ Forall (fun p => recorded w (es_id p)) rest
  | ScoreBatch pull buffer e =>
      exists rest', rest = buffer ++ rest' /\ Forall (fun p => recorded w (es_id p)) buffer /\
        if e then rest' = [] else scores_rest w pull rest'
  end.

Lemma Forall_recorded_step w w' (ps : list ExactScoredIdentity) :
  shared_step w w' -> Forall (fun p => recorded w (es_id p)) ps ->
  Forall (fun p => recorded w' (es_id p)) ps.
Proof. intros Hw Hp. eapply Forall_impl; [done |]. intros p. by apply recorded_step. Qed.

Lemma src_rest_step w w' src rest :
  shared_step w w' -> src_rest w src rest -> src_rest w' src rest.
Proof.
  intros Hw. destruct src as [q|pull buffer e]; simpl.
  - intros [? ?]. split; [done | by apply (Forall_recorded_step w)].
  - intros (rest' & -> & Hb & Hr). exists rest'.
    split_and!; [done | by apply (Forall_recorded_step w) |]. destruct e; [done |].
    by apply (scores_rest_step w).
Qed.

(** The merge has [lines] left; the heads of the sources in [U] are not
    pending yet. *)
Record holds st U lines : Prop := {
  h_lines : length lines = length (kw_sources st);
  h_exhausted : length (t_source_exhausted st) = length (kw_sources st);
  h_previous : length (previous st) = length (kw_sources st);
  h_batch : 1 <= source_refill_batch_size st;
  h_error : terminal_error st = None;
  h_pending_nodup : NoDup (pe_source <$> kw_pending st);
  h_pending : forall i p, mkPendingExactScore i p ∈ kw_pending st <->
    (i ∉ U) /\ exists l, lines !! i = Some (p :: l);
  h_source : forall i src l, kw_sources st !! i = Some src -> lines !! i = Some l ->
    if (t_source_exhausted st).[i] then l = []
    else src_rest (kw_memory st) src (if decide (i ∈ U) then l else tail l);
  h_order : forall i p l, previous st !! i = Some (Some p) -> lines !! i = Some l ->
    Forall (fun q => exact_score_order p q <> Gt) l;
  h_recorded : forall x, x ∈ kw_pending st -> recorded (kw_memory st) (es_id (pe_point x));
  h_mergeable : mergeable lines;
  h_seen : forall p, p ∈ concat lines -> es_id p ∉ seen st;
}.

Lemma check_score_batch_ok st_seen prev batch_ids ps :
  Forall (fun p => is_finite (es_score p) = true) ps ->
  StronglySorted (cmp_le exact_score_order) ps ->
  (forall p, prev = Some p -> Forall (fun q => exact_score_order p q <> Gt) ps) ->
  NoDup (es_id <$> ps) ->
  (forall p, p ∈ ps -> (es_id p ∉ st_seen) /\ (es_id p ∉ batch_ids)) ->
  check_score_batch st_seen prev batch_ids ps = Ok tt.
Proof.
  revert prev batch_ids. induction ps as [|p ps IH]; intros prev ids Hf Hs Hp Hn Hd; [done |].
  simpl. apply Forall_cons in Hf as [Hf1 Hf2]. rewrite Hf1. simpl.
  apply StronglySorted_inv in Hs as [Hs1 Hs2]. apply NoDup_cons in Hn as [Hn1 Hn2].
  replace (match prev with Some _ => _ | None => false end) with false.
  2:{ destruct prev as [q|]; [|done]. specialize (Hp q eq_refl).
      apply Forall_cons in Hp as [Hp _]. by destruct (exact_score_order q p). }
  destruct (Hd p) as [Hd1 Hd2]; [left |].
  rewrite !bool_decide_eq_false_2 by done. simpl. apply IH; try done.
  - by intros q [= <-].
  - intros q Hq. destruct (Hd q) as [Hq1 Hq2]; [by right |]. split; [done |].
    intros [E%elem_of_singleton|?]%elem_of_union; [|done].
    apply Hn1. rewrite <- E. by apply list_elem_of_fmap_2.
Qed.

(** What [mergeable] says of one source. *)
Lemma mergeable_line lines i l :
  mergeable lines -> lines !! i = Some l ->
  StronglySorted (cmp_le exact_score_order) l /\
  Forall (fun p => is_finite (es_score p) = true) l /\ NoDup (es_id <$> l) /\
  l ⊆ concat lines.
Proof.
  intros [Hs Hf Hn] Hl.
  assert (Hsub : l ⊆ concat lines) by (intros p Hp; apply elem_of_concat; eauto).
  split_and!; [by eapply Forall_lookup_1 | | | done].
  - apply Forall_forall. intros p Hp. rewrite Forall_forall in Hf. by apply Hf, Hsub.
  - rewrite <- (take_drop_middle lines i l Hl), concat_app in Hn. simpl in Hn.
    rewrite !fmap_app in Hn. apply NoDup_app in Hn as (_ & _ & Hn).
    by apply NoDup_app in Hn as (? & _).
Qed.

Lemma StronglySorted_app_l {A} (Rl : A -> A -> Prop) (l1 l2 : list A) :
  StronglySorted Rl (l1 ++ l2) -> StronglySorted Rl l1.
Proof.
  induction l1 as [|x l1 IH]; simpl; [constructor |].
  intros [Hs Hf]%StronglySorted_inv. constructor; [auto |]. by apply Forall_app in Hf as [? _].
Qed.

(** What other users of the shared memory do to it changes nothing. *)
Lemma holds_step st U lines w :
  holds st U lines -> shared_step (kw_memory st) w -> holds (with_memory st w) U lines.
Proof.
  intros [] Hw. split; try done; simpl.
  - intros i src l Hi Hl. specialize (h_source0 i src l Hi Hl).
    destruct ((t_source_exhausted st).[i]); [done |]. by apply (src_rest_step (kw_memory st)).
  - intros x Hx. apply (recorded_step (kw_memory st)); [done | by apply h_recorded0].
Qed.

(** The next point of a source that holds [l]. *)
Lemma next_of_source_exact st U lines i src l :
  holds st U lines -> kw_sources st !! i = Some src -> lines !! i = Some l ->
  src_rest (kw_memory st) src l ->
  exists src' w', next_of_source st i src = (Ok (head l), (src', w')) /\
    (l <> [] -> src_rest w' src' (tail l)) /\ shared_step (kw_memory st) w' /\
    (forall p, head l = Some p -> recorded w' (es_id p)).
Proof.
  intros Hd Hsrc Hl Hr. destruct src as [q|pull buffer e]; simpl in *.
  - destruct Hr as [Hr Hc]. apply score_rest_next in Hr. destruct l as [|p l].
    + destruct Hr as [q' ->]. by exists (ScorePoint q'), (kw_memory st).
    + destruct Hr as (q' & -> & Hr). apply Forall_cons in Hc as [Hc Hc'].
      exists (ScorePoint q'), (kw_memory st). split_and!; try done. by intros p' [= <-].
  - destruct Hr as (rest & -> & Hb & Hr). destruct buffer as [|p buffer].
    2:{ apply Forall_cons in Hb as [Hb1 Hb2]. rewrite bool_decide_eq_false_2 by done. simpl.
        do 2 eexists. split; [done |]. split_and!; [|done | by intros p' [= <-]].
        intros _. simpl. eauto. }
    rewrite bool_decide_eq_true_2 by done. destruct e; simpl.
    { subst rest. do 2 eexists. split; [done |]. done. }
    apply (scores_rest_pull (kw_memory st) pull rest (source_refill_batch_size st)) in Hr
      as (ps & rest' & e & r' & w' & -> & -> & Hlen & Hne & Hr & Hw & Hc); [|apply Hd]. simpl.
    destruct (Nat.ltb_spec (source_refill_batch_size st) (length ps)); [lia |].
    replace (bool_decide (ps = []) && negb e) with false.
    2:{ case_bool_decide; [by rewrite Hne | done]. }
    destruct (mergeable_line lines i (ps ++ rest') (h_mergeable _ _ _ Hd) Hl)
      as (Hs & Hf & Hn & Hsub).
    rewrite check_score_batch_ok.
    + exists (ScoreBatch r' (tail ps) e), w'.
      destruct ps as [|p ps]; [by rewrite Hne in Hr; simplify_eq/= |].
      apply Forall_cons in Hc as [Hc1 Hc2]. split_and!; try done; [|by intros p' [= <-]].
      intros Hx. simpl. by exists rest'.
    + by apply Forall_app in Hf as [? _].
    + by eapply StronglySorted_app_l.
    + intros p Hp. eapply (Forall_app _ ps rest'). eapply (h_order _ _ _ Hd); [|done].
      rewrite lookup_index; [by f_equal |]. rewrite (h_previous _ _ _ Hd).
      by eapply lookup_lt_Some.
    + rewrite fmap_app in Hn. by apply NoDup_app in Hn as (? & _).
    + intros p Hp. split; [|set_solver]. apply (h_seen _ _ _ Hd), Hsub. set_solver.
Qed.

(** The parts of the state a refill leaves alone. *)
Definition same_output st st' : Prop :=
  shared_step (kw_memory st) (kw_memory st') /\
  refill_source st' = refill_source st /\ seen st' = seen st /\
  points_emitted st' = points_emitted st.

Lemma decide_other {A} U i j (a b : A) :
  j <> i -> (if decide (j ∈ U ∖ {[i]}) then a else b) = (if decide (j ∈ U) then a else b).
Proof. intros Hj. destruct (decide (j ∈ U)); [rewrite decide_True | rewrite decide_False]; set_solver. Qed.

(** A source that has nothing left needs no pending head. *)
Lemma pending_empty_line st U lines i :
  holds st U lines -> lines !! i = Some [] ->
  forall j p, mkPendingExactScore j p ∈ kw_pending st <->
    (j ∉ U ∖ {[i]}) /\ exists l, lines !! j = Some (p :: l).
Proof.
  intros Hd Hl j p. rewrite (h_pending _ _ _ Hd).
  split; intros [Hj (l & Hjl)]; (split; [|eauto]); [set_solver |].
  intros HjU. destruct (decide (j = i)) as [->|]; [congruence | set_solver].
Qed.

Lemma holds_skip st U lines i :
  holds st U lines -> lines !! i = Some [] -> (t_source_exhausted st).[i] = true ->
  holds st (U ∖ {[i]}) lines.
Proof.
  intros Hd Hl Hx. pose proof (pending_empty_line st U lines i Hd Hl). destruct Hd.
  split; try done. intros j src l Hj1 Hj2. specialize (h_source0 j src l Hj1 Hj2).
  destruct ((t_source_exhausted st).[j]) eqn:Ej; [done |].
  rewrite decide_other by congruence. done.
Qed.

Lemma holds_mark st U lines i src :
  holds st U lines -> lines !! i = Some [] ->
  holds (mark_exhausted (set_source st i src) i) (U ∖ {[i]}) lines.
Proof.
  intros Hd Hl. pose proof (pending_empty_line st U lines i Hd Hl). destruct Hd.
  split; simpl; rewrite ?length_insert; try done.
  intros j src' l Hj1 Hj2. rewrite list_lookup_insert in Hj1.
  destruct (decide (i = j)) as [<-|Hne].
  - assert (l = []) as -> by congruence. apply lookup_lt_Some in Hj2.
    rewrite (index_lookup _ _ true); [done |]. apply list_lookup_insert_eq. lia.
  - rewrite decide_False in Hj1 by tauto. specialize (h_source0 j src' l Hj1 Hj2).
    unfold index in *. rewrite list_lookup_total_insert_ne by done.
    rewrite decide_other by done. done.
Qed.

Lemma holds_push st U lines i src p l :
  holds st U lines -> lines !! i = Some (p :: l) -> i ∈ U -> src_rest (kw_memory st) src l ->
  recorded (kw_memory st) (es_id p) ->
  (t_source_exhausted st).[i] = false ->
  holds (push_pending (set_source st i src) i p) (U ∖ {[i]}) lines.
Proof.
  intros Hd Hl Hi Hr Hc Hx.
  destruct (mergeable_line lines i _ (h_mergeable _ _ _ Hd) Hl) as (Hso & _).
  assert (Hlt : i < length (kw_sources st))
    by (rewrite <- (h_lines _ _ _ Hd); by eapply lookup_lt_Some).
  destruct Hd. split; simpl; rewrite ?length_insert; try done.
  - apply NoDup_cons. split; [|done]. intros ([j q] & E & Hq)%list_elem_of_fmap.
    simpl in E. subst j. apply h_pending0 in Hq as [? _]. done.
  - intros j q. unfold heap_push. rewrite elem_of_cons, h_pending0. split.
    + intros [[= -> ->]|[Hj Hq]]; split; [set_solver | eauto | set_solver | done].
    + intros [Hj (l' & Hq)]. destruct (decide (j = i)) as [->|Hne].
      * left. congruence.
      * right. split; [set_solver | eauto].
  - intros j src' l' Hj1 Hj2. rewrite list_lookup_insert in Hj1.
    destruct (decide (i = j)) as [<-|Hne].
    + rewrite decide_True in Hj1 by (split; [done | lia]). rewrite Hx.
      rewrite decide_False by set_solver. by simplify_eq.
    + rewrite decide_False in Hj1 by tauto. specialize (h_source0 j src' l' Hj1 Hj2).
      rewrite decide_other by done. done.
  - intros j q l' Hj1 Hj2. rewrite list_lookup_insert in Hj1.
    destruct (decide (i = j)) as [<-|Hne].
    + rewrite decide_True in Hj1 by (split; [done | lia]). simplify_eq.
      apply StronglySorted_inv in Hso as [_ Hso]. constructor; [|exact Hso].
      by rewrite (cmp_refl exact_score_order).
    + rewrite decide_False in Hj1 by tauto. by eapply h_order0.
  - intros x [->|Hx']%elem_of_cons; [done | by apply h_recorded0].
Qed.

Lemma refill_exact st U lines i :
  holds st U lines -> i ∈ U -> i < length lines ->
  exists st', refill st i = (st', Ok tt) /\ holds st' (U ∖ {[i]}) lines /\
    same_output st st'.
Proof.
  intros Hd Hi Hlt. unfold refill.
  destruct (lookup_lt_is_Some_2 lines i Hlt) as [l Hl].
  destruct (lookup_lt_is_Some_2 (kw_sources st) i) as [src Hsrc];
    [by rewrite <- (h_lines _ _ _ Hd) |].
  pose proof (h_source _ _ _ Hd i src l Hsrc Hl) as Hs. rewrite decide_True in Hs by done.
  destruct ((t_source_exhausted st).[i]) eqn:Ex.
  { subst l. exists st. split; [done |]. split; [by apply holds_skip | done]. }
  rewrite Hsrc.
  destruct (next_of_source_exact st U lines i src l Hd Hsrc Hl Hs) as (src' & w' & -> & Hr' & Hw & Hc).
  pose proof (holds_step st U lines w' Hd Hw) as Hd'.
  destruct (mergeable_line lines i l (h_mergeable _ _ _ Hd) Hl) as (_ & Hf & _ & _).
  destruct l as [|p l]; simpl.
  { eexists. split; [done |]. split; [by apply holds_mark | done]. }
  apply Forall_cons in Hf as [Hf _]. rewrite Hf. simpl.
  replace (match (previous st).[i] with Some _ => _ | None => false end) with false.
  - eexists. split; [done |]. split; [|done]. apply holds_push with l; try done; [by apply Hr' | by apply Hc].
  - destruct ((previous st).[i]) as [q|] eqn:Ep; [|done].
    assert (previous st !! i = Some (Some q)) as Hq.
    { rewrite lookup_index, Ep; [done |]. rewrite (h_previous _ _ _ Hd).
      by eapply lookup_lt_Some. }
    pose proof (h_order _ _ _ Hd i q _ Hq Hl) as Ho. apply Forall_cons in Ho as [Ho _].
    by destruct (exact_score_order q p).
Qed.

(** *** Emission *)

Lemma NoDup_fmap_eq {A B} (f : A -> B) (l : list A) x y :
  NoDup (f <$> l) -> x ∈ l -> y ∈ l -> f x = f y -> x = y.
Proof.
  intros N [i Hi]%list_elem_of_lookup [j Hj]%list_elem_of_lookup E.
  assert (i = j) as ->; [|congruence]. eapply (NoDup_lookup (f <$> l)); [done | |].
  - by rewrite list_lookup_fmap, Hi.
  - by rewrite list_lookup_fmap, Hj, E.
Qed.

Definition unfilled st : gset nat :=
  match refill_source st with Some r => {[r]} | None => ∅ end.

(** Between calls: the merge has [lines] left. *)
Definition ready st lines : Prop :=
  holds st (unfilled st) lines /\ forall r, refill_source st = Some r -> r < length lines.

Lemma concat_pop {A} (ls : list (list A)) i p l :
  ls !! i = Some (p :: l) -> concat ls ≡ₚ p :: concat (<[i := l]> ls).
Proof.
  revert i. induction ls as [|l' ls IH]; intros [|i] E; simplify_eq/=; [done |].
  rewrite (IH i E). by rewrite Permutation_middle.
Qed.

Lemma mergeable_pop lines i p l :
  mergeable lines -> lines !! i = Some (p :: l) ->
  mergeable (<[i := l]> lines) /\
  forall q, q ∈ concat (<[i := l]> lines) -> es_id q <> es_id p.
Proof.
  intros [Hs Hf Hn] Hl. pose proof (concat_pop _ _ _ _ Hl) as Hp.
  rewrite Hp in Hf, Hn. apply Forall_cons in Hf as [_ Hf].
  apply NoDup_cons in Hn as [Hn1 Hn2]. split.
  - split; [|done|done]. apply Forall_insert; [done |].
    eapply Forall_lookup_1 in Hs; [|done]. by apply StronglySorted_inv in Hs as [? _].
  - intros q Hq E. apply Hn1. rewrite <- E. by apply list_elem_of_fmap_2.
Qed.

Lemma holds_pop st lines i p l pend :
  holds st ∅ lines -> lines !! i = Some (p :: l) ->
  kw_pending st ≡ₚ mkPendingExactScore i p :: pend ->
  forall st', st' = emit {| kw_sources := kw_sources st; kw_memory := kw_memory st;
       source_refill_batch_size := source_refill_batch_size st;
       kw_pending := pend; previous := previous st;
       refill_source := Some i; seen := seen st;
       t_source_pulls := t_source_pulls st; t_source_exhausted := t_source_exhausted st;
       points_emitted := points_emitted st; terminal_error := terminal_error st;
       error_delivered := error_delivered st |} (es_id p) ->
  holds st' {[i]} (<[i := l]> lines).
Proof.
  intros Hd Hl Hp st' ->.
  destruct (mergeable_pop lines i p l (h_mergeable _ _ _ Hd) Hl) as [Hm Hid].
  pose proof (concat_pop _ _ _ _ Hl) as Hc. destruct Hd.
  rewrite Hp in h_pending_nodup0. apply NoDup_cons in h_pending_nodup0 as [Hn1 Hn2].
  split; simpl; rewrite ?length_insert; try done.
  - intros j q. destruct (decide (j = i)) as [->|Hj].
    + split; [|set_solver]. intros Hq. exfalso. apply Hn1.
      by apply (list_elem_of_fmap_2 pe_source _ (mkPendingExactScore i q)).
    + rewrite list_lookup_insert_ne by done. split.
      * intros Hq. split; [set_solver |]. apply h_pending0. rewrite Hp. by right.
      * intros [_ Hq]. assert (mkPendingExactScore j q ∈ kw_pending st) as Hin
          by (apply h_pending0; split; [set_solver | done]).
        rewrite Hp in Hin. apply elem_of_cons in Hin as [[= ? ?]|]; done.
  - intros j src l' Hj1 Hj2. destruct (decide (j = i)) as [->|Hj].
    + rewrite list_lookup_insert_eq in Hj2 by (by eapply lookup_lt_Some). simplify_eq.
      specialize (h_source0 i src _ Hj1 Hl). destruct ((t_source_exhausted st).[i]); [done |].
      rewrite decide_False in h_source0 by set_solver. by rewrite decide_True by set_solver.
    + rewrite list_lookup_insert_ne in Hj2 by done.
      specialize (h_source0 j src l' Hj1 Hj2). destruct ((t_source_exhausted st).[j]); [done |].
      rewrite decide_False in h_source0 by set_solver. by rewrite decide_False by set_solver.
  - intros j q l' Hj1 Hj2. destruct (decide (j = i)) as [->|Hj].
    + rewrite list_lookup_insert_eq in Hj2 by (by eapply lookup_lt_Some). simplify_eq.
      specialize (h_order0 i q _ Hj1 Hl). by apply Forall_cons in h_order0 as [_ ?].
    + rewrite list_lookup_insert_ne in Hj2 by done. by eapply h_order0.
  - intros x Hx. apply h_recorded0. rewrite Hp. by right.
  - intros q Hq. specialize (Hid q Hq).
    assert (es_id q ∉ seen st) by (apply h_seen0; rewrite Hc; by right). set_solver.
Qed.

(** The popped point heads the channel order of what is left. *)
Lemma pop_is_least st lines i p pend :
  holds st ∅ lines ->
  heap_pop pending_cmp (kw_pending st) = Some (mkPendingExactScore i p, pend) ->
  exists l, lines !! i = Some (p :: l) /\ merged lines = p :: merged (<[i := l]> lines).
Proof.
  intros Hd Hpop. destruct (heap_pop_spec pending_cmp _ _ _ Hpop) as [Hp Hmax].
  assert (mkPendingExactScore i p ∈ kw_pending st) as Hin by (rewrite Hp; left).
  apply (h_pending _ _ _ Hd) in Hin as [_ [l Hl]]. exists l. split; [done |].
  pose proof (concat_pop _ _ _ _ Hl) as Hc. unfold merged.
  destruct (mergeable_pop lines i p l (h_mergeable _ _ _ Hd) Hl) as [_ Hid].
  destruct (sorted_head exact_score_order p (sort_by exact_score_order (concat lines))
    (concat (<[i := l]> lines))) as (l'' & E & Hperm).
  - apply sort_by_sorted, _.
  - by rewrite sort_by_perm.
  - intros q Hq.
    assert (Hle : exact_score_order p q <> Gt).
    { assert (q ∈ concat lines) as (j & lj & Hj & Hqj)%elem_of_concat
        by (rewrite Hc; by right).
      destruct (mergeable_line lines j lj (h_mergeable _ _ _ Hd) Hj) as (Hs & _).
      destruct lj as [|hd lj]; [by apply elem_of_nil in Hqj |].
      assert (mkPendingExactScore j hd ∈ kw_pending st) as Hh
        by (apply (h_pending _ _ _ Hd); split; [set_solver | eauto]).
      apply Hmax, pending_cmp_order in Hh. simpl in Hh.
      apply elem_of_cons in Hqj as [->|Hqj]; [done |].
      apply StronglySorted_inv in Hs as [_ Hs]. rewrite Forall_forall in Hs.
      eapply (cmp_trans exact_score_order); [done |]. by apply Hs. }
    destruct (exact_score_order p q) eqn:Eo; [|done|done].
    apply exact_score_order_eq_id in Eo. by destruct (Hid q Hq).
  - rewrite E. f_equal. apply (sorted_unique exact_score_order).
    + intros x y Hx Hy Exy%exact_score_order_eq_id. rewrite Hperm in Hx, Hy.
      apply (NoDup_fmap_eq es_id (concat (<[i := l]> lines))); try done.
      apply (mergeable_pop lines i p l (h_mergeable _ _ _ Hd) Hl).
    + pose proof (sort_by_sorted exact_score_order (concat lines)) as Hs.
      rewrite E in Hs. by apply StronglySorted_inv in Hs as [? _].
    + apply sort_by_sorted, _.
    + by rewrite sort_by_perm.
Qed.

Lemma next_inner_exact st lines :
  ready st lines ->
  exists st', shared_step (kw_memory st) (kw_memory st') /\ match merged lines with
  | [] => next_inner st = (st', Ok None) /\ ready st' lines /\
      points_emitted st' = points_emitted st
  | p :: rest => next_inner st = (st', Ok (Some p)) /\ recorded (kw_memory st') (es_id p) /\
      exists lines', ready st' lines' /\ merged lines' = rest /\
      points_emitted st' = S (points_emitted st)
  end.
Proof.
  intros [Hd Hr]. unfold next_inner.
  assert (exists st1, match refill_source st with
      | Some source => refill (take_refill st) source
      | None => (st, Ok tt)
      end = (st1, Ok tt) /\ holds st1 ∅ lines /\ refill_source st1 = None /\
      points_emitted st1 = points_emitted st /\ shared_step (kw_memory st) (kw_memory st1))
    as (st1 & -> & Hd1 & Hr1 & Ee & Hw).
  { unfold unfilled in Hd. destruct (refill_source st) as [r|] eqn:Er.
    - destruct (refill_exact (take_refill st) {[r]} lines r)
        as (st1 & E & Hd1 & Hw & Hs1 & _ & He).
      + destruct Hd. by split.
      + set_solver.
      + by apply Hr.
      + exists st1. rewrite difference_diag_L in Hd1. done.
    - by exists st. }
  unfold pop_pending. destruct (heap_pop pending_cmp (kw_pending st1)) as [[[i p] pend]|] eqn:Epop.
  - destruct (pop_is_least st1 lines i p pend Hd1 Epop) as (l & Hl & Em).
    destruct (heap_pop_spec pending_cmp _ _ _ Epop) as [Hp _]. simpl.
    rewrite decide_False.
    2:{ apply (h_seen _ _ _ Hd1), elem_of_concat. exists i, (p :: l). split; [done | left]. }
    rewrite Em. eexists. split; [|split; [done |]]; [done |]. split.
    { apply (h_recorded _ _ _ Hd1 (mkPendingExactScore i p)). rewrite Hp. left. }
    exists (<[i := l]> lines). split_and!; [|done| by simpl; rewrite Ee]. split.
    + unfold unfilled. simpl. by eapply holds_pop.
    + simpl. intros r [= <-]. rewrite length_insert. by eapply lookup_lt_Some.
  - apply heap_pop_None in Epop.
    assert (merged lines = []) as ->.
    { unfold merged. assert (concat lines = []) as ->; [|done].
      apply elem_of_nil_inv. intros q (i & l & Hl & Hq)%elem_of_concat.
      destruct l as [|hd l]; [by apply elem_of_nil in Hq |].
      assert (mkPendingExactScore i hd ∈ kw_pending st1) as Hin
        by (apply (h_pending _ _ _ Hd1); split; [set_solver | eauto]).
      rewrite Epop in Hin. by apply elem_of_nil in Hin. }
    exists st1. split_and!; try done. split; unfold unfilled; rewrite Hr1; done.
Qed.

Lemma rank_batch_loop_exact n st lines ids :
  ready st lines ->
  exists st' lines', ready st' lines' /\ merged lines' = drop n (merged lines) /\
    points_emitted st' = points_emitted st + length (take n (merged lines)) /\
    shared_step (kw_memory st) (kw_memory st') /\
    Forall (fun p => recorded (kw_memory st') (es_id p)) (take n (merged lines)) /\
    rank_batch_loop n st ids =
      (st', Ok (ids ++ (es_id <$> take n (merged lines)), length (merged lines) <? n)).
Proof.
  revert st lines ids. induction n as [|n IH]; intros st lines ids Hd; simpl.
  - exists st, lines. rewrite app_nil_r, drop_0. by rewrite Nat.add_0_r.
  - destruct (next_inner_exact st lines Hd) as (st1 & Hw & Hn).
    destruct (merged lines) as [|p rest] eqn:Em.
    + destruct Hn as (-> & Hd1 & He). exists st1, lines. simpl. rewrite app_nil_r. split_and!; try done.
      lia.
    + destruct Hn as (-> & Hc & lines1 & Hd1 & Em1 & He).
      destruct (IH st1 lines1 (ids ++ [es_id p]) Hd1)
        as (st2 & lines2 & Hd2 & Em2 & He2 & Hw2 & Hc2 & ->).
      exists st2, lines2. rewrite Em1 in Hc2. rewrite Em2, He2, Em1, He. simpl.
      split_and!; try done; try lia; [by etrans | | by rewrite <- app_assoc].
      constructor; [|done]. by apply (recorded_step (kw_memory st1)).
Qed.

(** *** Priming *)

Lemma holds_start (srcs : list (ExactScoreSource Q R)) w lines batch :
  1 <= batch -> mergeable lines -> Forall2 (src_rest w) srcs lines ->
  holds (kway_start srcs w batch) (list_to_set (seq 0 (length srcs))) lines.
Proof.
  intros Hb Hm F2. pose proof (Forall2_length _ _ _ F2) as L.
  split; simpl; rewrite ?length_replicate; try done.
  - constructor.
  - intros i p. split; [by intros ?%elem_of_nil |]. intros [Hi [l Hl]]. exfalso. apply Hi.
    apply elem_of_list_to_set, elem_of_seq. apply lookup_lt_Some in Hl. lia.
  - intros i src l Hsrc Hl. pose proof (lookup_lt_Some _ _ _ Hsrc).
    rewrite (index_lookup _ i false) by (by apply lookup_replicate).
    rewrite decide_True by (apply elem_of_list_to_set, elem_of_seq; lia).
    by eapply Forall2_lookup_lr.
  - intros i p l Hi. apply lookup_replicate in Hi as [? _]. done.
  - by intros x ?%elem_of_nil.
Qed.

Lemma prime_exact idxs st U lines :
  holds st U lines -> NoDup idxs -> (forall i, i ∈ idxs -> i ∈ U /\ i < length lines) ->
  exists st', prime st idxs = (st', Ok tt) /\ holds st' (U ∖ list_to_set idxs) lines /\
    same_output st st'.
Proof.
  revert st U. induction idxs as [|i idxs IH]; intros st U Hd Hn Hi; simpl.
  - exists st. by rewrite difference_empty_L.
  - apply NoDup_cons in Hn as [Hn1 Hn2]. destruct (Hi i) as [HiU Hlt]; [left |].
    destruct (refill_exact st U lines i Hd HiU Hlt) as (st1 & -> & Hd1 & Hs1).
    destruct (IH st1 (U ∖ {[i]}) Hd1 Hn2) as (st2 & -> & Hd2 & Hs2).
    { intros j Hj. destruct (Hi j); [by right |]. split; [|done]. set_solver. }
    exists st2. split; [done |]. rewrite difference_difference_l_L in Hd2.
    split; [done |]. unfold same_output in *.
    destruct Hs1 as (? & ? & ? & ?), Hs2 as (? & ? & ? & ?). split_and!; [by etrans | congruence..].
Qed.

Lemma open_sources_exact (srcs : list (ExactScoreSource Q R)) w lines batch :
  srcs <> [] -> 1 <= batch -> mergeable lines -> Forall2 (src_rest w) srcs lines ->
  exists st, open_sources srcs w batch = (Ok st, kw_memory st) /\ ready st lines /\
    points_emitted st = 0 /\ shared_step w (kw_memory st).
Proof.
  intros Hne Hb Hm F2. unfold open_sources. rewrite !decide_False by (done || lia).
  pose proof (Forall2_length _ _ _ F2) as L.
  destruct (prime_exact (seq 0 (length srcs)) _ _ lines (holds_start srcs w lines batch Hb Hm F2))
    as (st & -> & Hd & Hw & Hs1 & _ & Hs3).
  - apply NoDup_seq.
  - intros i Hi. split; [by apply elem_of_list_to_set |]. apply elem_of_seq in Hi. lia.
  - exists st. rewrite difference_diag_L in Hd. unfold ready, unfilled. rewrite Hs1. done.
Qed.

Lemma ready_step st lines w :
  ready st lines -> shared_step (kw_memory st) w -> ready (with_memory st w) lines.
Proof. intros [Hd Hr] Hw. split; [by apply holds_step | done]. Qed.

(** The merge keeps the contract of a batch source: it is an exact batch
    stream of the channel-global order. *)
#[export] Program Instance kway_exact_batches : ExactBatchStream W kway :=
  {| batch_rest w st start rest := exists lines, ready (with_memory st w) lines /\
       points_emitted st = start /\ rest = es_id <$> merged lines |}.
Next Obligation.
  intros w w' st start rest Hw (lines & Hd & ?). exists lines. split; [|done].
  by apply (ready_step (with_memory st w)).
Qed.
Next Obligation.
  intros w st start rest n (lines & Hd & <- & ->) Hn.
  unfold pull_batch, kway_BatchStream, next_rank_batch. rewrite decide_False by lia.
  rewrite (h_error _ _ _ (proj1 Hd)).
  destruct (rank_batch_loop_exact n _ lines [] Hd) as (st' & lines' & Hd' & Em & He & Hw & Hc & ->).
  exists (es_id <$> take n (merged lines)), (es_id <$> drop n (merged lines)),
    (length (merged lines) <? n), st', (kw_memory st'). split_and!.
  - done.
  - by rewrite <- fmap_app, take_drop.
  - rewrite length_fmap, length_take. lia.
  - intros E. apply fmap_nil_inv in E. apply Nat.ltb_lt.
    destruct (merged lines); [simpl; lia | by destruct n; [lia |]].
  - intros E%Nat.ltb_lt. by rewrite drop_ge by lia.
  - intros _. exists lines'. rewrite Em, length_fmap. split_and!; [|done|done].
    destruct st'. exact Hd'.
  - done.
  - by apply Forall_fmap.
Qed.
End Exact.

(** ** Arbitrary local streams: the merge fails closed *)

Section AnyScores.
Context {W Q R : Type} `{ScoreStream Q} `{ScoreBatchStream W R}.
Local Abbreviation kway := (KWayExactScoreStream W Q R).
Implicit Types (st : kway).

(** What holds after [last] was emitted, whatever the sources deliver. *)
Record ordered (last : option ExactScoredIdentity) st : Prop := {
  o_previous : length (previous st) = length (kw_sources st);
  o_nodup : NoDup (pe_source <$> kw_pending st);
  o_pending : forall x, x ∈ kw_pending st ->
    is_finite (es_score (pe_point x)) = true /\
    previous st !! pe_source x = Some (Some (pe_point x)) /\
    refill_source st <> Some (pe_source x) /\
    (forall p, last = Some p -> exact_score_order p (pe_point x) <> Gt);
  o_refill : forall r, refill_source st = Some r ->
    exists p, previous st !! r = Some (Some p) /\ last = Some p;
}.

(** A refill that succeeds changes nothing, or pushes one checked point. *)
Lemma refill_cases st source st' :
  refill st source = (st', Ok tt) ->
  seen st' = seen st /\ refill_source st' = refill_source st /\
  length (kw_sources st') = length (kw_sources st) /\
  ((kw_pending st' = kw_pending st /\ previous st' = previous st) \/
   exists p, kw_pending st' = {| pe_source := source; pe_point := p |} :: kw_pending st /\
     previous st' = <[source := Some p]> (previous st) /\
     source < length (kw_sources st) /\
     is_finite (es_score p) = true /\
     forall q, previous st !! source = Some (Some q) -> exact_score_order q p <> Gt).
Proof.
  unfold refill. destruct ((t_source_exhausted st).[source]); [intros [= <-]; by split_and!; [..| left] |].
  destruct (kw_sources st !! source) as [src|] eqn:Es; [|intros [= <-]; by split_and!; [..| left]].
  destruct (next_of_source st source src) as [[[p|]|] [src' w']] eqn:En;
    [|intros [= <-]; simpl; rewrite length_insert; by split_and!; [..| left] | done].
  destruct (is_finite (es_score p)) eqn:Ef; simpl; [|done].
  destruct ((previous st).[source]) as [q|] eqn:Ep.
  - destruct (exact_score_order q p) eqn:Eo; try done; intros [= <-]; simpl;
      rewrite length_insert; split_and!; try done; right; exists p;
      (split_and!; try done; [by eapply lookup_lt_Some |]);
      intros q' Hq'; rewrite (index_lookup _ _ _ Hq') in Ep; congruence.
  - intros [= <-]. simpl. rewrite length_insert. split_and!; try done. right. exists p.
    split_and!; try done; [by eapply lookup_lt_Some |].
    intros q' Hq'. rewrite (index_lookup _ _ _ Hq') in Ep. done.
Qed.

Lemma ordered_refill last st st' source :
  ordered last st -> refill_source st = None ->
  (forall x, x ∈ kw_pending st -> pe_source x <> source) ->
  (forall p, last = Some p -> previous st !! source = Some (Some p)) ->
  refill st source = (st', Ok tt) -> ordered last st'.
Proof.
  intros [Ol On Op Or] Hr Hx Hlast E.
  apply refill_cases in E as (_ & Er & El & [[Ep Ev]|(p & Ep & Ev & Hlt & Hf & Hp)]).
  - split; rewrite ?El, ?Ep, ?Ev, ?Er; done.
  - split; rewrite ?El, ?Ep, ?Ev, ?Er, ?length_insert; [done | | | by rewrite Hr].
    + apply NoDup_cons. split; [|done]. intros (x & E & Hin)%list_elem_of_fmap. simpl in E.
      by destruct (Hx x Hin).
    + intros x [->|Hin]%elem_of_cons; simpl.
      * split_and!; [done | | by rewrite Hr |].
        -- apply list_lookup_insert_eq. by rewrite Ol.
        -- intros q Hq. by apply Hp, Hlast.
      * destruct (Op x Hin) as (? & ? & ? & ?). split_and!; try done.
        rewrite list_lookup_insert_ne; [done |]. intros ->. by destruct (Hx x Hin).
Qed.

(** Emitting keeps the order and never repeats an identity. *)
Lemma next_inner_ordered last st st' p :
  ordered last st -> next_inner st = (st', Ok (Some p)) ->
  ordered (Some p) st' /\ is_finite (es_score p) = true /\
  (forall q, last = Some q -> exact_score_order q p <> Gt) /\
  (es_id p ∉ seen st) /\ seen st' = {[es_id p]} ∪ seen st.
Proof.
  intros O. unfold next_inner.
  destruct (match refill_source st with Some _ => _ | None => _ end) as [st1 r] eqn:Er.
  destruct r as [[]|]; [|done].
  assert (O1 : ordered last st1 /\ refill_source st1 = None /\ seen st1 = seen st) .
  { destruct (refill_source st) as [source|] eqn:Es; [|injection Er as <-; done].
    destruct O as [Ol On Op Or].
    destruct (Or source Es) as (q & Hq & Hlast).
    pose proof (refill_cases _ _ _ Er) as (Hseen & Hrs & _). split_and!; [|done..].
    apply (ordered_refill last (take_refill st) st1 source); try done.
    - split; try done; simpl. intros x Hx. destruct (Op x Hx) as (? & ? & ? & ?). done.
    - simpl. intros x Hx Ex. destruct (Op x Hx) as (_ & _ & Hn & _). apply Hn. by rewrite Ex.
    - simpl. intros q' Hq'. congruence. }
  destruct O1 as (O1 & Hr1 & Hs1). unfold pop_pending.
  destruct (heap_pop pending_cmp (kw_pending st1)) as [[x pend]|] eqn:Epop; [|done]. simpl.
  case_decide as Hd; [done |]. intros [= <- <-].
  destruct (heap_pop_spec pending_cmp _ _ _ Epop) as [Hp Hmax].
  destruct O1 as [Ol On Op Or]. assert (Hx : x ∈ kw_pending st1) by (rewrite Hp; left).
  destruct (Op x Hx) as (Hf & Hv & _ & Hl). rewrite Hs1 in Hd. simpl.
  split_and!; try done; [|by rewrite Hs1].
  rewrite Hp in On. apply NoDup_cons in On as [On1 On2]. split; simpl; try done.
  - intros y Hy. assert (y ∈ kw_pending st1) as Hy' by (rewrite Hp; by right).
    destruct (Op y Hy') as (? & ? & _ & _). split_and!; try done.
    + intros [= E]. apply On1. rewrite E. by apply list_elem_of_fmap_2.
    + intros q [= <-]. by apply pending_cmp_order, Hmax.
  - intros r [= <-]. exists (pe_point x). done.
Qed.

(** The points emitted by up to [n] successful calls. *)
Fixpoint drain (n : nat) st : list ExactScoredIdentity :=
  match n with
  | 0 => []
  | S n => match next_inner st with
           | (st, Ok (Some p)) => p :: drain n st
           | _ => []
           end
  end.

Lemma drain_ordered n last st :
  ordered last st ->
  StronglySorted (cmp_le exact_score_order) (drain n st) /\
  Forall (fun q => forall p, last = Some p -> exact_score_order p q <> Gt) (drain n st) /\
  NoDup (es_id <$> drain n st) /\
  Forall (fun q => is_finite (es_score q) = true /\ es_id q ∉ seen st) (drain n st).
Proof.
  revert last st. induction n as [|n IH]; intros last st O; simpl.
  { split_and!; constructor. }
  destruct (next_inner st) as [st' [[p|]|]] eqn:E; [|split_and!; constructor ..].
  destruct (next_inner_ordered last st st' p O E) as (O' & Hf & Hl & Hs & Es).
  destruct (IH (Some p) st' O') as (I1 & I2 & I3 & I4). rewrite Es in I4.
  split_and!.
  - constructor; [done |]. eapply Forall_impl; [exact I2 |]. intros q Hq. by apply Hq.
  - constructor; [done |]. eapply Forall_impl; [exact I2 |]. simpl. intros q Hq p' Hp'.
    eapply (cmp_trans exact_score_order); [by apply Hl | by apply Hq].
  - apply NoDup_cons. split; [|done]. intros (q & Eq & Hq)%list_elem_of_fmap.
    rewrite Forall_forall in I4. destruct (I4 q Hq) as [_ Hn]. set_solver.
  - constructor; [done |]. eapply Forall_impl; [exact I4 |]. simpl. set_solver.
Qed.
End AnyScores.

(** ** Theorems *)

Section Theorems.
Context {W Q R : Type}.
Local Abbreviation kway := (KWayExactScoreStream W Q R).

Section Any.
Context `{ScoreStream Q} `{ScoreBatchStream W R}.

Lemma start_ordered (srcs : list (ExactScoreSource Q R)) (w : W) batch :
  ordered None (kway_start srcs w batch).
Proof.
  split; simpl; [by rewrite length_replicate | constructor | by intros x ?%elem_of_nil | done].
Qed.

Lemma prime_ordered idxs (st st' : kway) :
  NoDup idxs -> refill_source st = None ->
  (forall x, x ∈ kw_pending st -> pe_source x ∉ idxs) ->
  ordered None st -> prime st idxs = (st', Ok tt) -> ordered None st'.
Proof.
  revert st. induction idxs as [|i idxs IH]; intros st Hn Hr Hx O; simpl.
  { by intros [= <-]. }
  apply NoDup_cons in Hn as [Hn1 Hn2].
  destruct (refill st i) as [st1 [[]|]] eqn:E; [|done]. intros E'.
  pose proof (refill_cases _ _ _ E) as (_ & Er & _ & Hp). apply (IH st1); try done.
  - by rewrite Er.
  - intros x. destruct Hp as [[-> _]|(p & -> & _)].
    + intros Hin. specialize (Hx x Hin). set_solver.
    + intros [->|Hin]%elem_of_cons; [done |]. specialize (Hx x Hin). set_solver.
  - apply (ordered_refill None st st1 i); try done.
    intros x Hin Ei. specialize (Hx x Hin). set_solver.
Qed.

(** The merge fails closed: whatever the local streams deliver, the
    points it emits have finite scores, descend in score with ties in
    identity order, and never repeat an identity. *)
Theorem kway_output_ordered (srcs : list (ExactScoreSource Q R)) w batch st n :
  new_with_sources srcs w batch = Ok st ->
  StronglySorted (cmp_le exact_score_order) (drain n st) /\
  NoDup (es_id <$> drain n st) /\
  Forall (fun q => is_finite (es_score q) = true) (drain n st).
Proof.
  unfold new_with_sources, open_sources. do 2 (case_decide; [done |]).
  destruct (prime _ _) as [st' [[]|]] eqn:E; [|done]. intros [= <-].
  apply prime_ordered in E.
  - destruct (drain_ordered n None st' E) as (I1 & _ & I3 & I4). split_and!; try done.
    eapply Forall_impl; [exact I4 |]. simpl. tauto.
  - apply NoDup_seq.
  - done.
  - by intros x ?%elem_of_nil.
  - apply start_ordered.
Qed.

Lemma rank_batch_loop_error n (st st' : kway) ids e :
  rank_batch_loop n st ids = (st', Err e) -> terminal_error st' = Some e.
Proof.
  revert st ids. induction n as [|n IH]; intros st ids; simpl; [done |].
  destruct (next_inner st) as [st1 [[p|]|e']]; [apply IH | done |].
  by intros [= <- <-].
Qed.

(** Failures are sticky: once [next_rank_batch] has failed on a
    valid request, every later request fails with the same error and
    reads nothing, so a failure is never taken for the end of a source. *)
Theorem kway_error_sticky (st st' : kway) n m e :
  n <> 0 -> m <> 0 ->
  next_rank_batch st n = (Err e, st') -> next_rank_batch st' m = (Err e, st').
Proof.
  intros Hn Hm. unfold next_rank_batch. rewrite !decide_False by done.
  destruct (terminal_error st) as [e'|] eqn:Et.
  { intros [= <- <-]. by rewrite Et. }
  destruct (rank_batch_loop n st []) as [st1 [[ids x]|e']] eqn:El; [done |].
  intros [= <- <-]. by rewrite (rank_batch_loop_error _ _ _ _ _ El).
Qed.
End Any.

Section Exact.
Context `{ExactScores Q} `{ExactScoreBatches W R}.

(** Successive requests, and the batches an order is cut into by them. *)
Fixpoint pull_all (st : kway) (sizes : list nat) : list (OperationResult ChannelRankBatch) :=
  match sizes with
  | [] => []
  | n :: sizes => let '(r, st) := next_rank_batch st n in r :: pull_all st sizes
  end.

Fixpoint cut_batches (start : nat) (order : list ExtendedPointId) (sizes : list nat)
    : list ChannelRankBatch :=
  match sizes with
  | [] => []
  | n :: sizes =>
      {| start_rank := start; point_ids := take n order;
         batch_exhausted := length order <? n |}
      :: cut_batches (start + length (take n order)) (drop n order) sizes
  end.

Lemma pull_all_exact (st : kway) lines sizes :
  ready st lines -> Forall (fun n => n <> 0) sizes ->
  pull_all st sizes = Ok <$> cut_batches (points_emitted st) (es_id <$> merged lines) sizes.
Proof.
  intros Hd Hz. revert st lines Hd. induction Hz as [|n sizes Hn Hz IH]; intros st lines Hd;
    [done |]. simpl. unfold next_rank_batch. rewrite decide_False by done.
  destruct Hd as [Hd Hr]. rewrite (h_error _ _ _ Hd).
  destruct (rank_batch_loop_exact n st lines []) as (st' & lines' & Hd' & Em & He & _ & _ & ->); [done |].
  rewrite (IH st' lines' Hd'), Em, He. csimpl.
  rewrite fmap_take, fmap_drop, length_fmap. do 3 f_equal.
  by rewrite <- fmap_take, length_fmap.
Qed.

(** The k-way merge is exact: over exact local rankings with distinct
    identities it opens without error, and any sequence of positive
    requests cuts the one channel-global order (all points by descending
    score, ties by identity) into consecutive batches that start at the
    right rank and announce the end exactly when it is reached. *)
Theorem kway_merge_exact (srcs : list (ExactScoreSource Q R)) w lines batch sizes :
  srcs <> [] -> 1 <= batch -> mergeable lines -> Forall2 (src_rest w) srcs lines ->
  Forall (fun n => n <> 0) sizes ->
  exists st, new_with_sources srcs w batch = Ok st /\
    pull_all st sizes = Ok <$> cut_batches 0 (es_id <$> merged lines) sizes.
Proof.
  intros Hs Hb Hm F2 Hz.
  destruct (open_sources_exact srcs w lines batch Hs Hb Hm F2) as (st & E & Hd & He & _).
  exists st. unfold new_with_sources. rewrite E. split; [done |]. rewrite <- He.
  by apply pull_all_exact.
Qed.

Lemma merged_nodup lines : mergeable lines -> NoDup (es_id <$> merged lines).
Proof. intros Hm. unfold merged. rewrite sort_by_perm. apply Hm. Qed.

(** The channel-global orders of the channels of a query. *)
Definition channel_orders (channels : list (list (list ExactScoredIdentity)))
    : list (list ExtendedPointId) :=
  (fun lines => es_id <$> merged lines) <$> channels.

(** Open the merges of the channels, one after the other. *)
Fixpoint open_channels (channels : list (list (ExactScoreSource Q R))) (memory : W) (batch : nat)
    : OperationResult (list kway * W) :=
  match channels with
  | [] => Ok ([], memory)
  | srcs :: channels =>
      let? st := new_with_sources srcs memory batch in
      let? opened := open_channels channels (kw_memory st) batch in
      Ok (st :: opened.1, opened.2)
  end.

Lemma open_channels_exact channels lines w batch :
  1 <= batch -> Forall (fun srcs => srcs <> []) channels -> Forall mergeable lines ->
  Forall2 (Forall2 (src_rest w)) channels lines ->
  exists merges w', open_channels channels w batch = Ok (merges, w') /\ shared_step w w' /\
    Forall2 (fun st ls => batch_rest w' st 0 (es_id <$> merged ls)) merges lines.
Proof.
  intros Hb Hne. revert lines w. induction Hne as [|srcs channels Hs Hne IH];
    intros lines w Hm F2; inversion F2 as [|? ls ? lines' Hr F2']; subst; simpl.
  { exists [], w. by split_and!. }
  apply Forall_cons in Hm as [Hm1 Hm2].
  destruct (open_sources_exact srcs w ls batch Hs Hb Hm1 Hr) as (st & E1 & Hd & He & Hw).
  destruct (IH lines' (kw_memory st) Hm2) as (merges & w' & E & Hw' & F).
  { eapply Forall2_impl; [done |]. intros ? ? F. eapply Forall2_impl; [done |].
    intros src l. by apply src_rest_step. }
  unfold new_with_sources. rewrite E1. simpl. rewrite E. exists (st :: merges), w'. split_and!; [done | by etrans |].
  constructor; [|done]. exists ls. split_and!; [|done|done]. by apply ready_step.
Qed.

(** [C5] Hybrid retrieval is exact end to end: channels of exact local
    score streams, each merged by [KWayExactScoreStream] and fused by the
    batch executor, give the exact first [top_k] of weighted reciprocal
    rank fusion of the channel-global orders, for every refill size,
    request size, weight vector and policy, and also when the streams share
    memory that their pulls change. *)
Theorem channel_fusion_exact (channels : list (list (ExactScoreSource Q R))) w lines
    refill_size batch_size tk k ws policy fuel :
  1 <= refill_size -> 1 <= batch_size -> 1 <= k -> policy_ok policy -> weights_ok ws ->
  length ws = length channels ->
  Forall (fun srcs => srcs <> []) channels -> Forall mergeable lines ->
  Forall2 (Forall2 (src_rest w)) channels lines ->
  stream_fuel (channel_orders lines) <= fuel ->
  exists merges w1 x w2, open_channels channels w refill_size = Ok (merges, w1) /\
    execute_dynamic_rrf_batches_with_policy fuel merges w1 batch_size tk k (Some ws) policy
      = (Returned (Ok x), w2) /\
    ex_point_ids x = take tk (wrrf_order k ws (channel_orders lines)).
Proof.
  intros Hrf Hb Hk Hp Hw Hl Hne Hm F2 Hf.
  destruct (open_channels_exact channels lines w refill_size Hrf Hne Hm F2)
    as (merges & w1 & E & _ & F).
  destruct (execute_batches_exact merges w1 (channel_orders lines) batch_size tk k ws policy fuel)
    as (x & w2 & Ex & Ei & _ & _); try done.
  - rewrite Hl, (Forall2_length _ _ _ F2). symmetry. by eapply Forall2_length.
  - apply Forall_fmap. eapply Forall_impl; [done |]. intros ls. apply merged_nodup.
  - by apply Forall2_fmap_r.
  - eauto 10.
Qed.
End Exact.
End Theorems.

(** ** Examples *)

(** A scripted local stream: the items it will return, in order. *)
#[export] Instance script_ScoreStream : ScoreStream (list (OperationResult ExactScoredIdentity)) :=
  fun q => match q with [] => (None, []) | item :: q => (Some item, q) end.

#[export] Program Instance script_ExactScores :
    ExactScores (list (OperationResult ExactScoredIdentity)) :=
  {| score_rest q rest := q = Ok <$> rest |}.
Next Obligation. intros q [|p rest] ->; eexists; [done | by split]. Qed.

(** An in-memory ranking that answers with batches of the requested size. *)
#[export] Instance list_ScoreBatchStream : ScoreBatchStream unit (list ExactScoredIdentity) :=
  fun w l n => (Ok {| sb_points := take n l; sb_exhausted := length l <=? n |}, (drop n l, w)).

#[export] Program Instance list_ExactScoreBatches :
    ExactScoreBatches unit (list ExactScoredIdentity) :=
  {| scores_rest _ l rest := l = rest |}.
Next Obligation. done. Qed.
Next Obligation.
  intros w l rest n -> Hn. exists (take n rest), (drop n rest), (length rest <=? n). do 2 eexists.
  split; [done |]. split_and!; [by rewrite take_drop | rewrite length_take; lia | | | done | ].
  - intros E. apply Nat.leb_le. destruct rest; [simpl; lia | by destruct n; [lia |]].
  - destruct (Nat.leb_spec (length rest) n); [by apply drop_ge | done].
  - by apply Forall_true.
Qed.

Local Abbreviation example_source :=
  (ExactScoreSource (list (OperationResult ExactScoredIdentity)) (list ExactScoredIdentity)).

Definition scored_id (id : N) (s : Z) : ExactScoredIdentity :=
  {| es_id := NumId id; es_score := of_Z binary32 s |}.

(** Two segments of one channel. *)
Definition example_lines : list (list ExactScoredIdentity) :=
  [[scored_id 4 9; scored_id 1 7]; [scored_id 3 8; scored_id 2 7]].

Definition example_merge_sources : list example_source :=
  [ScorePoint (Ok <$> [scored_id 4 9; scored_id 1 7]);
   ScoreBatch [scored_id 3 8; scored_id 2 7] [] false].

Lemma example_sources_rest : Forall2 (src_rest tt) example_merge_sources example_lines.
Proof.
  constructor; [split; [reflexivity | by apply Forall_true] |]. constructor; [|constructor].
  exists [scored_id 3 8; scored_id 2 7]. split; [reflexivity |]. split; [constructor | reflexivity].
Qed.

#[export] Instance exact_score_order_le_dec p q : Decision (cmp_le exact_score_order p q).
Proof. unfold cmp_le. apply _. Defined.

Lemma example_mergeable : mergeable example_lines.
Proof.
  split.
  - repeat (constructor; [repeat constructor; by vm_compute |]). constructor.
  - repeat (constructor; [by vm_compute |]). constructor.
  - apply (bool_decide_unpack _). by vm_compute.
Qed.

Lemma kway_merge_exact_witness :
  exists st, new_with_sources example_merge_sources tt 1 = Ok st /\
    pull_all st [3; 3] =
      Ok <$> [{| start_rank := 0; point_ids := [NumId 4; NumId 3; NumId 1];
                 batch_exhausted := false |};
              {| start_rank := 3; point_ids := [NumId 2]; batch_exhausted := true |}].
Proof.
  destruct (kway_merge_exact example_merge_sources tt example_lines 1 [3; 3]) as (st & E & Hp).
  - discriminate.
  - lia.
  - apply example_mergeable.
  - apply example_sources_rest.
  - repeat constructor; discriminate.
  - exists st. split; [exact E |]. rewrite Hp. vm_compute. reflexivity.
Defined.

Lemma kway_output_ordered_witness :
  exists st, new_with_sources example_merge_sources tt 1 = Ok st /\
    NoDup (es_id <$> drain 9 st).
Proof.
  destruct (new_with_sources example_merge_sources tt 1) as [st|] eqn:E;
    [|vm_compute in E; discriminate E].
  exists st. split; [reflexivity |].
  destruct (kway_output_ordered example_merge_sources tt 1 st 9 E) as (_ & Hn & _). exact Hn.
Defined.

(** A source that breaks after its first point. *)
Definition broken_source : list example_source :=
  [ScorePoint [Ok (scored_id 4 9); Err (ServiceError "storage failure")]].

Lemma kway_error_sticky_witness :
  exists st st', new_with_sources broken_source tt 1 = Ok st /\
    next_rank_batch st 2 = (Err (ServiceError "storage failure"), st') /\
    next_rank_batch st' 5 = (Err (ServiceError "storage failure"), st').
Proof.
  destruct (new_with_sources broken_source tt 1) as [st|] eqn:E; [|vm_compute in E; discriminate E].
  destruct (next_rank_batch st 2) as [r st'] eqn:E1.
  assert (r = Err (ServiceError "storage failure")) as ->.
  { vm_compute in E. injection E as <-. vm_compute in E1. injection E1 as <- _. reflexivity. }
  exists st, st'. split; [reflexivity |]. split; [exact E1 |].
  apply (kway_error_sticky st st' 2 5 (ServiceError "storage failure")); [lia | lia | exact E1].
Defined.

Lemma channel_fusion_exact_witness :
  exists merges x, open_channels [example_merge_sources] tt 1 = Ok (merges, tt) /\
    execute_dynamic_rrf_batches_with_policy 6 merges tt 2 2 60 (Some (replicate 1 f32_one))
      DynamicRrfPolicy_default = (Returned (Ok x), tt) /\
    ex_point_ids x = [NumId 4; NumId 3].
Proof.
  destruct (channel_fusion_exact [example_merge_sources] tt [example_lines] 1 2 2 60
    (replicate 1 f32_one) DynamicRrfPolicy_default 6) as (merges & [] & x & [] & E & Ex & Ei).
  - lia.
  - lia.
  - lia.
  - apply default_policy_ok.
  - apply weights_ok_ones. lia.
  - reflexivity.
  - constructor; [discriminate | constructor].
  - constructor; [apply example_mergeable | constructor].
  - constructor; [apply example_sources_rest | constructor].
  - change (stream_fuel (channel_orders [example_lines])) with 6. lia.
  - exists merges, x. split; [exact E |]. split; [exact Ex |]. rewrite Ei. vm_compute. reflexivity.
Defined.

(** ** An error seen through [into_rank_stream] is forgotten on resumption

    The iterator reports a failure once and then ends.  A session that is run
    again after the error takes that end for exhaustion and certifies the
    prefix it had read. *)
Definition resumed_session : option (outcome DynamicRrfExecution * outcome DynamicRrfExecution) :=
  match new_with_sources broken_source tt 1 with
  | Err _ => None
  | Ok st =>
      match session_new (B := Empty_set) [st] tt 2 60 None DynamicRrfPolicy_default with
      | Err _ => None
      | Ok s => let '(s, first) := run_to_completion 9 s in
                Some (first, (run_to_completion 9 s).2)
      end
  end.

Lemma resumed_rank_stream_certifies_prefix :
  exists x, resumed_session =
      Some (Returned (Err (ServiceError "storage failure")), Returned (Ok x)) /\
    ex_point_ids x = [NumId 4] /\ ex_stop_reason x = AllSourcesExhausted.
Proof. eexists. split; [vm_compute; reflexivity |]. split; reflexivity. Qed.
