(* ===== verification/ShardStream.v ===== *)
(** * Exact streams of one shard

    lib/shard/src/exact_shard_stream.rs and exact_rank_fallback.rs.  One
    channel of a shard is the merge of its frozen segments.  A point may be
    visible in several segments; equal copies are emitted once, conflicting
    ones are an error.  Segments answer pulls through closures ([SegmentPull])
    and the loop that waits for a non-empty reply is bounded by the fuel of
    the model.

    The file proves that over exact segments the shard stream is the sorted
    union of their points with copies removed, that failures and cancellation
    are sticky, and that the materialised fallback is an exact segment. *)

From S2P Require Import Prelude Float Order PointId RrfScoring RrfState RrfSession RrfExact.
From S2P Require Import RankStream.

Open Scope result_scope.

(** ** Data *)

Inductive ExactSourceMode : Type := Exact | ExhaustiveFallback.

#[export] Instance ExactSourceMode_eq_dec : EqDecision ExactSourceMode.
Proof. solve_decision. Defined.

Record ExactShardStreamTelemetry : Type := mkTelemetry {
  tm_sources : nat;
  visible_point_copies : nat;
  exact_sources : nat;
  exhaustive_fallback_sources : nat;
  points_pulled : nat;
  tm_points_emitted : nat;
  duplicates_suppressed : nat;
  batch_requests : nat;
  points_received : nat;
}.

Record BatchReply : Type := mkBatchReply {
  br_points : list ScoredPoint;
  br_eof : bool;
}.

(** [Fn(usize) -> OperationResult<BatchReply>], a closure over shared state. *)
Class SegmentPull (S : Type) := pull_segment : S -> nat -> outcome BatchReply * S.

Record SegmentScoreSource (S : Type) : Type := mkSegmentScoreSource {
  ss_pull : S;
  ss_buffer : list ScoredPoint;
  ss_eof : bool;
  ss_mode : ExactSourceMode;
  ss_previous : option ScoredPoint;
}.

Arguments mkSegmentScoreSource {S}.
Arguments ss_pull {S} _.
Arguments ss_buffer {S} _.
Arguments ss_eof {S} _.
Arguments ss_mode {S} _.
Arguments ss_previous {S} _.

Record SourcePop : Type := mkSourcePop {
  pop_point : option ScoredPoint;
  pop_batch_requests : nat;
  pop_points_received : nat;
}.

Record PendingPoint : Type := mkPendingPoint {
  pp_source : nat;
  pp_point : ScoredPoint;
}.

(** [Ord for PendingPoint] *)
Definition pending_point_cmp (a b : PendingPoint) : comparison :=
  then_with (ordered_cmp (sp_score (pp_point a)) (sp_score (pp_point b)))
    (then_with (id_cmp (sp_id (pp_point b)) (sp_id (pp_point a)))
       (then_with (N.compare (sp_version (pp_point a)) (sp_version (pp_point b)))
          (Nat.compare (pp_source b) (pp_source a)))).

Definition shard_score_order (left right : ScoredPoint) : comparison :=
  then_with (ordered_cmp (sp_score right) (sp_score left)) (id_cmp (sp_id left) (sp_id right)).

Record ExactShardMergeState (S : Type) : Type := mkShardMerge {
  sm_sources : list (SegmentScoreSource S);
  sm_pending : list PendingPoint;
  sm_seen : gset ExtendedPointId;
  sm_batch_size : nat;
  sm_loads : nat;
  sm_telemetry : ExactShardStreamTelemetry;
  sm_terminal_error : option OperationError;
}.

Arguments mkShardMerge {S}.
Arguments sm_sources {S} _.
Arguments sm_pending {S} _.
Arguments sm_seen {S} _.
Arguments sm_batch_size {S} _.
Arguments sm_loads {S} _.
Arguments sm_telemetry {S} _.
Arguments sm_terminal_error {S} _.

(** [a.saturating_add(b)] on [usize]. *)
Definition saturating_add (a b : nat) : nat :=
  N.to_nat (N.min (N.of_nat a + N.of_nat b) USIZE_MAX).

(** ** Operations *)

Fixpoint validate_source_batch (prev : option ScoredPoint) (points : list ScoredPoint)
    : OperationResult unit :=
  match points with
  | [] => Ok tt
  | point :: points =>
      if negb (is_finite (sp_score point)) then
        Err (ValidationError "exact Segment source {source} produced a non-finite score")
      else if match prev with
              | Some prev => match shard_score_order prev point with Gt => true | _ => false end
              | None => false
              end then
        Err (ValidationError
          "exact Segment source {source} violated descending score/identity order")
      else validate_source_batch (Some point) points
  end.

Section Operations.
Context {S : Type} `{SegmentPull S}.

(** The bound on the replies a segment may send without a point. *)
Context (fuel : nat).

(** What the [n]-th load of the cancellation flag sees. *)
Context (stopped_at : nat -> bool).

Local Abbreviation source := (SegmentScoreSource S).
Local Abbreviation shard := (ExactShardMergeState S).

Definition on_demand (pull : S) (mode : ExactSourceMode) : source :=
  {| ss_pull := pull; ss_buffer := []; ss_eof := false; ss_mode := mode; ss_previous := None |}.

Definition with_reply (src : source) (pull : S) (buffer : list ScoredPoint) (eof : bool)
    : source :=
  {| ss_pull := pull; ss_buffer := buffer; ss_eof := eof; ss_mode := ss_mode src;
     ss_previous := ss_previous src |}.

(** The loop of [pop]: wait for a point or the end. *)
Fixpoint pop_loop (fuel : nat) (src : source) (batch_size requests received : nat)
    : source * outcome (nat * nat) :=
  match fuel with
  | 0 => (src, OutOfFuel)
  | Datatypes.S fuel =>
      if bool_decide (ss_buffer src = []) && negb (ss_eof src) then
        let '(r, pull) := pull_segment (ss_pull src) batch_size in
        match r with
        | Panicked => (with_reply src pull (ss_buffer src) (ss_eof src), Panicked)
        | OutOfFuel => (with_reply src pull (ss_buffer src) (ss_eof src), OutOfFuel)
        | Returned (Err e) =>
            (with_reply src pull (ss_buffer src) (ss_eof src), Returned (Err e))
        | Returned (Ok batch) =>
            match validate_source_batch (ss_previous src) (br_points batch) with
            | Err e => (with_reply src pull (ss_buffer src) (br_eof batch), Returned (Err e))
            | Ok _ =>
                pop_loop fuel (with_reply src pull (br_points batch) (br_eof batch)) batch_size
                  (saturating_add requests 1)
                  (saturating_add received (length (br_points batch)))
            end
        end
      else (src, Returned (Ok (requests, received)))
  end.

Definition pop (src : source) (batch_size : nat) : source * outcome SourcePop :=
  match pop_loop fuel src batch_size 0 0 with
  | (src, Returned (Ok (requests, received))) =>
      let point := head (ss_buffer src) in
      ({| ss_pull := ss_pull src; ss_buffer := tail (ss_buffer src); ss_eof := ss_eof src;
          ss_mode := ss_mode src;
          ss_previous := match point with Some p => Some p | None => ss_previous src end |},
       Returned (Ok {| pop_point := point; pop_batch_requests := requests;
                       pop_points_received := received |}))
  | (src, Returned (Err e)) => (src, Returned (Err e))
  | (src, Panicked) => (src, Panicked)
  | (src, OutOfFuel) => (src, OutOfFuel)
  end.

(** Telemetry and heap after a pop. *)
Definition account_pop (st : shard) (i : nat) (result : SourcePop) : shard :=
  let t := sm_telemetry st in
  let t := {| tm_sources := tm_sources t; visible_point_copies := visible_point_copies t;
              exact_sources := exact_sources t;
              exhaustive_fallback_sources := exhaustive_fallback_sources t;
              points_pulled := points_pulled t +
                match pop_point result with Some _ => 1 | None => 0 end;
              tm_points_emitted := tm_points_emitted t;
              duplicates_suppressed := duplicates_suppressed t;
              batch_requests := saturating_add (batch_requests t) (pop_batch_requests result);
              points_received :=
                saturating_add (points_received t) (pop_points_received result) |} in
  {| sm_sources := sm_sources st;
     sm_pending := match pop_point result with
                   | Some point => heap_push {| pp_source := i; pp_point := point |} (sm_pending st)
                   | None => sm_pending st
                   end;
     sm_seen := sm_seen st; sm_batch_size := sm_batch_size st; sm_loads := sm_loads st;
     sm_telemetry := t; sm_terminal_error := sm_terminal_error st |}.

Definition set_shard_source (st : shard) (i : nat) (src : source) : shard :=
  {| sm_sources := <[i := src]> (sm_sources st); sm_pending := sm_pending st;
     sm_seen := sm_seen st; sm_batch_size := sm_batch_size st; sm_loads := sm_loads st;
     sm_telemetry := sm_telemetry st; sm_terminal_error := sm_terminal_error st |}.

Definition shard_pull_source (st : shard) (i limit : nat) : shard * outcome unit :=
  match sm_sources st !! i with
  | None => (st, Panicked)
  | Some src =>
      let '(src, popped) := pop src limit in
      let st := set_shard_source st i src in
      match popped with
      | Returned (Ok result) => (account_pop st i result, Returned (Ok tt))
      | Returned (Err e) => (st, Returned (Err e))
      | Panicked => (st, Panicked)
      | OutOfFuel => (st, OutOfFuel)
      end
  end.

(** [for source in sources { self.pull_source(source, limit)?; }] *)
Fixpoint pull_sources (st : shard) (limit : nat) (order : list nat) : shard * outcome unit :=
  match order with
  | [] => (st, Returned (Ok tt))
  | i :: order =>
      match shard_pull_source st i limit with
      | (st, Returned (Ok _)) => pull_sources st limit order
      | r => r
      end
  end.

Definition with_pending (st : shard) (pending : list PendingPoint) : shard :=
  {| sm_sources := sm_sources st; sm_pending := pending; sm_seen := sm_seen st;
     sm_batch_size := sm_batch_size st; sm_loads := sm_loads st;
     sm_telemetry := sm_telemetry st; sm_terminal_error := sm_terminal_error st |}.

(** Update of the emission counters. *)
Definition count_points (st : shard) (emitted duplicates : nat) : shard :=
  let t := sm_telemetry st in
  {| sm_sources := sm_sources st; sm_pending := sm_pending st; sm_seen := sm_seen st;
     sm_batch_size := sm_batch_size st; sm_loads := sm_loads st;
     sm_telemetry :=
       {| tm_sources := tm_sources t; visible_point_copies := visible_point_copies t;
          exact_sources := exact_sources t;
          exhaustive_fallback_sources := exhaustive_fallback_sources t;
          points_pulled := points_pulled t;
          tm_points_emitted := tm_points_emitted t + emitted;
          duplicates_suppressed := duplicates_suppressed t + duplicates;
          batch_requests := batch_requests t; points_received := points_received t |};
     sm_terminal_error := sm_terminal_error st |}.

(** Whether the head of the heap is a copy of [point]. *)
Definition is_copy (point candidate : ScoredPoint) : bool :=
  bool_decide (sp_id candidate = sp_id point) && feq (sp_score candidate) (sp_score point).

(** The loop that collects the copies of [point]; every iteration pops, so
    the size of the heap bounds it. *)
Fixpoint take_duplicates (n : nat) (point : ScoredPoint) (st : shard)
    (contributing : list nat) : shard * OperationResult (list nat) :=
  match n, heap_pop pending_point_cmp (sm_pending st) with
  | Datatypes.S n, Some (duplicate, rest) =>
      if is_copy point (pp_point duplicate) then
        let st := with_pending st rest in
        if decide (sp_version (pp_point duplicate) <> sp_version point) then
          (st, Err (InconsistentStorage
             "exact {} Shard generation contains point {} at conflicting versions {} and {}"))
        else
          take_duplicates n point (count_points st 0 1) (contributing ++ [pp_source duplicate])
      else (st, Ok contributing)
  | _, _ => (st, Ok contributing)
  end.

Definition shard_emit (st : shard) (id : ExtendedPointId) : shard :=
  count_points
    {| sm_sources := sm_sources st; sm_pending := sm_pending st;
       sm_seen := {[id]} ∪ sm_seen st; sm_batch_size := sm_batch_size st;
       sm_loads := sm_loads st; sm_telemetry := sm_telemetry st;
       sm_terminal_error := sm_terminal_error st |} 1 0.

(** [self.stopped.load(..)] *)
Definition load_stopped (st : shard) : bool * shard :=
  (stopped_at (sm_loads st),
   {| sm_sources := sm_sources st; sm_pending := sm_pending st; sm_seen := sm_seen st;
      sm_batch_size := sm_batch_size st; sm_loads := Datatypes.S (sm_loads st);
      sm_telemetry := sm_telemetry st; sm_terminal_error := sm_terminal_error st |}).

Definition shard_next_inner (st : shard) : shard * outcome (option ScoredPoint) :=
  let '(stopped, st) := load_stopped st in
  if stopped then
    (st, Returned (Err (Cancelled "exact {} Shard stream was cancelled")))
  else
    match heap_pop pending_point_cmp (sm_pending st) with
    | None => (st, Returned (Ok None))
    | Some (pending, rest) =>
        let point := pp_point pending in
        let st := with_pending st rest in
        match take_duplicates (length rest) point st [pp_source pending] with
        | (st, Err e) => (st, Returned (Err e))
        | (st, Ok contributing) =>
            match pull_sources st (sm_batch_size st) contributing with
            | (st, Returned (Ok _)) =>
                if decide (sp_id point ∈ sm_seen st) then
                  (st, Returned (Err (InconsistentStorage
                     "exact {} Shard generation emitted point {} more than once")))
                else (shard_emit st (sp_id point), Returned (Ok (Some point)))
            | (st, Returned (Err e)) => (st, Returned (Err e))
            | (st, Panicked) => (st, Panicked)
            | (st, OutOfFuel) => (st, OutOfFuel)
            end
        end
    end.

Definition shard_fail (st : shard) (error : OperationError) : shard :=
  {| sm_sources := sm_sources st; sm_pending := []; sm_seen := sm_seen st;
     sm_batch_size := sm_batch_size st; sm_loads := sm_loads st;
     sm_telemetry := sm_telemetry st; sm_terminal_error := Some error |}.

(** The loop of [next_batch], [n] points to go. *)
Fixpoint shard_batch_loop (n : nat) (st : shard) (output : list ScoredPoint)
    : shard * outcome (list ScoredPoint) :=
  match n with
  | 0 => (st, Returned (Ok output))
  | Datatypes.S n =>
      match shard_next_inner st with
      | (st, Returned (Ok (Some point))) => shard_batch_loop n st (output ++ [point])
      | (st, Returned (Ok None)) => (st, Returned (Ok output))
      | (st, Returned (Err e)) => (shard_fail st e, Returned (Err e))
      | (st, Panicked) => (st, Panicked)
      | (st, OutOfFuel) => (st, OutOfFuel)
      end
  end.

Definition next_batch (st : shard) (max_results : nat) : shard * outcome (list ScoredPoint) :=
  if decide (max_results = 0) then
    (st, Returned (Err (ValidationError "exact {} Shard output batch size must be positive")))
  else
    match sm_terminal_error st with
    | Some error => (st, Returned (Err error))
    | None => shard_batch_loop max_results st []
    end.

Definition count_mode (mode : ExactSourceMode) (sources : list source) : nat :=
  length (filter (fun src : source => ss_mode src = mode) sources).

Definition shard_start (sources : list source) (visible batch_size : nat) : shard :=
  {| sm_sources := sources; sm_pending := []; sm_seen := ∅; sm_batch_size := batch_size;
     sm_loads := 0;
     sm_telemetry :=
       {| tm_sources := length sources; visible_point_copies := visible;
          exact_sources := count_mode Exact sources;
          exhaustive_fallback_sources := count_mode ExhaustiveFallback sources;
          points_pulled := 0; tm_points_emitted := 0; duplicates_suppressed := 0;
          batch_requests := 0; points_received := 0 |};
     sm_terminal_error := None |}.

(** [open]; one head per segment is enough to start. *)
Definition shard_open (sources : list source) (visible batch_size : nat) : outcome shard :=
  if decide (batch_size = 0) then
    Returned (Err (ValidationError "{channel} Shard batch size must be positive"))
  else
    match pull_sources (shard_start sources visible batch_size) 1
            (seq 0 (length sources)) with
    | (st, Returned (Ok _)) => Returned (Ok st)
    | (_, Returned (Err e)) => Returned (Err e)
    | (_, Panicked) => Panicked
    | (_, OutOfFuel) => OutOfFuel
    end.
End Operations.

(** ** The materialised fallback *)

(** The sorted result of an exhaustive search and a cursor into it. *)
Record Materialized : Type := mkMaterialized { mat_points : list ScoredPoint; mat_next : nat }.

Definition materialized_order (left right : ScoredPoint) : comparison :=
  then_with (ordered_cmp (sp_score right) (sp_score left))
    (then_with (id_cmp (sp_id left) (sp_id right))
       (N.compare (sp_version right) (sp_version left))).

(** [results] is what [search_batch] returned: one list per query. *)
Definition materialized_exact_source (results : OperationResult (list (list ScoredPoint)))
    : OperationResult (SegmentScoreSource Materialized) :=
  let? results := results in
  let points := default [] (last results) in
  Ok (on_demand {| mat_points := sort_by materialized_order points; mat_next := 0 |}
        ExhaustiveFallback).

#[export] Instance materialized_pull : SegmentPull Materialized := fun m limit =>
  let start := mat_next m in
  let finish := Nat.min (saturating_add start limit) (length (mat_points m)) in
  (Returned (Ok {| br_points := take (finish - start) (drop start (mat_points m));
         br_eof := finish =? length (mat_points m) |}),
   {| mat_points := mat_points m; mat_next := finish |}).

(** ** Orders *)

#[export] Instance shard_score_order_TotalCmp : TotalCmp shard_score_order.
Proof.
  apply TotalCmp_then.
  - apply (TotalCmp_flip (fun a b => ordered_cmp (sp_score a) (sp_score b))).
    apply (TotalCmp_key ordered_cmp sp_score), _.
  - apply (TotalCmp_key id_cmp sp_id), _.
Qed.

#[export] Instance pending_point_cmp_TotalCmp : TotalCmp pending_point_cmp.
Proof.
  repeat apply TotalCmp_then.
  - apply (TotalCmp_key ordered_cmp (fun p => sp_score (pp_point p))), _.
  - apply (TotalCmp_flip (fun a b => id_cmp (sp_id (pp_point a)) (sp_id (pp_point b)))).
    apply (TotalCmp_key id_cmp (fun p => sp_id (pp_point p))), _.
  - apply (TotalCmp_key N.compare (fun p => sp_version (pp_point p))), _.
  - apply (TotalCmp_flip (fun a b => Nat.compare (pp_source a) (pp_source b))).
    apply (TotalCmp_key Nat.compare pp_source), _.
Qed.

Lemma pending_point_order a b :
  pending_point_cmp a b <> Gt -> shard_score_order (pp_point b) (pp_point a) <> Gt.
Proof.
  unfold pending_point_cmp, shard_score_order, then_with.
  destruct (ordered_cmp (sp_score (pp_point a)) (sp_score (pp_point b))); [|done|done].
  by destruct (id_cmp _ _).
Qed.

Lemma shard_score_order_eq_id a b : shard_score_order a b = Eq -> sp_id a = sp_id b.
Proof.
  unfold shard_score_order, then_with. destruct (ordered_cmp _ _); [|done|done].
  apply id_cmp_eq.
Qed.

Lemma feq_refl x : is_finite x = true -> feq x x = true.
Proof. destruct x as [| |s m]; try done. intros _. unfold feq, fcompare. by rewrite Z.compare_refl. Qed.

(** ** Exact segments *)

(** A segment that still has exactly [rest] to deliver. *)
Class ExactSegment (S : Type) `{SegmentPull S} := {
  segment_rest : S -> list ScoredPoint -> Prop;
  segment_rest_pull s rest n : segment_rest s rest -> 1 <= n ->
    exists ps rest' e s',
      pull_segment s n = (Returned (Ok {| br_points := ps; br_eof := e |}), s') /\
      rest = ps ++ rest' /\ (ps = [] -> e = true) /\
      (if e then rest' = [] else segment_rest s' rest');
}.

(** Segments as a shard needs them: each ranks its points, and copies of one
    point agree. *)
Record consistent (lines : list (list ScoredPoint)) : Prop := {
  c_sorted : Forall (StronglySorted (cmp_le shard_score_order)) lines;
  c_finite : Forall (fun p => is_finite (sp_score p) = true) (concat lines);
  c_ids : Forall (fun l : list ScoredPoint => NoDup (sp_id <$> l)) lines;
  c_copies : forall p q, p ∈ concat lines -> q ∈ concat lines -> sp_id p = sp_id q -> p = q;
}.

(** The order of the shard: every visible point once. *)
Definition shard_merged (lines : list (list ScoredPoint)) : list ScoredPoint :=
  sort_by shard_score_order (remove_dups (concat lines)).

Section Exact.
Context {S : Type} `{ExactSegment S} (fuel : nat).
Hypothesis (Hfuel : 2 <= fuel).
Local Abbreviation source := (SegmentScoreSource S).
Local Abbreviation shard := (ExactShardMergeState S).
Implicit Types (st : shard) (lines : list (list ScoredPoint)) (U : gset nat).

Definition segment_source_rest (src : source) (rest : list ScoredPoint) : Prop :=
  (exists rest', rest = ss_buffer src ++ rest' /\
     if ss_eof src then rest' = [] else segment_rest (ss_pull src) rest') /\
  (forall p, ss_previous src = Some p -> Forall (fun q => shard_score_order p q <> Gt) rest).

Lemma validate_ok prev ps :
  Forall (fun p => is_finite (sp_score p) = true) ps ->
  StronglySorted (cmp_le shard_score_order) ps ->
  (forall p, prev = Some p -> Forall (fun q => shard_score_order p q <> Gt) ps) ->
  validate_source_batch prev ps = Ok tt.
Proof.
  revert prev. induction ps as [|p ps IH]; intros prev Hf Hs Hp; [done |]. simpl.
  apply Forall_cons in Hf as [Hf1 Hf2]. rewrite Hf1. simpl.
  apply StronglySorted_inv in Hs as [Hs1 Hs2].
  replace (match prev with Some _ => _ | None => false end) with false.
  - apply IH; try done. by intros q [= <-].
  - destruct prev as [q|]; [|done]. specialize (Hp q eq_refl).
    apply Forall_cons in Hp as [Hp _]. by destruct (shard_score_order q p).
Qed.

(** Popping a source gives its next point, if it has one. *)
Lemma pop_exact src rest n :
  1 <= n -> segment_source_rest src rest ->
  Forall (fun p => is_finite (sp_score p) = true) rest ->
  StronglySorted (cmp_le shard_score_order) rest ->
  exists src' r, pop fuel src n = (src', Returned (Ok r)) /\ pop_point r = head rest /\
    segment_source_rest src' (tail rest).
Proof.
  intros Hn [(rest' & Er & Hr) Hp] Hf Hs. unfold pop.
  destruct fuel as [|[|f]]; [lia | lia |].
  assert (exists src1 x, pop_loop (Datatypes.S (Datatypes.S f)) src n 0 0
      = (src1, Returned (Ok x)) /\ ss_previous src1 = ss_previous src /\
      exists rest1, rest = ss_buffer src1 ++ rest1 /\
        (if ss_eof src1 then rest1 = [] else segment_rest (ss_pull src1) rest1) /\
        (ss_buffer src1 = [] -> rest1 = [])) as (src1 & [x1 x2] & -> & Ep & rest1 & Er1 & Hr1 & Hb).
  { cbn [pop_loop]. case_bool_decide as Hb; simpl.
    2:{ do 2 eexists. split_and!; [done | done |]. exists rest'. done. }
    destruct (ss_eof src) eqn:Ee; simpl.
    { do 2 eexists. split_and!; [done | done |]. exists rest'. rewrite Ee. done. }
    rewrite Hb in Er. simpl in Er. subst rest'.
    destruct (segment_rest_pull (ss_pull src) rest n Hr Hn)
      as (ps & rest2 & e & s' & -> & -> & Hne & Hr2). simpl.
    rewrite validate_ok.
    - rewrite (proj2 (andb_false_iff _ _)).
      + do 2 eexists. split_and!; [done | done |]. simpl. exists rest2.
        split_and!; try done. intros ->. by rewrite Hne in Hr2.
      + destruct ps as [|p ps]; [right; by rewrite Hne | left; done].
    - by apply Forall_app in Hf as [? _].
    - by eapply StronglySorted_app_l.
    - intros p Hpp. specialize (Hp p Hpp). by apply Forall_app in Hp as [? _]. }
  do 2 eexists. split; [done |]. simpl. split.
  { rewrite Er1. destruct (ss_buffer src1); [by rewrite Hb | done]. }
  split.
  - exists rest1. simpl. split; [|done]. rewrite Er1.
    destruct (ss_buffer src1); [by rewrite Hb | done].
  - simpl. intros p. rewrite Er1, Ep. destruct (ss_buffer src1) as [|q b] eqn:Eb; simpl.
    + rewrite Hb by done. intros. constructor.
    + intros [= <-]. rewrite Er1 in Hs. apply StronglySorted_inv in Hs as [_ Hs]. exact Hs.
Qed.

(** The shard has [lines] left; the sources in [U] have no head pending. *)
Record shard_holds st U lines : Prop := {
  s_lines : length lines = length (sm_sources st);
  s_batch : 1 <= sm_batch_size st;
  s_error : sm_terminal_error st = None;
  s_pending_nodup : NoDup (pp_source <$> sm_pending st);
  s_pending : forall i p, mkPendingPoint i p ∈ sm_pending st <->
    (i ∉ U) /\ exists l, lines !! i = Some (p :: l);
  s_source : forall i src l, sm_sources st !! i = Some src -> lines !! i = Some l ->
    segment_source_rest src (if decide (i ∈ U) then l else tail l);
  s_consistent : consistent lines;
  s_seen : forall p, p ∈ concat lines -> sp_id p ∉ sm_seen st;
}.

Lemma consistent_line lines i l :
  consistent lines -> lines !! i = Some l ->
  StronglySorted (cmp_le shard_score_order) l /\
  Forall (fun p => is_finite (sp_score p) = true) l /\ NoDup (sp_id <$> l) /\
  l ⊆ concat lines.
Proof.
  intros [Hs Hf Hn _] Hl.
  assert (Hsub : l ⊆ concat lines) by (intros p Hp; apply elem_of_concat; eauto).
  split_and!; [by eapply Forall_lookup_1 | | by eapply Forall_lookup_1 in Hn | done].
  apply Forall_forall. intros p Hp. rewrite Forall_forall in Hf. by apply Hf, Hsub.
Qed.

Lemma shard_pull_exact st U lines i limit :
  shard_holds st U lines -> i ∈ U -> i < length lines -> 1 <= limit ->
  exists st', shard_pull_source fuel st i limit = (st', Returned (Ok tt)) /\
    shard_holds st' (U ∖ {[i]}) lines /\ sm_seen st' = sm_seen st /\
    sm_batch_size st' = sm_batch_size st /\ sm_loads st' = sm_loads st.
Proof.
  intros Hd Hi Hlt Hlim. unfold shard_pull_source.
  destruct (lookup_lt_is_Some_2 lines i Hlt) as [l Hl].
  assert (Hlt' : i < length (sm_sources st)) by (by rewrite <- (s_lines _ _ _ Hd)).
  destruct (lookup_lt_is_Some_2 _ i Hlt') as [src Hsrc]. rewrite Hsrc.
  pose proof (s_source _ _ _ Hd i src l Hsrc Hl) as Hr. rewrite decide_True in Hr by done.
  destruct (consistent_line lines i l (s_consistent _ _ _ Hd) Hl) as (Hso & Hf & _ & _).
  destruct (pop_exact src l limit Hlim Hr Hf Hso) as (src' & r & -> & Hp & Hr').
  eexists. split; [done |]. split; [|done]. destruct Hd. split; simpl; try done.
  - by rewrite length_insert.
  - rewrite Hp. destruct l as [|p l]; [done |]. apply NoDup_cons. split; [|done].
    intros ([j q] & E & Hq)%list_elem_of_fmap. simpl in E. subst j.
    by apply s_pending0 in Hq as [? _].
  - intros j q. rewrite Hp. destruct l as [|p l]; simpl.
    + rewrite s_pending0. split; intros [Hj (l' & Hq)]; (split; [|eauto]); [set_solver |].
      intros HjU. destruct (decide (j = i)) as [->|]; [congruence | set_solver].
    + unfold heap_push. rewrite elem_of_cons, s_pending0. split.
      * intros [[= -> ->]|[Hj Hq]]; split; [set_solver | eauto | set_solver | done].
      * intros [Hj (l' & Hq)]. destruct (decide (j = i)) as [->|Hne].
        -- left. congruence.
        -- right. split; [set_solver | eauto].
  - intros j src1 l1 Hj1 Hj2. rewrite list_lookup_insert in Hj1.
    destruct (decide (i = j)) as [<-|Hne].
    + rewrite decide_True in Hj1 by done. rewrite decide_False by set_solver. by simplify_eq.
    + rewrite decide_False in Hj1 by tauto. specialize (s_source0 j src1 l1 Hj1 Hj2).
      rewrite decide_other by done. done.
Qed.

Lemma pull_sources_exact order st U lines limit :
  shard_holds st U lines -> NoDup order -> 1 <= limit ->
  (forall i, i ∈ order -> i ∈ U /\ i < length lines) ->
  exists st', pull_sources fuel st limit order = (st', Returned (Ok tt)) /\
    shard_holds st' (U ∖ list_to_set order) lines /\ sm_seen st' = sm_seen st /\
    sm_batch_size st' = sm_batch_size st /\ sm_loads st' = sm_loads st.
Proof.
  revert st U. induction order as [|i order IH]; intros st U Hd Hn Hlim Hi; simpl.
  - exists st. by rewrite difference_empty_L.
  - apply NoDup_cons in Hn as [Hn1 Hn2]. destruct (Hi i) as [HiU Hlt]; [left |].
    destruct (shard_pull_exact st U lines i limit Hd HiU Hlt Hlim)
      as (st1 & -> & Hd1 & Es & Eb & El).
    destruct (IH st1 (U ∖ {[i]}) Hd1 Hn2 Hlim) as (st2 & -> & Hd2 & Es2 & Eb2 & El2).
    { intros j Hj. destruct (Hi j); [by right |]. split; [|done]. set_solver. }
    exists st2. rewrite difference_difference_l_L in Hd2. split_and!; congruence || done.
Qed.

(** *** Copies *)

Lemma is_copy_iff p q :
  is_finite (sp_score p) = true -> (sp_id q = sp_id p -> q = p) ->
  is_copy p q = true <-> q = p.
Proof.
  intros Hf Hc. unfold is_copy. rewrite andb_true_iff, bool_decide_eq_true. split.
  - intros [E _]. by apply Hc.
  - intros ->. split; [done |]. by apply feq_refl.
Qed.

(** The loop pops exactly the copies of a point that precedes the heap. *)
Lemma take_duplicates_exact n p st contributing :
  length (sm_pending st) <= n -> is_finite (sp_score p) = true ->
  NoDup (pp_source <$> sm_pending st) ->
  (forall x, x ∈ sm_pending st -> shard_score_order p (pp_point x) <> Gt /\
     (sp_id (pp_point x) = sp_id p -> pp_point x = p)) ->
  exists st' more, take_duplicates n p st contributing = (st', Ok (contributing ++ more)) /\
    NoDup more /\ (forall i, i ∈ more <-> mkPendingPoint i p ∈ sm_pending st) /\
    NoDup (pp_source <$> sm_pending st') /\
    (forall x, x ∈ sm_pending st' <-> x ∈ sm_pending st /\ pp_point x <> p) /\
    sm_sources st' = sm_sources st /\ sm_seen st' = sm_seen st /\
    sm_batch_size st' = sm_batch_size st /\ sm_loads st' = sm_loads st /\
    sm_terminal_error st' = sm_terminal_error st.
Proof.
  intros Hlen Hf. revert st contributing Hlen.
  induction n as [|n IH]; intros st contributing Hlen Hn Hx; simpl.
  { exists st, []. rewrite app_nil_r. destruct (sm_pending st) eqn:E; [|simpl in Hlen; lia].
    split_and!; try done; try (by constructor); set_solver. }
  destruct (heap_pop pending_point_cmp (sm_pending st)) as [[[i m] rest]|] eqn:Epop.
  2:{ exists st, []. rewrite app_nil_r. apply heap_pop_None in Epop. rewrite Epop in *.
      split_and!; try done; try (by constructor); set_solver. }
  destruct (heap_pop_spec pending_point_cmp _ _ _ Epop) as [Hp Hmax].
  assert (Hin : mkPendingPoint i m ∈ sm_pending st) by (rewrite Hp; left).
  destruct (Hx _ Hin) as [Hle Hc]. simpl in Hle, Hc |- *.
  destruct (is_copy p m) eqn:Ec.
  - apply is_copy_iff in Ec; [|done|done]. subst m. rewrite decide_False by tauto.
    pose proof Hn as Hn'. rewrite Hp in Hn'. apply NoDup_cons in Hn' as [Hn1 Hn2].
    destruct (IH (count_points (with_pending st rest) 0 1) (contributing ++ [i]))
      as (st' & more & -> & Hm & Hmi & Hn3 & Hps & E1 & E2 & E3 & E4 & E5); simpl.
    + apply Permutation_length in Hp. simpl in Hp. lia.
    + done.
    + intros x Hxr. apply Hx. rewrite Hp. by right.
    + exists st', (i :: more). rewrite <- app_assoc. simpl in *.
      split_and!; try done.
      * apply NoDup_cons. split; [|done]. rewrite Hmi. intros Hir. apply Hn1.
        by apply (list_elem_of_fmap_2 pp_source _ (mkPendingPoint i p)).
      * intros j. rewrite elem_of_cons, Hmi, Hp, elem_of_cons. naive_solver.
      * intros x. rewrite Hps, Hp, elem_of_cons. split; [naive_solver |].
        intros [[->|?] Hne]; [by destruct Hne | done].
  - assert (Hnm : m <> p).
    { intros Emp. apply (is_copy_iff p m) in Emp; congruence || done. }
    assert (Hno : forall x, x ∈ sm_pending st -> pp_point x <> p).
    { intros x Hxi Ex. apply Hnm, Hc. symmetry. apply shard_score_order_eq_id.
      apply Hmax, pending_point_order in Hxi. simpl in Hxi. rewrite Ex in Hxi.
      rewrite (cmp_opp shard_score_order) in Hxi. by destruct (shard_score_order p m). }
    exists st, []. rewrite app_nil_r. split_and!; try done; try (by constructor).
    + intros j. split; [by intros ?%elem_of_nil |]. intros Hj. by destruct (Hno _ Hj).
    + intros x. split; [|tauto]. intros Hxi. split; [done | by apply Hno].
Qed.

(** *** Emission *)

(** Every line that starts with [p] moves past it. *)
Definition drop_head (p : ScoredPoint) (l : list ScoredPoint) : list ScoredPoint :=
  match l with x :: l' => if decide (x = p) then l' else l | [] => [] end.

Definition advance_lines (p : ScoredPoint) lines : list (list ScoredPoint) :=
  drop_head p <$> lines.

Lemma drop_head_cases p l :
  (l = p :: drop_head p l) \/ (drop_head p l = l /\ head l <> Some p).
Proof.
  destruct l as [|x l]; simpl; [by right |]. case_decide; [left; congruence | right; split; congruence].
Qed.

Lemma consistent_advance p lines : consistent lines -> consistent (advance_lines p lines).
Proof.
  intros [Hs Hf Hn Hc].
  assert (Hsub : concat (advance_lines p lines) ⊆ concat lines).
  { intros q (i & l & Hl & Hq)%elem_of_concat. unfold advance_lines in Hl.
    rewrite list_lookup_fmap in Hl. apply fmap_Some in Hl as (l' & Hl' & ->).
    apply elem_of_concat. exists i, l'. split; [done |].
    destruct (drop_head_cases p l') as [E|[E _]]; [rewrite E; by right | by rewrite <- E]. }
  split.
  - apply Forall_fmap. eapply Forall_impl; [exact Hs |]. intros l Hl. unfold compose.
    destruct (drop_head_cases p l) as [E|[-> _]]; [|done].
    rewrite E in Hl. by apply StronglySorted_inv in Hl as [? _].
  - apply Forall_forall. intros q Hq. rewrite Forall_forall in Hf. by apply Hf, Hsub.
  - apply Forall_fmap. eapply Forall_impl; [exact Hn |]. intros l Hl. unfold compose.
    destruct (drop_head_cases p l) as [E|[-> _]]; [|done].
    simpl in Hl. rewrite E in Hl. by apply NoDup_cons in Hl as [_ ?].
  - intros q r Hq Hr. apply Hc; by apply Hsub.
Qed.

(** A point that precedes every head precedes everything, and its copies
    are heads. *)
Section Least.
Context lines (p : ScoredPoint) (i : nat) (l0 : list ScoredPoint).
Hypotheses (C : consistent lines) (Hl0 : lines !! i = Some (p :: l0))
  (Hmin : forall j q l, lines !! j = Some (q :: l) -> shard_score_order p q <> Gt).

Lemma least_all q : q ∈ concat lines -> shard_score_order p q <> Gt.
Proof.
  intros (j & l & Hl & Hq)%elem_of_concat.
  destruct l as [|h l]; [by apply elem_of_nil in Hq |].
  destruct (consistent_line lines j _ C Hl) as (Hs & _).
  apply elem_of_cons in Hq as [->|Hq]; [by eapply Hmin |].
  apply StronglySorted_inv in Hs as [_ Hs]. rewrite Forall_forall in Hs.
  eapply (cmp_trans shard_score_order); [by eapply Hmin | by apply Hs].
Qed.

Lemma least_not_after : p ∉ concat (advance_lines p lines).
Proof.
  intros (j & l & Hl & Hp)%elem_of_concat. unfold advance_lines in Hl.
  rewrite list_lookup_fmap in Hl. apply fmap_Some in Hl as (l' & Hl' & ->).
  destruct (consistent_line lines j _ C Hl') as (Hs & _ & Hn & _).
  destruct (drop_head_cases p l') as [E|[E Hh]].
  - rewrite E in Hn. apply NoDup_cons in Hn as [Hn _]. apply Hn.
    by apply list_elem_of_fmap_2.
  - rewrite E in Hp. destruct l' as [|h l']; [by apply elem_of_nil in Hp |].
    apply elem_of_cons in Hp as [->|Hp]; [by destruct Hh |].
    apply StronglySorted_inv in Hs as [_ Hs]. rewrite Forall_forall in Hs.
    specialize (Hs p Hp). unfold cmp_le in Hs.
    pose proof (Hmin j h l' Hl') as Hle. rewrite (cmp_opp shard_score_order) in Hle.
    assert (sp_id h = sp_id p) as Eid.
    { apply shard_score_order_eq_id. by destruct (shard_score_order h p). }
    apply NoDup_cons in Hn as [Hn _]. apply Hn. rewrite Eid. by apply list_elem_of_fmap_2.
Qed.

Lemma elem_of_advance q : q ∈ concat lines <-> q = p \/ q ∈ concat (advance_lines p lines).
Proof.
  rewrite !elem_of_concat. unfold advance_lines. setoid_rewrite list_lookup_fmap. split.
  - intros (j & l & Hl & Hq). destruct (drop_head_cases p l) as [E|[E _]].
    + rewrite E in Hq. apply elem_of_cons in Hq as [->|Hq]; [by left |]. right.
      exists j, (drop_head p l). by rewrite Hl.
    + right. exists j, (drop_head p l). split; [by rewrite Hl | by rewrite E].
  - intros [->|(j & l & Hl & Hq)]; [exists i, (p :: l0); split; [done | left] |].
    apply fmap_Some in Hl as (l' & Hl' & ->). exists j, l'. split; [done |].
    destruct (drop_head_cases p l') as [E|[E _]]; [rewrite E; by right | by rewrite <- E].
Qed.

Lemma shard_merged_cons : shard_merged lines = p :: shard_merged (advance_lines p lines).
Proof.
  unfold shard_merged.
  assert (P : remove_dups (concat lines) ≡ₚ
    p :: remove_dups (concat (advance_lines p lines))).
  { apply NoDup_Permutation; [apply NoDup_remove_dups | |].
    - apply NoDup_cons. split; [|apply NoDup_remove_dups].
      rewrite elem_of_remove_dups. apply least_not_after.
    - intros q. rewrite elem_of_cons, !elem_of_remove_dups. apply elem_of_advance. }
  pose proof (consistent_advance p lines C) as C'.
  destruct (sorted_head shard_score_order p
    (sort_by shard_score_order (remove_dups (concat lines)))
    (remove_dups (concat (advance_lines p lines)))) as (l'' & E & Hperm).
  - apply sort_by_sorted, _.
  - by rewrite sort_by_perm.
  - intros q Hq. rewrite elem_of_remove_dups in Hq.
    assert (Hq' : q ∈ concat lines) by (apply (proj2 (elem_of_advance q)); right; exact Hq).
    pose proof (least_all q Hq') as Hle.
    destruct (shard_score_order p q) eqn:Eo; [|done|done].
    apply shard_score_order_eq_id in Eo. exfalso.
    assert (Ep : q = p).
    { apply (c_copies _ C); [done | | done]. apply elem_of_advance. by left. }
    rewrite Ep in Hq. by apply least_not_after.
  - rewrite E. f_equal. apply (sorted_unique shard_score_order).
    + intros x y Hx Hy Exy%shard_score_order_eq_id. rewrite Hperm in Hx, Hy.
      rewrite elem_of_remove_dups in Hx, Hy. by apply (c_copies _ C').
    + pose proof (sort_by_sorted shard_score_order (remove_dups (concat lines))) as Hs.
      rewrite E in Hs. by apply StronglySorted_inv in Hs as [? _].
    + apply sort_by_sorted, _.
    + by rewrite sort_by_perm.
Qed.
End Least.

(** After the copies of the best point were popped, the lines that start
    with it are unfilled. *)
Lemma holds_take_copies st lines i p rest st' more :
  shard_holds st ∅ lines ->
  heap_pop pending_point_cmp (sm_pending st) = Some (mkPendingPoint i p, rest) ->
  NoDup (pp_source <$> sm_pending st') ->
  NoDup more -> (forall j, j ∈ more <-> mkPendingPoint j p ∈ rest) ->
  (forall x, x ∈ sm_pending st' <-> x ∈ rest /\ pp_point x <> p) ->
  sm_sources st' = sm_sources st -> sm_seen st' = sm_seen st ->
  sm_batch_size st' = sm_batch_size st -> sm_terminal_error st' = sm_terminal_error st ->
  NoDup (i :: more) /\ (forall j, j ∈ i :: more -> j < length lines) /\
  shard_holds st' (list_to_set (i :: more)) (advance_lines p lines).
Proof.
  intros Hd Hpop Hn' Hnm Hm Hx E1 E2 E3 E4.
  destruct (heap_pop_spec pending_point_cmp _ _ _ Hpop) as [Hp _].
  pose proof (s_pending_nodup _ _ _ Hd) as Hn. rewrite Hp in Hn.
  apply NoDup_cons in Hn as [Hn1 Hn2].
  assert (Hall : forall j, j ∈ i :: more <-> exists l, lines !! j = Some (p :: l)).
  { intros j. pose proof (s_pending _ _ _ Hd j p) as Hj. rewrite Hp, elem_of_cons in Hj.
    rewrite elem_of_cons, Hm. split.
    - intros Hc. apply Hj. naive_solver.
    - intros Hc. destruct (proj2 Hj) as [[= ->]|?]; [split; [set_solver | done] | by left | by right]. }
  split_and!.
  - apply NoDup_cons. split; [|done]. rewrite Hm. intros Hi. apply Hn1.
    by apply (list_elem_of_fmap_2 pp_source _ (mkPendingPoint i p)).
  - intros j Hj. apply Hall in Hj as [l Hl]. by eapply lookup_lt_Some.
  - assert (Hlook : forall j l, advance_lines p lines !! j = Some l ->
      exists l', lines !! j = Some l' /\
        ((j ∈ i :: more) /\ l' = p :: l \/ (j ∉ i :: more) /\ l' = l)).
    { intros j l Hl. unfold advance_lines in Hl. rewrite list_lookup_fmap in Hl.
      apply fmap_Some in Hl as (l' & Hl' & ->). exists l'. split; [done |].
      destruct (drop_head_cases p l') as [E|[E Hh]].
      - left. split; [|done]. apply Hall. exists (drop_head p l'). by rewrite <- E.
      - right. split; [|done]. intros [l Hl]%Hall. rewrite Hl in Hl'. injection Hl' as <-.
        by destruct Hh. }
    destruct Hd. split; rewrite ?E1, ?E2, ?E3, ?E4; try done.
    + unfold advance_lines. by rewrite length_fmap.
    + intros j q. rewrite Hx, elem_of_list_to_set. simpl. split.
      * intros [Hj Hne].
        assert (Hj' : mkPendingPoint j q ∈ sm_pending st) by (rewrite Hp; by right).
        apply s_pending0 in Hj' as [_ [l Hl]].
        assert (Hnj : j ∉ i :: more) by (intros [l' Hl']%Hall; congruence).
        split; [done |]. exists l. unfold advance_lines. rewrite list_lookup_fmap, Hl. simpl.
        by rewrite decide_False.
      * intros [Hnj [l Hl]]. destruct (Hlook j _ Hl) as (l' & Hl' & [[? _]|[_ ->]]); [done |].
        assert (Hne : q <> p) by (intros ->; apply Hnj, Hall; eauto).
        split; [|done].
        assert (Hj : mkPendingPoint j q ∈ sm_pending st)
          by (apply s_pending0; split; [set_solver | eauto]).
        rewrite Hp in Hj. apply elem_of_cons in Hj as [[= _ ?]|?]; done.
    + intros j src l Hj Hl. destruct (Hlook j _ Hl) as (l' & Hl' & Hc).
      specialize (s_source0 j src l' Hj Hl'). rewrite decide_False in s_source0 by set_solver.
      destruct Hc as [[Hin ->]|[Hin ->]];
        [rewrite decide_True | rewrite decide_False]; rewrite ?elem_of_list_to_set; done.
    + by apply consistent_advance.
    + intros q Hq. apply s_seen0. apply elem_of_concat in Hq as (j & l & Hl & Hq).
      destruct (Hlook j _ Hl) as (l' & Hl' & Hc). apply elem_of_concat. exists j, l'.
      split; [done |]. destruct Hc as [[_ ->]|[_ ->]]; [by right | done].
Qed.

Context (stopped_at : nat -> bool).

(** One emission of an uncancelled shard. *)
Lemma shard_next_inner_exact st lines :
  shard_holds st ∅ lines -> stopped_at (sm_loads st) = false ->
  exists st', sm_loads st' = Datatypes.S (sm_loads st) /\
  match shard_merged lines with
  | [] => shard_next_inner fuel stopped_at st = (st', Returned (Ok None)) /\
      shard_holds st' ∅ lines
  | p :: rest => shard_next_inner fuel stopped_at st = (st', Returned (Ok (Some p))) /\
      exists lines', shard_holds st' ∅ lines' /\ shard_merged lines' = rest
  end.
Proof.
  intros Hd Hs. unfold shard_next_inner, load_stopped. rewrite Hs. simpl.
  destruct (heap_pop pending_point_cmp (sm_pending st)) as [[[i p] rest]|] eqn:Epop.
  2:{ apply heap_pop_None in Epop.
      assert (concat lines = []) as Ec.
      { apply elem_of_nil_inv. intros q (i & l & Hl & Hq)%elem_of_concat.
        destruct l as [|hd l]; [by apply elem_of_nil in Hq |].
        assert (mkPendingPoint i hd ∈ sm_pending st) as Hin
          by (apply (s_pending _ _ _ Hd); split; [set_solver | eauto]).
        rewrite Epop in Hin. by apply elem_of_nil in Hin. }
      unfold shard_merged. rewrite Ec. eexists. split; [|split; [done |]]; [done |].
      by destruct Hd. }
  destruct (heap_pop_spec pending_point_cmp _ _ _ Epop) as [Hp Hmax].
  assert (Hin : mkPendingPoint i p ∈ sm_pending st) by (rewrite Hp; left).
  apply (s_pending _ _ _ Hd) in Hin as [_ [l0 Hl0]].
  pose proof (s_consistent _ _ _ Hd) as C.
  assert (Hmin : forall j q l, lines !! j = Some (q :: l) -> shard_score_order p q <> Gt).
  { intros j q l Hl. apply (pending_point_order (mkPendingPoint j q) (mkPendingPoint i p)).
    apply Hmax, (s_pending _ _ _ Hd). split; [set_solver | eauto]. }
  assert (Hpin : p ∈ concat lines)
    by (apply elem_of_concat; exists i, (p :: l0); split; [done | left]).
  assert (Hfin : is_finite (sp_score p) = true).
  { pose proof (c_finite _ C) as Hf. rewrite Forall_forall in Hf. by apply Hf. }
  cbn [pp_point pp_source]. set (st0 := with_pending _ rest).
  destruct (take_duplicates_exact (length rest) p st0 [i])
    as (st1 & more & -> & Hnm & Hm & Hn1 & Hx & E1 & E2 & E3 & E4 & E5);
    [done | done | | |].
  { pose proof (s_pending_nodup _ _ _ Hd) as Hn. rewrite Hp in Hn.
    by apply NoDup_cons in Hn as [_ ?]. }
  { intros [j q] Hj. assert (Hj' : mkPendingPoint j q ∈ sm_pending st) by (rewrite Hp; by right).
    apply (s_pending _ _ _ Hd) in Hj' as [_ [l Hl]]. simpl. split; [by eapply Hmin |].
    intros Eid. apply (c_copies _ C); try done. apply elem_of_concat.
    exists j, (q :: l). split; [done | left]. }
  cbn [app]. destruct (holds_take_copies st lines i p rest st1 more) as (HnC & HltC & Hd1); try done.
  destruct (pull_sources_exact (i :: more) st1 _ _ (sm_batch_size st1) Hd1 HnC)
    as (st2 & -> & Hd2 & Es & Eb & El).
  { apply (s_batch _ _ _ Hd1). }
  { intros j Hj. split; [by apply elem_of_list_to_set |].
    unfold advance_lines. rewrite length_fmap. by apply HltC. }
  rewrite difference_diag_L in Hd2. rewrite decide_False.
  2:{ rewrite Es, E2. by apply (s_seen _ _ _ Hd). }
  rewrite (shard_merged_cons lines p i l0 C Hl0 Hmin). eexists. split; [|split; [done |]].
  - simpl. rewrite El, E4. done.
  - exists (advance_lines p lines). split; [|done].
    assert (Hnot : p ∉ concat (advance_lines p lines)) by (by eapply least_not_after).
    destruct Hd2. split; try done. simpl. intros q Hq.
    intros [Eq%elem_of_singleton|Hsn]%elem_of_union; [|by apply (s_seen0 q Hq)].
    assert (Ep : q = p); [|subst q; done]. apply (c_copies _ C); [|done|done].
    eapply elem_of_advance; [done.. | by right].
Qed.

Lemma shard_batch_loop_exact n st lines output :
  shard_holds st ∅ lines -> (forall k, stopped_at k = false) ->
  exists st' lines', shard_holds st' ∅ lines' /\
    shard_merged lines' = drop n (shard_merged lines) /\
    shard_batch_loop fuel stopped_at n st output =
      (st', Returned (Ok (output ++ take n (shard_merged lines)))).
Proof.
  intros Hd Hs. revert st lines output Hd. induction n as [|n IH]; intros st lines output Hd; simpl.
  - exists st, lines. by rewrite app_nil_r, drop_0.
  - destruct (shard_next_inner_exact st lines Hd (Hs _)) as (st1 & _ & Hn).
    destruct (shard_merged lines) as [|p rest] eqn:Em.
    + destruct Hn as [-> Hd1]. exists st1, lines. by rewrite app_nil_r.
    + destruct Hn as (-> & lines1 & Hd1 & Em1).
      destruct (IH st1 lines1 (output ++ [p]) Hd1) as (st2 & lines2 & Hd2 & Em2 & ->).
      exists st2, lines2. rewrite Em2, Em1. by rewrite <- app_assoc.
Qed.

Lemma holds_shard_start (srcs : list source) lines visible batch :
  1 <= batch -> consistent lines -> Forall2 segment_source_rest srcs lines ->
  shard_holds (shard_start srcs visible batch) (list_to_set (seq 0 (length srcs))) lines.
Proof.
  intros Hb Hc F2. pose proof (Forall2_length _ _ _ F2) as L.
  split; simpl; try done.
  - constructor.
  - intros i p. split; [by intros ?%elem_of_nil |]. intros [Hi [l Hl]]. exfalso. apply Hi.
    apply elem_of_list_to_set, elem_of_seq. apply lookup_lt_Some in Hl. lia.
  - intros i src l Hsrc Hl. pose proof (lookup_lt_Some _ _ _ Hsrc).
    rewrite decide_True by (apply elem_of_list_to_set, elem_of_seq; lia).
    by eapply Forall2_lookup_lr.
Qed.

Lemma shard_open_exact (srcs : list source) lines visible batch :
  1 <= batch -> consistent lines -> Forall2 segment_source_rest srcs lines ->
  exists st, shard_open fuel srcs visible batch = Returned (Ok st) /\ shard_holds st ∅ lines.
Proof.
  intros Hb Hc F2. unfold shard_open. rewrite decide_False by lia.
  pose proof (Forall2_length _ _ _ F2) as L.
  destruct (pull_sources_exact (seq 0 (length srcs)) _ _ lines 1
    (holds_shard_start srcs lines visible batch Hb Hc F2)) as (st & -> & Hd & _).
  - apply NoDup_seq.
  - lia.
  - intros i Hi. split; [by apply elem_of_list_to_set |]. apply elem_of_seq in Hi. lia.
  - exists st. by rewrite difference_diag_L in Hd.
Qed.

(** Successive requests. *)
Fixpoint shard_pull_all st (sizes : list nat) : list (outcome (list ScoredPoint)) :=
  match sizes with
  | [] => []
  | n :: sizes =>
      let '(st, r) := next_batch fuel stopped_at st n in r :: shard_pull_all st sizes
  end.

Lemma shard_pull_all_exact st lines sizes :
  shard_holds st ∅ lines -> (forall k, stopped_at k = false) ->
  Forall (fun n => n <> 0) sizes ->
  shard_pull_all st sizes = (fun b => Returned (Ok b)) <$> cut (shard_merged lines) sizes.
Proof.
  intros Hd Hs Hz. revert st lines Hd.
  induction Hz as [|n sizes Hn Hz IH]; intros st lines Hd; [done |].
  simpl. unfold next_batch. rewrite decide_False by done. rewrite (s_error _ _ _ Hd).
  destruct (shard_batch_loop_exact n st lines [] Hd Hs) as (st' & lines' & Hd' & Em & ->).
  rewrite (IH st' lines' Hd'), Em. done.
Qed.

(** [C13] A shard stream is exact: over segments that deliver their points
    in order and agree on the copies they share, it opens without error,
    and any sequence of positive requests cuts the one shard order (every
    visible point once, by descending score, ties by identity) into
    consecutive pieces. *)
Theorem shard_stream_exact (srcs : list source) lines visible batch sizes :
  1 <= batch -> consistent lines -> Forall2 segment_source_rest srcs lines ->
  (forall k, stopped_at k = false) -> Forall (fun n => n <> 0) sizes ->
  exists st, shard_open fuel srcs visible batch = Returned (Ok st) /\
    shard_pull_all st sizes =
      (fun b => Returned (Ok b)) <$> cut (shard_merged lines) sizes.
Proof.
  intros Hb Hc F2 Hs Hz.
  destruct (shard_open_exact srcs lines visible batch Hb Hc F2) as (st & E & Hd).
  exists st. split; [done |]. by apply shard_pull_all_exact.
Qed.
End Exact.

(** ** Failure and cancellation *)

Section Failure.
Context {S : Type} `{SegmentPull S} (fuel : nat) (stopped_at : nat -> bool).
Local Abbreviation shard := (ExactShardMergeState S).

Lemma shard_batch_loop_error n (st st' : shard) output e :
  shard_batch_loop fuel stopped_at n st output = (st', Returned (Err e)) ->
  sm_terminal_error st' = Some e.
Proof.
  revert st output. induction n as [|n IH]; intros st output; simpl; [done |].
  destruct (shard_next_inner fuel stopped_at st) as [st1 [[[p|]|e']| |]]; try done.
  - apply IH.
  - by intros [= <- <-].
Qed.

(** [C34] A shard stream fails closed, whatever its segments do: after a
    failed request every later request fails with the same error and
    leaves the stream as it is, and a request that finds the stream
    cancelled fails with [Cancelled] instead of reporting the end. *)
Theorem shard_failure_sticky (st st' : shard) n m :
  n <> 0 -> m <> 0 ->
  (forall e, next_batch fuel stopped_at st n = (st', Returned (Err e)) ->
     next_batch fuel stopped_at st' m = (st', Returned (Err e))) /\
  (stopped_at (sm_loads st) = true -> sm_terminal_error st = None ->
     exists st'', next_batch fuel stopped_at st n =
       (st'', Returned (Err (Cancelled "exact {} Shard stream was cancelled")))).
Proof.
  intros Hn Hm. unfold next_batch. rewrite !decide_False by done. split.
  - intros e. destruct (sm_terminal_error st) as [e'|] eqn:Et.
    { intros [= <- <-]. by rewrite Et. }
    intros E. by rewrite (shard_batch_loop_error _ _ _ _ _ E).
  - intros Hs ->. destruct n as [|n]; [done |]. simpl.
    unfold shard_next_inner, load_stopped. rewrite Hs. eauto.
Qed.
End Failure.

(** ** The fallback is an exact segment *)

Lemma saturating_add_small a b c :
  (N.of_nat c <= USIZE_MAX)%N -> Nat.min (saturating_add a b) c = Nat.min (a + b) c.
Proof. unfold saturating_add. lia. Qed.

#[export] Program Instance materialized_exact : ExactSegment Materialized :=
  {| segment_rest m rest := rest = drop (mat_next m) (mat_points m) /\
       mat_next m <= length (mat_points m) /\
       (N.of_nat (length (mat_points m)) <= USIZE_MAX)%N |}.
Next Obligation.
  intros [ps next] rest n (-> & Hn & Hmax) H1. simpl in *.
  unfold pull_segment, materialized_pull. simpl. rewrite saturating_add_small by done.
  set (finish := Nat.min (next + n) (length ps)).
  exists (take (finish - next) (drop next ps)), (drop finish ps), (finish =? length ps). eexists.
  split; [done |]. split_and!.
  - rewrite <- (take_drop (finish - next) (drop next ps)) at 1. f_equal.
    rewrite drop_drop. f_equal. lia.
  - intros E. apply Nat.eqb_eq. apply (f_equal length) in E.
    rewrite length_take, length_drop in E. simpl in E. lia.
  - destruct (Nat.eqb_spec finish (length ps)) as [->|]; [by apply drop_ge |].
    simpl. split_and!; try done. lia.
Qed.

#[export] Instance materialized_order_TotalCmp : TotalCmp materialized_order.
Proof.
  apply TotalCmp_then; [|apply TotalCmp_then].
  - apply (TotalCmp_flip (fun a b => ordered_cmp (sp_score a) (sp_score b))).
    apply (TotalCmp_key ordered_cmp sp_score), _.
  - apply (TotalCmp_key id_cmp sp_id), _.
  - apply (TotalCmp_flip (fun a b => N.compare (sp_version a) (sp_version b))).
    apply (TotalCmp_key N.compare sp_version), _.
Qed.

Lemma materialized_order_le a b :
  cmp_le materialized_order a b -> cmp_le shard_score_order a b.
Proof.
  unfold cmp_le, materialized_order, shard_score_order, then_with.
  destruct (ordered_cmp _ _); [|done|done]. by destruct (id_cmp _ _).
Qed.

(** The exhaustive fallback is an exact segment source: from the result
    of an exact search it builds a source that delivers exactly those points,
    in descending score with ties in identity order, over any sequence of
    requests. *)
Theorem materialized_source_exact (points : list ScoredPoint) :
  (N.of_nat (length points) <= USIZE_MAX)%N ->
  exists src line, materialized_exact_source (Ok [points]) = Ok src /\
    segment_source_rest src line /\ line ≡ₚ points /\
    StronglySorted (cmp_le shard_score_order) line.
Proof.
  intros Hmax. do 2 eexists. split; [done |].
  set (line := sort_by materialized_order points).
  assert (P : line ≡ₚ points) by apply sort_by_perm.
  split_and!; [| exact P |].
  - split; [|done]. exists line. split; [done |]. simpl. fold line.
    rewrite drop_0, (Permutation_length P). split_and!; [done | lia | done].
  - eapply StronglySorted_ind with (P := StronglySorted (cmp_le shard_score_order)).
    + constructor.
    + intros a l _ IH F. constructor; [exact IH |]. eapply Forall_impl; [exact F |].
      intros b. apply materialized_order_le.
    + apply sort_by_sorted, _.
Qed.

(** ** Conflicting copies *)

Section Conflicts.
Context {S : Type} `{SegmentPull S}.
Local Abbreviation shard := (ExactShardMergeState S).

Lemma feq_ordered x y :
  is_finite x = true -> is_finite y = true -> feq x y = true <-> ordered_cmp x y = Eq.
Proof.
  destruct x as [| |s a], y as [| |t b]; try done. intros _ _. unfold feq, ordered_cmp, fcompare.
  by destruct (Z.compare _ _).
Qed.

Lemma is_copy_order p q :
  is_finite (sp_score p) = true -> is_finite (sp_score q) = true ->
  is_copy p q = true <-> shard_score_order p q = Eq.
Proof.
  intros Hp Hq. unfold is_copy, shard_score_order, then_with.
  rewrite andb_true_iff, bool_decide_eq_true, feq_ordered by done. split.
  - intros [E ->]. by apply id_cmp_eq.
  - destruct (ordered_cmp _ _); [|done|done]. intros E%id_cmp_eq. done.
Qed.

(** A copy at another version is found wherever it is in the heap. *)
Lemma take_duplicates_conflict n p (st : shard) contributing x :
  length (sm_pending st) <= n ->
  Forall (fun y => is_finite (sp_score (pp_point y)) = true /\
                   shard_score_order p (pp_point y) <> Gt) (sm_pending st) ->
  is_finite (sp_score p) = true ->
  x ∈ sm_pending st -> is_copy p (pp_point x) = true ->
  sp_version (pp_point x) <> sp_version p ->
  exists st', take_duplicates n p st contributing = (st', Err (InconsistentStorage
    "exact {} Shard generation contains point {} at conflicting versions {} and {}")).
Proof.
  intros Hlen HF Hp. revert st contributing Hlen HF.
  induction n as [|n IH]; intros st contributing Hlen HF Hx Hc Hv.
  { destruct (sm_pending st); [by apply elem_of_nil in Hx | simpl in Hlen; lia]. }
  simpl. destruct (heap_pop pending_point_cmp (sm_pending st)) as [[m rest]|] eqn:Epop.
  2:{ apply heap_pop_None in Epop. rewrite Epop in Hx. by apply elem_of_nil in Hx. }
  destruct (heap_pop_spec pending_point_cmp _ _ _ Epop) as [HP Hmax].
  pose proof HF as HF'. rewrite HP in HF'. apply Forall_cons in HF' as [[Hfm Hle] HF'].
  assert (Hcm : is_copy p (pp_point m) = true).
  { apply is_copy_order; [done | done |].
    rewrite Forall_forall in HF. destruct (HF x Hx) as [Hfx _].
    apply is_copy_order in Hc; [|done|done].
    apply Hmax, pending_point_order in Hx.
    assert (Hmp : shard_score_order (pp_point m) p <> Gt).
    { eapply (cmp_trans shard_score_order); [exact Hx |].
      rewrite (cmp_opp shard_score_order), Hc. done. }
    rewrite (cmp_opp shard_score_order) in Hmp. by destruct (shard_score_order p (pp_point m)). }
  rewrite Hcm. case_decide as D; [eauto |].
  rewrite HP in Hx. apply elem_of_cons in Hx as [->|Hx]; [done |].
  apply IH; try done. simpl. apply Permutation_length in HP. simpl in HP. lia.
Qed.

(** Conflicting copies are an error: when the best pending point has a
    copy with the same score at another version in some other segment, the
    shard reports inconsistent storage instead of choosing one. *)
Theorem conflicting_versions_rejected fuel stopped_at (st : shard) best rest x :
  stopped_at (sm_loads st) = false ->
  heap_pop pending_point_cmp (sm_pending st) = Some (best, rest) ->
  Forall (fun y => is_finite (sp_score (pp_point y)) = true) (sm_pending st) ->
  x ∈ rest -> is_copy (pp_point best) (pp_point x) = true ->
  sp_version (pp_point x) <> sp_version (pp_point best) ->
  exists st', shard_next_inner fuel stopped_at st = (st', Returned (Err (InconsistentStorage
    "exact {} Shard generation contains point {} at conflicting versions {} and {}"))).
Proof.
  intros Hs Epop HF Hx Hc Hv. unfold shard_next_inner, load_stopped. rewrite Hs. simpl.
  rewrite Epop. destruct (heap_pop_spec pending_point_cmp _ _ _ Epop) as [HP Hmax].
  rewrite HP in HF. apply Forall_cons in HF as [Hb HF].
  destruct (take_duplicates_conflict (length rest) (pp_point best)
    (with_pending {| sm_sources := sm_sources st; sm_pending := sm_pending st;
      sm_seen := sm_seen st; sm_batch_size := sm_batch_size st;
      sm_loads := Datatypes.S (sm_loads st); sm_telemetry := sm_telemetry st;
      sm_terminal_error := sm_terminal_error st |} rest) [pp_source best] x)
    as [st' ->]; try done; [|eauto].
  simpl. apply Forall_forall. intros y Hy. rewrite Forall_forall in HF. split; [by apply HF |].
  apply pending_point_order, Hmax. rewrite HP. by right.
Qed.
End Conflicts.

(** ** Examples *)

Definition point_at (id version : N) (s : Z) : ScoredPoint :=
  {| sp_id := NumId id; sp_version := version; sp_score := of_Z binary32 s |}.

(** Two segments that share point 2. *)
Definition example_segments : list (list ScoredPoint) :=
  [[point_at 1 1 9; point_at 2 1 7]; [point_at 2 1 7; point_at 3 1 5]].

Definition segment_over (points : list ScoredPoint) : SegmentScoreSource Materialized :=
  on_demand {| mat_points := points; mat_next := 0 |} ExhaustiveFallback.

Lemma segment_over_rest points :
  (N.of_nat (length points) <= USIZE_MAX)%N -> segment_source_rest (segment_over points) points.
Proof.
  intros Hm. split; [|done]. exists points. split; [done |]. simpl. split_and!; [done | lia | done].
Qed.

Lemma example_segments_rest :
  Forall2 segment_source_rest (segment_over <$> example_segments) example_segments.
Proof.
  apply Forall2_fmap_l, Forall_Forall2_diag.
  repeat (constructor; [apply segment_over_rest; by vm_compute |]). constructor.
Qed.

#[export] Instance shard_score_order_le_dec p q : Decision (cmp_le shard_score_order p q).
Proof. unfold cmp_le. apply _. Defined.

Lemma example_consistent : consistent example_segments.
Proof.
  split.
  - repeat (constructor; [repeat constructor; by vm_compute |]). constructor.
  - repeat (constructor; [by vm_compute |]). constructor.
  - apply (bool_decide_unpack _). by vm_compute.
  - assert (F : Forall (fun p => Forall (fun q => sp_id p = sp_id q -> p = q)
      (concat example_segments)) (concat example_segments)).
    { apply (bool_decide_unpack _). by vm_compute. }
    rewrite Forall_forall in F. intros p q Hp Hq. specialize (F p Hp).
    rewrite Forall_forall in F. by apply F.
Qed.

Lemma shard_stream_exact_witness :
  exists st, shard_open 2 (segment_over <$> example_segments) 4 8 = Returned (Ok st) /\
    shard_pull_all 2 (fun _ => false) st [2; 2] =
      [Returned (Ok [point_at 1 1 9; point_at 2 1 7]); Returned (Ok [point_at 3 1 5])].
Proof.
  destruct (shard_stream_exact 2 ltac:(lia) (fun _ => false) (segment_over <$> example_segments)
    example_segments 4 8 [2; 2]) as (st & E & Hp).
  - lia.
  - apply example_consistent.
  - apply example_segments_rest.
  - reflexivity.
  - repeat constructor; discriminate.
  - exists st. split; [exact E |]. rewrite Hp. vm_compute. reflexivity.
Defined.

Lemma shard_failure_sticky_witness :
  exists st, shard_open 2 (segment_over <$> example_segments) 4 8 = Returned (Ok st) /\
    exists st', next_batch 2 (fun _ => true) st 5 =
        (st', Returned (Err (Cancelled "exact {} Shard stream was cancelled"))) /\
      next_batch 2 (fun _ => true) st' 7 =
        (st', Returned (Err (Cancelled "exact {} Shard stream was cancelled"))).
Proof.
  destruct (shard_open 2 (segment_over <$> example_segments) 4 8) as [[st|]| |] eqn:E;
    try (vm_compute in E; discriminate E).
  exists st. split; [reflexivity |].
  destruct (shard_failure_sticky 2 (fun _ => true) st st 5 7 ltac:(lia) ltac:(lia))
    as [_ Hc].
  destruct Hc as [st' E'].
  - reflexivity.
  - vm_compute in E. injection E as <-. reflexivity.
  - exists st'. split; [exact E' |].
    destruct (shard_failure_sticky 2 (fun _ => true) st st' 5 7 ltac:(lia) ltac:(lia))
      as [Hs _]. apply Hs. exact E'.
Defined.

Lemma materialized_source_exact_witness :
  exists src line, materialized_exact_source (Ok [[point_at 2 1 7; point_at 1 1 9]]) = Ok src /\
    segment_source_rest src line /\ line ≡ₚ [point_at 2 1 7; point_at 1 1 9].
Proof.
  destruct (materialized_source_exact [point_at 2 1 7; point_at 1 1 9])
    as (src & line & E & Hr & Hp & _).
  - vm_compute. discriminate.
  - exists src, line. split; [exact E |]. split; [exact Hr | exact Hp].
Defined.

Lemma conflicting_versions_rejected_witness :
  exists st st', shard_open 2 [segment_over [point_at 2 1 7]; segment_over [point_at 2 3 7]] 2 8
      = Returned (Ok st) /\
    shard_next_inner 2 (fun _ => false) st = (st', Returned (Err (InconsistentStorage
      "exact {} Shard generation contains point {} at conflicting versions {} and {}"))).
Proof.
  destruct (shard_open 2 [segment_over [point_at 2 1 7]; segment_over [point_at 2 3 7]] 2 8)
    as [[st|]| |] eqn:E; try (vm_compute in E; discriminate E).
  destruct (conflicting_versions_rejected 2 (fun _ => false) st
    (mkPendingPoint 1 (point_at 2 3 7)) [mkPendingPoint 0 (point_at 2 1 7)]
    (mkPendingPoint 0 (point_at 2 1 7))) as [st' E'].
  - reflexivity.
  - vm_compute in E. injection E as <-. vm_compute. reflexivity.
  - vm_compute in E. injection E as <-. repeat (constructor; [vm_compute; reflexivity |]). constructor.
  - left.
  - vm_compute. reflexivity.
  - vm_compute. discriminate.
  - exists st, st'. split; [reflexivity | exact E'].
Defined.
