(* ===== verification/DenseRank.v ===== *)
(** * Exact dense ranking inside one segment

    lib/segment/src/index/dense_rank_state/{core,contiguous,plans,types}.rs.
    A dense ranking is read off in batches.  With a certificate, every
    eligible point starts with an interval for its score; the point with the
    greatest upper bound is scored exactly until the best exact score cannot
    be beaten by any bound that is left.  Without one, all points are scored
    and sorted.

    The scorer is the vector storage's: it is a parameter, a function from a
    list of offsets to a list of scores, and the theorems assume only that it
    scores each offset by itself.  The file proves that both plans deliver the
    same order, batch by batch, without scoring a point twice, and that a
    broken certificate is reported. *)

From S2P Require Import Prelude Float Order PointId RrfScoring RrfState RrfSession RrfExact.
From S2P Require Import RankStream ShardStream.

Open Scope result_scope.

(** ** Data *)

Inductive DensePhysicalPlan : Type :=
  | ScalarCertificate
  | PerVectorScalarCertificate
  | ExactScan.

Record DenseExecutionPolicy : Type := mkDenseExecutionPolicy {
  scalar_min_points : nat;
  force_exact_scan : bool;
}.

Definition DEFAULT_DENSE_SCALAR_MIN_POINTS : nat := N.to_nat 4096.

Definition DenseExecutionPolicy_default : DenseExecutionPolicy :=
  {| scalar_min_points := DEFAULT_DENSE_SCALAR_MIN_POINTS; force_exact_scan := false |}.

Record DenseExecutionTelemetry : Type := mkDenseTelemetry {
  dt_plan : option DensePhysicalPlan;
  dt_eligible_points : nat;
  dt_accepted_prefix_points : nat;
  dt_quantized_scores : nat;
  dt_exact_scores : nat;
  dt_points_emitted : nat;
}.

Record PendingBound : Type := mkPendingBound {
  pb_id : N;
  pb_lower : float;
  pb_value : float;
}.

(** [Ord for PendingBound] *)
Definition bound_cmp (a b : PendingBound) : comparison :=
  then_with (ordered_cmp (pb_value a) (pb_value b)) (N.compare (pb_id b) (pb_id a)).

(** [Ord for PendingExact] *)
Definition exact_cmp (a b : ScoredPointOffset) : comparison :=
  then_with (ordered_cmp (score a) (score b)) (N.compare (idx b) (idx a)).

Record CertificateState : Type := mkCertificateState {
  exact_refine_batch : nat;
  bounds : list PendingBound;
  exact : list ScoredPointOffset;
  exact_scores : gmap N float;
}.

Record ExactScanState : Type := mkExactScanState {
  scan_points : option (list ScoredPointOffset);
  scan_next : nat;
}.

Inductive DenseRankStateInner : Type :=
  | Certificate (state : CertificateState)
  | Scan (state : ExactScanState).

Inductive EligibleUniverse : Type :=
  | Explicit (points : list N)
  | Contiguous (count : nat).

Record DenseRankState : Type := mkDenseRankState {
  inner : DenseRankStateInner;
  eligible : EligibleUniverse;
  dense_telemetry : DenseExecutionTelemetry;
}.

(** ** Construction *)

(** [v.windows(2).any(|pair| pair[0] == pair[1])] *)
Fixpoint adjacent_equal (l : list N) : bool :=
  match l with
  | x :: (y :: _) as l => (x =? y)%N || adjacent_equal l
  | _ => false
  end.

Definition fresh_telemetry (plan : DensePhysicalPlan) (points quantized : nat)
    : DenseExecutionTelemetry :=
  {| dt_plan := Some plan; dt_eligible_points := points; dt_accepted_prefix_points := 0;
     dt_quantized_scores := quantized; dt_exact_scores := 0; dt_points_emitted := 0 |}.

Definition invalid_bound (lower upper : float) : bool :=
  negb (is_finite lower) || negb (is_finite upper) || flt upper lower.

Definition from_certificate_bounds_batched (eligible : list N)
    (bounds : list (N * float * float)) (refine_batch : nat) (plan : DensePhysicalPlan)
    (quantized_scores : nat) : OperationResult DenseRankState :=
  if decide (refine_batch = 0) then
    Err (ValidationError "exact Dense exact-refine batch must be positive")
  else
    let eligible := sort_by N.compare eligible in
    if adjacent_equal eligible then
      Err (InconsistentStorage "exact Dense session received duplicate eligible point offsets")
    else
      let bound_ids := sort_by N.compare ((fun '(id, _, _) => id) <$> bounds) in
      if bool_decide (bound_ids <> eligible)
         || existsb (fun '(_, lower, upper) => invalid_bound lower upper) bounds then
        Err (InconsistentStorage "exact Dense session bounds do not match its eligible universe")
      else
        let pending :=
          (fun '(id, lower, value) => {| pb_id := id; pb_lower := lower; pb_value := value |})
            <$> bounds in
        Ok {| inner := Certificate {| exact_refine_batch := refine_batch; bounds := pending;
                                      exact := []; exact_scores := ∅ |};
              eligible := Explicit eligible;
              dense_telemetry := fresh_telemetry plan (length eligible) quantized_scores |}.

Definition POINT_OFFSET_COUNT : N := 2 ^ 32.

Definition from_contiguous_pending_batched (point_count : nat) (pending : list PendingBound)
    (refine_batch : nat) (plan : DensePhysicalPlan) (quantized_scores : nat)
    : OperationResult DenseRankState :=
  if decide (refine_batch = 0) then
    Err (ValidationError "exact Dense exact-refine batch must be positive")
  else if decide (POINT_OFFSET_COUNT < N.of_nat point_count)%N then
    Err (InconsistentStorage "contiguous exact Dense universe exceeds PointOffsetType")
  else if bool_decide (length pending <> point_count)
          || existsb (fun '(ordinal, bound) =>
               bool_decide (N.to_nat (pb_id bound) <> ordinal)
               || invalid_bound (pb_lower bound) (pb_value bound)) (imap pair pending) then
    Err (InconsistentStorage
      "exact Dense Pending bounds do not match the contiguous eligible universe")
  else
    Ok {| inner := Certificate {| exact_refine_batch := refine_batch; bounds := pending;
                                  exact := []; exact_scores := ∅ |};
          eligible := Contiguous point_count;
          dense_telemetry := fresh_telemetry plan point_count quantized_scores |}.

Definition build_exact_scan_state (eligible : list N) : OperationResult DenseRankState :=
  Ok {| inner := Scan {| scan_points := None; scan_next := 0 |};
        eligible := Explicit eligible;
        dense_telemetry := fresh_telemetry ExactScan (length eligible) 0 |}.

(** ** Advancing *)

(** [ranked.sort_unstable_by] of the scan. *)
Definition offset_order (left right : ScoredPointOffset) : comparison :=
  then_with (ordered_cmp (score right) (score left)) (N.compare (idx left) (idx right)).

Section Advance.
(** [FnMut(&[PointOffsetType], &mut [f32])]: the scores it writes. *)
Context (exact_scorer : list N -> list float).

Definition eligible_ids (universe : EligibleUniverse) : list N :=
  match universe with
  | Explicit ids => ids
  | Contiguous count => N.of_nat <$> seq 0 count
  end.

Definition count_exact (t : DenseExecutionTelemetry) (scored emitted : nat)
    : DenseExecutionTelemetry :=
  {| dt_plan := dt_plan t; dt_eligible_points := dt_eligible_points t;
     dt_accepted_prefix_points := dt_accepted_prefix_points t;
     dt_quantized_scores := dt_quantized_scores t;
     dt_exact_scores := dt_exact_scores t + scored;
     dt_points_emitted := dt_points_emitted t + emitted |}.

(** Cache the scores of the unresolved points. *)
Fixpoint cache_scores (c : CertificateState) (t : DenseExecutionTelemetry)
    (scored : list (N * float))
    : CertificateState * DenseExecutionTelemetry * OperationResult unit :=
  match scored with
  | [] => (c, t, Ok tt)
  | (id, s) :: scored =>
      if negb (is_finite s) then
        (c, t, Err (InconsistentStorage
           "exact Dense exact scorer returned a non-finite score for point {id}"))
      else
        cache_scores
          {| exact_refine_batch := exact_refine_batch c; bounds := bounds c; exact := exact c;
             exact_scores := <[id := s]> (exact_scores c) |} (count_exact t 1 0) scored
  end.

(** Check each refined point against its interval and queue it; its score
    is in the cache. *)
Fixpoint push_exact (c : CertificateState) (refined : list PendingBound)
    : CertificateState * OperationResult unit :=
  match refined with
  | [] => (c, Ok tt)
  | bound :: refined =>
      let s := exact_scores c !!! pb_id bound in
      if flt (f64_of_f32 s) (pb_lower bound) || flt (pb_value bound) (f64_of_f32 s) then
        (c, Err (InconsistentStorage
           "exact Dense certificate violated for point {}: score {score}, interval [{}, {}]"))
      else
        push_exact
          {| exact_refine_batch := exact_refine_batch c; bounds := bounds c;
             exact := heap_push {| idx := pb_id bound; score := s |} (exact c);
             exact_scores := exact_scores c |} refined
  end.

Definition refine_bounds_with (c : CertificateState) (t : DenseExecutionTelemetry)
    (refined : list PendingBound)
    : CertificateState * DenseExecutionTelemetry * OperationResult unit :=
  let unresolved := filter (fun id => exact_scores c !! id = None) (pb_id <$> refined) in
  let '(c, t, cached) := cache_scores c t (zip unresolved (exact_scorer unresolved)) in
  match cached with
  | Err e => (c, t, Err e)
  | Ok _ => let '(c, r) := push_exact c refined in (c, t, r)
  end.

(** Whether the best exact score can no longer be beaten. *)
Definition certificate_fixed (c : CertificateState) : bool :=
  match heap_peek exact_cmp (exact c), heap_peek bound_cmp (bounds c) with
  | None, _ => false
  | Some _, None => true
  | Some exact, Some bound =>
      flt (pb_value bound) (f64_of_f32 (score exact))
      || (feq (f64_of_f32 (score exact)) (pb_value bound) && (idx exact <? pb_id bound)%N)
  end.

Definition pop_exact_point (c : CertificateState)
    : CertificateState * option ScoredPointOffset :=
  match heap_pop exact_cmp (exact c) with
  | None => (c, None)
  | Some (point, rest) =>
      ({| exact_refine_batch := exact_refine_batch c; bounds := bounds c; exact := rest;
          exact_scores := exact_scores c |}, Some point)
  end.

(** Up to [n] of the greatest bounds, greatest first. *)
Fixpoint pop_bounds (n : nat) (bs : list PendingBound) : list PendingBound * list PendingBound :=
  match n with
  | 0 => ([], bs)
  | S n =>
      match heap_pop bound_cmp bs with
      | None => ([], bs)
      | Some (bound, bs) => let '(refine, bs) := pop_bounds n bs in (bound :: refine, bs)
      end
  end.

(** The inner loop; every iteration removes a bound, so one more iteration
    than there are bounds is enough. *)
Fixpoint certificate_loop (fuel : nat) (c : CertificateState) (t : DenseExecutionTelemetry)
    : CertificateState * DenseExecutionTelemetry
      * OperationResult (option ScoredPointOffset) :=
  match fuel with
  | 0 => (c, t, Ok None)
  | S fuel =>
      if certificate_fixed c then let '(c, point) := pop_exact_point c in (c, t, Ok point)
      else
        match bounds c with
        | [] => let '(c, point) := pop_exact_point c in (c, t, Ok point)
        | _ =>
            let '(refine, rest) := pop_bounds (Nat.max 1 (exact_refine_batch c)) (bounds c) in
            let c := {| exact_refine_batch := exact_refine_batch c; bounds := rest;
                        exact := exact c; exact_scores := exact_scores c |} in
            match refine_bounds_with c t refine with
            | (c, t, Ok _) => certificate_loop fuel c t
            | (c, t, Err e) => (c, t, Err e)
            end
        end
  end.

Definition certificate_next (c : CertificateState) (t : DenseExecutionTelemetry) :=
  certificate_loop (S (length (bounds c))) c t.

(** *** The scan *)

Definition initialize_scan (universe : EligibleUniverse) (scan : ExactScanState)
    (t : DenseExecutionTelemetry)
    : OperationResult (ExactScanState * DenseExecutionTelemetry) :=
  match scan_points scan with
  | Some _ => Ok (scan, t)
  | None =>
      let ids := eligible_ids universe in
      let scores := exact_scorer ids in
      if existsb (fun s => negb (is_finite s)) scores then
        Err (InconsistentStorage "exact Dense scorer returned a non-finite score")
      else
        let ranked := sort_by offset_order
          (zip_with (fun i s => {| idx := i; score := s |}) ids scores) in
        Ok ({| scan_points := Some ranked; scan_next := scan_next scan |},
            {| dt_plan := dt_plan t; dt_eligible_points := dt_eligible_points t;
               dt_accepted_prefix_points := dt_accepted_prefix_points t;
               dt_quantized_scores := dt_quantized_scores t;
               dt_exact_scores := length ranked; dt_points_emitted := dt_points_emitted t |})
  end.

Definition scan_next_point (scan : ExactScanState)
    : ExactScanState * option ScoredPointOffset :=
  let point := default [] (scan_points scan) !! scan_next scan in
  ({| scan_points := scan_points scan;
      scan_next := scan_next scan + match point with Some _ => 1 | None => 0 end |}, point).

(** *** Batches *)

Definition next_dense_point (s : DenseRankState)
    : DenseRankState * OperationResult (option ScoredPointOffset) :=
  match inner s with
  | Scan scan =>
      let '(scan, point) := scan_next_point scan in
      ({| inner := Scan scan; eligible := eligible s; dense_telemetry := dense_telemetry s |},
       Ok point)
  | Certificate c =>
      let '(c, t, r) := certificate_next c (dense_telemetry s) in
      ({| inner := Certificate c; eligible := eligible s; dense_telemetry := t |}, r)
  end.

(** The outer loop, [n] points to go. *)
Fixpoint dense_batch_loop (n : nat) (s : DenseRankState) (points : list ScoredPointOffset)
    : DenseRankState * OperationResult (list ScoredPointOffset) :=
  match n with
  | 0 => (s, Ok points)
  | S n =>
      match next_dense_point s with
      | (s, Err e) => (s, Err e)
      | (s, Ok None) => (s, Ok points)
      | (s, Ok (Some point)) =>
          dense_batch_loop n
            {| inner := inner s; eligible := eligible s;
               dense_telemetry := count_exact (dense_telemetry s) 0 1 |} (points ++ [point])
      end
  end.

Definition next_batch_with (s : DenseRankState) (max_results : nat)
    : DenseRankState * OperationResult (list ScoredPointOffset) :=
  if decide (max_results = 0) then
    (s, Err (ValidationError "exact Dense rank batch must be positive"))
  else
    match inner s with
    | Scan scan =>
        match initialize_scan (eligible s) scan (dense_telemetry s) with
        | Err e => (s, Err e)
        | Ok (scan, t) =>
            dense_batch_loop max_results
              {| inner := Scan scan; eligible := eligible s; dense_telemetry := t |} []
        end
    | Certificate _ => dense_batch_loop max_results s []
    end.
End Advance.

(** ** Orders *)

#[export] Instance bound_cmp_TotalCmp : TotalCmp bound_cmp.
Proof.
  apply TotalCmp_then; [apply (TotalCmp_key ordered_cmp pb_value), _ |].
  apply (TotalCmp_flip (fun a b => N.compare (pb_id a) (pb_id b))).
  apply (TotalCmp_key N.compare pb_id), _.
Qed.

#[export] Instance exact_cmp_TotalCmp : TotalCmp exact_cmp.
Proof.
  apply TotalCmp_then; [apply (TotalCmp_key ordered_cmp score), _ |].
  apply (TotalCmp_flip (fun a b => N.compare (idx a) (idx b))).
  apply (TotalCmp_key N.compare idx), _.
Qed.

#[export] Instance offset_order_TotalCmp : TotalCmp offset_order.
Proof.
  apply TotalCmp_then.
  - apply (TotalCmp_flip (fun a b => ordered_cmp (score a) (score b))).
    apply (TotalCmp_key ordered_cmp score), _.
  - apply (TotalCmp_key N.compare idx), _.
Qed.

Lemma offset_order_eq_idx a b : offset_order a b = Eq -> idx a = idx b.
Proof.
  unfold offset_order, then_with. destruct (ordered_cmp _ _); [|done|done].
  apply N.compare_eq_iff.
Qed.

Lemma offset_order_lt a b :
  is_finite (score a) = true -> is_finite (score b) = true ->
  (val (score b) < val (score a))%Z \/ val (score b) = val (score a) /\ (idx a < idx b)%N ->
  offset_order a b = Lt.
Proof.
  intros Ha Hb H. unfold offset_order, then_with. rewrite finite_ordered by done.
  destruct H as [H|[-> H]].
  - by rewrite (proj2 (Z.compare_lt_iff _ _) H).
  - rewrite Z.compare_refl. by apply N.compare_lt_iff.
Qed.

(** ** The certificate *)

Section Certificate.
Context (exact_scorer : list N -> list float) (exact_score : N -> float).

(** The scorer scores every offset by itself. *)
Hypothesis (Hscorer : forall ids, exact_scorer ids = exact_score <$> ids).

Definition scored_offset (i : N) : ScoredPointOffset := {| idx := i; score := exact_score i |}.

(** The order of the segment: by descending score, ties by offset. *)
Definition dense_order (ids : list N) : list ScoredPointOffset :=
  sort_by offset_order (scored_offset <$> ids).

(** The interval of a bound contains the exact score. *)
Definition bound_valid (b : PendingBound) : Prop :=
  is_finite (pb_lower b) = true /\ is_finite (pb_value b) = true /\
  (val (pb_lower b) <= val (exact_score (pb_id b)) * f64_unit <= val (pb_value b))%Z.

(** [ids] are the offsets not yet emitted. *)
Record cert_holds (c : CertificateState) (ids : list N) : Prop := {
  ch_perm : (pb_id <$> bounds c) ++ (idx <$> exact c) ≡ₚ ids;
  ch_nodup : NoDup ids;
  ch_finite : Forall (fun i => is_finite (exact_score i) = true) ids;
  ch_bounds : Forall bound_valid (bounds c);
  ch_exact : Forall (fun e => e = scored_offset (idx e)) (exact c);
  ch_cache : map_Forall (fun i s => s = exact_score i) (exact_scores c);
}.

Lemma dense_order_perm ids ids' :
  NoDup ids -> ids ≡ₚ ids' -> dense_order ids = dense_order ids'.
Proof.
  intros N P. unfold dense_order. apply (sorted_unique offset_order).
  - intros x y Hx Hy E%offset_order_eq_idx. rewrite sort_by_perm in Hx, Hy.
    apply list_elem_of_fmap in Hx as (i & -> & _). apply list_elem_of_fmap in Hy as (j & -> & _).
    simpl in E. by subst.
  - apply sort_by_sorted, _.
  - apply sort_by_sorted, _.
  - by rewrite !sort_by_perm, P.
Qed.

(** An offset that precedes all others heads the order. *)
Lemma dense_order_cons i ids :
  NoDup (i :: ids) ->
  (forall j, j ∈ ids -> offset_order (scored_offset i) (scored_offset j) = Lt) ->
  dense_order (i :: ids) = scored_offset i :: dense_order ids.
Proof.
  intros Hn Hlt. unfold dense_order.
  destruct (sorted_head offset_order (scored_offset i)
    (sort_by offset_order (scored_offset <$> i :: ids)) (scored_offset <$> ids))
    as (l & E & Hp).
  - apply sort_by_sorted, _.
  - by rewrite sort_by_perm.
  - intros y (j & -> & Hj)%list_elem_of_fmap. by apply Hlt.
  - rewrite E. f_equal. apply (sorted_unique offset_order).
    + intros x y Hx Hy Exy%offset_order_eq_idx. rewrite Hp in Hx, Hy.
      apply list_elem_of_fmap in Hx as (j & -> & _).
      apply list_elem_of_fmap in Hy as (j' & -> & _). simpl in Exy. by subst.
    + pose proof (sort_by_sorted offset_order (scored_offset <$> i :: ids)) as Hs.
      rewrite E in Hs. by apply StronglySorted_inv in Hs as [? _].
    + apply sort_by_sorted, _.
    + by rewrite sort_by_perm.
Qed.

(** *** Emission *)

Section Fixed.
Context (c : CertificateState) (ids : list N) (e : ScoredPointOffset)
  (rest : list ScoredPointOffset).
Hypotheses (Hd : cert_holds c ids) (Hpop : heap_pop exact_cmp (exact c) = Some (e, rest)).

Lemma popped_exact : exact c ≡ₚ e :: rest /\ e = scored_offset (idx e) /\ idx e ∈ ids /\
  is_finite (score e) = true /\ forall y, y ∈ exact c -> offset_order e y <> Gt.
Proof.
  destruct (heap_pop_spec exact_cmp _ _ _ Hpop) as [HP Hmax].
  assert (Hin : e ∈ exact c) by (rewrite HP; left).
  assert (He : e = scored_offset (idx e)).
  { pose proof (ch_exact _ _ Hd) as F. rewrite Forall_forall in F. by apply F. }
  assert (Hi : idx e ∈ ids).
  { rewrite <- (ch_perm _ _ Hd). apply elem_of_app. right. by apply list_elem_of_fmap_2. }
  split_and!; try done.
  rewrite He. simpl. pose proof (ch_finite _ _ Hd) as F. rewrite Forall_forall in F. by apply F.
Qed.

(** The offsets that are left after [e]. *)
Definition others : list N := (pb_id <$> bounds c) ++ (idx <$> rest).

Lemma others_perm : ids ≡ₚ idx e :: others.
Proof.
  destruct popped_exact as (HP & _). rewrite <- (ch_perm _ _ Hd), HP. simpl.
  unfold others. by rewrite Permutation_middle.
Qed.

Lemma popped_before :
  certificate_fixed c = true ->
  forall j, j ∈ others -> offset_order e (scored_offset j) = Lt.
Proof.
  intros Hfix j Hj. destruct popped_exact as (HP & He & Hi & Hf & Hmin).
  pose proof (ch_nodup _ _ Hd) as Hn. rewrite others_perm in Hn.
  apply NoDup_cons in Hn as [Hn1 Hn2].
  unfold others in Hj. apply elem_of_app in Hj as [Hj|Hj].
  - apply list_elem_of_fmap in Hj as (b & -> & Hb).
    pose proof (ch_bounds _ _ Hd) as Fb. rewrite Forall_forall in Fb.
    destruct (Fb b Hb) as (Hbl & Hbv & _ & Hbs).
    assert (Hfs : is_finite (exact_score (pb_id b)) = true).
    { pose proof (ch_finite _ _ Hd) as F. rewrite Forall_forall in F. apply F.
      rewrite <- (ch_perm _ _ Hd). apply elem_of_app. left. by apply list_elem_of_fmap_2. }
    unfold certificate_fixed, heap_peek in Hfix. rewrite Hpop in Hfix. simpl in Hfix.
    destruct (heap_pop bound_cmp (bounds c)) as [[B bs]|] eqn:EB; simpl in Hfix.
    2:{ apply heap_pop_None in EB. rewrite EB in Hb. by apply elem_of_nil in Hb. }
    destruct (heap_pop_spec bound_cmp _ _ _ EB) as [HPB HmaxB].
    destruct (Fb B) as (_ & HBv & _ & _); [rewrite HPB; left |].
    specialize (HmaxB b Hb). unfold bound_cmp, then_with in HmaxB.
    rewrite finite_ordered in HmaxB by done.
    rewrite finite_lt, finite_eq in Hfix by (done || by rewrite finite_f64).
    rewrite val_f64 in Hfix. pose proof f64_unit_pos as Hu.
    apply offset_order_lt; [done | done |]. simpl.
    apply orb_prop in Hfix as [Hgt%Z.ltb_lt|[Heq%Z.eqb_eq Hlt%N.ltb_lt]%andb_prop].
    + left. destruct (Z.compare_spec (val (pb_value b)) (val (pb_value B))); [| |done]; nia.
    + destruct (Z.compare_spec (val (pb_value b)) (val (pb_value B))) as [E|E|E]; [| |done].
      * destruct (Z.eq_dec (val (exact_score (pb_id b))) (val (score e))) as [Ev|Ev].
        -- right. split; [done |]. destruct (N.compare_spec (pb_id B) (pb_id b)); [lia | lia | done].
        -- left. nia.
      * left. nia.
  - apply list_elem_of_fmap in Hj as (y & -> & Hy).
    assert (Hy' : y ∈ exact c) by (rewrite HP; by right).
    assert (Ey : y = scored_offset (idx y)).
    { pose proof (ch_exact _ _ Hd) as F. rewrite Forall_forall in F. by apply F. }
    rewrite <- Ey. specialize (Hmin y Hy').
    destruct (offset_order e y) eqn:Eo; [|done|done].
    apply offset_order_eq_idx in Eo. exfalso. apply Hn1. rewrite Eo. apply elem_of_app. right.
    by apply list_elem_of_fmap_2.
Qed.

Lemma emit_exact :
  certificate_fixed c = true ->
  dense_order ids = e :: dense_order others /\
  cert_holds {| exact_refine_batch := exact_refine_batch c; bounds := bounds c;
                exact := rest; exact_scores := exact_scores c |} others.
Proof.
  intros Hfix. destruct popped_exact as (HP & He & Hi & Hf & Hmin).
  pose proof (ch_nodup _ _ Hd) as Hn. pose proof Hn as Hn'. rewrite others_perm in Hn'.
  split.
  - rewrite (dense_order_perm ids (idx e :: others)) by (done || apply others_perm).
    rewrite dense_order_cons; [by rewrite <- He | done |].
    intros j Hj. rewrite <- He. by apply popped_before.
  - apply NoDup_cons in Hn' as [_ Hn']. destruct Hd. split; simpl; try done.
    + rewrite others_perm in ch_finite0. by apply Forall_cons in ch_finite0 as [_ ?].
    + rewrite HP in ch_exact0. by apply Forall_cons in ch_exact0 as [_ ?].
Qed.
End Fixed.

(** *** Refinement *)

Lemma pop_bounds_perm n bs refine rest :
  pop_bounds n bs = (refine, rest) ->
  bs ≡ₚ refine ++ rest /\ (bs <> [] -> n <> 0 -> refine <> []).
Proof.
  revert bs refine rest. induction n as [|n IH]; intros bs refine rest; simpl.
  { by intros [= <- <-]. }
  destruct (heap_pop bound_cmp bs) as [[b bs']|] eqn:E.
  - destruct (pop_bounds n bs') as [r bs''] eqn:E'. intros [= <- <-].
    destruct (heap_pop_spec bound_cmp _ _ _ E) as [HP _]. destruct (IH _ _ _ E') as [HP' _].
    split; [|done]. by rewrite HP, HP'.
  - intros [= <- <-]. apply heap_pop_None in E. by subst.
Qed.

Lemma cache_scores_ok c t ids :
  Forall (fun i => is_finite (exact_score i) = true) ids ->
  map_Forall (fun i s => s = exact_score i) (exact_scores c) ->
  exists c' t', cache_scores c t (zip ids (exact_score <$> ids)) = (c', t', Ok tt) /\
    bounds c' = bounds c /\ exact c' = exact c /\
    exact_refine_batch c' = exact_refine_batch c /\
    map_Forall (fun i s => s = exact_score i) (exact_scores c') /\
    (forall i, i ∈ ids \/ is_Some (exact_scores c !! i) -> is_Some (exact_scores c' !! i)).
Proof.
  revert c t. induction ids as [|i ids IH]; intros c t Hf Hm; csimpl.
  { exists c, t. split_and!; try done. intros i [?%elem_of_nil|?]; done. }
  apply Forall_cons in Hf as [Hf1 Hf2]. rewrite Hf1. cbn [negb].
  destruct (IH {| exact_refine_batch := exact_refine_batch c; bounds := bounds c;
    exact := exact c; exact_scores := <[i := exact_score i]> (exact_scores c) |}
    (count_exact t 1 0) Hf2) as (c' & t' & -> & E1 & E2 & E3 & Hm' & Hc).
  { by apply map_Forall_insert_2. }
  exists c', t'. split_and!; try done. intros j Hj. apply Hc. simpl.
  rewrite elem_of_cons in Hj. destruct (decide (j = i)) as [->|Hne].
  - right. rewrite lookup_insert_eq. done.
  - rewrite lookup_insert_ne by done. tauto.
Qed.

Lemma push_exact_ok c refined :
  Forall bound_valid refined ->
  Forall (fun b => is_finite (exact_score (pb_id b)) = true) refined ->
  Forall (fun b => exact_scores c !! pb_id b = Some (exact_score (pb_id b))) refined ->
  exists c', push_exact c refined = (c', Ok tt) /\
    bounds c' = bounds c /\ exact_scores c' = exact_scores c /\
    exact_refine_batch c' = exact_refine_batch c /\
    exact c' ≡ₚ (scored_offset <$> (pb_id <$> refined)) ++ exact c.
Proof.
  revert c. induction refined as [|b refined IH]; intros c Hv Hf Hc; simpl.
  { by exists c. }
  apply Forall_cons in Hv as [(Hl & Hu & Hb1 & Hb2) Hv]. apply Forall_cons in Hf as [Hf1 Hf].
  apply Forall_cons in Hc as [Hc1 Hc]. rewrite (lookup_total_correct _ _ _ Hc1).
  rewrite !finite_lt by (done || by rewrite finite_f64). rewrite val_f64.
  rewrite (proj2 (Z.ltb_ge _ _)) by done. rewrite (proj2 (Z.ltb_ge _ _)) by done. simpl.
  destruct (IH {| exact_refine_batch := exact_refine_batch c; bounds := bounds c;
    exact := heap_push {| idx := pb_id b; score := exact_score (pb_id b) |} (exact c);
    exact_scores := exact_scores c |} Hv Hf Hc) as (c' & -> & E1 & E2 & E3 & HP).
  exists c'. split_and!; try done. rewrite HP. simpl. unfold heap_push.
  by rewrite Permutation_middle.
Qed.

Lemma refine_ok c t refined ids :
  Forall bound_valid refined -> map_Forall (fun i s => s = exact_score i) (exact_scores c) ->
  Forall (fun i => is_finite (exact_score i) = true) ids -> (pb_id <$> refined) ⊆ ids ->
  exists c' t', refine_bounds_with exact_scorer c t refined = (c', t', Ok tt) /\
    bounds c' = bounds c /\
    exact c' ≡ₚ (scored_offset <$> (pb_id <$> refined)) ++ exact c /\
    map_Forall (fun i s => s = exact_score i) (exact_scores c').
Proof.
  intros Hv Hm Hf Hsub. unfold refine_bounds_with. rewrite Hscorer.
  set (unresolved := filter _ _). rewrite Forall_forall in Hf.
  destruct (cache_scores_ok c t unresolved) as (c1 & t1 & -> & E1 & E2 & E3 & Hm1 & Hc1); [|done|].
  { apply Forall_forall. intros i Hi. apply Hf, Hsub.
    by apply list_elem_of_filter in Hi as [_ ?]. }
  destruct (push_exact_ok c1 refined) as (c2 & -> & F1 & F2 & F3 & HP); [done | | |].
  - apply Forall_forall. intros b Hb. apply Hf, Hsub. by apply list_elem_of_fmap_2.
  - apply Forall_forall. intros b Hb. destruct (Hc1 (pb_id b)) as [s Hs].
    + destruct (exact_scores c !! pb_id b) eqn:Ec; [right; eauto | left].
      apply list_elem_of_filter. split; [done | by apply list_elem_of_fmap_2].
    + rewrite Hs. f_equal. by apply (Hm1 _ _ Hs).
  - exists c2, t1. rewrite F1, F2, HP, E2. split_and!; try done; congruence.
Qed.

(** *** The loops *)

Lemma certificate_fixed_empty c : bounds c = [] -> certificate_fixed c = false -> exact c = [].
Proof.
  intros Eb. unfold certificate_fixed, heap_peek. rewrite Eb. simpl.
  destruct (heap_pop exact_cmp (exact c)) as [[e r]|] eqn:E; [done |].
  intros _. by apply heap_pop_None in E.
Qed.

Lemma certificate_loop_exact fuel c t ids :
  length (bounds c) < fuel -> cert_holds c ids ->
  exists c' t' ids', certificate_loop exact_scorer fuel c t = (c', t', Ok (head (dense_order ids)))
    /\ cert_holds c' ids' /\ dense_order ids' = tail (dense_order ids).
Proof.
  revert c t. induction fuel as [|fuel IH]; intros c t Hlen Hd; [lia |]. simpl.
  destruct (certificate_fixed c) eqn:Hfix.
  - unfold pop_exact_point. destruct (heap_pop exact_cmp (exact c)) as [[e rest]|] eqn:Epop.
    + destruct (emit_exact c ids e rest Hd Epop Hfix) as [-> Hd'].
      do 3 eexists. split; [done |]. split; [exact Hd' | done].
    + apply heap_pop_None in Epop. unfold certificate_fixed, heap_peek in Hfix.
      by rewrite Epop in Hfix.
  - destruct (bounds c) as [|b bs] eqn:Eb.
    + pose proof (certificate_fixed_empty c Eb Hfix) as Ee. unfold pop_exact_point.
      rewrite Ee. simpl. assert (ids = []) as ->.
      { apply Permutation_nil_r. rewrite <- (ch_perm _ _ Hd), Eb, Ee. done. }
      by exists c, t, [].
    + rewrite <- Eb in *.
      destruct (pop_bounds (Nat.max 1 (exact_refine_batch c)) (bounds c)) as [refine rest] eqn:Ep.
      destruct (pop_bounds_perm _ _ _ _ Ep) as [HP Hne].
      assert (Hr : refine <> []) by (apply Hne; [rewrite Eb; done | lia]).
      pose proof (ch_bounds _ _ Hd) as Hv. rewrite HP in Hv. apply Forall_app in Hv as [Hv1 Hv2].
      destruct (refine_ok {| exact_refine_batch := exact_refine_batch c; bounds := rest;
        exact := exact c; exact_scores := exact_scores c |} t refine ids)
        as (c' & t' & -> & E1 & E2 & Hm).
      { done. }
      { apply Hd. }
      { apply Hd. }
      { intros i Hi. rewrite <- (ch_perm _ _ Hd), HP, fmap_app. set_solver. }
      simpl in E1, E2. apply IH.
      * rewrite E1. apply Permutation_length in HP. rewrite length_app in HP.
        destruct refine; [done | simpl in HP; lia].
      * destruct Hd. split; try done.
        -- rewrite E1, E2, fmap_app, <- ch_perm0, HP, fmap_app.
           assert (Ei : forall l : list N, idx <$> (scored_offset <$> l) = l)
             by (intros l; rewrite <- list_fmap_compose; apply list_fmap_id).
           rewrite Ei. solve_Permutation.
        -- by rewrite E1.
        -- rewrite E2. apply Forall_app. split; [|done].
           apply Forall_forall. intros e He. apply list_elem_of_fmap in He as (i & -> & _). done.
Qed.

(** The certificate delivers the dense order one point at a time. *)
Lemma certificate_next_exact c t ids :
  cert_holds c ids ->
  exists c' t' ids', certificate_next exact_scorer c t = (c', t', Ok (head (dense_order ids)))
    /\ cert_holds c' ids' /\ dense_order ids' = tail (dense_order ids).
Proof. apply certificate_loop_exact. lia. Qed.

(** *** Batches of either plan *)

Definition dense_rest (s : DenseRankState) (rest : list ScoredPointOffset) : Prop :=
  match inner s with
  | Certificate c => exists ids, cert_holds c ids /\ rest = dense_order ids
  | Scan scan =>
      match scan_points scan with
      | Some ranked => rest = drop (scan_next scan) ranked
      | None => scan_next scan = 0 /\ rest = dense_order (eligible_ids (eligible s)) /\
          Forall (fun i => is_finite (exact_score i) = true) (eligible_ids (eligible s))
      end
  end.

(** The state is ready: a scan has been initialised. *)
Definition initialized (s : DenseRankState) : Prop :=
  match inner s with Certificate _ => True | Scan scan => is_Some (scan_points scan) end.

Lemma next_dense_point_exact s rest :
  dense_rest s rest -> initialized s ->
  exists s', next_dense_point exact_scorer s = (s', Ok (head rest)) /\
    dense_rest s' (tail rest) /\ initialized s'.
Proof.
  unfold dense_rest, initialized, next_dense_point. destruct (inner s) as [c|scan].
  - intros (ids & Hd & ->) _.
    destruct (certificate_next_exact c (dense_telemetry s) ids Hd) as (c' & t' & ids' & -> & Hd' & E).
    eexists. split; [done |]. split; [|done]. exists ids'. done.
  - intros Hr [ranked Er]. rewrite Er in Hr. subst rest. unfold scan_next_point. rewrite Er. simpl.
    assert (head (drop (scan_next scan) ranked) = ranked !! scan_next scan) as ->.
    { rewrite <- (Nat.add_0_r (scan_next scan)) at 2. rewrite <- lookup_drop.
      by destruct (drop (scan_next scan) ranked). }
    eexists. split; [done |]. simpl.
    split; [|eauto].
    destruct (ranked !! scan_next scan) as [p|] eqn:Ep.
    + rewrite (drop_S _ _ _ Ep). simpl. f_equal. lia.
    + apply lookup_ge_None_1 in Ep. rewrite !drop_ge by lia. done.
Qed.

Lemma dense_batch_loop_exact n s rest points :
  dense_rest s rest -> initialized s ->
  exists s', dense_batch_loop exact_scorer n s points = (s', Ok (points ++ take n rest)) /\
    dense_rest s' (drop n rest) /\ initialized s'.
Proof.
  revert s rest points. induction n as [|n IH]; intros s rest points Hr Hi; simpl.
  { exists s. by rewrite app_nil_r, drop_0. }
  destruct (next_dense_point_exact s rest Hr Hi) as (s1 & -> & Hr1 & Hi1).
  destruct rest as [|p rest]; simpl in *.
  - exists s1. by rewrite app_nil_r.
  - destruct (IH {| inner := inner s1; eligible := eligible s1;
      dense_telemetry := count_exact (dense_telemetry s1) 0 1 |} rest (points ++ [p]))
      as (s2 & -> & Hr2 & Hi2); [done | done |].
    exists s2. by rewrite <- app_assoc.
Qed.

Lemma next_batch_with_exact s rest n :
  n <> 0 -> dense_rest s rest ->
  exists s', next_batch_with exact_scorer s n = (s', Ok (take n rest)) /\
    dense_rest s' (drop n rest).
Proof.
  intros Hn Hr. unfold next_batch_with. rewrite decide_False by done.
  destruct (inner s) as [c|scan] eqn:Ei.
  - destruct (dense_batch_loop_exact n s rest []) as (s' & -> & ? & _); [done | | eauto].
    unfold initialized. by rewrite Ei.
  - unfold initialize_scan. unfold dense_rest in Hr. rewrite Ei in Hr.
    destruct (scan_points scan) as [ranked|] eqn:Ep.
    + destruct (dense_batch_loop_exact n
        {| inner := Scan scan; eligible := eligible s; dense_telemetry := dense_telemetry s |}
        rest []) as (s' & -> & ? & _); [ | | eauto].
      * unfold dense_rest. simpl. by rewrite Ep.
      * unfold initialized. simpl. rewrite Ep. eauto.
    + destruct Hr as (E0 & -> & Hf). rewrite Hscorer.
      assert (existsb (fun s => negb (is_finite s))
        (exact_score <$> eligible_ids (eligible s)) = false) as ->.
      { clear -Hf. induction Hf as [|i l H1 H2 IH]; csimpl; [done |]. by rewrite H1, IH. }
      assert (Ez : zip_with (fun i s => {| idx := i; score := s |})
        (eligible_ids (eligible s)) (exact_score <$> eligible_ids (eligible s))
        = scored_offset <$> eligible_ids (eligible s)).
      { induction (eligible_ids (eligible s)) as [|i l IH]; csimpl; [done |].
        f_equal. inversion Hf. by apply IH. }
      rewrite Ez. fold (dense_order (eligible_ids (eligible s))).
      edestruct (dense_batch_loop_exact n) as (s' & -> & ? & _); [ | | eauto].
      * unfold dense_rest. simpl. rewrite E0, drop_0. done.
      * unfold initialized. simpl. eauto.
Qed.

(** Successive requests. *)
Definition dense_pull_all (s : DenseRankState) (sizes : list nat)
    : list (OperationResult (list ScoredPointOffset)) :=
  replies (next_batch_with exact_scorer) s sizes.

Lemma dense_pull_all_exact s rest sizes :
  dense_rest s rest -> Forall (fun n => n <> 0) sizes ->
  dense_pull_all s sizes = Ok <$> cut rest sizes.
Proof.
  intros Hr Hz. apply (replies_cut _ _ dense_rest); [|done|done].
  intros s' l n Hn Hl. by apply next_batch_with_exact.
Qed.

(** *** Construction *)

Definition bounds_valid (bs : list (N * float * float)) : Prop :=
  Forall (fun '(i, lower, upper) =>
    (val lower <= val (exact_score i) * f64_unit <= val upper)%Z) bs.

Lemma adjacent_equal_nodup l :
  StronglySorted (cmp_le N.compare) l -> adjacent_equal l = false -> NoDup l.
Proof.
  induction l as [|x l IH]; intros Hs He; [constructor |].
  apply StronglySorted_inv in Hs as [Hs Hx]. apply NoDup_cons. split.
  - intros Hin. destruct l as [|y l]; [by apply elem_of_nil in Hin |]. simpl in He.
    apply orb_false_elim in He as [Hxy%N.eqb_neq He].
    rewrite Forall_forall in Hx. pose proof (Hx y ltac:(left)) as Hle.
    apply elem_of_cons in Hin as [->|Hin]; [done |].
    apply StronglySorted_inv in Hs as [_ Hs]. rewrite Forall_forall in Hs.
    specialize (Hs x Hin). unfold cmp_le in *. rewrite N.compare_le_iff in *. lia.
  - apply IH; [done |]. destruct l; [done |]. simpl in He. by apply orb_false_elim in He as [_ ?].
Qed.

Lemma from_certificate_holds ids bs batch plan q s :
  from_certificate_bounds_batched ids bs batch plan q = Ok s ->
  bounds_valid bs -> Forall (fun i => is_finite (exact_score i) = true) ids ->
  exists c, inner s = Certificate c /\ cert_holds c ids.
Proof.
  unfold from_certificate_bounds_batched. case_decide; [done |].
  destruct (adjacent_equal _) eqn:Ea; [done |]. destruct (_ || _) eqn:Eb; [done |].
  intros [= <-] Hv Hf. apply orb_false_elim in Eb as [Eb1 Eb2].
  apply bool_decide_eq_false, dec_stable in Eb1.
  assert (Hn : NoDup ids).
  { rewrite <- (sort_by_perm N.compare ids). apply adjacent_equal_nodup; [|done].
    apply sort_by_sorted, _. }
  eexists. split; [done |]. split; simpl; try done.
  - rewrite app_nil_r, <- (sort_by_perm N.compare ids), <- Eb1, sort_by_perm.
    rewrite <- list_fmap_compose. apply reflexive_eq. apply list_fmap_ext. by intros ? [[? ?] ?].
  - apply Forall_fmap, Forall_forall. intros [[i lower] upper] Hin.
    pose proof (existsb_false_elem _ _ _ Eb2 Hin) as Hi. simpl in Hi. unfold invalid_bound in Hi.
    apply orb_false_elim in Hi as [[H1%negb_false_iff H2%negb_false_iff]%orb_false_elim _].
    unfold bounds_valid in Hv. rewrite Forall_forall in Hv. by specialize (Hv _ Hin).
Qed.

Lemma cert_holds_rest s c ids :
  inner s = Certificate c -> cert_holds c ids -> dense_rest s (dense_order ids).
Proof. intros E Hc. unfold dense_rest. rewrite E. eauto. Qed.

Lemma from_certificate_exact ids bs batch plan q s :
  from_certificate_bounds_batched ids bs batch plan q = Ok s ->
  bounds_valid bs -> Forall (fun i => is_finite (exact_score i) = true) ids ->
  dense_rest s (dense_order ids).
Proof.
  intros E Hv Hf. destruct (from_certificate_holds _ _ _ _ _ _ E Hv Hf) as (c & Ec & Hc).
  by apply (cert_holds_rest s c).
Qed.

Lemma scan_exact ids s :
  build_exact_scan_state ids = Ok s ->
  Forall (fun i => is_finite (exact_score i) = true) ids -> dense_rest s (dense_order ids).
Proof. by intros [= <-] Hf. Qed.

(** [C31] The dense certificate is exact: a state built from intervals that
    contain the exact scores delivers, over any sequence of positive
    requests, consecutive pieces of the segment's order (descending score,
    ties by offset), the same pieces an exhaustive scan of the same points
    delivers, for every refinement batch size. *)
Theorem dense_certificate_exact ids bs batch plan q s scan sizes :
  from_certificate_bounds_batched ids bs batch plan q = Ok s ->
  build_exact_scan_state ids = Ok scan ->
  bounds_valid bs -> Forall (fun i => is_finite (exact_score i) = true) ids ->
  Forall (fun n => n <> 0) sizes ->
  dense_pull_all s sizes = Ok <$> cut (dense_order ids) sizes /\
  dense_pull_all scan sizes = dense_pull_all s sizes.
Proof.
  intros E Es Hv Hf Hz. pose proof (from_certificate_exact _ _ _ _ _ _ E Hv Hf) as Hr.
  pose proof (scan_exact ids scan Es Hf) as Hrs.
  rewrite (dense_pull_all_exact s _ sizes Hr Hz), (dense_pull_all_exact scan _ sizes Hrs Hz).
  done.
Qed.

Lemma push_exact_checked c refined c' :
  push_exact c refined = (c', Ok tt) ->
  Forall (fun b => flt (f64_of_f32 (exact_scores c !!! pb_id b)) (pb_lower b) = false /\
                   flt (pb_value b) (f64_of_f32 (exact_scores c !!! pb_id b)) = false) refined /\
  exact c' ≡ₚ ((fun b => {| idx := pb_id b; score := exact_scores c !!! pb_id b |}) <$> refined)
    ++ exact c.
Proof.
  revert c. induction refined as [|b refined IH]; intros c; simpl.
  { intros [= <-]. by split. }
  destruct (flt _ (pb_lower b)) eqn:E1; simpl; [done |].
  destruct (flt (pb_value b) _) eqn:E2; simpl; [done |].
  intros [H1 H2]%IH. simpl in *. split; [by constructor |]. rewrite H2. unfold heap_push.
  by rewrite Permutation_middle.
Qed.

Lemma cache_scores_new c t scored c' t' :
  NoDup scored.*1 -> (forall i s, (i, s) ∈ scored -> exact_scores c !! i = None) ->
  cache_scores c t scored = (c', t', Ok tt) ->
  dt_exact_scores t' = dt_exact_scores t + length scored /\
  size (exact_scores c') = size (exact_scores c) + length scored /\
  dom (exact_scores c') = dom (exact_scores c) ∪ list_to_set scored.*1.
Proof.
  revert c t. induction scored as [|[i s] scored IH]; intros c t Hn Hnew; csimpl.
  { intros [= <- <-]. split_and!; [simpl; lia | simpl; lia | set_solver]. }
  destruct (is_finite s); simpl; [|done]. apply NoDup_cons in Hn as [Hn1 Hn2]. intros E.
  apply IH in E as (E1 & E2 & E3); [|done|].
  - simpl in *. rewrite map_size_insert_None in E2 by (by eapply Hnew; left).
    split_and!; [lia | lia | rewrite E3, dom_insert_L; set_solver].
  - intros j s' Hj. simpl. rewrite lookup_insert_ne.
    + eapply Hnew. by right.
    + intros ->. apply Hn1. by apply (list_elem_of_fmap_2 fst _ (j, s')).
Qed.

(** Every queued score was checked and counted once: when a refinement
    succeeds, all its points lie inside their intervals, they are queued
    with the cached scores, and the number of exact scores computed is the
    number of cached points, so no vector is scored twice. *)
Theorem refine_checked c t refined c' t' :
  NoDup (pb_id <$> refined) -> dt_exact_scores t = size (exact_scores c) ->
  refine_bounds_with exact_scorer c t refined = (c', t', Ok tt) ->
  Forall (fun b => flt (f64_of_f32 (exact_scores c' !!! pb_id b)) (pb_lower b) = false /\
                   flt (pb_value b) (f64_of_f32 (exact_scores c' !!! pb_id b)) = false) refined /\
  exact c' ≡ₚ ((fun b => {| idx := pb_id b; score := exact_scores c' !!! pb_id b |}) <$> refined)
    ++ exact c /\
  dt_exact_scores t' = size (exact_scores c') /\
  dom (exact_scores c') = dom (exact_scores c) ∪ list_to_set (pb_id <$> refined).
Proof.
  intros Hn Ht. unfold refine_bounds_with. rewrite Hscorer.
  set (unresolved := filter (fun id => exact_scores c !! id = None) (pb_id <$> refined)).
  assert (Ez : (zip unresolved (exact_score <$> unresolved)).*1 = unresolved).
  { apply fst_zip. by rewrite length_fmap. }
  destruct (cache_scores c t _) as [[c1 t1] [[]|]] eqn:Ec; [|done].
  destruct (push_exact c1 refined) as [c2 r] eqn:Ep. intros [= <- <- ->].
  pose proof Ec as Ec'. apply cache_scores_new in Ec' as (E1 & E2 & E3).
  2:{ rewrite Ez. apply NoDup_filter. done. }
  2:{ intros i s Hi. apply (list_elem_of_fmap_2 fst) in Hi. rewrite Ez in Hi.
      by apply list_elem_of_filter in Hi as [? _]. }
  assert (Hframe : forall l a b x y, cache_scores a b l = (x, y, Ok tt) -> exact x = exact a).
  { induction l as [|[i s] l IH]; intros a b x y; simpl; [by intros [= <- _] |].
    destruct (is_finite s); simpl; [|done]. intros E%IH. done. }
  assert (Hcache : forall l a x, push_exact a l = (x, Ok tt) -> exact_scores x = exact_scores a).
  { induction l as [|b l IH]; intros a x; simpl; [by intros [= <-] |].
    destruct (_ || _); [done |]. intros E%IH. done. }
  pose proof (Hcache _ _ _ Ep) as Ecc. apply push_exact_checked in Ep as [P1 P2].
  rewrite Ecc. split_and!; try done.
  - rewrite P2. by rewrite (Hframe _ _ _ _ _ Ec).
  - lia.
  - rewrite E3, Ez. apply set_eq. intros i. unfold unresolved.
    rewrite !elem_of_union, !elem_of_list_to_set, list_elem_of_filter, elem_of_dom.
    destruct (exact_scores c !! i); naive_solver.
Qed.
End Certificate.

(** ** Plans *)

Inductive Distance : Type := Cosine | Euclid | Dot | Manhattan.

Inductive VectorStorageDatatype : Type := Float32 | Float16 | Uint8 | Turbo4.

(** What the plan asks of the quantized vectors: whether they hold a
    per-vector scalar index, and the length of the reconstruction table. *)
Record QuantizedView : Type := mkQuantizedView {
  q_per_vector_scalar : bool;
  q_distance : Distance;
  q_datatype : VectorStorageDatatype;
  q_reconstruction_len : option nat;
}.

Definition is_dot_or_cosine (d : Distance) : bool :=
  match d with Dot | Cosine => true | _ => false end.

Definition is_float32 (d : VectorStorageDatatype) : bool :=
  match d with Float32 => true | _ => false end.

Definition select_dense_plan (distance : Distance) (datatype : VectorStorageDatatype)
    (quantized : option QuantizedView) (eligible : list N) (policy : DenseExecutionPolicy)
    : DensePhysicalPlan :=
  let supported := is_dot_or_cosine distance in
  let usable := negb (force_exact_scan policy)
    && (scalar_min_points policy <=? length eligible) && supported in
  let per_vector_scalar_available := usable && is_float32 datatype
    && match quantized with Some q => q_per_vector_scalar q | None => false end in
  if per_vector_scalar_available then PerVectorScalarCertificate
  else
    let scalar_available := usable &&
      match quantized with
      | Some q =>
          is_dot_or_cosine (q_distance q) && is_float32 (q_datatype q)
          && match q_reconstruction_len q with
             | Some len => forallb (fun id => N.to_nat id <? len) eligible
             | None => false
             end
      | None => false
      end in
    if scalar_available then ScalarCertificate else ExactScan.

(** [check_stopped] *)
Definition check_stopped (stopped : bool) : OperationResult unit :=
  if stopped then Err (Cancelled "Operation is stopped externally") else Ok tt.

(** [DenseRankState::new]; the builders of the two certificate plans read the
    vector storage and are arguments. *)
Definition DenseRankState_new
    (build_scalar_certificate_state build_per_vector_scalar_certificate_state
       : list N -> nat -> OperationResult DenseRankState)
    (distance : Distance) (datatype : VectorStorageDatatype) (quantized : option QuantizedView)
    (eligible : list N) (query : list float) (policy : DenseExecutionPolicy) (stopped : bool)
    : OperationResult DenseRankState :=
  let exact_refine_batch := 1 in
  let? _ := check_stopped stopped in
  if bool_decide (query = []) || existsb (fun x => negb (is_finite x)) query then
    Err (ValidationError "exact Dense stream requires a non-empty finite Query")
  else
    let eligible := sort_by N.compare eligible in
    if adjacent_equal eligible then
      Err (InconsistentStorage "exact Dense stream received duplicate eligible point offsets")
    else
      match select_dense_plan distance datatype quantized eligible policy with
      | ScalarCertificate => build_scalar_certificate_state eligible exact_refine_batch
      | PerVectorScalarCertificate =>
          build_per_vector_scalar_certificate_state eligible exact_refine_batch
      | ExactScan => build_exact_scan_state eligible
      end.

(** ** The scalar certificate

    The interval of a point around its quantized score: the error of
    replacing query and vector by their reconstructions, a guard for the
    rounding of the scorer, and one step outwards. *)

(** [ScalarReconstructionStats]: norms of the original vector, of its
    reconstruction and of the residual, in [f64]. *)
Record ScalarReconstructionStats : Type := mkScalarStats {
  original_norm : float;
  reconstructed_norm : float;
  residual_norm : float;
}.

(** [f32::EPSILON] as an [f64]. *)
Definition f32_epsilon : float := Fin false (2 ^ (1074 - 23)).

Definition floating_guard (scale : float) (dimension : nat) : float :=
  let gamma := (f32_epsilon * (of_Z binary64 8 * f64_of_nat dimension + of_Z binary64 64))%f64 in
  if flt gamma f64_one then (scale * gamma / (f64_one - gamma))%f64 else Inf false.

(** [v.chunks(n)] *)
Fixpoint chunks_fuel {A} (fuel n : nat) (l : list A) : list (list A) :=
  match fuel, l with
  | S fuel, _ :: _ => take n l :: chunks_fuel fuel n (drop n l)
  | _, _ => []
  end.

Definition chunks {A} (n : nat) (l : list A) : list (list A) := chunks_fuel (length l) n l.

Definition DENSE_SCORE_CHUNK_SIZE : nat := N.to_nat 4096.

Section ScalarCertificate.
(** The quantized vectors: their reconstruction statistics, those of the
    query, and the scorer over the quantized codes; and what each load of
    the cancellation flag sees. *)
Context (reconstruction : N -> ScalarReconstructionStats)
  (query_stats : option ScalarReconstructionStats)
  (approximate_scorer : OperationResult (list N -> list float))
  (stopped_at : nat -> bool).

Definition scalar_bound (dimension : nat) (stats : ScalarReconstructionStats) (id : N)
    (approximate : float) : N * float * float :=
  let document := reconstruction id in
  let approximate := f64_of_f32 approximate in
  let error := (residual_norm stats * original_norm document
                + reconstructed_norm stats * residual_norm document)%f64 in
  let guard := floating_guard
    (fabs approximate + error + original_norm stats * original_norm document)%f64 dimension in
  (id, next_down binary64 (approximate - error - guard)%f64,
   next_up binary64 (approximate + error + guard)%f64).

(** The scoring loop: one load of the flag per chunk. *)
Fixpoint score_chunks (load : nat) (scorer : list N -> list float) (parts : list (list N))
    : OperationResult (list float) :=
  match parts with
  | [] => Ok []
  | part :: parts =>
      let? _ := check_stopped (stopped_at load) in
      let? scores := score_chunks (S load) scorer parts in
      Ok (scorer part ++ scores)
  end.

Definition build_scalar_certificate_state (query : list float) (eligible : list N)
    (exact_refine_batch : nat) : OperationResult DenseRankState :=
  match query_stats with
  | None =>
      Err (InconsistentStorage
        "Scalar quantization did not expose Query reconstruction statistics")
  | Some stats =>
      let? scorer := approximate_scorer in
      let? approximate :=
        score_chunks 0 scorer (chunks DENSE_SCORE_CHUNK_SIZE eligible) in
      from_certificate_bounds_batched eligible
        (zip_with (scalar_bound (length query) stats) eligible approximate)
        exact_refine_batch ScalarCertificate (length eligible)
  end.
End ScalarCertificate.

(** ** Examples *)

Definition example_score (i : N) : float := of_Z binary32 (Z.of_N (i * 7 mod 5)).

Definition example_ids : list N := [3; 0; 4; 1; 2]%N.

(** Intervals one unit wide on either side. *)
Definition example_bounds : list (N * float * float) :=
  (fun i => (i, of_Z binary64 (Z.of_N (i * 7 mod 5) - 1), of_Z binary64 (Z.of_N (i * 7 mod 5) + 1)))
    <$> example_ids.

Lemma example_bounds_valid : bounds_valid example_score example_bounds.
Proof.
  unfold bounds_valid. repeat (constructor; [vm_compute; split; discriminate |]). constructor.
Qed.

Lemma example_scores_finite :
  Forall (fun i => is_finite (example_score i) = true) example_ids.
Proof. repeat (constructor; [vm_compute; reflexivity |]). constructor. Qed.

Lemma dense_certificate_exact_witness :
  exists s, from_certificate_bounds_batched example_ids example_bounds 2 ScalarCertificate 5 = Ok s /\
    dense_pull_all (fmap example_score) s [2; 9] =
      Ok <$> cut (dense_order example_score example_ids) [2; 9].
Proof.
  destruct (from_certificate_bounds_batched example_ids example_bounds 2 ScalarCertificate 5)
    as [s|] eqn:E; [|vm_compute in E; discriminate E].
  exists s. split; [reflexivity |].
  destruct (dense_certificate_exact (fmap example_score) example_score (fun ids => eq_refl)
    example_ids example_bounds 2 ScalarCertificate 5 s
    {| inner := Scan {| scan_points := None; scan_next := 0 |};
       eligible := Explicit example_ids;
       dense_telemetry := fresh_telemetry ExactScan (length example_ids) 0 |} [2; 9])
    as [Hp _].
  - exact E.
  - reflexivity.
  - apply example_bounds_valid.
  - apply example_scores_finite.
  - repeat constructor; discriminate.
  - exact Hp.
Defined.

Lemma refine_checked_witness :
  exists c' t',
    refine_bounds_with (fmap example_score)
      {| exact_refine_batch := 1; bounds := []; exact := []; exact_scores := ∅ |}
      (fresh_telemetry ScalarCertificate 5 5)
      [{| pb_id := 3; pb_lower := of_Z binary64 0; pb_value := of_Z binary64 2 |}] = (c', t', Ok tt) /\
    dt_exact_scores t' = size (exact_scores c').
Proof.
  set (c := {| exact_refine_batch := 1; bounds := []; exact := []; exact_scores := ∅ |}).
  set (bs := [{| pb_id := 3; pb_lower := of_Z binary64 0; pb_value := of_Z binary64 2 |}]).
  destruct (refine_bounds_with (fmap example_score) c (fresh_telemetry ScalarCertificate 5 5) bs)
    as [[c' t'] r] eqn:E.
  assert (r = Ok tt) as -> by (vm_compute in E; injection E as _ _ <-; reflexivity).
  exists c', t'. split; [reflexivity |].
  destruct (refine_checked (fmap example_score) example_score (fun ids => eq_refl) c
    (fresh_telemetry ScalarCertificate 5 5) bs c' t') as (_ & _ & Ht & _).
  - apply (bool_decide_unpack _). vm_compute. exact Logic.I.
  - reflexivity.
  - exact E.
  - exact Ht.
Defined.
