(* ===== verification/SegmentRank.v ===== *)
(** * Exact rankings of one segment, in external identities

    lib/segment/src/segment/read_view/search.rs (the exact rank states) and
    the segment plans lib/shard/src/{dense,sparse}_rank_plan.rs.  A segment
    ranks internal offsets, with ties in offset order; a shard merges external
    identities, with ties in identity order.  The segment therefore delivers
    its points in groups of equal score, each group sorted by identity, with
    one point of lookahead.

    What the view reads from the segment is a parameter: the visibility of an
    offset (deletion flags, deferred points, filter), its external identity
    and its version.  The file proves that the regrouped stream is exact for
    the shard: it keeps the contract [ExactSegment]. *)

From S2P Require Import Prelude Float Order PointId RrfScoring RrfState RrfSession RrfExact.
From S2P Require Import RankStream ShardStream DenseRank.

Open Scope result_scope.

(** ** Data *)

(** The ranking of internal offsets underneath: [next_batch(max_results)]. *)
Class OffsetStream (D : Type) :=
  next_offsets : D -> nat -> outcome (list ScoredPointOffset) * D.

(** The part of the state that [pull_visible] works on. *)
Record VisibleState (D : Type) : Type := mkVisibleState {
  vs_rank : D;
  internal_buffer : list ScoredPointOffset;
  vs_loads : nat;
}.

Arguments mkVisibleState {D}.
Arguments vs_rank {D} _.
Arguments internal_buffer {D} _.
Arguments vs_loads {D} _.

(** [DenseSegmentRankState] and [SparseRankState]. *)
Record SegmentRankState (D : Type) : Type := mkSegmentRankState {
  sr_visible : VisibleState D;
  external_buffer : list ScoredPoint;
  lookahead : option ScoredPoint;
}.

Arguments mkSegmentRankState {D}.
Arguments sr_visible {D} _.
Arguments external_buffer {D} _.
Arguments lookahead {D} _.

(** What a segment knows about its offsets. *)
Record SegmentView : Type := mkSegmentView {
  external_id : N -> option ExtendedPointId;
  internal_version : N -> option N;
  deleted_vector : N -> option bool;
  deleted_point : N -> option bool;
  deferred_from : option N;
  filter_check : option (N -> bool);
}.

(** [check_deleted_condition] *)
Definition check_deleted_condition (view : SegmentView) (point : N) : bool :=
  negb (default false (deleted_vector view point))
  && negb (default true (deleted_point view point)).

(** The filter of [open_exact_dense_rank_state] and of the sparse loop. *)
Definition visible (view : SegmentView) (point : N) : bool :=
  check_deleted_condition view point
  && match deferred_from view with Some deferred => (point <? deferred)%N | None => true end
  && match filter_check view with Some check => check point | None => true end.

(** The offsets a dense ranking is opened over. *)
Definition eligible_points (view : SegmentView) (total_vector_count : nat) : list N :=
  filter (fun point => visible view point = true) (N.of_nat <$> seq 0 total_vector_count).

(** ** Operations *)

Section View.
Context {D : Type} `{OffsetStream D} (view : SegmentView).
Local Abbreviation vstate := (VisibleState D).
Local Abbreviation rstate := (SegmentRankState D).

(** The external point of an offset. *)
Definition to_external (unmapped unversioned : OperationError) (point : ScoredPointOffset)
    : OperationResult ScoredPoint :=
  match external_id view (idx point) with
  | None => Err unmapped
  | Some id =>
      match internal_version view (idx point) with
      | None => Err unversioned
      | Some version => Ok {| sp_id := id; sp_version := version; sp_score := score point |}
      end
  end.

Definition with_rank (s : vstate) (rank : D) (buffer : list ScoredPointOffset) : vstate :=
  {| vs_rank := rank; internal_buffer := buffer; vs_loads := vs_loads s |}.

(** [pull_visible] of the dense state: every offset was eligible when the
    ranking was opened. *)
Definition dense_pull_visible (request : nat) (s : vstate)
    : vstate * outcome (option ScoredPoint) :=
  let pop s :=
    match internal_buffer s with
    | [] => (s, Returned (Ok None))
    | point :: buffer =>
        let s := with_rank s (vs_rank s) buffer in
        match to_external
          (InconsistentStorage "exact Dense rank state returned unmapped internal point {}")
          (InconsistentStorage "exact Dense rank state returned unversioned point {id}") point with
        | Err e => (s, Returned (Err e))
        | Ok p => (s, Returned (Ok (Some p)))
        end
    end in
  match internal_buffer s with
  | [] =>
      match next_offsets (vs_rank s) request with
      | (Returned (Ok points), rank) => pop (with_rank s rank points)
      | (Returned (Err e), rank) => (with_rank s rank [], Returned (Err e))
      | (Panicked, rank) => (with_rank s rank [], Panicked)
      | (OutOfFuel, rank) => (with_rank s rank [], OutOfFuel)
      end
  | _ => pop s
  end.

(** [pull_visible] of the sparse state: it skips the offsets that are not
    visible.  [stopped_at] is what each load of the flag sees. *)
Fixpoint sparse_pull_visible (stopped_at : nat -> bool) (fuel request : nat) (s : vstate)
    : vstate * outcome (option ScoredPoint) :=
  match fuel with
  | 0 => (s, OutOfFuel)
  | S fuel =>
      let stopped := stopped_at (vs_loads s) in
      let s := {| vs_rank := vs_rank s; internal_buffer := internal_buffer s;
                  vs_loads := S (vs_loads s) |} in
      match check_stopped stopped with
      | Err e => (s, Returned (Err e))
      | Ok _ =>
          let pop s :=
            match internal_buffer s with
            | [] => (s, Returned (Ok None))
            | point :: buffer =>
                let s := with_rank s (vs_rank s) buffer in
                if negb (visible view (idx point)) then
                  sparse_pull_visible stopped_at fuel request s
                else
                  match to_external
                    (InconsistentStorage
                       "exact Sparse rank state returned unmapped internal point {}")
                    (InconsistentStorage
                       "exact Sparse rank state returned unversioned point {id}") point with
                  | Err e => (s, Returned (Err e))
                  | Ok p => (s, Returned (Ok (Some p)))
                  end
            end in
          match internal_buffer s with
          | [] =>
              match next_offsets (vs_rank s) request with
              | (Returned (Ok points), rank) => pop (with_rank s rank points)
              | (Returned (Err e), rank) => (with_rank s rank [], Returned (Err e))
              | (Panicked, rank) => (with_rank s rank [], Panicked)
              | (OutOfFuel, rank) => (with_rank s rank [], OutOfFuel)
              end
          | _ => pop s
          end
      end
  end.

(** *** Groups of equal score *)

Context (pull_visible : vstate -> vstate * outcome (option ScoredPoint)).

(** The points that tie with the first; the point after them, if one was
    pulled, becomes the lookahead. *)
Fixpoint collect_group (fuel : nat) (s : vstate) (tied : float) (group : list ScoredPoint)
    : vstate * outcome (list ScoredPoint * option ScoredPoint) :=
  match fuel with
  | 0 => (s, OutOfFuel)
  | S fuel =>
      match pull_visible s with
      | (s, Returned (Ok (Some point))) =>
          if feq (sp_score point) tied then collect_group fuel s tied (group ++ [point])
          else (s, Returned (Ok (group, Some point)))
      | (s, Returned (Ok None)) => (s, Returned (Ok (group, None)))
      | (s, Returned (Err e)) => (s, Returned (Err e))
      | (s, Panicked) => (s, Panicked)
      | (s, OutOfFuel) => (s, OutOfFuel)
      end
  end.

Definition group_order (left right : ScoredPoint) : comparison :=
  id_cmp (sp_id left) (sp_id right).

(** Refill the empty external buffer; [false] says that nothing is left. *)
Definition fill_external (fuel : nat) (st : rstate) : rstate * outcome bool :=
  let '(s, first) :=
    match lookahead st with
    | Some point => (sr_visible st, Returned (Ok (Some point)))
    | None => pull_visible (sr_visible st)
    end in
  let st := {| sr_visible := s; external_buffer := external_buffer st; lookahead := None |} in
  match first with
  | Returned (Ok None) => (st, Returned (Ok false))
  | Returned (Ok (Some first)) =>
      match collect_group fuel s (sp_score first) [first] with
      | (s, Returned (Ok (group, ahead))) =>
          ({| sr_visible := s; external_buffer := sort_by group_order group;
              lookahead := ahead |}, Returned (Ok true))
      | (s, Returned (Err e)) =>
          ({| sr_visible := s; external_buffer := external_buffer st; lookahead := None |},
           Returned (Err e))
      | (s, Panicked) =>
          ({| sr_visible := s; external_buffer := external_buffer st; lookahead := None |}, Panicked)
      | (s, OutOfFuel) =>
          ({| sr_visible := s; external_buffer := external_buffer st; lookahead := None |}, OutOfFuel)
      end
  | Returned (Err e) => (st, Returned (Err e))
  | Panicked => (st, Panicked)
  | OutOfFuel => (st, OutOfFuel)
  end.

(** Move up to [remaining] points from the external buffer to the output. *)
Definition drain_external (st : rstate) (remaining : nat) : rstate * list ScoredPoint :=
  let count := Nat.min remaining (length (external_buffer st)) in
  ({| sr_visible := sr_visible st; external_buffer := drop count (external_buffer st);
      lookahead := lookahead st |}, take count (external_buffer st)).

(** The delivery loop.  Every iteration delivers a point, so [max_results]
    iterations are enough. *)
Fixpoint deliver_loop (fuel iterations : nat) (st : rstate) (remaining : nat)
    (output : list ScoredPoint) : rstate * outcome (list ScoredPoint) :=
  match iterations with
  | 0 => (st, Returned (Ok output))
  | S iterations =>
      if remaining =? 0 then (st, Returned (Ok output))
      else
        match (match external_buffer st with
               | [] => fill_external fuel st
               | _ => (st, Returned (Ok true))
               end) with
        | (st, Returned (Ok true)) =>
            let '(st, points) := drain_external st remaining in
            deliver_loop fuel iterations st (remaining - length points) (output ++ points)
        | (st, Returned (Ok false)) => (st, Returned (Ok output))
        | (st, Returned (Err e)) => (st, Returned (Err e))
        | (st, Panicked) => (st, Panicked)
        | (st, OutOfFuel) => (st, OutOfFuel)
        end
  end.
End View.

Definition advance_exact_dense_segment_state {D} `{OffsetStream D} (view : SegmentView)
    (fuel : nat) (st : SegmentRankState D) (max_results : nat)
    : SegmentRankState D * outcome (list ScoredPoint) :=
  if decide (max_results = 0) then
    (st, Returned (Err (ValidationError "exact Dense delivery batch must be positive")))
  else
    deliver_loop (dense_pull_visible view (Nat.max max_results 16)) fuel max_results st
      max_results [].

(** The lookups of the vector's data and of the filter context may fail. *)
Definition advance_exact_sparse_rank_state {D} `{OffsetStream D}
    (data : OperationResult SegmentView) (stopped_at : nat -> bool) (posting_batch_size fuel : nat) (st : SegmentRankState D)
    (max_results : nat) : SegmentRankState D * outcome (list ScoredPoint) :=
  if decide (max_results = 0) then
    (st, Returned (Err (ValidationError "exact Sparse delivery batch must be positive")))
  else
    match data with
    | Err e => (st, Returned (Err e))
    | Ok view =>
        deliver_loop (sparse_pull_visible view stopped_at fuel posting_batch_size) fuel max_results
          st max_results []
    end.

(** The reply of an exact segment source to a pull: an empty batch is the end. *)
Definition segment_reply (r : outcome (list ScoredPoint)) : outcome BatchReply :=
  match r with
  | Returned (Ok points) =>
      Returned (Ok {| br_points := points; br_eof := bool_decide (points = []) |})
  | Returned (Err e) => Returned (Err e)
  | Panicked => Panicked
  | OutOfFuel => OutOfFuel
  end.

(** ** Regrouping *)

#[export] Instance group_order_TotalCmp : TotalCmp group_order.
Proof. apply (TotalCmp_key id_cmp sp_id), _. Qed.

(** A ranking as a segment pulls it: descending scores, distinct identities. *)
Record ranked (l : list ScoredPoint) : Prop := {
  rk_finite : Forall (fun p => is_finite (sp_score p) = true) l;
  rk_sorted : StronglySorted (fun p q => val (sp_score q) <= val (sp_score p))%Z l;
  rk_ids : NoDup (sp_id <$> l);
}.

Lemma ranked_cons p l : ranked (p :: l) -> ranked l.
Proof.
  intros [Hf Hs Hn]. apply Forall_cons in Hf as [_ ?]. apply StronglySorted_inv in Hs as [? _].
  apply NoDup_cons in Hn as [_ ?]. done.
Qed.

Lemma ranked_app l1 l2 : ranked (l1 ++ l2) -> ranked l2.
Proof. induction l1 as [|p l1 IH]; simpl; [done |]. intros ?%ranked_cons. auto. Qed.

(** Points that tie, sorted by identity, followed by the rest, are the whole
    in the order of the shard. *)
Lemma sort_group group rest v :
  Forall (fun p => is_finite (sp_score p) = true /\ val (sp_score p) = v) group ->
  Forall (fun p => is_finite (sp_score p) = true /\ (val (sp_score p) < v)%Z) rest ->
  NoDup (sp_id <$> group ++ rest) ->
  sort_by shard_score_order (group ++ rest) =
    sort_by group_order group ++ sort_by shard_score_order rest.
Proof.
  intros Hg Hr Hn. apply (sorted_unique shard_score_order).
  - intros x y Hx Hy E%shard_score_order_eq_id. rewrite sort_by_perm in Hx, Hy.
    by apply (NoDup_fmap_eq sp_id (group ++ rest)).
  - apply sort_by_sorted, _.
  - rewrite Forall_forall in Hg, Hr. apply StronglySorted_app_2.
    + assert (Hin : forall p, p ∈ sort_by group_order group -> val (sp_score p) = v /\
        is_finite (sp_score p) = true) by (intros p Hp; rewrite sort_by_perm in Hp; destruct (Hg p Hp); done).
      pose proof (sort_by_sorted group_order group) as Hs. revert Hin Hs. clear.
      induction (sort_by group_order group) as [|p l IH]; intros Hin Hs; [constructor |].
      apply StronglySorted_inv in Hs as [Hs Hp]. constructor.
      * apply IH; [|done]. intros q Hq. apply Hin. by right.
      * apply Forall_forall. intros q Hq. rewrite Forall_forall in Hp. specialize (Hp q Hq).
        destruct (Hin p ltac:(left)) as [Ev Ef], (Hin q ltac:(by right)) as [Ev' Ef'].
        unfold cmp_le, shard_score_order, then_with. rewrite finite_ordered, Ev, Ev' by done.
        rewrite Z.compare_refl. exact Hp.
    + apply sort_by_sorted, _.
    + intros p q Hp Hq. rewrite sort_by_perm in Hp, Hq.
      destruct (Hg p Hp) as [Hf1 Ev], (Hr q Hq) as [Hf2 Hlt].
      unfold cmp_le, shard_score_order, then_with. rewrite finite_ordered, Ev by done.
      by rewrite (proj2 (Z.compare_lt_iff _ _) Hlt).
  - by rewrite !sort_by_perm.
Qed.

Section Deliver.
Context {D : Type} (pull_visible : VisibleState D -> VisibleState D * outcome (option ScoredPoint)).
Local Abbreviation vstate := (VisibleState D).
Local Abbreviation rstate := (SegmentRankState D).

(** The pull still has exactly [R] to deliver. *)
Context (points_rest : vstate -> list ScoredPoint -> Prop).
Hypothesis (Hpull : forall s R, points_rest s R ->
  exists s', pull_visible s = (s', Returned (Ok (head R))) /\ points_rest s' (tail R)).

Lemma collect_group_exact fuel s tied group R :
  length R < fuel -> points_rest s R ->
  exists s' run ahead R',
    collect_group pull_visible fuel s tied group = (s', Returned (Ok (group ++ run, ahead))) /\
    points_rest s' R' /\ R = run ++ option_list ahead ++ R' /\
    Forall (fun p => feq (sp_score p) tied = true) run /\
    (forall p, ahead = Some p -> feq (sp_score p) tied = false) /\ (ahead = None -> R' = []).
Proof.
  revert s group R. induction fuel as [|fuel IH]; intros s group R Hlen Hr; [lia |]. simpl.
  destruct (Hpull s R Hr) as (s1 & -> & Hr1). destruct R as [|p R]; simpl in *.
  - exists s1, [], None, []. rewrite app_nil_r. split_and!; done.
  - destruct (feq (sp_score p) tied) eqn:Ef.
    + destruct (IH s1 (group ++ [p]) R ltac:(lia) Hr1)
        as (s2 & run & ahead & R' & -> & Hr2 & -> & Hf & Ha & Hn).
      exists s2, (p :: run), ahead, R'. rewrite <- app_assoc. split_and!; try done. by constructor.
    + exists s1, [], (Some p), R. rewrite app_nil_r. split_and!; try done. by intros q [= <-].
Qed.

(** [st] still has exactly [total] to deliver, in the order of the shard. *)
Definition delivers (bound : nat) (st : rstate) (total : list ScoredPoint) : Prop :=
  exists R, points_rest (sr_visible st) R /\ length R < bound /\
    ranked (option_list (lookahead st) ++ R) /\
    total = external_buffer st ++
      sort_by shard_score_order (option_list (lookahead st) ++ R).

Lemma fill_external_exact fuel st total :
  delivers fuel st total -> external_buffer st = [] ->
  exists st', delivers fuel st' total /\
    match total with
    | [] => fill_external pull_visible fuel st = (st', Returned (Ok false))
    | _ => fill_external pull_visible fuel st = (st', Returned (Ok true)) /\
           external_buffer st' <> []
    end.
Proof.
  intros (R & Hr & Hlen & Hk & ->) He. rewrite He. simpl. unfold fill_external.
  assert (exists s1 R1, points_rest s1 R1 /\ length R1 <= length R /\
    match lookahead st with
    | Some point => (sr_visible st, Returned (Ok (Some point)))
    | None => pull_visible (sr_visible st)
    end = (s1, Returned (Ok (head (option_list (lookahead st) ++ R)))) /\
    R1 = tail (option_list (lookahead st) ++ R)) as (s1 & R1 & Hr1 & Hl1 & -> & E1).
  { destruct (lookahead st) as [p|]; simpl.
    - exists (sr_visible st), R. done.
    - destruct (Hpull _ R Hr) as (s1 & -> & Hr1). exists s1, (tail R). split_and!; try done.
      destruct R; simpl; lia. }
  destruct (option_list (lookahead st) ++ R) as [|first l] eqn:El; simpl in *; subst R1.
  { eexists. split; [|done]. exists []. split_and!; simpl; try done; [destruct fuel; lia |].
    by rewrite He. }
  destruct (collect_group_exact fuel s1 (sp_score first) [first] l ltac:(lia) Hr1)
    as (s2 & run & ahead & R2 & -> & Hr2 & -> & Hrun & Ha & Hn).
  assert (Hfin : forall p, p ∈ first :: run ++ option_list ahead ++ R2 ->
    is_finite (sp_score p) = true).
  { destruct Hk as [Hf _ _]. rewrite Forall_forall in Hf. done. }
  assert (Hf1 : is_finite (sp_score first) = true) by (apply Hfin; left).
  assert (Hgroup : sort_by shard_score_order (first :: run ++ option_list ahead ++ R2) =
    sort_by group_order (first :: run) ++
    sort_by shard_score_order (option_list ahead ++ R2)).
  { apply (sort_group (first :: run) _ (val (sp_score first))).
    - constructor; [done |]. apply Forall_forall. intros p Hp. rewrite Forall_forall in Hrun.
      assert (Hfp : is_finite (sp_score p) = true) by (apply Hfin; set_solver).
      split; [done |]. specialize (Hrun p Hp). rewrite finite_eq in Hrun by done.
      by apply Z.eqb_eq.
    - apply Forall_forall. intros p Hp.
      assert (Hfp : is_finite (sp_score p) = true) by (apply Hfin; set_solver).
      split; [done |].
      destruct ahead as [a|]; [|rewrite Hn in Hp by done; by apply elem_of_nil in Hp].
      simpl in Hp. specialize (Ha a eq_refl).
      assert (Hfa : is_finite (sp_score a) = true) by (apply Hfin; set_solver).
      rewrite finite_eq in Ha by done. apply Z.eqb_neq in Ha.
      destruct Hk as [_ Hs _]. apply StronglySorted_inv in Hs as [Hs Hfirst].
      rewrite Forall_forall in Hfirst.
      pose proof (Hfirst a ltac:(set_solver)) as Hle. apply StronglySorted_app_r in Hs.
      simpl in Hs. apply StronglySorted_inv in Hs as [_ Hs]. rewrite Forall_forall in Hs.
      apply elem_of_cons in Hp as [->|Hp]; [lia |]. specialize (Hs p Hp). lia.
    - apply Hk. }
  eexists. split; [|destruct (sort_by _ (first :: _)) eqn:Es; [|split; [done |]]].
  - exists R2. simpl. split_and!; [done | | | exact Hgroup].
    + rewrite !length_app in Hl1. lia.
    + apply ranked_cons in Hk. by apply ranked_app in Hk.
  - exfalso. symmetry in Es. apply (f_equal length) in Es.
    rewrite (Permutation_length (sort_by_perm _ _)) in Es. simpl in Es. lia.
  - simpl. intros Ex. apply (f_equal length) in Ex.
    rewrite (Permutation_length (sort_by_perm _ _)) in Ex. simpl in Ex. lia.
Qed.

Lemma drain_external_exact bound st total remaining :
  delivers bound st total -> external_buffer st <> [] -> remaining <> 0 ->
  exists st' points n, drain_external st remaining = (st', points) /\
    1 <= n <= remaining /\ length points = n /\ points = take n total /\
    delivers bound st' (drop n total).
Proof.
  intros (R & Hr & Hlen & Hk & ->) He Hrem. unfold drain_external.
  set (n := Nat.min remaining (length (external_buffer st))).
  assert (1 <= n).
  { destruct (external_buffer st) eqn:E; [done |]. unfold n. simpl. lia. }
  eexists _, _, n. split; [done |]. split_and!; [lia | lia | | |].
  - rewrite length_take. lia.
  - rewrite take_app_le by lia. done.
  - exists R. simpl. split_and!; try done. by rewrite drop_app_le by lia.
Qed.

Lemma deliver_loop_exact fuel iterations st total remaining output :
  delivers fuel st total -> remaining <= iterations ->
  exists st', deliver_loop pull_visible fuel iterations st remaining output =
      (st', Returned (Ok (output ++ take remaining total))) /\
    delivers fuel st' (drop remaining total).
Proof.
  revert st total remaining output. induction iterations as [|it IH];
    intros st total remaining output Hd Hle.
  { assert (remaining = 0) as -> by lia. simpl. exists st. by rewrite app_nil_r, drop_0. }
  cbn [deliver_loop]. destruct (Nat.eqb_spec remaining 0) as [->|Hrem].
  { exists st. by rewrite app_nil_r, drop_0. }
  assert (exists st1, delivers fuel st1 total /\
    match total with
    | [] => match external_buffer st with
            | [] => fill_external pull_visible fuel st
            | _ => (st, Returned (Ok true))
            end = (st1, Returned (Ok false))
    | _ => match external_buffer st with
           | [] => fill_external pull_visible fuel st
           | _ => (st, Returned (Ok true))
           end = (st1, Returned (Ok true)) /\ external_buffer st1 <> []
    end) as (st1 & Hd1 & Hfill).
  { destruct (external_buffer st) as [|p b] eqn:Eb; [by apply fill_external_exact |].
    exists st. split; [done |]. destruct Hd as (R & _ & _ & _ & ->). rewrite Eb. simpl.
    done. }
  destruct total as [|p total].
  - rewrite Hfill. exists st1. rewrite take_nil, drop_nil, app_nil_r. done.
  - destruct Hfill as [-> Hne].
    destruct (drain_external_exact fuel st1 (p :: total) remaining Hd1 Hne Hrem)
      as (st2 & points & n & -> & Hn & Hlen & Hpts & Hd2).
    destruct (IH st2 _ (remaining - length points) (output ++ points) Hd2 ltac:(lia))
      as (st3 & -> & Hd3).
    exists st3. rewrite drop_drop in Hd3.
    assert (Er : remaining = n + (remaining - length points)) by lia. split.
    + rewrite <- app_assoc, Hpts at 1. rewrite take_take_drop. by rewrite <- Er.
    + by rewrite Er.
Qed.
End Deliver.

(** ** Exact rankings of offsets *)

(** A ranking of offsets that still has exactly [rest] to deliver; an empty
    batch means that nothing is left. *)
Class ExactOffsets (D : Type) `{OffsetStream D} := {
  offsets_rest : D -> list ScoredPointOffset -> Prop;
  offsets_rest_next d rest n : offsets_rest d rest -> n <> 0 ->
    exists ps rest' d', next_offsets d n = (Returned (Ok ps), d') /\
      rest = ps ++ rest' /\ (ps = [] -> rest' = []) /\ offsets_rest d' rest';
}.

Section Visible.
Context {D : Type} `{ExactOffsets D} (view : SegmentView).
Local Abbreviation vstate := (VisibleState D).
Local Abbreviation rstate := (SegmentRankState D).

(** The point behind an offset that is mapped and versioned. *)
Definition denotes (point : ScoredPointOffset) (p : ScoredPoint) : Prop :=
  external_id view (idx point) = Some (sp_id p) /\
  internal_version view (idx point) = Some (sp_version p) /\ sp_score p = score point.

Lemma to_external_denotes u v point p :
  denotes point p -> to_external view u v point = Ok p.
Proof. unfold to_external. intros (-> & -> & <-). by destruct p. Qed.

(** Of what is left below, the offsets that [keep] accepts denote [R]. *)
Definition view_rest (keep : N -> bool) (bound : nat) (s : vstate) (R : list ScoredPoint) : Prop :=
  exists rest, offsets_rest (vs_rank s) rest /\
    length (internal_buffer s ++ rest) < bound /\
    Forall2 denotes (filter (fun p => keep (idx p) = true) (internal_buffer s ++ rest)) R.

Lemma dense_pull_exact request bound s R :
  request <> 0 -> view_rest (fun _ => true) bound s R ->
  exists s', dense_pull_visible view request s = (s', Returned (Ok (head R))) /\
    view_rest (fun _ => true) bound s' (tail R).
Proof.
  intros Hq (rest & Hr & Hlen & HR). rewrite filter_all in HR by done.
  unfold dense_pull_visible. destruct (internal_buffer s) as [|point buffer] eqn:Eb.
  - destruct (offsets_rest_next _ _ request Hr Hq) as (ps & rest' & d' & -> & -> & Hps & Hr').
    simpl in HR. destruct ps as [|point ps]; simpl.
    + rewrite (Hps eq_refl) in *. apply Forall2_nil_inv_l in HR as ->. eexists. split; [done |].
      exists []. simpl. split_and!; [done | simpl in Hlen; lia | constructor].
    + simpl in HR. apply Forall2_cons_inv_l in HR as (p & R' & Hp & HR & ->).
      rewrite (to_external_denotes _ _ _ _ Hp). eexists. split; [done |].
      exists rest'. simpl in *. split_and!; [done | lia |]. by rewrite filter_all.
  - simpl in HR. apply Forall2_cons_inv_l in HR as (p & R' & Hp & HR & ->).
    rewrite (to_external_denotes _ _ _ _ Hp). eexists. split; [done |].
    exists rest. simpl in *. split_and!; [done | lia |]. by rewrite filter_all.
Qed.

Lemma sparse_pull_exact stopped_at request bound fuel s R :
  (forall n, stopped_at n = false) -> request <> 0 -> bound <= fuel ->
  view_rest (visible view) bound s R ->
  exists s', sparse_pull_visible view stopped_at fuel request s = (s', Returned (Ok (head R))) /\
    view_rest (visible view) bound s' (tail R).
Proof.
  intros Hstop Hq Hb (rest & Hr & Hlen & HR).
  assert (Hf : length (internal_buffer s ++ rest) < fuel) by lia. clear Hb.
  revert s rest Hr Hlen HR Hf. induction fuel as [|fuel IH]; intros s rest Hr Hlen HR Hf; [lia |].
  cbn [sparse_pull_visible]. unfold check_stopped. rewrite Hstop. simpl.
  assert (Hpop : forall loads d point buffer rest, offsets_rest d rest ->
    length ((point :: buffer) ++ rest) < bound -> length ((point :: buffer) ++ rest) < S fuel ->
    Forall2 denotes (filter (fun p => visible view (idx p) = true) ((point :: buffer) ++ rest)) R ->
    exists s', (if negb (visible view (idx point)) then
        sparse_pull_visible view stopped_at fuel request
          {| vs_rank := d; internal_buffer := buffer; vs_loads := loads |}
      else match to_external view
          (InconsistentStorage "exact Sparse rank state returned unmapped internal point {}")
          (InconsistentStorage "exact Sparse rank state returned unversioned point {id}") point with
        | Err e => ({| vs_rank := d; internal_buffer := buffer; vs_loads := loads |},
                    Returned (Err e))
        | Ok p => ({| vs_rank := d; internal_buffer := buffer; vs_loads := loads |},
                   Returned (Ok (Some p)))
        end) = (s', Returned (Ok (head R))) /\ view_rest (visible view) bound s' (tail R)).
  { clear s rest Hr Hlen HR Hf. intros loads d point buffer rest Hr Hlen Hf HR.
    simpl in HR. rewrite filter_cons in HR. destruct (visible view (idx point)) eqn:Ev; simpl.
    - rewrite decide_True in HR by done.
      apply Forall2_cons_inv_l in HR as (p & R' & Hp & HR & ->).
      rewrite (to_external_denotes _ _ _ _ Hp). eexists. split; [done |].
      exists rest. simpl in *. split_and!; [done | lia | done].
    - rewrite decide_False in HR by done. simpl in *. apply (IH _ rest); simpl; [done | lia | done | lia]. }
  destruct (internal_buffer s) as [|point buffer] eqn:Eb; [|by apply (Hpop _ _ _ _ rest)].
  destruct (offsets_rest_next _ _ request Hr Hq) as (ps & rest' & d' & -> & -> & Hps & Hr').
  destruct ps as [|point ps]; [|by apply (Hpop _ _ _ _ rest')].
  rewrite (Hps eq_refl) in *. simpl in *. apply Forall2_nil_inv_l in HR as ->.
  eexists. split; [done |]. exists []. simpl. split_and!; [done | simpl in Hlen; lia | constructor].
Qed.

(** *** Segments *)

(** [st] still delivers exactly [total]. *)
Definition segment_delivers (keep : N -> bool) (fuel : nat) (st : rstate) total : Prop :=
  delivers (view_rest keep fuel) fuel st total.

Lemma dense_segment_step fuel st total n :
  n <> 0 -> segment_delivers (fun _ => true) fuel st total ->
  exists st', advance_exact_dense_segment_state view fuel st n =
      (st', Returned (Ok (take n total))) /\
    segment_delivers (fun _ => true) fuel st' (drop n total).
Proof.
  intros Hn Hd. unfold advance_exact_dense_segment_state. rewrite decide_False by done.
  apply (deliver_loop_exact _ (view_rest (fun _ => true) fuel)) with (output := []); [|done|done].
  intros s R. apply dense_pull_exact. lia.
Qed.

Lemma sparse_segment_step stopped_at posting_batch_size fuel st total n :
  (forall n, stopped_at n = false) -> posting_batch_size <> 0 ->
  n <> 0 -> segment_delivers (visible view) fuel st total ->
  exists st', advance_exact_sparse_rank_state (Ok view) stopped_at posting_batch_size fuel st n =
      (st', Returned (Ok (take n total))) /\
    segment_delivers (visible view) fuel st' (drop n total).
Proof.
  intros Hs Hp Hn Hd. unfold advance_exact_sparse_rank_state. rewrite decide_False by done.
  apply (deliver_loop_exact _ (view_rest (visible view) fuel)) with (output := []); [|done|done].
  intros s R. by apply sparse_pull_exact.
Qed.

(** A freshly opened segment. *)
Definition opened (rank : D) : rstate :=
  {| sr_visible := {| vs_rank := rank; internal_buffer := []; vs_loads := 0 |};
     external_buffer := []; lookahead := None |}.

Lemma opened_delivers keep fuel rank rest R :
  offsets_rest rank rest -> length rest < fuel ->
  Forall2 denotes (filter (fun p => keep (idx p) = true) rest) R -> ranked R ->
  segment_delivers keep fuel (opened rank) (sort_by shard_score_order R).
Proof.
  intros Hr Hlen HR Hk. exists R. simpl. split_and!; try done.
  - by exists rest.
  - apply Forall2_length in HR. rewrite <- HR. pose proof (length_filter (fun p => keep (idx p) = true) rest). lia.
Qed.
End Visible.

(** ** The points of a segment *)

Section Points.
Context (view : SegmentView).

Definition external_point (point : ScoredPointOffset) : option ScoredPoint :=
  id ← external_id view (idx point);
  version ← internal_version view (idx point);
  Some {| sp_id := id; sp_version := version; sp_score := score point |}.

Definition segment_points (l : list ScoredPointOffset) : list ScoredPoint :=
  omap external_point l.

(** Offsets as the id tracker keeps them: mapped, versioned, and mapped to
    distinct identities. *)
Record tracked (ids : list N) : Prop := {
  tr_mapped : Forall (fun i => is_Some (external_id view i) /\ is_Some (internal_version view i)) ids;
  tr_inj : forall i j, i ∈ ids -> j ∈ ids -> external_id view i = external_id view j -> i = j;
  tr_nodup : NoDup ids;
}.

Lemma tracked_perm ids ids' : ids ≡ₚ ids' -> tracked ids -> tracked ids'.
Proof.
  intros P [H1 H2 H3]. split; [by rewrite <- P | | by rewrite <- P].
  intros i j. rewrite <- P. apply H2.
Qed.

Lemma tracked_filter (P : N -> Prop) `{forall i, Decision (P i)} ids :
  tracked ids -> tracked (filter P ids).
Proof.
  intros [H1 H2 H3]. split; [| | by apply NoDup_filter].
  { rewrite Forall_forall in *. intros i [_ ?]%list_elem_of_filter. auto. }
  intros i j [_ ?]%list_elem_of_filter [_ ?]%list_elem_of_filter. by apply H2.
Qed.

Lemma segment_points_denotes l :
  tracked (idx <$> l) -> Forall2 (denotes view) l (segment_points l).
Proof.
  intros [Hm _ _]. induction l as [|p l IH]; [constructor |]. csimpl in Hm.
  apply Forall_cons in Hm as [[[id Hid] [v Hv]] Hm]. unfold segment_points. csimpl.
  unfold external_point at 1. rewrite Hid, Hv. simpl. constructor; [done | by apply IH].
Qed.

Lemma denotes_ids l R :
  Forall2 (denotes view) l R -> tracked (idx <$> l) -> NoDup (sp_id <$> R).
Proof.
  induction 1 as [|p q l R (Hid & _) HR IH]; csimpl; [constructor |]. intros [Hm Hi Hn].
  apply Forall_cons in Hm as [_ Hm]. apply NoDup_cons in Hn as [Hn1 Hn2]. constructor.
  - intros (q' & E & Hq')%list_elem_of_fmap. apply Hn1.
    apply list_elem_of_lookup in Hq' as [k Hk].
    destruct (Forall2_lookup_r _ _ _ _ _ HR Hk) as (p' & Hp' & (Hid' & _)).
    assert (Hin : idx p' ∈ idx <$> l) by (by apply list_elem_of_fmap_2, (list_elem_of_lookup_2 _ k)).
    rewrite (Hi (idx p) (idx p')); [done | left | by right | congruence].
  - apply IH. split; [done | | done]. intros i j ? ?. apply Hi; by right.
Qed.

Lemma denotes_ranked l R :
  Forall2 (denotes view) l R -> tracked (idx <$> l) ->
  StronglySorted (cmp_le offset_order) l -> Forall (fun p => is_finite (score p) = true) l ->
  ranked R.
Proof.
  intros HR Ht Hs Hf. split; [| |by apply (denotes_ids l)].
  - clear Ht Hs. induction HR as [|p q l R (_ & _ & Hq) HR IH]; [constructor |].
    apply Forall_cons in Hf as [Hp Hf]. constructor; [by rewrite Hq | auto].
  - clear Ht. induction HR as [|p q l R (_ & _ & Hq) HR IH]; [constructor |].
    apply Forall_cons in Hf as [Hp Hf]. apply StronglySorted_inv in Hs as [Hs Hle].
    constructor; [auto |]. apply Forall_forall. intros q' [k Hk]%list_elem_of_lookup.
    destruct (Forall2_lookup_r _ _ _ _ _ HR Hk) as (p' & Hp' & (_ & _ & Hq')).
    rewrite Hq, Hq'. rewrite Forall_lookup in Hle, Hf. specialize (Hle k p' Hp').
    unfold cmp_le, offset_order, then_with in Hle.
    rewrite finite_ordered in Hle by (done || by apply (Hf k)).
    destruct (Z.compare_spec (val (score p')) (val (score p))); [lia | lia | done].
Qed.

(** The order of the shard does not depend on how the points are listed. *)
Lemma sort_shard_perm R R' :
  R ≡ₚ R' -> NoDup (sp_id <$> R) ->
  sort_by shard_score_order R = sort_by shard_score_order R'.
Proof.
  intros P N. apply (sorted_unique shard_score_order).
  - intros x y Hx Hy E%shard_score_order_eq_id. rewrite sort_by_perm in Hx, Hy.
    by apply (NoDup_fmap_eq sp_id R).
  - apply sort_by_sorted, _.
  - apply sort_by_sorted, _.
  - by rewrite !sort_by_perm.
Qed.

(** A segment opened over an exact ranking delivers its kept points in the
    order of the shard. *)
Lemma opened_exact {D} `{ExactOffsets D} keep fuel (rank : D) rest points :
  offsets_rest rank rest -> length rest < fuel ->
  StronglySorted (cmp_le offset_order) rest ->
  points ≡ₚ filter (fun p => keep (idx p) = true) rest ->
  Forall (fun p => is_finite (score p) = true) points -> tracked (idx <$> points) ->
  segment_delivers view keep fuel (opened rank)
    (sort_by shard_score_order (segment_points points)).
Proof.
  intros Hr Hlen Hs HP Hf Ht. set (kept := filter _ rest) in *.
  assert (Htk : tracked (idx <$> kept)) by (by apply (tracked_perm _ _ (fmap_Permutation idx _ _ HP))).
  rewrite (sort_shard_perm _ (segment_points kept)).
  - apply (opened_delivers view keep fuel rank rest); [done | done | by apply segment_points_denotes |].
    apply (denotes_ranked kept); [by apply segment_points_denotes | done | | by rewrite <- HP].
    by apply StronglySorted_filter.
  - unfold segment_points. by rewrite HP.
  - apply (denotes_ids points); [by apply segment_points_denotes | done].
Qed.
End Points.

Lemma eligible_points_nodup view total : NoDup (eligible_points view total).
Proof. apply NoDup_filter, NoDup_fmap_2; [intros ? ?; lia | apply NoDup_seq]. Qed.

(** ** Dense segments *)

(** [advance_exact_dense_rank_state]; the lookup of the vector's data and the
    construction of the scorer may fail. *)
Definition advance_exact_dense_rank_state (scorer : OperationResult (list N -> list float))
    : OffsetStream DenseRankState :=
  fun s max_results =>
    match scorer with
    | Err e => (Returned (Err e), s)
    | Ok exact_scorer =>
        let '(s, r) := next_batch_with exact_scorer s max_results in (Returned r, s)
    end.

Section DenseSegments.
Context (exact_scorer : list N -> list float) (exact_score : N -> float).
Hypothesis (Hscorer : forall ids, exact_scorer ids = exact_score <$> ids).
Context (view : SegmentView) (fuel : nat).

#[local] Instance dense_offsets : OffsetStream DenseRankState :=
  advance_exact_dense_rank_state (Ok exact_scorer).

#[local] Program Instance dense_exact_offsets : ExactOffsets DenseRankState :=
  {| offsets_rest := dense_rest exact_score |}.
Next Obligation.
  intros d rest n Hr Hn. destruct (next_batch_with_exact _ _ Hscorer d rest n Hn Hr) as (d' & E & Hd).
  exists (take n rest), (drop n rest), d'.
  unfold next_offsets, dense_offsets, advance_exact_dense_rank_state. rewrite E.
  split_and!; [done | by rewrite take_drop | | done].
  destruct rest; [by rewrite drop_nil | by destruct n].
Qed.

(** *** Opening *)

Context (reconstruction : N -> ScalarReconstructionStats)
  (query_stats : option ScalarReconstructionStats)
  (approximate_scorer : OperationResult (list N -> list float))
  (scalar_stopped_at : nat -> bool)
  (build_per_vector_scalar_certificate_state : list N -> nat -> OperationResult DenseRankState).

(** The lookups of the vector's data and of the filter context may fail. *)
Definition open_exact_dense_rank_state (data : OperationResult (SegmentView * nat))
    (distance : Distance) (datatype : VectorStorageDatatype) (quantized : option QuantizedView)
    (query : list float) (policy : DenseExecutionPolicy) (stopped : bool)
    : OperationResult DenseRankState :=
  if bool_decide (query = []) || existsb (fun coordinate => negb (is_finite coordinate)) query then
    Err (ValidationError "exact Dense session requires a non-empty finite Query")
  else
    let? found := data in
    let '(view, total_vector_count) := found in
    DenseRankState_new
      (build_scalar_certificate_state reconstruction query_stats approximate_scorer
         scalar_stopped_at query)
      build_per_vector_scalar_certificate_state
      distance datatype quantized (eligible_points view total_vector_count) query policy stopped.

Definition open_exact_dense_segment_state data distance datatype quantized query policy stopped
    : OperationResult (SegmentRankState DenseRankState) :=
  let? rank :=
    open_exact_dense_rank_state data distance datatype quantized query policy stopped in
  Ok (opened rank).

(** What the certificate plans owe: the quantized scorer scores every offset
    by itself, and the intervals contain the exact scores. *)
Definition scalar_sound (dimension : nat) (ids : list N) : Prop :=
  forall stats scorer, query_stats = Some stats -> approximate_scorer = Ok scorer ->
    exists approximate : N -> float, (forall l, scorer l = approximate <$> l) /\
      bounds_valid exact_score
        ((fun i => scalar_bound reconstruction dimension stats i (approximate i)) <$> ids).

Definition per_vector_sound : Prop :=
  forall ids batch s, build_per_vector_scalar_certificate_state ids batch = Ok s ->
    Forall (fun i => is_finite (exact_score i) = true) ids ->
    exists c, inner s = Certificate c /\ cert_holds exact_score c ids.
Lemma scalar_sound_perm dimension ids ids' :
  ids ≡ₚ ids' -> scalar_sound dimension ids -> scalar_sound dimension ids'.
Proof.
  intros P Hs stats scorer E1 E2. destruct (Hs stats scorer E1 E2) as (f & ? & Hv).
  exists f. split; [done |]. unfold bounds_valid in *. by rewrite <- P.
Qed.

Lemma concat_chunks {A} n (l : list A) : n <> 0 -> concat (chunks n l) = l.
Proof.
  intros Hn. unfold chunks.
  assert (H : forall k (l : list A), length l <= k -> concat (chunks_fuel k n l) = l).
  { clear l. induction k as [|k IH]; intros [|x l] Hl; simpl in *; try done; [lia |].
    destruct n as [|m]; [done |]. simpl. f_equal. rewrite IH.
    - apply take_drop.
    - rewrite length_drop. lia. }
  by apply H.
Qed.

Lemma score_chunks_exact scorer approximate load parts scores :
  (forall l, scorer l = approximate <$> l) ->
  score_chunks scalar_stopped_at load scorer parts = Ok scores ->
  scores = approximate <$> concat parts.
Proof.
  intros Hs. revert load scores. induction parts as [|part parts IH]; intros load scores; simpl.
  { by intros [= <-]. }
  destruct (check_stopped _); simpl; [|done].
  destruct (score_chunks _ _ _ parts) as [rest|] eqn:E; simpl; [|done]. intros [= <-].
  by rewrite Hs, fmap_app, (IH _ _ E).
Qed.

Lemma build_scalar_exact query ids batch s :
  build_scalar_certificate_state reconstruction query_stats approximate_scorer scalar_stopped_at
    query ids batch = Ok s ->
  scalar_sound (length query) ids ->
  Forall (fun i => is_finite (exact_score i) = true) ids ->
  dense_rest exact_score s (dense_order exact_score ids).
Proof.
  unfold build_scalar_certificate_state. destruct query_stats as [stats|] eqn:Eq; [|done].
  destruct approximate_scorer as [scorer|] eqn:Ea; simpl; [|done].
  destruct (score_chunks _ _ _ _) as [scores|] eqn:Es; simpl; [|done]. intros E Hs Hf.
  destruct (Hs stats scorer Eq Ea) as (approximate & Hp & Hv).
  apply (score_chunks_exact _ _ _ _ _ Hp) in Es. rewrite concat_chunks in Es by (vm_compute; lia).
  subst scores. apply (from_certificate_exact _ _ _ _ _ _ _ E); [|done].
  by rewrite zip_with_fmap_r, zip_with_diag.
Qed.

Lemma open_dense_exact total distance datatype quantized query policy stopped rank :
  open_exact_dense_rank_state (Ok (view, total)) distance datatype quantized query policy stopped =
    Ok rank ->
  scalar_sound (length query) (eligible_points view total) ->
  per_vector_sound ->
  Forall (fun i => is_finite (exact_score i) = true) (eligible_points view total) ->
  dense_rest exact_score rank (dense_order exact_score (eligible_points view total)).
Proof.
  unfold open_exact_dense_rank_state, DenseRankState_new. intros E Hs Hp Hf.
  destruct (_ || _); [done |]. simpl in E. destruct (check_stopped _); [|done]. simpl in E.
  assert (Hperm := sort_by_perm N.compare (eligible_points view total)).
  destruct (adjacent_equal _); [done |].
  rewrite <- Hperm in Hf. rewrite (dense_order_perm exact_score _ _ (eligible_points_nodup view total) (symmetry Hperm)).
  apply (scalar_sound_perm _ _ _ (symmetry Hperm)) in Hs.
  destruct (select_dense_plan _ _ _ _ _).
  - by apply (build_scalar_exact query _ 1).
  - destruct (Hp _ _ _ E Hf) as (c & Ec & Hc). by apply (cert_holds_rest _ _ c).
  - by apply (scan_exact exact_score).
Qed.

(** The points of the segment that the request can see. *)
Definition dense_points (total : nat) : list ScoredPoint :=
  segment_points view (scored_offset exact_score <$> eligible_points view total).

Lemma opened_dense total rank :
  dense_rest exact_score rank (dense_order exact_score (eligible_points view total)) ->
  Forall (fun i => is_finite (exact_score i) = true) (eligible_points view total) ->
  tracked view (eligible_points view total) -> length (eligible_points view total) < fuel ->
  segment_delivers view (fun _ => true) fuel (opened rank)
    (sort_by shard_score_order (dense_points total)).
Proof.
  intros Hr Hf Ht Hlen.
  apply opened_exact with (rest := dense_order exact_score (eligible_points view total)); [exact Hr | ..].
  - unfold dense_order. by rewrite (Permutation_length (sort_by_perm _ _)), length_fmap.
  - apply sort_by_sorted, _.
  - rewrite filter_all by done. unfold dense_order. by rewrite sort_by_perm.
  - by apply Forall_fmap.
  - rewrite <- list_fmap_compose. change (idx ∘ scored_offset exact_score) with (@id N).
    by rewrite list_fmap_id.
Qed.

End DenseSegments.

(** ** Examples *)

(** Four offsets, one of them deleted, numbered against their identities. *)
Definition example_view : SegmentView :=
  {| external_id i := if decide (i < 4)%N then Some (NumId (10 - i)) else None;
     internal_version i := if decide (i < 4)%N then Some 7%N else None;
     deleted_vector _ := None;
     deleted_point i := Some (i =? 2)%N;
     deferred_from := None;
     filter_check := None |}.

Definition unit_stats : ScalarReconstructionStats :=
  {| original_norm := of_Z binary64 8; reconstructed_norm := of_Z binary64 8;
     residual_norm := of_Z binary64 0 |}.

Definition tied_score (i : N) : float := of_Z binary32 (Z.of_N (i / 3)).

(** Intervals that are the exact scores. *)
Definition point_intervals (ids : list N) (batch : nat) : OperationResult DenseRankState :=
  from_certificate_bounds_batched ids
    ((fun i => (i, f64_of_f32 (tied_score i), f64_of_f32 (tied_score i))) <$> ids)
    batch PerVectorScalarCertificate (length ids).

Lemma point_intervals_sound : per_vector_sound tied_score point_intervals.
Proof.
  intros ids batch s E Hf. apply (from_certificate_holds _ _ _ _ _ _ _ E); [|done].
  apply Forall_fmap, Forall_forall. intros i _. simpl. rewrite val_f64. lia.
Qed.

Local Abbreviation open_example := (open_exact_dense_segment_state (fun _ => unit_stats) (Some unit_stats) (Ok (fmap tied_score))
    (fun _ => false) point_intervals (Ok (example_view, 4)) Dot Float32
    (Some {| q_per_vector_scalar := false; q_distance := Dot; q_datatype := Float32;
             q_reconstruction_len := Some 4 |})
    [f32_one] {| scalar_min_points := 1; force_exact_scan := false |} false).

Lemma example_tracked : tracked example_view (eligible_points example_view 4).
Proof.
  assert (E : eligible_points example_view 4 = [0; 1; 3]%N) by (vm_compute; reflexivity).
  rewrite E. split.
  - repeat (constructor; [by split; eexists |]). constructor.
  - intros i j. rewrite !list_elem_of_In. simpl.
    intros [<-|[<-|[<-|[]]]] [<-|[<-|[<-|[]]]]; vm_compute; congruence.
  - apply (bool_decide_unpack _). vm_compute. exact Logic.I.
Qed.

Lemma example_scalar_sound :
  scalar_sound tied_score (fun _ => unit_stats) (Some unit_stats) (Ok (fmap tied_score)) 1
    (eligible_points example_view 4).
Proof.
  intros stats scorer [= <-] [= <-]. exists tied_score. split; [done |].
  assert (E : eligible_points example_view 4 = [0; 1; 3]%N) by (vm_compute; reflexivity).
  rewrite E. repeat (constructor; [vm_compute; split; discriminate |]). constructor.
Qed.

