(* ===== verification/Postings.v ===== *)
(** * Sparse postings

    lib/sparse/src/index/{posting_list_common,posting_list,posting_batch}.rs.
    A posting list holds the records of one dimension, sorted by record; a
    cursor walks it forward.  The trait [PostingListIter] becomes a class, and
    [LawfulPosting] says what its users rely on: every operation moves the
    cursor over the same entries, and maxima are upper bounds. A maximum
    is asked for up to a record the cursor has not passed.  The file
    discharges the laws for the lists in memory and proves the scoring of a
    batch of records exact and in bounds. *)

From S2P Require Import Prelude Float Order PointId RrfScoring.

(** ** Data *)

Definition DEFAULT_MAX_NEXT_WEIGHT : float := Inf true.

Record PostingElementEx : Type := mkPostingElementEx {
  record_id : N;
  weight : float;
  max_next_weight : float;
}.

(** [PostingElementEx::new] *)
Definition PostingElementEx_new (record_id : N) (weight : float) : PostingElementEx :=
  {| record_id := record_id; weight := weight; max_next_weight := DEFAULT_MAX_NEXT_WEIGHT |}.

(** A record with its weight: [PostingElement]. *)
Abbreviation PostingElement := (N * float)%type.

Definition to_element (e : PostingElementEx) : PostingElement := (record_id e, weight e).

(** The operations of the trait.  The traversals thread their context through
    the callback; [cursor_index] is the trait's [current_index], and
    [into_std_iter] the list of what the iterator yields. *)
Class PostingListIter (I : Type) := {
  peek : I -> I * option PostingElementEx;
  last_id : I -> option N;
  element_size : I -> nat;
  skip_to : I -> N -> I * option PostingElementEx;
  skip_to_end : I -> I;
  len_to_end : I -> nat;
  cursor_index : I -> nat;
  for_each_till_id : forall {Ctx : Type}, I -> N -> Ctx -> (Ctx -> N -> float -> Ctx) -> I * Ctx;
  for_each_in_id_range : forall {Ctx : Type},
    I -> N -> N -> Ctx -> (Ctx -> N -> float -> Ctx) -> Ctx * nat;
  reliable_max_next_weight : bool;
  reliable_block_max : bool;
  max_weight_till_id : I -> N -> I * option float;
  skip_till_id : I -> N -> I;
  block_max_endpoints : I -> option (float * float);
  fill_block_max_ranges : I -> N -> N -> list float -> option (list float);
  into_std_iter : I -> list PostingElement;
}.
#[global] Arguments reliable_max_next_weight I {_}.
#[global] Arguments reliable_block_max I {_}.

(** ** Lists in memory *)

Record PostingListIterator : Type := mkPostingListIterator {
  elements : list PostingElementEx;
  current_index : nat;
}.

Definition posting_list_iter (elements : list PostingElementEx) : PostingListIterator :=
  {| elements := elements; current_index := 0 |}.

Definition move_to (it : PostingListIterator) (index : nat) : PostingListIterator :=
  {| elements := elements it; current_index := index |}.

(** The elements before a record, of a sorted slice. *)
Fixpoint count_before (id : N) (l : list PostingElementEx) : nat :=
  match l with
  | [] => 0
  | e :: l => if (record_id e <? id)%N then S (count_before id l) else 0
  end.

(** [slice.binary_search_by(|e| e.record_id.cmp(&id))] on a slice sorted by
    distinct records: where the record is, or where it would be inserted. *)
Definition binary_search (l : list PostingElementEx) (id : N) : nat + nat :=
  let position := count_before id l in
  match l !! position with
  | Some e => if (record_id e =? id)%N then inl position else inr position
  | None => inr position
  end.

Definition ram_peek (it : PostingListIterator) : PostingListIterator * option PostingElementEx :=
  (it, elements it !! current_index it).

Definition ram_last_id (it : PostingListIterator) : option N := record_id <$> last (elements it).

Definition ram_skip_to (it : PostingListIterator) (id : N)
    : PostingListIterator * option PostingElementEx :=
  if length (elements it) <=? current_index it then (it, None)
  else
    match binary_search (drop (current_index it) (elements it)) id with
    | inl found_offset =>
        let index := current_index it + found_offset in
        (move_to it index, elements it !! index)
    | inr insert_index => (move_to it (current_index it + insert_index), None)
    end.

Definition ram_skip_to_end (it : PostingListIterator) : PostingListIterator :=
  move_to it (length (elements it)).

Definition ram_advance (it : PostingListIterator) : PostingListIterator :=
  if current_index it <? length (elements it) then move_to it (S (current_index it)) else it.

Definition ram_len_to_end (it : PostingListIterator) : nat :=
  length (elements it) - current_index it.

Fixpoint each_till {Ctx} (id : N) (f : Ctx -> N -> float -> Ctx) (l : list PostingElementEx)
    (index : nat) (ctx : Ctx) : nat * Ctx :=
  match l with
  | [] => (index, ctx)
  | e :: l =>
      if (id <? record_id e)%N then (index, ctx)
      else each_till id f l (S index) (f ctx (record_id e) (weight e))
  end.

Definition ram_for_each_till_id {Ctx} (it : PostingListIterator) (id : N) (ctx : Ctx)
    (f : Ctx -> N -> float -> Ctx) : PostingListIterator * Ctx :=
  let '(index, ctx) :=
    each_till id f (drop (current_index it) (elements it)) (current_index it) ctx in
  (move_to it index, ctx).

Fixpoint take_till (id : N) (l : list PostingElementEx) : list PostingElementEx :=
  match l with
  | [] => []
  | e :: l => if (record_id e <=? id)%N then e :: take_till id l else []
  end.

(** [partition_point] on a slice sorted by record is [count_before]; the loop
    counts the elements it visits. *)
Definition ram_for_each_in_id_range {Ctx} (it : PostingListIterator) (start end_ : N) (ctx : Ctx)
    (f : Ctx -> N -> float -> Ctx) : Ctx * nat :=
  if (end_ <? start)%N then (ctx, 0) else
  let start_index := count_before start (elements it) in
  fold_left (fun '(ctx, visited) e => (f ctx (record_id e) (weight e), S visited))
    (take_till end_ (drop start_index (elements it))) (ctx, 0).

Definition ram_max_weight_till_id (it : PostingListIterator) (id : N)
    : PostingListIterator * option float :=
  (it, Some (fold_left fmax (weight <$> take_till id (drop (current_index it) (elements it)))
               fzero)).

Definition ram_skip_till_id (it : PostingListIterator) (id : N) : PostingListIterator :=
  match ram_skip_to it id with
  | (it, Some _) => ram_advance it
  | (it, None) => it
  end.

#[export] Instance PostingListIterator_iter : PostingListIter PostingListIterator := {|
  peek := ram_peek;
  last_id := ram_last_id;
  element_size _ := 4;
  skip_to := ram_skip_to;
  skip_to_end := ram_skip_to_end;
  len_to_end := ram_len_to_end;
  cursor_index := current_index;
  for_each_till_id := @ram_for_each_till_id;
  for_each_in_id_range := @ram_for_each_in_id_range;
  reliable_max_next_weight := true;
  reliable_block_max := false;
  max_weight_till_id := ram_max_weight_till_id;
  skip_till_id := ram_skip_till_id;
  block_max_endpoints _ := None;
  fill_block_max_ranges _ _ _ _ := None;
  into_std_iter it := to_element <$> elements it;
|}.

(** ** Building *)

(** The loop over elements in reverse that gives every element the largest
    weight behind it, from the value behind the last. *)
Fixpoint fill_max_next_weight (l : list PostingElementEx) (max_next : float)
    : list PostingElementEx * float :=
  match l with
  | [] => ([], max_next)
  | e :: l =>
      let '(l, max_next) := fill_max_next_weight l max_next in
      ({| record_id := record_id e; weight := weight e; max_next_weight := max_next |} :: l,
       fmax max_next (weight e))
  end.

Definition record_cmp (a b : PostingElementEx) : comparison := N.compare (record_id a) (record_id b).

Definition PostingBuilder_add (b : list PostingElementEx) (record_id : N) (weight : float)
    : list PostingElementEx :=
  b ++ [PostingElementEx_new record_id weight].

(** [PostingBuilder::build]; the check for duplicates, of debug builds only, is
    left out. *)
Definition PostingBuilder_build (b : list PostingElementEx) : list PostingElementEx :=
  (fill_max_next_weight (sort_by record_cmp b) (Inf true)).1.

(** ** Batches of records *)

Section Batch.
Context {I : Type} `{PostingListIter I}.

(** [scores.get_unchecked_mut(local_id) += weight * query_weight]; [None] is
    the undefined behaviour of an index out of bounds (an identifier below
    [start] wraps around to one). *)
Definition add_score (start : N) (query_weight : float) (scores : option (list float)) (id : N)
    (w : float) : option (list float) :=
  scores ← scores;
  if (id <? start)%N then None else
  let local_id := N.to_nat (id - start) in
  score ← scores !! local_id;
  Some (<[local_id := (score + w * query_weight)%f32]> scores).

(** The loop over the postings; the count is of the elements visited. *)
Fixpoint score_postings (start end_ : N) (postings : list (I * float))
    (scores : option (list float)) (visited : nat) : option (list float) * nat :=
  match postings with
  | [] => (scores, visited)
  | (posting, query_weight) :: postings =>
      let posting := (skip_to posting start).1 in
      let elements_before := len_to_end posting in
      let '(posting, scores) :=
        for_each_till_id posting end_ scores (add_score start query_weight) in
      score_postings start end_ postings scores
        (visited + (elements_before - len_to_end posting))
  end.

(** The length is computed in [u32]: over all identifiers it is zero. *)
Definition score_posting_batch (postings : list (I * float)) (batch_start_id batch_last_id : N)
    : option (list float) * nat :=
  let batch_len := N.to_nat ((batch_last_id - batch_start_id + 1) `mod` 2 ^ 32) in
  score_postings batch_start_id batch_last_id postings (Some (replicate batch_len fzero)) 0.
End Batch.

(** ** Laws *)

(** Sorted by distinct records. *)
Definition by_record (a b : PostingElement) : Prop := (a.1 < b.1)%N.

Class LawfulPosting (I : Type) `{PostingListIter I} := {
  posting_ok : I -> Prop;
  entries : I -> list PostingElement;
  posting_rest : I -> list PostingElement;
  entries_sorted it : posting_ok it -> StronglySorted by_record (entries it);
  rest_suffix it : posting_ok it -> exists seen, entries it = seen ++ posting_rest it;
  peek_law it it' r : posting_ok it -> peek it = (it', r) ->
    posting_ok it' /\ entries it' = entries it /\ posting_rest it' = posting_rest it /\
    to_element <$> r = head (posting_rest it);
  last_id_law it : posting_ok it -> last_id it = fst <$> last (entries it);
  skip_to_law it it' id r : posting_ok it -> skip_to it id = (it', r) ->
    posting_ok it' /\ entries it' = entries it /\
    posting_rest it' = filter (fun e => id <= e.1)%N (posting_rest it);
  skip_to_found it id : posting_ok it ->
    to_element <$> (skip_to it id).2 = head (filter (fun e => e.1 = id) (posting_rest it));
  skip_to_end_law it : posting_ok it ->
    posting_ok (skip_to_end it) /\ entries (skip_to_end it) = entries it /\
    posting_rest (skip_to_end it) = [];
  cursor_index_law it : posting_ok it ->
    cursor_index it + length (posting_rest it) = length (entries it);
  range_law {Ctx} it start end_ (ctx : Ctx) f : posting_ok it ->
    for_each_in_id_range it start end_ ctx f =
      (fold_left (fun c e => f c e.1 e.2) (filter (fun e => start <= e.1 <= end_)%N (entries it)) ctx,
       length (filter (fun e => start <= e.1 <= end_)%N (entries it)));
  max_next_law it it' e : reliable_max_next_weight I = true -> posting_ok it ->
    peek it = (it', Some e) -> Forall (fun e => impact binary32 e.2) (entries it) ->
    impact binary32 (fmax (weight e) (max_next_weight e)) /\
    Forall (fun x => rank binary32 x.2 <= rank binary32 (fmax (weight e) (max_next_weight e)))%Z
      (posting_rest it);
  into_std_iter_law it : posting_ok it -> posting_rest it = entries it ->
    into_std_iter it = entries it;
  len_to_end_law it : posting_ok it -> len_to_end it = length (posting_rest it);
  for_each_law {Ctx} it it' id (ctx ctx' : Ctx) f :
    posting_ok it -> for_each_till_id it id ctx f = (it', ctx') ->
    posting_ok it' /\ entries it' = entries it /\
    posting_rest it' = filter (fun e => id < e.1)%N (posting_rest it) /\
    ctx' = fold_left (fun c e => f c e.1 e.2) (filter (fun e => e.1 <= id)%N (posting_rest it)) ctx;
  max_weight_law it it' id r : posting_ok it -> max_weight_till_id it id = (it', r) ->
    Forall (fun e => impact binary32 e.2) (entries it) ->
    (forall e, e ∈ entries it -> (id < e.1)%N -> e ∈ posting_rest it) ->
    posting_ok it' /\ entries it' = entries it /\ posting_rest it' = posting_rest it /\
    exists m, r = Some m /\ impact binary32 m /\
      Forall (fun e => (e.1 <= id)%N -> (rank binary32 e.2 <= rank binary32 m)%Z) (posting_rest it);
  skip_till_law it id : posting_ok it ->
    posting_ok (skip_till_id it id) /\ entries (skip_till_id it id) = entries it /\
    posting_rest (skip_till_id it id) = filter (fun e => id < e.1)%N (posting_rest it);
  fill_law it start width maxima maxima' : posting_ok it -> (0 < width)%N ->
    fill_block_max_ranges it start width maxima = Some maxima' ->
    Forall (fun e => impact binary32 e.2) (entries it) ->
    length maxima' = length maxima /\ Forall (impact binary32) maxima' /\
    Forall (fun e => (start <= e.1)%N -> forall b,
      maxima' !! N.to_nat ((e.1 - start) / width)%N = Some b ->
      (rank binary32 e.2 <= rank binary32 b)%Z) (entries it);
}.

(** ** The lists in memory keep the laws *)

Lemma by_record_cons e l :
  StronglySorted by_record (e :: l) -> StronglySorted by_record l /\ Forall (by_record e) l.
Proof. apply StronglySorted_inv. Qed.

(** The entries from a record on, of a sorted list with that record or a
    later one in front. *)
Lemma filter_from id e l :
  StronglySorted by_record (e :: l) -> (id <= e.1)%N ->
  filter (fun e => id <= e.1)%N (e :: l) = e :: l.
Proof.
  intros [_ Hl]%by_record_cons Hle. apply filter_id. constructor; [done |].
  eapply Forall_impl; [exact Hl |]. unfold by_record. intros x. simpl. lia.
Qed.

Lemma filter_after id e l :
  StronglySorted by_record (e :: l) -> (id < e.1)%N ->
  filter (fun e => id < e.1)%N (e :: l) = e :: l /\ filter (fun e => e.1 <= id)%N (e :: l) = [].
Proof.
  intros [_ Hl]%by_record_cons Hlt.
  assert (Hall : Forall (fun x : PostingElement => id < x.1)%N (e :: l)).
  { constructor; [done |]. eapply Forall_impl; [exact Hl |]. unfold by_record. intros x. simpl. lia. }
  split; [by apply filter_id | apply filter_nil].
  eapply Forall_impl; [exact Hall |]. simpl. lia.
Qed.

(** Nothing from a record on: the record is absent. *)
Lemma absent_all id (l : list PostingElement) :
  filter (fun e => id <= e.1)%N l = [] -> Forall (fun e => id <> e.1) l.
Proof.
  intros Ef. apply Forall_forall. intros y Hy ->.
  assert (Hin : y ∈ filter (fun e => y.1 <= e.1)%N l)
    by (apply list_elem_of_filter; split; [lia | done]).
  rewrite Ef in Hin. by apply elem_of_nil in Hin.
Qed.

(** A later record is the first from a record on: the record is absent. *)
Lemma absent_from id e xs (l : list PostingElement) :
  StronglySorted by_record l -> filter (fun e => id <= e.1)%N l = e :: xs -> e.1 <> id ->
  Forall (fun e => id <> e.1) l.
Proof.
  intros Hs Ef Hne. apply Forall_forall. intros y Hy ->.
  assert (Hin : y ∈ e :: xs) by (rewrite <- Ef; apply list_elem_of_filter; split; [lia | done]).
  apply elem_of_cons in Hin as [->|Hin]; [done |].
  apply (StronglySorted_filter _ (fun e => y.1 <= e.1)%N) in Hs. rewrite Ef in Hs.
  apply by_record_cons in Hs as [_ Hx]. rewrite Forall_forall in Hx. specialize (Hx y Hin).
  assert (Hle : e ∈ filter (fun e => y.1 <= e.1)%N l) by (rewrite Ef; left).
  apply list_elem_of_filter in Hle as [Hle _]. unfold by_record in Hx. lia.
Qed.

Lemma count_before_spec id l :
  StronglySorted by_record (to_element <$> l) ->
  to_element <$> drop (count_before id l) l = filter (fun e => id <= e.1)%N (to_element <$> l) /\
  count_before id l <= length l.
Proof.
  induction l as [|e l IH]; csimpl; intros Hs; [done |].
  destruct (N.ltb_spec (record_id e) id).
  - rewrite filter_cons_False by (simpl; lia). apply by_record_cons in Hs as [Hs _].
    destruct (IH Hs) as [IH1 IH2]. simpl. split; [done | lia].
  - rewrite filter_from by done. split; [done | lia].
Qed.

Lemma each_till_spec {Ctx} id (f : Ctx -> N -> float -> Ctx) l index ctx :
  StronglySorted by_record (to_element <$> l) ->
  exists k, each_till id f l index ctx =
    (index + k, fold_left (fun c e => f c e.1 e.2)
       (filter (fun e => e.1 <= id)%N (to_element <$> l)) ctx) /\
    k <= length l /\
    to_element <$> drop k l = filter (fun e => id < e.1)%N (to_element <$> l).
Proof.
  revert index ctx. induction l as [|e l IH]; intros index ctx; csimpl; intros Hs.
  { exists 0. by rewrite Nat.add_0_r. }
  destruct (N.ltb_spec id (record_id e)).
  - destruct (filter_after id (to_element e) (to_element <$> l) Hs) as [-> ->]; [done |].
    exists 0. rewrite Nat.add_0_r. split_and!; [done | lia | done].
  - apply by_record_cons in Hs as [Hs _].
    rewrite filter_cons_True, filter_cons_False by (simpl; lia).
    destruct (IH (S index) (f ctx (record_id e) (weight e)) Hs) as (k & -> & Hk & Hd).
    exists (S k). split_and!; [| lia | done]. f_equal. lia.
Qed.

Lemma take_till_spec id l :
  StronglySorted by_record (to_element <$> l) ->
  to_element <$> take_till id l = filter (fun e => e.1 <= id)%N (to_element <$> l).
Proof.
  induction l as [|e l IH]; csimpl; intros Hs; [done |].
  destruct (N.leb_spec (record_id e) id).
  - apply by_record_cons in Hs as [Hs _]. rewrite filter_cons_True by done. csimpl. by rewrite IH.
  - by destruct (filter_after id (to_element e) (to_element <$> l) Hs) as [_ ->].
Qed.

(** *** Maxima *)

Lemma impact_zero : impact binary32 fzero.
Proof. split; [apply (wf_zero binary32) | done]. Qed.

Lemma fmax_impact x y :
  impact binary32 x -> impact binary32 y ->
  impact binary32 (fmax x y) /\ (rank binary32 x <= rank binary32 (fmax x y))%Z /\
  (rank binary32 y <= rank binary32 (fmax x y))%Z.
Proof.
  intros Hx Hy. destruct x as [| |s a], y as [| |t b]; try (by destruct Hx as [_ []]);
    try (by destruct Hy as [_ []]). unfold fmax, flt, fcompare. simpl.
  destruct (Z.compare_spec (signed s a) (signed t b)); simpl; split_and!; try done; lia.
Qed.

Lemma fold_fmax_impact l m :
  impact binary32 m -> Forall (impact binary32) l ->
  impact binary32 (fold_left fmax l m) /\
  Forall (fun x => rank binary32 x <= rank binary32 (fold_left fmax l m))%Z (m :: l).
Proof.
  intros Hm Hl. revert m Hm. induction Hl as [|x l Hx Hl IH]; intros m Hm; simpl.
  { split; [done |]. constructor; [lia | constructor]. }
  destruct (fmax_impact m x Hm Hx) as (H1 & H2 & H3).
  destruct (IH _ H1) as [I1 I2]. apply Forall_cons in I2 as [I2 I3].
  split; [done |]. constructor; [lia |]. constructor; [lia | done].
Qed.

(** The largest weight of a list, from its end. *)
Definition max_weight (l : list PostingElementEx) : float :=
  foldr (fun e m => fmax m (weight e)) (Inf true) l.
#[global] Arguments max_weight : simpl never.

Lemma fmax_lowest x : impact binary32 x -> fmax (Inf true) x = x /\ fmax x (Inf true) = x.
Proof. by destruct x as [| |[] m]; intros []. Qed.

Lemma max_weight_cons e l : max_weight (e :: l) = fmax (max_weight l) (weight e).
Proof. done. Qed.

Lemma max_weight_impact l :
  l <> [] -> Forall (fun e => impact binary32 (weight e)) l ->
  impact binary32 (max_weight l) /\
  Forall (fun e => rank binary32 (weight e) <= rank binary32 (max_weight l))%Z l.
Proof.
  intros Hne Hl. induction Hl as [|e l He Hl IH]; [done |]. rewrite max_weight_cons.
  destruct l as [|e' l']; [change (max_weight []) with (Inf true);
    destruct (fmax_lowest (weight e) He) as [-> _] |].
  { split; [done |]. constructor; [lia | constructor]. }
  destruct (IH ltac:(done)) as [I1 I2]. destruct (fmax_impact _ _ I1 He) as (F1 & F2 & F3).
  split; [done |]. constructor; [done |]. eapply Forall_impl; [exact I2 |]. intros x Hx. cbv beta in *. lia.
Qed.

(** The weight in front and the largest behind it bound a list. *)
Lemma front_bound e l :
  Forall (fun e => impact binary32 (weight e)) (e :: l) ->
  impact binary32 (fmax (weight e) (max_weight l)) /\
  Forall (fun x => rank binary32 (weight x) <= rank binary32 (fmax (weight e) (max_weight l)))%Z (e :: l).
Proof.
  intros [He Hl]%Forall_cons. destruct l as [|e' l'] eqn:El.
  { change (max_weight []) with (Inf true). destruct (fmax_lowest (weight e) He) as [_ ->].
    split; [done |]. by constructor. }
  rewrite <- El in *. destruct (max_weight_impact l) as [M1 M2]; [by subst | done |].
  destruct (fmax_impact _ _ He M1) as (F1 & F2 & F3). split; [done |]. constructor; [done |].
  eapply Forall_impl; [exact M2 |]. intros x Hx. cbv beta in *. lia.
Qed.

(** Every element carries the largest weight behind it. *)
Fixpoint next_exact (l : list PostingElementEx) : Prop :=
  match l with
  | [] => True
  | e :: l => max_next_weight e = max_weight l /\ next_exact l
  end.

(** *** Built lists *)

#[export] Instance record_cmp_total : TotalCmp record_cmp.
Proof. apply (TotalCmp_key N.compare record_id), _. Qed.

Lemma max_weight_entries l l' : to_element <$> l = to_element <$> l' -> max_weight l = max_weight l'.
Proof.
  revert l'. induction l as [|x l IH]; intros [|y l']; csimpl; try done.
  intros [= _ E ?]. rewrite !max_weight_cons, E. f_equal. auto.
Qed.

(** Filling a list in front of an exact one. *)
Lemma fill_max_next_weight_spec l behind :
  next_exact behind ->
  to_element <$> (fill_max_next_weight l (max_weight behind)).1 = to_element <$> l /\
  next_exact ((fill_max_next_weight l (max_weight behind)).1 ++ behind) /\
  (fill_max_next_weight l (max_weight behind)).2 = max_weight (l ++ behind).
Proof.
  intros Hb. induction l as [|e l IH]; [done |]. cbn [fill_max_next_weight].
  destruct (fill_max_next_weight l (max_weight behind)) as [l' m] eqn:E.
  destruct IH as (I1 & I2 & I3). simpl in *.
  assert (Hm : max_weight (l' ++ behind) = max_weight (l ++ behind)).
  { apply max_weight_entries. by rewrite !fmap_app, I1. }
  split_and!; [by f_equal | by rewrite I3, <- Hm | done | by rewrite I3].
Qed.

Lemma sorted_records l :
  StronglySorted (cmp_le record_cmp) l -> NoDup (record_id <$> l) ->
  StronglySorted by_record (to_element <$> l).
Proof.
  induction 1 as [|e l Hl IH He]; csimpl; intros Hn; constructor.
  - apply NoDup_cons in Hn as [_ Hn]. auto.
  - apply NoDup_cons in Hn as [Hn _]. rewrite Forall_fmap. rewrite Forall_forall in *.
    intros x Hx. specialize (He x Hx). unfold cmp_le, record_cmp in He.
    assert (record_id x <> record_id e) by (intros E; apply Hn; rewrite <- E; by apply list_elem_of_fmap_2).
    unfold by_record. simpl. destruct (N.compare_spec (record_id e) (record_id x)); [lia | done | done].
Qed.

(** Building sorts the records added and fills in the weights behind. *)
Lemma PostingBuilder_build_spec b :
  NoDup (record_id <$> b) ->
  to_element <$> PostingBuilder_build b ≡ₚ to_element <$> b /\
  StronglySorted by_record (to_element <$> PostingBuilder_build b) /\
  next_exact (PostingBuilder_build b).
Proof.
  intros Hn. unfold PostingBuilder_build. change (Inf true) with (max_weight []).
  destruct (fill_max_next_weight_spec (sort_by record_cmp b) []) as (-> & H2 & _); [done |].
  rewrite app_nil_r in H2.
  pose proof (sort_by_perm record_cmp b) as Hp. split_and!; [by rewrite Hp | | done].
  apply sorted_records; [apply sort_by_sorted, _ |]. by rewrite Hp.
Qed.

Section Ram.
Implicit Types (it : PostingListIterator).

Definition ram_entries it : list PostingElement := to_element <$> elements it.

Definition ram_rest it : list PostingElement := drop (current_index it) (ram_entries it).

Definition ram_ok it : Prop :=
  StronglySorted by_record (ram_entries it) /\ next_exact (elements it) /\
  current_index it <= length (elements it).

Lemma ram_rest_eq it : ram_rest it = to_element <$> drop (current_index it) (elements it).
Proof. unfold ram_rest, ram_entries. by rewrite fmap_drop. Qed.

Lemma ram_rest_sorted it :
  ram_ok it -> StronglySorted by_record (to_element <$> drop (current_index it) (elements it)).
Proof.
  intros (Hs & _ & _). rewrite <- ram_rest_eq. unfold ram_rest.
  rewrite <- (take_drop (current_index it) (ram_entries it)) in Hs.
  by apply StronglySorted_app_r in Hs.
Qed.

Lemma ram_move it k :
  ram_ok it -> k <= length (drop (current_index it) (elements it)) ->
  ram_ok (move_to it (current_index it + k)) /\
  ram_entries (move_to it (current_index it + k)) = ram_entries it /\
  ram_rest (move_to it (current_index it + k)) =
    to_element <$> drop k (drop (current_index it) (elements it)).
Proof.
  intros (Hs & Hn & Hc). rewrite length_drop. intros Hk. split_and!; [|done|].
  - split_and!; [done | done | simpl; lia].
  - rewrite ram_rest_eq. simpl. by rewrite drop_drop.
Qed.

Lemma ram_skip_to_law it it' id r :
  ram_ok it -> ram_skip_to it id = (it', r) ->
  ram_ok it' /\ ram_entries it' = ram_entries it /\
  ram_rest it' = filter (fun e => id <= e.1)%N (ram_rest it) /\
  (r = None -> Forall (fun e => id <> e.1) (ram_rest it)) /\
  (is_Some r -> exists e l, ram_rest it' = e :: l /\ e.1 = id).
Proof.
  intros Hok. unfold ram_skip_to. destruct (Nat.leb_spec (length (elements it)) (current_index it)).
  { intros [= <- <-]. assert (ram_rest it = []) as E.
    { unfold ram_rest. apply drop_ge. unfold ram_entries. by rewrite length_fmap. }
    rewrite E. split_and!; [done | done | done | by constructor | by intros []]. }
  pose proof (ram_rest_sorted it Hok) as Hs. set (l := drop (current_index it) (elements it)) in *.
  destruct (count_before_spec id l Hs) as [Hc Hl].
  destruct (ram_move it (count_before id l) Hok Hl) as (M1 & M2 & M3). fold l in M3.
  assert (Hrest : ram_rest it = to_element <$> l) by apply ram_rest_eq.
  unfold binary_search. rewrite <- Hrest in Hc.
  assert (Hhd : to_element <$> l !! count_before id l =
    head (filter (fun e => id <= e.1)%N (ram_rest it))).
  { rewrite <- Hc. rewrite <- (Nat.add_0_r (count_before id l)) at 1.
    rewrite <- lookup_drop. by destruct (drop (count_before id l) l). }
  destruct (l !! count_before id l) as [e|] eqn:El; simpl in Hhd.
  - destruct (filter _ (ram_rest it)) as [|x xs] eqn:Ef; [done |]. injection Hhd as <-.
    destruct (N.eqb_spec (record_id e) id) as [Ei|Ei]; intros [= <- <-].
    + rewrite M3, Hc. split_and!; try done.
      * rewrite <- lookup_drop. fold l. by rewrite El.
      * intros _. by exists (to_element e), xs.
    + rewrite M3, Hc. split_and!; try done. intros _.
      rewrite Hrest in *. by apply (absent_from id (to_element e) xs).
  - destruct (filter _ (ram_rest it)) as [|x xs] eqn:Ef; [|done]. intros [= <- <-].
    rewrite M3, Hc. split_and!; try done. intros _. by apply absent_all.
Qed.

Lemma ram_skip_to_peek it it' id x :
  ram_skip_to it id = (it', Some x) -> elements it' !! current_index it' = Some x.
Proof.
  unfold ram_skip_to. case_match; [done |]. case_match; [|done]. intros [= <- ?]. done.
Qed.

Lemma ram_skip_to_found it id :
  ram_ok it ->
  to_element <$> (ram_skip_to it id).2 = head (filter (fun e => e.1 = id) (ram_rest it)).
Proof.
  intros Hok. destruct (ram_skip_to it id) as [it' r] eqn:E. simpl.
  destruct (ram_skip_to_law it it' id r Hok E) as (_ & _ & Hr & Hnone & Hsome).
  destruct r as [x|]; simpl.
  - destruct (Hsome ltac:(eauto)) as (e & l & Hel & Hid).
    assert (Hx : Some (to_element x) = head (ram_rest it')).
    { apply ram_skip_to_peek in E. rewrite ram_rest_eq. by rewrite (drop_S _ _ _ E). }
    rewrite Hx, Hel. rewrite Hr in Hel. clear -Hel Hid. revert Hel.
    induction (ram_rest it) as [|y ys IH]; [done |]. rewrite !filter_cons.
    destruct (decide (id <= y.1)%N), (decide (y.1 = id)); try lia; intros E.
    + by injection E as ->.
    + injection E as -> _. done.
    + by apply IH.
  - rewrite filter_nil; [done |]. eapply Forall_impl; [by apply Hnone |]. simpl. auto.
Qed.

Lemma next_exact_drop n l : next_exact l -> next_exact (drop n l).
Proof. revert n. induction l as [|e l IH]; intros [|n]; simpl; try done. intros [_ ?]. auto. Qed.

Lemma ram_max_next_law it e :
  ram_ok it -> elements it !! current_index it = Some e ->
  Forall (fun e => impact binary32 e.2) (ram_entries it) ->
  impact binary32 (fmax (weight e) (max_next_weight e)) /\
  Forall (fun x => rank binary32 x.2 <= rank binary32 (fmax (weight e) (max_next_weight e)))%Z
    (ram_rest it).
Proof.
  intros (_ & Hn & _) He Hi. apply (next_exact_drop (current_index it)) in Hn.
  unfold ram_entries in Hi. rewrite Forall_fmap in Hi.
  apply (Forall_drop _ (current_index it)) in Hi. rewrite ram_rest_eq.
  rewrite (drop_S _ _ _ He) in *. destruct Hn as [-> _].
  destruct (front_bound e _ Hi) as [F1 F2]. split; [done |]. by rewrite Forall_fmap.
Qed.

Lemma visits_fold {Ctx} (f : Ctx -> N -> float -> Ctx) l ctx n :
  fold_left (fun '(ctx, visited) e => (f ctx (record_id e) (weight e), S visited)) l (ctx, n) =
  (fold_left (fun c e => f c e.1 e.2) (to_element <$> l) ctx, n + length l).
Proof.
  revert ctx n. induction l as [|e l IH]; intros ctx n; csimpl.
  - f_equal. lia.
  - rewrite IH. f_equal. lia.
Qed.

Lemma filter_bounds start end_ (l : list PostingElement) :
  filter (fun e => e.1 <= end_)%N (filter (fun e => start <= e.1)%N l) =
  filter (fun e => start <= e.1 <= end_)%N l.
Proof.
  induction l as [|e l IH]; [done |]. rewrite !filter_cons.
  repeat case_decide; rewrite ?filter_cons; repeat case_decide; try lia; congruence.
Qed.

Lemma ram_range_law {Ctx} it start end_ (ctx : Ctx) f :
  ram_ok it -> ram_for_each_in_id_range it start end_ ctx f =
    (fold_left (fun c e => f c e.1 e.2) (filter (fun e => start <= e.1 <= end_)%N (ram_entries it)) ctx,
     length (filter (fun e => start <= e.1 <= end_)%N (ram_entries it))).
Proof.
  intros (Hs & _ & _). unfold ram_for_each_in_id_range, ram_entries in *. destruct (N.ltb_spec end_ start).
  { rewrite filter_nil; [done |]. apply Forall_forall. intros e _. lia. }
  rewrite visits_fold. destruct (count_before_spec start (elements it) Hs) as [Hd _].
  rewrite take_till_spec by (rewrite Hd; by apply StronglySorted_filter).
  rewrite Hd, filter_bounds. f_equal. rewrite <- filter_bounds, <- Hd.
  rewrite <- take_till_spec by (rewrite Hd; by apply StronglySorted_filter).
  by rewrite length_fmap.
Qed.

Lemma ram_skip_till_law it id :
  ram_ok it -> ram_ok (ram_skip_till_id it id) /\
  ram_entries (ram_skip_till_id it id) = ram_entries it /\
  ram_rest (ram_skip_till_id it id) = filter (fun e => id < e.1)%N (ram_rest it).
Proof.
  intros Hok. unfold ram_skip_till_id. destruct (ram_skip_to it id) as [it' r] eqn:E.
  destruct (ram_skip_to_law it it' id r Hok E) as (Hok' & He & Hr & Hnone & Hsome).
  assert (Hsplit : forall l : list PostingElement, filter (fun e => id < e.1)%N l =
    filter (fun e => id < e.1)%N (filter (fun e => id <= e.1)%N l)).
  { intros l. induction l as [|e l IH]; [done |]. rewrite !filter_cons.
    repeat case_decide; rewrite ?filter_cons; repeat case_decide; try lia; congruence. }
  destruct r as [x|].
  - destruct (Hsome ltac:(eauto)) as (e & l & Hel & Hid).
    assert (Hlt : current_index it' < length (elements it')).
    { apply Nat.nle_gt. intros Hge. rewrite ram_rest_eq, drop_ge in Hel by done. done. }
    unfold ram_advance. rewrite (proj2 (Nat.ltb_lt _ _) Hlt). rewrite <- Nat.add_1_r.
    destruct (ram_move it' 1 Hok') as (M1 & M2 & M3); [rewrite length_drop; lia |].
    split_and!; [done | congruence |]. rewrite M3, Hsplit, <- Hr, fmap_drop.
    pose proof (ram_rest_sorted it' Hok') as Hs. rewrite <- ram_rest_eq in Hs |- *. rewrite Hel in *.
    simpl. rewrite filter_cons_False by lia. apply by_record_cons in Hs as [_ Hl].
    symmetry. apply filter_id. eapply Forall_impl; [exact Hl |]. unfold by_record. simpl. lia.
  - split_and!; [done | done |]. rewrite Hr. specialize (Hnone eq_refl).
    clear -Hnone. induction Hnone as [|e l He Hl IH]; [done |]. rewrite !filter_cons.
    repeat case_decide; try lia; congruence.
Qed.

#[export] Program Instance ram_lawful : LawfulPosting PostingListIterator := {|
  posting_ok := ram_ok;
  entries := ram_entries;
  posting_rest := ram_rest;
|}.
Next Obligation. by intros it (? & _). Qed.
Next Obligation.
  intros it _. exists (take (current_index it) (ram_entries it)).
  unfold ram_rest. by rewrite take_drop.
Qed.
Next Obligation.
  intros it it' r Hok [= <- <-]. split_and!; try done. rewrite ram_rest_eq.
  rewrite <- (Nat.add_0_r (current_index it)) at 1. rewrite <- lookup_drop.
  by destruct (drop (current_index it) (elements it)).
Qed.
Next Obligation.
  intros it _. unfold last_id. simpl. unfold ram_last_id, ram_entries. rewrite fmap_last.
  by destruct (last (elements it)).
Qed.
Next Obligation.
  intros it it' id r Hok E. by destruct (ram_skip_to_law it it' id r Hok E) as (? & ? & ? & _).
Qed.
Next Obligation. intros it id. apply ram_skip_to_found. Qed.
Next Obligation.
  intros it (Hs & Hn & _). split_and!; [by split_and! | done |]. rewrite ram_rest_eq. simpl.
  by rewrite drop_all.
Qed.
Next Obligation.
  intros it (_ & _ & Hc). simpl. rewrite ram_rest_eq, length_fmap, length_drop. unfold ram_entries.
  rewrite length_fmap. lia.
Qed.
Next Obligation. intros Ctx it start end_ ctx f Hok. by apply ram_range_law. Qed.
Next Obligation. intros it it' e _ Hok [= <- He] Hi. by apply ram_max_next_law. Qed.
Next Obligation. done. Qed.
Next Obligation.
  intros it _. unfold len_to_end. simpl. unfold ram_len_to_end, ram_rest, ram_entries.
  by rewrite length_drop, length_fmap.
Qed.
Next Obligation.
  intros Ctx it it' id ctx ctx' f Hok. unfold for_each_till_id. simpl. unfold ram_for_each_till_id.
  destruct (each_till_spec id f (drop (current_index it) (elements it)) (current_index it) ctx
    (ram_rest_sorted it Hok)) as (k & -> & Hk & Hd).
  intros [= <- <-]. destruct (ram_move it k Hok Hk) as (M1 & M2 & M3).
  rewrite M3, Hd, ram_rest_eq. done.
Qed.
Next Obligation.
  intros it it' id r Hok [= <- <-] Hi _. split_and!; try done.
  set (l := drop (current_index it) (elements it)).
  assert (Hl : Forall (impact binary32) (weight <$> take_till id l)).
  { assert (Hr : Forall (fun e : PostingElement => impact binary32 e.2) (to_element <$> take_till id l)).
    { rewrite take_till_spec by by apply ram_rest_sorted. unfold l. rewrite <- ram_rest_eq.
      rewrite Forall_forall in *. intros e [_ He]%list_elem_of_filter. apply Hi.
      rewrite <- (take_drop (current_index it) (ram_entries it)). apply elem_of_app. by right. }
    apply Forall_fmap. by rewrite Forall_fmap in Hr. }
  destruct (fold_fmax_impact _ fzero impact_zero Hl) as [H1 H2].
  eexists. split; [done |]. split; [done |]. apply Forall_cons in H2 as [_ H2].
  apply Forall_forall. intros e He Hle. rewrite ram_rest_eq in He. fold l in He.
  assert (Hin : e ∈ to_element <$> take_till id l).
  { rewrite take_till_spec by by apply ram_rest_sorted. by apply list_elem_of_filter. }
  apply list_elem_of_fmap in Hin as (x & -> & Hx). rewrite Forall_forall in H2.
  apply (H2 (weight x)). by apply list_elem_of_fmap_2.
Qed.
Next Obligation. intros it id Hok. by apply ram_skip_till_law. Qed.
Next Obligation. done. Qed.
End Ram.

(** ** Scores of records *)

(** The weight of a record in a posting list. *)
Definition find_weight (d : N) (l : list PostingElement) : option float :=
  snd <$> head (filter (fun e => e.1 = d) l).

Definition add_term (d : N) (acc : float) (term : list PostingElement * float) : float :=
  match find_weight d term.1 with
  | Some w => (acc + w * term.2)%f32
  | None => acc
  end.

(** The score of a record: its terms added in the order of the query. *)
Definition doc_score (terms : list (list PostingElement * float)) (d : N) : float :=
  fold_left (add_term d) terms fzero.

Lemma find_weight_filter (P : PostingElement -> Prop) `{forall x, Decision (P x)} d l :
  Forall (fun e => e.1 = d -> P e) l -> find_weight d (filter P l) = find_weight d l.
Proof.
  intros HP. unfold find_weight. do 2 f_equal. induction HP as [|e l He Hl IH]; [done |].
  destruct (decide (P e)) as [HPe|HPe].
  - rewrite (filter_cons_True P) by done. rewrite !filter_cons. case_decide; by rewrite IH.
  - rewrite (filter_cons_False P), filter_cons_False by auto. done.
Qed.

Lemma find_weight_Some d w l : find_weight d l = Some w -> (d, w) ∈ l.
Proof.
  unfold find_weight. destruct (filter _ l) as [|[d' w'] l'] eqn:E; simpl; [done |].
  intros [= <-]. assert (Hin : (d', w') ∈ filter (fun e : PostingElement => e.1 = d) l)
    by (rewrite E; left). apply list_elem_of_filter in Hin as [<- ?]. done.
Qed.

Lemma by_record_nodup l : StronglySorted by_record l -> NoDup l.*1.
Proof.
  induction 1 as [|e l Hl IH He]; csimpl; constructor; [|done].
  intros (x & Ex & Hx)%list_elem_of_fmap. rewrite Forall_forall in He. specialize (He x Hx).
  unfold by_record in He. lia.
Qed.

Lemma find_weight_cons d e l :
  find_weight d (e :: l) = if decide (e.1 = d) then Some e.2 else find_weight d l.
Proof. unfold find_weight. rewrite filter_cons. by case_decide. Qed.

Lemma find_weight_absent d l : d ∉ l.*1 -> find_weight d l = None.
Proof.
  intros Hd. unfold find_weight. rewrite filter_nil; [done |]. apply Forall_forall.
  intros e He <-. apply Hd. by apply list_elem_of_fmap_2.
Qed.

(** One posting list: every addition is in bounds. *)
Lemma add_score_fold start q es scores :
  Forall (fun e => start <= e.1 < start + N.of_nat (length scores))%N es -> NoDup es.*1 ->
  exists scores', fold_left (fun c e => add_score start q c e.1 e.2) es (Some scores) = Some scores' /\
    length scores' = length scores /\
    forall i s, scores !! i = Some s ->
      scores' !! i = Some (add_term (start + N.of_nat i) s (es, q)).
Proof.
  revert scores. induction es as [|e es IH]; intros scores Hr Hn; csimpl.
  { by exists scores. }
  apply Forall_cons in Hr as [He Hr]. csimpl in Hn. apply NoDup_cons in Hn as [Hn1 Hn].
  destruct (lookup_lt_is_Some_2 scores (N.to_nat (e.1 - start)) ltac:(lia)) as [s Hs].
  destruct (N.ltb_spec e.1 start); [lia |]. rewrite Hs. simpl.
  destruct (IH (<[N.to_nat (e.1 - start) := (s + e.2 * q)%f32]> scores)) as (scores' & E & Hl & Hg).
  { by rewrite length_insert. }
  { done. }
  exists scores'. rewrite length_insert in Hl. split_and!; [done | done |].
  intros i si Hi. unfold add_term. simpl. rewrite find_weight_cons.
  destruct (decide (e.1 = start + N.of_nat i)%N) as [Ei|Ei].
  - assert (N.to_nat (e.1 - start) = i) as Ni by lia. rewrite Ni in *.
    rewrite (Hg i (s + e.2 * q)%f32) by (apply list_lookup_insert_eq; by eapply lookup_lt_Some).
    unfold add_term. simpl. rewrite find_weight_absent; [congruence |]. by rewrite <- Ei.
  - apply Hg. rewrite list_lookup_insert_ne by lia. done.
Qed.

Section Scores.
Context {I : Type} `{LawfulPosting I}.

(** A cursor that has not moved, with its entries. *)
Definition fresh (it : I) : Prop := posting_ok it /\ posting_rest it = entries it.

Definition terms_of (postings : list (I * float)) : list (list PostingElement * float) :=
  prod_map entries id <$> postings.

Definition visited_in (start end_ : N) (terms : list (list PostingElement * float)) : nat :=
  sum_list ((fun t => length (filter (fun e => start <= e.1 <= end_)%N t.1)) <$> terms).

(** The elements a cursor passes are those it leaves behind. *)
Lemma filter_partition id (l : list PostingElement) :
  length l = length (filter (fun e => e.1 <= id)%N l) + length (filter (fun e => id < e.1)%N l).
Proof.
  induction l as [|e l IH]; [done |]. rewrite !filter_cons.
  repeat case_decide; simpl; lia.
Qed.

Lemma score_postings_exact start end_ postings scores visited :
  Forall (fresh ∘ fst) postings -> length scores = N.to_nat (end_ - start + 1) -> (start <= end_)%N ->
  exists scores', score_postings start end_ postings (Some scores) visited =
      (Some scores', visited + visited_in start end_ (terms_of postings)) /\
    length scores' = length scores /\
    forall i s, scores !! i = Some s ->
      scores' !! i = Some (fold_left (add_term (start + N.of_nat i)) (terms_of postings) s).
Proof.
  intros Hf Hlen Hle. revert scores visited Hlen.
  induction Hf as [|[it q] postings [Hok Hr] Hf IH]; intros scores visited Hlen; simpl.
  { exists scores. by rewrite Nat.add_0_r. }
  destruct (skip_to it start) as [it1 r1] eqn:E1. simpl in *.
  destruct (skip_to_law it it1 start r1 Hok E1) as (Hok1 & He1 & Hr1).
  destruct (for_each_till_id it1 end_ (Some scores) (add_score start q)) as [it2 c2] eqn:E2.
  destruct (for_each_law it1 it2 end_ _ c2 _ Hok1 E2) as (Hok2 & He2 & Hr2 & ->).
  rewrite (len_to_end_law it1 Hok1), (len_to_end_law it2 Hok2), Hr2.
  rewrite Hr1, Hr, filter_bounds.
  pose proof (entries_sorted it Hok) as Hsort.
  destruct (add_score_fold start q (filter (fun e => start <= e.1 <= end_)%N (entries it)) scores)
    as (scores1 & -> & Hl1 & Hg1).
  { apply Forall_forall. intros e [? _]%list_elem_of_filter. lia. }
  { apply by_record_nodup. by apply StronglySorted_filter. }
  destruct (IH scores1 (visited + length (filter (fun e => start <= e.1 <= end_)%N (entries it))))
    as (scores2 & E & Hl2 & Hg2); [lia |].
  exists scores2. split_and!; [|lia|].
  - rewrite (filter_partition end_ (filter (fun e => start <= e.1)%N (entries it))), filter_bounds.
    rewrite Nat.add_sub, E. unfold visited_in, terms_of. csimpl. f_equal. lia.
  - intros i s Hi. rewrite (Hg2 i _ (Hg1 i s Hi)). do 2 f_equal.
    unfold add_term. simpl. rewrite find_weight_filter; [done |].
    apply Forall_forall. intros e _ ->. apply lookup_lt_Some in Hi. lia.
Qed.

Lemma score_postings_all (start end_ : N) (postings : list (I * float)) :
  (start <= end_)%N -> (end_ - start + 1 < 2 ^ 32)%N -> Forall (fresh ∘ fst) postings ->
  score_posting_batch postings start end_ =
    (Some ((fun i => doc_score (terms_of postings) (start + N.of_nat i)) <$>
             seq 0 (N.to_nat (end_ - start + 1))),
     visited_in start end_ (terms_of postings)).
Proof.
  intros Hle Hlen Hf. unfold score_posting_batch. rewrite N.mod_small by done.
  destruct (score_postings_exact start end_ postings
    (replicate (N.to_nat (end_ - start + 1)) fzero) 0 Hf) as (scores & -> & Hl & Hg);
    [by rewrite length_replicate | done |].
  do 2 f_equal. apply list_eq. intros i. rewrite length_replicate in Hl.
  rewrite list_lookup_fmap. destruct (decide (i < N.to_nat (end_ - start + 1))) as [Hi|Hi].
  - rewrite lookup_seq_lt by done. simpl. apply Hg. by apply lookup_replicate_2.
  - rewrite lookup_seq_ge by lia. simpl. apply lookup_ge_None. lia.
Qed.

(** [C35] Scoring a batch is exact and in bounds: over cursors that have not
    moved, the scoring of the records from [start] to [end_], of which there are
    fewer than [2^32] (all identifiers at once are [2^32], see
    [whole_range_out_of_bounds]), performs no access out of bounds, fills one
    slot per record, each with the record's score (its terms rounded and added
    in the order of the query, in single precision), and counts exactly the
    elements in the range. *)
Theorem score_posting_batch_exact (start end_ : N) (postings : list (I * float)) :
  (start <= end_)%N -> (end_ - start + 1 < 2 ^ 32)%N -> Forall (fresh ∘ fst) postings ->
  score_posting_batch postings start end_ =
    (Some ((fun i => doc_score (terms_of postings) (start + N.of_nat i)) <$>
             seq 0 (N.to_nat (end_ - start + 1))),
     visited_in start end_ (terms_of postings)).
Proof. apply score_postings_all. Qed.
End Scores.

(** ** Examples *)

Definition posting (records : list (N * Z)) : PostingListIterator :=
  posting_list_iter (PostingBuilder_build
    (fold_left (fun b '(id, w) => PostingBuilder_add b id (of_Z binary32 w)) records [])).

#[export] Instance by_record_dec a b : Decision (by_record a b).
Proof. unfold by_record. apply _. Defined.

Definition example_postings : list (PostingListIterator * float) :=
  [(posting [(1, 4%Z); (3, 1%Z); (9, 5%Z)], of_Z binary32 2);
   (posting [(2, 7%Z); (3, 3%Z)], of_Z binary32 1)]%N.

Lemma builder_adds (records : list (N * Z)) b :
  fold_left (fun b '(id, w) => PostingBuilder_add b id (of_Z binary32 w)) records b =
  b ++ ((fun '(id, w) => PostingElementEx_new id (of_Z binary32 w)) <$> records).
Proof.
  revert b. induction records as [|[id w] records IH]; intros b; csimpl.
  - by rewrite app_nil_r.
  - rewrite IH. unfold PostingBuilder_add. by rewrite <- app_assoc.
Qed.

Lemma posting_fresh records :
  StronglySorted by_record ((fun '(id, w) => (id, of_Z binary32 w)) <$> records) ->
  fresh (posting records).
Proof.
  intros Hs. split; [|done]. unfold posting. rewrite builder_adds, app_nil_l.
  destruct (PostingBuilder_build_spec
    ((fun '(id, w) => PostingElementEx_new id (of_Z binary32 w)) <$> records)) as (_ & H2 & H3).
  { apply by_record_nodup in Hs. rewrite <- list_fmap_compose in Hs. rewrite <- list_fmap_compose.
    erewrite list_fmap_ext; [exact Hs |]. by intros ? [? ?] _. }
  split_and!; [done | done | simpl; lia].
Qed.

Lemma example_postings_fresh : Forall (fresh ∘ fst) example_postings.
Proof.
  repeat constructor; apply posting_fresh; apply (bool_decide_unpack _); vm_compute; exact Logic.I.
Qed.

Lemma score_posting_batch_exact_witness :
  (1 <= 4)%N /\ score_posting_batch example_postings 1 4 =
    (Some (of_Z binary32 <$> [8; 7; 5; 0]%Z), 4).
Proof.
  split; [lia |]. rewrite (score_posting_batch_exact 1 4 example_postings).
  - vm_compute. reflexivity.
  - lia.
  - lia.
  - apply example_postings_fresh.
Defined.

(** A batch over all identifiers has no slots: the first record is written out
    of bounds. *)
Example whole_range_out_of_bounds : (score_posting_batch example_postings 0 (2 ^ 32 - 1)).1 = None.
Proof. vm_compute. reflexivity. Qed.
