(* ===== verification/SparseVectors.v ===== *)
(** * Sparse vectors

    lib/sparse/src/common/sparse_vector.rs and
    lib/segment/src/index/sparse_index/indices_tracker.rs.  A sparse vector is
    two parallel arrays, dimensions and weights.  The code sorts them
    together, scores and combines sorted vectors with two cursors, and renames
    dimensions to the dense offsets of one segment in place.

    The file proves that the two-cursor loops compute the dot product and the
    dimension-wise combination, that the in-place renaming keeps exactly the
    known dimensions, and that a tracker numbers dimensions without gaps or
    collisions. *)

From S2P Require Import Prelude Float Order PointId RrfScoring Postings.

(** ** Data *)

Record SparseVector : Type := mkSparseVector {
  indices : list N;
  values : list float;
}.

(** Dimensions renamed to the offsets of a segment. *)
Abbreviation RemappedSparseVector := SparseVector.

Record IndicesTracker : Type := mkIndicesTracker { tracker_map : gmap N N }.

(** ** Operations *)

(** [is_sorted]: strictly ascending dimensions. *)
Fixpoint is_sorted (indices : list N) : bool :=
  match indices with
  | a :: ((b :: _) as indices) => (a <? b)%N && is_sorted indices
  | _ => true
  end.

Definition dim_order (a b : N * float) : comparison := N.compare a.1 b.1.

(** [double_sort]; equal dimensions keep their order here, the source leaves
    it open. *)
Definition double_sort (v : SparseVector) : SparseVector :=
  if is_sorted (indices v) then v
  else
    let indexed_values := sort_by dim_order (zip (indices v) (values v)) in
    {| indices := indexed_values.*1 ++ drop (length indexed_values) (indices v);
       values := indexed_values.*2 ++ drop (length indexed_values) (values v) |}.

(** The errors of [validate_sparse_vector_impl], as field and message. *)
Definition validate_sparse_vector_impl (v : SparseVector) : list (string * string) :=
  (if decide (length (indices v) <> length (values v))
   then [("values", "must be the same length as indices")] else []) ++
  (if decide (length (remove_dups (indices v)) <> length (indices v))
   then [("indices", "must be unique")] else []).

(** [SparseVector::new] *)
Definition SparseVector_new (indices : list N) (values : list float)
    : SparseVector + list (string * string) :=
  let v := {| indices := indices; values := values |} in
  match validate_sparse_vector_impl v with
  | [] => inl v
  | errors => inr errors
  end.

(** The loop of [score_vectors]; [None] is an index out of bounds. *)
Fixpoint score_loop (fuel : nat) (a b : SparseVector) (i j : nat) (overlap : bool) (score : float)
    : option (bool * float) :=
  match fuel with
  | 0 => None
  | S fuel =>
      match indices a !! i, indices b !! j with
      | Some x, Some y =>
          match N.compare x y with
          | Lt => score_loop fuel a b (S i) j overlap score
          | Gt => score_loop fuel a b i (S j) overlap score
          | Eq =>
              u ← values a !! i;
              v ← values b !! j;
              score_loop fuel a b (S i) (S j) true (score + u * v)%f32
          end
      | _, _ => Some (overlap, score)
      end
  end.

(** [score_vectors]: the inner option is the result of the source. *)
Definition score_vectors (a b : SparseVector) : option (option float) :=
  '(overlap, score) ←
    score_loop (S (length (indices a) + length (indices b))) a b 0 0 false fzero;
  Some (if overlap : bool then Some score else None).

Definition push_value (v : SparseVector) (index : N) (value : float) : SparseVector :=
  {| indices := indices v ++ [index]; values := values v ++ [value] |}.

Section Combine.
Context (op : float -> float -> float).

(** The three loops of [combine_aggregate]: while both cursors are inside,
    then the rest of either vector. *)
Fixpoint combine_loop (fuel : nat) (a b : SparseVector) (i j : nat) (result : SparseVector)
    : option SparseVector :=
  match fuel with
  | 0 => None
  | S fuel =>
      match indices a !! i, indices b !! j with
      | Some x, Some y =>
          match N.compare x y with
          | Lt => u ← values a !! i;
                  combine_loop fuel a b (S i) j (push_value result x (op u fzero))
          | Gt => v ← values b !! j;
                  combine_loop fuel a b i (S j) (push_value result y (op fzero v))
          | Eq => u ← values a !! i;
                  v ← values b !! j;
                  combine_loop fuel a b (S i) (S j) (push_value result x (op u v))
          end
      | Some x, None => u ← values a !! i;
                        combine_loop fuel a b (S i) j (push_value result x (op u fzero))
      | None, Some y => v ← values b !! j;
                        combine_loop fuel a b i (S j) (push_value result y (op fzero v))
      | None, None => Some result
      end
  end.

(** [combine_aggregate]; [None] is the panic of its assertions. *)
Definition combine_aggregate (a b : SparseVector) : option SparseVector :=
  let a := if is_sorted (indices a) then a else double_sort a in
  let b := if is_sorted (indices b) then b else double_sort b in
  if is_sorted (indices a) && is_sorted (indices b) then
    combine_loop (S (length (indices a) + length (indices b))) a b 0 0
      {| indices := []; values := [] |}
  else None.
End Combine.

(** *** The tracker of dimensions *)

Definition DIM_COUNT : N := 2 ^ 32.

Definition register_index (t : IndicesTracker) (index : N) : IndicesTracker :=
  match tracker_map t !! index with
  | Some _ => t
  | None =>
      {| tracker_map := <[index := (N.of_nat (size (tracker_map t)) mod DIM_COUNT)%N]> (tracker_map t) |}
  end.

Definition register_indices (t : IndicesTracker) (v : SparseVector) : IndicesTracker :=
  fold_left register_index (indices v) t.

Definition remap_index (t : IndicesTracker) (index : N) : option N := tracker_map t !! index.

(** The loop of [remap_vector], in place with a reading and a writing cursor;
    [None] is an index out of bounds. *)
Fixpoint remap_loop (t : IndicesTracker) (reads : list nat) (write : nat) (v : SparseVector)
    : option (nat * SparseVector) :=
  match reads with
  | [] => Some (write, v)
  | read :: reads =>
      index ← indices v !! read;
      match remap_index t index with
      | None => remap_loop t reads write v
      | Some remapped_index =>
          value ← values v !! read;
          remap_loop t reads (S write)
            {| indices := <[write := remapped_index]> (indices v);
               values := <[write := value]> (values v) |}
      end
  end.

Definition remap_vector (t : IndicesTracker) (v : SparseVector) : option RemappedSparseVector :=
  '(write, v) ← remap_loop t (seq 0 (length (indices v))) 0 v;
  Some (double_sort {| indices := take write (indices v); values := take write (values v) |}).

(** ** Sorted vectors *)

Definition sv_entries (v : SparseVector) : list (N * float) := zip (indices v) (values v).

(** A vector that [validate] accepts. *)
Definition sv_ok (v : SparseVector) : Prop :=
  length (indices v) = length (values v) /\ NoDup (indices v).

Lemma validate_sparse_vector_impl_spec v : validate_sparse_vector_impl v = [] <-> sv_ok v.
Proof.
  unfold validate_sparse_vector_impl, sv_ok.
  assert (Hu : length (remove_dups (indices v)) = length (indices v) <-> NoDup (indices v)).
  { split; intros Hl.
    - rewrite <- (submseteq_length_Permutation (remove_dups (indices v)) (indices v));
        [apply NoDup_remove_dups | | lia].
      apply NoDup_submseteq; [apply NoDup_remove_dups |]. intros x. by rewrite elem_of_remove_dups.
    - apply Permutation_length, NoDup_Permutation; [apply NoDup_remove_dups | done |].
      intros x. apply elem_of_remove_dups. }
  rewrite <- Hu. repeat case_decide; simpl;
    (split; [intros ?; first [done | lia] | intros [? ?]; first [done | lia]]).
Qed.

Lemma is_sorted_spec l : is_sorted l = true <-> StronglySorted N.lt l.
Proof.
  induction l as [|x l IH]; simpl; [by split; [constructor |] |].
  destruct l as [|y l].
  { split; [intros _; by repeat constructor | done]. }
  rewrite andb_true_iff, IH, N.ltb_lt. split.
  - intros [Hxy Hs]. constructor; [done |]. constructor; [done |].
    apply StronglySorted_inv in Hs as [_ Hs]. eapply Forall_impl; [done |]. intros z. lia.
  - intros [Hs Hx]%StronglySorted_inv. apply Forall_cons in Hx as [? _]. done.
Qed.

Lemma StronglySorted_fmap_key {A B} (R : B -> B -> Prop) (f : A -> B) (l : list A) :
  StronglySorted R (f <$> l) <-> StronglySorted (fun x y => R (f x) (f y)) l.
Proof.
  induction l as [|x l IH]; [by split; constructor |]. rewrite fmap_cons. split.
  - intros [? Hx]%StronglySorted_inv. constructor; [by apply IH |].
    rewrite Forall_fmap in Hx. exact Hx.
  - intros [? Hx]%StronglySorted_inv. constructor; [by apply IH | by apply Forall_fmap].
Qed.

Lemma sv_entries_indices v : length (indices v) = length (values v) -> (sv_entries v).*1 = indices v.
Proof. intros Hl. unfold sv_entries. apply fst_zip. lia. Qed.

Lemma sv_entries_sorted v :
  length (indices v) = length (values v) -> is_sorted (indices v) = true ->
  StronglySorted by_record (sv_entries v).
Proof.
  intros Hl. rewrite is_sorted_spec, <- (sv_entries_indices v) by done.
  by rewrite StronglySorted_fmap_key.
Qed.

#[export] Instance dim_order_TotalCmp : TotalCmp dim_order.
Proof. apply (TotalCmp_key N.compare fst), _. Qed.

Lemma double_sort_spec v :
  sv_ok v ->
  is_sorted (indices (double_sort v)) = true /\ sv_ok (double_sort v) /\
  sv_entries (double_sort v) ≡ₚ sv_entries v.
Proof.
  intros [Hl Hn]. unfold double_sort. destruct (is_sorted (indices v)) eqn:Es; [done |].
  set (sorted := sort_by dim_order (zip (indices v) (values v))).
  assert (Hp : sorted ≡ₚ sv_entries v) by apply sort_by_perm.
  assert (Hlen : length sorted = length (indices v)).
  { rewrite Hp. unfold sv_entries. rewrite length_zip_with. lia. }
  rewrite !drop_ge, !app_nil_r by lia.
  assert (Hn' : NoDup sorted.*1) by (rewrite Hp, sv_entries_indices by done; done).
  split_and!.
  - apply is_sorted_spec. simpl. rewrite StronglySorted_fmap_key.
    pose proof (sort_by_sorted dim_order (zip (indices v) (values v))) as Hs. fold sorted in Hs.
    revert Hs Hn'. clear. induction sorted as [|x l IH]; csimpl; intros Hs Hn; [constructor |].
    apply StronglySorted_inv in Hs as [Hs Hx]. apply NoDup_cons in Hn as [Hn1 Hn2].
    constructor; [auto |]. rewrite Forall_forall in *. intros y Hy. specialize (Hx y Hy).
    unfold cmp_le, dim_order in Hx.
    destruct (N.compare_spec x.1 y.1) as [E|E|E]; [|done|done]. exfalso. apply Hn1. rewrite E.
    by apply list_elem_of_fmap_2.
  - split; simpl; [by rewrite !length_fmap | done].
  - unfold sv_entries at 1. simpl. by rewrite zip_fst_snd.
Qed.

Lemma find_weight_perm d l l' : NoDup l.*1 -> l ≡ₚ l' -> find_weight d l = find_weight d l'.
Proof.
  intros Hn Hp. induction Hp as [|x l l' Hp IH|x y l|l1 l2 l3 H1 IH1 H2 IH2]; csimpl in *; [done | ..].
  - apply NoDup_cons in Hn as [_ Hn]. rewrite !find_weight_cons. case_decide; auto.
  - rewrite !find_weight_cons. apply NoDup_cons in Hn as [Hn _].
    repeat case_decide; try done. exfalso. apply Hn. rewrite H, <- H0. left.
  - rewrite IH1 by done. apply IH2. by rewrite <- H1.
Qed.

(** What a two-cursor loop relies on: below its head, a sorted vector holds
    nothing. *)
Lemma find_weight_below d e (l : list (N * float)) :
  StronglySorted by_record (e :: l) -> (d < e.1)%N -> find_weight d (e :: l) = None.
Proof.
  intros [_ Hs]%StronglySorted_inv Hd. apply find_weight_absent. csimpl.
  rewrite not_elem_of_cons. split; [lia |]. intros (x & -> & Hx)%list_elem_of_fmap.
  rewrite Forall_forall in Hs. specialize (Hs x Hx). unfold by_record in Hs. lia.
Qed.

Lemma find_weight_tail d e (l : list (N * float)) :
  (e.1 < d)%N -> find_weight d (e :: l) = find_weight d l.
Proof. intros Hd. rewrite find_weight_cons, decide_False by lia. done. Qed.

(** A cursor inside a vector points at an entry. *)
Lemma sv_entries_drop v i x :
  length (indices v) = length (values v) -> indices v !! i = Some x ->
  exists u, values v !! i = Some u /\
    drop i (sv_entries v) = (x, u) :: drop (S i) (sv_entries v).
Proof.
  intros Hl Hi. destruct (lookup_lt_is_Some_2 (values v) i) as [u Hu].
  { rewrite <- Hl. by eapply lookup_lt_Some. }
  exists u. split; [done |]. apply drop_S. unfold sv_entries. by rewrite lookup_zip_with, Hi, Hu.
Qed.

Lemma sv_entries_end v i : indices v !! i = None -> drop i (sv_entries v) = [].
Proof.
  intros Hi%lookup_ge_None. apply drop_ge. unfold sv_entries. rewrite length_zip_with. lia.
Qed.

(** ** Scoring *)

(** The dot product as a sum over the first vector; [None] when the vectors
    share no dimension. *)
Definition dot_term (b : list (N * float)) (acc : float) (e : N * float) : float :=
  match find_weight e.1 b with Some v => (acc + e.2 * v)%f32 | None => acc end.

Definition shares (b : list (N * float)) (e : N * float) : bool :=
  bool_decide (is_Some (find_weight e.1 b)).

Definition dot_product (a b : list (N * float)) : option float :=
  if existsb (shares b) a then Some (fold_left (dot_term b) a fzero) else None.

(** Dropping an entry below everything in [a] changes no product with [a]. *)
Lemma dot_skip e (a b : list (N * float)) acc :
  Forall (fun x => e.1 < x.1)%N a ->
  fold_left (dot_term (e :: b)) a acc = fold_left (dot_term b) a acc /\
  existsb (shares (e :: b)) a = existsb (shares b) a.
Proof.
  intros Ha. revert acc. induction Ha as [|x a Hx Ha IH]; intros acc; [done |]. simpl.
  unfold dot_term at 2 4, shares at 1 3. rewrite find_weight_tail by done.
  destruct (IH (match find_weight x.1 b with Some v => (acc + x.2 * v)%f32 | None => acc end))
    as [-> ->]. done.
Qed.

Lemma sorted_above e x (l : list (N * float)) :
  StronglySorted by_record (x :: l) -> (e < x.1)%N -> Forall (fun y => e < y.1)%N (x :: l).
Proof.
  intros [_ Hs]%StronglySorted_inv He. constructor; [done |]. eapply Forall_impl; [done |].
  intros y. unfold by_record. lia.
Qed.

Section TwoCursors.
Context (a b : SparseVector).
Hypothesis (La : length (indices a) = length (values a)) (Sa : is_sorted (indices a) = true).
Hypothesis (Lb : length (indices b) = length (values b)) (Sb : is_sorted (indices b) = true).

Lemma sorted_suffix v i :
  length (indices v) = length (values v) -> is_sorted (indices v) = true ->
  StronglySorted by_record (drop i (sv_entries v)).
Proof.
  intros Hl Hs. apply (StronglySorted_app_r _ (take i (sv_entries v))). rewrite take_drop.
  by apply sv_entries_sorted.
Qed.

Lemma score_loop_spec fuel i j overlap score :
  (length (indices a) - i) + (length (indices b) - j) < fuel ->
  let xs := drop i (sv_entries a) in let ys := drop j (sv_entries b) in
  score_loop fuel a b i j overlap score =
    Some (overlap || existsb (shares ys) xs, fold_left (dot_term ys) xs score).
Proof.
  revert i j overlap score. induction fuel as [|fuel IH]; intros i j overlap score Hf; [lia |]. simpl.
  destruct (indices a !! i) as [x|] eqn:Ex.
  2:{ rewrite (sv_entries_end a i Ex). simpl. by rewrite orb_false_r. }
  destruct (sv_entries_drop a i x La Ex) as (u & Eu & Da).
  pose proof (lookup_lt_Some _ _ _ Ex). pose proof (sorted_suffix a i La Sa) as Hsa.
  destruct (indices b !! j) as [y|] eqn:Ey.
  2:{ rewrite (sv_entries_end b j Ey). clear. generalize (drop i (sv_entries a)). intros l.
      assert (E : existsb (shares []) l = false /\ fold_left (dot_term []) l score = score).
      { induction l as [|e l IH]; [done |]. simpl. done. }
      destruct E as [-> ->]. by rewrite orb_false_r. }
  destruct (sv_entries_drop b j y Lb Ey) as (v & Ev & Db).
  pose proof (lookup_lt_Some _ _ _ Ey). pose proof (sorted_suffix b j Lb Sb) as Hsb.
  rewrite Da, Db in *. destruct (N.compare_spec x y) as [->|Hxy|Hxy].
  - rewrite Eu, Ev. simpl. rewrite IH by lia.
    unfold shares at 2, dot_term at 3. simpl. rewrite find_weight_cons, decide_True by done. simpl.
    apply StronglySorted_inv in Hsa as [_ Hx].
    destruct (dot_skip (y, v) (drop (S i) (sv_entries a)) (drop (S j) (sv_entries b))
      (score + u * v)%f32 Hx) as [-> _].
    by destruct overlap.
  - rewrite IH by lia. rewrite Db. simpl. unfold shares at 2, dot_term at 3. simpl.
    by rewrite (find_weight_below x (y, v)).
  - rewrite IH by lia. rewrite Da.
    destruct (dot_skip (y, v) ((x, u) :: drop (S i) (sv_entries a)) (drop (S j) (sv_entries b))
      score) as [-> ->]; [|done]. by apply sorted_above.
Qed.

(** *** Combination *)

Definition combined (op : float -> float -> float) (x y : option float) : option float :=
  match x, y with
  | None, None => None
  | _, _ => Some (op (default fzero x) (default fzero y))
  end.

Definition above (lo : N) (l : list (N * float)) : Prop := Forall (fun e => lo < e.1)%N l.

(** What the loop appends for the suffixes [xs] and [ys]. *)
Definition combines op (xs ys new : list (N * float)) : Prop :=
  StronglySorted by_record new /\ (forall lo, above lo xs -> above lo ys -> above lo new) /\
  forall d, find_weight d new = combined op (find_weight d xs) (find_weight d ys).

(** One entry in front, which is the next of [xs], of [ys], or of both. *)
Lemma combines_cons op x z xs ys xs' ys' new :
  combines op xs ys new -> above x xs -> above x ys ->
  (forall lo, above lo xs' -> above lo ys' -> lo < x)%N ->
  (forall lo, above lo xs' -> above lo xs) -> (forall lo, above lo ys' -> above lo ys) ->
  (forall d, d <> x -> find_weight d xs' = find_weight d xs) ->
  (forall d, d <> x -> find_weight d ys' = find_weight d ys) ->
  combined op (find_weight x xs') (find_weight x ys') = Some z ->
  combines op xs' ys' ((x, z) :: new).
Proof.
  intros (Hs & Hb & Hf) Hx Hy Hlo Hxs Hys Fx Fy Hz. split_and!.
  - constructor; [done |]. by apply Hb.
  - intros lo H1 H2. constructor; [by apply Hlo |]. apply Hb; auto.
  - intros d. rewrite find_weight_cons. simpl. case_decide as D; [by subst |].
    by rewrite Hf, Fx, Fy.
Qed.

Lemma above_cons_inv lo e l : above lo (e :: l) -> (lo < e.1)%N /\ above lo l.
Proof. by intros [? ?]%Forall_cons. Qed.

Lemma combine_loop_spec op fuel i j r :
  (length (indices a) - i) + (length (indices b) - j) < fuel ->
  exists new, combine_loop op fuel a b i j r =
      Some {| indices := indices r ++ new.*1; values := values r ++ new.*2 |} /\
    combines op (drop i (sv_entries a)) (drop j (sv_entries b)) new.
Proof.
  revert i j r. induction fuel as [|fuel IH]; intros i j r Hf; [lia |]. simpl.
  assert (Hstep : forall x z i' j', (length (indices a) - i') + (length (indices b) - j') < fuel ->
    (forall new, combines op (drop i' (sv_entries a)) (drop j' (sv_entries b)) new ->
       combines op (drop i (sv_entries a)) (drop j (sv_entries b)) ((x, z) :: new)) ->
    exists new, combine_loop op fuel a b i' j' (push_value r x z) =
        Some {| indices := indices r ++ new.*1; values := values r ++ new.*2 |} /\
      combines op (drop i (sv_entries a)) (drop j (sv_entries b)) new).
  { intros x z i' j' Hlt Hc. destruct (IH i' j' (push_value r x z) Hlt) as (new & -> & Hn).
    exists ((x, z) :: new). simpl. rewrite <- !app_assoc. auto. }
  destruct (indices a !! i) as [x|] eqn:Ex; [|rewrite (sv_entries_end a i Ex) in *].
  - destruct (sv_entries_drop a i x La Ex) as (u & Eu & Da).
    pose proof (lookup_lt_Some _ _ _ Ex). pose proof (sorted_suffix a i La Sa) as Hsa.
    rewrite Da in Hsa. pose proof Hsa as [_ Hx]%StronglySorted_inv.
    assert (Fx : forall d, d <> x -> find_weight d ((x, u) :: drop (S i) (sv_entries a)) =
      find_weight d (drop (S i) (sv_entries a)))
      by (intros d Hd; by rewrite find_weight_cons, decide_False by done).
    destruct (indices b !! j) as [y|] eqn:Ey; [|rewrite (sv_entries_end b j Ey) in *].
    + destruct (sv_entries_drop b j y Lb Ey) as (v & Ev & Db).
      pose proof (lookup_lt_Some _ _ _ Ey). pose proof (sorted_suffix b j Lb Sb) as Hsb.
      rewrite Db in Hsb. pose proof Hsb as [_ Hy]%StronglySorted_inv.
      assert (Fy : forall d, d <> y -> find_weight d ((y, v) :: drop (S j) (sv_entries b)) =
        find_weight d (drop (S j) (sv_entries b)))
        by (intros d Hd; by rewrite find_weight_cons, decide_False by done).
      destruct (N.compare_spec x y) as [->|Hxy|Hxy]; rewrite ?Eu, ?Ev; cbn [mbind option_bind];
        (apply Hstep; [lia |]); intros new Hn; rewrite ?Da, ?Db.
      * eapply combines_cons; try done.
        -- by intros lo [? _]%above_cons_inv.
        -- by intros lo [_ ?]%above_cons_inv.
        -- by intros lo [_ ?]%above_cons_inv.
        -- by rewrite !find_weight_cons, !decide_True.
      * rewrite Db in Hn. eapply combines_cons; try done.
        -- by apply sorted_above.
        -- by intros lo [? _]%above_cons_inv.
        -- by intros lo [_ ?]%above_cons_inv.
        -- by rewrite (find_weight_below x (y, v)), find_weight_cons, decide_True.
      * rewrite Da in Hn. eapply combines_cons; try done.
        -- by apply sorted_above.
        -- by intros lo _ [? _]%above_cons_inv.
        -- by intros lo [_ ?]%above_cons_inv.
        -- by rewrite (find_weight_below y (x, u)), find_weight_cons, decide_True.
    + rewrite Eu. cbn [mbind option_bind]. apply Hstep; [lia |]. intros new Hn. rewrite Da.
      rewrite (sv_entries_end b j Ey) in Hn. eapply combines_cons; try done.
      * by constructor.
      * by intros lo [? _]%above_cons_inv.
      * by intros lo [_ ?]%above_cons_inv.
      * by rewrite find_weight_cons, decide_True.
  - destruct (indices b !! j) as [y|] eqn:Ey.
    + destruct (sv_entries_drop b j y Lb Ey) as (v & Ev & Db).
      pose proof (lookup_lt_Some _ _ _ Ey). pose proof (sorted_suffix b j Lb Sb) as Hsb.
      rewrite Db in Hsb. pose proof Hsb as [_ Hy]%StronglySorted_inv.
      rewrite Ev. cbn [mbind option_bind]. apply Hstep; [lia |]. intros new Hn. rewrite Db.
      rewrite (sv_entries_end a i Ex) in Hn. eapply combines_cons; try done.
      * by constructor.
      * by intros lo _ [? _]%above_cons_inv.
      * by intros lo [_ ?]%above_cons_inv.
      * intros d Hd. by rewrite find_weight_cons, decide_False by done.
      * by rewrite find_weight_cons, decide_True.
    + exists []. rewrite (sv_entries_end b j Ey). rewrite !app_nil_r. split; [by destruct r |].
      split_and!; [constructor | by intros |]. done.
Qed.

(** [C36] The two-cursor loop of [score_vectors] is the dot product: on sorted
    vectors it stays in bounds, ends, and adds the products of the shared
    dimensions in ascending order; it answers [None] exactly when the vectors
    share no dimension. *)
Theorem score_vectors_exact :
  score_vectors a b = Some (dot_product (sv_entries a) (sv_entries b)).
Proof.
  unfold score_vectors. rewrite score_loop_spec by lia. rewrite !drop_0. simpl.
  unfold dot_product. by destruct (existsb _ _).
Qed.
End TwoCursors.

(** [combine_aggregate] combines dimension by dimension: vectors with
    distinct dimensions, in any order, give a vector with strictly ascending
    dimensions that holds, for every dimension of either vector, the operation
    applied to both weights, zero standing for a missing one. *)
Theorem combine_aggregate_exact op a b :
  sv_ok a -> sv_ok b ->
  exists r, combine_aggregate op a b = Some r /\ is_sorted (indices r) = true /\
    length (indices r) = length (values r) /\
    forall d, find_weight d (sv_entries r) =
      combined op (find_weight d (sv_entries a)) (find_weight d (sv_entries b)).
Proof.
  intros Ha Hb. unfold combine_aggregate.
  assert (Hsort : forall v, sv_ok v -> exists v',
    (if is_sorted (indices v) then v else double_sort v) = v' /\ is_sorted (indices v') = true /\
    length (indices v') = length (values v') /\
    forall d, find_weight d (sv_entries v') = find_weight d (sv_entries v)).
  { intros v Hv. destruct (is_sorted (indices v)) eqn:E.
    - exists v. split_and!; [done | done | apply Hv | done].
    - destruct (double_sort_spec v Hv) as (Hs & [Hl Hn] & Hp). eexists. split_and!; [done | done | done |].
      intros d. apply find_weight_perm; [|done]. by rewrite sv_entries_indices. }
  destruct (Hsort a Ha) as (a' & -> & Sa & La & Fa), (Hsort b Hb) as (b' & -> & Sb & Lb & Fb).
  rewrite Sa, Sb. cbn [andb].
  destruct (combine_loop_spec a' b' La Sa Lb Sb op (S (length (indices a') + length (indices b')))
    0 0 {| indices := []; values := [] |}) as (new & -> & Hs & _ & Hf); [lia |].
  simpl in *. eexists. split; [done |]. simpl. split_and!.
  - apply is_sorted_spec, StronglySorted_fmap_key, Hs.
  - by rewrite !length_fmap.
  - intros d. unfold sv_entries at 1. simpl. rewrite zip_fst_snd, Hf, !drop_0. by rewrite Fa, Fb.
Qed.

(** ** Renaming dimensions *)

(** The known dimensions of a vector under their new names. *)
Definition renamed (t : IndicesTracker) (es : list (N * float)) : list (N * float) :=
  omap (fun '(i, x) => (fun o => (o, x)) <$> remap_index t i) es.

Lemma take_insert_snoc {A} (l : list A) n x :
  n < length l -> take (S n) (<[n := x]> l) = take n l ++ [x].
Proof.
  intros Hn. rewrite (take_S_r _ n x) by (by apply list_lookup_insert_eq).
  by rewrite take_insert_ge by lia.
Qed.

Lemma remap_loop_spec t v0 k n v write :
  length (indices v0) = length (values v0) -> k + n = length (indices v0) ->
  length (indices v) = length (indices v0) -> length (values v) = length (values v0) ->
  drop k (indices v) = drop k (indices v0) -> drop k (values v) = drop k (values v0) ->
  write <= k ->
  zip (take write (indices v)) (take write (values v)) = renamed t (take k (sv_entries v0)) ->
  exists write' v', remap_loop t (seq k n) write v = Some (write', v') /\
    write' <= length (indices v0) /\
    length (indices v') = length (indices v0) /\ length (values v') = length (values v0) /\
    zip (take write' (indices v')) (take write' (values v')) = renamed t (sv_entries v0).
Proof.
  intros Hl. revert k v write. induction n as [|n IH]; intros k v write Hk Li Lv Di Dv Hw Hz; simpl.
  { exists write, v. split_and!; try done; [lia |]. rewrite Hz, take_ge; [done |].
    unfold sv_entries. rewrite length_zip_with. lia. }
  destruct (lookup_lt_is_Some_2 (indices v0) k) as [i Hi]; [lia |].
  destruct (lookup_lt_is_Some_2 (values v0) k) as [x Hx]; [lia |].
  assert (Hi' : indices v !! k = Some i) by (by rewrite <- (Nat.add_0_r k), <- lookup_drop, Di, lookup_drop, Nat.add_0_r).
  assert (Hx' : values v !! k = Some x) by (by rewrite <- (Nat.add_0_r k), <- lookup_drop, Dv, lookup_drop, Nat.add_0_r).
  assert (Ht : take (S k) (sv_entries v0) = take k (sv_entries v0) ++ [(i, x)])
    by (apply take_S_r; unfold sv_entries; by rewrite lookup_zip_with, Hi, Hx).
  assert (Dsi : drop (S k) (indices v) = drop (S k) (indices v0))
    by (rewrite <- (Nat.add_1_r k), <- !drop_drop, Di; done).
  assert (Dsv : drop (S k) (values v) = drop (S k) (values v0))
    by (rewrite <- (Nat.add_1_r k), <- !drop_drop, Dv; done).
  rewrite Hi'. simpl. unfold renamed in *. destruct (remap_index t i) as [o|] eqn:Eo.
  - rewrite Hx'. simpl. apply IH; simpl; rewrite ?length_insert; try done; try lia.
    + by rewrite drop_insert_lt by lia.
    + by rewrite drop_insert_lt by lia.
    + rewrite !take_insert_snoc by lia. rewrite zip_with_app by (rewrite !length_take; lia).
      rewrite Hz, Ht, omap_app. simpl. by rewrite Eo.
  - apply IH; try done; [lia | lia |]. rewrite Hz, Ht, omap_app. simpl. rewrite Eo. simpl.
    by rewrite app_nil_r.
Qed.

(** *** The tracker *)

(** The offsets are exactly [0], ..., [size - 1], one per dimension. *)
Record tracker_ok (t : IndicesTracker) : Prop := {
  tk_keys : forall i o, remap_index t i = Some o -> (i < DIM_COUNT)%N;
  tk_range : forall i o, remap_index t i = Some o -> (o < N.of_nat (size (tracker_map t)))%N;
  tk_onto : forall o, (o < N.of_nat (size (tracker_map t)))%N -> exists i, remap_index t i = Some o;
  tk_inj : forall i j o, remap_index t i = Some o -> remap_index t j = Some o -> i = j;
}.

Lemma bounded_set_size (X : gset N) n :
  (forall x, x ∈ X -> x < n)%N -> (N.of_nat (size X) <= n)%N.
Proof.
  intros HX. set (l := N.of_nat <$> seq 0 (N.to_nat n)).
  assert (Hl : length l = N.to_nat n) by (unfold l; by rewrite length_fmap, length_seq).
  assert (size X <= length l); [|lia].
  rewrite <- (size_list_to_set (C := gset N) l); [apply subseteq_size |].
  - intros x Hx. apply elem_of_list_to_set, list_elem_of_fmap. exists (N.to_nat x).
    specialize (HX x Hx). rewrite elem_of_seq. lia.
  - unfold l. apply NoDup_fmap_2; [intros ? ?; lia | apply NoDup_seq].
Qed.

Lemma register_index_ok t index :
  tracker_ok t -> (index < DIM_COUNT)%N ->
  tracker_ok (register_index t index) /\ is_Some (remap_index (register_index t index) index) /\
  tracker_map t ⊆ tracker_map (register_index t index).
Proof.
  intros Ht Hi. unfold register_index.
  destruct (tracker_map t !! index) as [o|] eqn:E; [by split_and!; [|exists o |] |].
  assert (Hsize : (N.of_nat (size (tracker_map t)) < DIM_COUNT)%N).
  { pose proof (bounded_set_size ({[index]} ∪ dom (tracker_map t)) DIM_COUNT) as Hb.
    rewrite size_union, size_singleton, size_dom in Hb
      by (rewrite disjoint_singleton_l; by apply not_elem_of_dom).
    assert (N.of_nat (1 + size (tracker_map t)) <= DIM_COUNT)%N; [|lia]. apply Hb.
    intros x [->%elem_of_singleton|[o Ho]%elem_of_dom]%elem_of_union; [done |].
    by apply (tk_keys t Ht x o). }
  rewrite N.mod_small by done. unfold remap_index in *. simpl.
  destruct Ht as [H1 H2 H3 H4]. unfold remap_index in *. split_and!.
  - split; unfold remap_index; simpl; rewrite ?map_size_insert_None by done.
    + intros i o. rewrite lookup_insert_Some. intros [[-> _]|[_ Ho]]; [done | by eapply H1].
    + intros i o. rewrite lookup_insert_Some. intros [[_ <-]|[_ Ho]]; [lia |].
      apply H2 in Ho. lia.
    + intros o Ho. destruct (decide (o = N.of_nat (size (tracker_map t)))) as [->|Hne].
      * exists index. apply lookup_insert_eq.
      * destruct (H3 o) as [i Ho']; [lia |]. exists i. rewrite lookup_insert_ne; [done |].
        intros ->. congruence.
    + intros i j o. rewrite !lookup_insert_Some.
      intros [[-> <-]|[Hi1 Ho1]] [[-> Ej]|[Hj1 Ho2]]; [done | | |by eapply H4].
      * apply H2 in Ho2. lia.
      * subst o. apply H2 in Ho1. lia.
  - rewrite lookup_insert_eq. eauto.
  - by apply insert_subseteq.
Qed.

Lemma register_indices_ok t v :
  tracker_ok t -> Forall (fun i => i < DIM_COUNT)%N (indices v) ->
  tracker_ok (register_indices t v) /\
  Forall (fun i => is_Some (remap_index (register_indices t v) i)) (indices v) /\
  tracker_map t ⊆ tracker_map (register_indices t v).
Proof.
  unfold register_indices. intros Ht Hv. revert t Ht.
  induction Hv as [|i l Hi Hl IH]; intros t Ht; simpl; [done |].
  destruct (register_index_ok t i Ht Hi) as (Ht' & [o Ho] & Hs).
  destruct (IH _ Ht') as (H1 & H2 & H3). split_and!; [done | | by etrans].
  constructor; [|done]. exists o. unfold remap_index. by eapply lookup_weaken.
Qed.

(** Dimensions are numbered without gaps or collisions: registering a
    vector keeps the offsets of a tracker exactly [0], ..., [n - 1], one per
    dimension, gives every dimension of the vector an offset, and never moves
    an offset given earlier; [len() as u32] does not wrap. *)
Theorem register_indices_dense t v :
  tracker_ok t -> Forall (fun i => i < DIM_COUNT)%N (indices v) ->
  tracker_ok (register_indices t v) /\
  Forall (fun i => is_Some (remap_index (register_indices t v) i)) (indices v) /\
  (forall i o, remap_index t i = Some o -> remap_index (register_indices t v) i = Some o).
Proof.
  intros Ht Hv. destruct (register_indices_ok t v Ht Hv) as (? & ? & Hs). split_and!; [done | done |].
  intros i o Hi. by apply (lookup_weaken _ _ _ _ Hi).
Qed.

Lemma find_weight_renamed t es i o :
  tracker_ok t -> remap_index t i = Some o -> find_weight o (renamed t es) = find_weight i es.
Proof.
  intros Ht Hi. induction es as [|[j x] es IH]; [done |]. unfold renamed in *. csimpl.
  rewrite (find_weight_cons i). simpl.
  destruct (remap_index t j) as [o'|] eqn:Ej; simpl.
  - rewrite find_weight_cons. simpl. case_decide as D; case_decide as D'; subst; try done.
    + exfalso. apply D'. by apply (tk_inj t Ht j i o).
    + congruence.
  - case_decide as D; [congruence | done].
Qed.

Lemma renamed_nodup t es : tracker_ok t -> NoDup es.*1 -> NoDup (renamed t es).*1.
Proof.
  intros Ht Hn. induction es as [|[j x] es IH]; csimpl in *; [constructor |].
  apply NoDup_cons in Hn as [Hn1 Hn2]. unfold renamed. csimpl. fold (renamed t es).
  destruct (remap_index t j) as [o|] eqn:Ej; simpl; [|by apply IH].
  apply NoDup_cons. split; [|by apply IH]. intros ([o' x'] & E & Hin)%list_elem_of_fmap.
  simpl in E. subst o'. apply list_elem_of_omap in Hin as ([k y] & Hk & Hr).
  destruct (remap_index t k) as [o'|] eqn:Ek; simplify_eq/=. apply Hn1.
  rewrite (tk_inj t Ht j k o Ej Ek). exact (list_elem_of_fmap_2 fst _ _ Hk).
Qed.

Lemma remap_vector_spec t v :
  tracker_ok t -> sv_ok v ->
  exists r, remap_vector t v = Some r /\ is_sorted (indices r) = true /\ sv_ok r /\
    sv_entries r ≡ₚ renamed t (sv_entries v).
Proof.
  intros Ht [Hl Hn]. unfold remap_vector.
  destruct (remap_loop_spec t v 0 (length (indices v)) v 0)
    as (w & v' & -> & Hw & Li & Lv & Hz); try done.
  simpl. set (u := {| indices := _; values := _ |}).
  assert (Eu : sv_entries u = renamed t (sv_entries v)) by exact Hz.
  assert (Lu : length (indices u) = length (values u)) by (simpl; rewrite !length_take; lia).
  assert (Hu : sv_ok u).
  { split; [done |]. rewrite <- sv_entries_indices, Eu by done. apply renamed_nodup; [done |].
    by rewrite sv_entries_indices. }
  destruct (double_sort_spec u Hu) as (? & ? & Hp). eexists. split_and!; try done. by rewrite Hp, Eu.
Qed.

(** Renaming a query for one segment: the in-place loop of
    [remap_vector] stays in bounds and gives a vector with strictly ascending
    offsets that holds the weight of every known dimension under its offset
    and nothing else. *)
Theorem remap_vector_exact t v :
  tracker_ok t -> sv_ok v ->
  exists r, remap_vector t v = Some r /\ is_sorted (indices r) = true /\
    length (indices r) = length (values r) /\
    (forall i o, remap_index t i = Some o ->
       find_weight o (sv_entries r) = find_weight i (sv_entries v)) /\
    (forall o, o ∈ indices r -> exists i, remap_index t i = Some o /\ i ∈ indices v).
Proof.
  intros Ht Hv. destruct (remap_vector_spec t v Ht Hv) as (r & E & Hs & [Hl Hn] & Hp).
  exists r. split_and!; try done.
  - intros i o Hi. rewrite <- (find_weight_renamed t _ i o Ht Hi).
    apply find_weight_perm; [|done]. by rewrite sv_entries_indices.
  - intros o. rewrite <- (sv_entries_indices r) by done. rewrite Hp.
    intros ([o' x] & -> & ([i y] & Hi & Hr)%list_elem_of_omap)%list_elem_of_fmap.
    destruct (remap_index t i) as [o''|] eqn:Ei; simplify_eq/=. exists i. split; [done |].
    rewrite <- (sv_entries_indices v) by apply Hv. exact (list_elem_of_fmap_2 fst _ _ Hi).
Qed.

(** ** Examples *)

Definition vector (es : list (N * Z)) : SparseVector :=
  {| indices := es.*1; values := of_Z binary32 <$> es.*2 |}.

Lemma vector_ok es : bool_decide (NoDup es.*1) = true -> sv_ok (vector es).
Proof. intros Hn%bool_decide_eq_true. split; [simpl; by rewrite !length_fmap | done]. Qed.

Definition vector_a : SparseVector := vector [(1, 2%Z); (4, 3%Z); (9, 5%Z)]%N.
Definition vector_b : SparseVector := vector [(9, 7%Z); (4, 1%Z); (2, 6%Z)]%N.

Lemma score_vectors_exact_witness :
  score_vectors vector_a (double_sort vector_b) = Some (Some (of_Z binary32 38)).
Proof.
  rewrite (score_vectors_exact vector_a (double_sort vector_b)).
  - vm_compute. reflexivity.
  - reflexivity.
  - reflexivity.
  - vm_compute. reflexivity.
  - vm_compute. reflexivity.
Defined.

Lemma combine_aggregate_exact_witness :
  exists r, combine_aggregate (fadd binary32) vector_a vector_b = Some r /\
    find_weight 9 (sv_entries r) = Some (of_Z binary32 12).
Proof.
  destruct (combine_aggregate_exact (fadd binary32) vector_a vector_b) as (r & E & _ & _ & Hf).
  - apply vector_ok. reflexivity.
  - apply vector_ok. reflexivity.
  - exists r. split; [exact E |]. rewrite Hf. vm_compute. reflexivity.
Defined.

Definition no_dimensions : IndicesTracker := {| tracker_map := ∅ |}.

Lemma no_dimensions_ok : tracker_ok no_dimensions.
Proof.
  split; unfold remap_index; simpl; setoid_rewrite lookup_empty; try done.
  intros o Ho. rewrite map_size_empty in Ho. lia.
Qed.

Lemma example_tracker_ok : tracker_ok (register_indices no_dimensions vector_b).
Proof.
  apply register_indices_ok; [apply no_dimensions_ok |].
  repeat (apply Forall_cons; split; [reflexivity |]). apply Forall_nil. exact Logic.I.
Qed.

Lemma register_indices_dense_witness :
  tracker_ok (register_indices no_dimensions vector_b) /\
  remap_index (register_indices no_dimensions vector_b) 4 = Some 1%N.
Proof.
  destruct (register_indices_dense no_dimensions vector_b) as (Ht & _ & _).
  - apply no_dimensions_ok.
  - repeat (apply Forall_cons; split; [reflexivity |]). apply Forall_nil. exact Logic.I.
  - split; [exact Ht | reflexivity].
Defined.

Lemma remap_vector_exact_witness :
  exists r, remap_vector (register_indices no_dimensions vector_b) vector_a = Some r /\
    indices r = [0; 1]%N /\ find_weight 1 (sv_entries r) = Some (of_Z binary32 3).
Proof.
  destruct (remap_vector_exact (register_indices no_dimensions vector_b) vector_a)
    as (r & E & _ & _ & Hf & _).
  - apply example_tracker_ok.
  - apply vector_ok. reflexivity.
  - exists r. split; [exact E |]. split.
    + assert (Hr : indices <$> remap_vector (register_indices no_dimensions vector_b) vector_a =
        Some [0; 1]%N) by (vm_compute; reflexivity).
      rewrite E in Hr. injection Hr as Hr. exact Hr.
    + rewrite (Hf 4%N 1%N); [vm_compute; reflexivity | reflexivity].
Defined.
