(* ===== verification/InvertedIndex.v ===== *)
(** * The inverted index in memory

    lib/sparse/src/index/posting_list.rs ([PostingList]: its updates in place)
    and lib/sparse/src/index/inverted_index/{inverted_index_ram,
    inverted_index_ram_builder}.rs.  The index maps a dimension to the posting
    list of its records; an update deletes the dimensions a vector lost,
    inserts the ones it has, and propagates the largest weight behind every
    element to the left.

    The abstract state is the map from records to vectors.  The file proves
    that every state the updates reach, and every built index, represents its
    map: each posting list holds exactly the weights of its dimension, sorted
    by record, every element carries the exact maximum behind it, and the
    counters are those of the map. *)

From S2P Require Import Prelude Float Order PointId RrfScoring Postings SparseVectors.

(** ** Posting lists *)

Abbreviation PostingList := (list PostingElementEx).

(** [std::cmp::max] on [OrderedFloat]. *)
Definition ordered_max (x y : float) : float :=
  match ordered_cmp x y with Gt => x | _ => y end.

(** [PostingList::new_one] *)
Definition new_one (record_id : N) (weight : float) : PostingList :=
  [PostingElementEx_new record_id weight].

(** [propagate_max_next_weight_to_the_left]; [None] is the panic of an index
    out of bounds. *)
Definition propagate_max_next_weight_to_the_left (l : PostingList) (up_to_index : nat)
    : option PostingList :=
  starting_element ← l !! up_to_index;
  let max_next := ordered_max (max_next_weight starting_element) (weight starting_element) in
  Some ((fill_max_next_weight (take up_to_index l) max_next).1 ++ drop up_to_index l).

(** [last.max_next_weight = DEFAULT_MAX_NEXT_WEIGHT] *)
Definition reset_last (l : PostingList) : PostingList :=
  alter (fun e => {| record_id := record_id e; weight := weight e;
                     max_next_weight := DEFAULT_MAX_NEXT_WEIGHT |}) (pred (length l)) l.

(** [PostingList::delete] *)
Definition posting_delete (l : PostingList) (id : N) : option PostingList :=
  match binary_search l id with
  | inr _ => Some l
  | inl found_index =>
      let l := reset_last (delete found_index l) in
      if found_index <? length l then propagate_max_next_weight_to_the_left l found_index
      else if 0 <? length l then propagate_max_next_weight_to_the_left l (length l - 1)
      else Some l
  end.

Definition set_weight (w : float) (e : PostingElementEx) : PostingElementEx :=
  {| record_id := record_id e; weight := w; max_next_weight := max_next_weight e |}.

(** [PostingList::upsert] *)
Definition posting_upsert (l : PostingList) (element : PostingElementEx) : option PostingList :=
  match binary_search l (record_id element) with
  | inl found_index =>
      found ← l !! found_index;
      if feq (weight found) (weight element) then Some l
      else
        propagate_max_next_weight_to_the_left
          (alter (set_weight (weight element)) found_index l) found_index
  | inr insert_index =>
      let l := take insert_index l ++ element :: drop insert_index l in
      propagate_max_next_weight_to_the_left l
        (if insert_index =? length l - 1 then insert_index else S insert_index)
  end.

(** ** The index *)

Record InvertedIndexRam : Type := mkInvertedIndexRam {
  postings : list PostingList;
  vector_count : nat;
  total_sparse_size : nat;
}.

(** [size_of::<PostingElementEx>()]: an identifier and two weights. *)
Definition POSTING_ELEMENT_SIZE : nat := 12.

(** [InvertedIndexRam::empty] *)
Definition InvertedIndexRam_empty : InvertedIndexRam :=
  {| postings := []; vector_count := 0; total_sparse_size := 0 |}.

(** [InvertedIndexRam::get]; the error is that of an offset out of bounds. *)
Definition ram_get (index : InvertedIndexRam) (id : N) : OperationResult PostingListIterator :=
  match postings index !! N.to_nat id with
  | Some l => Ok (posting_list_iter l)
  | None =>
      Err (ServiceError "DimOffset {id} out of bounds. Index contains {len} posting lists.")
  end.

Definition posting_list_len (index : InvertedIndexRam) (id : N) : OperationResult nat :=
  match ram_get index id with Ok it => Ok (length (elements it)) | Err e => Err e end.

Definition max_index (index : InvertedIndexRam) : option N :=
  match length (postings index) with
  | 0 => None
  | len => Some (N.of_nat len - 1)%N
  end.

(** The loops over the dimensions to delete from and to insert into. *)
Fixpoint delete_dims (l : list PostingList) (id : N) (dims : list N) : option (list PostingList) :=
  match dims with
  | [] => Some l
  | dim_id :: dims =>
      l ← match l !! N.to_nat dim_id with
          | Some posting =>
              posting ← posting_delete posting id;
              Some (<[N.to_nat dim_id := posting]> l)
          | None => Some l
          end;
      delete_dims l id dims
  end.

(** [resize_with(len, default)] *)
Definition resize {A} (l : list A) (len : nat) (default : A) : list A :=
  take len l ++ replicate (len - length l) default.

Fixpoint upsert_dims (l : list PostingList) (id : N) (es : list (N * float))
    : option (list PostingList) :=
  match es with
  | [] => Some l
  | (dim_id, w) :: es =>
      let dim_id := N.to_nat dim_id in
      l ← match l !! dim_id with
          | Some posting =>
              posting ← posting_upsert posting (PostingElementEx_new id w);
              Some (<[dim_id := posting]> l)
          | None => Some (<[dim_id := new_one id w]> (resize l (dim_id + 1) []))
          end;
      upsert_dims l id es
  end.

(** [InvertedIndexRam::remove]; subtraction saturates. *)
Definition ram_remove (index : InvertedIndexRam) (id : N) (old_vector : RemappedSparseVector)
    : option InvertedIndexRam :=
  let old_vector_size := length (indices old_vector) * POSTING_ELEMENT_SIZE in
  l ← delete_dims (postings index) id (indices old_vector);
  Some {| postings := l;
          vector_count := vector_count index - 1;
          total_sparse_size := total_sparse_size index - old_vector_size |}.

(** [InvertedIndexRam::upsert] *)
Definition ram_upsert (index : InvertedIndexRam) (id : N) (vector : RemappedSparseVector)
    (old_vector : option RemappedSparseVector) : option InvertedIndexRam :=
  l ← match old_vector with
      | Some old_vector =>
          delete_dims (postings index) id
            (filter (fun dim_id => dim_id ∉ indices vector) (indices old_vector))
      | None => Some (postings index)
      end;
  let new_vector_size := length (indices vector) * POSTING_ELEMENT_SIZE in
  l ← upsert_dims l id (zip (indices vector) (values vector));
  let '(count, size) :=
    match old_vector with
    | Some old =>
        (vector_count index, total_sparse_size index - length (indices old) * POSTING_ELEMENT_SIZE)
    | None => (S (vector_count index), total_sparse_size index)
    end in
  Some {| postings := l; vector_count := count; total_sparse_size := size + new_vector_size |}.

Definition total_posting_elements_size (index : InvertedIndexRam) : nat :=
  sum_list ((fun posting => length posting * POSTING_ELEMENT_SIZE) <$> postings index).

(** ** The builder *)

Record InvertedIndexBuilder : Type := mkInvertedIndexBuilder {
  posting_builders : list PostingList;
  b_vector_count : nat;
  b_total_sparse_size : nat;
}.

Definition InvertedIndexBuilder_new : InvertedIndexBuilder :=
  {| posting_builders := []; b_vector_count := 0; b_total_sparse_size := 0 |}.

Fixpoint add_dims (l : list PostingList) (id : N) (es : list (N * float)) : list PostingList :=
  match es with
  | [] => l
  | (dim_id, w) :: es =>
      let dim_id := N.to_nat dim_id in
      let l := resize l (Nat.max (dim_id + 1) (length l)) [] in
      add_dims (alter (fun b => PostingBuilder_add b id w) dim_id l) id es
  end.

(** [InvertedIndexBuilder::add]; the sizes of all vectors fit a [usize]. *)
Definition InvertedIndexBuilder_add (b : InvertedIndexBuilder) (id : N)
    (vector : RemappedSparseVector) : InvertedIndexBuilder :=
  let sparse_size := length (indices vector) * POSTING_ELEMENT_SIZE in
  {| posting_builders := add_dims (posting_builders b) id (zip (indices vector) (values vector));
     b_vector_count := S (b_vector_count b);
     b_total_sparse_size := b_total_sparse_size b + sparse_size |}.

(** [InvertedIndexBuilder::build] *)
Definition InvertedIndexBuilder_build (b : InvertedIndexBuilder) : InvertedIndexRam :=
  {| postings := PostingBuilder_build <$> posting_builders b;
     vector_count := b_vector_count b;
     total_sparse_size := b_total_sparse_size b |}.

Definition build_from_iterator (vectors : list (N * RemappedSparseVector)) : InvertedIndexRam :=
  InvertedIndexBuilder_build
    (fold_left (fun b '(id, vector) => InvertedIndexBuilder_add b id vector) vectors
       InvertedIndexBuilder_new).

(** ** Posting lists keep their invariant *)

(** Weights on which the comparisons of the code agree with equality: no NaN
    and no negative zero. *)
Definition plain (x : float) : Prop := wf binary32 x /\ x <> NaN /\ x <> Fin true 0.

#[export] Instance plain_dec x : Decision (plain x).
Proof. unfold plain, wf. destruct x; apply _. Defined.

Lemma plain_rank_inj x y :
  plain x -> plain y -> rank binary32 x = rank binary32 y -> x = y.
Proof.
  intros (Wx & Nx & Zx) (Wy & Ny & Zy). pose proof (limit_pos binary32).
  destruct x as [|[]|[] a], y as [|[]|[] b]; simpl in *; try done; intros; try lia;
    try (f_equal; lia).
  - exfalso. apply Zx. f_equal. lia.
  - exfalso. apply Zy. f_equal. lia.
Qed.

Lemma feq_plain x y : plain x -> plain y -> feq x y = true -> x = y.
Proof.
  intros Hx Hy. unfold feq. rewrite (fcompare_rank binary32) by apply Hx || apply Hy.
  destruct (Z.compare_spec (rank binary32 x) (rank binary32 y)); [|done..].
  intros _. by apply plain_rank_inj.
Qed.

Lemma fmax_plain x y :
  plain x -> plain y -> plain (fmax x y) /\ ordered_max x y = fmax x y.
Proof.
  intros Hx Hy. assert (Hc := fcompare_rank binary32 x y). assert (Ho := ordered_cmp_rank binary32 x y).
  destruct Hx as (Wx & Nx & Zx), Hy as (Wy & Ny & Zy). specialize (Hc Wx Wy Nx Ny).
  specialize (Ho Wx Wy). unfold ordered_max. rewrite Ho.
  assert (E : fmax x y = if flt x y then y else x) by by destruct x, y.
  rewrite E. unfold flt. rewrite Hc.
  destruct (Z.compare_spec (rank binary32 x) (rank binary32 y)); split; try done.
  symmetry. by apply plain_rank_inj.
Qed.

Lemma lowest_plain : plain (Inf true).
Proof. done. Qed.

Lemma max_weight_plain l : Forall (plain ∘ weight) l -> plain (max_weight l).
Proof.
  induction 1 as [|e l He Hl IH]; [apply lowest_plain |]. rewrite max_weight_cons.
  by apply fmax_plain.
Qed.

Definition plist_entries (l : PostingList) : list PostingElement := to_element <$> l.

(** A posting list: sorted by distinct records, with exact maxima. *)
Definition plist_ok (l : PostingList) : Prop :=
  StronglySorted by_record (plist_entries l) /\ next_exact l /\ Forall (plain ∘ weight) l.

Lemma plist_nodup l : plist_ok l -> NoDup (plist_entries l).*1.
Proof. intros [Hs _]. by apply by_record_nodup. Qed.

Lemma weights_of_entries l l' :
  plist_entries l = plist_entries l' -> Forall (plain ∘ weight) l -> Forall (plain ∘ weight) l'.
Proof.
  intros E Hl. assert (Hp : Forall (plain ∘ snd) (plist_entries l)) by by apply Forall_fmap.
  rewrite E in Hp. unfold plist_entries in Hp. by rewrite Forall_fmap in Hp.
Qed.

(** Propagation repairs everything to the left of an exact suffix. *)
Lemma propagate_spec l i :
  i < length l -> next_exact (drop i l) -> Forall (plain ∘ weight) l ->
  exists l', propagate_max_next_weight_to_the_left l i = Some l' /\
    plist_entries l' = plist_entries l /\ next_exact l'.
Proof.
  intros Hi Hn Hp. destruct (lookup_lt_is_Some_2 l i Hi) as [e He].
  unfold propagate_max_next_weight_to_the_left. rewrite He. simpl.
  pose proof (drop_S _ _ _ He) as Ed. rewrite Ed in Hn. simpl in Hn. destruct Hn as [Hm Hn].
  assert (Hd : Forall (plain ∘ weight) (e :: drop (S i) l)) by (rewrite <- Ed; by apply Forall_drop).
  apply Forall_cons in Hd as [He' Hd].
  destruct (fmax_plain (max_weight (drop (S i) l)) (weight e)) as [_ Ho];
    [by apply max_weight_plain | done |].
  rewrite Hm, Ho, <- max_weight_cons, Ed.
  destruct (fill_max_next_weight_spec (take i l) (e :: drop (S i) l)) as (F1 & F2 & _); [done |].
  eexists. split; [done |]. split; [|done]. unfold plist_entries.
  rewrite fmap_app, F1, <- fmap_app, <- Ed. by rewrite take_drop.
Qed.

Lemma next_exact_app_r l1 l2 : next_exact (l1 ++ l2) -> next_exact l2.
Proof. intros H. apply (next_exact_drop (length l1)) in H. by rewrite drop_app_length in H. Qed.

Lemma next_exact_last l : next_exact l -> forall e, last l = Some e -> max_next_weight e = Inf true.
Proof.
  intros H e He. apply last_Some in He as [l' ->]. by apply next_exact_app_r in H as [? _].
Qed.

Lemma reset_last_snoc l e :
  reset_last (l ++ [e]) = l ++ [{| record_id := record_id e; weight := weight e;
                                  max_next_weight := Inf true |}].
Proof.
  unfold reset_last. rewrite length_app. simpl. replace (length l + 1) with (S (length l)) by lia.
  simpl. rewrite alter_app_r_alt by lia. by rewrite Nat.sub_diag.
Qed.

(** Where the binary search of a sorted list ends. *)
Lemma binary_search_spec l id :
  StronglySorted by_record (plist_entries l) ->
  match binary_search l id with
  | inl i => exists l1 e l2, l = l1 ++ e :: l2 /\ i = length l1 /\ record_id e = id
  | inr i => exists l1 l2, l = l1 ++ l2 /\ i = length l1 /\
      Forall (fun e => record_id e < id)%N l1 /\ Forall (fun e => id < record_id e)%N l2
  end.
Proof.
  unfold binary_search. induction l as [|e l IH]; csimpl; intros Hs.
  { by exists [], []. }
  apply by_record_cons in Hs as [Hs He]. specialize (IH Hs).
  destruct (N.ltb_spec (record_id e) id) as [Hlt|Hge]; csimpl.
  - destruct (l !! count_before id l) as [x|]; [destruct (N.eqb_spec (record_id x) id) |].
    + destruct IH as (l1 & y & l2 & -> & Hi & Hy). exists (e :: l1), y, l2. simpl. auto.
    + destruct IH as (l1 & l2 & -> & Hi & H1 & H2). exists (e :: l1), l2. simpl. auto.
    + destruct IH as (l1 & l2 & -> & Hi & H1 & H2). exists (e :: l1), l2. simpl. auto.
  - destruct (N.eqb_spec (record_id e) id) as [E|E]; [by exists [], e, l |].
    exists [], (e :: l). split_and!; [done | done | constructor |]. constructor; [lia |].
    unfold plist_entries in He. rewrite Forall_fmap in He. eapply Forall_impl; [exact He |]. unfold by_record. simpl. intros x. lia.
Qed.

(** The entries around a record. *)
Lemma filter_around (l1 : list PostingElement) e l2 :
  StronglySorted by_record (l1 ++ e :: l2) -> filter (fun x => x.1 <> e.1) (l1 ++ e :: l2) = l1 ++ l2.
Proof.
  intros Hs. apply by_record_nodup in Hs. rewrite fmap_app in Hs. csimpl in Hs.
  apply NoDup_app in Hs as (_ & H1 & H2). apply NoDup_cons in H2 as [H2 _].
  rewrite filter_app, filter_cons_False by auto.
  rewrite !filter_id; [done | |]; apply Forall_forall; intros x Hx E.
  - apply H2. rewrite <- E. by apply list_elem_of_fmap_2.
  - apply (H1 x.1); [by apply list_elem_of_fmap_2 |]. rewrite E. left.
Qed.

Lemma sorted_remove (l1 : list PostingElement) e l2 :
  StronglySorted by_record (l1 ++ e :: l2) -> StronglySorted by_record (l1 ++ l2).
Proof. intros Hs. rewrite <- (filter_around l1 e l2 Hs). by apply StronglySorted_filter. Qed.

Lemma posting_delete_spec l id :
  plist_ok l -> exists l', posting_delete l id = Some l' /\ plist_ok l' /\
    plist_entries l' = filter (fun e => e.1 <> id) (plist_entries l).
Proof.
  intros (Hs & Hn & Hp). unfold posting_delete. pose proof (binary_search_spec l id Hs) as B.
  destruct (binary_search l id) as [i|i].
  2:{ exists l. split; [done |]. split; [done |]. destruct B as (l1 & l2 & -> & _ & H1 & H2).
      symmetry. apply filter_id. unfold plist_entries. rewrite fmap_app, Forall_app, !Forall_fmap.
      split; (eapply Forall_impl; [done |]); intros x; simpl; lia. }
  destruct B as (l1 & e & l2 & -> & -> & <-). rewrite delete_middle.
  unfold plist_entries in Hs |- *. rewrite fmap_app, fmap_cons in Hs |- *.
  pose proof (filter_around _ _ _ Hs) as Ef. simpl in Ef. rewrite Ef.
  apply sorted_remove in Hs. rewrite <- fmap_app in Hs |- *.
  apply Forall_app in Hp as [Hp1 Hp2]. apply Forall_cons in Hp2 as [_ Hp2].
  assert (Hp : Forall (plain ∘ weight) (l1 ++ l2)) by by apply Forall_app.
  assert (Hfin : forall l', plist_entries l' = to_element <$> l1 ++ l2 -> next_exact l' ->
    plist_ok l' /\ to_element <$> l' = to_element <$> l1 ++ l2).
  { intros l' E Hx. split; [|done]. split_and!; [by rewrite E | done |].
    by eapply weights_of_entries; [symmetry |]. }
  destruct (decide (l2 = [])) as [->|Hne].
  - rewrite app_nil_r in *. destruct l1 as [|x l1 _] using rev_ind.
    { exists []. split; [done |]. by apply Hfin. }
    rewrite reset_last_snoc. set (x' := {| record_id := _ |}).
    replace (length (l1 ++ [x])) with (length (l1 ++ [x'])) by by rewrite !length_app.
    rewrite Nat.ltb_irrefl. rewrite !length_app. simpl.
    destruct (Nat.ltb_spec 0 (length l1 + 1)); [|lia].
    assert (E' : plist_entries (l1 ++ [x']) = to_element <$> l1 ++ [x])
      by (unfold plist_entries; by rewrite !fmap_app).
    destruct (propagate_spec (l1 ++ [x']) (length l1 + 1 - 1)) as (l' & -> & P1 & P2).
    { rewrite length_app. simpl. lia. }
    { rewrite Nat.add_sub, drop_app_length. done. }
    { by eapply weights_of_entries; [symmetry |]. }
    exists l'. split; [done |]. apply Hfin; [by rewrite P1 | done].
  - apply next_exact_app_r in Hn as [_ Hn]. destruct l2 as [|x l2 _] using rev_ind; [done |].
    assert (reset_last (l1 ++ l2 ++ [x]) = l1 ++ l2 ++ [x]) as ->.
    { rewrite !app_assoc, reset_last_snoc. do 2 f_equal.
      pose proof (next_exact_last _ Hn x) as Hx. rewrite last_snoc in Hx. specialize (Hx eq_refl).
      destruct x as [a b c]. simpl in *. by rewrite Hx. }
    assert (Hlt : length l1 < length (l1 ++ l2 ++ [x])) by (rewrite !length_app; simpl; lia).
    rewrite (proj2 (Nat.ltb_lt _ _) Hlt).
    destruct (propagate_spec (l1 ++ l2 ++ [x]) (length l1)) as (l' & -> & P1 & P2);
      [done | by rewrite drop_app_length | done |].
    exists l'. split; [done |]. by apply Hfin.
Qed.

Lemma sorted_replace (l1 l2 : list PostingElement) id w w' :
  StronglySorted by_record (l1 ++ (id, w) :: l2) -> StronglySorted by_record (l1 ++ (id, w') :: l2).
Proof.
  intros Hs. apply StronglySorted_fmap_key with (f := fst) (R := N.lt).
  apply (StronglySorted_fmap_key N.lt fst) in Hs. rewrite fmap_app in *. done.
Qed.

Lemma sorted_insert (l1 l2 : list PostingElement) e :
  StronglySorted by_record (l1 ++ l2) -> Forall (fun x => x.1 < e.1)%N l1 ->
  Forall (fun x => e.1 < x.1)%N l2 -> StronglySorted by_record (l1 ++ e :: l2).
Proof.
  intros Hs H1 H2. induction l1 as [|x l1 IH]; simpl in *; [by constructor |].
  apply StronglySorted_inv in Hs as [Hs Hx]. apply Forall_cons in H1 as [H1 H1'].
  constructor; [auto |]. apply Forall_app in Hx as [Hx1 Hx2]. apply Forall_app. by split; [|constructor].
Qed.

(** What an upsert leaves: sorted, exact, and the record with its new weight. *)
Definition upserted (l l' : PostingList) (id : N) (w : float) : Prop :=
  plist_ok l' /\ plist_entries l' ≡ₚ (id, w) :: filter (fun e => e.1 <> id) (plist_entries l).

Lemma upsert_found l1 e l2 w :
  plist_ok (l1 ++ e :: l2) -> plain w ->
  exists l', propagate_max_next_weight_to_the_left (l1 ++ set_weight w e :: l2) (length l1) = Some l' /\
    upserted (l1 ++ e :: l2) l' (record_id e) w.
Proof.
  intros (Hs & Hn & Hp) Hw. apply Forall_app in Hp as [Hp1 Hp2]. apply Forall_cons in Hp2 as [_ Hp2].
  assert (Hp : Forall (plain ∘ weight) (l1 ++ set_weight w e :: l2))
    by (apply Forall_app; by split; [|constructor]).
  destruct (propagate_spec (l1 ++ set_weight w e :: l2) (length l1)) as (l' & -> & P1 & P2).
  { rewrite length_app. simpl. lia. }
  { rewrite drop_app_length. by apply next_exact_app_r in Hn. }
  { done. }
  assert (Hq := weights_of_entries _ _ (eq_sym P1) Hp).
  exists l'. split; [done |]. unfold upserted, plist_ok.
  rewrite P1. unfold plist_entries in *.
  rewrite !fmap_app, !fmap_cons in *. split.
  - split_and!; [| done | done].
    by eapply sorted_replace.
  - pose proof (filter_around _ _ _ Hs) as Ef. simpl in Ef. rewrite Ef. symmetry.
    apply Permutation_middle.
Qed.

Lemma upsert_absent l1 l2 id w :
  plist_ok (l1 ++ l2) -> plain w ->
  Forall (fun e => record_id e < id)%N l1 -> Forall (fun e => id < record_id e)%N l2 ->
  exists l', propagate_max_next_weight_to_the_left (l1 ++ PostingElementEx_new id w :: l2)
      (if length l1 =? length (l1 ++ PostingElementEx_new id w :: l2) - 1 then length l1
       else S (length l1)) = Some l' /\
    upserted (l1 ++ l2) l' id w.
Proof.
  intros (Hs & Hn & Hp) Hw H1 H2. apply Forall_app in Hp as [Hp1 Hp2].
  assert (Hp : Forall (plain ∘ weight) (l1 ++ PostingElementEx_new id w :: l2))
    by (apply Forall_app; by split; [|constructor]).
  set (new := PostingElementEx_new id w) in *.
  match goal with |- context [propagate_max_next_weight_to_the_left _ ?x] => set (i := x) end.
  assert (Hi : i < length (l1 ++ new :: l2) /\ next_exact (drop i (l1 ++ new :: l2))).
  { unfold i. rewrite length_app. simpl. apply next_exact_app_r in Hn.
    destruct l2 as [|x l2]; simpl.
    - rewrite (proj2 (Nat.eqb_eq _ _)) by lia. split; [lia |]. by rewrite drop_app_length.
    - rewrite (proj2 (Nat.eqb_neq _ _)) by lia. split; [lia |].
      change (l1 ++ new :: x :: l2) with (l1 ++ [new] ++ x :: l2). rewrite app_assoc.
      rewrite drop_app_length'; [done |]. rewrite length_app. simpl. lia. }
  destruct Hi as [Hi Hx].
  destruct (propagate_spec (l1 ++ new :: l2) i Hi Hx Hp) as (l' & -> & P1 & P2).
  assert (Hq := weights_of_entries _ _ (eq_sym P1) Hp).
  exists l'. split; [done |]. unfold upserted, plist_ok.
  rewrite P1. unfold plist_entries in *.
  rewrite !fmap_app, ?fmap_cons in *. split.
  - split_and!; [| done | done].
    apply sorted_insert; [done | by apply Forall_fmap | by apply Forall_fmap].
  - rewrite filter_id; [symmetry; apply Permutation_middle |].
    apply Forall_app. rewrite !Forall_fmap.
    split; (eapply Forall_impl; [done |]); intros y; simpl; lia.
Qed.

Lemma posting_upsert_spec l id w :
  plist_ok l -> plain w ->
  exists l', posting_upsert l (PostingElementEx_new id w) = Some l' /\ upserted l l' id w.
Proof.
  intros Hok Hw. unfold posting_upsert.
  pose proof (binary_search_spec l id (proj1 Hok)) as B. simpl.
  destruct (binary_search l id) as [i|i].
  - destruct B as (l1 & e & l2 & -> & -> & <-). rewrite list_lookup_middle by done. simpl.
    destruct (feq (weight e) w) eqn:Ew.
    + apply feq_plain in Ew as <-; [| |done].
      2:{ destruct Hok as (_ & _ & Hp). apply Forall_app in Hp as [_ Hp].
          by apply Forall_cons in Hp as [? _]. }
      exists (l1 ++ e :: l2). split; [done |]. split; [done |]. destruct Hok as (Hs & _).
      unfold plist_entries in *. rewrite fmap_app, fmap_cons in *.
      pose proof (filter_around _ _ _ Hs) as Ef. simpl in Ef. rewrite Ef.
      symmetry. apply Permutation_middle.
    + rewrite alter_app_r_alt, Nat.sub_diag by lia. by apply upsert_found.
  - destruct B as (l1 & l2 & -> & -> & H1 & H2).
    rewrite take_app_length, drop_app_length. by apply upsert_absent.
Qed.

(** ** The index represents a map *)

Definition posting_of (l : list PostingList) (dim : N) : PostingList := default [] (l !! N.to_nat dim).

(** The weight of a record in the posting list of a dimension. *)
Definition weight_at (l : list PostingList) (dim d : N) : option float :=
  find_weight d (plist_entries (posting_of l dim)).

Lemma find_weight_None d l : find_weight d l = None <-> d ∉ l.*1.
Proof.
  split; [|apply find_weight_absent]. induction l as [|e l IH]; csimpl; [by intros _ ?%elem_of_nil |].
  rewrite find_weight_cons, not_elem_of_cons. case_decide; [done |]. auto.
Qed.

Lemma find_weight_delete d id l :
  find_weight d (filter (fun e => e.1 <> id) l) = if decide (d = id) then None else find_weight d l.
Proof.
  case_decide as E.
  - apply find_weight_None. intros (x & Ex & Hx)%list_elem_of_fmap.
    apply list_elem_of_filter in Hx as [Hx _]. congruence.
  - apply find_weight_filter. apply Forall_forall. congruence.
Qed.

Lemma find_weight_upserted l l' id w d :
  upserted l l' id w -> find_weight d (plist_entries l') =
    if decide (d = id) then Some w else find_weight d (plist_entries l).
Proof.
  intros [Hok Hp]. rewrite (find_weight_perm _ _ _ (plist_nodup l' Hok) Hp), find_weight_cons.
  simpl. rewrite find_weight_delete. repeat case_decide; congruence.
Qed.

Lemma posting_of_insert l dim p dim' :
  N.to_nat dim < length l ->
  posting_of (<[N.to_nat dim := p]> l) dim' = if decide (dim' = dim) then p else posting_of l dim'.
Proof.
  intros Hl. unfold posting_of. case_decide as E.
  - subst. by rewrite list_lookup_insert_eq.
  - rewrite list_lookup_insert_ne by lia. done.
Qed.

Lemma delete_dims_spec l id dims :
  Forall plist_ok l ->
  exists l', delete_dims l id dims = Some l' /\ Forall plist_ok l' /\
    forall dim d, weight_at l' dim d =
      if decide (d = id /\ dim ∈ dims) then None else weight_at l dim d.
Proof.
  revert l. induction dims as [|x dims IH]; intros l Hl; cbn [delete_dims].
  { exists l. split_and!; try done. intros dim d. rewrite decide_False; [done |].
    by intros [_ ?%elem_of_nil]. }
  destruct (l !! N.to_nat x) as [p|] eqn:Ep.
  - assert (Hp : plist_ok p) by by eapply Forall_lookup_1.
    destruct (posting_delete_spec p id Hp) as (p' & -> & Hp' & Ee). simpl.
    destruct (IH (<[N.to_nat x := p']> l)) as (l' & -> & Hl' & Hw); [by apply Forall_insert |].
    exists l'. split_and!; try done. intros dim d. rewrite Hw. unfold weight_at.
    rewrite posting_of_insert by by eapply lookup_lt_Some.
    destruct (decide (dim = x)) as [->|Hne].
    + rewrite Ee, find_weight_delete. unfold posting_of. rewrite Ep. simpl.
      destruct (decide (d = id)); [|by rewrite !decide_False by tauto].
      rewrite (decide_True (P := d = id /\ x ∈ x :: dims)) by (split; [done | left]). by case_decide.
    + apply decide_ext. rewrite elem_of_cons. tauto.
  - simpl. destruct (IH l Hl) as (l' & -> & Hl' & Hw). exists l'. split_and!; try done.
    intros dim d. rewrite Hw. destruct (decide (dim = x)) as [->|Hne].
    + assert (weight_at l x d = None) as -> by (unfold weight_at, posting_of; by rewrite Ep).
      by repeat case_decide.
    + apply decide_ext. rewrite elem_of_cons. tauto.
Qed.

Lemma posting_of_resize l len dim : length l <= len -> posting_of (resize l len []) dim = posting_of l dim.
Proof.
  intros Hl. unfold posting_of, resize. rewrite take_ge by done.
  destruct (decide (N.to_nat dim < length l)) as [Hd|Hd].
  - by rewrite lookup_app_l.
  - rewrite lookup_app_r by lia. rewrite (lookup_ge_None_2 l) by lia.
    destruct (replicate _ _ !! _) as [p|] eqn:E; [|done]. by apply lookup_replicate in E as [-> _].
Qed.

Lemma resize_ok l len : Forall plist_ok l -> Forall plist_ok (resize l len []).
Proof.
  intros Hl. apply Forall_app. split; [by apply Forall_take |]. apply Forall_replicate.
  split_and!; constructor.
Qed.

Lemma new_one_upserted id w : plain w -> upserted [] (new_one id w) id w.
Proof. intros Hw. split; [|done]. split_and!; repeat constructor; apply Hw. Qed.

(** One dimension. *)
Lemma upsert_dim_spec l id x w es :
  Forall plist_ok l -> plain w ->
  exists l', upsert_dims l id ((x, w) :: es) = upsert_dims l' id es /\ Forall plist_ok l' /\
    forall dim d, weight_at l' dim d =
      if decide (d = id /\ dim = x) then Some w else weight_at l dim d.
Proof.
  intros Hl Hw. cbn [upsert_dims].
  assert (Hset : forall l0 p, N.to_nat x < length l0 -> Forall plist_ok l0 ->
    (forall dim, posting_of l0 dim = posting_of l dim) -> upserted (posting_of l x) p id w ->
    Forall plist_ok (<[N.to_nat x := p]> l0) /\
    forall dim d, weight_at (<[N.to_nat x := p]> l0) dim d =
      if decide (d = id /\ dim = x) then Some w else weight_at l dim d).
  { intros l0 p Hx H0 Hsame Hu. split; [by apply Forall_insert; [|apply Hu] |]. intros dim d.
    unfold weight_at. rewrite posting_of_insert, Hsame by done.
    destruct (decide (dim = x)) as [->|Hne]; [|by rewrite decide_False by tauto].
    rewrite (find_weight_upserted _ _ _ _ _ Hu). apply decide_ext. tauto. }
  destruct (l !! N.to_nat x) as [p|] eqn:Ep.
  - assert (Hp : plist_ok p) by by eapply Forall_lookup_1.
    destruct (posting_upsert_spec p id w Hp Hw) as (p' & -> & Hu). simpl. eexists. split; [done |].
    apply Hset; [by eapply lookup_lt_Some | done | done |]. unfold posting_of. by rewrite Ep.
  - eexists. split; [done |]. apply lookup_ge_None in Ep as Hge. apply Hset.
    + unfold resize. rewrite length_app, length_take, length_replicate. lia.
    + by apply resize_ok.
    + intros dim. apply posting_of_resize. lia.
    + unfold posting_of. rewrite Ep. by apply new_one_upserted.
Qed.

Lemma upsert_dims_spec l id es :
  Forall plist_ok l -> Forall (plain ∘ snd) es -> NoDup es.*1 ->
  exists l', upsert_dims l id es = Some l' /\ Forall plist_ok l' /\
    forall dim d, weight_at l' dim d =
      if decide (d = id /\ dim ∈ es.*1) then find_weight dim es else weight_at l dim d.
Proof.
  intros Hl Hp Hn. revert l Hl. induction Hp as [|[x w] es Hx Hp IH]; intros l Hl.
  { exists l. split_and!; try done. intros dim d. rewrite decide_False; [done |].
    by intros [_ ?%elem_of_nil]. }
  csimpl in Hn. apply NoDup_cons in Hn as [Hn1 Hn].
  destruct (upsert_dim_spec l id x w es Hl Hx) as (l1 & -> & Hl1 & H1).
  destruct (IH Hn l1 Hl1) as (l2 & -> & Hl2 & H2). exists l2. split_and!; try done.
  intros dim d. rewrite H2, H1. csimpl. rewrite find_weight_cons. simpl.
  destruct (decide (d = id)) as [->|Hd]; [|by rewrite !decide_False by tauto].
  destruct (decide (x = dim)) as [->|Hne].
  - rewrite decide_False, !decide_True; [done | split; [done | left] | done |]. by intros [_ ?].
  - rewrite (decide_False (P := id = id /\ dim = x)) by (intros [_ ?]; congruence).
    apply decide_ext. rewrite elem_of_cons. naive_solver.
Qed.

(** *** The abstract state *)

Abbreviation VectorMap := (gmap N RemappedSparseVector).

(** The weight a map of vectors gives a record in a dimension. *)
Definition stored (m : VectorMap) (dim d : N) : option float :=
  v ← m !! d; find_weight dim (sv_entries v).

(** A vector the index accepts. *)
Definition indexable (v : RemappedSparseVector) : Prop := sv_ok v /\ Forall plain (values v).

Definition vectors_size (m : VectorMap) : nat :=
  map_fold (fun _ v n => length (indices v) * POSTING_ELEMENT_SIZE + n) 0 m.

Definition represents (index : InvertedIndexRam) (m : VectorMap) : Prop :=
  Forall plist_ok (postings index) /\
  (forall dim d, weight_at (postings index) dim d = stored m dim d) /\
  vector_count index = size m /\ total_sparse_size index = vectors_size m.

Lemma vectors_size_insert m id v :
  m !! id = None ->
  vectors_size (<[id := v]> m) = length (indices v) * POSTING_ELEMENT_SIZE + vectors_size m.
Proof. intros Hm. unfold vectors_size. rewrite map_fold_insert_L; [done | | done]. intros. lia. Qed.

Lemma vectors_size_delete m id v :
  m !! id = Some v ->
  vectors_size m = length (indices v) * POSTING_ELEMENT_SIZE + vectors_size (delete id m).
Proof.
  intros Hm. rewrite <- (insert_delete_id m id v) at 1 by done.
  apply vectors_size_insert, lookup_delete_eq.
Qed.

Lemma indexable_entries v :
  indexable v -> Forall (plain ∘ snd) (sv_entries v) /\ NoDup (sv_entries v).*1 /\
    (sv_entries v).*1 = indices v.
Proof.
  intros [[Hl Hn] Hp]. rewrite sv_entries_indices by done. split_and!; try done.
  apply Forall_fmap. unfold sv_entries. rewrite snd_zip by lia. done.
Qed.

Lemma stored_insert m id v dim d :
  stored (<[id := v]> m) dim d =
  if decide (d = id) then find_weight dim (sv_entries v) else stored m dim d.
Proof.
  unfold stored. case_decide as E.
  - subst. by rewrite lookup_insert_eq.
  - by rewrite lookup_insert_ne by done.
Qed.

Lemma stored_delete m id dim d :
  stored (delete id m) dim d = if decide (d = id) then None else stored m dim d.
Proof.
  unfold stored. case_decide as E.
  - subst. by rewrite lookup_delete_eq.
  - by rewrite lookup_delete_ne by done.
Qed.

Lemma empty_represents : represents InvertedIndexRam_empty ∅.
Proof. split_and!; [constructor | | done | done]. intros dim d. done. Qed.

Lemma ram_upsert_spec index m id v :
  represents index m -> indexable v -> map_Forall (fun _ => indexable) m ->
  exists index', ram_upsert index id v (m !! id) = Some index' /\
    represents index' (<[id := v]> m).
Proof.
  intros (Hok & Hw & Hc & Hz) Hv Hm. destruct (indexable_entries v Hv) as (Ep & En & Ei).
  assert (Hdel : exists l1, match m !! id with
      | Some old => delete_dims (postings index) id
          (filter (fun dim_id => dim_id ∉ indices v) (indices old))
      | None => Some (postings index) end = Some l1 /\ Forall plist_ok l1 /\
    (forall dim d, d <> id -> weight_at l1 dim d = stored m dim d) /\
    (forall dim, dim ∉ indices v -> weight_at l1 dim id = None)).
  { destruct (m !! id) as [old|] eqn:Eo.
    - destruct (delete_dims_spec (postings index) id
        (filter (fun dim_id => dim_id ∉ indices v) (indices old)) Hok) as (l1 & -> & H1 & H2).
      exists l1. split_and!; try done.
      + intros dim d Hd. rewrite H2, decide_False by tauto. done.
      + intros dim Hd. rewrite H2. case_decide as E; [done |]. rewrite Hw. unfold stored.
        rewrite Eo. simpl. destruct (indexable_entries old (Hm _ _ Eo)) as (_ & _ & Eoi).
        apply find_weight_None. rewrite Eoi. intros Hin. apply E. split; [done |].
        by apply list_elem_of_filter.
    - exists (postings index). split_and!; try done. intros dim _. rewrite Hw.
      unfold stored. by rewrite Eo. }
  destruct Hdel as (l1 & E1 & H1 & H2 & H3). unfold ram_upsert. rewrite E1. simpl.
  destruct (upsert_dims_spec l1 id (zip (indices v) (values v)) H1 Ep En) as (l2 & -> & Hok2 & Hw2).
  fold (sv_entries v) in Hw2. rewrite Ei in Hw2. simpl.
  assert (Hweights : forall dim d, weight_at l2 dim d = stored (<[id := v]> m) dim d).
  { intros dim d. rewrite Hw2, stored_insert. destruct (decide (d = id)) as [->|Hd].
    - destruct (decide (dim ∈ indices v)) as [Hin|Hin]; [by rewrite decide_True |].
      rewrite decide_False by tauto. rewrite H3 by done. symmetry. apply find_weight_None.
      by rewrite Ei.
    - rewrite decide_False by tauto. auto. }
  destruct (m !! id) as [old|] eqn:Eo; eexists; (split; [done |]);
    (split_and!; simpl; [done | done | |]).
  - rewrite Hc. by rewrite map_size_insert_Some by eauto.
  - rewrite <- insert_delete_eq, vectors_size_insert by apply lookup_delete_eq.
    rewrite Hz, (vectors_size_delete m id old Eo). lia.
  - rewrite Hc. by rewrite map_size_insert_None.
  - rewrite vectors_size_insert, Hz by done. lia.
Qed.

Lemma ram_remove_spec index m id v :
  represents index m -> m !! id = Some v -> map_Forall (fun _ => indexable) m ->
  exists index', ram_remove index id v = Some index' /\ represents index' (delete id m).
Proof.
  intros (Hok & Hw & Hc & Hz) Hv Hm. unfold ram_remove.
  destruct (delete_dims_spec (postings index) id (indices v) Hok) as (l & -> & H1 & H2). simpl.
  eexists. split; [done |]. split_and!; simpl; [done | | |].
  - intros dim d. rewrite H2, stored_delete, Hw. destruct (decide (d = id)) as [->|Hd].
    + case_decide as E; [done |]. unfold stored. rewrite Hv. simpl. apply find_weight_None.
      destruct (indexable_entries v (Hm _ _ Hv)) as (_ & _ & ->). tauto.
    + by rewrite decide_False by tauto.
  - rewrite Hc, map_size_delete_Some by eauto. lia.
  - rewrite Hz, (vectors_size_delete m id v Hv). lia.
Qed.

(** *** Building *)

(** A list being built: every record once, in the order added. *)
Definition bag_ok (l : PostingList) : Prop :=
  NoDup (plist_entries l).*1 /\ Forall (plain ∘ weight) l.

Lemma bag_add l id w d :
  bag_ok l -> plain w -> find_weight id (plist_entries l) = None ->
  bag_ok (PostingBuilder_add l id w) /\
  find_weight d (plist_entries (PostingBuilder_add l id w)) =
    if decide (d = id) then Some w else find_weight d (plist_entries l).
Proof.
  intros [Hn Hp] Hw Hid%find_weight_None. unfold bag_ok, PostingBuilder_add, plist_entries in *.
  rewrite fmap_app. csimpl.
  assert (Hperm : (to_element <$> l) ++ [to_element (PostingElementEx_new id w)] ≡ₚ
    (id, w) :: (to_element <$> l)) by (rewrite Permutation_app_comm; done).
  assert (Hnew : NoDup ((id, w) :: (to_element <$> l)).*1) by (csimpl; by constructor).
  split; [split |].
  - rewrite Hperm. done.
  - apply Forall_app. by split; [|constructor].
  - symmetry in Hperm. rewrite <- (find_weight_perm _ _ _ Hnew Hperm), find_weight_cons. simpl.
    apply decide_ext. split; congruence.
Qed.

Lemma posting_of_alter f l dim dim' :
  N.to_nat dim < length l ->
  posting_of (alter f (N.to_nat dim) l) dim' =
    if decide (dim' = dim) then f (posting_of l dim) else posting_of l dim'.
Proof.
  intros Hl. unfold posting_of. case_decide as E.
  - subst. rewrite list_lookup_alter_eq. by destruct (lookup_lt_is_Some_2 l _ Hl) as [p ->].
  - rewrite list_lookup_alter_ne by lia. done.
Qed.

Lemma bag_resize l len : Forall bag_ok l -> Forall bag_ok (resize l len []).
Proof.
  intros Hl. apply Forall_app. split; [by apply Forall_take |]. apply Forall_replicate.
  split; constructor.
Qed.

Lemma posting_of_bag l dim : Forall bag_ok l -> bag_ok (posting_of l dim).
Proof.
  intros Hl. unfold posting_of. destruct (l !! N.to_nat dim) as [p|] eqn:E; simpl.
  - by eapply Forall_lookup_1.
  - split; constructor.
Qed.

Lemma add_dims_spec l id es :
  Forall bag_ok l -> Forall (plain ∘ snd) es -> NoDup es.*1 ->
  (forall dim, weight_at l dim id = None) ->
  Forall bag_ok (add_dims l id es) /\
  forall dim d, weight_at (add_dims l id es) dim d =
    if decide (d = id /\ dim ∈ es.*1) then find_weight dim es else weight_at l dim d.
Proof.
  intros Hl Hp Hn Hid.
  assert (Hid' : forall dim, dim ∈ es.*1 -> weight_at l dim id = None) by auto. clear Hid.
  revert l Hl Hid'. induction Hp as [|[x w] es Hx Hp IH]; intros l Hl Hid; cbn [add_dims].
  { split; [done |]. intros dim d. rewrite decide_False; [done |]. by intros [_ ?%elem_of_nil]. }
  csimpl in *. apply NoDup_cons in Hn as [Hn1 Hn].
  set (l0 := resize l (Nat.max (N.to_nat x + 1) (length l)) []).
  assert (H0 : Forall bag_ok l0) by by apply bag_resize.
  assert (Hlen : N.to_nat x < length l0).
  { unfold l0, resize. rewrite length_app, length_take, length_replicate. lia. }
  assert (Hsame : forall dim, posting_of l0 dim = posting_of l dim).
  { intros dim. apply posting_of_resize. lia. }
  destruct (bag_add (posting_of l0 x) id w id) as [Hbag _];
    [by apply posting_of_bag | done | rewrite Hsame; apply Hid; left |].
  assert (Hstep : forall dim d, weight_at (alter (fun b => PostingBuilder_add b id w) (N.to_nat x) l0) dim d =
    if decide (d = id /\ dim = x) then Some w else weight_at l dim d).
  { intros dim d. unfold weight_at. rewrite posting_of_alter by done.
    destruct (decide (dim = x)) as [->|Hne]; [|by rewrite Hsame, decide_False by tauto].
    destruct (bag_add (posting_of l0 x) id w d) as [_ ->];
      [by apply posting_of_bag | done | rewrite Hsame; apply Hid; left |].
    rewrite Hsame. apply decide_ext. tauto. }
  destruct (IH Hn (alter (fun b => PostingBuilder_add b id w) (N.to_nat x) l0)) as [I1 I2].
  { apply Forall_alter; [done |]. intros p Hp0 _. unfold posting_of in Hbag. by rewrite Hp0 in Hbag. }
  { intros dim Hd. rewrite Hstep, decide_False; [apply Hid; by right |]. by intros [_ ->]. }
  split; [done |]. intros dim d. rewrite I2, Hstep, find_weight_cons. simpl.
  destruct (decide (d = id)) as [->|Hd]; [|by rewrite !decide_False by tauto].
  destruct (decide (x = dim)) as [->|Hne].
  - rewrite decide_False, !decide_True; [done | split; [done | left] | done |]. by intros [_ ?].
  - rewrite (decide_False (P := id = id /\ dim = x)) by (intros [_ ?]; congruence).
    apply decide_ext. rewrite elem_of_cons. naive_solver.
Qed.

(** A builder collects a map. *)
Definition collects (b : InvertedIndexBuilder) (m : VectorMap) : Prop :=
  Forall bag_ok (posting_builders b) /\
  (forall dim d, weight_at (posting_builders b) dim d = stored m dim d) /\
  b_vector_count b = size m /\ b_total_sparse_size b = vectors_size m.

Lemma builder_add_spec b m id v :
  collects b m -> indexable v -> m !! id = None ->
  collects (InvertedIndexBuilder_add b id v) (<[id := v]> m).
Proof.
  intros (Hok & Hw & Hc & Hz) Hv Hm. destruct (indexable_entries v Hv) as (Ep & En & Ei).
  destruct (add_dims_spec (posting_builders b) id (sv_entries v) Hok Ep En) as [H1 H2].
  { intros dim. rewrite Hw. unfold stored. by rewrite Hm. }
  split_and!; simpl; [done | | by rewrite Hc, map_size_insert_None |].
  - intros dim d. fold (sv_entries v). rewrite H2, Ei, stored_insert, Hw.
    destruct (decide (d = id)) as [->|Hd]; [|by rewrite decide_False by tauto].
    destruct (decide (dim ∈ indices v)) as [Hin|Hin]; [by rewrite decide_True |].
    rewrite decide_False by tauto. unfold stored. rewrite Hm. symmetry. apply find_weight_None.
    by rewrite Ei.
  - rewrite vectors_size_insert by done. lia.
Qed.

Lemma build_spec b m : collects b m -> represents (InvertedIndexBuilder_build b) m.
Proof.
  intros (Hok & Hw & Hc & Hz).
  assert (Hbuild : forall l, bag_ok l -> plist_ok (PostingBuilder_build l) /\
    plist_entries (PostingBuilder_build l) ≡ₚ plist_entries l).
  { intros l [Hn Hp]. destruct (PostingBuilder_build_spec l) as (B1 & B2 & B3).
    { unfold plist_entries in Hn. by rewrite <- list_fmap_compose in Hn. }
    split; [|done]. split_and!; [done | done |].
    assert (Hq : Forall (plain ∘ snd) (plist_entries l)) by by apply Forall_fmap.
    unfold plist_entries in Hq. rewrite <- B1, Forall_fmap in Hq. done. }
  split_and!; simpl; [| | done | done].
  - apply Forall_fmap. eapply Forall_impl; [exact Hok |]. intros l Hl. by apply Hbuild.
  - intros dim d. rewrite <- Hw. unfold weight_at, posting_of. rewrite list_lookup_fmap.
    destruct (posting_builders b !! N.to_nat dim) as [l|] eqn:El; [|done]. simpl.
    destruct (Hbuild l) as [B1 B2]; [by eapply Forall_lookup_1 |].
    apply find_weight_perm; [by apply plist_nodup | done].
Qed.

Lemma collect_all vectors b m :
  collects b m -> Forall (indexable ∘ snd) vectors -> NoDup vectors.*1 ->
  (forall id, id ∈ vectors.*1 -> m !! id = None) ->
  collects (fold_left (fun b '(id, vector) => InvertedIndexBuilder_add b id vector) vectors b)
    (list_to_map vectors ∪ m).
Proof.
  intros Hb Hv Hn Hm. revert b m Hb Hm. induction Hv as [|[id v] vectors Hv Hvs IH]; intros b m Hb Hm.
  { simpl. by rewrite (left_id_L ∅ (∪)). }
  csimpl in *. apply NoDup_cons in Hn as [Hn1 Hn]. rewrite <- insert_union_l.
  rewrite insert_union_r by by apply not_elem_of_list_to_map_1.
  apply IH; [done | apply builder_add_spec; [done | done |] |].
  - apply Hm. left.
  - intros x Hx. rewrite lookup_insert_ne; [apply Hm; by right |]. by intros ->.
Qed.

Lemma build_from_iterator_represents vectors :
  Forall (indexable ∘ snd) vectors -> NoDup vectors.*1 ->
  represents (build_from_iterator vectors) (list_to_map vectors).
Proof.
  intros Hv Hn. apply build_spec. rewrite <- (right_id_L ∅ (∪) (list_to_map vectors)).
  by apply collect_all.
Qed.

(** ** Reachable indices *)

(** An index that was built or started empty, after any updates; an update
    passes the vector the record had. *)
Inductive reachable : InvertedIndexRam -> VectorMap -> Prop :=
  | reach_empty : reachable InvertedIndexRam_empty ∅
  | reach_built vectors :
      Forall (indexable ∘ snd) vectors -> NoDup vectors.*1 ->
      reachable (build_from_iterator vectors) (list_to_map vectors)
  | reach_upsert index m id v index' :
      reachable index m -> indexable v -> ram_upsert index id v (m !! id) = Some index' ->
      reachable index' (<[id := v]> m)
  | reach_remove index m id v index' :
      reachable index m -> m !! id = Some v -> ram_remove index id v = Some index' ->
      reachable index' (delete id m).

Lemma reachable_represents index m :
  reachable index m -> represents index m /\ map_Forall (fun _ => indexable) m.
Proof.
  induction 1 as [|vectors Hv Hn|index m id v index' _ [IH1 IH2] Hv E|index m id v index' _ [IH1 IH2] Hv E].
  - split; [apply empty_represents | apply map_Forall_empty].
  - split; [by apply build_from_iterator_represents |]. intros id v Hl.
    apply elem_of_list_to_map_2 in Hl. rewrite Forall_forall in Hv. apply (Hv (id, v) Hl).
  - destruct (ram_upsert_spec index m id v IH1 Hv IH2) as (i & Ei & Hi). rewrite Ei in E.
    injection E as ->. split; [done |]. by apply map_Forall_insert_2.
  - destruct (ram_remove_spec index m id v IH1 Hv IH2) as (i & Ei & Hi). rewrite Ei in E.
    injection E as ->. split; [done |]. by apply map_Forall_delete.
Qed.

(** [C10] The inverted index in memory implements a map from records to
    sparse vectors.  Whatever updates led to it, the posting list of every
    dimension is sorted by record, holds exactly the weights of the vectors
    in the map, and every element carries the exact maximum of the weights
    behind it; the counters are the number of vectors and their total size;
    and neither a further upsert nor the removal of a stored vector panics. *)
Theorem ram_index_represents index m :
  reachable index m ->
  represents index m /\
  (forall id v, indexable v -> exists index', ram_upsert index id v (m !! id) = Some index') /\
  (forall id v, m !! id = Some v -> exists index', ram_remove index id v = Some index').
Proof.
  intros [Hr Hm]%reachable_represents. split; [done |]. split.
  - intros id v Hv. destruct (ram_upsert_spec index m id v Hr Hv Hm) as (i & ? & _). eauto.
  - intros id v Hv. destruct (ram_remove_spec index m id v Hr Hv Hm) as (i & ? & _). eauto.
Qed.

(** Sorted lists with the same weights are equal. *)
Lemma sorted_ext (l l' : list PostingElement) :
  StronglySorted by_record l -> StronglySorted by_record l' ->
  (forall d, find_weight d l = find_weight d l') -> l = l'.
Proof.
  intros Hs. revert l'. induction Hs as [|e l Hs IH He]; intros [|e' l'] Hs' Hw; [done | | |].
  - specialize (Hw e'.1). by rewrite find_weight_cons, decide_True in Hw by done.
  - specialize (Hw e.1). by rewrite find_weight_cons, decide_True in Hw by done.
  - assert (Hle : forall a x b y, StronglySorted by_record (a :: x) -> StronglySorted by_record (b :: y) ->
      (forall d, find_weight d (a :: x) = find_weight d (b :: y)) -> ~ (a.1 < b.1)%N).
    { intros a x b y _ Hb Hab Hlt. specialize (Hab a.1).
      rewrite (find_weight_below _ _ _ Hb Hlt) in Hab. by rewrite find_weight_cons, decide_True in Hab by done. }
    assert (Hfull : StronglySorted by_record (e :: l)) by by constructor.
    pose proof (Hle _ _ _ _ Hfull Hs' Hw) as H1.
    pose proof (Hle _ _ _ _ Hs' Hfull (fun d => eq_sym (Hw d))) as H2.
    assert (E1 : e.1 = e'.1) by lia.
    assert (E2 : e.2 = e'.2).
    { specialize (Hw e.1). rewrite !find_weight_cons, !decide_True in Hw by done. congruence. }
    rewrite (surjective_pairing e), (surjective_pairing e'), E1, E2. f_equal.
    apply by_record_cons in Hs' as [Hs' He']. apply IH; [done |]. intros d.
    specialize (Hw d). rewrite !find_weight_cons, E1, E2 in Hw.
    destruct (decide (e'.1 = d)) as [<-|]; [|done].
    rewrite !find_weight_absent; [done | |]; intros (x & Ex & Hx)%list_elem_of_fmap.
    + rewrite Forall_forall in He'. specialize (He' x Hx). unfold by_record in He'. lia.
    + rewrite Forall_forall in He. specialize (He x Hx). unfold by_record in He. lia.
Qed.

Lemma next_exact_ext l l' :
  plist_entries l = plist_entries l' -> next_exact l -> next_exact l' -> l = l'.
Proof.
  revert l'. induction l as [|e l IH]; intros [|e' l']; csimpl; try done.
  intros [= E1 E2 E] [Hm Hn] [Hm' Hn']. rewrite (max_weight_entries l l' E) in Hm.
  f_equal; [|by apply IH]. destruct e, e'. simpl in *. congruence.
Qed.

Lemma represents_unique index index' m dim :
  represents index m -> represents index' m ->
  posting_of (postings index) dim = posting_of (postings index') dim.
Proof.
  intros (Hok & Hw & _) (Hok' & Hw' & _).
  assert (Hp : forall l, Forall plist_ok l -> plist_ok (posting_of l dim)).
  { intros l Hl. unfold posting_of. destruct (l !! N.to_nat dim) eqn:E; simpl.
    - by eapply Forall_lookup_1.
    - split_and!; constructor. }
  destruct (Hp _ Hok) as (H1 & H2 & _), (Hp _ Hok') as (H1' & H2' & _).
  apply next_exact_ext; [|done..]. apply sorted_ext; [done..|]. intros d.
  pose proof (Hw dim d) as Hd. rewrite <- Hw' in Hd. done.
Qed.

(** [C11] An updated index is a rebuilt one: two indices reached by any
    updates, or built, from the same vectors hold the same posting lists,
    element for element with the maxima behind them, and the same counters. *)
Theorem updates_equal_rebuild index index' m :
  reachable index m -> reachable index' m ->
  (forall dim, posting_of (postings index) dim = posting_of (postings index') dim) /\
  vector_count index = vector_count index' /\ total_sparse_size index = total_sparse_size index'.
Proof.
  intros [H1 _]%reachable_represents [H2 _]%reachable_represents.
  split; [intros dim; by eapply represents_unique |].
  destruct H1 as (_ & _ & -> & ->), H2 as (_ & _ & -> & ->). done.
Qed.

(** ** Examples *)

#[export] Instance indexable_dec v : Decision (indexable v).
Proof. unfold indexable, sv_ok. apply _. Defined.

Lemma reach_upserted index m id v :
  reachable index m -> bool_decide (indexable v) = true ->
  bool_decide (is_Some (ram_upsert index id v (m !! id))) = true ->
  reachable (default InvertedIndexRam_empty (ram_upsert index id v (m !! id))) (<[id := v]> m).
Proof.
  intros Hr Hv%bool_decide_eq_true [i Hi]%bool_decide_eq_true.
  eapply reach_upsert; [done | done |]. by rewrite Hi.
Qed.

Lemma reach_removed index m id v :
  reachable index m -> m !! id = Some v -> bool_decide (is_Some (ram_remove index id v)) = true ->
  reachable (default InvertedIndexRam_empty (ram_remove index id v)) (delete id m).
Proof.
  intros Hr Hv [i Hi]%bool_decide_eq_true. eapply reach_remove; [done | done |]. by rewrite Hi.
Qed.

Definition vector_c : SparseVector := vector [(9, 6%Z); (3, 2%Z)]%N.

(** Two vectors, one of them rewritten, one record added and removed. *)
Definition first_map : VectorMap := <[4%N := vector_b]> (<[7%N := vector_a]> ∅).
Definition final_map : VectorMap := delete 5%N (<[5%N := vector_a]> (<[7%N := vector_c]> first_map)).

Definition upsert_or (index : InvertedIndexRam) (m : VectorMap) (id : N) (v : SparseVector)
    : InvertedIndexRam := default InvertedIndexRam_empty (ram_upsert index id v (m !! id)).

Definition first_index : InvertedIndexRam :=
  upsert_or (upsert_or InvertedIndexRam_empty ∅ 7 vector_a) (<[7%N := vector_a]> ∅) 4 vector_b.

Definition updated_index : InvertedIndexRam :=
  default InvertedIndexRam_empty
    (ram_remove (upsert_or (upsert_or first_index first_map 7 vector_c)
       (<[7%N := vector_c]> first_map) 5 vector_a) 5 vector_a).

Lemma updated_index_reachable : reachable updated_index final_map.
Proof.
  refine (reach_removed (upsert_or (upsert_or first_index first_map 7 vector_c)
       (<[7%N := vector_c]> first_map) 5 vector_a) _ 5 vector_a _ _ _);
    [|vm_compute; reflexivity..].
  refine (reach_upserted (upsert_or first_index first_map 7 vector_c) _ 5 vector_a _ _ _);
    [|vm_compute; reflexivity..].
  refine (reach_upserted first_index _ 7 vector_c _ _ _); [|vm_compute; reflexivity..].
  refine (reach_upserted (upsert_or InvertedIndexRam_empty ∅ 7 vector_a) _ 4 vector_b _ _ _);
    [|vm_compute; reflexivity..].
  refine (reach_upserted InvertedIndexRam_empty _ 7 vector_a _ _ _); [|vm_compute; reflexivity..].
  constructor.
Qed.

Lemma ram_index_represents_witness :
  reachable updated_index final_map /\ represents updated_index final_map /\
  weight_at (postings updated_index) 9 7 = Some (of_Z binary32 6) /\
  weight_at (postings updated_index) 9 5 = None /\ vector_count updated_index = 2.
Proof.
  split; [exact updated_index_reachable |].
  split; [apply (ram_index_represents updated_index final_map updated_index_reachable) |].
  split_and!; vm_compute; reflexivity.
Defined.

Definition rebuilt_index : InvertedIndexRam :=
  build_from_iterator [(4, vector_b); (7, vector_c)]%N.

Lemma rebuilt_reachable : reachable rebuilt_index final_map.
Proof.
  assert (E : final_map = list_to_map [(4, vector_b); (7, vector_c)]%N) by (vm_compute; reflexivity).
  rewrite E. apply reach_built; [|apply (bool_decide_unpack _); vm_compute; exact Logic.I].
  apply Forall_cons; split; [|apply Forall_singleton]; unfold compose; simpl;
    apply (bool_decide_unpack _); vm_compute; exact Logic.I.
Qed.

Lemma updates_equal_rebuild_witness :
  reachable updated_index final_map /\ reachable rebuilt_index final_map /\
  posting_of (postings updated_index) 9 = posting_of (postings rebuilt_index) 9 /\
  posting_of (postings updated_index) 9 =
    [mkPostingElementEx 4 (of_Z binary32 7) (of_Z binary32 6);
     mkPostingElementEx 7 (of_Z binary32 6) (Inf true)]%N.
Proof.
  split; [exact updated_index_reachable |]. split; [exact rebuilt_reachable |].
  destruct (updates_equal_rebuild updated_index rebuilt_index final_map updated_index_reachable
    rebuilt_reachable) as [H _].
  split; [apply H |]. vm_compute. reflexivity.
Defined.
