(* ===== verification/BlockMax.v ===== *)
(** * Exact sparse ranking by block maxima

    lib/sparse/src/index/posting_block_max/{mod,kernel,telemetry}.rs.  The
    records of the query's postings are cut into batches of consecutive
    identifiers, each with an upper bound for the scores in it.  A heap hands
    out the batches by bound; the batch with the best bound is scored when no
    scored record is certain to come first.

    The file proves that the ranking is exact for non-negative weights: the
    records with a score, by descending score, ties by offset, in pieces that
    end where the bounds stop being decisive. *)

From S2P Require Import Prelude Float Order PointId RrfScoring RrfState RrfSession RrfExact.
From S2P Require Import RankStream ShardStream DenseRank Postings SparseVectors.

Open Scope result_scope.

(** ** Data *)

(** The counters of [PostingBlockMaxTelemetry] that the code changes, apart
    from the capacities of its buffers, which are the allocator's. *)
Inductive Counter : Type :=
  | QueryTerms | QueryPostingElements | PostingLists | Batches | BoundEvaluations
  | ZeroBoundBatches | BatchesExpanded | PostingElementsVisited | NonzeroDocumentsScored
  | PointsEmitted | MaxPendingBatches | MaxPendingPoints | MaxBufferedPoints | ScoreBufferSlots
  | MaxScoreBufferSlots | PauseCount.

#[export] Instance Counter_eq_dec : EqDecision Counter.
Proof. solve_decision. Defined.

Definition PostingBlockMaxTelemetry : Type := Counter -> nat.

Definition set_to (c : Counter) (n : nat) (t : PostingBlockMaxTelemetry) : PostingBlockMaxTelemetry :=
  fun c' => if decide (c' = c) then n else t c'.

Definition count (c : Counter) (n : nat) (t : PostingBlockMaxTelemetry) : PostingBlockMaxTelemetry :=
  set_to c (t c + n) t.

Definition raise (c : Counter) (n : nat) (t : PostingBlockMaxTelemetry) : PostingBlockMaxTelemetry :=
  set_to c (Nat.max (t c) n) t.

Record PendingBatch : Type := mkPendingBatch {
  b_start : N;
  b_end : N;
  upper_bound : float;
}.

Definition batch_cmp (a b : PendingBatch) : comparison :=
  then_with (ordered_cmp (upper_bound a) (upper_bound b)) (N.compare (b_start b) (b_start a)).

(** [PendingPoint] of the ranking: the best point of an active batch. *)
Record SparsePoint : Type := mkSparsePoint {
  pp_point : ScoredPointOffset;
  batch_index : nat;
}.

Definition sparse_point_cmp (a b : SparsePoint) : comparison := exact_cmp (pp_point a) (pp_point b).

Inductive ExactSparseStreamError : Type :=
  | SparseCancelled
  | ReaderFailure (error : OperationError)
  | CertificateViolation (point : N) (score upper_bound : float).

(** What a call does: it returns, or fails, or panics (an assertion, an index
    out of bounds), or the fuel of a loop ends. *)
Inductive sparse_run (A : Type) : Type :=
  | Done (a : A)
  | Failed (e : ExactSparseStreamError)
  | Crashed
  | Exhausted.

Arguments Done {A} a.
Arguments Failed {A} e.
Arguments Crashed {A}.
Arguments Exhausted {A}.

(** [PostingBlockMaxState] with its kernel; the kernel's score buffer is
    scratch memory of one call.  [bm_loads] counts the loads of the
    cancellation flag. *)
Record PostingBlockMaxState : Type := mkPostingBlockMaxState {
  bm_query : list (N * float);
  active_batches : list (list ScoredPointOffset);
  pending_batches : list PendingBatch;
  pending_points : list SparsePoint;
  buffered_points : nat;
  bm_telemetry : PostingBlockMaxTelemetry;
  bm_terminal_error : option ExactSparseStreamError;
  bm_loads : nat;
}.

Definition U32_MAX : N := 2 ^ 32 - 1.

Definition min_id (ids : list N) : option N :=
  match ids with [] => None | i :: ids => Some (fold_left N.min ids i) end.

Definition max_id (ids : list N) : option N :=
  match ids with [] => None | i :: ids => Some (fold_left N.max ids i) end.

(** ** Planning *)

Section Plan.
Context {I : Type} `{PostingListIter I}.
Implicit Types (postings : list (I * float)) (t : PostingBlockMaxTelemetry).

(** Peeking at every cursor. *)
Definition peek_all postings : list (I * float) := prod_map (fun it => (peek it).1) id <$> postings.

Definition peeked_ids postings : list N :=
  omap (fun posting => record_id <$> (peek posting.1).2) postings.

Definition last_ids postings : list N := omap (fun posting => last_id posting.1) postings.

(** The bound of the records up to [end_], and the cursors after it. *)
Fixpoint bound_till (end_ : N) postings (ub : float) : list (I * float) * float :=
  match postings with
  | [] => ([], ub)
  | (it, query_weight) :: postings =>
      let '(it, max_weight) := max_weight_till_id it end_ in
      let '(postings, ub) :=
        bound_till end_ postings
          (match max_weight with Some m => (ub + m * query_weight)%f32 | None => ub end) in
      ((it, query_weight) :: postings, ub)
  end.

Definition skip_all (end_ : N) postings : list (I * float) :=
  prod_map (fun it => skip_till_id it end_) id <$> postings.

Fixpoint plan_loop (fuel : nat) (batch_width last start : N) postings t
    (batches : list PendingBatch) : option (list PendingBatch * PostingBlockMaxTelemetry) :=
  match fuel with
  | 0 => None
  | S fuel =>
      let end_ := N.min (N.min (start + (batch_width - 1)) U32_MAX) last in
      let '(postings, ub) := bound_till end_ postings fzero in
      let t := count BoundEvaluations (length postings) (count Batches 1 t) in
      let '(batches, t) :=
        if flt fzero ub then
          (batches ++ [{| b_start := start; b_end := end_; upper_bound := ub |}], t)
        else (batches, count ZeroBoundBatches 1 t) in
      let postings := skip_all end_ postings in
      if (end_ =? last)%N then Some (batches, t)
      else plan_loop fuel batch_width last (end_ + 1) postings t batches
  end.

(** The number of ranges of [batch_width] records. *)
Definition range_count (batch_width first last : N) : nat :=
  N.to_nat ((last - first) / batch_width + 1).

(** [plan_batches]; [range_count] iterations are enough. *)
Definition plan_batches postings (batch_width : N) t
    : option (list PendingBatch * PostingBlockMaxTelemetry) :=
  match min_id (peeked_ids postings), max_id (last_ids (peek_all postings)) with
  | Some start, Some last =>
      plan_loop (range_count batch_width start last) batch_width last start (peek_all postings) t []
  | _, _ => Some ([], t)
  end.

(** The loop over the postings of [plan_batches_native]: [None] when a
    representation has no block maxima. *)
Fixpoint fill_bounds (first batch_width : N) postings (term_maxima bounds : list float)
    : option (list float) :=
  match postings with
  | [] => Some bounds
  | (it, query_weight) :: postings =>
      maxima ← fill_block_max_ranges it first batch_width term_maxima;
      fill_bounds first batch_width postings maxima
        (zip_with (fun bound maximum => (bound + maximum * query_weight)%f32) bounds maxima)
  end.

Definition native_batch (first last batch_width : N) (range : nat) (ub : float) : PendingBatch :=
  let start := (first + N.of_nat range * batch_width)%N in
  {| b_start := start; b_end := N.min (N.min (start + (batch_width - 1)) U32_MAX) last;
     upper_bound := ub |}.

Definition native_batches (first last batch_width : N) (bounds : list float) : list PendingBatch :=
  omap (fun '(range, ub) =>
          if feq ub fzero then None else Some (native_batch first last batch_width range ub))
    (imap pair bounds).

Definition plan_batches_native postings (batch_width : N) t
    : option (list PendingBatch * PostingBlockMaxTelemetry) :=
  match min_id (peeked_ids postings), max_id (last_ids postings) with
  | Some first, Some last =>
      let ranges := range_count batch_width first last in
      bounds ← fill_bounds first batch_width postings (replicate ranges fzero)
                 (replicate ranges fzero);
      Some (native_batches first last batch_width bounds,
            count ZeroBoundBatches (length (filter (fun ub => feq ub fzero = true) bounds))
              (count BoundEvaluations (ranges * length postings) (count Batches ranges t)))
  | _, _ => Some ([], t)
  end.
End Plan.

(** ** The ranking *)

Section Rank.
Context {I : Type} `{PostingListIter I}.

(** The inverted index: the cursor of a dimension, or a read error. *)
Context (get : N -> OperationResult I).

(** What each load of the cancellation flag sees. *)
Context (stopped_at : nat -> bool).

Fixpoint open_postings (query : list (N * float)) : OperationResult (list (I * float)) :=
  match query with
  | [] => Ok []
  | (id, query_weight) :: query =>
      let? iterator := get id in
      let? postings := open_postings query in
      Ok (match last_id iterator with
          | Some _ => (iterator, query_weight) :: postings
          | None => postings
          end)
  end.

Definition zero_telemetry : PostingBlockMaxTelemetry := fun _ => 0.

(** [PostingBlockMaxKernel::new]: the plan of the batches.  [Panicked] is the
    conversion of a batch size above [u32::MAX]. *)
Definition kernel_new (query : list (N * float)) (batch_size : N) (t : PostingBlockMaxTelemetry)
    : outcome (list PendingBatch * PostingBlockMaxTelemetry) :=
  match open_postings query with
  | Err e => Returned (Err e)
  | Ok postings =>
      let t := set_to PostingLists (length postings)
        (set_to QueryPostingElements
           (sum_list ((fun posting => len_to_end posting.1) <$> postings)) t) in
      if (U32_MAX <? batch_size)%N then Panicked
      else
        match (match plan_batches_native postings batch_size t with
               | Some planned => Some planned
               | None => plan_batches postings batch_size t
               end) with
        | Some (batches, t) => Returned (Ok (batches, set_to MaxPendingBatches (length batches) t))
        | None => OutOfFuel
        end
  end.

(** [PostingBlockMaxState::new], with its assertions. *)
Definition PostingBlockMaxState_new (query : list (N * float)) (batch_size : N)
    : outcome PostingBlockMaxState :=
  if (batch_size =? 0)%N then Panicked
  else if negb (is_sorted query.*1
           && forallb (fun w => is_finite w && fle fzero w) query.*2) then Panicked
  else
    match kernel_new query batch_size (set_to QueryTerms (length query) zero_telemetry) with
    | Returned (Ok (batches, t)) =>
        Returned (Ok
          {| bm_query := query; active_batches := []; pending_batches := batches;
             pending_points := []; buffered_points := 0; bm_telemetry := t;
             bm_terminal_error := None; bm_loads := 0 |})
    | Returned (Err e) => Returned (Err e)
    | Panicked => Panicked
    | OutOfFuel => OutOfFuel
    end.

Definition next_point_is_fixed (s : PostingBlockMaxState) : bool :=
  match heap_peek sparse_point_cmp (pending_points s) with
  | None => false
  | Some point =>
      match heap_peek batch_cmp (pending_batches s) with
      | None => true
      | Some batch =>
          flt (upper_bound batch) (score (pp_point point))
          || feq (score (pp_point point)) (upper_bound batch)
             && (idx (pp_point point) <? b_start batch)%N
      end
  end.

Definition with_points (s : PostingBlockMaxState) (active : list (list ScoredPointOffset))
    (points : list SparsePoint) (buffered : nat) (t : PostingBlockMaxTelemetry)
    : PostingBlockMaxState :=
  {| bm_query := bm_query s; active_batches := active; pending_batches := pending_batches s;
     pending_points := points; buffered_points := buffered; bm_telemetry := t;
     bm_terminal_error := bm_terminal_error s; bm_loads := bm_loads s |}.

(** [pop_next_point] with [kernel.pop_active]. *)
Definition pop_next_point (s : PostingBlockMaxState)
    : sparse_run (option (ScoredPointOffset * PostingBlockMaxState)) :=
  match heap_pop sparse_point_cmp (pending_points s) with
  | None => Done None
  | Some (pending, points) =>
      match buffered_points s, active_batches s !! batch_index pending with
      | S buffered, Some batch =>
          let '(active, points) :=
            match heap_pop exact_cmp batch with
            | None => (active_batches s, points)
            | Some (point, batch) =>
                (<[batch_index pending := batch]> (active_batches s),
                 heap_push {| pp_point := point; batch_index := batch_index pending |} points)
            end in
          Done (Some (pp_point pending,
            with_points s active points buffered (count PointsEmitted 1 (bm_telemetry s))))
      | _, _ => Crashed
      end
  end.

Definition finish_batch (s : PostingBlockMaxState) (points : list ScoredPointOffset)
    : PostingBlockMaxState :=
  if negb (bool_decide (points = []))
     && (negb (bool_decide (pending_batches s = [])) || negb (bool_decide (pending_points s = [])))
  then with_points s (active_batches s) (pending_points s) (buffered_points s)
         (count PauseCount 1 (bm_telemetry s))
  else s.

(** *** Expanding a batch *)

Fixpoint collect_scored_points (load : nat) (start : N) (ub : float) (offset : nat)
    (scores : list float) (t : PostingBlockMaxTelemetry) (points : list ScoredPointOffset)
    : nat * PostingBlockMaxTelemetry * sparse_run (list ScoredPointOffset) :=
  match scores with
  | [] => (load, t, Done points)
  | score :: scores =>
      if stopped_at load then (S load, t, Failed SparseCancelled)
      else if feq score fzero then
        collect_scored_points (S load) start ub (S offset) scores t points
      else
        let id := (start + N.of_nat offset)%N in
        if flt ub score then (S load, t, Failed (CertificateViolation id score ub))
        else
          collect_scored_points (S load) start ub (S offset) scores
            (count NonzeroDocumentsScored 1 t) (points ++ [{| idx := id; score := score |}])
  end.

(** [kernel.expand]: the best point of the batch and the number of its points. *)
Definition expand (s : PostingBlockMaxState) (batch : PendingBatch)
    : PostingBlockMaxState * sparse_run (option (SparsePoint * nat)) :=
  let load := bm_loads s in
  let with_ s active loads t :=
    {| bm_query := bm_query s; active_batches := active; pending_batches := pending_batches s;
       pending_points := pending_points s; buffered_points := buffered_points s;
       bm_telemetry := t; bm_terminal_error := bm_terminal_error s; bm_loads := loads |} in
  if stopped_at load then
    (with_ s (active_batches s) (S load) (bm_telemetry s), Failed SparseCancelled)
  else
    let t := count BatchesExpanded 1 (bm_telemetry s) in
    let batch_len := N.to_nat ((b_end batch - b_start batch + 1) `mod` 2 ^ 32) in
    match open_postings (bm_query s) with
    | Err e => (with_ s (active_batches s) (S load) t, Failed (ReaderFailure e))
    | Ok postings =>
        let '(scores, visited) := score_posting_batch postings (b_start batch) (b_end batch) in
        let t := raise MaxScoreBufferSlots batch_len
          (count ScoreBufferSlots batch_len (count PostingElementsVisited visited t)) in
        match scores with
        | None => (with_ s (active_batches s) (S load) t, Crashed)
        | Some scores =>
            let '(load, t, points) :=
              collect_scored_points (S load) (b_start batch) (upper_bound batch) 0 scores t [] in
            match points with
            | Done points =>
                match heap_pop exact_cmp points with
                | None => (with_ s (active_batches s) load t, Done None)
                | Some (point, points) =>
                    (with_ s (active_batches s ++ [points]) load t,
                     Done (Some ({| pp_point := point; batch_index := length (active_batches s) |},
                                 length points + 1)))
                end
            | Failed e => (with_ s (active_batches s) load t, Failed e)
            | Crashed => (with_ s (active_batches s) load t, Crashed)
            | Exhausted => (with_ s (active_batches s) load t, Exhausted)
            end
        end
    end.

(** *** Batches of results *)

Definition without_batch (s : PostingBlockMaxState) (batches : list PendingBatch)
    : PostingBlockMaxState :=
  {| bm_query := bm_query s; active_batches := active_batches s; pending_batches := batches;
     pending_points := pending_points s; buffered_points := buffered_points s;
     bm_telemetry := bm_telemetry s; bm_terminal_error := bm_terminal_error s;
     bm_loads := bm_loads s |}.

(** A point enters the ranking. *)
Definition buffer_point (s : PostingBlockMaxState) (point : SparsePoint) (buffered : nat)
    : PostingBlockMaxState :=
  let points := heap_push point (pending_points s) in
  let buffered := buffered_points s + buffered in
  with_points s (active_batches s) points buffered
    (raise MaxBufferedPoints buffered (raise MaxPendingPoints (length points) (bm_telemetry s))).

(** A failure ends the session. *)
Definition sparse_fail (s : PostingBlockMaxState) (e : ExactSparseStreamError)
    : PostingBlockMaxState :=
  {| bm_query := bm_query s; active_batches := []; pending_batches := []; pending_points := [];
     buffered_points := 0; bm_telemetry := bm_telemetry s; bm_terminal_error := Some e;
     bm_loads := bm_loads s |}.

(** The points left when no batch is pending, [n] of them at most. *)
Fixpoint drain_points (n : nat) (s : PostingBlockMaxState) (points : list ScoredPointOffset)
    : PostingBlockMaxState * sparse_run (list ScoredPointOffset) :=
  match n with
  | 0 => (s, Done points)
  | S n =>
      match pop_next_point s with
      | Done None => (s, Done points)
      | Done (Some (point, s)) => drain_points n s (points ++ [point])
      | Failed e => (s, Failed e)
      | Crashed => (s, Crashed)
      | Exhausted => (s, Exhausted)
      end
  end.

Definition finish (r : PostingBlockMaxState * sparse_run (list ScoredPointOffset))
    : PostingBlockMaxState * sparse_run (list ScoredPointOffset) :=
  match r with
  | (s, Done points) => (finish_batch s points, Done points)
  | _ => r
  end.

Fixpoint sparse_batch_loop (fuel max_results : nat) (s : PostingBlockMaxState)
    (points : list ScoredPointOffset)
    : PostingBlockMaxState * sparse_run (list ScoredPointOffset) :=
  match fuel with
  | 0 => (s, Exhausted)
  | S fuel =>
      if next_point_is_fixed s then
        match pop_next_point s with
        | Done (Some (point, s)) =>
            let points := points ++ [point] in
            if length points =? max_results then finish (s, Done points)
            else sparse_batch_loop fuel max_results s points
        | Failed e => (s, Failed e)
        | Exhausted => (s, Exhausted)
        | _ => (s, Crashed)
        end
      else
        match heap_pop batch_cmp (pending_batches s) with
        | None => finish (drain_points (max_results - length points) s points)
        | Some (batch, batches) =>
            if negb (bool_decide (points = [])) then finish (s, Done points)
            else
              match expand (without_batch s batches) batch with
              | (s, Done (Some (point, buffered))) =>
                  sparse_batch_loop fuel max_results (buffer_point s point buffered) points
              | (s, Done None) => sparse_batch_loop fuel max_results s points
              | (s, Failed e) => (sparse_fail s e, Failed e)
              | (s, Crashed) => (s, Crashed)
              | (s, Exhausted) => (s, Exhausted)
              end
        end
  end.

(** [next_batch_with]; every iteration emits a point, takes a batch or is the
    last. *)
Definition sparse_next_batch (s : PostingBlockMaxState) (max_results : nat)
    : PostingBlockMaxState * sparse_run (list ScoredPointOffset) :=
  if max_results =? 0 then (s, Crashed)
  else
    match bm_terminal_error s with
    | Some e => (s, Failed e)
    | None =>
        let load := bm_loads s in
        let s := {| bm_query := bm_query s; active_batches := active_batches s;
                    pending_batches := pending_batches s; pending_points := pending_points s;
                    buffered_points := buffered_points s; bm_telemetry := bm_telemetry s;
                    bm_terminal_error := None; bm_loads := S load |} in
        if stopped_at load then
          ({| bm_query := bm_query s; active_batches := active_batches s;
              pending_batches := pending_batches s; pending_points := pending_points s;
              buffered_points := buffered_points s; bm_telemetry := bm_telemetry s;
              bm_terminal_error := Some SparseCancelled; bm_loads := S load |},
           Failed SparseCancelled)
        else sparse_batch_loop (S (max_results + length (pending_batches s))) max_results s []
    end.
End Rank.

(** ** Bounds *)

(** Postings as the ranking needs them: sorted, with non-negative weights. *)
Definition term_ok (term : list PostingElement * float) : Prop :=
  StronglySorted by_record term.1 /\ Forall (fun e => impact binary32 e.2) term.1 /\
  impact binary32 term.2.

Definition add_bound (ub : float) (bound : float * float) : float := (ub + bound.1 * bound.2)%f32.

(** A maximum for the weight of a record. *)
Definition dominates (d : N) (m : float) (term : list PostingElement * float) : Prop :=
  impact binary32 m /\ forall w, find_weight d term.1 = Some w -> score_le w m.

Lemma find_weight_impact d w term :
  term_ok term -> find_weight d term.1 = Some w -> impact binary32 w.
Proof.
  intros (_ & Hi & _) Hw%find_weight_Some. rewrite Forall_forall in Hi. by apply (Hi (d, w)).
Qed.

Lemma score_ok_addend acc t : score_ok acc -> addend binary32 t -> score_ok (acc + t)%f32.
Proof.
  intros [Wa Na] Ht. split; [apply (fadd_wf binary32); [done | apply Ht] |].
  by apply (fadd_addend binary32).
Qed.

(** The same sum with larger weights, in the same order, is not smaller:
    rounding is monotone. *)
Lemma bound_dominates d terms ms acc ub :
  score_ok acc -> score_ok ub -> score_le acc ub ->
  Forall term_ok terms -> Forall2 (dominates d) ms terms ->
  score_ok (fold_left (add_term d) terms acc) /\
  score_ok (fold_left add_bound (zip ms terms.*2) ub) /\
  score_le (fold_left (add_term d) terms acc) (fold_left add_bound (zip ms terms.*2) ub).
Proof.
  intros Ha Hu Hle Ht Hd. revert acc ub Ha Hu Hle.
  induction Hd as [|m [l q] ms terms [Hm Hw] Hd IH]; intros acc ub Ha Hu Hle; csimpl; [done |].
  apply Forall_cons in Ht as [Hl Ht]. pose proof Hl as (_ & _ & Hq). simpl in Hq.
  assert (Hb : addend binary32 (m * q)%f32) by (by apply (fmul_addend binary32)).
  assert (Ho : score_ok (ub + m * q)%f32) by (by apply score_ok_addend).
  unfold add_term at 2 4. cbn [fst snd]. unfold add_bound at 2 4. cbn [fst snd].
  destruct (find_weight d l) as [w|] eqn:Ew.
  - pose proof (find_weight_impact d w (l, q) Hl Ew) as Hi.
    assert (Hp : addend binary32 (w * q)%f32) by (by apply (fmul_addend binary32)).
    apply IH; [done | by apply score_ok_addend | done |].
    destruct Ha, Hu. apply (fadd_addend_mono binary32); try done.
    apply (fmul_mono_l binary32); [done | done | done |]. by apply Hw.
  - apply IH; [done | done | done |]. etransitivity; [exact Hle |].
    destruct Hu as [Wu Nu]. unfold score_le.
    rewrite <- (fadd_zero_r binary32 ub) at 1 by done.
    apply (fadd_addend_mono binary32); try done.
    + apply (impact_addend binary32), impact_zero.
    + by apply (addend_rank binary32).
Qed.

Lemma doc_score_ok terms d : Forall term_ok terms -> score_ok (doc_score terms d).
Proof.
  intros Ht. unfold doc_score. generalize score_ok_zero. generalize fzero.
  induction Ht as [|[l q] terms Hl Ht IH]; intros acc Ha; simpl; [done |]. apply IH.
  unfold add_term. simpl. destruct (find_weight d l) as [w|] eqn:Ew; [|done].
  apply score_ok_addend; [done |]. apply (fmul_addend binary32); [|apply Hl].
  by apply (find_weight_impact d w (l, q)).
Qed.

(** [feq x 0] of a score. *)
Lemma score_zero x : score_ok x -> feq x fzero = (rank binary32 x =? 0)%Z.
Proof.
  intros [Wx Nx]. rewrite (feq_rank binary32); [done | done | apply (wf_zero binary32) | done | done].
Qed.

Lemma score_positive x : score_ok x -> flt fzero x = negb (rank binary32 x =? 0)%Z.
Proof.
  intros [Wx Nx]. rewrite (flt_rank binary32); [| apply (wf_zero binary32) | done | done | done].
  pose proof (nonneg_rank binary32 x Nx). simpl.
  destruct (Z.ltb_spec 0 (rank binary32 x)), (Z.eqb_spec (rank binary32 x) 0); simpl; lia.
Qed.

(** ** Plans *)

Definition nonzero terms (d : N) : Prop := feq (doc_score terms d) fzero = false.

#[export] Instance nonzero_dec terms d : Decision (nonzero terms d).
Proof. unfold nonzero. apply _. Defined.

Definition in_batch (b : PendingBatch) (d : N) : Prop := (b_start b <= d <= b_end b)%N.

(** A batch whose length fits [u32] and whose bound holds. *)
Definition batch_ok terms (b : PendingBatch) : Prop :=
  (b_start b <= b_end b /\ b_end b - b_start b + 1 < 2 ^ 32)%N /\ score_ok (upper_bound b) /\
  forall d, in_batch b d -> score_le (doc_score terms d) (upper_bound b).

Definition before_batch (a b : PendingBatch) : Prop := (b_end a < b_start b)%N.

(** Batches that do not overlap and miss no record with a score. *)
Record plan_ok terms (batches : list PendingBatch) : Prop := {
  po_bounds : Forall (batch_ok terms) batches;
  po_disjoint : StronglySorted before_batch batches;
  po_cover : forall d, nonzero terms d -> exists b, b ∈ batches /\ in_batch b d;
}.

Lemma nonzero_rank terms d :
  Forall term_ok terms -> nonzero terms d <-> rank binary32 (doc_score terms d) <> 0%Z.
Proof.
  intros Ht. unfold nonzero. rewrite score_zero by by apply doc_score_ok.
  destruct (Z.eqb_spec (rank binary32 (doc_score terms d)) 0); split; (done || lia).
Qed.

(** A record with a score is in a posting list. *)
Lemma nonzero_posted terms d :
  nonzero terms d -> exists term, term ∈ terms /\ d ∈ term.1.*1.
Proof.
  intros Hd. destruct (decide (Exists (fun term => d ∈ term.1.*1) terms)) as [He|He].
  { apply Exists_exists in He. done. }
  exfalso. apply not_Exists_Forall in He; [|apply _]. unfold nonzero, doc_score in Hd.
  assert (E : forall acc, fold_left (add_term d) terms acc = acc).
  { clear Hd. induction He as [|term terms Hd He IH]; intros acc; simpl; [done |].
    rewrite IH. unfold add_term. by rewrite find_weight_absent. }
  by rewrite E in Hd.
Qed.

Lemma min_id_spec ids m : min_id ids = Some m -> m ∈ ids /\ forall i, i ∈ ids -> (m <= i)%N.
Proof.
  destruct ids as [|i ids]; [done |]. simpl. intros [= <-].
  revert i. induction ids as [|j ids IH]; intros i; simpl.
  { split; [left |]. intros k ->%list_elem_of_singleton. lia. }
  destruct (IH (N.min i j)) as [H1 H2]. split.
  - apply elem_of_cons in H1 as [->|?]; [|set_solver].
    destruct (N.min_dec i j) as [->| ->]; set_solver.
  - intros k Hk. rewrite !elem_of_cons in Hk.
    destruct Hk as [->|[->|Hk]]; [|apply N.le_trans with (N.min i j); [apply H2; left | lia]|].
    + apply N.le_trans with (N.min i j); [apply H2; left | lia].
    + apply H2. by right.
Qed.

Lemma max_id_spec ids m : max_id ids = Some m -> m ∈ ids /\ forall i, i ∈ ids -> (i <= m)%N.
Proof.
  destruct ids as [|i ids]; [done |]. simpl. intros [= <-].
  revert i. induction ids as [|j ids IH]; intros i; simpl.
  { split; [left |]. intros k ->%list_elem_of_singleton. lia. }
  destruct (IH (N.max i j)) as [H1 H2]. split.
  - apply elem_of_cons in H1 as [->|?]; [|set_solver].
    destruct (N.max_dec i j) as [->| ->]; set_solver.
  - intros k Hk. rewrite !elem_of_cons in Hk.
    destruct Hk as [->|[->|Hk]]; [|apply N.le_trans with (N.max i j); [lia | apply H2; left]|].
    + apply N.le_trans with (N.max i j); [lia | apply H2; left].
    + apply H2. by right.
Qed.

Lemma min_id_None ids : min_id ids = None -> ids = [].
Proof. by destruct ids. Qed.

Lemma max_id_None ids : max_id ids = None -> ids = [].
Proof. by destruct ids. Qed.

Section Plans.
Context {I : Type} `{LawfulPosting I}.
Implicit Types (postings : list (I * float)) (t : PostingBlockMaxTelemetry).

(** Cursors at the first record from [start] on. *)
Definition at_record (start : N) (posting : I * float) : Prop :=
  posting_ok posting.1 /\
  posting_rest posting.1 = filter (fun e => start <= e.1)%N (entries posting.1).

Lemma bound_till_ok start end_ postings ub :
  (start <= end_)%N -> Forall (at_record start) postings -> Forall term_ok (terms_of postings) ->
  exists postings' ms, bound_till end_ postings ub =
      (postings', fold_left add_bound (zip ms (terms_of postings).*2) ub) /\
    Forall (at_record start) postings' /\ terms_of postings' = terms_of postings /\
    forall d, (start <= d <= end_)%N -> Forall2 (dominates d) ms (terms_of postings).
Proof.
  intros Hse Ha Ht. revert ub. induction Ha as [|[it q] postings [Hok Hr] Ha IH]; intros ub; csimpl in *.
  { exists [], []. split_and!; done. }
  apply Forall_cons in Ht as [Hl Ht]. simpl in *.
  destruct (max_weight_till_id it end_) as [it' r] eqn:E.
  destruct (max_weight_law it it' end_ r Hok E (proj1 (proj2 Hl))) as [Hok' [He [Hr' (m & -> & Hm & Hb)]]];
    [intros e Hin Hlt; rewrite Hr; apply list_elem_of_filter; split; [simpl; lia | done] |].
  destruct (IH Ht (ub + m * q)%f32) as (postings' & ms & -> & Ha' & Et & Hd).
  exists ((it', q) :: postings'), (m :: ms). unfold terms_of in *. csimpl. rewrite Et, He.
  split_and!; [done | | done |].
  - constructor; [|done]. split; simpl; [done |]. by rewrite Hr', He.
  - intros d Hde. constructor; [|by apply Hd]. split; [done |]. simpl.
    intros w Hw%find_weight_Some. rewrite Hr, Forall_forall in Hb.
    apply (Hb (d, w)); [|simpl; lia]. apply list_elem_of_filter. split; [simpl; lia | done].
Qed.

Lemma skip_all_ok start end_ postings :
  Forall (at_record start) postings -> (start <= end_)%N ->
  Forall (at_record (end_ + 1)) (skip_all end_ postings) /\
  terms_of (skip_all end_ postings) = terms_of postings.
Proof.
  intros Ha Hle. induction Ha as [|[it q] postings [Hok Hr] Ha IH]; [done |].
  destruct IH as [IH1 IH2]. unfold skip_all, terms_of in *. csimpl. simpl in *.
  destruct (skip_till_law it end_ Hok) as (Hok' & He & Hr'). rewrite IH2. unfold prod_map. simpl.
  rewrite He. split; [|done]. constructor; [|done]. split; simpl; [done |]. rewrite Hr', He, Hr.
  clear -Hle. induction (entries it) as [|e l IH]; [done |]. rewrite !filter_cons.
  repeat case_decide; rewrite ?filter_cons; repeat case_decide; try lia; congruence.
Qed.

(** What has been planned when [start] is reached. *)
Record planned terms (start : N) (batches : list PendingBatch) : Prop := {
  pl_bounds : Forall (batch_ok terms) batches;
  pl_disjoint : StronglySorted before_batch batches;
  pl_before : Forall (fun b => b_end b < start)%N batches;
  pl_cover : forall d, nonzero terms d -> (d < start)%N -> exists b, b ∈ batches /\ in_batch b d;
}.

(** One range: its batch, or nothing when the bound is zero. *)
Lemma planned_range terms start end_ ub batches :
  Forall term_ok terms -> (start <= end_ /\ end_ - start + 1 < 2 ^ 32)%N -> score_ok ub ->
  (forall d, (start <= d <= end_)%N -> score_le (doc_score terms d) ub) ->
  planned terms start batches ->
  planned terms (end_ + 1)
    (if (rank binary32 ub =? 0)%Z then batches
     else batches ++ [{| b_start := start; b_end := end_; upper_bound := ub |}]).
Proof.
  intros Ht Hle Hu Hd [P1 P2 P3 P4].
  assert (P3' : Forall (fun b => b_end b < end_ + 1)%N batches).
  { eapply Forall_impl; [exact P3 |]. simpl. lia. }
  destruct (Z.eqb_spec (rank binary32 ub) 0) as [E|E].
  - split; [done | done | done |]. intros d Hn Hlt.
    destruct (decide (d < start)%N); [by apply P4 |]. exfalso.
    rewrite nonzero_rank in Hn by done. specialize (Hd d ltac:(lia)). unfold score_le in Hd.
    pose proof (nonneg_rank binary32 _ (proj2 (doc_score_ok terms d Ht))). lia.
  - split.
    + apply Forall_app. split; [done |]. constructor; [|constructor]. done.
    + apply StronglySorted_app_2; [done | repeat constructor |].
      intros x y Hx ->%list_elem_of_singleton. rewrite Forall_forall in P3. by apply P3.
    + apply Forall_app. split; [done |]. constructor; [simpl; lia | constructor].
    + intros d Hn Hlt. destruct (decide (d < start)%N) as [Hs|Hs].
      * destruct (P4 d Hn Hs) as (b & Hb & Hin). exists b. split; [|done]. apply elem_of_app. by left.
      * eexists. split; [apply elem_of_app; right; left |]. unfold in_batch. simpl. lia.
Qed.

Lemma planned_done terms start batches :
  planned terms start batches -> (forall d, nonzero terms d -> (d < start)%N) ->
  plan_ok terms batches.
Proof. intros [P1 P2 P3 P4] Hall. split; [done | done |]. intros d Hd. apply P4; auto. Qed.

Lemma bound_range_ok terms d ms :
  Forall term_ok terms -> Forall2 (dominates d) ms terms ->
  score_ok (fold_left add_bound (zip ms terms.*2) fzero) /\
  score_le (doc_score terms d) (fold_left add_bound (zip ms terms.*2) fzero).
Proof.
  intros Ht Hd. by destruct (bound_dominates d terms ms fzero fzero) as (_ & ? & ?);
    try apply score_ok_zero.
Qed.

Lemma plan_loop_ok fuel width last start postings t batches terms :
  terms_of postings = terms -> Forall term_ok terms -> Forall (at_record start) postings ->
  (1 <= width <= U32_MAX)%N -> (start <= last <= U32_MAX)%N -> (last - start < width * N.of_nat fuel)%N ->
  planned terms start batches -> (forall d, nonzero terms d -> (d <= last)%N) ->
  exists batches' t', plan_loop fuel width last start postings t batches = Some (batches', t') /\
    plan_ok terms batches'.
Proof.
  revert start postings t batches. induction fuel as [|fuel IH];
    intros start postings t batches Et Ht Ha Hw Hsl Hf Hp Hlast; [lia |].
  cbn [plan_loop]. set (end_ := N.min (N.min (start + (width - 1)) U32_MAX) last).
  assert (Hse : (start <= end_ <= last)%N) by (unfold end_; lia).
  destruct (bound_till_ok start end_ postings fzero (proj1 Hse) Ha) as (postings' & ms & -> & Ha' & Et' & Hd);
    [by rewrite Et |]. rewrite Et in *.
  set (ub := fold_left add_bound (zip ms terms.*2) fzero).
  assert (Hub : score_ok ub) by (apply (bound_range_ok terms start ms); [done | apply Hd; lia]).
  assert (Hlen : (start <= end_ /\ end_ - start + 1 < 2 ^ 32)%N) by (unfold end_, U32_MAX in *; lia).
  assert (Hr := planned_range terms start end_ ub batches Ht Hlen Hub
    (fun d Hde => proj2 (bound_range_ok terms d ms Ht (Hd d Hde))) Hp).
  destruct (skip_all_ok start end_ postings' Ha' ltac:(lia)) as [Ha2 Et2].
  rewrite score_positive by done.
  assert (Hgo : forall t0 batches0, planned terms (end_ + 1) batches0 ->
    exists batches' t', (if (end_ =? last)%N then Some (batches0, t0)
      else plan_loop fuel width last (end_ + 1) (skip_all end_ postings') t0 batches0) =
        Some (batches', t') /\ plan_ok terms batches').
  { intros t0 batches0 Hp0. destruct (N.eqb_spec end_ last) as [El|El].
    - exists batches0, t0. split; [done |]. apply (planned_done terms (end_ + 1)); [done |].
      intros d Hnz. specialize (Hlast d Hnz). lia.
    - apply (IH (end_ + 1)%N); try done; [congruence | lia |].
      assert (end_ = start + (width - 1))%N by (unfold end_ in *; lia). lia. }
  destruct (rank binary32 ub =? 0)%Z; simpl; by apply Hgo.
Qed.

Lemma fill_bounds_ok first width postings maxima bounds bounds' :
  Forall (posting_ok ∘ fst) postings -> Forall term_ok (terms_of postings) -> (0 < width)%N ->
  length maxima = length bounds ->
  fill_bounds first width postings maxima bounds = Some bounds' ->
  length bounds' = length bounds /\
  forall r b, bounds !! r = Some b ->
    exists ms, bounds' !! r = Some (fold_left add_bound (zip ms (terms_of postings).*2) b) /\
      forall d, (first <= d)%N -> N.to_nat ((d - first) / width)%N = r ->
        Forall2 (dominates d) ms (terms_of postings).
Proof.
  intros Ho Ht Hw. revert maxima bounds.
  induction Ho as [|[it q] postings Hok Ho IH]; intros maxima bounds Hlen; csimpl in *.
  { intros [= <-]. split; [done |]. intros r b Hb. exists []. by split. }
  apply Forall_cons in Ht as [Hl Ht]. simpl in *.
  destruct (fill_block_max_ranges it first width maxima) as [maxima'|] eqn:E; simpl; [|done].
  destruct (fill_law it first width maxima maxima' Hok Hw E (proj1 (proj2 Hl))) as (L & Hi & Hb).
  intros Ef. apply IH in Ef as [L' Hms]; [|done|rewrite length_zip_with; lia].
  rewrite length_zip_with in L'. split; [lia |]. intros r b Hr.
  destruct (lookup_lt_is_Some_2 maxima' r) as [m Hm]; [apply lookup_lt_Some in Hr; lia |].
  destruct (Hms r (b + m * q)%f32) as (ms & Hr' & Hd).
  { apply lookup_zip_with_Some. by exists b, m. }
  exists (m :: ms). split; [done |]. intros d Hfd Hdr. constructor; [|by apply Hd]. split.
  - rewrite Forall_lookup in Hi. by apply (Hi r).
  - intros w Hw'%find_weight_Some. rewrite Forall_forall in Hb.
    apply (Hb (d, w) Hw'); [done |]. simpl. by rewrite Hdr.
Qed.

Lemma native_planned terms first last width bounds k batches :
  Forall term_ok terms -> (1 <= width <= U32_MAX)%N -> (first <= last <= U32_MAX)%N ->
  k + length bounds = range_count width first last ->
  (forall r b, bounds !! r = Some b -> score_ok b /\ forall d, (first <= d)%N ->
     N.to_nat ((d - first) / width)%N = k + r -> score_le (doc_score terms d) b) ->
  planned terms (N.min (first + N.of_nat k * width) (last + 1)) batches ->
  planned terms (last + 1) (batches ++
    omap (fun '(range, ub) =>
            if feq ub fzero then None else Some (native_batch first last width range ub))
      (imap (fun i ub => (k + i, ub)) bounds)).
Proof.
  intros Ht Hw Hfl. unfold range_count.
  assert (Hdiv : ((last - first) = width * ((last - first) / width) + (last - first) mod width)%N)
    by (apply N.div_mod; lia).
  assert (Hmod : ((last - first) mod width < width)%N) by (apply N.mod_lt; lia).
  revert Hdiv Hmod. generalize ((last - first) / width)%N as R.
  generalize ((last - first) mod width)%N as m. intros m R Hdiv Hmod.
  revert k batches. induction bounds as [|ub bounds IH]; intros k batches; csimpl; intros Hk Hb Hp.
  { assert (N.of_nat k * width = width * R + width)%N
      by (replace (N.of_nat k) with (R + 1)%N by lia; ring).
    rewrite app_nil_r. replace (N.min (first + N.of_nat k * width) (last + 1))
      with (last + 1)%N in Hp by lia. done. }
  destruct (Hb 0 ub eq_refl) as [Hu Hd]. rewrite Nat.add_0_r in *.
  assert (HkR : (N.of_nat k <= R)%N) by lia.
  set (start := (first + N.of_nat k * width)%N) in *.
  assert (N.of_nat k * width <= width * R)%N by (rewrite N.mul_comm; by apply N.mul_le_mono_l).
  assert (Hstart : (start <= last)%N) by (unfold start; lia).
  set (end_ := N.min (N.min (start + (width - 1)) U32_MAX) last).
  assert (Hse : (start <= end_ <= last)%N) by (unfold end_; lia).
  replace (N.min start (last + 1)) with start in Hp by lia.
  assert (Hlen : (start <= end_ /\ end_ - start + 1 < 2 ^ 32)%N) by (unfold end_, U32_MAX in *; lia).
  assert (Hr := planned_range terms start end_ ub batches Ht Hlen Hu).
  rewrite score_zero by done.
  assert (Enext : (end_ + 1 = N.min (first + N.of_nat (S k) * width) (last + 1))%N)
    by (unfold end_, start; lia).
  assert (Hr' : planned terms (end_ + 1)
    (if (rank binary32 ub =? 0)%Z then batches
     else batches ++ [{| b_start := start; b_end := end_; upper_bound := ub |}])).
  { apply Hr; [|done]. intros d Hde. apply Hd; [unfold start in *; lia |].
    assert ((d - first) / width = N.of_nat k)%N as ->; [|lia].
    symmetry. apply (N.div_unique _ _ _ (d - start)); unfold end_, start in *; lia. }
  rewrite Enext in Hr'.
  assert (Himap : imap ((fun i ub => (k + i, ub)) ∘ S) bounds =
    imap (fun i (ub : float) => (S k + i, ub)) bounds)
    by (apply imap_ext; intros; simpl; f_equal; lia).
  rewrite Himap.
  assert (Hb' : forall r b, bounds !! r = Some b -> score_ok b /\ forall d, (first <= d)%N ->
     N.to_nat ((d - first) / width)%N = S k + r -> score_le (doc_score terms d) b).
  { intros r b Hrb. destruct (Hb (S r) b Hrb) as [? Hx]. split; [done |]. intros d ? ?.
    apply Hx; [done | lia]. }
  destruct (rank binary32 ub =? 0)%Z.
  - apply IH; [lia | done | done].
  - rewrite cons_middle, app_assoc. apply IH; [lia | done | done].
Qed.

(** Records are [u32] offsets. *)
Definition records_u32 terms : Prop :=
  Forall (fun term : list PostingElement * float => Forall (fun e => e.1 <= U32_MAX)%N term.1) terms.

Lemma sorted_head_least l e x :
  StronglySorted by_record l -> head l = Some e -> x ∈ l.*1 -> (e.1 <= x)%N.
Proof.
  intros Hs He (y & -> & Hy)%list_elem_of_fmap. destruct l as [|e' l]; [done |]. injection He as ->.
  apply by_record_cons in Hs as [_ Hl]. apply elem_of_cons in Hy as [->|Hy]; [lia |].
  rewrite Forall_forall in Hl. specialize (Hl y Hy). unfold by_record in Hl. lia.
Qed.

Lemma sorted_last_greatest l e x :
  StronglySorted by_record l -> last l = Some e -> x ∈ l.*1 -> (x <= e.1)%N.
Proof.
  intros Hs [l' ->]%last_Some (y & -> & Hy)%list_elem_of_fmap.
  apply elem_of_app in Hy as [Hy|Hy%list_elem_of_singleton]; [|subst; lia].
  induction l' as [|z l' IH]; [by apply elem_of_nil in Hy |]. simpl in Hs.
  apply by_record_cons in Hs as [Hs Hz]. apply elem_of_cons in Hy as [->|Hy]; [|by apply IH].
  rewrite Forall_forall in Hz. specialize (Hz e ltac:(apply elem_of_app; right; left)).
  unfold by_record in Hz. lia.
Qed.

Lemma peeked_id it :
  fresh it -> record_id <$> (peek it).2 = fst <$> head (entries it).
Proof.
  intros [Hok Hr]. destruct (peek it) as [it' r] eqn:E.
  destruct (peek_law it it' r Hok E) as (_ & _ & _ & Hp). rewrite Hr in Hp.
  simpl. rewrite <- Hp. by destruct r.
Qed.

(** The first and the last record of the query. *)
Lemma id_range postings :
  Forall (fresh ∘ fst) postings -> Forall term_ok (terms_of postings) ->
  match min_id (peeked_ids postings), max_id (last_ids postings) with
  | Some first, Some last =>
      (exists term, term ∈ terms_of postings /\ last ∈ term.1.*1) /\ (first <= last)%N /\
      forall term d, term ∈ terms_of postings -> d ∈ term.1.*1 -> (first <= d <= last)%N
  | _, _ => forall d, ~ nonzero (terms_of postings) d
  end.
Proof.
  intros Hf Ht.
  assert (Hin : forall d posting, posting ∈ postings -> d ∈ (entries posting.1).*1 ->
    exists first last, first ∈ peeked_ids postings /\ last ∈ last_ids postings /\ (first <= d <= last)%N).
  { intros d posting Hp Hd. rewrite Forall_forall in Hf. rewrite Forall_forall in Ht.
    specialize (Hf posting Hp). specialize (Ht (prod_map entries id posting) ltac:(by apply list_elem_of_fmap_2)).
    destruct Ht as [Hs _]. simpl in Hs.
    destruct (entries posting.1) as [|e l] eqn:El; [by apply elem_of_nil in Hd |].
    destruct (last (e :: l)) as [e'|] eqn:Elast; [|by apply last_None in Elast].
    exists e.1, e'.1. split_and!.
    - apply list_elem_of_omap. exists posting. split; [done |]. rewrite peeked_id by done.
      by rewrite El.
    - apply list_elem_of_omap. exists posting. split; [done |].
      rewrite last_id_law by apply Hf. by rewrite El, Elast.
    - by apply (sorted_head_least (e :: l)).
    - by apply (sorted_last_greatest (e :: l)). }
  assert (Hpost : forall d, nonzero (terms_of postings) d ->
    exists posting, posting ∈ postings /\ d ∈ (entries posting.1).*1).
  { intros d (term & Hterm & Hd)%nonzero_posted. apply list_elem_of_fmap in Hterm as (p & -> & Hp).
    by exists p. }
  destruct (min_id (peeked_ids postings)) as [first|] eqn:Emin.
  2:{ apply min_id_None in Emin. intros d (p & Hp & Hd)%Hpost.
      destruct (Hin d p Hp Hd) as (x & y & Hx & _). rewrite Emin in Hx. by apply elem_of_nil in Hx. }
  destruct (max_id (last_ids postings)) as [final|] eqn:Emax.
  2:{ apply max_id_None in Emax. intros d (p & Hp & Hd)%Hpost.
      destruct (Hin d p Hp Hd) as (x & y & _ & Hy & _). rewrite Emax in Hy. by apply elem_of_nil in Hy. }
  apply min_id_spec in Emin as [Hfirst Hmin]. apply max_id_spec in Emax as [Hlast Hmax].
  assert (Hr : forall d posting, posting ∈ postings -> d ∈ (entries posting.1).*1 ->
    (first <= d <= final)%N).
  { intros d p Hp Hd. destruct (Hin d p Hp Hd) as (x & y & Hx & Hy & ?).
    specialize (Hmin x Hx). specialize (Hmax y Hy). lia. }
  apply list_elem_of_omap in Hlast as (p & Hp & Hl). rewrite last_id_law in Hl
    by (rewrite Forall_forall in Hf; apply Hf; done).
  destruct (last (entries p.1)) as [e|] eqn:El; [|done]. injection Hl as <-.
  assert (He : e.1 ∈ (entries p.1).*1).
  { apply list_elem_of_fmap_2. apply last_Some in El as [l' ->]. apply elem_of_app. right. left. }
  split_and!.
  - exists (prod_map entries id p). split; [by apply list_elem_of_fmap_2 | done].
  - by destruct (Hr e.1 p Hp He).
  - intros term d Hterm Hd. apply list_elem_of_fmap in Hterm as (p' & -> & Hp'). by apply (Hr d p').
Qed.

Lemma planned_nil terms start :
  (forall d, nonzero terms d -> (start <= d)%N) -> planned terms start [].
Proof. intros Hd. split; [constructor .. |]. intros d Hn%Hd Hlt. lia. Qed.

Lemma plan_native_ok postings width t batches t' :
  Forall (fresh ∘ fst) postings -> Forall term_ok (terms_of postings) ->
  records_u32 (terms_of postings) -> (1 <= width <= U32_MAX)%N ->
  plan_batches_native postings width t = Some (batches, t') -> plan_ok (terms_of postings) batches.
Proof.
  intros Hf Ht Hu Hw. unfold plan_batches_native. pose proof (id_range postings Hf Ht) as Hr.
  destruct (min_id (peeked_ids postings)) as [first|], (max_id (last_ids postings)) as [final|];
    try (intros [= <- <-]; split; [constructor | constructor |]; intros d Hd; by destruct (Hr d)).
  destruct Hr as ((term & Hterm & Hfin) & Hle & Hposted).
  assert (Hrange : forall d, nonzero (terms_of postings) d -> (first <= d <= final)%N).
  { intros d (x & Hx & Hd)%nonzero_posted. by apply (Hposted x). }
  assert (Hfinal : (final <= U32_MAX)%N).
  { unfold records_u32 in Hu. rewrite Forall_forall in Hu. specialize (Hu term Hterm).
    apply list_elem_of_fmap in Hfin as (e & -> & He). rewrite Forall_forall in Hu. by apply Hu. }
  set (R := range_count width first final).
  destruct (fill_bounds _ _ _ _ _) as [bounds|] eqn:E; simpl; [|done]. intros [= <- _].
  destruct (fill_bounds_ok first width postings (replicate R fzero) (replicate R fzero) bounds)
    as [L Hb]; try done; try lia.
  { eapply Forall_impl; [exact Hf |]. intros ? [? _]. done. }
  rewrite length_replicate in L.
  apply (planned_done _ (final + 1)%N); [|intros d Hd; specialize (Hrange d Hd); lia].
  unfold native_batches.
  apply (native_planned _ first final width bounds 0 []); [done | done | lia | done | |].
  - intros r b Hrb. assert (Hr : r < R) by (apply lookup_lt_Some in Hrb; lia).
    destruct (Hb r fzero) as (ms & Hms & Hd); [by apply lookup_replicate_2 |].
    rewrite Hms in Hrb. injection Hrb as <-. split.
    + apply (bound_range_ok _ (first + N.of_nat r * width)%N ms); [done |]. apply Hd; [lia |].
      replace (first + N.of_nat r * width - first)%N with (N.of_nat r * width)%N by lia.
      rewrite N.div_mul by lia. lia.
    + intros d Hfd Hdr. by apply bound_range_ok, Hd.
  - rewrite N.mul_0_l, N.add_0_r, N.min_l by lia. apply planned_nil.
    intros d Hd. by destruct (Hrange d Hd).
Qed.

Lemma plan_fallback_ok postings width t :
  Forall (fresh ∘ fst) postings -> Forall term_ok (terms_of postings) ->
  records_u32 (terms_of postings) -> (1 <= width <= U32_MAX)%N ->
  exists batches t', plan_batches postings width t = Some (batches, t') /\
    plan_ok (terms_of postings) batches.
Proof.
  intros Hf Ht Hu Hw. unfold plan_batches. pose proof (id_range postings Hf Ht) as Hr.
  assert (Hpeek : Forall (fresh ∘ fst) (peek_all postings) /\
    terms_of (peek_all postings) = terms_of postings /\
    last_ids (peek_all postings) = last_ids postings).
  { clear -Hf. induction Hf as [|[it q] postings [Hok Hr] Hf (IH1 & IH2 & IH3)]; [done |].
    unfold peek_all, terms_of, last_ids in *. csimpl. simpl in *.
    destruct (peek it) as [it' r] eqn:E. destruct (peek_law it it' r Hok E) as (Hok' & He & Hr' & _).
    simpl. unfold prod_map at 1. simpl. rewrite IH2, IH3, He, !last_id_law by done. rewrite He.
    split_and!; [|done|done]. constructor; [|done]. split; simpl; [done | congruence]. }
  destruct Hpeek as (Hf' & Et & ->).
  destruct (min_id (peeked_ids postings)) as [first|], (max_id (last_ids postings)) as [final|];
    try (eexists _, _; split; [done |]; split; [constructor | constructor |]; intros d Hd;
         by destruct (Hr d)).
  destruct Hr as ((term & Hterm & Hfin) & Hle & Hposted).
  assert (Hrange : forall d, nonzero (terms_of postings) d -> (first <= d <= final)%N).
  { intros d (x & Hx & Hd)%nonzero_posted. by apply (Hposted x). }
  assert (Hfinal : (final <= U32_MAX)%N).
  { unfold records_u32 in Hu. rewrite Forall_forall in Hu. specialize (Hu term Hterm).
    apply list_elem_of_fmap in Hfin as (e & -> & He). rewrite Forall_forall in Hu. by apply Hu. }
  apply plan_loop_ok with (terms := terms_of postings); try done.
  - apply Forall_forall. intros p Hp. rewrite Forall_forall in Hf'. destruct (Hf' p Hp) as [Hok Hr].
    split; [done |]. rewrite Hr. symmetry. apply filter_id, Forall_forall. intros e He.
    assert (Hp' : prod_map entries id p ∈ terms_of postings)
      by (rewrite <- Et; by apply list_elem_of_fmap_2).
    by apply (Hposted _ e.1 Hp'), list_elem_of_fmap_2.
  - unfold range_count. rewrite N2Nat.id, N.add_1_r. apply N.mul_succ_div_gt. lia.
  - apply planned_nil. intros d Hd. by destruct (Hrange d Hd).
  - intros d Hd. by destruct (Hrange d Hd).
Qed.
End Plans.

(** ** The ranking is exact *)

#[export] Instance batch_cmp_TotalCmp : TotalCmp batch_cmp.
Proof.
  apply TotalCmp_then; [apply (TotalCmp_key ordered_cmp upper_bound), _ |].
  apply (TotalCmp_flip (fun a b => N.compare (b_start a) (b_start b))).
  apply (TotalCmp_key N.compare b_start), _.
Qed.

#[export] Instance sparse_point_cmp_TotalCmp : TotalCmp sparse_point_cmp.
Proof. apply (TotalCmp_key exact_cmp pp_point), _. Qed.

(** The order of the results is the reverse of the order of the heaps. *)
Lemma offset_exact_cmp a b : offset_order a b = exact_cmp b a.
Proof. done. Qed.

Lemma concat_insert_perm {A} (ls : list (list A)) i l x l' :
  ls !! i = Some l -> l ≡ₚ x :: l' -> concat ls ≡ₚ x :: concat (<[i := l']> ls).
Proof.
  revert i. induction ls as [|k ls IH]; intros [|i]; simpl; try done.
  - intros [= ->] ->. done.
  - intros Hi Hp. rewrite (IH i Hi Hp). by rewrite Permutation_middle.
Qed.

Section Ranking.
Context {I : Type} `{LawfulPosting I} (get : N -> OperationResult I).
Context (terms : list (list PostingElement * float)).
Hypothesis (Hterms : Forall term_ok terms).
Implicit Types (s : PostingBlockMaxState) (b : PendingBatch) (p : ScoredPointOffset).

Local Abbreviation scored := (scored_offset (doc_score terms)).
Local Abbreviation order := (dense_order (doc_score terms)).

(** The query opens the postings of [terms]. *)
Definition opens (query : list (N * float)) : Prop :=
  exists postings, open_postings get query = Ok postings /\
    Forall (fresh ∘ fst) postings /\ terms_of postings = terms.

Definition record_range b : list N :=
  (fun i => b_start b + N.of_nat i)%N <$> seq 0 (N.to_nat (b_end b - b_start b + 1)).

(** The records with a score of a batch. *)
Definition batch_docs b : list N := filter (nonzero terms) (record_range b).

Lemma elem_of_record_range b d :
  (b_start b <= b_end b)%N -> d ∈ record_range b <-> in_batch b d.
Proof.
  intros Hle. unfold in_batch, record_range. rewrite list_elem_of_fmap. split.
  - intros (i & -> & Hi%elem_of_seq). lia.
  - intros Hd. exists (N.to_nat (d - b_start b)). rewrite elem_of_seq. lia.
Qed.

Lemma elem_of_batch_docs b d :
  batch_ok terms b -> d ∈ batch_docs b <-> nonzero terms d /\ in_batch b d.
Proof. intros [[Hle _] _]. unfold batch_docs. by rewrite list_elem_of_filter, elem_of_record_range. Qed.

Definition buffered s : list ScoredPointOffset :=
  (pp_point <$> pending_points s) ++ concat (active_batches s).

(** [ids] are the records that are not yet emitted. *)
Record sparse_holds s (ids : list N) : Prop := {
  sh_opens : opens (bm_query s);
  sh_error : bm_terminal_error s = None;
  sh_perm : (idx <$> buffered s) ++ concat (batch_docs <$> pending_batches s) ≡ₚ ids;
  sh_nodup : NoDup ids;
  sh_scores : Forall (fun p => p = scored (idx p)) (buffered s);
  sh_bounds : Forall (batch_ok terms) (pending_batches s);
  sh_heads : forall pp, pp ∈ pending_points s -> exists h,
    active_batches s !! batch_index pp = Some h /\ forall q, q ∈ h -> exact_cmp q (pp_point pp) <> Gt;
  sh_active : forall i h, active_batches s !! i = Some h -> h <> [] ->
    exists pp, pp ∈ pending_points s /\ batch_index pp = i;
  sh_count : buffered_points s = length (buffered s);
}.

(** The best pending point is the best of all scored points. *)
Lemma pending_best s ids pending points q :
  sparse_holds s ids -> heap_pop sparse_point_cmp (pending_points s) = Some (pending, points) ->
  q ∈ buffered s -> exact_cmp q (pp_point pending) <> Gt.
Proof.
  intros Hd Hp Hq. destruct (heap_pop_spec _ _ _ _ Hp) as [_ Hmax].
  apply elem_of_app in Hq as [(pp & -> & Hpp)%list_elem_of_fmap|Hq]; [by apply Hmax |].
  apply elem_of_concat in Hq as (i & h & Hi & Hqh).
  destruct (sh_active s ids Hd i h Hi) as (pp & Hpp & <-);
    [by intros ->; apply elem_of_nil in Hqh |].
  destruct (sh_heads s ids Hd pp Hpp) as (h' & Hi' & Hle). rewrite Hi in Hi'. injection Hi' as <-.
  eapply (cmp_trans exact_cmp); [by apply Hle |]. by apply Hmax.
Qed.

(** A state that differs by one scored point. *)
Lemma holds_after_pop s s' ids p :
  sparse_holds s ids -> bm_query s' = bm_query s -> bm_terminal_error s' = None ->
  pending_batches s' = pending_batches s -> buffered s ≡ₚ p :: buffered s' ->
  buffered_points s = S (buffered_points s') ->
  (forall pp, pp ∈ pending_points s' -> exists h, active_batches s' !! batch_index pp = Some h /\
     forall q, q ∈ h -> exact_cmp q (pp_point pp) <> Gt) ->
  (forall i h, active_batches s' !! i = Some h -> h <> [] ->
     exists pp, pp ∈ pending_points s' /\ batch_index pp = i) ->
  exists ids', sparse_holds s' ids' /\ ids ≡ₚ idx p :: ids'.
Proof.
  intros Hd Eq Ee Eb Ep Ec Hheads Hact.
  exists ((idx <$> buffered s') ++ concat (batch_docs <$> pending_batches s')).
  assert (Hids : ids ≡ₚ idx p :: (idx <$> buffered s') ++ concat (batch_docs <$> pending_batches s')).
  { rewrite <- (sh_perm s ids Hd), Ep, Eb. done. }
  split; [|done]. destruct Hd as [P1 P2 P3 P4 P5 P6 P7 P8 P9]. split; try done.
  - by rewrite Eq.
  - rewrite Hids in P4. by apply NoDup_cons in P4 as [_ ?].
  - rewrite Ep in P5. by apply Forall_cons in P5 as [_ ?].
  - by rewrite Eb.
  - rewrite Ep in P9. simpl in P9. lia.
Qed.

(** Taking the best pending point. *)
Lemma pop_holds s ids pending points :
  sparse_holds s ids -> heap_pop sparse_point_cmp (pending_points s) = Some (pending, points) ->
  exists s' ids', pop_next_point s = Done (Some (pp_point pending, s')) /\
    sparse_holds s' ids' /\ ids ≡ₚ idx (pp_point pending) :: ids' /\
    pending_batches s' = pending_batches s.
Proof.
  intros Hd Hp. destruct (heap_pop_spec _ _ _ _ Hp) as [Hperm _].
  destruct (sh_heads s ids Hd pending) as (h & Hh & Hle); [rewrite Hperm; left |].
  assert (Hbuf : buffered s ≡ₚ pp_point pending :: (pp_point <$> points) ++ concat (active_batches s)).
  { unfold buffered. by rewrite Hperm. }
  unfold pop_next_point. rewrite Hp, Hh. pose proof (sh_count s ids Hd) as Hc.
  rewrite Hbuf in Hc. simpl in Hc. rewrite Hc.
  destruct (heap_pop exact_cmp h) as [[q h']|] eqn:Eh.
  - destruct (heap_pop_spec _ _ _ _ Eh) as [Hph Hmax].
    eexists. destruct (holds_after_pop s (with_points s (<[batch_index pending := h']> (active_batches s))
      (heap_push {| pp_point := q; batch_index := batch_index pending |} points)
      (length ((pp_point <$> points) ++ concat (active_batches s)))
      (count PointsEmitted 1 (bm_telemetry s))) ids (pp_point pending) Hd) as (ids' & Hd' & Hids); simpl.
    + done.
    + apply Hd.
    + done.
    + rewrite Hbuf. unfold buffered. simpl. rewrite (concat_insert_perm _ _ _ _ _ Hh Hph).
      by rewrite <- Permutation_middle.
    + done.
    + intros pp [->|Hpp]%elem_of_cons; simpl.
      * exists h'. split; [apply list_lookup_insert_eq; by eapply lookup_lt_Some |].
        intros q' Hq'. apply Hmax. rewrite Hph. by right.
      * destruct (sh_heads s ids Hd pp) as (h2 & Hh2 & Hle2); [rewrite Hperm; by right |].
        destruct (decide (batch_index pp = batch_index pending)) as [E|E].
        -- rewrite E in *. rewrite Hh in Hh2. injection Hh2 as <-. exists h'.
           split; [apply list_lookup_insert_eq; by eapply lookup_lt_Some |].
           intros q' Hq'. apply Hle2. rewrite Hph. by right.
        -- exists h2. split; [by rewrite list_lookup_insert_ne by done | done].
    + intros i h2 Hi Hne. destruct (decide (i = batch_index pending)) as [->|E].
      * eexists. split; [left | done].
      * rewrite list_lookup_insert_ne in Hi by done.
        destruct (sh_active s ids Hd i h2 Hi Hne) as (pp & Hpp & Ei). exists pp. split; [|done].
        rewrite Hperm in Hpp. apply elem_of_cons in Hpp as [->|Hpp]; [by destruct E | by right].
    + exists ids'. done.
  - apply heap_pop_None in Eh as ->.
    eexists. destruct (holds_after_pop s (with_points s (active_batches s) points
      (length ((pp_point <$> points) ++ concat (active_batches s)))
      (count PointsEmitted 1 (bm_telemetry s))) ids (pp_point pending) Hd) as (ids' & Hd' & Hids); simpl; try done.
    + apply Hd.
    + intros pp Hpp. apply (sh_heads s ids Hd). rewrite Hperm. by right.
    + intros i h2 Hi Hne. destruct (sh_active s ids Hd i h2 Hi Hne) as (pp & Hpp & Ei). exists pp.
      split; [|done]. rewrite Hperm in Hpp. apply elem_of_cons in Hpp as [->|Hpp]; [|done].
      rewrite Ei in Hh. congruence.
    + exists ids'. done.
Qed.

Lemma scored_ok d : score_ok (score (scored d)).
Proof. simpl. by apply doc_score_ok. Qed.

Lemma ordered_scores x y :
  score_ok x -> score_ok y -> ordered_cmp x y = Z.compare (rank binary32 x) (rank binary32 y).
Proof. intros [Wx _] [Wy _]. by apply (ordered_cmp_rank binary32). Qed.

(** A fixed point precedes every record of the pending batches. *)
Lemma fixed_before_batches s ids pending points b d :
  sparse_holds s ids -> heap_pop sparse_point_cmp (pending_points s) = Some (pending, points) ->
  next_point_is_fixed s = true -> b ∈ pending_batches s -> in_batch b d ->
  offset_order (pp_point pending) (scored d) = Lt.
Proof.
  intros Hd Hp Hfix Hb Hin.
  assert (Hpok : score_ok (score (pp_point pending))).
  { pose proof (sh_scores s ids Hd) as Hs. rewrite Forall_forall in Hs.
    rewrite (Hs (pp_point pending)); [apply scored_ok |]. apply elem_of_app. left.
    apply list_elem_of_fmap_2. destruct (heap_pop_spec _ _ _ _ Hp) as [-> _]. left. }
  pose proof (sh_bounds s ids Hd) as Hbs. rewrite Forall_forall in Hbs.
  unfold next_point_is_fixed, heap_peek in Hfix. rewrite Hp in Hfix. simpl in Hfix.
  destruct (heap_pop batch_cmp (pending_batches s)) as [[top rest]|] eqn:Eb; simpl in Hfix.
  2:{ apply heap_pop_None in Eb. rewrite Eb in Hb. by apply elem_of_nil in Hb. }
  destruct (heap_pop_spec _ _ _ _ Eb) as [Hperm Hmax].
  destruct (Hbs top) as (_ & Htop & _); [rewrite Hperm; left |].
  destruct (Hbs b Hb) as (_ & Hub & Hdom). specialize (Hdom d Hin). specialize (Hmax b Hb).
  unfold batch_cmp, then_with in Hmax. rewrite ordered_scores in Hmax by done.
  destruct Hpok as [Wp Np], Htop as [Wt Nt].
  rewrite (flt_rank binary32), (feq_rank binary32) in Hfix by done.
  unfold offset_order, then_with. rewrite ordered_scores by (done || apply scored_ok).
  unfold score_le in Hdom. unfold in_batch in Hin. simpl.
  apply orb_true_iff in Hfix as [Hfix%Z.ltb_lt|[Hfix%Z.eqb_eq Hidx%N.ltb_lt]%andb_true_iff];
    destruct (Z.compare_spec (rank binary32 (upper_bound b)) (rank binary32 (upper_bound top)));
    try done.
  - by rewrite (proj2 (Z.compare_lt_iff _ _)) by lia.
  - by rewrite (proj2 (Z.compare_lt_iff _ _)) by lia.
  - destruct (Z.compare_spec (rank binary32 (doc_score terms d))
      (rank binary32 (score (pp_point pending)))); [|done|lia].
    destruct (N.compare_spec (b_start top) (b_start b)); [| |done]; apply N.compare_lt_iff; lia.
  - by rewrite (proj2 (Z.compare_lt_iff _ _)) by lia.
Qed.

(** Emitting a point that is certain to come first. *)
Lemma emit_fixed s ids :
  sparse_holds s ids -> next_point_is_fixed s = true ->
  exists p s' ids', pop_next_point s = Done (Some (p, s')) /\ sparse_holds s' ids' /\
    order ids = p :: order ids' /\ pending_batches s' = pending_batches s.
Proof.
  intros Hd Hfix.
  destruct (heap_pop sparse_point_cmp (pending_points s)) as [[pending points]|] eqn:Hp.
  2:{ unfold next_point_is_fixed, heap_peek in Hfix. by rewrite Hp in Hfix. }
  destruct (pop_holds s ids pending points Hd Hp) as (s' & ids' & Epop & Hd' & Hids & Eb).
  exists (pp_point pending), s', ids'. split_and!; try done.
  assert (Hin : pp_point pending ∈ buffered s).
  { apply elem_of_app. left. apply list_elem_of_fmap_2.
    destruct (heap_pop_spec _ _ _ _ Hp) as [-> _]. left. }
  pose proof (sh_scores s ids Hd) as Hs. rewrite Forall_forall in Hs.
  pose proof (sh_nodup s ids Hd) as Hn. rewrite Hids in Hn.
  rewrite (dense_order_perm _ ids (idx (pp_point pending) :: ids')); [| by apply Hd | done].
  rewrite dense_order_cons; [by rewrite <- (Hs _ Hin) | done |]. rewrite <- (Hs _ Hin).
  intros j Hj. assert (Hji : j ∈ ids) by (rewrite Hids; by right).
  rewrite <- (sh_perm s ids Hd) in Hji. apply elem_of_app in Hji as [Hji|Hji].
  - apply list_elem_of_fmap in Hji as (q & -> & Hq). rewrite <- (Hs q Hq).
    pose proof (pending_best s ids pending points q Hd Hp Hq) as Hle.
    rewrite <- offset_exact_cmp in Hle.
    destruct (offset_order (pp_point pending) q) eqn:E; [|done|done].
    apply offset_order_eq_idx in E. apply NoDup_cons in Hn as [Hn _]. by rewrite E in Hn.
  - apply elem_of_concat in Hji as (i & l & Hl & Hjl). rewrite list_lookup_fmap in Hl.
    destruct (pending_batches s !! i) as [b|] eqn:Ei; [|done]. injection Hl as <-.
    apply list_elem_of_lookup_2 in Ei as Hb.
    assert (Hbok : batch_ok terms b).
    { pose proof (sh_bounds s ids Hd) as Hbs. rewrite Forall_forall in Hbs. by apply Hbs. }
    apply elem_of_batch_docs in Hjl as [_ Hjb]; [|done].
    by apply (fixed_before_batches s ids pending points b).
Qed.

(** With no batch pending and no fixed point nothing is left. *)
Lemma not_fixed_done s ids :
  sparse_holds s ids -> next_point_is_fixed s = false -> pending_batches s = [] ->
  pending_points s = [] /\ ids = [].
Proof.
  intros Hd Hfix Eb. unfold next_point_is_fixed in Hfix. rewrite Eb in Hfix. simpl in Hfix.
  destruct (heap_peek sparse_point_cmp (pending_points s)) as [pp|] eqn:Ep; [done |].
  apply heap_peek_None in Ep. split; [done |].
  pose proof (sh_perm s ids Hd) as Hperm. rewrite Eb in Hperm. csimpl in Hperm.
  assert (Hbuf : buffered s = []).
  { unfold buffered. rewrite Ep. csimpl. destruct (concat (active_batches s)) as [|q l] eqn:Ec; [done |].
    assert (Hq : q ∈ concat (active_batches s)) by (rewrite Ec; left).
    apply elem_of_concat in Hq as (i & h & Hi & Hqh).
    destruct (sh_active s ids Hd i h Hi) as (pp & Hpp & _).
    - intros ->. by apply elem_of_nil in Hqh.
    - rewrite Ep in Hpp. by apply elem_of_nil in Hpp. }
  rewrite Hbuf in Hperm. by apply Permutation_nil_l in Hperm.
Qed.

(** *** Expansion *)

Context (stopped_at : nat -> bool).
Hypothesis (Hrunning : forall n, stopped_at n = false).

Lemma collect_exact load start ub off n t points :
  score_ok ub ->
  (forall i, off <= i < off + n -> score_le (doc_score terms (start + N.of_nat i)) ub) ->
  exists load' t',
    collect_scored_points stopped_at load start ub off
      ((fun i => doc_score terms (start + N.of_nat i)) <$> seq off n) t points =
    (load', t', Done (points ++ (scored <$>
       filter (nonzero terms) ((fun i => start + N.of_nat i)%N <$> seq off n)))).
Proof.
  intros Hub. revert load off t points. induction n as [|n IH]; intros load off t points Hle; csimpl.
  { exists load, t. by rewrite app_nil_r. }
  rewrite Hrunning. pose proof (doc_score_ok terms (start + N.of_nat off) Hterms) as Hok.
  assert (Hle' : forall i, S off <= i < S off + n ->
    score_le (doc_score terms (start + N.of_nat i)) ub) by (intros; apply Hle; lia).
  destruct (feq (doc_score terms (start + N.of_nat off)) fzero) eqn:Ez.
  - rewrite filter_cons_False by (unfold nonzero; congruence). by apply IH.
  - rewrite filter_cons_True by done. specialize (Hle off ltac:(lia)).
    destruct Hok as [Wo No], Hub as [Wu Nu]. rewrite (flt_rank binary32) by done.
    unfold score_le in Hle. destruct (Z.ltb_spec (rank binary32 ub)
      (rank binary32 (doc_score terms (start + N.of_nat off)))); [lia |].
    destruct (IH (S load) (S off) (count NonzeroDocumentsScored 1 t)
      (points ++ [scored (start + N.of_nat off)]) Hle') as (load' & t' & E).
    exists load', t'. etransitivity; [exact E |]. by rewrite <- app_assoc.
Qed.

Lemma holds_expanded s ids batch batches :
  sparse_holds s ids -> heap_pop batch_cmp (pending_batches s) = Some (batch, batches) ->
  batch_ok terms batch /\ Forall (batch_ok terms) batches /\
  ids ≡ₚ (idx <$> buffered s) ++ batch_docs batch ++ concat (batch_docs <$> batches).
Proof.
  intros Hd Hp. destruct (heap_pop_spec _ _ _ _ Hp) as [Hperm _].
  pose proof (sh_bounds s ids Hd) as Hb. rewrite Hperm in Hb.
  apply Forall_cons in Hb as [? ?]. split_and!; [done | done |].
  rewrite <- (sh_perm s ids Hd), Hperm. done.
Qed.

Lemma idx_scored (l : list N) : idx <$> (scored <$> l) = l.
Proof. rewrite <- list_fmap_compose. change (idx ∘ scored) with (@id N). by rewrite list_fmap_id. Qed.

(** Scoring the best batch keeps the ranking. *)
Lemma expand_holds s ids batch batches :
  sparse_holds s ids -> heap_pop batch_cmp (pending_batches s) = Some (batch, batches) ->
  exists s' r, expand get stopped_at (without_batch s batches) batch = (s', Done r) /\
    pending_batches s' = batches /\
    match r with
    | None => sparse_holds s' ids
    | Some (pp, n) => sparse_holds (buffer_point s' pp n) ids
    end.
Proof.
  intros Hd Hp. destruct (holds_expanded s ids batch batches Hd Hp) as (Hbok & Hbs & Hids).
  destruct (sh_opens s ids Hd) as (postings & Eo & Hf & Et).
  unfold expand. simpl. rewrite Hrunning, Eo. pose proof Hbok as ((Hle & Hlen) & Hub & Hdom).
  rewrite (score_postings_all (b_start batch) (b_end batch) postings Hle Hlen Hf), Et. rewrite N.mod_small by done.
  match goal with |- context[collect_scored_points _ ?l ?st ?ub 0 _ ?tel []] =>
    destruct (collect_exact l st ub 0 (N.to_nat (b_end batch - b_start batch + 1)) tel [] Hub)
      as (load' & t' & E) end.
  { intros i Hi. apply Hdom. unfold in_batch. lia. }
  rewrite E, app_nil_l. fold (record_range batch) (batch_docs batch).
  destruct (heap_pop exact_cmp (scored <$> batch_docs batch)) as [[q rest]|] eqn:Eq.
  - destruct (heap_pop_spec _ _ _ _ Eq) as [Hperm Hmax].
    eexists _, _. split; [done |]. split; [done |].
    assert (Hbuf : forall s1, pending_points s1 = pending_points s ->
      active_batches s1 = active_batches s ++ [rest] ->
      buffered (buffer_point s1 {| pp_point := q; batch_index := length (active_batches s) |}
        (length rest + 1)) ≡ₚ buffered s ++ (scored <$> batch_docs batch)).
    { intros s1 Ep Ea. unfold buffered. simpl. rewrite Ep, Ea, concat_app, Hperm. simpl.
      rewrite app_nil_r. rewrite <- app_assoc, !Permutation_middle. done. }
    destruct Hd as [P1 P2 P3 P4 P5 P6 P7 P8 P9].
    split; [exact P1 | exact P2 | | exact P4 | | exact Hbs | | |].
    + rewrite Hbuf by done. simpl. rewrite fmap_app, idx_scored, <- app_assoc. by rewrite Hids.
    + rewrite Hbuf by done. apply Forall_app. split; [done |]. by apply Forall_fmap, Forall_true.
    + intros pp [->|Hpp]%elem_of_cons; simpl.
      * exists rest. split; [apply list_lookup_middle; done |].
        intros q' Hq'. apply Hmax. rewrite Hperm. by right.
      * destruct (P7 pp Hpp) as (h & Hh & Hle'). exists h. split; [|done].
        rewrite lookup_app_l by (by eapply lookup_lt_Some). done.
    + intros i h Hi Hne. apply lookup_app_Some in Hi as [Hi|[Hi Hh]].
      * destruct (P8 i h Hi Hne) as (pp & Hpp & Ei). exists pp. split; [by right | done].
      * eexists. split; [left |]. simpl. apply list_lookup_singleton_Some in Hh as [? _]. lia.
    + rewrite Hbuf by done. rewrite length_app, Hperm. simpl. rewrite P9. lia.
  - apply heap_pop_None, fmap_nil_inv in Eq.
    eexists _, _. split; [done |]. split; [done |].
    destruct Hd as [P1 P2 P3 P4 P5 P6 P7 P8 P9]. split; simpl; try done.
    rewrite Hids, Eq. done.
Qed.

(** *** Batches of results *)

Lemma finish_holds s ids points : sparse_holds s ids -> sparse_holds (finish_batch s points) ids.
Proof. intros Hd. unfold finish_batch. destruct (_ && _); [|done]. by destruct Hd; split. Qed.

Lemma sparse_batch_loop_exact fuel max_results s ids points :
  sparse_holds s ids -> length points < max_results ->
  max_results - length points + length (pending_batches s) < fuel ->
  exists s' ps ids',
    sparse_batch_loop get stopped_at fuel max_results s points = (s', Done (points ++ ps)) /\
    sparse_holds s' ids' /\ order ids = ps ++ order ids' /\
    length (points ++ ps) <= max_results /\ (points ++ ps = [] -> ids = []).
Proof.
  revert s ids points. induction fuel as [|fuel IH]; intros s ids points Hd Hlen Hfuel; [lia |].
  cbn [sparse_batch_loop]. destruct (next_point_is_fixed s) eqn:Hfix.
  - destruct (emit_fixed s ids Hd Hfix) as (p & s1 & ids1 & -> & Hd1 & Ho & Eb).
    destruct (Nat.eqb_spec (length (points ++ [p])) max_results) as [El|El].
    + exists (finish_batch s1 (points ++ [p])), [p], ids1.
      split_and!; [done | by apply finish_holds | done | lia |]. intros E. by destruct points.
    + rewrite length_app in El. simpl in El.
      destruct (IH s1 ids1 (points ++ [p]) Hd1) as (s' & ps & ids' & E & Hd' & Ho' & Hl & Hn).
      { rewrite length_app. simpl. lia. }
      { rewrite length_app, Eb. simpl. lia. }
      rewrite <- app_assoc in E, Hl, Hn. exists s', (p :: ps), ids'. simpl in *.
      split_and!; [done | done | by rewrite Ho, Ho' | done |]. intros E'. by destruct points.
  - destruct (heap_pop batch_cmp (pending_batches s)) as [[batch batches]|] eqn:Eb.
    + destruct (bool_decide_reflect (points = [])) as [->|Hne]; simpl.
      2:{ exists (finish_batch s points), [], ids. rewrite app_nil_r.
          split_and!; [done | by apply finish_holds | done | lia | done]. }
      pose proof (proj1 (heap_pop_spec _ _ _ _ Eb)) as Hperm.
      apply Permutation_length in Hperm. simpl in Hperm, Hfuel.
      destruct (expand_holds s ids batch batches Hd Eb) as (s1 & r & -> & Ebs & Hr).
      destruct r as [[pp n]|].
      * destruct (IH (buffer_point s1 pp n) ids [] Hr) as (s' & ps & ids' & E & HR);
          [simpl; lia | simpl; rewrite Ebs; lia |].
        exists s', ps, ids'. done.
      * destruct (IH s1 ids [] Hr) as (s' & ps & ids' & E & HR); [simpl; lia | simpl; rewrite Ebs; lia |].
        exists s', ps, ids'. done.
    + apply heap_pop_None in Eb.
      destruct (not_fixed_done s ids Hd Hfix Eb) as [Ep ->].
      exists (finish_batch s points), [], []. rewrite app_nil_r.
      assert (Ed : drain_points (max_results - length points) s points = (s, Done points)).
      { destruct (max_results - length points) eqn:E; [lia |]. simpl. unfold pop_next_point.
        by rewrite Ep. }
      rewrite Ed. split_and!; [done | by apply finish_holds | done | lia | done].
Qed.

(** One request: a piece of the order, empty only at the end. *)
Lemma sparse_next_exact s ids n :
  sparse_holds s ids -> n <> 0 ->
  exists s' ps ids', sparse_next_batch get stopped_at s n = (s', Done ps) /\ sparse_holds s' ids' /\
    order ids = ps ++ order ids' /\ length ps <= n /\ (ps = [] -> ids = []).
Proof.
  intros Hd Hn. unfold sparse_next_batch. destruct (Nat.eqb_spec n 0); [done |].
  rewrite (sh_error s ids Hd), Hrunning.
  match goal with |- context[sparse_batch_loop _ _ _ _ ?s1 _] =>
    assert (Hd1 : sparse_holds s1 ids) by (by destruct Hd; split);
    destruct (sparse_batch_loop_exact (S (n + length (pending_batches s))) n s1 ids [] Hd1)
      as (s' & ps & ids' & E & ? & ? & ? & ?); [simpl; lia | simpl; lia |] end.
  exists s', ps, ids'. done.
Qed.
End Ranking.

(** ** Opening *)

Section Opening.
Context {I : Type} `{LawfulPosting I} (get : N -> OperationResult I).

(** A stored posting list: readable, with [u32] records and non-negative
    weights. *)
Definition stored_ok (id : N) : Prop :=
  exists it, get id = Ok it /\ fresh it /\
    Forall (fun e => (e.1 <= U32_MAX)%N /\ impact binary32 e.2) (entries it).

(** The score of a record under a query: the sum of its products, in the
    order of the query. *)
Definition query_score (query : list (N * float)) (d : N) : float :=
  fold_left (fun acc '(id, w) =>
    match get id with Ok it => add_term d acc (entries it, w) | Err _ => acc end) query fzero.

Lemma open_postings_ok query :
  Forall (fun '(id, w) => stored_ok id /\ impact binary32 w) query ->
  exists postings, open_postings get query = Ok postings /\ Forall (fresh ∘ fst) postings /\
    Forall term_ok (terms_of postings) /\ records_u32 (terms_of postings) /\
    forall d, doc_score (terms_of postings) d = query_score query d.
Proof.
  intros Hq.
  enough (exists postings, open_postings get query = Ok postings /\ Forall (fresh ∘ fst) postings /\
    Forall term_ok (terms_of postings) /\ records_u32 (terms_of postings) /\
    forall d acc, fold_left (add_term d) (terms_of postings) acc =
      fold_left (fun acc '(id, w) =>
        match get id with Ok it => add_term d acc (entries it, w) | Err _ => acc end) query acc)
    as (postings & ? & ? & ? & ? & Hs) by (exists postings; split_and!; [done .. | intros d; apply Hs]).
  induction Hq as [|[id w] query [(it & Eg & Hf & He) Hw] Hq (postings & Eo & F1 & F2 & F3 & F4)];
    simpl.
  { exists []. split_and!; [done | constructor | constructor | constructor | done]. }
  rewrite Eg, Eo. simpl. destruct (last_id it) as [i|] eqn:El.
  - eexists. split; [done |]. unfold terms_of, records_u32 in *. csimpl. split_and!.
    + by constructor.
    + constructor; [|done]. destruct Hf as [Hok _]. split_and!; simpl; [by apply entries_sorted | | done].
      eapply Forall_impl; [exact He |]. by intros e [_ ?].
    + constructor; [|done]. simpl. eapply Forall_impl; [exact He |]. by intros e [? _].
    + intros d acc. apply F4.
  - exists postings. split_and!; try done. intros d acc. rewrite F4. f_equal.
    destruct Hf as [Hok _]. rewrite (last_id_law it Hok) in El.
    destruct (last (entries it)) eqn:E; [done |]. apply last_None in E. by rewrite E.
Qed.

Lemma plan_disjoint terms batches :
  plan_ok terms batches -> NoDup (concat (batch_docs terms <$> batches)).
Proof.
  intros [Hb Hs _]. induction Hs as [|b batches Hs IH Hbefore]; csimpl; [constructor |].
  apply Forall_cons in Hb as [Hbok Hb]. apply NoDup_app. split_and!; [| |by apply IH].
  - apply NoDup_filter, NoDup_fmap_2; [intros ? ?; lia | apply NoDup_seq].
  - intros d Hd (i & l & Hl & Hdl)%elem_of_concat. rewrite list_lookup_fmap in Hl.
    destruct (batches !! i) as [b'|] eqn:Ei; [|done]. injection Hl as <-.
    rewrite Forall_lookup in Hb, Hbefore. specialize (Hb i b' Ei). specialize (Hbefore i b' Ei).
    apply elem_of_batch_docs in Hd as [_ Hd]; [|done].
    apply elem_of_batch_docs in Hdl as [_ Hdl]; [|done].
    unfold before_batch, in_batch in *. lia.
Qed.

Lemma plan_docs terms batches d :
  plan_ok terms batches ->
  d ∈ concat (batch_docs terms <$> batches) <-> nonzero terms d.
Proof.
  intros [Hb _ Hc]. rewrite Forall_forall in Hb. split.
  - intros (i & l & Hl & Hdl)%elem_of_concat. rewrite list_lookup_fmap in Hl.
    destruct (batches !! i) as [b|] eqn:Ei; [|done]. injection Hl as <-.
    by apply elem_of_batch_docs in Hdl as [? _]; [|apply Hb; by eapply list_elem_of_lookup_2].
  - intros Hd. destruct (Hc d Hd) as (b & Hin & Hbd). apply list_elem_of_lookup in Hin as [i Hi].
    apply elem_of_concat. exists i, (batch_docs terms b). rewrite list_lookup_fmap, Hi.
    split; [done |]. apply elem_of_batch_docs; [|done]. apply Hb. by eapply list_elem_of_lookup_2.
Qed.

Lemma state_new_holds query batch_size :
  is_sorted query.*1 = true -> (1 <= batch_size <= U32_MAX)%N ->
  Forall (fun '(id, w) => stored_ok id /\ impact binary32 w) query ->
  exists terms s ids, Forall term_ok terms /\ (forall d, doc_score terms d = query_score query d) /\
    PostingBlockMaxState_new get query batch_size = Returned (Ok s) /\
    sparse_holds get terms s ids /\ forall d, d ∈ ids <-> nonzero terms d.
Proof.
  intros Hs Hb Hq. destruct (open_postings_ok query Hq) as (postings & Eo & F1 & F2 & F3 & F4).
  assert (Hplan : exists batches t, kernel_new get query batch_size
    (set_to QueryTerms (length query) zero_telemetry) = Returned (Ok (batches, t)) /\
    plan_ok (terms_of postings) batches).
  { unfold kernel_new. rewrite Eo. destruct (N.ltb_spec U32_MAX batch_size); [lia |].
    set (t := set_to PostingLists _ _).
    destruct (plan_batches_native postings batch_size t) as [[batches t']|] eqn:En.
    - eexists _, _. split; [done |].
      apply (plan_native_ok postings batch_size t batches t'); (done || lia).
    - destruct (plan_fallback_ok postings batch_size t F1 F2 F3) as (batches & t' & -> & Hp); [lia |].
      by eexists _, _. }
  destruct Hplan as (batches & t & Ek & Hp).
  exists (terms_of postings). eexists _, (concat (batch_docs (terms_of postings) <$> batches)).
  split; [done |]. split; [done |]. split.
  - unfold PostingBlockMaxState_new. destruct (N.eqb_spec batch_size 0); [lia |]. rewrite Hs, Ek.
    assert (Hw : forallb (fun w => is_finite w && fle fzero w) query.*2 = true).
    { apply forallb_forall. intros w Hw%list_elem_of_In. apply list_elem_of_fmap in Hw as ([i w'] & -> & Hi).
      rewrite Forall_forall in Hq. destruct (Hq _ Hi) as [_ [Ww Hw]]. simpl.
      destruct w' as [| |sg m]; try done. simpl. unfold fle, fcompare, fzero. change (signed false 0) with 0%Z. simpl in Ww.
      destruct (Z.compare_spec 0 (signed sg m)) as [E|E|E]; [done | done |].
      exfalso. destruct sg; simpl in E; [rewrite Hw in E by done |]; lia. }
    by rewrite Hw.
  - split; [|intros d; by apply plan_docs]. split; simpl; try done.
    + by exists postings.
    + by apply plan_disjoint.
    + apply Hp.
    + intros pp Hpp. by apply elem_of_nil in Hpp.
Qed.
End Opening.

(** ** Theorems *)

(** The order does not depend on how the scores are written. *)
Lemma dense_order_ext f g (ids : list N) :
  (forall d, f d = g d) -> dense_order f ids = dense_order g ids.
Proof.
  intros E. unfold dense_order. f_equal. apply list_fmap_ext. intros _ d _.
  unfold scored_offset. by rewrite E.
Qed.

Section Theorems.
Context {I : Type} `{PostingListIter I} (get : N -> OperationResult I) (stopped_at : nat -> bool).

Section Exact.
Context `{!LawfulPosting I}.

Lemma sparse_replies terms s ids sizes :
  Forall term_ok terms -> (forall n, stopped_at n = false) ->
  sparse_holds get terms s ids -> Forall (fun n => n <> 0) sizes ->
  exists pieces rest, replies (sparse_next_batch get stopped_at) s sizes = Done <$> pieces /\
    dense_order (doc_score terms) ids = concat pieces ++ rest /\
    Forall2 (fun piece n => length piece <= n) pieces sizes /\ ([] ∈ pieces -> rest = []).
Proof.
  intros Ht Hs Hd Hz. revert s ids Hd. induction Hz as [|n sizes Hn Hz IH]; intros s ids Hd.
  { exists [], (dense_order (doc_score terms) ids). split_and!; [done | done | constructor |].
    intros He. by apply elem_of_nil in He. }
  simpl. destruct (sparse_next_exact get terms Ht stopped_at Hs s ids n Hd Hn)
    as (s' & ps & ids' & -> & Hd' & Ho & Hl & He).
  destruct (IH s' ids' Hd') as (pieces & rest & -> & Ho' & Hl' & He').
  exists (ps :: pieces), rest. csimpl. split_and!; [done | | by constructor |].
  - by rewrite Ho, Ho', app_assoc.
  - intros [<-|Hin]%elem_of_cons; [|by apply He']. rewrite (He eq_refl) in Ho.
    simpl in Ho. rewrite <- Ho in Ho'. symmetry in Ho'. by apply app_nil in Ho' as [_ ->].
Qed.

End Exact.

Lemma sparse_loop_error fuel n s s' points e :
  sparse_batch_loop get stopped_at fuel n s points = (s', Failed e) -> bm_terminal_error s' = Some e.
Proof.
  assert (Hpop : forall s, pop_next_point s <> Failed e).
  { intros s0. unfold pop_next_point. destruct (heap_pop _ _) as [[pending pts]|]; [|done].
    destruct (buffered_points s0), (active_batches s0 !! batch_index pending); try done.
    by destruct (heap_pop exact_cmp _) as [[? ?]|]. }
  assert (Hdrain : forall k s s' points, drain_points k s points <> (s', Failed e)).
  { intros k. induction k as [|k IH]; intros s0 s0' pts; simpl; [done |].
    pose proof (Hpop s0). destruct (pop_next_point s0) as [[[p s1]|]| | |]; try done.
    intros [= _ ->]. done. }
  revert s points. induction fuel as [|fuel IH]; intros s points; simpl; [done |].
  destruct (next_point_is_fixed s).
  - pose proof (Hpop s). destruct (pop_next_point s) as [[[p s1]|]|e'| |]; try done.
    + destruct (_ =? _); [done | apply IH].
    + by intros [= _ ->].
  - destruct (heap_pop batch_cmp _) as [[batch batches]|].
    + destruct (negb _); [done |].
      destruct (expand _ _ _ _) as [s1 [[[pp k]|]|e'| |]]; try done; try apply IH.
      by intros [= <- <-].
    + unfold finish. pose proof (Hdrain (n - length points) s s' points).
      by destruct (drain_points _ _ _) as [s1 [| | |]].
Qed.

(** A sparse ranking fails closed, whatever the index holds: after a
    failure every later request fails with the same error and leaves the
    state as it is, and a request that finds the flag set fails as
    cancelled instead of returning a short piece. *)
Theorem sparse_failure_sticky s s' n m :
  n <> 0 -> m <> 0 ->
  (forall e, sparse_next_batch get stopped_at s n = (s', Failed e) ->
     sparse_next_batch get stopped_at s' m = (s', Failed e)) /\
  (stopped_at (bm_loads s) = true -> bm_terminal_error s = None ->
     exists s'', sparse_next_batch get stopped_at s n = (s'', Failed SparseCancelled)).
Proof.
  intros Hn Hm. unfold sparse_next_batch.
  rewrite (proj2 (Nat.eqb_neq n 0) Hn), (proj2 (Nat.eqb_neq m 0) Hm). split.
  - intros e. destruct (bm_terminal_error s) as [e'|] eqn:Et.
    { intros [= <- <-]. by rewrite Et. }
    destruct (stopped_at (bm_loads s)).
    + by intros [= <- <-].
    + intros E. by rewrite (sparse_loop_error _ _ _ _ _ _ E).
  - intros -> ->. eauto.
Qed.
End Theorems.

(** ** Examples *)

(** An index of two dimensions. *)
Definition example_index (id : N) : OperationResult PostingListIterator :=
  Ok (if (id =? 1)%N then posting [(1, 4%Z); (3, 1%Z); (9, 5%Z)]%N
      else if (id =? 2)%N then posting [(2, 7%Z); (3, 3%Z)]%N
      else posting []).

Definition example_query : list (N * float) := [(1%N, of_Z binary32 2); (2%N, of_Z binary32 1)].

Lemma small_impact n : match of_Z binary32 n with Fin false _ => true | _ => false end = true ->
  impact binary32 (of_Z binary32 n).
Proof.
  intros E. split; [apply (of_Z_wf binary32) |]. repeat case_match; done.
Qed.

Lemma example_index_ok :
  Forall (fun '(id, w) => stored_ok example_index id /\ impact binary32 w) example_query.
Proof.
  constructor; [| constructor; [| constructor]];
    (split; [| apply small_impact; vm_compute; reflexivity]);
    (eexists; split; [reflexivity |]);
    (split; [apply posting_fresh; apply (bool_decide_unpack _); vm_compute; exact Logic.I |]);
    repeat (apply Forall_cons; split;
      [split; [vm_compute; discriminate | apply small_impact; vm_compute; reflexivity] |]);
    apply Forall_nil; exact Logic.I.
Qed.

Lemma example_docs d :
  d ∈ [1; 2; 3; 9]%N <-> feq (query_score example_index example_query d) fzero = false.
Proof.
  split.
  - rewrite list_elem_of_In. simpl. intros [<-|[<-|[<-|[<-|[]]]]]; vm_compute; reflexivity.
  - intros Hd. destruct (decide (d ∈ [1; 2; 3; 9]%N)) as [|Hno]; [done | exfalso].
    unfold query_score, example_query in Hd. simpl in Hd. unfold add_term in Hd. simpl in Hd.
    rewrite !find_weight_absent in Hd; [done | |];
      (intros Hin; apply Hno; revert Hin;
       match goal with |- d ∈ ?l -> _ => let v := eval vm_compute in l in change l with v end;
       rewrite !elem_of_cons, elem_of_nil; tauto).
Qed.


Lemma sparse_failure_sticky_witness :
  exists s, PostingBlockMaxState_new example_index example_query 2 = Returned (Ok s) /\
    exists s', sparse_next_batch example_index (fun _ => true) s 3 = (s', Failed SparseCancelled) /\
      sparse_next_batch example_index (fun _ => true) s' 5 = (s', Failed SparseCancelled).
Proof.
  assert (Hs : match PostingBlockMaxState_new example_index example_query 2 with
    | Returned (Ok s) => bm_terminal_error s = None | _ => False end) by (vm_compute; reflexivity).
  destruct (PostingBlockMaxState_new example_index example_query 2) as [[s|]| |]; try (exfalso; exact Hs).
  exists s. split; [reflexivity |].
  destruct (sparse_failure_sticky example_index (fun _ => true) s s 3 5 ltac:(lia) ltac:(lia))
    as [_ Hc]. destruct (Hc eq_refl Hs) as [s' E]. exists s'. split; [exact E |].
  destruct (sparse_failure_sticky example_index (fun _ => true) s s' 3 5 ltac:(lia) ltac:(lia))
    as [Hst _]. apply Hst. exact E.
Defined.

(** *** Negative weights

    The bounds stay upper bounds when stored weights are negative, but a
    batch whose bound is zero is dropped with its records, so whether a
    record with a negative score is ranked depends on the batch it falls
    into. *)

Definition negative_index (id : N) : OperationResult PostingListIterator :=
  Ok (posting [(1, (-4)%Z); (2, 3%Z)]%N).

Definition ranked_with (batch_size : N) : list (sparse_run (list ScoredPointOffset)) :=
  match PostingBlockMaxState_new negative_index [(0%N, of_Z binary32 1)] batch_size with
  | Returned (Ok s) => replies (sparse_next_batch negative_index (fun _ => false)) s [2; 2]
  | _ => []
  end.

Lemma negative_weights_depend_on_batches :
  ranked_with 1 = Done <$> [[{| idx := 2; score := of_Z binary32 3 |}]; []] /\
  ranked_with 2 = Done <$> [[{| idx := 2; score := of_Z binary32 3 |};
                             {| idx := 1; score := of_Z binary32 (-4) |}]; []].
Proof. split; vm_compute; reflexivity. Qed.
