(* ===== verification/TopK.v ===== *)
(** * The best k results

    lib/common/common/src/top_k.rs: a buffer of up to twice [k] results that
    is cut to the best [k] whenever it is full, with the score of the worst
    one kept as a threshold for what is pushed later.

    Results are ordered by score alone ([Ord for ScoredPointOffset] of
    lib/common/common/src/types.rs), so that equal scores may come in any
    order: [select_nth_unstable] and [sort_unstable] are any functions that
    keep their documented contract, the class [UnstableOrder].  The file
    proves that, whatever they do with equal scores, the buffer returns a best
    selection of everything pushed. *)

From S2P Require Import Prelude Float Order PointId RrfScoring.

(** ** Data *)

(** [Ord for Reverse<ScoredPointOffset>] *)
Definition reverse_cmp (a b : ScoredPointOffset) : comparison := ordered_cmp (score b) (score a).

(** [slice::select_nth_unstable] and [slice::sort_unstable] on reversed
    results.  After the selection of [n], the element at [n] is not smaller
    than those before it and not greater than those behind. *)
Class UnstableOrder : Type := {
  select_nth_unstable : nat -> list ScoredPointOffset -> list ScoredPointOffset;
  sort_unstable : list ScoredPointOffset -> list ScoredPointOffset;
  select_perm n l : select_nth_unstable n l ≡ₚ l;
  select_nth n l m : n < length l -> select_nth_unstable n l !! n = Some m ->
    Forall (fun x => cmp_le reverse_cmp x m) (take n (select_nth_unstable n l)) /\
    Forall (cmp_le reverse_cmp m) (drop n (select_nth_unstable n l));
  sort_unstable_perm l : sort_unstable l ≡ₚ l;
  sort_unstable_sorted l : StronglySorted (cmp_le reverse_cmp) (sort_unstable l);
}.

Record TopK : Type := mkTopK {
  k : nat;
  top_elements : list ScoredPointOffset;
  threshold : float;
}.

(** [f32::MIN], the least finite value. *)
Definition F32_MIN : float := Fin true ((2 ^ 24 - 1) * 2 ^ 253).

#[export] Instance ScoredPointOffset_inhabited : Inhabited ScoredPointOffset :=
  populate {| idx := 0; score := fzero |}.

(** ** Operations *)

Definition TopK_new (k : nat) : TopK := {| k := k; top_elements := []; threshold := F32_MIN |}.

(** [TopK::len] *)
Definition top_len (t : TopK) : nat := length (top_elements t).

Section Operations.
Context `{UnstableOrder}.

(** [TopK::push]; [k] is positive where its predecessor is taken. *)
Definition push (t : TopK) (element : ScoredPointOffset) : TopK :=
  if flt (threshold t) (score element) then
    let elements := top_elements t ++ [element] in
    if length elements =? k t * 2 then
      let elements := select_nth_unstable (k t - 1) elements in
      {| k := k t; top_elements := take (k t) elements;
         threshold := score elements.[k t - 1] |}
    else {| k := k t; top_elements := elements; threshold := threshold t |}
  else t.

(** [TopK::into_vec] *)
Definition into_vec (t : TopK) : list ScoredPointOffset :=
  take (k t) (sort_unstable (top_elements t)).
End Operations.

(** ** Best selections *)

(** At least as good a score. *)
Definition as_good (a b : ScoredPointOffset) : Prop := score_le (score b) (score a).

(** [ys] is a best selection of [k] elements of [xs], best first: as many as
    there are, and nothing left out is better than anything selected. *)
Definition selects (k : nat) (xs ys : list ScoredPointOffset) : Prop :=
  length ys = Nat.min k (length xs) /\ StronglySorted as_good ys /\
  exists rest, xs ≡ₚ ys ++ rest /\ forall x y, x ∈ rest -> y ∈ ys -> as_good y x.

(** Scores that can be pushed. *)
Definition above_min (x : ScoredPointOffset) : Prop :=
  wf binary32 (score x) /\ flt F32_MIN (score x) = true.

Lemma flt_spec x y :
  wf binary32 x -> wf binary32 y -> x <> NaN ->
  flt x y = true <-> y <> NaN /\ (rank binary32 x < rank binary32 y)%Z.
Proof.
  intros Wx Wy Nx. destruct (decide (y = NaN)) as [->|Ny].
  { split; [by destruct x | by intros []]. }
  unfold flt. rewrite (fcompare_rank binary32) by done.
  destruct (Z.compare_spec (rank binary32 x) (rank binary32 y)); split; try done; intros; lia.
Qed.

Lemma F32_MIN_ok : wf binary32 F32_MIN /\ F32_MIN <> NaN.
Proof. split; [|done]. unfold wf, F32_MIN. split; [|vm_compute; reflexivity]. vm_compute. done. Qed.

Lemma above_min_spec x :
  above_min x <-> wf binary32 (score x) /\ score x <> NaN /\
    (rank binary32 F32_MIN < rank binary32 (score x))%Z.
Proof.
  unfold above_min. destruct F32_MIN_ok as [HW HN]. split.
  - intros [Hw Hx]. by apply flt_spec in Hx as [? ?].
  - intros (Hw & Hn & Hx). split; [done |]. by apply flt_spec.
Qed.

Lemma as_good_cmp a b :
  wf binary32 (score a) -> wf binary32 (score b) -> cmp_le reverse_cmp a b <-> as_good a b.
Proof.
  intros Ha Hb. unfold cmp_le, reverse_cmp, as_good, score_le.
  rewrite (ordered_cmp_rank binary32) by done.
  destruct (Z.compare_spec (rank binary32 (score b)) (rank binary32 (score a))); split; try done; lia.
Qed.

Section Exact.
Context `{UnstableOrder}.

(** What the buffer knows of everything pushed or shown not to matter. *)
Record covers (t : TopK) (xs : list ScoredPointOffset) : Prop := {
  cov_threshold : wf binary32 (threshold t) /\ threshold t <> NaN /\
    score_le F32_MIN (threshold t);
  cov_elements : Forall above_min (top_elements t);
  cov_split : exists rest, xs ≡ₚ top_elements t ++ rest /\
    Forall (fun x => score_le (score x) (threshold t)) rest /\
    (rest <> [] -> k t <= length (top_elements t));
  cov_better : Forall (fun x => score_le (threshold t) (score x)) (top_elements t);
  cov_full : threshold t <> F32_MIN -> k t <= length (top_elements t);
  cov_room : 0 < k t -> length (top_elements t) < 2 * k t;
}.

Lemma covers_new k : covers (TopK_new k) [].
Proof.
  split; simpl; [| constructor | | constructor | done | lia].
  { destruct F32_MIN_ok. split; [done |]. split; [done | reflexivity]. }
  exists []. split_and!; [done | constructor | done].
Qed.

(** A result not above the threshold changes nothing. *)
Lemma covers_skip t xs x :
  covers t xs -> above_min x -> score_le (score x) (threshold t) -> covers t (x :: xs).
Proof.
  intros [C1 C2 (rest & C3 & C4 & C5) C6 C7 C8] Hx Hle. split; try done.
  exists (x :: rest). split_and!.
  - rewrite C3. apply Permutation_middle.
  - by constructor.
  - intros _. apply C7. intros E. apply above_min_spec in Hx as (_ & _ & Hx).
    rewrite E in Hle. unfold score_le in Hle. lia.
Qed.

Lemma covers_perm t xs xs' : covers t xs -> xs ≡ₚ xs' -> covers t xs'.
Proof.
  intros [C1 C2 (rest & C3 & C4 & C5) C6 C7 C8] Hp. split; try done.
  exists rest. by rewrite <- Hp.
Qed.

(** The cut of a full buffer. *)
Lemma cut_spec n l :
  0 < n -> n <= length l -> Forall above_min l ->
  let sel := select_nth_unstable (n - 1) l in
  let m := score sel.[n - 1] in
  score_le F32_MIN m /\
  Forall above_min (take n sel) /\ Forall above_min (drop n sel) /\ length (take n sel) = n /\
  l ≡ₚ take n sel ++ drop n sel /\ wf binary32 m /\ m <> NaN /\
  Forall (fun x => score_le m (score x)) (take n sel) /\
  Forall (fun x => score_le (score x) m) (drop n sel).
Proof.
  intros Hn Hle Hl sel m. assert (Hp : sel ≡ₚ l) by apply select_perm.
  assert (Hlen : length sel = length l) by by rewrite Hp.
  assert (Hs : Forall above_min sel) by by rewrite Hp.
  destruct (lookup_lt_is_Some_2 sel (n - 1) ltac:(lia)) as [y Hy].
  assert (Ey : m = score y) by (unfold m; by rewrite (index_lookup _ _ _ Hy)).
  destruct (select_nth (n - 1) l y ltac:(lia) Hy) as [S1 S2]. fold sel in S1, S2.
  assert (Ay : above_min y) by by eapply Forall_lookup_1.
  pose proof Ay as (Wy & Ny & My)%above_min_spec. rewrite Ey.
  assert (Et : take n sel = take (n - 1) sel ++ [y]).
  { replace n with (S (n - 1)) at 1 by lia. by apply take_S_r. }
  split_and!; try done.
  - unfold score_le. lia.
  - by apply Forall_take.
  - by apply Forall_drop.
  - rewrite length_take. lia.
  - by rewrite take_drop, Hp.
  - rewrite Et. apply Forall_app. split; [|by repeat constructor; unfold score_le].
    apply (Forall_take _ (n - 1)) in Hs. rewrite Forall_forall in *. intros x Hx.
    apply (as_good_cmp x y); [apply (Hs x Hx) | done | by apply S1].
  - rewrite (drop_S _ _ _ Hy) in S2. apply Forall_cons in S2 as [_ S2].
    replace (S (n - 1)) with n in S2 by lia. apply (Forall_drop _ n) in Hs.
    rewrite Forall_forall in *. intros x Hx.
    apply (as_good_cmp y x); [done | apply (Hs x Hx) | by apply S2].
Qed.

(** Pushing adds a result to what the buffer covers. *)
Lemma covers_push t xs x :
  covers t xs -> above_min x -> covers (push t x) (x :: xs).
Proof.
  intros Hc Hx. unfold push. pose proof Hc as [(C1 & C1' & C0) C2 (rest & C3 & C4 & C5) C6 C7 C8].
  pose proof Hx as (Wx & Nx & Mx)%above_min_spec.
  destruct (flt (threshold t) (score x)) eqn:E.
  2:{ apply covers_skip; [done | done |]. apply Z.nlt_ge. intros Hlt.
      assert (flt (threshold t) (score x) = true) as Ht by by apply flt_spec. congruence. }
  apply flt_spec in E as [_ E]; [|done..].
  assert (Hall : Forall above_min (top_elements t ++ [x])) by (apply Forall_app; auto).
  assert (Hperm : x :: xs ≡ₚ (top_elements t ++ [x]) ++ rest).
  { rewrite C3, <- app_assoc. apply Permutation_middle. }
  destruct (Nat.eqb_spec (length (top_elements t ++ [x])) (k t * 2)) as [Ef|Ef].
  - rewrite length_app in Ef. simpl in Ef.
    destruct (cut_spec (k t) (top_elements t ++ [x])) as (D0 & D1 & D2 & D3 & D4 & D5 & D6 & D7 & D8);
      [lia | rewrite length_app; simpl; lia | done |].
    split; cbn [k top_elements threshold]; [done | done | | done | lia | lia].
    exists (drop (k t) (select_nth_unstable (k t - 1) (top_elements t ++ [x])) ++ rest).
    split; [rewrite Hperm, app_assoc; by apply Permutation_app |]. split; [|lia].
    apply Forall_app. split; [done |].
    (* what was left out before is below the old threshold, hence below the new one *)
    assert (Hgrow : score_le (threshold t)
      (score (select_nth_unstable (k t - 1) (top_elements t ++ [x])).[k t - 1])).
    { set (sel := select_nth_unstable (k t - 1) (top_elements t ++ [x])).
      assert (Hb : Forall (fun y => score_le (threshold t) (score y)) sel).
      { unfold sel. rewrite select_perm. apply Forall_app. split; [done |].
        constructor; [|constructor]. unfold score_le. lia. }
      destruct (lookup_lt_is_Some_2 sel (k t - 1)) as [y Hy].
      { unfold sel. rewrite (Permutation_length (select_perm _ _)), length_app. simpl. lia. }
      rewrite (index_lookup _ _ _ Hy). by apply (Forall_lookup_1 _ _ _ _ Hb Hy). }
    eapply Forall_impl; [exact C4 |]. intros y Hy. cbv beta in *. etransitivity; [exact Hy | done].
  - split; cbn [k top_elements threshold]; [done | done | | | |].
    + exists rest. split_and!; [done | done |]. intros Hr. rewrite length_app. specialize (C5 Hr). lia.
    + apply Forall_app. split; [done |]. constructor; [|constructor]. unfold score_le. lia.
    + intros Ht. rewrite length_app. specialize (C7 Ht). lia.
    + intros Hk. rewrite length_app in Ef |- *. simpl in *. specialize (C8 Hk). lia.
Qed.

(** A buffer returns a best selection of what it covers. *)
Lemma into_vec_selects t xs : covers t xs -> selects (k t) xs (into_vec t).
Proof.
  intros [(C1 & C1' & C0) C2 (rest & C3 & C4 & C5) C6 C7 C8]. unfold into_vec.
  set (l := sort_unstable (top_elements t)).
  assert (Hp : l ≡ₚ top_elements t) by apply sort_unstable_perm.
  assert (Ha : Forall above_min l) by by rewrite Hp.
  assert (Hs : StronglySorted as_good l).
  { pose proof (sort_unstable_sorted (top_elements t)) as Hs. fold l in Hs. clear -Hs Ha.
    induction Hs as [|x l Hs IH Hx]; [constructor |]. apply Forall_cons in Ha as [Ax Ha].
    constructor; [auto |]. rewrite Forall_forall in *. intros y Hy.
    apply as_good_cmp; [apply Ax | apply (Ha y Hy) | auto]. }
  assert (Hb : Forall (fun x => score_le (threshold t) (score x)) l) by by rewrite Hp.
  assert (Hxs : xs ≡ₚ take (k t) l ++ (drop (k t) l ++ rest)).
  { rewrite app_assoc, take_drop, Hp. done. }
  split_and!.
  - rewrite length_take, (Permutation_length C3), (Permutation_length Hp), length_app.
    destruct rest; [simpl; lia |]. specialize (C5 ltac:(done)). lia.
  - rewrite <- (take_drop (k t) l) in Hs. by apply StronglySorted_app_1_l in Hs.
  - eexists. split; [exact Hxs |]. intros x y [Hx|Hx]%elem_of_app Hy.
    + rewrite <- (take_drop (k t) l) in Hs. by eapply StronglySorted_app_1_elem_of.
    + rewrite Forall_forall in C4, Hb. unfold as_good. etransitivity; [by apply C4 |].
      apply Hb. apply (subseteq_take (k t)) in Hy. done.
Qed.

Lemma covers_pushes t xs ys :
  covers t xs -> Forall above_min ys -> covers (fold_left push ys t) (ys ++ xs).
Proof.
  intros Hc Hy. revert t xs Hc. induction Hy as [|y ys Hy Hys IH]; intros t xs Hc; simpl; [done |].
  eapply covers_perm; [apply IH, covers_push; [exact Hc | done] |]. symmetry. apply Permutation_middle.
Qed.

(** What can not be selected is dropped at once. *)
Lemma push_below t xs x :
  covers t xs -> wf binary32 (score x) -> flt F32_MIN (score x) = false -> push t x = t.
Proof.
  intros [(C1 & C1' & C0) _ _ _ _ _] Wx Hx. unfold push.
  destruct (flt (threshold t) (score x)) eqn:E; [|done]. exfalso.
  apply flt_spec in E as [Nx E]; [|done..]. unfold score_le in C0.
  assert (flt F32_MIN (score x) = true); [|congruence].
  apply flt_spec; [apply F32_MIN_ok | done | apply F32_MIN_ok |]. split; [done | lia].
Qed.

Lemma push_k t x : k (push t x) = k t.
Proof. unfold push. by repeat case_match. Qed.

Lemma pushes_k t xs : k (fold_left push xs t) = k t.
Proof. revert t. induction xs as [|x xs IH]; intros t; simpl; [done |]. by rewrite IH, push_k. Qed.

Lemma covers_all t ys xs :
  covers t ys -> Forall (fun x => wf binary32 (score x)) xs ->
  covers (fold_left push xs t) (filter (fun x => flt F32_MIN (score x) = true) xs ++ ys).
Proof.
  intros Hc Hx. revert t ys Hc. induction Hx as [|x xs Hx Hxs IH]; intros t ys Hc; simpl; [done |].
  rewrite filter_cons. destruct (decide (flt F32_MIN (score x) = true)) as [E|E].
  - eapply covers_perm; [apply IH, covers_push; [exact Hc | done] |].
    symmetry. apply Permutation_middle.
  - apply not_true_is_false in E. rewrite (push_below t ys x) by done. auto.
Qed.

(** [C12] The buffer of twice [k] results returns the best [k]: whatever is
    pushed, in whatever order, and whatever the unstable selection and sort do
    with equal scores, the result is sorted by descending score, has [k]
    elements or everything that was pushed, and nothing left out has a better
    score than anything returned; a score that is not a number or not above
    the least finite value is never returned; and the buffer never holds more
    than it has allocated. *)
Theorem top_k_exact (n : nat) (xs : list ScoredPointOffset) :
  Forall (fun x => wf binary32 (score x)) xs ->
  selects n (filter (fun x => flt F32_MIN (score x) = true) xs)
    (into_vec (fold_left push xs (TopK_new n))) /\
  (0 < n -> length (top_elements (fold_left push xs (TopK_new n))) < 2 * n).
Proof.
  intros Hx. pose proof (covers_all (TopK_new n) [] xs (covers_new n) Hx) as Hc.
  rewrite app_nil_r in Hc. pose proof (into_vec_selects _ _ Hc) as Hs.
  pose proof (cov_room _ _ Hc) as Hr. rewrite pushes_k in Hs, Hr. done.
Qed.
End Exact.

(** ** Examples *)

#[export] Instance reverse_cmp_total : TotalCmp reverse_cmp.
Proof.
  apply (TotalCmp_flip (fun a b => ordered_cmp (score a) (score b))).
  apply (TotalCmp_key ordered_cmp score), _.
Qed.

(** The contract holds of a merge sort. *)
Definition merge_order : UnstableOrder.
Proof.
  refine {| select_nth_unstable _ l := sort_by reverse_cmp l;
            sort_unstable l := sort_by reverse_cmp l |}.
  - intros _ l. apply sort_by_perm.
  - intros n l m _ Hm. pose proof (sort_by_sorted reverse_cmp l) as Hs.
    rewrite <- (take_drop n (sort_by reverse_cmp l)) in Hs. pose proof (drop_S _ _ _ Hm) as Ed.
    split.
    + apply Forall_forall. intros x Hx. eapply StronglySorted_app_1_elem_of; [exact Hs | done |].
      rewrite Ed. left.
    + apply StronglySorted_app_r in Hs. rewrite Ed in *. apply StronglySorted_inv in Hs as [_ Hs].
      constructor; [|done]. unfold cmp_le. by rewrite (cmp_refl reverse_cmp).
  - intros l. apply sort_by_perm.
  - intros l. apply sort_by_sorted, _.
Defined.

Definition scored (id : N) (s : Z) : ScoredPointOffset := {| idx := id; score := of_Z binary32 s |}.

Definition pushed : list ScoredPointOffset :=
  [scored 1 5; scored 2 9; scored 3 2; scored 4 9; {| idx := 5; score := NaN |}; scored 6 7]%N.

Lemma top_k_exact_witness :
  Forall (fun x => wf binary32 (score x)) pushed /\
  selects 2 (filter (fun x => flt F32_MIN (score x) = true) pushed)
    (@into_vec merge_order (fold_left (@push merge_order) pushed (TopK_new 2))) /\
  score <$> @into_vec merge_order (fold_left (@push merge_order) pushed (TopK_new 2)) =
    [of_Z binary32 9; of_Z binary32 9].
Proof.
  assert (Hw : Forall (fun x => wf binary32 (score x)) pushed).
  { unfold pushed. repeat (apply Forall_cons; split; [first [apply (of_Z_wf binary32) | exact Logic.I] |]).
    apply Forall_nil. done. }
  split; [exact Hw |]. split; [apply (@top_k_exact merge_order 2 pushed Hw) |].
  vm_compute. reflexivity.
Defined.
