(* ===== verification/SparseSearch.v ===== *)
(** * Sparse search

    lib/sparse/src/index/search_context.rs: the ordinary search over posting
    lists.  Records are scored in batches of contiguous identifiers; between
    batches the longest list may skip to where another list continues, and a
    batch may be skipped whole, when bounds on the weights show that nothing
    there can reach the threshold of the results.  [plain_search] scores given
    records one by one.

    The file proves that the search ends, never reads or writes outside its
    buffer of scores, and returns a best selection of the records of the
    posting lists, whatever pruning is in use; that the counters of the
    telemetry account for every posting element; and, over the inverted index
    in memory, that the scores are those of the stored vectors. *)

From S2P Require Import Prelude Float Order PointId RrfScoring RrfSession Postings SparseVectors.
From S2P Require Import BlockMax InvertedIndex TopK.

Open Scope result_scope.

(** ** Data *)

Record SearchTelemetry : Type := mkSearchTelemetry {
  posting_lists : nat;
  posting_elements : nat;
  posting_elements_visited : nat;
  posting_elements_remaining : nat;
  posting_elements_skipped : nat;
  batch_count : nat;
  scored_id_span : nat;
  prune_attempts : nat;
  prune_successes : nat;
  block_prune_attempts : nat;
  block_prune_successes : nat;
  block_pruning_router_disabled : bool;
  block_pruning_trend_disabled : bool;
  t_use_pruning : bool;
  t_use_block_pruning : bool;
  cancelled : bool;
}.

Record IndexedPostingListIterator (I : Type) : Type := mkIndexed {
  posting_list_iterator : I;
  query_index : N;
  query_weight : float;
}.
Arguments mkIndexed {I} _ _ _.
Arguments posting_list_iterator {I} _.
Arguments query_index {I} _.
Arguments query_weight {I} _.

Definition ADVANCE_BATCH_SIZE : N := 10000.

(** The buffer of scores lives inside a batch; [is_stopped] is passed to the
    operations that load it. *)
Record SearchContext (I : Type) : Type := mkSearchContext {
  postings_iterators : list (IndexedPostingListIterator I);
  query : RemappedSparseVector;
  top : nat;
  top_results : TopK;
  min_record_id : option N;
  max_record_id : N;
  use_pruning : bool;
  use_block_pruning : bool;
  block_prune_failure_limit : option nat;
  consecutive_block_prune_failures : nat;
  block_prune_has_succeeded : bool;
  telemetry_of : SearchTelemetry;
  batch_size : N;
}.
Arguments mkSearchContext {I} _ _ _ _ _ _ _ _ _ _ _ _ _.
Arguments postings_iterators {I} _.
Arguments query {I} _.
Arguments top {I} _.
Arguments top_results {I} _.
Arguments min_record_id {I} _.
Arguments max_record_id {I} _.
Arguments use_pruning {I} _.
Arguments use_block_pruning {I} _.
Arguments block_prune_failure_limit {I} _.
Arguments consecutive_block_prune_failures {I} _.
Arguments block_prune_has_succeeded {I} _.
Arguments telemetry_of {I} _.
Arguments batch_size {I} _.

(** Counters added to the telemetry. *)
Definition tally (t : SearchTelemetry) (visited skipped batches span attempts successes
    block_attempts block_successes : nat) : SearchTelemetry :=
  {| posting_lists := posting_lists t;
     posting_elements := posting_elements t;
     posting_elements_visited := posting_elements_visited t + visited;
     posting_elements_remaining := posting_elements_remaining t;
     posting_elements_skipped := posting_elements_skipped t + skipped;
     batch_count := batch_count t + batches;
     scored_id_span := scored_id_span t + span;
     prune_attempts := prune_attempts t + attempts;
     prune_successes := prune_successes t + successes;
     block_prune_attempts := block_prune_attempts t + block_attempts;
     block_prune_successes := block_prune_successes t + block_successes;
     block_pruning_router_disabled := block_pruning_router_disabled t;
     block_pruning_trend_disabled := block_pruning_trend_disabled t;
     t_use_pruning := t_use_pruning t;
     t_use_block_pruning := t_use_block_pruning t;
     cancelled := cancelled t |}.

(** The flags of the telemetry. *)
Definition flags (t : SearchTelemetry) (pruning block_pruning router trend stopped : bool)
    : SearchTelemetry :=
  {| posting_lists := posting_lists t;
     posting_elements := posting_elements t;
     posting_elements_visited := posting_elements_visited t;
     posting_elements_remaining := posting_elements_remaining t;
     posting_elements_skipped := posting_elements_skipped t;
     batch_count := batch_count t;
     scored_id_span := scored_id_span t;
     prune_attempts := prune_attempts t;
     prune_successes := prune_successes t;
     block_prune_attempts := block_prune_attempts t;
     block_prune_successes := block_prune_successes t;
     block_pruning_router_disabled := router;
     block_pruning_trend_disabled := trend;
     t_use_pruning := pruning;
     t_use_block_pruning := block_pruning;
     cancelled := stopped |}.

Section Operations.
Context {I : Type} `{PostingListIter I} `{UnstableOrder}.
Implicit Types (c : SearchContext I) (ps : list (IndexedPostingListIterator I)).

Definition with_iterator (p : IndexedPostingListIterator I) (it : I)
    : IndexedPostingListIterator I :=
  {| posting_list_iterator := it; query_index := query_index p; query_weight := query_weight p |}.

(** What a step of the search changes. *)
Definition update c ps (results : TopK) (min_id : option N) (t : SearchTelemetry)
    : SearchContext I :=
  {| postings_iterators := ps; query := query c; top := top c; top_results := results;
     min_record_id := min_id; max_record_id := max_record_id c; use_pruning := use_pruning c;
     use_block_pruning := use_block_pruning c;
     block_prune_failure_limit := block_prune_failure_limit c;
     consecutive_block_prune_failures := consecutive_block_prune_failures c;
     block_prune_has_succeeded := block_prune_has_succeeded c;
     telemetry_of := t; batch_size := batch_size c |}.

(** The state of block pruning. *)
Definition update_block c (block : bool) (failures : nat) (succeeded : bool) (t : SearchTelemetry)
    : SearchContext I :=
  {| postings_iterators := postings_iterators c; query := query c; top := top c;
     top_results := top_results c; min_record_id := min_record_id c;
     max_record_id := max_record_id c; use_pruning := use_pruning c;
     use_block_pruning := block; block_prune_failure_limit := block_prune_failure_limit c;
     consecutive_block_prune_failures := failures; block_prune_has_succeeded := succeeded;
     telemetry_of := t; batch_size := batch_size c |}.

(** *** Opening *)

(** The loop over the dimensions of the query; [Some None] is an error of the
    index, [None] the panic of an index out of bounds of the values. *)
Fixpoint open_iterators (get : N -> OperationResult I) (query_values : list float)
    (query_weight_offset : nat) (ids : list N) (ps : list (IndexedPostingListIterator I))
    (min_id max_id : N) : outcome (list (IndexedPostingListIterator I) * N * N) :=
  match ids with
  | [] => Returned (Ok (ps, min_id, max_id))
  | id :: ids =>
      match get id with
      | Err e => Returned (Err e)
      | Ok it =>
          let '(it, first) := peek it in
          match first, last_id it with
          | Some first, Some last_id =>
              match query_values !! query_weight_offset with
              | None => Panicked
              | Some query_weight =>
                  open_iterators get query_values (S query_weight_offset) ids
                    (ps ++ [{| posting_list_iterator := it; query_index := id;
                               query_weight := query_weight |}])
                    (N.min min_id (record_id first)) (N.max max_id last_id)
              end
          | _, _ => open_iterators get query_values (S query_weight_offset) ids ps min_id max_id
          end
      end
  end.

(** [SearchContext::new] *)
Definition SearchContext_new (query : RemappedSparseVector) (top : nat)
    (get : N -> OperationResult I) : outcome (SearchContext I) :=
  match open_iterators get (values query) 0 (indices query) [] U32_MAX 0 with
  | Returned (Ok (ps, min_id, max_id)) =>
      let non_negative := forallb (fun v => fle fzero v) (values query) in
      let pruning := reliable_max_next_weight I && non_negative in
      let block_pruning := reliable_block_max I && non_negative in
      Returned (Ok
        {| postings_iterators := ps; query := query; top := top; top_results := TopK_new top;
           min_record_id := Some min_id; max_record_id := max_id; use_pruning := pruning;
           use_block_pruning := block_pruning; block_prune_failure_limit := None;
           consecutive_block_prune_failures := 0; block_prune_has_succeeded := false;
           telemetry_of :=
             {| posting_lists := length ps;
                posting_elements := sum_list ((fun p => len_to_end (posting_list_iterator p)) <$> ps);
                posting_elements_visited := 0; posting_elements_remaining := 0;
                posting_elements_skipped := 0; batch_count := 0; scored_id_span := 0;
                prune_attempts := 0; prune_successes := 0; block_prune_attempts := 0;
                block_prune_successes := 0; block_pruning_router_disabled := false;
                block_pruning_trend_disabled := false; t_use_pruning := pruning;
                t_use_block_pruning := block_pruning; cancelled := false |};
           batch_size := ADVANCE_BATCH_SIZE |})
  | Returned (Err e) => Returned (Err e)
  | Panicked => Panicked
  | OutOfFuel => OutOfFuel
  end.

(** *** Batches *)

(** The loop of [advance_batch] over the postings: the cursors moved, the
    scores and the number of elements visited. *)
Fixpoint score_batch (start last : N) ps (scores : option (list float)) (visited : nat)
    : list (IndexedPostingListIterator I) * option (list float) * nat :=
  match ps with
  | [] => ([], scores, visited)
  | p :: ps =>
      let elements_before := len_to_end (posting_list_iterator p) in
      let '(it, scores) :=
        for_each_till_id (posting_list_iterator p) last scores (add_score start (query_weight p)) in
      let '(ps, scores, visited) :=
        score_batch start last ps scores (visited + (elements_before - len_to_end it)) in
      (with_iterator p it :: ps, scores, visited)
  end.

(** The loop of [advance_batch] over the scores. *)
Fixpoint push_scores (start : N) (filter_condition : N -> bool) (local_index : nat)
    (scores : list float) (results : TopK) : TopK :=
  match scores with
  | [] => results
  | score :: scores =>
      let real_id := (start + N.of_nat local_index)%N in
      let results :=
        if negb (feq score fzero) && flt (threshold results) score then
          if filter_condition real_id then push results {| idx := real_id; score := score |}
          else results
        else results in
      push_scores start filter_condition (S local_index) scores results
  end.

(** [advance_batch]; the length of a batch wraps at 32 bits.  [None] is an
    access out of bounds. *)
Definition advance_batch c (start last : N) (filter_condition : N -> bool)
    : option (SearchContext I) :=
  let batch_len := N.to_nat ((last - start + 1) `mod` 2 ^ 32) in
  let '(ps, scores, visited) :=
    score_batch start last (postings_iterators c) (Some (replicate batch_len fzero)) 0 in
  scores ← scores;
  Some (update c ps (push_scores start filter_condition 0 scores (top_results c)) (min_record_id c)
    (tally (telemetry_of c) visited 0 1 batch_len 0 0 0 0)).

(** [process_last_posting_list]; [None] is the panic of an empty vector. *)
Definition process_last_posting_list c (filter_condition : N -> bool) : option (SearchContext I) :=
  match postings_iterators c with
  | [] => None
  | p :: ps =>
      let elements_before := len_to_end (posting_list_iterator p) in
      let '(it, results) :=
        for_each_till_id (posting_list_iterator p) U32_MAX (top_results c)
          (fun results id weight =>
             if filter_condition id
             then push results {| idx := id; score := (weight * query_weight p)%f32 |}
             else results) in
      Some (update c (with_iterator p it :: ps) results (min_record_id c)
        (tally (telemetry_of c) (elements_before - len_to_end it) 0 0 0 0 0 0 0))
  end.

(** [next_min_id] *)
Fixpoint next_min_id ps (min_id : option N) : list (IndexedPostingListIterator I) * option N :=
  match ps with
  | [] => ([], min_id)
  | p :: ps =>
      let '(it, next_element) := peek (posting_list_iterator p) in
      let min_id :=
        match next_element with
        | Some next_element =>
            match min_id with
            | None => Some (record_id next_element)
            | Some min_id_seen =>
                if (record_id next_element <? min_id_seen)%N then Some (record_id next_element)
                else min_id
            end
        | None => min_id
        end in
      let '(ps, min_id) := next_min_id ps min_id in
      (with_iterator p it :: ps, min_id)
  end.

Definition length_cmp (a b : nat * IndexedPostingListIterator I) : comparison :=
  Nat.compare (len_to_end (posting_list_iterator a.2)) (len_to_end (posting_list_iterator b.2)).

(** [slice::swap] of the first element with another. *)
Definition swap_front {A} (i : nat) (l : list A) : list A :=
  match l !! 0, l !! i with
  | Some x, Some y => <[0 := y]> (<[i := x]> l)
  | _, _ => l
  end.

(** [promote_longest_posting_lists_to_the_front] *)
Definition promote_longest ps : list (IndexedPostingListIterator I) :=
  match max_by length_cmp (imap pair ps) with
  | Some (posting_index, _) => if posting_index =? 0 then ps else swap_front posting_index ps
  | None => ps
  end.

(** [retain] of the lists that have elements left. *)
Definition retain_left ps : list (IndexedPostingListIterator I) :=
  filter (fun p => len_to_end (posting_list_iterator p) <> 0) ps.

(** *** Pruning *)

(** The loops of [prune_batch_if_safe]. *)
Fixpoint batch_bound (last : N) ps (ub : float) : list (IndexedPostingListIterator I) * float :=
  match ps with
  | [] => ([], ub)
  | p :: ps =>
      let '(it, max_weight) := max_weight_till_id (posting_list_iterator p) last in
      let '(ps, ub) :=
        batch_bound last ps
          (match max_weight with Some m => (ub + m * query_weight p)%f32 | None => ub end) in
      (with_iterator p it :: ps, ub)
  end.

Fixpoint skip_batch (last : N) ps (skipped : nat) : list (IndexedPostingListIterator I) * nat :=
  match ps with
  | [] => ([], skipped)
  | p :: ps =>
      let position_before := cursor_index (posting_list_iterator p) in
      let it := skip_till_id (posting_list_iterator p) last in
      let '(ps, skipped) := skip_batch last ps (skipped + (cursor_index it - position_before)) in
      (with_iterator p it :: ps, skipped)
  end.

(** [prune_batch_if_safe] *)
Definition prune_batch_if_safe c (last : N) : SearchContext I * bool :=
  if negb (use_block_pruning c) || (top_len (top_results c) <? top c) then (c, false)
  else
    let t := tally (telemetry_of c) 0 0 0 0 0 0 1 0 in
    let '(ps, ub) := batch_bound last (postings_iterators c) fzero in
    let c := update c ps (top_results c) (min_record_id c) t in
    if fle (threshold (top_results c)) ub then
      if block_prune_has_succeeded c then (c, false)
      else
        let failures := S (consecutive_block_prune_failures c) in
        match block_prune_failure_limit c with
        | Some limit =>
            if limit <=? failures then
              (update_block c false failures false
                 (flags t (t_use_pruning t) false true (block_pruning_trend_disabled t)
                    (cancelled t)), false)
            else (update_block c (use_block_pruning c) failures false t, false)
        | None => (update_block c (use_block_pruning c) failures false t, false)
        end
    else
      let '(ps, skipped) := skip_batch last ps 0 in
      let t := tally t 0 skipped 0 0 0 0 0 1 in
      (update_block (update c ps (top_results c) (min_record_id c) t) (use_block_pruning c) 0 true t,
       true).

(** [prune_longest_posting_list] *)
Definition prune_longest_posting_list c (min_score : float) : SearchContext I * bool :=
  match postings_iterators c with
  | [] => (c, false)
  | longest :: rest =>
      let t := tally (telemetry_of c) 0 0 0 0 1 0 0 0 in
      let done ps t pruned := (update c ps (top_results c) (min_record_id c) t, pruned) in
      let '(it, element) := peek (posting_list_iterator longest) in
      match element with
      | None => done (with_iterator longest it :: rest) t false
      | Some element =>
          let '(rest, next_min_id_in_others) := next_min_id rest None in
          let keep := with_iterator longest it :: rest in
          let max_weight_from_list := fmax (weight element) (max_next_weight element) in
          let max_score_contribution := (max_weight_from_list * query_weight longest)%f32 in
          match next_min_id_in_others with
          | Some next_min_id =>
              if (next_min_id <=? record_id element)%N then done keep t false
              else if flt max_score_contribution min_score then
                let position_before_pruning := cursor_index it in
                let it := (skip_to it next_min_id).1 in
                let skipped := cursor_index it - position_before_pruning in
                if skipped =? 0 then done (with_iterator longest it :: rest) t false
                else done (with_iterator longest it :: rest) (tally t 0 skipped 0 0 0 1 0 0) true
              else done keep t false
          | None =>
              if flt max_score_contribution min_score then
                let position_before_pruning := cursor_index it in
                let it := skip_to_end it in
                done (with_iterator longest it :: rest)
                  (tally t 0 (cursor_index it - position_before_pruning) 0 0 0 1 0 0) true
              else done keep t false
          end
      end
  end.

(** *** The search *)

Inductive step_result : Type :=
  | Continue (c : SearchContext I) (best_min_score : float)
  | Break (c : SearchContext I)
  | OutOfBounds.

(** The lists that have elements left, and their least record. *)
Definition refresh c : SearchContext I :=
  let '(ps, min_id) := next_min_id (retain_left (postings_iterators c)) None in
  update c ps (top_results c) min_id (telemetry_of c).

(** The end of a turn: the longest list comes first and is pruned. *)
Definition prune_between c (new_min_score : float) : SearchContext I :=
  let c := update c (promote_longest (postings_iterators c)) (top_results c) (min_record_id c)
    (telemetry_of c) in
  let '(c, pruned) := prune_longest_posting_list c new_min_score in
  if pruned then
    let '(ps, min_id) := next_min_id (postings_iterators c) None in
    update c ps (top_results c) min_id (telemetry_of c)
  else c.

(** One turn of the loop of [search], after the check for cancellation. *)
Definition search_step c (best_min_score : float) (filter_condition : N -> bool) : step_result :=
  match min_record_id c with
  | None => Break c
  | Some start =>
      let last := N.min (N.min (start + batch_size c) U32_MAX) (max_record_id c) in
      let '(c, pruned) := prune_batch_if_safe c last in
      if pruned then Continue (refresh c) best_min_score
      else
        match advance_batch c start last filter_condition with
        | None => OutOfBounds
        | Some c =>
            let c := refresh c in
            if length (postings_iterators c) =? 0 then Break c
            else if (length (postings_iterators c) =? 1) && negb (use_block_pruning c) then
              match process_last_posting_list c filter_condition with
              | None => OutOfBounds
              | Some c => Break c
              end
            else if use_pruning c && (top c <=? top_len (top_results c)) then
              let new_min_score := threshold (top_results c) in
              if feq new_min_score best_min_score then Continue c best_min_score
              else Continue (prune_between c new_min_score) new_min_score
            else Continue c best_min_score
        end
  end.

(** The loop; [stopped_at] is the cancellation flag as its loads see it. *)
Fixpoint search_loop (fuel : nat) (stopped_at : nat -> bool) (load : nat)
    (filter_condition : N -> bool) c (best_min_score : float) : outcome (SearchContext I) :=
  match fuel with
  | 0 => OutOfFuel
  | S fuel =>
      if stopped_at load then
        let t := telemetry_of c in
        Returned (Ok (update c (postings_iterators c) (top_results c) (min_record_id c)
          (flags t (t_use_pruning t) (t_use_block_pruning t) (block_pruning_router_disabled t)
             (block_pruning_trend_disabled t) true)))
      else
        match search_step c best_min_score filter_condition with
        | Continue c best_min_score =>
            search_loop fuel stopped_at (S load) filter_condition c best_min_score
        | Break c => Returned (Ok c)
        | OutOfBounds => Panicked
        end
  end.

Definition elements_left ps : nat :=
  sum_list ((fun p => len_to_end (posting_list_iterator p)) <$> ps).

Definition TopK_default : TopK := {| k := 0; top_elements := []; threshold := fzero |}.

(** [SearchContext::search]; every turn of the loop consumes an element, which
    bounds the number of turns. *)
Definition search (stopped_at : nat -> bool) (filter_condition : N -> bool) c
    : outcome (SearchContext I * list ScoredPointOffset) :=
  match postings_iterators c with
  | [] => Returned (Ok (c, []))
  | _ :: _ =>
      match search_loop (S (S (elements_left (postings_iterators c)))) stopped_at 0 filter_condition
              c F32_MIN with
      | Returned (Ok c) =>
          Returned (Ok (update c (postings_iterators c) TopK_default (min_record_id c)
            (telemetry_of c), into_vec (top_results c)))
      | Returned (Err e) => Returned (Err e)
      | Panicked => Panicked
      | OutOfFuel => OutOfFuel
      end
  end.

(** *** Plain search *)

(** The loop over the postings for one record: what it holds of the query's
    dimensions. *)
Fixpoint collect_record (id : N) ps (v : SparseVector) (visited : nat)
    : list (IndexedPostingListIterator I) * SparseVector * nat :=
  match ps with
  | [] => ([], v, visited)
  | p :: ps =>
      let '(it, element) := skip_to (posting_list_iterator p) id in
      let '(v, visited) :=
        match element with
        | None => (v, visited)
        | Some element => (push_value v (query_index p) (weight element), S visited)
        end in
      let '(ps, v, visited) := collect_record id ps v visited in
      (with_iterator p it :: ps, v, visited)
  end.

(** The loop over the records. *)
Fixpoint plain_loop (stopped_at : nat -> bool) (load : nat) (ids : list N) c
    : option (SearchContext I) :=
  match ids with
  | [] => Some c
  | id :: ids =>
      let t := telemetry_of c in
      if stopped_at load then
        Some (update c (postings_iterators c) (top_results c) (min_record_id c)
          (flags t (t_use_pruning t) (t_use_block_pruning t) (block_pruning_router_disabled t)
             (block_pruning_trend_disabled t) true))
      else
        let '(ps, v, visited) :=
          collect_record id (postings_iterators c) {| indices := []; values := [] |} 0 in
        let t := tally t visited 0 0 1 0 0 0 0 in
        match values v with
        | [] => plain_loop stopped_at (S load) ids (update c ps (top_results c) (min_record_id c) t)
        | _ :: _ =>
            sparse_score ← score_vectors v (query c);
            plain_loop stopped_at (S load) ids
              (update c ps
                 (push (top_results c) {| idx := id; score := default fzero sparse_score |})
                 (min_record_id c) t)
        end
  end.

(** [SearchContext::plain_search]; [None] is an access out of bounds. *)
Definition plain_search (stopped_at : nat -> bool) (ids : list N) c
    : option (SearchContext I * list ScoredPointOffset) :=
  c ← plain_loop stopped_at 0 (sort_by N.compare ids) c;
  Some (update c (postings_iterators c) TopK_default (min_record_id c) (telemetry_of c),
        into_vec (top_results c)).

(** *** Telemetry and settings *)

(** [SearchContext::telemetry] *)
Definition telemetry c : SearchTelemetry :=
  let t := telemetry_of c in
  {| posting_lists := posting_lists t;
     posting_elements := posting_elements t;
     posting_elements_visited := posting_elements_visited t;
     posting_elements_remaining := elements_left (postings_iterators c);
     posting_elements_skipped := posting_elements_skipped t;
     batch_count := batch_count t;
     scored_id_span := scored_id_span t;
     prune_attempts := prune_attempts t;
     prune_successes := prune_successes t;
     block_prune_attempts := block_prune_attempts t;
     block_prune_successes := block_prune_successes t;
     block_pruning_router_disabled := block_pruning_router_disabled t;
     block_pruning_trend_disabled := block_pruning_trend_disabled t;
     t_use_pruning := t_use_pruning t;
     t_use_block_pruning := t_use_block_pruning t;
     cancelled := cancelled t |}.

(** A context with other settings. *)
Definition configure c (pruning block : bool) (limit : option nat) (width : N)
    (t : SearchTelemetry) : SearchContext I :=
  {| postings_iterators := postings_iterators c; query := query c; top := top c;
     top_results := top_results c; min_record_id := min_record_id c;
     max_record_id := max_record_id c; use_pruning := pruning; use_block_pruning := block;
     block_prune_failure_limit := limit;
     consecutive_block_prune_failures := consecutive_block_prune_failures c;
     block_prune_has_succeeded := block_prune_has_succeeded c;
     telemetry_of := t; batch_size := width |}.

Definition set_block_pruning c (enabled : bool) : SearchContext I :=
  let t := telemetry_of c in
  let block := use_block_pruning c && enabled in
  configure c (use_pruning c) block (block_prune_failure_limit c) (batch_size c)
    (flags t (t_use_pruning t) block (block_pruning_router_disabled t)
       (block_pruning_trend_disabled t) (cancelled t)).

Definition set_posting_pruning c (enabled : bool) : SearchContext I :=
  let t := telemetry_of c in
  let pruning := use_pruning c && enabled in
  configure c pruning (use_block_pruning c) (block_prune_failure_limit c) (batch_size c)
    (flags t pruning (t_use_block_pruning t) (block_pruning_router_disabled t)
       (block_pruning_trend_disabled t) (cancelled t)).

(** [None] is the failed assertion that the limit is positive. *)
Definition set_block_prune_failure_limit c (limit : option nat) : option (SearchContext I) :=
  if decide (limit = Some 0) then None
  else Some (configure c (use_pruning c) (use_block_pruning c) limit (batch_size c) (telemetry_of c)).

(** The loop of [apply_block_max_endpoint_trend_router]; [None] is a list
    without endpoints. *)
Fixpoint endpoint_bounds ps (first last : float) : option (float * float) :=
  match ps with
  | [] => Some (first, last)
  | p :: ps =>
      '(f, l) ← block_max_endpoints (posting_list_iterator p);
      endpoint_bounds ps (first + f * query_weight p)%f32 (last + l * query_weight p)%f32
  end.

Definition apply_block_max_endpoint_trend_router c : SearchContext I :=
  if negb (use_block_pruning c) then c
  else
    match endpoint_bounds (postings_iterators c) fzero fzero with
    | None => c
    | Some (first, last) =>
        if fle first last then
          let t := telemetry_of c in
          configure c (use_pruning c) false (block_prune_failure_limit c) (batch_size c)
            (flags t (t_use_pruning t) false (block_pruning_router_disabled t) true (cancelled t))
        else c
    end.

(** [None] is the failed assertion that the width is positive and fits 32
    bits. *)
Definition set_batch_size c (width : nat) : option (SearchContext I) :=
  if (width =? 0) || (U32_MAX <? N.of_nat width)%N then None
  else Some (configure c (use_pruning c) (use_block_pruning c) (block_prune_failure_limit c)
    (N.of_nat width) (telemetry_of c)).
End Operations.

(** ** Specification *)

Abbreviation term := (list PostingElement * float)%type.

Definition posted (terms : list term) (d : N) : Prop := exists t, t ∈ terms /\ d ∈ t.1.*1.

(** A record of the posting lists that passes the filter. *)
Definition eligible (terms : list term) (f : N -> bool) (d : N) : Prop :=
  posted terms d /\ f d = true.

(** The score of a record: its terms added up in some order, up to the sign of
    a zero.  The order is not the query's: the search moves the longest list
    to the front. *)
Definition summed (terms : list term) (d : N) (s : float) : Prop :=
  exists terms', terms' ≡ₚ terms /\ feq s (doc_score terms' d) = true.

(** The scored records below a bound: every eligible one, except that records
    with a score of zero may be missing. *)
Record candidates (terms : list term) (f : N -> bool) (bound : N) (xs : list ScoredPointOffset)
    : Prop := {
  cand_nodup : NoDup (idx <$> xs);
  cand_sound : forall x, x ∈ xs ->
    (idx x < bound)%N /\ eligible terms f (idx x) /\ summed terms (idx x) (score x);
  cand_complete : forall d, (d < bound)%N -> eligible terms f d ->
    d ∈ idx <$> xs \/ exists s, summed terms d s /\ feq s fzero = true;
}.

(** Weights are floats of the format. *)
Definition term_wf (t : term) : Prop :=
  Forall (fun e : PostingElement => wf binary32 e.2) t.1 /\ wf binary32 t.2.

(** No score of an eligible record overflows below or is undefined. *)
Definition representable (terms : list term) (f : N -> bool) : Prop :=
  forall terms' d, terms' ≡ₚ terms -> eligible terms f d ->
    above_min {| idx := d; score := doc_score terms' d |}.

(** The least element of a set of records. *)
Definition min_of (m : option N) (P : N -> Prop) : Prop :=
  match m with
  | None => forall d, ~ P d
  | Some m => P m /\ forall d, P d -> (m <= d)%N
  end.

(** The least record from a bound on. *)
Definition least (bound : N) (terms : list term) (m : option N) : Prop :=
  min_of m (fun d => posted terms d /\ (bound <= d)%N).

(** The elements from a bound on. *)
Definition left_at (bound : N) (terms : list term) : nat :=
  sum_list ((fun t : term => length (filter (fun e => bound <= e.1)%N t.1)) <$> terms).

(** ** Terms *)

Section Terms.
Implicit Types (terms gone : list term) (t : term).

Lemma filter_from_from (a b : N) (l : list PostingElement) :
  (a <= b)%N -> filter (fun e => b <= e.1)%N (filter (fun e => a <= e.1)%N l) =
    filter (fun e => b <= e.1)%N l.
Proof.
  intros Hab. induction l as [|e l IH]; [done |]. rewrite !filter_cons.
  repeat case_decide; rewrite ?filter_cons; repeat case_decide; try lia; congruence.
Qed.

Lemma filter_from_gap (a b : N) (l : list PostingElement) :
  (a <= b)%N -> (forall e, e ∈ l -> (a <= e.1)%N -> (b <= e.1)%N) ->
  filter (fun e => a <= e.1)%N l = filter (fun e => b <= e.1)%N l.
Proof.
  intros Hab Hl. induction l as [|e l IH]; [done |]. rewrite !filter_cons, IH.
  - specialize (Hl e ltac:(left)). repeat case_decide; try done; lia.
  - intros x Hx. apply Hl. by right.
Qed.

Lemma filter_above (b : N) (l : list PostingElement) :
  filter (fun e => b < e.1)%N l = filter (fun e => b + 1 <= e.1)%N l.
Proof. induction l as [|e l IH]; [done |]. rewrite !filter_cons, IH. repeat case_decide; lia || done. Qed.

Lemma left_at_perm b terms terms' : terms ≡ₚ terms' -> left_at b terms = left_at b terms'.
Proof. intros Hp. unfold left_at. by rewrite Hp. Qed.

Lemma left_at_app b terms gone : left_at b (terms ++ gone) = left_at b terms + left_at b gone.
Proof. unfold left_at. by rewrite fmap_app, sum_list_with_app. Qed.

Lemma left_at_gone b gone :
  Forall (fun t => Forall (fun e : PostingElement => e.1 < b)%N t.1) gone -> left_at b gone = 0.
Proof.
  unfold left_at. induction 1 as [|t gone Ht Hg IH]; csimpl; [done |].
  rewrite IH, filter_nil; [done |]. eapply Forall_impl; [exact Ht |]. simpl. lia.
Qed.

Lemma left_length_mono (a b : N) (l : list PostingElement) :
  (a <= b)%N ->
  length (filter (fun e => b <= e.1)%N l) <= length (filter (fun e => a <= e.1)%N l).
Proof.
  intros Hab. induction l as [|e l IH]; [done |]. rewrite !filter_cons.
  repeat case_decide; simpl; lia.
Qed.

Lemma left_at_mono a b terms : (a <= b)%N -> left_at b terms <= left_at a terms.
Proof.
  intros Hab. unfold left_at. induction terms as [|t terms IH]; csimpl; [done |].
  pose proof (left_length_mono a b t.1 Hab). lia.
Qed.

Lemma left_at_lt a b terms d :
  posted terms d -> (a <= d < b)%N -> left_at b terms < left_at a terms.
Proof.
  intros (t & Ht & (e & -> & He)%list_elem_of_fmap) Hab. unfold left_at. induction Ht as [t terms|t t' terms Ht IH]; csimpl.
  - pose proof (left_at_mono a b terms ltac:(lia)). unfold left_at in *.
    assert (length (filter (fun e => b <= e.1)%N t.1) < length (filter (fun e => a <= e.1)%N t.1));
      [|lia].
    clear -He Hab. induction He as [e l|e x l He IH]; rewrite !filter_cons;
      pose proof (left_length_mono a b l ltac:(lia)); try specialize (IH Hab);
      repeat case_decide; simpl; lia.
  - pose proof (left_length_mono a b t'.1 ltac:(lia)). specialize (IH He). lia.
Qed.

Lemma posted_perm terms terms' d : terms ≡ₚ terms' -> posted terms d <-> posted terms' d.
Proof. intros Hp. unfold posted. by setoid_rewrite Hp. Qed.

(** Lists without a record do not contribute to its score. *)
Lemma add_terms_absent d terms acc :
  Forall (fun t => d ∉ t.1.*1) terms -> fold_left (add_term d) terms acc = acc.
Proof.
  induction 1 as [|t terms Ht Hts IH]; simpl; [done |].
  unfold add_term at 2. by rewrite find_weight_absent.
Qed.

Lemma doc_score_gone d terms gone :
  Forall (fun t => d ∉ t.1.*1) gone -> doc_score (terms ++ gone) d = doc_score terms d.
Proof. intros Hg. unfold doc_score. rewrite fold_left_app. by apply add_terms_absent. Qed.

Lemma gone_absent d b gone :
  Forall (fun t => Forall (fun e : PostingElement => e.1 < b)%N t.1) gone -> (b <= d)%N ->
  Forall (fun t => d ∉ t.1.*1) gone.
Proof.
  intros Hg Hd. eapply Forall_impl; [exact Hg |]. intros t Ht (e & -> & He)%list_elem_of_fmap.
  rewrite Forall_forall in Ht. specialize (Ht e He). simpl in Ht. lia.
Qed.

Lemma unposted_zero terms d : ~ posted terms d -> doc_score terms d = fzero.
Proof.
  intros Hd. unfold doc_score. apply add_terms_absent. apply Forall_forall. intros t Ht Hin.
  apply Hd. by exists t.
Qed.

Lemma candidates_nil terms f : candidates terms f 0 [].
Proof. split; [constructor | by intros x ?%elem_of_nil | intros d Hd; lia]. Qed.

(** The candidates up to a later bound. *)
Lemma candidates_extend terms f b b' xs news :
  candidates terms f b xs -> (b <= b')%N -> NoDup (idx <$> news) ->
  (forall x, x ∈ news -> (b <= idx x < b')%N /\ eligible terms f (idx x) /\
     summed terms (idx x) (score x)) ->
  (forall d, (b <= d < b')%N -> eligible terms f d ->
     d ∈ idx <$> news \/ exists s, summed terms d s /\ feq s fzero = true) ->
  candidates terms f b' (news ++ xs).
Proof.
  intros [C1 C2 C3] Hb Hn Hs Hc. split.
  - rewrite fmap_app. apply NoDup_app. split_and!; [done | | done].
    intros i (x & -> & Hx)%list_elem_of_fmap (y & Ey & Hy)%list_elem_of_fmap.
    specialize (Hs x Hx). specialize (C2 y Hy). lia.
  - intros x [Hx|Hx]%elem_of_app; [specialize (Hs x Hx) | specialize (C2 x Hx)]; naive_solver lia.
  - intros d Hd He. rewrite fmap_app, elem_of_app. destruct (decide (d < b)%N) as [Hlt|Hge].
    + destruct (C3 d Hlt He); tauto.
    + destruct (Hc d ltac:(lia) He); tauto.
Qed.
End Terms.

(** ** Cursors *)

Section Cursors.
Context {I : Type} `{LawfulPosting I}.
Implicit Types (ps : list (IndexedPostingListIterator I)) (p : IndexedPostingListIterator I).

Definition as_pair p : I * float := (posting_list_iterator p, query_weight p).

Definition pairs ps : list (I * float) := as_pair <$> ps.

Definition ctx_terms ps : list term := terms_of (pairs ps).

(** All cursors at a bound. *)
Definition at_bound (b : N) ps : Prop := Forall (fun p => at_record b (as_pair p)) ps.

Lemma ctx_terms_cons p ps :
  ctx_terms (p :: ps) = (entries (posting_list_iterator p), query_weight p) :: ctx_terms ps.
Proof. done. Qed.

Lemma elements_left_at b ps : at_bound b ps -> elements_left ps = left_at b (ctx_terms ps).
Proof.
  induction 1 as [|p ps [Hok Hr] Ha IH]; [done |]. rewrite ctx_terms_cons.
  unfold elements_left, left_at in *. csimpl in *. rewrite IH, len_to_end_law, Hr by done. done.
Qed.

(** A cursor moved, its entries kept. *)
Lemma at_bound_cons b p it ps :
  posting_ok it -> entries it = entries (posting_list_iterator p) ->
  posting_rest it = filter (fun e => b <= e.1)%N (entries it) -> at_bound b ps ->
  at_bound b (with_iterator p it :: ps) /\
  ctx_terms (with_iterator p it :: ps) =
    (entries (posting_list_iterator p), query_weight p) :: ctx_terms ps.
Proof.
  intros Hok He Hr Ha. split; [by constructor |]. rewrite ctx_terms_cons. simpl. by rewrite He.
Qed.

Lemma at_bound_gap a b ps :
  (a <= b)%N -> (forall d, posted (ctx_terms ps) d -> (a <= d)%N -> (b <= d)%N) ->
  at_bound a ps -> at_bound b ps.
Proof.
  intros Hab Hgap Ha. induction Ha as [|p ps [Hok Hr] Ha IH]; constructor.
  - split; [done |]. rewrite Hr. apply filter_from_gap; [done |]. intros e He.
    apply Hgap. rewrite ctx_terms_cons. eexists. split; [left |]. by apply list_elem_of_fmap_2.
  - apply IH. intros d (t & Ht & Hd). apply Hgap. rewrite ctx_terms_cons. exists t.
    split; [by right | done].
Qed.

(** What peeking shows of a cursor at a bound. *)
Lemma peek_front b it it' r :
  posting_ok it -> posting_rest it = filter (fun e => b <= e.1)%N (entries it) ->
  peek it = (it', r) ->
  posting_ok it' /\ entries it' = entries it /\ posting_rest it' = posting_rest it /\
  min_of (record_id <$> r) (fun d => d ∈ (entries it).*1 /\ (b <= d)%N).
Proof.
  intros Hok Hr Ep. destruct (peek_law _ _ _ Hok Ep) as (Hok' & He & Hr' & Hhd).
  split_and!; [done.. |]. rewrite Hr in Hhd. pose proof (entries_sorted _ Hok) as Hs.
  apply (StronglySorted_filter _ (fun e => b <= e.1)%N) in Hs.
  assert (Hin : forall e, e ∈ entries it -> (b <= e.1)%N ->
    e ∈ filter (fun e => b <= e.1)%N (entries it)) by (intros; by apply list_elem_of_filter).
  destruct r as [x|]; destruct (filter _ (entries it)) as [|y l] eqn:Ef; try done; simpl in *.
  - injection Hhd as Hy. subst y.
    assert (Hx : to_element x ∈ to_element x :: l) by left. rewrite <- Ef in Hx.
    apply list_elem_of_filter in Hx as [Hb Hx]. split.
    { split; [|done]. apply list_elem_of_fmap. by exists (to_element x). }
    intros d [(e & -> & Hel)%list_elem_of_fmap Hbe]. specialize (Hin e Hel Hbe).
    apply by_record_cons in Hs as [_ Hs]. apply elem_of_cons in Hin as [->|Hin]; [simpl; lia |].
    rewrite Forall_forall in Hs. specialize (Hs e Hin). unfold by_record in Hs. simpl in Hs. lia.
  - intros d [(e & -> & Hel)%list_elem_of_fmap Hbe]. specialize (Hin e Hel Hbe).
    by apply elem_of_nil in Hin.
Qed.

Lemma min_of_join (seen next : option N) (P Q : N -> Prop) :
  min_of seen P -> min_of next Q ->
  min_of (match next with
          | Some x => match seen with
                      | None => Some x
                      | Some y => if (x <? y)%N then Some x else seen
                      end
          | None => seen
          end) (fun d => P d \/ Q d).
Proof.
  intros HP HQ. destruct next as [x|], seen as [y|]; simpl in *.
  - destruct HP as [P1 P2], HQ as [Q1 Q2]. destruct (N.ltb_spec x y); simpl.
    + split; [by right |]. intros d [Hd|Hd]; [specialize (P2 d Hd); lia | by apply Q2].
    + split; [by left |]. intros d [Hd|Hd]; [by apply P2 | specialize (Q2 d Hd); lia].
  - destruct HQ as [Q1 Q2]. split; [by right |]. intros d [Hd|Hd]; [by apply HP in Hd | by apply Q2].
  - destruct HP as [P1 P2]. split; [by left |]. intros d [Hd|Hd]; [by apply P2 | by apply HQ in Hd].
  - intros d [Hd|Hd]; [by apply HP in Hd | by apply HQ in Hd].
Qed.

Lemma min_of_ext m (P Q : N -> Prop) : (forall d, P d <-> Q d) -> min_of m P -> min_of m Q.
Proof. intros E. unfold min_of. destruct m; naive_solver. Qed.

Lemma posted_cons (t : term) terms d : posted (t :: terms) d <-> d ∈ t.1.*1 \/ posted terms d.
Proof.
  unfold posted. setoid_rewrite elem_of_cons. naive_solver.
Qed.

(** [next_min_id] is the least record, and only peeks. *)
Lemma next_min_id_fold b ps min_id (P : N -> Prop) :
  at_bound b ps -> min_of min_id P ->
  exists ps' m, next_min_id ps min_id = (ps', m) /\ at_bound b ps' /\
    ctx_terms ps' = ctx_terms ps /\ min_of m (fun d => P d \/ posted (ctx_terms ps) d /\ (b <= d)%N).
Proof.
  intros Ha. revert min_id P. induction Ha as [|p ps [Hok Hr] Ha IH]; intros min_id P HP;
    cbn [next_min_id].
  { exists [], min_id. split_and!; [done | constructor | done |].
    eapply min_of_ext; [|exact HP]. intros d. split; [by left |].
    intros [?|[(t & Ht & _) _]]; [done |]. by apply elem_of_nil in Ht. }
  simpl in Hok, Hr. destruct (peek (posting_list_iterator p)) as [it r] eqn:Ep.
  destruct (peek_front b _ _ _ Hok Hr Ep) as (Hok' & He & Hr' & Hq).
  pose proof (min_of_join _ _ _ _ HP Hq) as Hj.
  destruct (IH _ _ Hj) as (ps' & m & Em & Ha' & Et & Hm).
  exists (with_iterator p it :: ps'), m.
  destruct (at_bound_cons b p it ps' Hok' He) as [A1 A2]; [by rewrite Hr', Hr, He | done |].
  split_and!; [| done | by rewrite A2, ctx_terms_cons, Et |].
  - destruct r as [x|]; simpl in Em; by rewrite Em.
  - eapply min_of_ext; [|exact Hm]. intros d. rewrite ctx_terms_cons, posted_cons. simpl. tauto.
Qed.

Lemma next_min_id_spec b ps :
  at_bound b ps ->
  exists ps' m, next_min_id ps None = (ps', m) /\ at_bound b ps' /\
    ctx_terms ps' = ctx_terms ps /\ least b (ctx_terms ps) m.
Proof.
  intros Ha. destruct (next_min_id_fold b ps None (fun _ => False) Ha) as (ps' & m & E & A & T & M).
  { by intros d []. }
  exists ps', m. split_and!; try done. eapply min_of_ext; [|exact M]. tauto.
Qed.

(** [retain] removes lists without a record from the bound on. *)
Lemma retain_left_spec b ps :
  at_bound b ps ->
  exists gone, ctx_terms ps ≡ₚ ctx_terms (retain_left ps) ++ gone /\
    Forall (fun t : term => Forall (fun e : PostingElement => e.1 < b)%N t.1) gone /\
    at_bound b (retain_left ps).
Proof.
  induction 1 as [|p ps [Hok Hr] Ha IH]; [exists []; split_and!; [done | constructor | constructor] |].
  destruct IH as (gone & Hp & Hg & Hb). unfold retain_left in *. rewrite filter_cons.
  rewrite ctx_terms_cons. simpl in Hok, Hr. case_decide as E.
  - exists gone. rewrite ctx_terms_cons, Hp. split_and!; [done | done | by constructor].
  - exists ((entries (posting_list_iterator p), query_weight p) :: gone).
    rewrite <- Permutation_middle, Hp. split_and!; [done | | done]. constructor; [|done].
    rewrite len_to_end_law, Hr in E by done. apply nil_length_inv in E. simpl.
    apply Forall_forall. intros e He. apply N.nle_gt. intros Hbe.
    assert (Hin : e ∈ filter (fun e => b <= e.1)%N (entries (posting_list_iterator p)))
      by by apply list_elem_of_filter.
    rewrite E in Hin. by apply elem_of_nil in Hin.
Qed.

Lemma at_bound_perm b ps ps' : ps ≡ₚ ps' -> at_bound b ps -> at_bound b ps'.
Proof. intros Hp Ha. unfold at_bound. by rewrite <- Hp. Qed.

Lemma ctx_terms_perm ps ps' : ps ≡ₚ ps' -> ctx_terms ps ≡ₚ ctx_terms ps'.
Proof. intros Hp. unfold ctx_terms, terms_of, pairs. by rewrite Hp. Qed.

Lemma swap_front_perm {A} i (l : list A) : swap_front i l ≡ₚ l.
Proof.
  unfold swap_front. destruct l as [|x l]; [done |]. cbn [lookup list_lookup].
  destruct i as [|i]; simpl; [done |]. destruct (l !! i) as [y|] eqn:E; [|done].
  rewrite insert_take_drop by by eapply lookup_lt_Some.
  transitivity (x :: take i l ++ y :: drop (S i) l); [|by rewrite take_drop_middle].
  rewrite <- !Permutation_middle. apply Permutation_swap.
Qed.

Lemma promote_longest_perm ps : promote_longest ps ≡ₚ ps.
Proof.
  unfold promote_longest. destruct (max_by length_cmp (imap pair ps)) as [[i p]|]; [|done].
  destruct (i =? 0); [done | apply swap_front_perm].
Qed.

Lemma batch_bound_pairs last ps ub :
  pairs (batch_bound last ps ub).1 = (bound_till last (pairs ps) ub).1 /\
  (batch_bound last ps ub).2 = (bound_till last (pairs ps) ub).2.
Proof.
  revert ub. induction ps as [|p ps IH]; intros ub; [done |]. cbn [batch_bound].
  unfold pairs in *. csimpl. destruct (max_weight_till_id (posting_list_iterator p) last) as [it r].
  match goal with |- context [batch_bound last ps ?u] => specialize (IH u); set (ub' := u) in * end.
  destruct (batch_bound last ps ub') as [ps' u1], (bound_till last (as_pair <$> ps) ub') as [ps2 u2].
  simpl in *. destruct IH as [I1 ->]. split; [|done]. by f_equal.
Qed.

Lemma batch_bound_spec b last ps terms gone :
  (b <= last)%N -> at_bound b ps -> terms ≡ₚ ctx_terms ps ++ gone ->
  Forall (fun t : term => Forall (fun e : PostingElement => e.1 < b)%N t.1) gone ->
  Forall term_ok terms ->
  exists ps' ub, batch_bound last ps fzero = (ps', ub) /\ at_bound b ps' /\
    ctx_terms ps' = ctx_terms ps /\ score_ok ub /\
    forall d, (b <= d <= last)%N -> score_le (doc_score (ctx_terms ps ++ gone) d) ub.
Proof.
  intros Hbl Ha Hp Hg Ht. destruct (batch_bound_pairs last ps fzero) as [B1 B2].
  assert (Ha' : Forall (at_record b) (pairs ps)) by by apply Forall_fmap.
  assert (Ht' : Forall term_ok (terms_of (pairs ps))).
  { rewrite Hp, Forall_app in Ht. by destruct Ht. }
  destruct (bound_till_ok b last (pairs ps) fzero Hbl Ha' Ht') as (qs & ms & E & Hat & Hte & Hd).
  destruct (batch_bound last ps fzero) as [ps' ub]. rewrite E in B1, B2. simpl in B1, B2. subst qs ub.
  exists ps', (fold_left add_bound (zip ms (terms_of (pairs ps)).*2) fzero).
  assert (Hle : forall d, (b <= d <= last)%N ->
    score_ok (fold_left add_bound (zip ms (terms_of (pairs ps)).*2) fzero) /\
    score_le (doc_score (terms_of (pairs ps)) d)
      (fold_left add_bound (zip ms (terms_of (pairs ps)).*2) fzero)).
  { intros d Hr. apply bound_range_ok; [done | by apply Hd]. }
  split; [done |]. split; [unfold pairs in Hat; by rewrite Forall_fmap in Hat |].
  split; [exact Hte |]. split; [apply (Hle b); lia |].
  intros d Hd'. rewrite doc_score_gone by (apply (gone_absent d b); [done | lia]). by apply Hle.
Qed.

Lemma filter_above_bound b last (l : list PostingElement) :
  (b <= last + 1)%N ->
  filter (fun e => last < e.1)%N (filter (fun e => b <= e.1)%N l) =
    filter (fun e => last + 1 <= e.1)%N l.
Proof. intros Hb. by rewrite filter_above, filter_from_from. Qed.

(** Skipping a batch moves every cursor behind it and counts the elements
    skipped. *)
Lemma skip_batch_spec b last ps skipped :
  at_bound b ps -> (b <= last + 1)%N ->
  exists ps' n, skip_batch last ps skipped = (ps', skipped + n) /\ at_bound (last + 1) ps' /\
    ctx_terms ps' = ctx_terms ps /\
    n + left_at (last + 1) (ctx_terms ps) = left_at b (ctx_terms ps).
Proof.
  intros Ha Hb. revert skipped. induction Ha as [|p ps [Hok Hr] Ha IH]; intros skipped;
    cbn [skip_batch].
  { exists [], 0. rewrite Nat.add_0_r. split_and!; [done | constructor | done | done]. }
  simpl in Hok, Hr. destruct (skip_till_law _ last Hok) as (Hok' & He & Hr').
  set (it := skip_till_id (posting_list_iterator p) last) in *.
  destruct (IH (skipped + (cursor_index it - cursor_index (posting_list_iterator p))))
    as (ps' & n & -> & Ha' & Et & Hn).
  rewrite Hr, filter_above_bound in Hr' by done.
  destruct (at_bound_cons (last + 1) p it ps' Hok' He) as [A1 A2]; [by rewrite He | done |].
  exists (with_iterator p it :: ps'),
    ((cursor_index it - cursor_index (posting_list_iterator p)) + n).
  split_and!; [f_equal; lia | done | by rewrite A2, ctx_terms_cons, Et |].
  pose proof (cursor_index_law _ Hok) as C1. pose proof (cursor_index_law _ Hok') as C2.
  rewrite Hr in C1. rewrite Hr', He in C2. rewrite ctx_terms_cons. unfold left_at in *. csimpl.
  pose proof (left_length_mono b (last + 1) (entries (posting_list_iterator p)) Hb). lia.
Qed.

(** Scoring a batch: no access out of bounds, the scores of the batch's
    records, and the elements visited. *)
Lemma score_batch_spec b start last ps scores visited :
  at_bound b ps -> (b <= start <= last)%N ->
  (forall d, posted (ctx_terms ps) d -> (b <= d)%N -> (start <= d)%N) ->
  length scores = N.to_nat (last - start + 1) ->
  exists ps' scores' n, score_batch start last ps (Some scores) visited =
      (ps', Some scores', visited + n) /\
    at_bound (last + 1) ps' /\ ctx_terms ps' = ctx_terms ps /\
    n + left_at (last + 1) (ctx_terms ps) = left_at b (ctx_terms ps) /\
    length scores' = length scores /\
    forall i s, scores !! i = Some s ->
      scores' !! i = Some (fold_left (add_term (start + N.of_nat i)) (ctx_terms ps) s).
Proof.
  intros Ha Hb. revert scores visited. induction Ha as [|p ps [Hok Hr] Ha IH];
    intros scores visited Hmin Hlen; cbn [score_batch].
  { exists [], scores, 0. rewrite Nat.add_0_r. split_and!; [done | constructor | done..]. }
  simpl in Hok, Hr. set (es := filter (fun e => e.1 <= last)%N (posting_rest (posting_list_iterator p))).
  destruct (for_each_till_id (posting_list_iterator p) last (Some scores)
    (add_score start (query_weight p))) as [it c] eqn:E.
  destruct (for_each_law _ _ _ _ _ _ Hok E) as (Hok' & He & Hr' & Hc). fold es in Hc.
  rewrite Hr, filter_above_bound in Hr' by lia.
  assert (Hpost : forall e, e ∈ entries (posting_list_iterator p) -> (b <= e.1)%N -> (start <= e.1)%N).
  { intros e Hin Hbe. apply Hmin; [|done]. rewrite ctx_terms_cons. eexists. split; [left |].
    by apply list_elem_of_fmap_2. }
  destruct (add_score_fold start (query_weight p) es scores) as (s1 & Es & Hl1 & Hg1).
  { apply Forall_forall. unfold es. rewrite Hr. intros e He'.
    apply list_elem_of_filter in He' as [Hel [Hbe Hin]%list_elem_of_filter].
    specialize (Hpost e Hin Hbe). lia. }
  { unfold es. rewrite Hr. apply by_record_nodup. do 2 apply StronglySorted_filter.
    by apply entries_sorted. }
  rewrite Es in Hc. subst c.
  destruct (IH s1 (visited + (len_to_end (posting_list_iterator p) - len_to_end it)))
    as (ps' & s2 & n & -> & Ha' & Et & Hn & Hl2 & Hg2).
  { intros d (t & Ht & Hd). apply Hmin. rewrite ctx_terms_cons. exists t. split; [by right | done]. }
  { lia. }
  destruct (at_bound_cons (last + 1) p it ps' Hok' He) as [A1 A2]; [by rewrite He | done |].
  exists (with_iterator p it :: ps'), s2,
    ((len_to_end (posting_list_iterator p) - len_to_end it) + n).
  split_and!; [f_equal; lia | done | by rewrite A2, ctx_terms_cons, Et | | lia |].
  - rewrite !len_to_end_law, Hr, Hr', ctx_terms_cons by done. unfold left_at in *. csimpl.
    pose proof (left_length_mono b (last + 1) (entries (posting_list_iterator p)) ltac:(lia)). lia.
  - intros i s Hi. rewrite (Hg2 i _ (Hg1 i s Hi)), ctx_terms_cons. csimpl. do 2 f_equal.
    unfold add_term. simpl. unfold es. rewrite Hr.
    rewrite !find_weight_filter; [done | |]; apply Forall_forall; intros e _ Ee;
      apply lookup_lt_Some in Hi; lia.
Qed.
End Cursors.

(** ** Results *)

Section Results.
Context `{UnstableOrder}.

(** The scores of a batch that count. *)
Fixpoint batch_results (start : N) (f : N -> bool) (off : nat) (scores : list float)
    : list ScoredPointOffset :=
  match scores with
  | [] => []
  | s :: scores =>
      let id := (start + N.of_nat off)%N in
      (if negb (feq s fzero) && f id then [{| idx := id; score := s |}] else []) ++
      batch_results start f (S off) scores
  end.

Lemma batch_results_elem start f off scores x :
  x ∈ batch_results start f off scores <->
  exists i s, scores !! i = Some s /\ x = {| idx := (start + N.of_nat (off + i))%N; score := s |} /\
    feq s fzero = false /\ f (start + N.of_nat (off + i))%N = true.
Proof.
  revert off. induction scores as [|s scores IH]; intros off; cbn [batch_results].
  { split; [by intros ?%elem_of_nil | by intros (i & s & ? & _)]. }
  rewrite elem_of_app, IH. split.
  - intros [Hx|(i & s' & Hi & -> & Hz & Hf)].
    + destruct (negb (feq s fzero) && f (start + N.of_nat off)%N) eqn:E; [|by apply elem_of_nil in Hx].
      apply list_elem_of_singleton in Hx as ->. apply andb_true_iff in E as [E1%negb_true_iff E2].
      exists 0, s. rewrite Nat.add_0_r. done.
    + exists (S i), s'. replace (off + S i) with (S off + i) by lia. done.
  - intros ([|i] & s' & Hi & -> & Hz & Hf); simpl in Hi.
    + injection Hi as <-. rewrite Nat.add_0_r in *. left. rewrite Hz, Hf. left.
    + right. exists i, s'. replace (S off + i) with (off + S i) by lia. done.
Qed.

Lemma batch_results_nodup start f off scores : NoDup (idx <$> batch_results start f off scores).
Proof.
  revert off. induction scores as [|s scores IH]; intros off; cbn [batch_results]; [constructor |].
  rewrite fmap_app. apply NoDup_app. split_and!; [| | apply IH].
  - case_match; [apply NoDup_singleton | constructor].
  - intros i Hi (x & -> & (j & s' & _ & -> & _)%batch_results_elem)%list_elem_of_fmap.
    case_match; [|by apply elem_of_nil in Hi]. apply list_elem_of_singleton in Hi. simpl in Hi. lia.
Qed.

(** A result not above the threshold is covered without being pushed. *)
Lemma covers_not_above t xs x :
  covers t xs -> above_min x -> flt (threshold t) (score x) = false -> covers t (x :: xs).
Proof.
  intros Hc Hx Hf. apply covers_skip; [done | done |]. apply Z.nlt_ge. intros Hlt.
  destruct (cov_threshold _ _ Hc) as (W & Nn & _). apply above_min_spec in Hx as (Wx & Nx & _).
  assert (flt (threshold t) (score x) = true) as Ht by by apply flt_spec. congruence.
Qed.

Lemma push_scores_covers start f off scores t xs :
  covers t xs -> Forall above_min (batch_results start f off scores) ->
  covers (push_scores start f off scores t) (batch_results start f off scores ++ xs).
Proof.
  revert off t xs. induction scores as [|s scores IH]; intros off t xs Hc Ha;
    cbn [push_scores batch_results] in *; [done |].
  set (id := (start + N.of_nat off)%N) in *. apply Forall_app in Ha as [Ha1 Ha2].
  destruct (feq s fzero) eqn:Ez; simpl in *; [by apply IH |].
  destruct (f id) eqn:Ef; simpl in *.
  - apply Forall_cons in Ha1 as [Ha1 _].
    eapply covers_perm; [apply (IH _ _ ({| idx := id; score := s |} :: xs)); [|done] |].
    + destruct (flt (threshold t) s) eqn:Et; [by apply covers_push | by apply covers_not_above].
    + symmetry. apply Permutation_middle.
  - destruct (flt (threshold t) s); by apply IH.
Qed.

Lemma push_scores_k start f off scores t : k (push_scores start f off scores t) = k t.
Proof.
  revert off t. induction scores as [|s scores IH]; intros off t; cbn [push_scores]; [done |].
  rewrite IH. repeat case_match; try done; apply push_k.
Qed.

(** The results of one list. *)
Definition list_results (f : N -> bool) (value : N -> float -> float) (es : list PostingElement)
    : list ScoredPointOffset :=
  (fun e : PostingElement => {| idx := e.1; score := value e.1 e.2 |}) <$> filter (fun e => f e.1 = true) es.

Lemma list_results_elem f value es x :
  x ∈ list_results f value es <->
  exists e, e ∈ es /\ f e.1 = true /\ x = {| idx := e.1; score := value e.1 e.2 |}.
Proof.
  unfold list_results. rewrite list_elem_of_fmap. setoid_rewrite list_elem_of_filter. naive_solver.
Qed.

Lemma list_results_nodup f value es : NoDup es.*1 -> NoDup (idx <$> list_results f value es).
Proof.
  intros Hn. unfold list_results. rewrite <- list_fmap_compose. unfold compose. simpl.
  by apply NoDup_fmap_filter.
Qed.

Lemma push_list_covers f value es t xs :
  covers t xs -> Forall above_min (list_results f value es) ->
  let t' := fold_left (fun r (e : PostingElement) =>
      if f e.1 then push r {| idx := e.1; score := value e.1 e.2 |} else r) es t in
  covers t' (list_results f value es ++ xs) /\ k t' = k t.
Proof.
  intros Hc Ha. revert t xs Hc Ha. induction es as [|e es IH]; intros t xs Hc Ha; simpl; [done |].
  unfold list_results in *. rewrite filter_cons in *. destruct (f e.1) eqn:Ef.
  - rewrite decide_True in * by done. rewrite fmap_cons in *. apply Forall_cons in Ha as [Ha1 Ha2].
    destruct (IH _ _ (covers_push t xs _ Hc Ha1) Ha2) as [I1 I2]. split.
    + eapply covers_perm; [exact I1 |]. symmetry. apply Permutation_middle.
    + by rewrite I2, push_k.
  - rewrite decide_False in * by done. by apply IH.
Qed.

Lemma covers_skip_all t xs ys :
  covers t xs -> Forall above_min ys -> Forall (fun x => score_le (score x) (threshold t)) ys ->
  covers t (ys ++ xs).
Proof.
  intros Hc Ha Hl. induction Ha as [|y ys Hy Hys IH]; simpl; [done |].
  apply Forall_cons in Hl as [Hl1 Hl2]. apply covers_skip; auto.
Qed.
End Results.

(** ** The invariant of the loop *)

Lemma feq_same x : wf binary32 x -> x <> NaN -> feq x x = true.
Proof. intros W Nn. unfold feq. rewrite (fcompare_rank binary32) by done. by rewrite Z.compare_refl. Qed.

Lemma above_min_feq x : above_min x -> feq (score x) (score x) = true.
Proof. intros (W & Nn & _)%above_min_spec. by apply feq_same. Qed.

Section Search.
Context {I : Type} `{LawfulPosting I} `{UnstableOrder}.
Context (terms : list term) (f : N -> bool) (n total : nat) (max_id width : N).
Hypothesis Hmax : forall d, posted terms d -> (d <= max_id)%N.
Hypothesis Hmax32 : (max_id <= U32_MAX)%N.
Hypothesis Hwidth : (width < U32_MAX)%N.
Hypothesis Hsafe : representable terms f.
Implicit Types (c : SearchContext I) (ps : list (IndexedPostingListIterator I)).

(** The lists at hand are those of the query, but for some that hold nothing
    from the bound on. *)
Definition lists_at (b : N) ps : Prop :=
  at_bound b ps /\ exists gone, terms ≡ₚ ctx_terms ps ++ gone /\
    Forall (fun t : term => Forall (fun e : PostingElement => e.1 < b)%N t.1) gone.

(** Pruning is in use only where its bounds hold. *)
Definition flags_ok c : Prop :=
  (use_pruning c = true -> reliable_max_next_weight I = true /\ Forall term_ok terms) /\
  (use_block_pruning c = true -> Forall term_ok terms).

(** Everything below a bound is settled. *)
Record settled (b : N) (xs : list ScoredPointOffset) c : Prop := {
  st_lists : lists_at b (postings_iterators c);
  st_covers : covers (top_results c) xs;
  st_k : k (top_results c) = n;
  st_cand : candidates terms f b xs;
  st_flags : flags_ok c;
  st_count : posting_elements_visited (telemetry_of c) + posting_elements_skipped (telemetry_of c) +
    left_at b terms = total;
  st_total : posting_elements (telemetry_of c) = total;
  st_max : max_record_id c = max_id;
  st_width : batch_size c = width;
}.

Lemma posted_lists b ps d : lists_at b ps -> (b <= d)%N -> posted terms d <-> posted (ctx_terms ps) d.
Proof.
  intros [_ (gone & Hp & Hg)] Hd. rewrite (posted_perm _ _ _ Hp). unfold posted.
  setoid_rewrite elem_of_app. split; [|naive_solver].
  intros (t & [Ht|Ht] & Hin); [by exists t |]. exfalso.
  pose proof (gone_absent d b gone Hg Hd) as Ha. rewrite Forall_forall in Ha. by apply (Ha t Ht).
Qed.

Lemma least_lists b ps m : lists_at b ps -> least b (ctx_terms ps) m -> least b terms m.
Proof.
  intros Hl. apply min_of_ext. intros d. split; intros [Hp Hd]; (split; [|done]);
    by apply (posted_lists b ps).
Qed.

Lemma left_lists b b' ps : lists_at b ps -> (b <= b')%N -> left_at b' (ctx_terms ps) = left_at b' terms.
Proof.
  clear Hmax32 Hwidth. intros [_ (gone & Hp & Hg)] Hb. rewrite (left_at_perm _ _ _ Hp), left_at_app, (left_at_gone b' gone); [lia |].
  eapply Forall_impl; [exact Hg |]. intros t Ht. eapply Forall_impl; [exact Ht |]. simpl. lia.
Qed.

(** The same lists at a later bound. *)
Lemma lists_at_later b b' ps ps' :
  lists_at b ps -> (b <= b')%N -> at_bound b' ps' -> ctx_terms ps' ≡ₚ ctx_terms ps -> lists_at b' ps'.
Proof.
  intros [_ (gone & Hp & Hg)] Hb Ha Ht. split; [done |]. exists gone. rewrite Ht. split; [done |].
  eapply Forall_impl; [exact Hg |]. intros t Hg'. eapply Forall_impl; [exact Hg' |]. simpl. lia.
Qed.

(** The score of a record from the bound on, over the lists at hand. *)
Lemma lists_score b ps d :
  lists_at b ps -> (b <= d)%N ->
  exists terms', terms' ≡ₚ terms /\ doc_score terms' d = doc_score (ctx_terms ps) d.
Proof.
  intros [_ (gone & Hp & Hg)] Hd. exists (ctx_terms ps ++ gone). split; [done |].
  apply doc_score_gone. by apply (gone_absent d b).
Qed.

Lemma lists_summed b ps d :
  lists_at b ps -> (b <= d)%N -> eligible terms f d ->
  above_min {| idx := d; score := doc_score (ctx_terms ps) d |} /\
  summed terms d (doc_score (ctx_terms ps) d).
Proof.
  intros Hl Hd He. destruct (lists_score b ps d Hl Hd) as (terms' & Hp & E).
  pose proof (Hsafe terms' d Hp He) as Ha. rewrite <- E. split; [done |].
  exists terms'. split; [done |]. by apply (above_min_feq {| idx := d; score := _ |}).
Qed.

Lemma st_update b xs c ps m :
  settled b xs c -> lists_at b ps -> settled b xs (update c ps (top_results c) m (telemetry_of c)).
Proof. intros [] Hl. by split. Qed.

(** [refresh] keeps what is settled and finds the least record left. *)
Lemma refresh_spec b xs c :
  settled b xs c -> settled b xs (refresh c) /\ least b terms (min_record_id (refresh c)) /\
  (length (postings_iterators (refresh c)) = 0 -> forall d, posted terms d -> (d < b)%N).
Proof.
  intros Hs. pose proof (st_lists _ _ _ Hs) as [Ha (gone & Hp & Hg)]. unfold refresh.
  destruct (retain_left_spec b _ Ha) as (gone' & Hp' & Hg' & Ha').
  destruct (next_min_id_spec b _ Ha') as (ps & m & -> & Hat & Et & Hm).
  assert (Hl : lists_at b ps).
  { split; [done |]. exists (gone' ++ gone). rewrite Et, app_assoc, <- Hp'. split; [done |].
    by apply Forall_app. }
  split; [by apply st_update |]. cbn [update min_record_id postings_iterators]. split.
  - apply (least_lists b ps); [done |]. by rewrite Et.
  - intros E%nil_length_inv d Hd. apply N.nle_gt. intros Hbd.
    apply (posted_lists b ps d Hl Hbd) in Hd. rewrite E in Hd. destruct Hd as (t & Ht & _).
    by apply elem_of_nil in Ht.
Qed.

(** The end of a batch. *)
Definition batch_end (start : N) : N := N.min (N.min (start + width) U32_MAX) max_id.

Lemma batch_end_bounds b start :
  least b terms (Some start) ->
  (b <= start <= batch_end start)%N /\ (batch_end start - start <= width)%N /\
  (batch_end start < start + 2 ^ 32)%N /\ left_at (batch_end start + 1) terms < left_at b terms.
Proof.
  intros [[Hp Hb] _]. pose proof (Hmax _ Hp). unfold batch_end, U32_MAX in *.
  split; [lia |]. split; [lia |]. split; [lia |].
  apply (left_at_lt b _ terms start); [done | lia].
Qed.

(** A batch settles its records. *)
Lemma advance_batch_spec b xs c start :
  settled b xs c -> least b terms (Some start) ->
  exists c' xs', advance_batch c start (batch_end start) f = Some c' /\
    settled (batch_end start + 1) xs' c' /\ use_block_pruning c' = use_block_pruning c /\
    use_pruning c' = use_pruning c.
Proof.
  intros Hs Hm. destruct (batch_end_bounds b start Hm) as (Hb & Hw & _ & _).
  set (last := batch_end start) in *. pose proof (st_lists _ _ _ Hs) as Hl.
  pose proof Hl as [Ha _]. unfold advance_batch.
  assert (Hlen : ((last - start + 1) `mod` 2 ^ 32 = last - start + 1)%N).
  { apply N.mod_small. unfold U32_MAX in *. lia. }
  rewrite Hlen. set (len := N.to_nat (last - start + 1)).
  destruct (score_batch_spec b start last (postings_iterators c) (replicate len fzero) 0 Ha Hb)
    as (ps & scores & v & -> & Hat & Et & Hv & Hls & Hg).
  { intros d Hd Hbd. apply Hm. split; [|done]. by apply (posted_lists b _ d Hl Hbd). }
  { by rewrite length_replicate. }
  rewrite length_replicate in Hls. simpl.
  assert (Hsc : forall i s, scores !! i = Some s ->
    s = doc_score (ctx_terms (postings_iterators c)) (start + N.of_nat i) /\ i < len).
  { intros i s Hi. pose proof (lookup_lt_Some _ _ _ Hi). rewrite Hls in *.
    rewrite (Hg i fzero) in Hi by by apply lookup_replicate. by injection Hi as <-. }
  assert (Hres : forall x, x ∈ batch_results start f 0 scores ->
    (b <= idx x < last + 1)%N /\ eligible terms f (idx x) /\
    score x = doc_score (ctx_terms (postings_iterators c)) (idx x)).
  { intros x (i & s & Hi & -> & Hz & Hf)%batch_results_elem. destruct (Hsc i s Hi) as [-> Hlt].
    simpl in *. assert (Hbi : (b <= start + N.of_nat i)%N) by lia. unfold len in Hlt.
    split; [lia |]. split; [|done]. split; [|done]. apply (posted_lists b _ _ Hl Hbi).
    destruct (decide (Exists (fun t : term => (start + N.of_nat i)%N ∈ t.1.*1)
      (ctx_terms (postings_iterators c)))) as [He|He]; [by apply Exists_exists in He |].
    exfalso. rewrite unposted_zero in Hz; [done |]. intros Hp. apply He, Exists_exists. done. }
  eexists _, (batch_results start f 0 scores ++ xs). split; [done |]. split; [|done].
  destruct Hs as [_ S2 S3 S4 S5 S6 S7 S8 S9].
  split; cbn [update postings_iterators top_results telemetry_of max_record_id batch_size]; try done.
  - apply (lists_at_later b _ (postings_iterators c)); [done | lia | done | by rewrite Et].
  - apply push_scores_covers; [done |]. apply Forall_forall. intros x Hx.
    destruct (Hres x Hx) as (R1 & R2 & R3). destruct x as [i s]. simpl in *. rewrite R3.
    apply (lists_summed b); [done | lia | done].
  - by rewrite push_scores_k.
  - eapply candidates_extend; [exact S4 | lia | apply batch_results_nodup | |].
    + intros x Hx. destruct (Hres x Hx) as (R1 & R2 & R3). split; [done |]. split; [done |].
      rewrite R3. apply (lists_summed b); [done | lia | done].
    + intros d Hd He.
      assert (Hsd : (start <= d)%N) by (apply Hm; split; [apply He | lia]).
      destruct (lookup_lt_is_Some_2 scores (N.to_nat (d - start))) as [s Hi]; [unfold len in *; lia |].
      destruct (Hsc _ _ Hi) as [Es _]. replace (start + N.of_nat (N.to_nat (d - start)))%N with d in Es by lia.
      destruct (feq s fzero) eqn:Ez.
      * right. exists s. split; [|done]. subst s. apply (lists_summed b); [done | lia | done].
      * left. apply list_elem_of_fmap. eexists. split; [|apply batch_results_elem;
          exists (N.to_nat (d - start)), s; split_and!; [done | reflexivity | done |]]; simpl; [lia |].
        rewrite N2Nat.id. replace (start + (d - start))%N with d by lia. apply He.
  - simpl. rewrite (left_lists b) in Hv by (done || lia). rewrite (left_lists b b) in Hv by (done || lia). lia.
Qed.

(** The bound behind every record. *)
Definition past (b : N) : N := N.max b (max_id + 1).

Lemma past_settles b d : posted terms d -> (d < past b)%N.
Proof. intros Hd%Hmax. unfold past. lia. Qed.

(** Nothing is left behind every record. *)
Lemma entries_below b ps p e :
  lists_at b ps -> p ∈ ps -> e ∈ entries (posting_list_iterator p) -> (e.1 <= max_id)%N.
Proof.
  intros [_ (gone & Hp & _)] Hin He. apply Hmax. apply (posted_perm _ _ _ Hp).
  exists (entries (posting_list_iterator p), query_weight p). split.
  - apply elem_of_app. left. unfold ctx_terms, terms_of, pairs. rewrite <- list_fmap_compose.
    apply list_elem_of_fmap. by exists p.
  - by apply list_elem_of_fmap_2.
Qed.

Lemma entries_past b ps p :
  lists_at b ps -> p ∈ ps ->
  filter (fun e => past b <= e.1)%N (entries (posting_list_iterator p)) = [].
Proof.
  intros Hl Hp. apply filter_nil. apply Forall_forall. intros e He.
  pose proof (entries_below b ps p e Hl Hp He). unfold past. lia.
Qed.

Lemma left_past b : left_at (past b) terms = 0.
Proof.
  unfold left_at. assert (Hg : Forall (fun t : term =>
    Forall (fun e : PostingElement => e.1 < past b)%N t.1) terms); [|by apply left_at_gone].
  apply Forall_forall. intros t Ht. apply Forall_forall. intros e He. apply past_settles.
  exists t. split; [done |]. by apply list_elem_of_fmap_2.
Qed.

(** The product of one term is its sum, up to the sign of zero. *)
Lemma zero_plus d t :
  wf binary32 t -> above_min {| idx := d; score := (fzero + t)%f32 |} ->
  above_min {| idx := d; score := t |} /\ feq t (fzero + t)%f32 = true.
Proof.
  intros Wt (W & Nn & Hr)%above_min_spec. simpl in *.
  assert (Nt : t <> NaN) by by intros ->.
  pose proof (fadd_zero_rank binary32 t Wt) as E. rewrite E in Hr. split.
  - by apply above_min_spec.
  - unfold feq. rewrite (fcompare_rank binary32) by done. rewrite E. by rewrite Z.compare_refl.
Qed.

(** The score of a record that one list holds. *)
Lemma single_score b p ps e :
  lists_at b (p :: ps) -> e ∈ entries (posting_list_iterator p) -> (b <= e.1)%N ->
  ~ posted (ctx_terms ps) e.1 ->
  doc_score (ctx_terms (p :: ps)) e.1 = (fzero + e.2 * query_weight p)%f32.
Proof.
  intros [Ha _] He Hb Hn. apply Forall_cons in Ha as [[Hok _] _]. rewrite ctx_terms_cons.
  unfold doc_score. simpl. rewrite add_terms_absent.
  - unfold add_term. simpl. pose proof (entries_sorted _ Hok) as Hs. simpl in Hs.
    apply by_record_nodup in Hs. destruct (find_weight e.1 (entries (posting_list_iterator p))) as [w|] eqn:Ew.
    + apply find_weight_Some in Ew. destruct e as [d v]. simpl in *. do 2 f_equal.
      apply list_elem_of_lookup in Ew as [i Hi], He as [j Hj].
      assert (i = j) as ->.
      { eapply NoDup_lookup; [exact Hs | |]; by rewrite list_lookup_fmap, ?Hi, ?Hj. }
      congruence.
    + apply find_weight_None in Ew. exfalso. apply Ew. by apply list_elem_of_fmap_2.
  - apply Forall_forall. intros t Ht Hin. apply Hn. by exists t.
Qed.

Hypothesis Hwf : Forall term_wf terms.

Lemma product_wf b ps p e :
  lists_at b ps -> p ∈ ps -> e ∈ entries (posting_list_iterator p) ->
  wf binary32 (e.2 * query_weight p)%f32.
Proof.
  intros [_ (gone & Hp & _)] Hin He. rewrite Hp in Hwf. apply Forall_app in Hwf as [Hw _].
  rewrite Forall_forall in Hw. destruct (Hw (entries (posting_list_iterator p), query_weight p)) as [W1 W2].
  { unfold ctx_terms, terms_of, pairs. rewrite <- list_fmap_compose. apply list_elem_of_fmap. by exists p. }
  simpl in *. rewrite Forall_forall in W1. apply (fmul_wf binary32); [by apply W1 | done].
Qed.

(** A record from the bound on that only one of the lists holds: its sum is
    its product there. *)
Lemma single_result b p ps e :
  lists_at b (p :: ps) -> e ∈ entries (posting_list_iterator p) -> (b <= e.1)%N ->
  ~ posted (ctx_terms ps) e.1 -> f e.1 = true ->
  eligible terms f e.1 /\
  above_min {| idx := e.1; score := (fzero + e.2 * query_weight p)%f32 |} /\
  summed terms e.1 (fzero + e.2 * query_weight p)%f32 /\
  above_min {| idx := e.1; score := (e.2 * query_weight p)%f32 |} /\
  summed terms e.1 (e.2 * query_weight p)%f32.
Proof.
  intros Hl Hin Hb Hn Hf.
  assert (Hp : eligible terms f e.1).
  { split; [|done]. apply (posted_lists b (p :: ps) e.1 Hl Hb). rewrite ctx_terms_cons.
    apply posted_cons. left. by apply list_elem_of_fmap_2. }
  destruct (lists_summed b (p :: ps) e.1 Hl Hb Hp) as [S1 S2].
  destruct (lists_score b (p :: ps) e.1 Hl Hb) as (terms' & Hpt & Es).
  rewrite (single_score b p ps e Hl Hin Hb Hn) in S1, S2, Es.
  destruct (zero_plus e.1 (e.2 * query_weight p)%f32) as [Z1 Z2];
    [by apply (product_wf b (p :: ps) p e); [|left|] | done |].
  do 4 (split; [done |]). exists terms'. split; [done |]. by rewrite Es.
Qed.

(** The last list is scored to its end. *)
Lemma process_last_spec b xs c p :
  settled b xs c -> postings_iterators c = [p] ->
  exists c' xs', process_last_posting_list c f = Some c' /\ settled (past b) xs' c'.
Proof.
  intros Hs Ep. pose proof (st_lists _ _ _ Hs) as Hl. rewrite Ep in Hl.
  pose proof Hl as [Ha _]. apply Forall_cons in Ha as [[Hok Hr] _]. simpl in Hok, Hr.
  unfold process_last_posting_list. rewrite Ep.
  destruct (for_each_till_id (posting_list_iterator p) U32_MAX (top_results c) _) as [it t] eqn:E.
  destruct (for_each_law _ _ _ _ _ _ Hok E) as (Hok' & He & Hr' & Ht).
  set (es := filter (fun e => e.1 <= U32_MAX)%N (posting_rest (posting_list_iterator p))) in *.
  assert (Hes : forall e, e ∈ es <-> e ∈ entries (posting_list_iterator p) /\ (b <= e.1)%N).
  { intros e. unfold es. rewrite list_elem_of_filter, Hr, list_elem_of_filter. split; [tauto |].
    intros [Hin Hb]. pose proof (entries_below b [p] p e Hl ltac:(left) Hin). split; [lia | done]. }
  assert (Hone : forall d, eligible terms f d -> (b <= d)%N -> exists e, e ∈ es /\ e.1 = d).
  { intros d [Hd _] Hb. apply (posted_lists b _ d Hl Hb) in Hd. rewrite ctx_terms_cons in Hd.
    apply posted_cons in Hd as [(e & -> & Hin)%list_elem_of_fmap|(t' & Ht' & _)].
    - exists e. split; [|done]. by apply Hes.
    - by apply elem_of_nil in Ht'. }
  set (value := fun (_ : N) (w : float) => (w * query_weight p)%f32).
  assert (Hval : forall x, x ∈ list_results f value es ->
    (b <= idx x < past b)%N /\ eligible terms f (idx x) /\ above_min x /\
    summed terms (idx x) (score x)).
  { intros x (e & (Hin & Hb)%Hes & Hf & ->)%list_results_elem. cbn [idx score].
    destruct (single_result b p [] e Hl Hin Hb) as (R1 & _ & _ & R2 & R3); [|done|].
    { intros (t' & Ht' & _). by apply elem_of_nil in Ht'. }
    split; [|done]. split; [done | apply past_settles, R1]. }
  destruct (push_list_covers f value es (top_results c) xs) as [P1 P2];
    [apply Hs | apply Forall_forall; intros x Hx; by apply Hval |].
  eexists _, (list_results f value es ++ xs). split; [done |].
  destruct Hs as [_ S2 S3 S4 S5 S6 S7 S8 S9].
  split; cbn [update postings_iterators top_results telemetry_of max_record_id batch_size]; try done.
  - apply (lists_at_later b _ [p]); [done | unfold past; lia | | by rewrite !ctx_terms_cons; simpl; rewrite He].
    constructor; [|constructor]. split; simpl; [done |]. rewrite He, (entries_past b [p]) by (done || left).
    rewrite Hr'. apply filter_nil. apply Forall_forall. rewrite Hr. intros e [_ Hin]%list_elem_of_filter.
    pose proof (entries_below b [p] p e Hl ltac:(left) Hin). lia.
  - subst t. exact P1.
  - subst t. etransitivity; [exact P2 | done].
  - eapply candidates_extend; [exact S4 | unfold past; lia | | |].
    + apply list_results_nodup. unfold es. rewrite Hr. apply by_record_nodup.
      do 2 apply StronglySorted_filter. by apply entries_sorted.
    + intros x Hx. destruct (Hval x Hx) as (V1 & V2 & V3 & V4). done.
    + intros d Hd He'. left. destruct (Hone d He' ltac:(lia)) as (e & Hin & <-).
      apply list_elem_of_fmap. eexists. split; [|apply list_results_elem; exists e; split_and!; [done | apply He' | done]].
      done.
  - simpl. rewrite left_past. rewrite <- (left_lists b b [p]) in S6 by (done || lia).
    rewrite <- (elements_left_at b) in S6 by apply Hl. unfold elements_left in S6. csimpl in S6.
    assert (len_to_end it = 0) as ->; [|lia].
    rewrite len_to_end_law, Hr' by done. rewrite filter_nil; [done |].
    apply Forall_forall. rewrite Hr. intros e [_ Hin]%list_elem_of_filter.
    pose proof (entries_below b [p] p e Hl ltac:(left) Hin). lia.
Qed.

#[local] Instance posted_dec ts d : Decision (posted ts d).
Proof.
  destruct (decide (Exists (fun t : term => d ∈ t.1.*1) ts)) as [E|E]; [left | right].
  - by apply Exists_exists in E.
  - intros Hp. apply E, Exists_exists. done.
Defined.

#[local] Instance eligible_dec d : Decision (eligible terms f d).
Proof. unfold eligible. apply _. Defined.

Definition between (b b' : N) : list N := (fun i => b + N.of_nat i)%N <$> seq 0 (N.to_nat (b' - b)).

Lemma between_spec b b' d : d ∈ between b b' <-> (b <= d < b')%N.
Proof.
  unfold between. rewrite list_elem_of_fmap. setoid_rewrite elem_of_seq. split.
  - intros (i & -> & Hi). lia.
  - intros Hd. exists (N.to_nat (d - b)). lia.
Qed.

Lemma between_nodup b b' : NoDup (between b b').
Proof. apply NoDup_fmap_2; [intros i j; lia | apply NoDup_seq]. Qed.

(** Records whose scores do not exceed the threshold are settled unseen. *)
Lemma prune_settles b b' ps t xs :
  lists_at b ps -> (b <= b')%N -> covers t xs -> candidates terms f b xs ->
  (forall d, (b <= d < b')%N -> eligible terms f d ->
     score_le (doc_score (ctx_terms ps) d) (threshold t)) ->
  exists xs', covers t xs' /\ candidates terms f b' xs'.
Proof.
  intros Hl Hb Hc Hx Hle.
  set (ids := filter (eligible terms f) (between b b')).
  set (news := (fun d => {| idx := d; score := doc_score (ctx_terms ps) d |}) <$> ids).
  assert (Hids : forall d, d ∈ ids <-> (b <= d < b')%N /\ eligible terms f d).
  { intros d. unfold ids. rewrite list_elem_of_filter, between_spec. tauto. }
  assert (Hn : forall x, x ∈ news -> (b <= idx x < b')%N /\ eligible terms f (idx x) /\
    score x = doc_score (ctx_terms ps) (idx x)).
  { unfold news. intros x (d & -> & [Hd He]%Hids)%list_elem_of_fmap. done. }
  assert (Hi : idx <$> news = ids).
  { unfold news. rewrite <- list_fmap_compose. apply list_fmap_id. }
  exists (news ++ xs). split.
  - apply covers_skip_all; [done | |]; apply Forall_forall; intros x Hx'.
    + destruct (Hn x Hx') as (N1 & N2 & N3). destruct x as [d s]. simpl in *. rewrite N3.
      apply (lists_summed b); [done | lia | done].
    + destruct (Hn x Hx') as (N1 & N2 & N3). rewrite N3. by apply Hle.
  - eapply candidates_extend; [exact Hx | done | | |].
    + rewrite Hi. apply NoDup_filter, between_nodup.
    + intros x Hx'. destruct (Hn x Hx') as (N1 & N2 & N3). split; [done |]. split; [done |].
      rewrite N3. apply (lists_summed b); [done | lia | done].
    + intros d Hd He. left. rewrite Hi. by apply Hids.
Qed.

(** What does not matter to the results. *)
Lemma settled_frame b xs c c' :
  settled b xs c -> lists_at b (postings_iterators c') -> top_results c' = top_results c ->
  max_record_id c' = max_record_id c -> batch_size c' = batch_size c ->
  use_pruning c' = use_pruning c -> posting_elements (telemetry_of c') = posting_elements (telemetry_of c) ->
  (use_block_pruning c' = true -> use_block_pruning c = true) ->
  posting_elements_visited (telemetry_of c') = posting_elements_visited (telemetry_of c) ->
  posting_elements_skipped (telemetry_of c') = posting_elements_skipped (telemetry_of c) ->
  settled b xs c'.
Proof.
  intros [S1 S2 S3 S4 [S5 S5'] S6 S7 S8 S9] Hl E1 E2 E3 E4 E5 Hb E6 E7.
  split; rewrite ?E1, ?E2, ?E3, ?E5, ?E6, ?E7; try done. split; [by rewrite E4 | auto].
Qed.

(** Skipping a batch that can not reach the threshold settles it. *)
Lemma prune_batch_spec b xs c start :
  settled b xs c -> least b terms (Some start) ->
  let '(c', pruned) := prune_batch_if_safe c (batch_end start) in
  if pruned then exists xs', settled (batch_end start + 1) xs' c'
  else settled b xs c'.
Proof.
  intros Hs Hm. destruct (batch_end_bounds b start Hm) as (Hb & _ & _ & _).
  set (last := batch_end start) in *. unfold prune_batch_if_safe.
  destruct (use_block_pruning c) eqn:Eu; [|done]. simpl.
  destruct (top_len (top_results c) <? top c); [done |].
  pose proof (st_lists _ _ _ Hs) as Hl. pose proof Hl as [Ha (gone & Hp & Hg)].
  pose proof (proj2 (st_flags _ _ _ Hs) Eu) as Ht.
  destruct (batch_bound_spec b last (postings_iterators c) terms gone ltac:(lia) Ha Hp Hg Ht)
    as (ps & ub & -> & Hat & Et & Hub & Hd).
  assert (Hl' : lists_at b ps) by (apply (lists_at_later b b (postings_iterators c)); [done | lia | done | by rewrite Et]).
  assert (Hub' : ub <> NaN /\ wf binary32 ub) by (split; [apply nonneg_not_NaN |]; apply Hub).
  destruct (cov_threshold _ _ (st_covers _ _ _ Hs)) as (Wt & Nt & _).
  cbn [update top_results block_prune_has_succeeded block_prune_failure_limit use_block_pruning
       consecutive_block_prune_failures].
  destruct (fle (threshold (top_results c)) ub) eqn:Ef.
  { repeat case_match; simplify_eq; (eapply settled_frame; [exact Hs | exact Hl' | done..| | |]);
      simpl; try done; lia. }
  destruct (skip_batch_spec b last ps 0 Hat ltac:(lia)) as (ps' & m & -> & Hat' & Et' & Hn).
  destruct (prune_settles b (last + 1) (postings_iterators c) (top_results c) xs) as (xs' & Hc & Hx).
  - done.
  - lia.
  - apply Hs.
  - apply Hs.
  - intros d Hd' _. rewrite <- (doc_score_gone d _ gone) by (apply (gone_absent d b); [done | lia]).
    etransitivity; [apply Hd; lia |]. unfold score_le. apply Z.nlt_ge. intros Hlt.
    assert (fle (threshold (top_results c)) ub = true) as Eq; [|congruence].
    unfold fle. rewrite (fcompare_rank binary32) by (done || apply Hub').
    destruct (Z.compare_spec (rank binary32 (threshold (top_results c))) (rank binary32 ub));
      [done | done |]. lia.
  - exists xs'. destruct Hs as [S1 S2 S3 S4 S5 S6 S7 S8 S9].
    split; cbn [update update_block postings_iterators top_results telemetry_of max_record_id batch_size];
      try done.
    + apply (lists_at_later b _ ps); [done | lia | done | by rewrite Et'].
    + simpl. rewrite (left_lists b), (left_lists b b) in Hn by (done || lia). lia.
Qed.

(** The records only the longest list holds before a bound can be skipped when
    its greatest weight can not reach the threshold. *)
Lemma longest_bounded b b' p ps t e it :
  lists_at b (p :: ps) -> reliable_max_next_weight I = true -> Forall term_ok terms ->
  peek (posting_list_iterator p) = (it, Some e) ->
  (forall d, posted (ctx_terms ps) d -> (b <= d)%N -> (b' <= d)%N) ->
  wf binary32 (threshold t) -> threshold t <> NaN ->
  flt (fmax (weight e) (max_next_weight e) * query_weight p)%f32 (threshold t) = true ->
  forall d, (b <= d < b')%N -> eligible terms f d ->
    score_le (doc_score (ctx_terms (p :: ps)) d) (threshold t).
Proof.
  intros Hl Hrel Ht Ep Hothers Wt Nt Hlt d Hd [Hpd Hfd].
  pose proof Hl as [Ha (gone & Hp & _)]. apply Forall_cons in Ha as [[Hok Hr] _]. simpl in Hok, Hr.
  rewrite Hp, Forall_app, ctx_terms_cons, Forall_cons in Ht. destruct Ht as [[(_ & Hi & Hq) _] _].
  simpl in Hi, Hq. destruct (max_next_law _ _ _ Hrel Hok Ep Hi) as [Hm Hle].
  assert (Hps : ~ posted (ctx_terms ps) d) by (intros Hx; specialize (Hothers d Hx); lia).
  apply (posted_lists b _ d Hl ltac:(lia)) in Hpd. rewrite ctx_terms_cons in Hpd.
  apply posted_cons in Hpd as [(x & -> & Hx)%list_elem_of_fmap|]; [|done].
  rewrite (single_score b) by (done || lia).
  assert (Hix : impact binary32 x.2) by (rewrite Forall_forall in Hi; by apply Hi).
  assert (Hrx : (rank binary32 x.2 <= rank binary32 (fmax (weight e) (max_next_weight e)))%Z).
  { rewrite Forall_forall in Hle. apply Hle. rewrite Hr. apply list_elem_of_filter. split; [lia | done]. }
  destruct (fmul_addend binary32 x.2 (query_weight p) Hix Hq) as [Wx _].
  destruct (fmul_addend binary32 _ (query_weight p) Hm Hq) as [Wm Am].
  unfold score_le. rewrite (fadd_zero_rank binary32) by done.
  assert (Nm : (fmax (weight e) (max_next_weight e) * query_weight p)%f32 <> NaN).
  { destruct Am as [Am| ->]; [by apply nonneg_not_NaN | done]. }
  apply flt_spec in Hlt as [_ Hlt]; [|done..].
  pose proof (fmul_mono_l binary32 _ _ (query_weight p) Hix Hm Hq Hrx). lia.
Qed.

(** The longest list moves on to a later bound: what it skips is settled. *)
Lemma longest_moves b b' xs c p ps ps' e it it' t :
  settled b xs c -> use_pruning c = true -> postings_iterators c = p :: ps ->
  peek (posting_list_iterator p) = (it, Some e) -> posting_ok it ->
  entries it = entries (posting_list_iterator p) ->
  posting_rest it = posting_rest (posting_list_iterator p) ->
  at_bound b ps' -> ctx_terms ps' = ctx_terms ps -> (b <= b')%N ->
  (forall d, posted (ctx_terms ps) d -> (b <= d)%N -> (b' <= d)%N) ->
  flt (fmax (weight e) (max_next_weight e) * query_weight p)%f32 (threshold (top_results c)) = true ->
  posting_ok it' -> entries it' = entries it ->
  posting_rest it' = filter (fun e => b' <= e.1)%N (entries it') ->
  posting_elements t = posting_elements (telemetry_of c) ->
  posting_elements_visited t = posting_elements_visited (telemetry_of c) ->
  posting_elements_skipped t =
    posting_elements_skipped (telemetry_of c) + (cursor_index it' - cursor_index it) ->
  exists xs', settled b' xs'
    (update c (with_iterator p it' :: ps') (top_results c) (min_record_id c) t).
Proof.
  intros Hs Hu Ec Ep Hok' He Hr' Ha' Et Hb Hgap Hlt Hok2 He2 Hr2 T1 T2 T3.
  pose proof (st_lists _ _ _ Hs) as Hl. rewrite Ec in Hl. pose proof Hl as [Ha _].
  apply Forall_cons in Ha as [[Hok Hr] Hps]. simpl in Hok, Hr.
  destruct (proj1 (st_flags _ _ _ Hs) Hu) as [Hrel Ht].
  destruct (cov_threshold _ _ (st_covers _ _ _ Hs)) as (Wt & Nt & _).
  pose proof (longest_bounded b b' p ps (top_results c) e it Hl Hrel Ht Ep Hgap Wt Nt Hlt) as Hle.
  destruct (prune_settles b b' (p :: ps) (top_results c) xs Hl Hb (st_covers _ _ _ Hs)
    (st_cand _ _ _ Hs) Hle) as (xs' & Hc & Hx).
  exists xs'. assert (Hab : at_bound b' ps') by (apply (at_bound_gap b b'); [done | by rewrite Et | done]).
  destruct (at_bound_cons b' p it' ps' Hok2) as [A1 A2]; [congruence | done | done |].
  destruct Hs as [S1 S2 S3 S4 S5 S6 S7 S8 S9].
  split; cbn [update postings_iterators top_results telemetry_of max_record_id batch_size]; try done.
  - apply (lists_at_later b _ (p :: ps)); [done | done | done |]. by rewrite A2, ctx_terms_cons, Et.
  - rewrite T2, T3. rewrite <- (left_lists b b (p :: ps)) in S6 by (done || lia).
    rewrite <- (left_lists b b' (p :: ps)) by done. rewrite ctx_terms_cons in *.
    unfold left_at in *. csimpl in *. fold (left_at b (ctx_terms ps)) in S6.
    fold (left_at b' (ctx_terms ps)).
    assert (left_at b (ctx_terms ps) = left_at b' (ctx_terms ps)) as El.
    { rewrite <- !Et, <- (elements_left_at b), <- (elements_left_at b') by done. done. }
    pose proof (cursor_index_law _ Hok') as C1. pose proof (cursor_index_law _ Hok2) as C2.
    rewrite Hr', Hr, He in C1. rewrite Hr2, He2, He in C2.
    pose proof (left_length_mono b b' (entries (posting_list_iterator p)) Hb). lia.
  - congruence.
Qed.

(** Skipping to a record behind the front moves the cursor. *)
Lemma skip_moves b d nxt it it' r :
  posting_ok it -> posting_rest it = filter (fun e => b <= e.1)%N (entries it) ->
  skip_to it nxt = (it', r) -> d ∈ (entries it).*1 -> (b <= d < nxt)%N ->
  posting_ok it' /\ entries it' = entries it /\
  posting_rest it' = filter (fun e => nxt <= e.1)%N (entries it') /\
  cursor_index it' - cursor_index it <> 0.
Proof.
  intros Hok Hr E Hd Hb. destruct (skip_to_law it it' nxt r Hok E) as (Hok2 & He2 & Hr2).
  rewrite Hr, filter_from_from in Hr2 by lia. rewrite He2. split_and!; [done.. |].
  pose proof (cursor_index_law _ Hok) as C1. pose proof (cursor_index_law _ Hok2) as C2.
  rewrite Hr in C1. rewrite Hr2, He2 in C2.
  assert (Hlt := left_at_lt b nxt [(entries it, fzero)] d).
  unfold left_at in Hlt. csimpl in Hlt. rewrite !Nat.add_0_r in Hlt.
  specialize (Hlt ltac:(apply posted_cons; by left) Hb). lia.
Qed.

Lemma prune_longest_spec b xs c :
  settled b xs c -> use_pruning c = true ->
  let '(c', pruned) := prune_longest_posting_list c (threshold (top_results c)) in
  if pruned then exists b' xs', (b <= b')%N /\ settled b' xs' c'
  else settled b xs c' /\ min_record_id c' = min_record_id c.
Proof.
  intros Hs Hu. pose proof (st_lists _ _ _ Hs) as Hl. unfold prune_longest_posting_list.
  destruct (postings_iterators c) as [|p ps] eqn:Ec; [done |].
  pose proof Hl as [Ha Hgone]. apply Forall_cons in Ha as [[Hok Hr] Hps]. simpl in Hok, Hr.
  destruct (peek (posting_list_iterator p)) as [it r] eqn:Ep.
  destruct (peek_front b _ _ _ Hok Hr Ep) as (Hok' & He & Hr' & Hhd).
  assert (Hstay : forall ps' t, at_bound b ps' -> ctx_terms ps' = ctx_terms ps ->
    posting_elements_visited t = posting_elements_visited (telemetry_of c) ->
    posting_elements_skipped t = posting_elements_skipped (telemetry_of c) ->
    posting_elements t = posting_elements (telemetry_of c) ->
    settled b xs (update c (with_iterator p it :: ps') (top_results c) (min_record_id c) t)).
  { intros ps' t Ha' Et T1 T2 T3. eapply settled_frame; [exact Hs | | done..].
    apply (lists_at_later b b (p :: ps)); [done | lia | |].
    - apply at_bound_cons; [done | done | by rewrite Hr', Hr, He | done].
    - cbn [update postings_iterators]. rewrite !ctx_terms_cons, Et. simpl. by rewrite He. }
  destruct r as [e|]; [|split; [apply Hstay; simpl; (done || lia) | done]].
  destruct (next_min_id_spec b ps Hps) as (ps' & m & -> & Ha' & Et & Hm).
  destruct Hhd as [[Hhd Hbe] _]. rewrite <- He in Hhd.
  destruct m as [nxt|]; simpl in Hm.
  - destruct (N.leb_spec nxt (record_id e)) as [Hle|Hgt];
      [split; [apply Hstay; simpl; (done || lia) | done] |].
    destruct (flt _ _) eqn:Hlt; [|split; [apply Hstay; simpl; (done || lia) | done]].
    destruct (skip_to it nxt) as [it' r] eqn:Esk. destruct Hm as [[Hmp Hmb] Hmin].
    destruct (skip_moves b (record_id e) nxt it it' r Hok') as (Hok2 & He2 & Hr2 & Hmoved);
      [by rewrite Hr', Hr, He | done | done | lia |]. simpl.
    destruct (Nat.eqb_spec (cursor_index it' - cursor_index it) 0); [done |].
    match goal with |- context [update c _ _ _ ?t] =>
      destruct (longest_moves b nxt xs c p ps ps' e it it' t Hs Hu Ec Ep Hok' He Hr' Ha' Et Hmb
        (fun d Hd Hbd => Hmin d (conj Hd Hbd)) Hlt Hok2 He2 Hr2) as (xs' & Hs') end;
      [done | simpl; lia | simpl; lia |].
    by exists nxt, xs'.
  - destruct (flt _ _) eqn:Hlt; [|split; [apply Hstay; simpl; (done || lia) | done]].
    destruct (skip_to_end_law it Hok') as (Hok2 & He2 & Hr2).
    assert (Hb : (b <= past b)%N) by (unfold past; lia).
    match goal with |- context [update c _ _ _ ?t] =>
      destruct (longest_moves b (past b) xs c p ps ps' e it (skip_to_end it) t Hs Hu Ec Ep Hok' He Hr'
        Ha' Et Hb (fun d Hd Hbd => False_ind _ (Hm d (conj Hd Hbd))) Hlt Hok2 He2) as (xs' & Hs') end;
      [| done | simpl; lia | simpl; lia |].
    + rewrite Hr2, He2, He. symmetry. apply (entries_past b (p :: ps)); [done | left].
    + by exists (past b), xs'.
Qed.

Lemma lists_at_perm b ps ps' : ps' ≡ₚ ps -> lists_at b ps -> lists_at b ps'.
Proof.
  intros Hp Hl. apply (lists_at_later b b ps); [done | lia | | by apply ctx_terms_perm].
  apply (at_bound_perm b ps); [done | apply Hl].
Qed.

(** Pruning between batches. *)
Lemma prune_between_spec b xs c :
  settled b xs c -> least b terms (min_record_id c) -> use_pruning c = true ->
  exists b' xs', (b <= b')%N /\ settled b' xs' (prune_between c (threshold (top_results c))) /\
    least b' terms (min_record_id (prune_between c (threshold (top_results c)))).
Proof.
  intros Hs Hm Hu. unfold prune_between. set (c0 := update c _ _ _ _).
  assert (Hs0 : settled b xs c0).
  { apply st_update; [done |]. apply (lists_at_perm b (postings_iterators c));
      [apply promote_longest_perm | apply Hs]. }
  pose proof (prune_longest_spec b xs c0 Hs0 Hu) as Hp.
  change (threshold (top_results c)) with (threshold (top_results c0)).
  destruct (prune_longest_posting_list c0 (threshold (top_results c0))) as [c1 [|]].
  - destruct Hp as (b' & xs' & Hb & Hs1). pose proof (st_lists _ _ _ Hs1) as Hl.
    destruct (next_min_id_spec b' _ (proj1 Hl)) as (ps & m & -> & Ha & Et & Hl').
    assert (Hl2 : lists_at b' ps) by (apply (lists_at_later b' b' _ ps Hl); [lia | done | by rewrite Et]).
    exists b', xs'. split; [done |]. split; [by apply st_update |].
    cbn [update min_record_id]. apply (least_lists b' ps); [done |]. by rewrite Et.
  - destruct Hp as [Hs1 Em]. exists b, xs. split; [lia |]. split; [done |]. by rewrite Em.
Qed.

(** One turn of the loop settles at least one more element, or everything. *)
Lemma search_step_spec b xs c best :
  settled b xs c -> least b terms (min_record_id c) ->
  match search_step c best f with
  | Continue c' _ => exists b' xs', settled b' xs' c' /\ least b' terms (min_record_id c') /\
      left_at b' terms < left_at b terms
  | Break c' => exists b' xs', settled b' xs' c' /\ forall d, posted terms d -> (d < b')%N
  | OutOfBounds => False
  end.
Proof.
  intros Hs Hm. unfold search_step. destruct (min_record_id c) as [start|] eqn:Emin.
  2:{ exists b, xs. split; [done |]. intros d Hd. apply N.nle_gt. intros Hb. by apply (Hm d). }
  rewrite (st_width _ _ _ Hs), (st_max _ _ _ Hs). fold (batch_end start).
  destruct (batch_end_bounds b start Hm) as (_ & _ & _ & Hleft).
  pose proof (prune_batch_spec b xs c start Hs Hm) as Hprune.
  destruct (prune_batch_if_safe c (batch_end start)) as [c1 [|]].
  { destruct Hprune as (xs' & Hs1). destruct (refresh_spec _ _ _ Hs1) as (Hs2 & Hm2 & _).
    by exists (batch_end start + 1)%N, xs'. }
  destruct (advance_batch_spec b xs c1 start Hprune Hm) as (c2 & xs2 & -> & Hs2 & _).
  destruct (refresh_spec _ _ _ Hs2) as (Hs3 & Hm3 & Hempty).
  set (c3 := refresh c2) in *. destruct (Nat.eqb_spec (length (postings_iterators c3)) 0) as [E0|E0].
  { exists (batch_end start + 1)%N, xs2. split; [done |]. by apply Hempty. }
  destruct (Nat.eqb_spec (length (postings_iterators c3)) 1) as [E1|E1]; simpl.
  1: destruct (use_block_pruning c3); simpl.
  2:{ destruct (postings_iterators c3) as [|p [|]] eqn:Ep; try done.
      destruct (process_last_spec _ _ _ p Hs3 Ep) as (c4 & xs4 & -> & Hs4).
      eexists _, xs4. split; [exact Hs4 |]. apply past_settles. }
  all: destruct (use_pruning c3) eqn:Eu; simpl;
    [destruct (top c3 <=? top_len (top_results c3)); [destruct (feq _ best) |] |];
    try (by exists (batch_end start + 1)%N, xs2).
  all: destruct (prune_between_spec _ _ c3 Hs3 Hm3 Eu) as (b' & xs' & Hb & Hs4 & Hm4);
    exists b', xs'; split; [done |]; split; [done |];
    pose proof (left_at_mono (batch_end start + 1) b' terms Hb); lia.
Qed.

(** The loop returns, with everything settled or the search cancelled. *)
Lemma search_loop_spec fuel stopped_at load b xs c best :
  settled b xs c -> least b terms (min_record_id c) -> left_at b terms < fuel ->
  exists c' b' xs', search_loop fuel stopped_at load f c best = Returned (Ok c') /\
    settled b' xs' c' /\
    ((forall d, posted terms d -> (d < b')%N) \/
     cancelled (telemetry_of c') = true /\ exists i, stopped_at i = true).
Proof.
  revert load b xs c best. induction fuel as [|fuel IH]; intros load b xs c best Hs Hm Hf; [lia |].
  cbn [search_loop]. destruct (stopped_at load) eqn:Est.
  { eexists _, b, xs. split; [done |]. split; [|right; split; [done | by exists load]].
    eapply settled_frame; [exact Hs | apply Hs | done..]. }
  pose proof (search_step_spec b xs c best Hs Hm) as Hstep.
  destruct (search_step c best f) as [c' best'|c'|]; [| |done].
  - destruct Hstep as (b' & xs' & Hs' & Hm' & Hlt). apply (IH (S load) b' xs'); [done | done | lia].
  - destruct Hstep as (b' & xs' & Hs' & Hd). exists c', b', xs'. split; [done |]. split; [done |]. by left.
Qed.
End Search.

(** ** Opening and searching *)

Section Opened.
Context {I : Type} `{LawfulPosting I} `{UnstableOrder}.
Context (get : N -> OperationResult I) (query : RemappedSparseVector) (n : nat).
Implicit Types (c : SearchContext I) (ps : list (IndexedPostingListIterator I)).

(** What opening has found after some dimensions. *)
Record opening (terms : list term) ps (min_id max_id : N) : Prop := {
  op_at : at_bound 0 ps;
  op_terms : exists gone, terms ≡ₚ ctx_terms ps ++ gone /\
    Forall (fun t : term => Forall (fun e : PostingElement => e.1 < 0)%N t.1) gone;
  op_least : forall d, posted terms d -> (min_id <= d)%N;
  op_min : (min_id <= U32_MAX)%N /\ (min_id = U32_MAX \/ posted terms min_id);
  op_max : forall d, posted terms d -> (d <= max_id)%N;
  op_fits : (max_id <= U32_MAX)%N;
  op_some : ps <> [] -> exists d, posted terms d;
}.

Lemma posted_snoc terms (t : term) d : posted (terms ++ [t]) d <-> posted terms d \/ d ∈ t.1.*1.
Proof. unfold posted. setoid_rewrite elem_of_app. setoid_rewrite list_elem_of_singleton. naive_solver. Qed.

Lemma filter_all_ids (l : list PostingElement) : filter (fun e => 0 <= e.1)%N l = l.
Proof. apply filter_id. apply Forall_forall. lia. Qed.

Lemma opening_skip terms ps min_id max_id (l : list PostingElement) q :
  opening terms ps min_id max_id -> l = [] -> opening (terms ++ [(l, q)]) ps min_id max_id.
Proof.
  intros [O1 (gone & O2 & O3) O4 O5 O6 O7 O8] ->.
  assert (Hp : forall d, posted (terms ++ [([], q)]) d <-> posted terms d).
  { intros d. rewrite posted_snoc. simpl. split; [|by left]. by intros [?|?%elem_of_nil]. }
  split; try done; [|setoid_rewrite Hp; done..].
  exists (gone ++ [([], q)]). rewrite O2, app_assoc. split; [done |].
  apply Forall_app. split; [done |]. by repeat constructor.
Qed.

Lemma opening_push terms ps min_id max_id it e last id q :
  opening terms ps min_id max_id -> fresh it -> min_of (Some e) (fun d => d ∈ (entries it).*1) ->
  fst <$> list.last (entries it) = Some last ->
  Forall (fun e : PostingElement => e.1 <= U32_MAX)%N (entries it) ->
  opening (terms ++ [(entries it, q)]) (ps ++ [mkIndexed it id q]) (N.min min_id e) (N.max max_id last).
Proof.
  intros [O1 (gone & O2 & O3) O4 O5 O6 O7 O8] [Hok Hr] [He Hle] Hlast H32.
  assert (Hmax : last ∈ (entries it).*1 /\ forall d, d ∈ (entries it).*1 -> (d <= last)%N).
  { pose proof (entries_sorted it Hok) as Hs. destruct (list.last (entries it)) as [x|] eqn:El; [|done].
    injection Hlast as <-. apply last_Some in El as [l El]. rewrite El in *. split.
    - rewrite fmap_app. apply elem_of_app. right. left.
    - intros d (y & -> & Hy)%list_elem_of_fmap. apply elem_of_app in Hy as [Hy|Hy].
      2:{ apply list_elem_of_singleton in Hy as ->. lia. }
      assert (Hyx : by_record y x)
        by (eapply StronglySorted_app_1_elem_of; [exact Hs | exact Hy | left]).
      unfold by_record in Hyx. lia. }
  destruct Hmax as [Hl1 Hl2].
  assert (Hin32 : forall d, d ∈ (entries it).*1 -> (d <= U32_MAX)%N).
  { intros d (y & -> & Hy)%list_elem_of_fmap. rewrite Forall_forall in H32. by apply H32. }
  split.
  - apply Forall_app. split; [done |]. constructor; [|constructor]. split; simpl; [done |].
    by rewrite filter_all_ids.
  - exists gone. split; [|done]. unfold ctx_terms, pairs, terms_of in *. rewrite !fmap_app. csimpl.
    rewrite O2, <- !app_assoc. apply Permutation_app_head. apply Permutation_app_comm.
  - intros d [Hd|Hd]%posted_snoc; [specialize (O4 d Hd) | specialize (Hle d Hd)]; lia.
  - destruct O5 as [O5 O5']. split; [lia |]. destruct (N.min_spec min_id e) as [[? ->]|[? ->]].
    + destruct O5' as [?|?]; [by left | right]. apply posted_snoc. by left.
    + right. apply posted_snoc. by right.
  - intros d [Hd|Hd]%posted_snoc; [specialize (O6 d Hd) | specialize (Hl2 d Hd)]; lia.
  - specialize (Hin32 last Hl1). lia.
  - intros _. exists e. apply posted_snoc. by right.
Qed.

(** Posting lists as an index hands them out. *)
Definition readable (id : N) (it : I) : Prop :=
  get id = Ok it /\ fresh it /\ Forall (fun e : PostingElement => e.1 <= U32_MAX)%N (entries it).

Lemma open_iterators_spec vals off ids its terms ps min_id max_id :
  Forall2 readable ids its -> off + length ids <= length vals ->
  opening terms ps min_id max_id ->
  exists ps' min' max', open_iterators get vals off ids ps min_id max_id =
      Returned (Ok (ps', min', max')) /\
    opening (terms ++ zip (entries <$> its) (drop off vals)) ps' min' max'.
Proof.
  intros Hi. revert off terms ps min_id max_id.
  induction Hi as [|id it ids its (Hg & Hf & H32) Hi IH]; intros off terms ps min_id max_id Hlen Ho;
    cbn [open_iterators].
  { exists ps, min_id, max_id. csimpl. by rewrite app_nil_r. }
  simpl in Hlen. destruct (lookup_lt_is_Some_2 vals off ltac:(lia)) as [q Hq].
  rewrite Hg. destruct Hf as [Hok Hr]. destruct (peek it) as [it' r] eqn:Ep.
  destruct (peek_front 0 it it' r Hok) as (Hok' & He & Hr' & Hm); [by rewrite Hr, filter_all_ids | done |].
  rewrite (last_id_law it' Hok'), He, (drop_S _ _ _ Hq).
  assert (E : terms ++ zip (entries <$> it :: its) (q :: drop (S off) vals) =
    (terms ++ [(entries it, q)]) ++ zip (entries <$> its) (drop (S off) vals))
    by (csimpl; by rewrite <- app_assoc).
  rewrite E. destruct r as [x|]; simpl in Hm.
  - destruct (list.last (entries it)) as [y|] eqn:El.
    2:{ apply last_None in El. destruct Hm as [[Hm _] _]. rewrite El in Hm. by apply elem_of_nil in Hm. }
    simpl. rewrite Hq. apply IH; [lia |]. rewrite <- He.
    apply opening_push; [done | split; [done | congruence] | | by rewrite He, El | by rewrite He].
    rewrite He. destruct Hm as [[M1 _] M2]. split; [done |]. intros d Hd. apply M2. split; [done | lia].
  - apply IH; [lia |]. apply opening_skip; [done |]. destruct (entries it) as [|y l]; [done |].
    exfalso. apply (Hm y.1). split; [left | lia].
Qed.

Lemma opening_start : opening [] [] U32_MAX 0.
Proof.
  assert (Hno : forall d, ~ posted [] d) by (intros d (t & Ht & _); by apply elem_of_nil in Ht).
  split; [constructor | exists []; split; [done | constructor] | | split; [done | by left] | | done | done];
    intros d Hd; by apply Hno in Hd.
Qed.

(** A context as opened, and then configured. *)
Inductive is_opened : SearchContext I -> Prop :=
  | opened_new c : SearchContext_new query n get = Returned (Ok c) -> is_opened c
  | opened_block_pruning c enabled : is_opened c -> is_opened (set_block_pruning c enabled)
  | opened_posting_pruning c enabled : is_opened c -> is_opened (set_posting_pruning c enabled)
  | opened_failure_limit c limit c' :
      is_opened c -> set_block_prune_failure_limit c limit = Some c' -> is_opened c'
  | opened_router c : is_opened c -> is_opened (apply_block_max_endpoint_trend_router c)
  | opened_batch_size c width c' :
      is_opened c -> set_batch_size c width = Some c' -> (N.of_nat width < U32_MAX)%N -> is_opened c'.

Context (its : list I) (f : N -> bool).
Definition query_terms : list term := zip (entries <$> its) (values query).

Hypothesis Hread : Forall2 readable (indices query) its.
Hypothesis Hlen : length (indices query) = length (values query).
Hypothesis Hbounds : reliable_max_next_weight I || reliable_block_max I = true ->
  forallb (fun v => fle fzero v) (values query) = true -> Forall term_ok query_terms.

Lemma opened_settled c :
  is_opened c -> exists max_id width,
    (forall d, posted query_terms d -> (d <= max_id <= U32_MAX)%N) /\ (max_id <= U32_MAX)%N /\
    (width < U32_MAX)%N /\
    settled query_terms f n (left_at 0 query_terms) max_id width 0 [] c /\
    (postings_iterators c <> [] -> least 0 query_terms (min_record_id c)).
Proof.
  induction 1 as [c Hc|c b _ IH|c b _ IH|c l c' _ IH E|c _ IH|c w c' _ IH E Hw].
  - unfold SearchContext_new in Hc.
    destruct (open_iterators_spec (values query) 0 (indices query) its [] [] U32_MAX 0) as
      (ps & min_id & max_id & E & [O1 O2 O4 O5 O6 O7 O8]); [done | lia | apply opening_start |].
    rewrite E in Hc. injection Hc as <-. rewrite app_nil_l, drop_0 in *. fold query_terms in *.
    exists max_id, ADVANCE_BATCH_SIZE. split; [auto |]. split; [done |]. split; [done |].
    assert (Hl : lists_at query_terms 0 ps) by done. split.
    + split; cbn; try done.
      * apply covers_new.
      * apply candidates_nil.
      * split; intros [Hrel Hnn]%andb_true_iff.
        -- split; [done |]. apply Hbounds; [by rewrite Hrel | done].
        -- apply Hbounds; [by rewrite Hrel, orb_true_r | done].
      * rewrite <- (left_lists query_terms 0 0 ps Hl) by lia. by apply (elements_left_at 0).
    + cbn. intros Hne. destruct (O8 Hne) as [d Hd]. split; [|intros x [Hx _]; auto].
      split; [|lia]. destruct O5 as [O5 [Ou|?]]; [|done].
      assert (d = min_id) as <-; [|done]. specialize (O4 d Hd). specialize (O6 d Hd). lia.
  - destruct IH as (mx & w & I1 & I2 & I3 & I4 & I5). exists mx, w. do 3 (split; [done |]). split; [|done].
    eapply settled_frame; [exact I4 | apply I4 | ..]; try done. simpl. by intros [? _]%andb_true_iff.
  - destruct IH as (mx & w & I1 & I2 & I3 & I4 & I5). exists mx, w. do 3 (split; [done |]). split; [|done].
    destruct I4 as [S1 S2 S3 S4 [S5 S5'] S6 S7 S8 S9]. split; try done. split; [|done]. simpl.
    intros [? _]%andb_true_iff. auto.
  - destruct IH as (mx & w & I1 & I2 & I3 & I4 & I5). unfold set_block_prune_failure_limit in E.
    case_decide; [done |]. injection E as <-. exists mx, w. do 3 (split; [done |]). split; [|done].
    eapply settled_frame; [exact I4 | apply I4 | done..].
  - destruct IH as (mx & w & I1 & I2 & I3 & I4 & I5). exists mx, w. do 3 (split; [done |]).
    unfold apply_block_max_endpoint_trend_router. repeat case_match; try done. split; [|done].
    eapply settled_frame; [exact I4 | apply I4 | done..].
  - destruct IH as (mx & w' & I1 & I2 & I3 & I4 & I5). unfold set_batch_size in E.
    case_match; [done |]. injection E as <-. exists mx, (N.of_nat w). do 3 (split; [done |]).
    split; [|done]. destruct I4 as [S1 S2 S3 S4 S5 S6 S7 S8 S9]. by split.
Qed.

(** Opening succeeds. *)
Lemma opens : exists c, SearchContext_new query n get = Returned (Ok c).
Proof.
  unfold SearchContext_new.
  destruct (open_iterators_spec (values query) 0 (indices query) its [] [] U32_MAX 0) as (ps & min_id & max_id & -> & _);
    [done | lia | apply opening_start | eauto].
Qed.

Hypothesis Hwf : Forall term_wf query_terms.
Hypothesis Hsafe : representable query_terms f.

(** The counters of a context cover every element. *)
Lemma settled_accounts total max_id width b xs c :
  settled query_terms f n total max_id width b xs c ->
  posting_elements_visited (telemetry c) + posting_elements_skipped (telemetry c) +
    posting_elements_remaining (telemetry c) = posting_elements (telemetry c).
Proof.
  intros [S1 S2 S3 S4 S5 S6 S7 S8 S9]. unfold telemetry. simpl. rewrite S7, <- S6.
  rewrite (elements_left_at b) by apply S1. rewrite (left_lists query_terms b b) by (done || lia). done.
Qed.

Lemma search_returns c stopped_at :
  is_opened c ->
  exists c' results bound found, search stopped_at f c = Returned (Ok (c', results)) /\
    candidates query_terms f bound found /\ selects n found results /\
    ((forall d, posted query_terms d -> (d < bound)%N) \/
     cancelled (telemetry c') = true /\ exists i, stopped_at i = true) /\
    posting_elements_visited (telemetry c') + posting_elements_skipped (telemetry c') +
      posting_elements_remaining (telemetry c') = posting_elements (telemetry c').
Proof.
  intros Ho. destruct (opened_settled c Ho) as (max_id & width & Hmax & H32 & Hw & Hs & Hm).
  unfold search. destruct (postings_iterators c) as [|p ps] eqn:Ep.
  { exists c, [], 0%N, []. split; [done |]. split; [apply candidates_nil |]. split; [|split].
    - split_and!; [simpl; lia | constructor |]. exists []. split; [done |]. by intros x y ?%elem_of_nil.
    - left. intros d Hd. exfalso. pose proof (st_lists _ _ _ _ _ _ _ _ _ Hs) as Hl. rewrite Ep in Hl.
      apply (posted_lists query_terms 0 [] d Hl) in Hd; [|lia]. destruct Hd as (t & Ht & _).
      by apply elem_of_nil in Ht.
    - by eapply settled_accounts. }
  specialize (Hm ltac:(done)). rewrite <- Ep.
  pose proof (st_lists _ _ _ _ _ _ _ _ _ Hs) as Hl.
  assert (Hfuel : left_at 0 query_terms < S (S (elements_left (postings_iterators c)))).
  { rewrite (elements_left_at 0) by apply Hl. rewrite (left_lists query_terms 0 0) by (done || lia). lia. }
  destruct (search_loop_spec query_terms f n (left_at 0 query_terms) max_id width
    (fun d Hd => proj1 (Hmax d Hd)) H32 Hw Hsafe Hwf _ stopped_at 0 0 [] c F32_MIN Hs Hm Hfuel)
    as (c' & b' & xs' & -> & Hs' & Hend).
  eexists _, _, b', xs'. split; [done |]. split; [apply Hs' |]. split.
  - rewrite <- (st_k _ _ _ _ _ _ _ _ _ Hs'). apply into_vec_selects, Hs'.
  - split; [exact Hend |]. apply (settled_accounts _ _ _ _ _ _ Hs').
Qed.

End Opened.

(** ** Non-negative weights *)

Lemma term_ok_wf t : term_ok t -> term_wf t.
Proof.
  intros (_ & Hi & Hq). split; [|apply Hq]. eapply Forall_impl; [exact Hi |]. intros e He. apply He.
Qed.

Lemma doc_score_wf terms d : Forall term_wf terms -> wf binary32 (doc_score terms d).
Proof.
  unfold doc_score. assert (Hz : wf binary32 fzero) by apply (wf_zero binary32). revert Hz. generalize fzero.
  induction terms as [|t terms IH]; intros acc Ha Ht; csimpl; [done |]. apply Forall_cons in Ht as [[He Hq] Ht].
  apply IH; [|done]. unfold add_term. destruct (find_weight d t.1) as [w|] eqn:E; [|done].
  apply find_weight_Some in E. rewrite Forall_forall in He. apply (fadd_wf binary32); [done |].
  apply (fmul_wf binary32); [exact (He _ E) | done].
Qed.

Lemma score_ok_above d s : score_ok s -> above_min {| idx := d; score := s |}.
Proof.
  intros [W Nn]. apply above_min_spec. simpl. split; [done |]. split; [by apply nonneg_not_NaN |].
  pose proof (nonneg_rank binary32 s Nn). assert (rank binary32 F32_MIN < 0)%Z by done. lia.
Qed.

Lemma term_ok_representable terms f : Forall term_ok terms -> representable terms f.
Proof.
  intros Ht terms' d Hp _. apply score_ok_above, doc_score_ok. by rewrite Hp.
Qed.

(** ** Searching the index in memory *)

Section Ram.
Context `{UnstableOrder} (index : InvertedIndexRam) (m : VectorMap).
Context (query : RemappedSparseVector) (n : nat) (f : N -> bool).

(** The score of a stored record, the query's dimensions taken in some order. *)
Definition add_stored (d : N) (acc : float) (e : N * float) : float :=
  match stored m e.1 d with Some w => (acc + w * e.2)%f32 | None => acc end.

Definition record_score (es : list (N * float)) (d : N) : float := fold_left (add_stored d) es fzero.

(** A stored record with a dimension of the query, that passes the filter. *)
Definition matches (d : N) : Prop :=
  exists v dim, m !! d = Some v /\ dim ∈ indices v /\ dim ∈ indices query /\ f d = true.

Definition ram_its : list PostingListIterator :=
  (fun dim => posting_list_iter (posting_of (postings index) dim)) <$> indices query.

Definition ram_term (e : N * float) : term := (plist_entries (posting_of (postings index) e.1), e.2).

Hypothesis Hreach : reachable index m.
Hypothesis Hquery : length (indices query) = length (values query).
Hypothesis Hdims : Forall (fun dim => N.to_nat dim < length (postings index)) (indices query).
Hypothesis Hids : forall d, is_Some (m !! d) -> (d <= U32_MAX)%N.

(** What a search asks of the numbers.  A query without negative values may be
    pruned, and needs stored weights that are not negative; a query with a
    negative value is not pruned, and needs scores above the least [f32]. *)
Record searchable : Prop := {
  sr_stored : map_Forall (fun _ v => Forall (wf binary32) (values v)) m;
  sr_values : Forall (fun q => wf binary32 q /\ is_finite q = true) (values query);
  sr_pruned : forallb (fun q => fle fzero q) (values query) = true ->
    map_Forall (fun _ v => Forall (impact binary32) (values v)) m;
  sr_scores : forallb (fun q => fle fzero q) (values query) = false ->
    forall es d, es ≡ₚ sv_entries query -> matches d -> flt F32_MIN (record_score es d) = true;
}.

Lemma ram_terms : query_terms query ram_its = ram_term <$> sv_entries query.
Proof.
  unfold query_terms, ram_its, sv_entries. rewrite <- list_fmap_compose. unfold compose. simpl.
  clear -Hquery. revert Hquery. generalize (values query). induction (indices query) as [|dim dims IH];
    intros [|q qs] Hl; simplify_eq/=; [done |]. by rewrite <- IH.
Qed.

Lemma posting_of_ok dim : plist_ok (posting_of (postings index) dim).
Proof.
  destruct (reachable_represents index m Hreach) as [(Hok & _) _]. unfold posting_of.
  destruct (postings index !! N.to_nat dim) eqn:E; simpl; [by eapply Forall_lookup_1 |].
  split_and!; constructor.
Qed.

Lemma posting_of_entry dim d w :
  (d, w) ∈ plist_entries (posting_of (postings index) dim) -> stored m dim d = Some w.
Proof.
  intros Hin. destruct (reachable_represents index m Hreach) as [(_ & Hw & _) _].
  rewrite <- Hw. unfold weight_at. pose proof (plist_nodup _ (posting_of_ok dim)) as Hn.
  destruct (find_weight d _) as [w'|] eqn:E.
  - apply find_weight_Some in E. f_equal. apply list_elem_of_lookup in E as [i Hi], Hin as [j Hj].
    assert (i = j) as ->.
    { eapply NoDup_lookup; [exact Hn | |]; by rewrite list_lookup_fmap, ?Hi, ?Hj. }
    congruence.
  - apply find_weight_None in E. exfalso. apply E. apply list_elem_of_fmap. by exists (d, w).
Qed.

Lemma stored_value dim d w :
  stored m dim d = Some w -> exists v, m !! d = Some v /\ dim ∈ indices v /\ w ∈ values v.
Proof.
  unfold stored. destruct (m !! d) as [v|] eqn:E; [|done]. simpl. intros Hw%find_weight_Some.
  exists v. split; [done |]. unfold sv_entries in Hw. split.
  - by apply elem_of_zip_l in Hw.
  - by apply elem_of_zip_r in Hw.
Qed.

Lemma ram_terms_ok :
  map_Forall (fun _ v => Forall (impact binary32) (values v)) m -> Forall (impact binary32) (values query) ->
  Forall term_ok (query_terms query ram_its).
Proof.
  intros Hweights Hvalues. rewrite ram_terms. apply Forall_fmap, Forall_forall. intros [dim q] He. unfold compose, ram_term.
  split_and!; simpl.
  - apply posting_of_ok.
  - apply Forall_forall. intros [d w] (v & Hv & _ & Hi)%posting_of_entry%stored_value. specialize (Hweights d v Hv).
    simpl in Hweights. rewrite Forall_forall in Hweights. by apply Hweights.
  - unfold sv_entries in He. apply elem_of_zip_r in He. rewrite Forall_forall in Hvalues. auto.
Qed.

Lemma ram_terms_wf : searchable -> Forall term_wf (query_terms query ram_its).
Proof.
  intros Hs. rewrite ram_terms. apply Forall_fmap, Forall_forall. intros [dim q] He. unfold compose, ram_term. split; simpl.
  - apply Forall_forall. intros [d w] (v & Hv & _ & Hi)%posting_of_entry%stored_value.
    pose proof (sr_stored Hs d v Hv) as Hw. simpl in Hw. rewrite Forall_forall in Hw. by apply Hw.
  - unfold sv_entries in He. apply elem_of_zip_r in He. pose proof (sr_values Hs) as Hq. rewrite Forall_forall in Hq. by apply Hq.
Qed.

Lemma ram_readable : Forall2 (readable (ram_get index)) (indices query) ram_its.
Proof.
  unfold ram_its. apply Forall2_fmap_r, Forall_Forall2_diag. eapply Forall_impl; [exact Hdims |].
  intros dim Hd. destruct (lookup_lt_is_Some_2 (postings index) _ Hd) as [l Hl]. split_and!.
  - unfold ram_get, posting_of. by rewrite Hl.
  - destruct (posting_of_ok dim) as (P1 & P2 & _). split; [|done]. split_and!; [done | done | simpl; lia].
  - apply Forall_forall. intros [d w] (v & Hv & _)%posting_of_entry%stored_value. simpl.
    apply Hids. by exists v.
Qed.

Lemma ram_score es d :
  doc_score (ram_term <$> es) d = record_score es d.
Proof.
  destruct (reachable_represents index m Hreach) as [(_ & Hw & _) _].
  unfold doc_score, record_score. generalize fzero. induction es as [|[dim q] es IH]; intros acc; csimpl;
    [done |]. rewrite IH. do 2 f_equal. unfold add_term, add_stored, ram_term. simpl.
  rewrite <- Hw. done.
Qed.

Lemma nonneg_impact q : wf binary32 q -> is_finite q = true -> fle fzero q = true -> impact binary32 q.
Proof.
  intros Hw Hf Hn. split; [done |]. destruct q as [|s|s a]; [done | done |]. intros ->.
  destruct (Z.eq_dec a 0) as [|Ha]; [done |]. exfalso. destruct Hw as [Hw _].
  unfold fle in Hn. rewrite (finite_compare fzero (Fin true a)) in Hn by done. simpl in Hn.
  destruct a; [done | done |]. lia.
Qed.

Lemma searchable_terms : searchable -> forallb (fun q => fle fzero q) (values query) = true ->
  Forall term_ok (query_terms query ram_its).
Proof.
  intros Hs Hn. apply ram_terms_ok; [by apply sr_pruned |]. rewrite forallb_forall in Hn.
  pose proof (sr_values Hs) as Hq. rewrite Forall_forall in *. intros q Hin. destruct (Hq q Hin) as [? ?].
  apply nonneg_impact; [done | done |]. apply Hn. by apply list_elem_of_In.
Qed.

Lemma ram_eligible d : eligible (query_terms query ram_its) f d <-> matches d.
Proof.
  rewrite ram_terms. unfold eligible, matches, posted. split.
  - intros [(t & ([dim q] & -> & Ht)%list_elem_of_fmap & ([d' w] & -> & He)%list_elem_of_fmap) Hf].
    simpl in *. apply posting_of_entry, stored_value in He as (v & Hv & Hd & _).
    exists v, dim. split_and!; try done. unfold sv_entries in Ht. by apply elem_of_zip_l in Ht.
  - intros (v & dim & Hv & Hd & Hq & Hf). split; [|done].
    apply list_elem_of_lookup in Hq as [i Hi].
    destruct (lookup_lt_is_Some_2 (values query) i) as [q Hqi];
      [rewrite <- Hquery; by eapply lookup_lt_Some |].
    exists (ram_term (dim, q)). split.
    + apply list_elem_of_fmap. exists (dim, q). split; [done |]. apply list_elem_of_lookup. exists i.
      unfold sv_entries. by rewrite lookup_zip_with, Hi, Hqi.
    + destruct (reachable_represents index m Hreach) as [(_ & Hw & _) Hind].
      destruct (indexable_entries v (Hind d v Hv)) as (_ & _ & Hiv).
      specialize (Hw dim d). unfold weight_at, stored in Hw. rewrite Hv in Hw. simpl in Hw.
      destruct (find_weight dim (sv_entries v)) as [w|] eqn:E.
      * apply find_weight_Some in Hw. simpl. apply list_elem_of_fmap. by exists (d, w).
      * apply find_weight_None in E. rewrite Hiv in E. done.
Qed.

Lemma ram_summed d s :
  summed (query_terms query ram_its) d s ->
  exists es, es ≡ₚ sv_entries query /\ feq s (record_score es d) = true.
Proof.
  rewrite ram_terms. intros (terms' & Hp & Hs).
  apply Permutation_map_inv in Hp as (es & -> & Hp). exists es. split; [by symmetry |].
  by rewrite <- ram_score.
Qed.

Lemma ram_representable : searchable -> representable (query_terms query ram_its) f.
Proof.
  intros Hs. destruct (forallb (fun q => fle fzero q) (values query)) eqn:En.
  { by apply term_ok_representable, searchable_terms. }
  intros terms' d Hp He. split; cbn [score].
  - apply doc_score_wf. rewrite Hp. by apply ram_terms_wf.
  - rewrite ram_terms in Hp. apply Permutation_map_inv in Hp as (es & -> & Hp). rewrite ram_score.
    apply (sr_scores Hs); [done | by symmetry | by apply ram_eligible].
Qed.

(** Numbers that are not negative are searchable. *)
Lemma impacts_searchable :
  map_Forall (fun _ v => Forall (impact binary32) (values v)) m -> Forall (impact binary32) (values query) -> searchable.
Proof.
  clear Hquery Hreach Hdims Hids. intros Hweights Hvalues. split; [| |done|].
  - intros d v Hv. eapply Forall_impl; [exact (Hweights d v Hv) |]. by intros w [? _].
  - eapply Forall_impl; [exact Hvalues |]. intros q [? Hq]. split; [done |]. by destruct q.
  - intros Hn. exfalso. apply not_true_iff_false in Hn. apply Hn, forallb_forall. intros q Hq%list_elem_of_In.
    rewrite Forall_forall in Hvalues. destruct (Hvalues q Hq) as [Hw Hi]. destruct q as [|s|s a]; [done | done |].
    unfold fle. rewrite (finite_compare fzero (Fin s a)) by done. destruct Hw as [Hw _].
    destruct s; [rewrite Hi by done; done |]. simpl. destruct a; [done | done | lia].
Qed.

End Ram.

(** ** Examples *)

Definition example_query : RemappedSparseVector := vector [(4, 2%Z); (9, 1%Z)]%N.

Definition example_search `{UnstableOrder} (index : InvertedIndexRam) (query : RemappedSparseVector)
    (width : nat) : list ScoredPointOffset :=
  match SearchContext_new query 1 (ram_get index) with
  | Returned (Ok c) =>
      match set_batch_size c width with
      | Some c =>
          match search (fun _ => false) (fun _ => true) c with
          | Returned (Ok (_, results)) => results
          | _ => []
          end
      | None => []
      end
  | _ => []
  end.

Lemma example_opened :
  exists c, is_opened (ram_get updated_index) example_query 1 c.
Proof.
  assert (exists c, SearchContext_new example_query 1 (ram_get updated_index) = Returned (Ok c))
    as [c Hc] by (eexists; vm_compute; reflexivity).
  exists c. by apply opened_new.
Qed.

Lemma example_dims :
  Forall (fun dim => N.to_nat dim < length (postings updated_index)) (indices example_query).
Proof. apply (bool_decide_unpack _). vm_compute. exact Logic.I. Qed.

Lemma final_map_bounded d : is_Some (final_map !! d) -> (d <= U32_MAX)%N.
Proof.
  intros [v Hv]. unfold final_map, first_map in Hv.
  rewrite lookup_delete_Some in Hv. destruct Hv as [_ Hv].
  apply lookup_insert_Some in Hv as [[<- _]|[_ Hv]]; [done |].
  apply lookup_insert_Some in Hv as [[<- _]|[_ Hv]]; [done |].
  apply lookup_insert_Some in Hv as [[<- _]|[_ Hv]]; [done |].
  apply lookup_insert_Some in Hv as [[<- _]|[_ Hv]]; [done |]. by rewrite lookup_empty in Hv.
Qed.

Lemma impact_of_Z z : bool_decide (0 <= z)%Z = true -> bool_decide (is_finite (of_Z binary32 z) = true) = true ->
  impact binary32 (of_Z binary32 z).
Proof.
  intros Hz%bool_decide_eq_true Hf%bool_decide_eq_true. split; [apply (of_Z_wf binary32) |].
  pose proof (of_Z_nonneg binary32 z Hz) as Hn.
  destruct (of_Z binary32 z) as [|[]|[] a]; try done.
Qed.

Lemma final_map_weights : map_Forall (fun _ v => Forall (impact binary32) (values v)) final_map.
Proof.
  apply map_Forall_delete.
  repeat apply map_Forall_insert_2; [| | | | apply map_Forall_empty];
    (repeat (apply Forall_cons; split; [apply impact_of_Z; vm_compute; reflexivity |]));
    apply Forall_nil; done.
Qed.

Lemma example_values : Forall (impact binary32) (values example_query).
Proof.
  repeat (apply Forall_cons; split; [apply impact_of_Z; vm_compute; reflexivity |]).
  apply Forall_nil; done.
Qed.



(** Whether a record with a score of zero is returned depends on where the
    batches end: a batch passes over such records, the last list does not. *)
Definition zero_index : InvertedIndexRam :=
  build_from_iterator [(1, vector [(0, 0%Z)]); (5, vector [(0, 0%Z)])]%N.

Example zero_scores_follow_batches :
  @example_search merge_order zero_index (vector [(0, 1%Z)]%N) 1 = [scored 5 0] /\
  @example_search merge_order zero_index (vector [(0, 1%Z)]%N) 10 = [].
Proof. split; vm_compute; reflexivity. Qed.

(** The widest batch the settings accept has a length of zero: the scores of
    a batch over all identifiers are written out of bounds. *)
Definition wide_index : InvertedIndexRam :=
  build_from_iterator [(0, vector [(0, 1%Z)]); (U32_MAX, vector [(0, 1%Z)])]%N.

Definition wide_context : option (SearchContext PostingListIterator) :=
  match SearchContext_new (vector [(0, 1%Z)]%N) 1 (ram_get wide_index) with
  | Returned (Ok c) => Some c
  | _ => None
  end.

Lemma set_widest_batch (c : SearchContext PostingListIterator) :
  set_batch_size c (N.to_nat U32_MAX) =
    Some (configure c (use_pruning c) (use_block_pruning c) (block_prune_failure_limit c) U32_MAX
      (telemetry_of c)).
Proof.
  unfold set_batch_size. rewrite N2Nat.id.
  assert (E : (N.to_nat U32_MAX =? 0) = false).
  { apply Nat.eqb_neq. intros E%(f_equal N.of_nat). by rewrite N2Nat.id in E. }
  rewrite E. done.
Qed.

Example widest_batch_out_of_bounds :
  exists c c', wide_context = Some c /\ set_batch_size c (N.to_nat U32_MAX) = Some c' /\
    @search _ _ merge_order (fun _ => false) (fun _ => true) c' = Panicked.
Proof.
  assert (exists c, wide_context = Some c /\
    @search _ _ merge_order (fun _ => false) (fun _ => true)
      (configure c (use_pruning c) (use_block_pruning c) (block_prune_failure_limit c) U32_MAX
        (telemetry_of c)) = Panicked) as (c & E1 & E2)
    by (eexists; split; [vm_compute; reflexivity | vm_compute; reflexivity]).
  eexists c, _. split; [exact E1 |]. split; [exact (set_widest_batch c) | exact E2].
Qed.
