(* ===== verification/SparseIndex.v ===== *)
(** * Sparse segments

    The sparse half of a segment's exact rankings:
    lib/segment/src/index/sparse_index/sparse_vector_index.rs
    ([exact_rank_state], [advance_exact_rank_state]),
    lib/segment/src/index/sparse_rank_state.rs (the dispatch over the
    concrete indices) and [open_exact_sparse_rank_state] of
    lib/segment/src/segment/read_view/search.rs.

    An index is its dimension tracker and its posting lists; the posting
    lists are any lawful ones, so the theorem covers the index in memory and
    the compressed ones alike.  It says that an opened sparse segment delivers
    the visible records with a score in the order of the shard. *)

From S2P Require Import Prelude Float Order PointId RrfScoring RrfState RrfSession RrfExact.
From S2P Require Import RankStream ShardStream DenseRank SegmentRank Postings SparseVectors BlockMax.

Open Scope result_scope.

(** ** Data *)

(** What the exact ranking uses of a sparse index, for some representation of
    posting lists. *)
Record SparseVectorIndex : Type := mkSparseVectorIndex {
  si_iter : Type;
  si_posting :: PostingListIter si_iter;
  si_get : N -> OperationResult si_iter;
  indices_tracker : IndicesTracker;
}.

Inductive VectorIndexEnum : Type :=
  | Plain
  | Hnsw
  | SparseRam (index : SparseVectorIndex)
  | SparseCompressedImmutableRamF32 (index : SparseVectorIndex)
  | SparseCompressedImmutableRamF16 (index : SparseVectorIndex)
  | SparseCompressedImmutableRamU8 (index : SparseVectorIndex)
  | SparseCompressedMmapF32 (index : SparseVectorIndex)
  | SparseCompressedMmapF16 (index : SparseVectorIndex)
  | SparseCompressedMmapU8 (index : SparseVectorIndex).

Record SparseRankState : Type := mkSparseRankState {
  srs_rank : SegmentRankState PostingBlockMaxState;
  posting_batch_size : nat;
}.

(** ** Operations *)

(** [SparseVectorIndex::exact_rank_state] *)
Definition exact_rank_state (index : SparseVectorIndex) (query : SparseVector) (batch_size : nat)
    : outcome PostingBlockMaxState :=
  if (batch_size =? 0) || negb (length (indices query) =? length (values query))
     || existsb (fun weight => negb (is_finite weight) || flt weight fzero) (values query) then
    Returned (Err (ValidationError
      "exact Sparse rank state requires a positive batch and finite non-negative impacts"))
  else
    match remap_vector (indices_tracker index) query with
    | None => Panicked
    | Some remapped_query =>
        PostingBlockMaxState_new (si_get index) (sv_entries remapped_query) (N.of_nat batch_size)
    end.

(** The errors of a ranking, as [advance_exact_rank_state] reports them. *)
Definition stream_error (error : ExactSparseStreamError) : OperationError :=
  match error with
  | SparseCancelled => Cancelled "exact Sparse rank state was cancelled"
  | ReaderFailure _ => InconsistentStorage "Sparse reader failed: {message}"
  | CertificateViolation _ _ _ =>
      InconsistentStorage
        "Sparse certificate violated for point {point}: score {score}, bound {upper_bound}"
  end.

(** [SparseVectorIndex::advance_exact_rank_state] *)
Definition advance_exact_rank_state (index : SparseVectorIndex) (stopped_at : nat -> bool)
    (state : PostingBlockMaxState) (max_results : nat)
    : outcome (list ScoredPointOffset) * PostingBlockMaxState :=
  match sparse_next_batch (si_get index) stopped_at state max_results with
  | (state, Done points) => (Returned (Ok points), state)
  | (state, Failed error) => (Returned (Err (stream_error error)), state)
  | (state, Crashed) => (Panicked, state)
  | (state, Exhausted) => (OutOfFuel, state)
  end.

(** The sparse index behind a variant. *)
Definition sparse_variant (index : VectorIndexEnum) : option SparseVectorIndex :=
  match index with
  | SparseRam index | SparseCompressedImmutableRamF32 index
  | SparseCompressedImmutableRamF16 index | SparseCompressedImmutableRamU8 index
  | SparseCompressedMmapF32 index | SparseCompressedMmapF16 index
  | SparseCompressedMmapU8 index => Some index
  | Plain | Hnsw => None
  end.

(** [ExactSparseIndexState::open] *)
Definition ExactSparseIndexState_open (index : VectorIndexEnum) (query : SparseVector)
    (batch_size : nat) : outcome PostingBlockMaxState :=
  match sparse_variant index with
  | Some index => exact_rank_state index query batch_size
  | None => Returned (Err WrongSparse)
  end.

(** [ExactSparseIndexState::next_batch] *)
Definition ExactSparseIndexState_next_batch (index : VectorIndexEnum) (stopped_at : nat -> bool)
    : OffsetStream PostingBlockMaxState :=
  fun state max_results =>
    match sparse_variant index with
    | Some index => advance_exact_rank_state index stopped_at state max_results
    | None => (Returned (Err WrongSparse), state)
    end.

(** [open_exact_sparse_rank_state]; [vector_index] is the lookup of the
    vector's data. *)
Definition open_exact_sparse_rank_state (vector_name : string)
    (vector_index : option VectorIndexEnum) (modifier_idf require_idf : bool)
    (query : SparseVector) (posting_batch_size : nat) : outcome SparseRankState :=
  if posting_batch_size =? 0 then
    Returned (Err (ValidationError "exact Sparse posting batch size must be positive"))
  else
    match vector_index with
    | None => Returned (Err (VectorNameNotExists vector_name))
    | Some vector_index =>
        if modifier_idf || require_idf then Returned (Err WrongSparse)
        else
          match ExactSparseIndexState_open vector_index query posting_batch_size with
          | Returned (Ok index) =>
              Returned (Ok {| srs_rank := opened index; posting_batch_size := posting_batch_size |})
          | Returned (Err e) => Returned (Err e)
          | Panicked => Panicked
          | OutOfFuel => OutOfFuel
          end
    end.

(** [advance_exact_sparse_rank_state] on the state of this file; [data] is
    what the lookups of the vector's data and of the filter give. *)
Definition advance_sparse_segment (data : OperationResult (SegmentView * VectorIndexEnum))
    (stopped_at : nat -> bool) (fuel : nat) (st : SparseRankState) (max_results : nat)
    : SparseRankState * outcome (list ScoredPoint) :=
  let index := match data with Ok (_, index) => index | Err _ => Plain end in
  let view := match data with Ok (view, _) => Ok view | Err e => Err e end in
  let '(rank, r) :=
    advance_exact_sparse_rank_state (H := ExactSparseIndexState_next_batch index stopped_at)
      view stopped_at (posting_batch_size st) fuel (srs_rank st) max_results in
  ({| srs_rank := rank; posting_batch_size := posting_batch_size st |}, r).

(** ** The ranking of offsets *)

Lemma StronglySorted_weaken {A} (R R' : A -> A -> Prop) (l : list A) :
  (forall x y, R x y -> R' x y) -> StronglySorted R l -> StronglySorted R' l.
Proof.
  intros HR. induction 1 as [|x l Hs IH Hx]; constructor; [done |].
  by eapply Forall_impl; [|apply HR].
Qed.

Section Index.
Context (index : VectorIndexEnum) (si : SparseVectorIndex) (Hsi : sparse_variant index = Some si).
Context {Hlaw : LawfulPosting (si_iter si)}.
Context (stopped_at : nat -> bool) (Hrunning : forall n, stopped_at n = false).

Definition sparse_rest (s : PostingBlockMaxState) (rest : list ScoredPointOffset) : Prop :=
  exists terms ids, Forall term_ok terms /\ sparse_holds (si_get si) terms s ids /\
    rest = dense_order (doc_score terms) ids.

#[local] Instance sparse_offsets : OffsetStream PostingBlockMaxState :=
  ExactSparseIndexState_next_batch index stopped_at.

#[local] Program Instance sparse_exact_offsets : ExactOffsets PostingBlockMaxState :=
  {| offsets_rest := sparse_rest |}.
Next Obligation.
  intros s rest n (terms & ids & Ht & Hd & ->) Hn.
  destruct (sparse_next_exact (si_get si) terms Ht stopped_at Hrunning s ids n Hd Hn)
    as (s' & ps & ids' & E & Hd' & Ho & _ & He).
  exists ps, (dense_order (doc_score terms) ids'), s'.
  unfold next_offsets, sparse_offsets, ExactSparseIndexState_next_batch, advance_exact_rank_state.
  rewrite Hsi, E. split_and!; [done | done | | by exists terms, ids'].
  intros ->. rewrite (He eq_refl) in Ho. simpl in Ho. by rewrite <- Ho.
Qed.

(** The query as the index scores it: the known dimensions under their
    offsets, ascending. *)
Definition segment_query (query : SparseVector) : list (N * float) :=
  sort_by dim_order (renamed (indices_tracker si) (sv_entries query)).

(** A query the index can rank: validated, finite non-negative weights, and
    readable posting lists with non-negative weights for its known
    dimensions. *)
Definition rankable (query : SparseVector) : Prop :=
  sv_ok query /\ Forall (impact binary32) (values query) /\
  forall i o, i ∈ indices query -> remap_index (indices_tracker si) i = Some o ->
    stored_ok (si_get si) o.

Lemma remapped_query query :
  tracker_ok (indices_tracker si) -> rankable query ->
  exists r, remap_vector (indices_tracker si) query = Some r /\ is_sorted (indices r) = true /\
    sv_entries r = segment_query query /\ (sv_entries r).*1 = indices r /\
    Forall (fun '(o, w) => stored_ok (si_get si) o /\ impact binary32 w) (sv_entries r).
Proof.
  intros Ht (Hv & Hw & Hq).
  destruct (remap_vector_spec _ query Ht Hv) as (r & E & Hs & [Hl Hn] & Hp).
  pose proof (sv_entries_indices r Hl) as Ei.
  exists r. split_and!; try done.
  - unfold segment_query. apply (sorted_unique dim_order).
    + intros [i x] [j y] Hx Hy Eq. apply (NoDup_fmap_eq fst (sv_entries r)); [by rewrite Ei | done | done |].
      by apply N.compare_eq in Eq.
    + eapply StronglySorted_weaken; [|by apply sv_entries_sorted].
      intros [i x] [j y] Hlt. unfold by_record in Hlt. simpl in Hlt.
      unfold cmp_le, dim_order. simpl. rewrite N.compare_gt_iff. lia.
    + apply sort_by_sorted, _.
    + by rewrite sort_by_perm.
  - rewrite Hp. apply Forall_forall. intros [o w] ([i x] & Hin & Hr)%list_elem_of_omap.
    simpl in Hr. destruct (remap_index _ i) as [o'|] eqn:Eo; simplify_eq/=. split.
    + apply (Hq i o); [|done]. rewrite <- (sv_entries_indices query) by apply Hv.
      exact (list_elem_of_fmap_2 fst _ _ Hin).
    + rewrite Forall_forall in Hw. apply Hw. by apply elem_of_zip_r in Hin.
Qed.

Lemma impact_accepted w : impact binary32 w -> negb (is_finite w) || flt w fzero = false.
Proof.
  intros [Ww Hw]. destruct w as [| |sg m]; try done. simpl. unfold flt, fcompare, fzero.
  change (signed false 0) with 0%Z. simpl in Ww.
  destruct (Z.compare_spec (signed sg m) 0) as [E|E|E]; try done.
  exfalso. destruct sg; simpl in E; [rewrite Hw in E by done |]; lia.
Qed.

Lemma open_sparse_exact query batch_size docs :
  tracker_ok (indices_tracker si) -> rankable query -> 1 <= batch_size ->
  (N.of_nat batch_size <= U32_MAX)%N -> NoDup docs ->
  (forall d, d ∈ docs <-> feq (query_score (si_get si) (segment_query query) d) fzero = false) ->
  exists s, ExactSparseIndexState_open index query batch_size = Returned (Ok s) /\
    sparse_rest s (dense_order (query_score (si_get si) (segment_query query)) docs).
Proof.
  intros Ht Hq H1 H2 Hn Hdocs. unfold ExactSparseIndexState_open, exact_rank_state. rewrite Hsi.
  destruct (remapped_query query Ht Hq) as (r & -> & Hs & Er & Ei & Hst).
  destruct Hq as ([Hl _] & Hw & _).
  rewrite (proj2 (Nat.eqb_neq batch_size 0)), Hl, Nat.eqb_refl by lia. cbn [orb negb].
  assert (existsb (fun w => negb (is_finite w) || flt w fzero) (values query) = false) as ->.
  { apply not_true_iff_false. intros (w & Hin%list_elem_of_In & E)%existsb_exists.
    rewrite Forall_forall in Hw. by rewrite (impact_accepted w (Hw w Hin)) in E. }
  destruct (state_new_holds (si_get si) (sv_entries r) (N.of_nat batch_size))
    as (terms & s & ids & Hterms & Hsc & E & Hd & Hi); [by rewrite Ei | lia | done |].
  exists s. split; [done |]. exists terms, ids. split_and!; [done .. |]. rewrite <- Er.
  rewrite (dense_order_ext _ (doc_score terms)) by done.
  apply dense_order_perm; [done |]. apply NoDup_Permutation; [done | apply Hd |].
  intros d. rewrite Hdocs, Hi, <- Er. unfold nonzero. by rewrite Hsc.
Qed.
(** *** The points of the segment *)

Context (view : SegmentView) (fuel : nat).

(** The visible records among [docs] with their scores under the query. *)
Definition sparse_points (query : SparseVector) (docs : list N) : list ScoredPoint :=
  segment_points view
    (scored_offset (query_score (si_get si) (segment_query query)) <$>
       filter (fun d => visible view d = true) docs).

(** [st] still delivers exactly [total]. *)
Definition sparse_delivers (st : SparseRankState) (total : list ScoredPoint) : Prop :=
  segment_delivers view (visible view) fuel (srs_rank st) total /\ posting_batch_size st <> 0.

Lemma sparse_delivers_step st total n :
  n <> 0 -> sparse_delivers st total ->
  exists st', advance_sparse_segment (Ok (view, index)) stopped_at fuel st n =
      (st', Returned (Ok (take n total))) /\ sparse_delivers st' (drop n total).
Proof.
  intros Hn [Hd Hp]. unfold advance_sparse_segment.
  destruct (sparse_segment_step view stopped_at (posting_batch_size st) fuel (srs_rank st) total n
    Hrunning Hp Hn Hd) as (st' & E & Hd').
  unfold sparse_offsets in E. rewrite E. by eexists.
Qed.

(** The records a query ranks, as a segment can deliver them. *)
Record deliverable (query : SparseVector) (docs : list N) : Prop := {
  dl_nodup : NoDup docs;
  dl_scored : forall d,
    d ∈ docs <-> feq (query_score (si_get si) (segment_query query) d) fzero = false;
  dl_finite : Forall (fun d => is_finite (query_score (si_get si) (segment_query query) d) = true)
    (filter (fun d => visible view d = true) docs);
  dl_tracked : tracked view (filter (fun d => visible view d = true) docs);
  dl_fuel : length docs < fuel;
}.

Lemma opened_sparse query docs s :
  deliverable query docs ->
  sparse_rest s (dense_order (query_score (si_get si) (segment_query query)) docs) ->
  segment_delivers view (visible view) fuel (opened s)
    (sort_by shard_score_order (sparse_points query docs)).
Proof.
  intros [Hn _ Hf Ht Hlen] Hr. eapply opened_exact; [exact Hr | ..].
  - unfold dense_order. by rewrite (Permutation_length (sort_by_perm _ _)), length_fmap.
  - apply sort_by_sorted, _.
  - unfold dense_order. rewrite sort_by_perm. clear.
    induction docs as [|d docs IH]; [done |]. rewrite fmap_cons, !filter_cons.
    simpl. case_decide; csimpl; by rewrite IH.
  - by apply Forall_fmap.
  - rewrite <- list_fmap_compose.
    change (idx ∘ scored_offset _) with (@id N). by rewrite list_fmap_id.
Qed.

Lemma open_sparse_delivers vector_name query batch_size docs :
  tracker_ok (indices_tracker si) -> rankable query -> 1 <= batch_size ->
  (N.of_nat batch_size <= U32_MAX)%N -> deliverable query docs ->
  exists st,
    open_exact_sparse_rank_state vector_name (Some index) false false query batch_size =
      Returned (Ok st) /\
    sparse_delivers st (sort_by shard_score_order (sparse_points query docs)).
Proof.
  intros Ht Hq H1 H2 Hdl.
  destruct (open_sparse_exact query batch_size docs Ht Hq H1 H2 (dl_nodup _ _ Hdl) (dl_scored _ _ Hdl))
    as (s & E & Hr).
  unfold open_exact_sparse_rank_state. rewrite (proj2 (Nat.eqb_neq batch_size 0)), E by lia.
  eexists. split; [done |]. split; [by apply opened_sparse | simpl; lia].
Qed.

End Index.

(** ** Errors *)

(** [C37] Opening a sparse ranking fails closed: a zero batch and a query
    with arrays of different lengths or a weight that is not finite or
    negative are refused as invalid, an unknown vector by name, and a vector
    with inverse document frequencies or an index that is not sparse with
    [WrongSparse], on which the shard falls back to the exhaustive source;
    none of these panics. *)
Theorem open_sparse_errors vector_name vector_index modifier_idf require_idf query batch_size :
  let opened := open_exact_sparse_rank_state vector_name vector_index modifier_idf require_idf
    query batch_size in
  (batch_size = 0 -> exists m, opened = Returned (Err (ValidationError m))) /\
  (batch_size <> 0 -> vector_index = None -> opened = Returned (Err (VectorNameNotExists vector_name))) /\
  (forall index, batch_size <> 0 -> vector_index = Some index ->
     modifier_idf || require_idf = true \/ sparse_variant index = None ->
     opened = Returned (Err WrongSparse)) /\
  (forall index si w, batch_size <> 0 -> vector_index = Some index ->
     modifier_idf || require_idf = false -> sparse_variant index = Some si ->
     length (indices query) <> length (values query) \/
       w ∈ values query /\ (is_finite w = false \/ flt w fzero = true) ->
     exists m, opened = Returned (Err (ValidationError m))).
Proof.
  simpl. unfold open_exact_sparse_rank_state, ExactSparseIndexState_open.
  split_and!.
  - intros ->. by eexists.
  - intros Hb ->. by rewrite (proj2 (Nat.eqb_neq _ _) Hb).
  - intros index Hb ->. rewrite (proj2 (Nat.eqb_neq _ _) Hb).
    intros [->|Hv]; [done |]. by destruct (_ || _); [|rewrite Hv].
  - intros index si w Hb -> -> -> Hbad. unfold exact_rank_state.
    rewrite (proj2 (Nat.eqb_neq _ _) Hb).
    match goal with |- context[if ?b then Returned (Err (ValidationError _)) else _] =>
      assert (b = true) as -> end; [|by eexists].
    destruct Hbad as [Hl|[Hin Hw]]; [by rewrite (proj2 (Nat.eqb_neq _ _) Hl)|].
    apply orb_true_iff. right. apply existsb_exists. exists w.
    split; [by apply list_elem_of_In |]. by destruct Hw as [->| ->]; rewrite ?orb_true_r.
Qed.

(** ** Examples *)

(** Dimensions 4 and 2 have the offsets 1 and 2, dimension 77 is unknown. *)
Definition example_sparse_index : SparseVectorIndex :=
  {| si_get := example_index; indices_tracker := register_indices no_dimensions vector_b |}.

Definition example_sparse_query : SparseVector := vector [(4, 2%Z); (2, 1%Z); (77, 5%Z)]%N.

(** Ten offsets numbered against their identities, the second deleted. *)
Definition ten_points : SegmentView :=
  {| external_id i := if decide (i < 10)%N then Some (NumId (20 - i)) else None;
     internal_version i := if decide (i < 10)%N then Some 7%N else None;
     deleted_vector _ := None;
     deleted_point i := Some (i =? 2)%N;
     deferred_from := None;
     filter_check := None |}.

Lemma example_segment_query : segment_query example_sparse_index example_sparse_query = example_query.
Proof. vm_compute. reflexivity. Qed.

Lemma example_rankable : rankable example_sparse_index example_sparse_query.
Proof.
  split_and!.
  - apply vector_ok. reflexivity.
  - repeat (apply Forall_cons; split; [apply small_impact; vm_compute; reflexivity |]).
    apply Forall_nil. exact Logic.I.
  - intros i o Hi Ho. pose proof example_index_ok as Hok. apply Forall_cons in Hok as [[H1 _] Hok].
    apply Forall_cons in Hok as [[H2 _] _].
    assert (Ei : i = 4%N \/ i = 2%N \/ i = 77%N).
    { rewrite list_elem_of_In in Hi. simpl in Hi. intuition congruence. }
    destruct Ei as [->|[->| ->]]; vm_compute in Ho; [injection Ho as <-; done .. | discriminate Ho].
Qed.

Lemma example_deliverable fuel :
  4 < fuel -> deliverable example_sparse_index ten_points fuel example_sparse_query [1; 2; 3; 9]%N.
Proof.
  assert (E : filter (fun d => visible ten_points d = true) [1; 2; 3; 9]%N = [1; 3; 9]%N)
    by (vm_compute; reflexivity).
  intros Hfuel. split; rewrite ?E, ?example_segment_query.
  - apply (bool_decide_unpack _). vm_compute. exact Logic.I.
  - intros d. apply example_docs.
  - apply (bool_decide_unpack _). vm_compute. exact Logic.I.
  - split.
    + repeat (constructor; [by split; eexists |]). constructor.
    + intros i j. rewrite !list_elem_of_In. simpl.
      intros [<-|[<-|[<-|[]]]] [<-|[<-|[<-|[]]]]; vm_compute; congruence.
    + apply (bool_decide_unpack _). vm_compute. exact Logic.I.
  - exact Hfuel.
Qed.

