(* ===== verification/ShardRank.v ===== *)
(** * Exact channels of one shard

    The channel plans of lib/shard/src/dense_rank_plan.rs and
    sparse_rank_plan.rs, and [ExactShardStream::open] of
    exact_shard_stream.rs.  A plan opens every frozen segment of the shard:
    an original segment through its exact rank state, a proxied one (or one
    whose sparse index cannot rank exactly) through the exhaustive fallback.
    The shard then merges what it opened.

    What a segment's readers return for the request is a parameter of the
    model, in the records [DenseSegment] and [SparseSegment]; the theorems say
    that a shard of such segments streams its points exactly, whatever mixture
    of plans and fallbacks it was opened with. *)

From S2P Require Import Prelude Float Order PointId RrfScoring RrfState RrfSession RrfExact.
From S2P Require Import RankStream ShardStream DenseRank SegmentRank Postings SparseVectors BlockMax.
From S2P Require Import SparseIndex.

Open Scope result_scope.

(** ** Data *)

(** [search_batch] with exact parameters, over the points that are available. *)
Abbreviation search_results := (OperationResult (list (list ScoredPoint))).

(** An original segment, or a proxy with what its exhaustive search returns. *)
Inductive LockedSegment (A : Type) : Type :=
  | Original (segment : A)
  | Proxy (search : search_results) (available : nat) (idf : bool) (filled : OperationResult unit).

Arguments Original {A} segment.
Arguments Proxy {A} search available idf filled.

(** What a dense request reads from a segment, and what the loads of the
    cancellation flag see when it is opened. *)
Record DenseSegment : Type := mkDenseSegment {
  dn_filled : OperationResult unit;
  dn_view : SegmentView;
  dn_total : OperationResult nat;
  dn_scorer : OperationResult (list N -> list float);
  dn_distance : Distance;
  dn_datatype : VectorStorageDatatype;
  dn_quantized : option QuantizedView;
  dn_reconstruction : N -> ScalarReconstructionStats;
  dn_query_stats : option ScalarReconstructionStats;
  dn_approximate : OperationResult (list N -> list float);
  dn_per_vector : list N -> nat -> OperationResult DenseRankState;
  dn_stopped : bool;
  dn_scalar_stopped_at : nat -> bool;
  dn_available : nat;
}.

(** What a sparse request reads from a segment, and what the loads of the
    cancellation flag see. *)
Record SparseSegment : Type := mkSparseSegment {
  sg_filled : OperationResult unit;
  sg_view : SegmentView;
  sg_filter : OperationResult unit;
  sg_index : option VectorIndexEnum;
  sg_idf : bool;
  sg_search : search_results;
  sg_stopped_at : nat -> bool;
  sg_available : nat;
}.

Record DenseRankPlan : Type := mkDenseRankPlan {
  dp_query : list float;
  dp_policy : DenseExecutionPolicy;
}.

(** [requires_idf] is what the query context of the plan answers to
    [is_require_idf]. *)
Record SparseRankPlan : Type := mkSparseRankPlan {
  sp_name : string;
  sp_query : SparseVector;
  sp_posting_batch_size : nat;
  requires_idf : bool;
}.

(** What the closure of a source captures: a segment with its rank state, or
    the sorted result of the fallback. *)
Inductive SegmentCursor (A : Type) : Type :=
  | OnDemand (cursor : A)
  | Sorted (points : Materialized).

Arguments OnDemand {A} cursor.
Arguments Sorted {A} points.

Record DenseCursor : Type := mkDenseCursor {
  dc_segment : DenseSegment;
  dc_state : SegmentRankState DenseRankState;
}.

Record SparseCursor : Type := mkSparseCursor {
  sc_segment : SparseSegment;
  sc_state : SparseRankState;
}.

(** ** Operations *)

#[export] Instance cursor_pull {A} `{SegmentPull A} : SegmentPull (SegmentCursor A) :=
  fun cursor limit =>
    match cursor with
    | OnDemand c => let '(r, c) := pull_segment c limit in (r, OnDemand c)
    | Sorted m => let '(r, m) := pull_segment m limit in (r, Sorted m)
    end.

(** The fallback as a source of the shard. *)
Definition fallback_source {A} (search : search_results)
    : OperationResult (SegmentScoreSource (SegmentCursor A)) :=
  let? src := materialized_exact_source search in
  Ok (on_demand (Sorted (ss_pull src)) ExhaustiveFallback).

(** [SegmentRankPlan] *)
Class SegmentRankPlan (P L S : Type) := {
  open_segment : P -> L -> outcome (SegmentScoreSource S);
  available_point_count_without_deferred : L -> nat;
}.

Section Open.
Context {P L S : Type} `{SegmentRankPlan P L S} `{SegmentPull S}.

(** [collect::<OperationResult<Vec<_>>>()] *)
Fixpoint open_segments (plan : P) (segments : list L) : outcome (list (SegmentScoreSource S)) :=
  match segments with
  | [] => Returned (Ok [])
  | segment :: segments =>
      match open_segment plan segment with
      | Returned (Ok source) =>
          match open_segments plan segments with
          | Returned (Ok sources) => Returned (Ok (source :: sources))
          | r => r
          end
      | Returned (Err e) => Returned (Err e)
      | Panicked => Panicked
      | OutOfFuel => OutOfFuel
      end
  end.

(** [ExactShardStream::open] *)
Definition ExactShardStream_open (fuel : nat) (segments : list L) (plan : P) (batch_size : nat)
    : outcome (ExactShardMergeState S) :=
  let visible_point_copies := sum_list (available_point_count_without_deferred <$> segments) in
  match open_segments plan segments with
  | Returned (Ok sources) => shard_open fuel sources visible_point_copies batch_size
  | Returned (Err e) => Returned (Err e)
  | Panicked => Panicked
  | OutOfFuel => OutOfFuel
  end.
End Open.

(** ** Exact sources *)

#[export] Program Instance cursor_exact {A} `{ExactSegment A} : ExactSegment (SegmentCursor A) :=
  {| segment_rest cursor rest :=
       match cursor with
       | OnDemand c => segment_rest c rest
       | Sorted m => segment_rest m rest
       end |}.
Next Obligation.
  intros A ? ? [c|m] rest n Hr Hn.
  - destruct (segment_rest_pull c rest n Hr Hn) as (ps & rest' & e & c' & E & HR).
    exists ps, rest', e, (OnDemand c'). unfold pull_segment, cursor_pull. rewrite E. done.
  - destruct (segment_rest_pull m rest n Hr Hn) as (ps & rest' & e & m' & E & HR).
    exists ps, rest', e, (Sorted m'). unfold pull_segment, cursor_pull. rewrite E. done.
Qed.

Lemma on_demand_rest {S} `{ExactSegment S} (pull : S) mode line :
  segment_rest pull line -> segment_source_rest (on_demand pull mode) line.
Proof. intros Hr. split; [|done]. by exists line. Qed.

(** The points one segment shows: distinct identities and finite scores. *)
Definition proper (points : list ScoredPoint) : Prop :=
  NoDup (sp_id <$> points) /\ Forall (fun p => is_finite (sp_score p) = true) points.

(** An exhaustive search whose answer is [points]. *)
Definition search_finds (search : search_results) (points : list ScoredPoint) : Prop :=
  search = Ok [points] /\ proper points /\ (N.of_nat (length points) <= USIZE_MAX)%N.

Lemma materialized_sort points :
  NoDup (sp_id <$> points) ->
  sort_by materialized_order points = sort_by shard_score_order points.
Proof.
  intros Hn. apply (sorted_unique shard_score_order).
  - intros x y Hx Hy E%shard_score_order_eq_id. rewrite sort_by_perm in Hx, Hy.
    by apply (NoDup_fmap_eq sp_id points).
  - eapply StronglySorted_weaken; [apply materialized_order_le | apply sort_by_sorted, _].
  - apply sort_by_sorted, _.
  - by rewrite !sort_by_perm.
Qed.

Lemma fallback_exact {A} `{ExactSegment A} search points :
  search_finds search points ->
  exists src, fallback_source (A := A) search = Ok src /\
    segment_source_rest src (sort_by shard_score_order points).
Proof.
  intros (-> & [Hn _] & Hmax). unfold fallback_source. simpl. eexists. split; [done |].
  apply on_demand_rest. rewrite <- materialized_sort by done. simpl.
  rewrite (Permutation_length (sort_by_perm materialized_order points)). split_and!; [done | lia | done].
Qed.

(** Copies of one point agree in score and version. *)
Definition agreeing (points : list (list ScoredPoint)) : Prop :=
  forall p q, p ∈ concat points -> q ∈ concat points -> sp_id p = sp_id q -> p = q.

Lemma elem_of_concat_sorted p (points : list (list ScoredPoint)) :
  p ∈ concat (sort_by shard_score_order <$> points) <-> p ∈ concat points.
Proof.
  induction points as [|l points IH]; [done |]. csimpl.
  by rewrite !elem_of_app, IH, sort_by_perm.
Qed.

Lemma agreeing_consistent points :
  Forall proper points -> agreeing points -> consistent (sort_by shard_score_order <$> points).
Proof.
  intros Hp Ha. split.
  - apply Forall_fmap. eapply Forall_impl; [exact Hp |]. intros l _. apply sort_by_sorted, _.
  - apply Forall_forall. intros p. rewrite elem_of_concat_sorted. intros (i & l & Hl & Hin)%elem_of_concat.
    rewrite Forall_lookup in Hp. destruct (Hp i l Hl) as [_ Hf]. rewrite Forall_forall in Hf. by apply Hf.
  - apply Forall_fmap. eapply Forall_impl; [exact Hp |]. intros l [Hn _]. simpl.
    by rewrite sort_by_perm.
  - intros p q. rewrite !elem_of_concat_sorted. apply Ha.
Qed.

Lemma agreeing_ids points : agreeing points -> NoDup (sp_id <$> remove_dups (concat points)).
Proof.
  intros Ha. apply NoDup_fmap_2_strong; [|apply NoDup_remove_dups].
  intros p q. rewrite !elem_of_remove_dups. apply Ha.
Qed.

(** The shard order does not depend on how the segments list their points. *)
Lemma shard_merged_sorted points :
  agreeing points -> shard_merged (sort_by shard_score_order <$> points) = shard_merged points.
Proof.
  intros Ha. unfold shard_merged. symmetry. apply sort_shard_perm; [|by apply agreeing_ids].
  apply NoDup_Permutation; [apply NoDup_remove_dups .. |].
  intros p. by rewrite !elem_of_remove_dups, elem_of_concat_sorted.
Qed.

Lemma segment_points_proper view l :
  tracked view (idx <$> l) -> Forall (fun p => is_finite (score p) = true) l ->
  proper (segment_points view l).
Proof.
  intros Ht Hf. pose proof (segment_points_denotes view l Ht) as HR.
  split; [by apply (denotes_ids view l) |].
  clear Ht. induction HR as [|p q l R (_ & _ & Hq) HR IH]; [constructor |].
  apply Forall_cons in Hf as [Hp Hf]. constructor; [by rewrite Hq | auto].
Qed.

Section OpenExact.
Context {P L S : Type} `{SegmentRankPlan P L S} `{ExactSegment S}.

(** The segment opens, and its source delivers [line]. *)
Definition opens_to (plan : P) (segment : L) (line : list ScoredPoint) : Prop :=
  exists src, open_segment plan segment = Returned (Ok src) /\ segment_source_rest src line.

Lemma open_segments_exact plan segments lines :
  Forall2 (opens_to plan) segments lines ->
  exists srcs, open_segments plan segments = Returned (Ok srcs) /\
    Forall2 segment_source_rest srcs lines.
Proof.
  induction 1 as [|segment line segments lines (src & E & Hr) F2 (srcs & Es & IH)]; simpl.
  - exists []. by split.
  - rewrite E, Es. exists (src :: srcs). by split; [|constructor].
Qed.

(** A plan that opens every segment to the points it [shows]. *)
Context (shows : L -> list ScoredPoint -> Prop) (plan : P).
Hypothesis (Hproper : forall segment points, shows segment points -> proper points).
Hypothesis (Hopens : forall segment points, shows segment points ->
  opens_to plan segment (sort_by shard_score_order points)).

Lemma shard_channel_opens fuel segments points batch :
  2 <= fuel -> 1 <= batch -> Forall2 shows segments points -> agreeing points ->
  exists st, ExactShardStream_open fuel segments plan batch = Returned (Ok st) /\
    shard_holds st ∅ (sort_by shard_score_order <$> points).
Proof.
  intros Hf Hb F2 Ha. unfold ExactShardStream_open.
  destruct (open_segments_exact plan segments (sort_by shard_score_order <$> points))
    as (srcs & -> & Hr).
  { apply Forall2_fmap_r. eapply Forall2_impl; [exact F2 |]. apply Hopens. }
  apply shard_open_exact; [done | done | | done]. apply agreeing_consistent; [|done].
  clear -F2 Hproper. induction F2; constructor; eauto.
Qed.

Lemma shard_channel_exact fuel stopped_at segments points batch sizes :
  2 <= fuel -> 1 <= batch -> Forall2 shows segments points -> agreeing points ->
  (forall k, stopped_at k = false) -> Forall (fun n => n <> 0) sizes ->
  exists st, ExactShardStream_open fuel segments plan batch = Returned (Ok st) /\
    shard_pull_all fuel stopped_at st sizes =
      (fun b => Returned (Ok b)) <$> cut (shard_merged points) sizes.
Proof.
  intros Hf Hb F2 Ha Hs Hz.
  destruct (shard_channel_opens fuel segments points batch Hf Hb F2 Ha) as (st & E & Hd).
  exists st. split; [done |]. rewrite <- shard_merged_sorted by done. by apply shard_pull_all_exact.
Qed.
End OpenExact.

Section Plans.

(** The bound of the loops of a segment. *)
Context (fuel : nat).

(** *** Dense *)

#[local] Instance dense_cursor_pull : SegmentPull DenseCursor := fun c limit =>
  let '(st, r) :=
    advance_exact_dense_segment_state
      (H := advance_exact_dense_rank_state (dn_scorer (dc_segment c)))
      (dn_view (dc_segment c)) fuel (dc_state c) limit in
  (segment_reply r, {| dc_segment := dc_segment c; dc_state := st |}).

Definition open_dense_original (plan : DenseRankPlan) (segment : DenseSegment)
    : OperationResult (SegmentRankState DenseRankState) :=
  let? _ := dn_filled segment in
  open_exact_dense_segment_state (dn_reconstruction segment) (dn_query_stats segment)
    (dn_approximate segment) (dn_scalar_stopped_at segment) (dn_per_vector segment)
    (let? total := dn_total segment in Ok (dn_view segment, total))
    (dn_distance segment) (dn_datatype segment) (dn_quantized segment) (dp_query plan)
    (dp_policy plan) (dn_stopped segment).

#[local] Instance dense_rank_plan :
    SegmentRankPlan DenseRankPlan (LockedSegment DenseSegment) (SegmentCursor DenseCursor) :=
  {| open_segment plan segment := Returned
       match segment with
       | Original segment =>
           let? state := open_dense_original plan segment in
           Ok (on_demand (OnDemand {| dc_segment := segment; dc_state := state |}) Exact)
       | Proxy search _ _ _ => fallback_source search
       end;
     available_point_count_without_deferred segment :=
       match segment with
       | Original segment => dn_available segment
       | Proxy _ available _ _ => available
       end |}.

(** *** Sparse *)

#[local] Instance sparse_cursor_pull : SegmentPull SparseCursor := fun c limit =>
  let segment := sc_segment c in
  let data :=
    match sg_index segment with
    | None => Err (VectorNameNotExists "{vector_name}")
    | Some index => let? _ := sg_filter segment in Ok (sg_view segment, index)
    end in
  let '(st, r) := advance_sparse_segment data (sg_stopped_at segment) fuel (sc_state c) limit in
  (segment_reply r, {| sc_segment := segment; sc_state := st |}).

#[local] Instance sparse_rank_plan :
    SegmentRankPlan SparseRankPlan (LockedSegment SparseSegment) (SegmentCursor SparseCursor) :=
  {| open_segment plan segment :=
       match segment with
       | Original segment =>
           match open_exact_sparse_rank_state (sp_name plan) (sg_index segment) (sg_idf segment)
                   (requires_idf plan) (sp_query plan) (sp_posting_batch_size plan) with
           | Returned (Ok state) =>
               Returned (Ok
                 (on_demand (OnDemand {| sc_segment := segment; sc_state := state |}) Exact))
           | Returned (Err WrongSparse) => Returned (fallback_source (sg_search segment))
           | Returned (Err error) => Returned (Err error)
           | Panicked => Panicked
           | OutOfFuel => OutOfFuel
           end
       | Proxy search _ _ _ => Returned (fallback_source search)
       end;
     available_point_count_without_deferred segment :=
       match segment with
       | Original segment => sg_available segment
       | Proxy _ available _ _ => available
       end |}.

Definition segment_idf (segment : LockedSegment SparseSegment) : bool :=
  match segment with Original segment => sg_idf segment | Proxy _ _ idf _ => idf end.

Definition segment_filled (segment : LockedSegment SparseSegment) : OperationResult unit :=
  match segment with Original segment => sg_filled segment | Proxy _ _ _ filled => filled end.

(** [build_query_context], as far as the plan uses it: whether inverse
    document frequencies are required. *)
Definition build_query_context (segments : list (LockedSegment SparseSegment))
    : OperationResult bool :=
  let requires_idf := existsb segment_idf segments in
  let fix fill segments :=
    match segments with
    | [] => Ok requires_idf
    | segment :: segments => let? _ := segment_filled segment in fill segments
    end in
  fill segments.

(** [SparseRankPlan::new] *)
Definition SparseRankPlan_new (segments : list (LockedSegment SparseSegment))
    (vector_name : string) (query : SparseVector) (posting_batch_size : nat)
    : OperationResult SparseRankPlan :=
  if posting_batch_size =? 0 then
    Err (ValidationError "exact Sparse posting batch size must be positive")
  else
    let? requires_idf := build_query_context segments in
    Ok {| sp_name := vector_name; sp_query := query; sp_posting_batch_size := posting_batch_size;
          requires_idf := requires_idf |}.

(** ** Dense shards *)

#[local] Program Instance dense_cursor_exact : ExactSegment DenseCursor :=
  {| segment_rest c rest :=
       exists scorer exact_score (Hs : forall ids, scorer ids = exact_score <$> ids),
         dn_scorer (dc_segment c) = Ok scorer /\
         segment_delivers (H0 := dense_exact_offsets scorer exact_score Hs)
           (dn_view (dc_segment c)) (fun _ => true) fuel (dc_state c) rest |}.
Next Obligation.
  intros c rest n (scorer & exact_score & Hs & Esc & Hd) Hn.
  destruct (dense_segment_step (H0 := dense_exact_offsets scorer exact_score Hs) _ _ _ _ n
    ltac:(lia) Hd) as (st' & E & Hd').
  exists (take n rest), (drop n rest), (bool_decide (take n rest = [])). eexists. split_and!.
  - unfold pull_segment, dense_cursor_pull. rewrite Esc.
    unfold dense_offsets in E. rewrite E. done.
  - by rewrite take_drop.
  - intros ->. done.
  - case_bool_decide as Et.
    + destruct rest; [by rewrite drop_nil | by destruct n; [lia |]].
    + by exists scorer, exact_score, Hs.
Qed.

(** What the readers of a dense segment owe: the exact scorer scores every
    offset by itself, the intervals of the certificates contain the exact
    scores, and the visible points are tracked with finite scores. *)
Record dense_readers (plan : DenseRankPlan) (segment : DenseSegment) (exact_score : N -> float)
    (total : nat) : Prop := {
  dr_total : dn_total segment = Ok total;
  dr_opens : exists st, open_dense_original plan segment = Ok st;
  dr_scorer : exists scorer, dn_scorer segment = Ok scorer /\
    forall ids, scorer ids = exact_score <$> ids;
  dr_scalar : scalar_sound exact_score (dn_reconstruction segment) (dn_query_stats segment)
    (dn_approximate segment) (length (dp_query plan)) (eligible_points (dn_view segment) total);
  dr_per_vector : per_vector_sound exact_score (dn_per_vector segment);
  dr_finite : Forall (fun i => is_finite (exact_score i) = true)
    (eligible_points (dn_view segment) total);
  dr_tracked : tracked (dn_view segment) (eligible_points (dn_view segment) total);
  dr_fuel : length (eligible_points (dn_view segment) total) < fuel;
}.

(** The points a segment shows to a dense request. *)
Inductive dense_shows (plan : DenseRankPlan) :
    LockedSegment DenseSegment -> list ScoredPoint -> Prop :=
  | dense_shows_original segment exact_score total :
      dense_readers plan segment exact_score total ->
      dense_shows plan (Original segment) (dense_points exact_score (dn_view segment) total)
  | dense_shows_proxy search available idf filled points :
      search_finds search points -> dense_shows plan (Proxy search available idf filled) points.

Lemma dense_opens plan segment points :
  dense_shows plan segment points ->
  opens_to plan segment (sort_by shard_score_order points).
Proof.
  intros [seg exact_score total [Ht [st Eo] (scorer & Es & Hs) Hsc Hpv Hf Htr Hlen]|
          search ? ? ? pts Hfound]; unfold opens_to; simpl.
  2:{ destruct (fallback_exact (A := DenseCursor) search pts Hfound) as (src & -> & ?). by exists src. }
  rewrite Eo. simpl. eexists. split; [done |]. apply on_demand_rest. simpl.
  exists scorer, exact_score, Hs. split; [done |].
  revert Eo. unfold open_dense_original, open_exact_dense_segment_state. rewrite Ht.
  destruct (dn_filled seg); [|done]. simpl.
  destruct (open_exact_dense_rank_state _ _ _ _ _ _ _ _ _ _ _ _) as [rank|] eqn:Er; [|done].
  simpl. intros [= <-].
  pose proof (open_dense_exact _ _ _ _ _ _ _ _ _ _ _ _ _ _ _ Er Hsc Hpv Hf) as Hr.
  by apply opened_dense.
Qed.

Lemma dense_shows_proper plan segment points : dense_shows plan segment points -> proper points.
Proof.
  intros [seg exact_score total Hr|? ? ? ? pts (_ & Hp & _)]; [|done].
  apply segment_points_proper; [|by apply Forall_fmap, Hr].
  rewrite <- list_fmap_compose. change (idx ∘ scored_offset exact_score) with (@id N).
  rewrite list_fmap_id. apply Hr.
Qed.

(** [C25] The dense channel of a shard is exact: over any mixture of
    original segments (whichever physical plan each selects) and proxied
    ones, the stream opens, and successive pulls cut one list into
    consecutive pieces: every point some segment shows, once, by descending
    exact score, ties by identity. *)
Theorem dense_shard_exact plan stopped_at segments points batch sizes :
  2 <= fuel -> 1 <= batch -> Forall2 (dense_shows plan) segments points -> agreeing points ->
  (forall k, stopped_at k = false) -> Forall (fun n => n <> 0) sizes ->
  exists st, ExactShardStream_open fuel segments plan batch = Returned (Ok st) /\
    shard_pull_all fuel stopped_at st sizes =
      (fun b => Returned (Ok b)) <$> cut (shard_merged points) sizes.
Proof.
  apply shard_channel_exact; [apply dense_shows_proper | apply dense_opens].
Qed.

(** ** Sparse shards *)

#[local] Program Instance sparse_cursor_exact : ExactSegment SparseCursor :=
  {| segment_rest c rest :=
       exists index si (Hsi : sparse_variant index = Some si) (Hlaw : LawfulPosting (si_iter si))
         (Hrun : forall n, sg_stopped_at (sc_segment c) n = false),
         sg_index (sc_segment c) = Some index /\ sg_filter (sc_segment c) = Ok tt /\
         sparse_delivers index si Hsi (sg_stopped_at (sc_segment c)) Hrun (sg_view (sc_segment c)) fuel (sc_state c) rest |}.
Next Obligation.
  intros c rest n (index & si & Hsi & Hlaw & Hrun & Ei & Ef & Hd) Hn.
  destruct (sparse_delivers_step index si Hsi _ Hrun _ _ _ _ n ltac:(lia) Hd)
    as (st' & E & Hd').
  exists (take n rest), (drop n rest), (bool_decide (take n rest = [])). eexists. split_and!.
  - unfold pull_segment, sparse_cursor_pull. rewrite Ei, Ef. simpl. rewrite E. done.
  - by rewrite take_drop.
  - intros ->. done.
  - case_bool_decide as Et.
    + destruct rest; [by rewrite drop_nil | by destruct n; [lia |]].
    + by exists index, si, Hsi, Hlaw, Hrun.
Qed.

(** The points a segment shows to a sparse request: the visible records with
    a score, or the answer of the fallback where the index cannot rank
    exactly. *)
Inductive sparse_shows (plan : SparseRankPlan) :
    LockedSegment SparseSegment -> list ScoredPoint -> Prop :=
  | sparse_shows_ranked segment index si (Hlaw : LawfulPosting (si_iter si)) docs :
      sg_index segment = Some index -> sparse_variant index = Some si -> sg_filter segment = Ok tt ->
      (forall n, sg_stopped_at segment n = false) ->
      sg_idf segment = false -> requires_idf plan = false ->
      tracker_ok (indices_tracker si) -> rankable si (sp_query plan) ->
      deliverable si (sg_view segment) fuel (sp_query plan) docs ->
      sparse_shows plan (Original segment) (sparse_points si (sg_view segment) (sp_query plan) docs)
  | sparse_shows_wrong segment index points :
      sg_index segment = Some index ->
      sg_idf segment || requires_idf plan = true \/ sparse_variant index = None ->
      search_finds (sg_search segment) points -> sparse_shows plan (Original segment) points
  | sparse_shows_proxy search available idf filled points :
      search_finds search points -> sparse_shows plan (Proxy search available idf filled) points.

Lemma sparse_opens plan segment points :
  1 <= sp_posting_batch_size plan -> (N.of_nat (sp_posting_batch_size plan) <= U32_MAX)%N ->
  sparse_shows plan segment points ->
  opens_to plan segment (sort_by shard_score_order points).
Proof.
  intros H1 H2 Hshow. unfold opens_to.
  destruct Hshow as [seg index si Hlaw docs Ei Hsi Ef Hrun E1 E2 Ht Hq Hdl|
    seg index pts Ei Hw Hfound|search ? ? ? pts Hfound]; simpl.
  - destruct (open_sparse_delivers index si Hsi (sg_stopped_at seg) Hrun (sg_view seg) fuel (sp_name plan)
      (sp_query plan) (sp_posting_batch_size plan) docs Ht Hq H1 H2 Hdl) as (st & E & Hd).
    rewrite Ei, E1, E2, E. eexists. split; [done |]. apply on_demand_rest.
    exists index, si, Hsi, Hlaw, Hrun. done.
  - destruct (fallback_exact (A := SparseCursor) _ pts Hfound) as (src & Ef & Hr).
    assert (open_exact_sparse_rank_state (sp_name plan) (sg_index seg) (sg_idf seg)
      (requires_idf plan) (sp_query plan) (sp_posting_batch_size plan) = Returned (Err WrongSparse)) as ->.
    { unfold open_exact_sparse_rank_state, ExactSparseIndexState_open. rewrite Ei.
      rewrite (proj2 (Nat.eqb_neq _ 0)) by lia. destruct Hw as [->|Hw]; [done |].
      by destruct (_ || _); [|rewrite Hw]. }
    exists src. by rewrite Ef.
  - destruct (fallback_exact (A := SparseCursor) _ pts Hfound) as (src & -> & Hr). by exists src.
Qed.

Lemma sparse_shows_proper plan segment points : sparse_shows plan segment points -> proper points.
Proof.
  intros [seg index si Hlaw docs _ _ _ _ _ _ _ _ Hdl|? ? pts _ _ (_ & Hp & _)|? ? ? ? pts (_ & Hp & _)];
    [|done|done].
  apply segment_points_proper; [|apply Forall_fmap, Hdl].
  rewrite <- list_fmap_compose. change (idx ∘ scored_offset _) with (@id N).
  rewrite list_fmap_id. apply Hdl.
Qed.

Lemma build_query_context_ok segments :
  Forall (fun segment => segment_filled segment = Ok tt) segments ->
  build_query_context segments = Ok (existsb segment_idf segments).
Proof.
  unfold build_query_context. generalize (existsb segment_idf segments) as b.
  intros b. induction 1 as [|segment segments E _ IH]; [done |]. by rewrite E.
Qed.

(** [C26] The sparse channel of a shard is exact: the plan is built, and over
    any mixture of segments with exact indices, segments that fall back to
    an exhaustive search (inverse document frequencies, indices that are not
    sparse) and proxied ones, the stream opens and successive pulls cut one
    list into consecutive pieces: every point some segment shows, once, by
    descending score, ties by identity. *)
Theorem sparse_shard_exact vector_name query posting_batch_size stopped_at segments points
    batch sizes :
  Forall (fun segment => segment_filled segment = Ok tt) segments ->
  1 <= posting_batch_size -> (N.of_nat posting_batch_size <= U32_MAX)%N ->
  2 <= fuel -> 1 <= batch ->
  Forall2 (sparse_shows {| sp_name := vector_name; sp_query := query;
    sp_posting_batch_size := posting_batch_size; requires_idf := existsb segment_idf segments |})
    segments points ->
  agreeing points -> (forall k, stopped_at k = false) -> Forall (fun n => n <> 0) sizes ->
  exists plan st,
    SparseRankPlan_new segments vector_name query posting_batch_size = Ok plan /\
    ExactShardStream_open fuel segments plan batch = Returned (Ok st) /\
    shard_pull_all fuel stopped_at st sizes =
      (fun b => Returned (Ok b)) <$> cut (shard_merged points) sizes.
Proof.
  intros Hfill H1 H2 Hf Hb F2 Ha Hrun Hz. unfold SparseRankPlan_new.
  rewrite (proj2 (Nat.eqb_neq _ 0)), build_query_context_ok by (done || lia).
  match type of F2 with Forall2 (sparse_shows ?plan) _ _ =>
    destruct (shard_channel_exact (sparse_shows plan) plan (sparse_shows_proper plan)
      (fun segment points => sparse_opens plan segment points H1 H2)
      fuel stopped_at segments points batch sizes Hf Hb F2 Ha Hrun Hz) as (st & E & Hp);
    exists plan, st
  end.
  by split_and!.
Qed.
End Plans.

(** ** Examples *)

Definition point_of (id version : N) (s : Z) : ScoredPoint :=
  {| sp_id := NumId id; sp_version := version; sp_score := of_Z binary32 s |}.

Definition example_dense_segment : DenseSegment :=
  {| dn_filled := Ok tt; dn_view := example_view; dn_total := Ok 4;
     dn_scorer := Ok (fmap tied_score); dn_distance := Dot; dn_datatype := Float32;
     dn_quantized := Some {| q_per_vector_scalar := false; q_distance := Dot; q_datatype := Float32;
                             q_reconstruction_len := Some 4 |};
     dn_reconstruction _ := unit_stats; dn_query_stats := Some unit_stats;
     dn_approximate := Ok (fmap tied_score); dn_per_vector := point_intervals; dn_stopped := false;
     dn_scalar_stopped_at _ := false; dn_available := 3 |}.

Definition example_dense_plan : DenseRankPlan :=
  {| dp_query := [f32_one]; dp_policy := {| scalar_min_points := 1; force_exact_scan := false |} |}.

(** The proxy holds a copy of a point of the segment. *)
Definition proxied : list ScoredPoint := [point_of 9 7 0; point_of 3 1 5].

Definition example_dense_points : list (list ScoredPoint) :=
  [[point_of 10 7 0; point_of 9 7 0; point_of 7 7 1]; proxied].

Lemma proxied_found : search_finds (Ok [proxied]) proxied.
Proof.
  split_and!; [done | split | by vm_compute]; apply (bool_decide_unpack _); vm_compute; exact Logic.I.
Qed.

Lemma example_dense_readers fuel plan :
  3 < fuel -> dp_query plan = [f32_one] ->
  match open_dense_original plan example_dense_segment with Ok _ => True | Err _ => False end ->
  dense_readers fuel plan example_dense_segment tied_score 4.
Proof.
  assert (E : length (eligible_points example_view 4) = 3) by (vm_compute; reflexivity).
  intros Hfuel Eq Hok. split; rewrite ?Eq.
  - reflexivity.
  - destruct (open_dense_original _ _) as [st|]; [by exists st | destruct Hok].
  - by exists (fmap tied_score).
  - apply example_scalar_sound.
  - apply point_intervals_sound.
  - apply (bool_decide_unpack _). vm_compute. exact Logic.I.
  - apply example_tracked.
  - change (length (eligible_points example_view 4) < fuel). rewrite E. exact Hfuel.
Qed.

Lemma agreeing_check points :
  forallb (fun p => forallb (fun q => negb (bool_decide (sp_id p = sp_id q)) || bool_decide (p = q))
    (concat points)) (concat points) = true -> agreeing points.
Proof.
  intros Hc p q Hp Hq E. rewrite forallb_forall in Hc. apply list_elem_of_In in Hp, Hq.
  specialize (Hc p Hp). rewrite forallb_forall in Hc. specialize (Hc q Hq).
  rewrite bool_decide_eq_true_2 in Hc by done. by apply bool_decide_eq_true in Hc.
Qed.

Lemma dense_shard_exact_witness :
  exists st,
    ExactShardStream_open (H := dense_rank_plan) (H0 := cursor_pull (H := dense_cursor_pull 4))
      4 [Original example_dense_segment; Proxy (Ok [proxied]) 2 false (Ok tt)]
      example_dense_plan 2 = Returned (Ok st) /\
    shard_pull_all (H := cursor_pull (H := dense_cursor_pull 4)) 4 (fun _ => false) st [3; 3] =
      [Returned (Ok [point_of 3 1 5; point_of 7 7 1; point_of 9 7 0]);
       Returned (Ok [point_of 10 7 0])].
Proof.
  destruct (dense_shard_exact 4 example_dense_plan (fun _ => false)
    [Original example_dense_segment; Proxy (Ok [proxied]) 2 false (Ok tt)]
    example_dense_points 2 [3; 3]) as (st & E & Hp).
  - lia.
  - lia.
  - apply Forall2_cons. split; [|apply Forall2_cons; split; [|apply Forall2_nil; exact Logic.I]].
    + assert (Ep : [point_of 10 7 0; point_of 9 7 0; point_of 7 7 1] =
        dense_points tied_score example_view 4) by (vm_compute; reflexivity).
      rewrite Ep. apply (dense_shows_original _ _ example_dense_segment tied_score 4).
      apply example_dense_readers; [lia | reflexivity | vm_compute; exact Logic.I].
    + apply dense_shows_proxy, proxied_found.
  - apply agreeing_check. vm_compute. reflexivity.
  - reflexivity.
  - repeat constructor; discriminate.
  - exists st. split; [exact E |]. rewrite Hp. vm_compute. reflexivity.
Defined.

(** A segment with an exact index, one whose index is not sparse, a proxy. *)
Definition example_sparse_segment : SparseSegment :=
  {| sg_filled := Ok tt; sg_view := ten_points; sg_filter := Ok tt;
     sg_index := Some (SparseRam example_sparse_index); sg_idf := false; sg_search := Ok [];
     sg_stopped_at _ := false; sg_available := 9 |}.

Definition plain_segment : SparseSegment :=
  {| sg_filled := Ok tt; sg_view := ten_points; sg_filter := Ok tt; sg_index := Some Plain;
     sg_idf := false; sg_search := Ok [[point_of 17 7 5]]; sg_stopped_at _ := false;
     sg_available := 1 |}.

Definition example_sparse_segments : list (LockedSegment SparseSegment) :=
  [Original example_sparse_segment; Original plain_segment; Proxy (Ok [proxied]) 2 false (Ok tt)].

Definition example_sparse_points : list (list ScoredPoint) :=
  [[point_of 19 7 8; point_of 17 7 5; point_of 11 7 10]; [point_of 17 7 5]; proxied].

Lemma example_sparse_ranked fuel batch requires :
  4 < fuel -> requires = false ->
  sparse_shows fuel {| sp_name := "text"; sp_query := example_sparse_query;
      sp_posting_batch_size := batch; requires_idf := requires |}
    (Original example_sparse_segment) [point_of 19 7 8; point_of 17 7 5; point_of 11 7 10].
Proof.
  intros Hfuel ->.
  assert (Ep : [point_of 19 7 8; point_of 17 7 5; point_of 11 7 10] =
    sparse_points example_sparse_index ten_points example_sparse_query [1; 2; 3; 9]%N)
    by (vm_compute; reflexivity).
  rewrite Ep.
  apply (sparse_shows_ranked fuel {| sp_name := "text"; sp_query := example_sparse_query;
      sp_posting_batch_size := batch; requires_idf := false |}
    example_sparse_segment (SparseRam example_sparse_index) example_sparse_index
    ram_lawful [1; 2; 3; 9]%N).
  - exact eq_refl.
  - exact eq_refl.
  - exact eq_refl.
  - exact (fun _ => eq_refl).
  - exact eq_refl.
  - exact eq_refl.
  - apply example_tracker_ok.
  - apply example_rankable.
  - by apply example_deliverable.
Qed.

Lemma example_sparse_shows :
  Forall2 (sparse_shows 5 {| sp_name := "text"; sp_query := example_sparse_query;
      sp_posting_batch_size := 2; requires_idf := existsb segment_idf example_sparse_segments |})
    example_sparse_segments example_sparse_points.
Proof.
  apply Forall2_cons; split; [|apply Forall2_cons; split; [|apply Forall2_cons; split]].
  - apply example_sparse_ranked; [lia | reflexivity].
  - apply (sparse_shows_wrong _ _ plain_segment Plain); [reflexivity | right; reflexivity |].
    split_and!; [done | split | by vm_compute]; apply (bool_decide_unpack _); vm_compute; exact Logic.I.
  - apply sparse_shows_proxy, proxied_found.
  - apply Forall2_nil. exact Logic.I.
Qed.

Lemma sparse_shard_exact_witness :
  exists plan st,
    SparseRankPlan_new example_sparse_segments "text" example_sparse_query 2 = Ok plan /\
    ExactShardStream_open (H := sparse_rank_plan)
      (H0 := cursor_pull (H := sparse_cursor_pull 5))
      5 example_sparse_segments plan 2 = Returned (Ok st) /\
    shard_pull_all (H := cursor_pull (H := sparse_cursor_pull 5))
      5 (fun _ => false) st [3; 3] =
      [Returned (Ok [point_of 11 7 10; point_of 19 7 8; point_of 3 1 5]);
       Returned (Ok [point_of 17 7 5; point_of 9 7 0])].
Proof.
  destruct (sparse_shard_exact 5 "text" example_sparse_query 2 (fun _ => false)
    example_sparse_segments example_sparse_points 2 [3; 3]) as (plan & st & En & E & Hp).
  - repeat (apply Forall_cons; split; [reflexivity |]). apply Forall_nil. exact Logic.I.
  - lia.
  - vm_compute. discriminate.
  - lia.
  - lia.
  - apply example_sparse_shows.
  - apply agreeing_check. vm_compute. reflexivity.
  - reflexivity.
  - repeat constructor; discriminate.
  - exists plan, st. split; [exact En |]. split; [exact E |]. rewrite Hp. vm_compute. reflexivity.
Defined.
