(* ===== verification/HybridSession.v ===== *)
(** * Exact hybrid retrieval of a collection

    lib/collection/src/collection/exact_rrf/ (types.rs, source.rs,
    session.rs).  One request fuses two channels, dense and sparse, over the
    frozen segments of every selected shard: each shard opens one exact stream
    per channel, a k-way merge turns the streams of a channel into one global
    ranking, and the dynamic fusion reads both rankings until the first
    [limit] results are certain.

    The streams share cells: the map of observed versions, which must never
    see a point at two versions, and the telemetry.  The model threads them
    as a memory ([SessionCells]) through every pull.  The main theorem is the
    promise of the endpoint: the result is the exact prefix of weighted
    reciprocal rank fusion over the points all segments show, each with its
    version. *)

From S2P Require Import Prelude Float Order PointId RrfScoring RrfState RrfSession RrfExact.
From S2P Require Import RankStream ShardStream DenseRank SegmentRank Postings SparseVectors BlockMax.
From S2P Require Import SparseIndex ShardRank.

Open Scope result_scope.

(** ** Data *)

Definition DEFAULT_EXACT_BATCH_SIZE : nat := 64.
Definition DEFAULT_SPARSE_POSTING_BATCH_SIZE : nat := N.to_nat 4096.
Definition EXACT_FUSION_BATCH_SIZE : nat := 16.

(** The filter of a request is part of what the readers of the segments
    return. *)
Record ExactRrfRequest : Type := mkExactRrfRequest {
  dense_query : list float;
  sparse_query : SparseVector;
  sparse_using : string;
  limit : nat;
  rrf_k : nat;
  request_weights : list float;
  request_batch_size : nat;
  sparse_posting_batch_size : nat;
  dense_policy : DenseExecutionPolicy;
}.

Record ExactRrfResult : Type := mkExactRrfResult {
  rr_point_ids : list ExtendedPointId;
  rr_versions : gmap ExtendedPointId N;
  rr_stop_reason : DynamicRrfStopReason;
  rr_source_pulls : list nat;
  rr_source_exhausted : list bool;
  rr_certification_checks : nat;
  source_points_materialized : list N;
  source_batch_requests : list nat;
  source_points_received : list nat;
  rr_exhaustive_fallback_sources : nat;
  rr_visible_point_copies : nat;
  shard_count : nat;
}.

(** One frozen segment, as the two channels read it. *)
Record FrozenSegment : Type := mkFrozenSegment {
  as_dense : LockedSegment DenseSegment;
  as_sparse : LockedSegment SparseSegment;
}.

Inductive Channel : Type := DenseChannel | SparseChannel.

(** A pull that does not return: it panics, or the fuel of the model ends. *)
Inductive Unwinding : Type := UnwindPanic | UnwindFuel.

(** The cells that the closures of a session share. *)
Record SessionCells : Type := mkSessionCells {
  versions : gmap ExtendedPointId N;
  dense_physical : list ExactShardStreamTelemetry;
  sparse_physical : list ExactShardStreamTelemetry;
  materialized : N * N;
  unwinding : option Unwinding;
}.

(** The stream of a shard in either channel. *)
Inductive ShardChannelStream : Type :=
  | DenseShard (stream : ExactShardMergeState (SegmentCursor DenseCursor))
  | SparseShard (stream : ExactShardMergeState (SegmentCursor SparseCursor)).

(** What the closure of [exact_score_batch_stream] captures, the shared cells
    apart. *)
Record ShardSource : Type := mkShardSource {
  shard_stream : ShardChannelStream;
  physical_source : nat;
}.

(** ** Operations *)

Definition set_versions (w : SessionCells) (v : gmap ExtendedPointId N) : SessionCells :=
  {| versions := v; dense_physical := dense_physical w; sparse_physical := sparse_physical w;
     materialized := materialized w; unwinding := unwinding w |}.

Definition physical (w : SessionCells) (c : Channel) : list ExactShardStreamTelemetry :=
  match c with DenseChannel => dense_physical w | SparseChannel => sparse_physical w end.

(** [source_physical.borrow_mut()[physical_source] = stream.telemetry()], in
    bounds. *)
Definition set_physical (w : SessionCells) (c : Channel) (i : nat)
    (t : ExactShardStreamTelemetry) : SessionCells :=
  {| versions := versions w;
     dense_physical :=
       match c with DenseChannel => <[i := t]> (dense_physical w) | _ => dense_physical w end;
     sparse_physical :=
       match c with SparseChannel => <[i := t]> (sparse_physical w) | _ => sparse_physical w end;
     materialized := materialized w; unwinding := unwinding w |}.

Definition push_physical (w : SessionCells) (c : Channel) (t : ExactShardStreamTelemetry)
    : SessionCells :=
  {| versions := versions w;
     dense_physical :=
       match c with DenseChannel => dense_physical w ++ [t] | _ => dense_physical w end;
     sparse_physical :=
       match c with SparseChannel => sparse_physical w ++ [t] | _ => sparse_physical w end;
     materialized := materialized w; unwinding := unwinding w |}.

(** [fetch_add] on an [AtomicUsize] wraps. *)
Definition count_materialized (w : SessionCells) (c : Channel) (n : nat) : SessionCells :=
  let add x := ((x + N.of_nat n) mod (USIZE_MAX + 1))%N in
  {| versions := versions w; dense_physical := dense_physical w;
     sparse_physical := sparse_physical w;
     materialized :=
       match c with
       | DenseChannel => (add (materialized w).1, (materialized w).2)
       | SparseChannel => ((materialized w).1, add (materialized w).2)
       end;
     unwinding := unwinding w |}.

Definition unwind (w : SessionCells) (u : Unwinding) : SessionCells :=
  {| versions := versions w; dense_physical := dense_physical w;
     sparse_physical := sparse_physical w; materialized := materialized w; unwinding := Some u |}.

(** The loop of [exact_score_batch_stream] over the points of a batch. *)
Fixpoint check_versions (observed batch : gmap ExtendedPointId N) (points : list ScoredPoint)
    : OperationResult (gmap ExtendedPointId N) :=
  match points with
  | [] => Ok batch
  | point :: points =>
      if match observed !! sp_id point with
         | Some version => negb (version =? sp_version point)%N
         | None => false
         end then
        Err (InconsistentStorage "exact RRF observed point {} at conflicting versions {} and {}")
      else if match batch !! sp_id point with
              | Some version => negb (version =? sp_version point)%N
              | None => false
              end then
        Err (InconsistentStorage
          "exact RRF batch observed point {} at conflicting versions {} and {}")
      else check_versions observed (<[sp_id point := sp_version point]> batch) points
  end.

Definition to_identity (point : ScoredPoint) : ExactScoredIdentity :=
  {| es_id := sp_id point; es_score := sp_score point |}.

Definition stream_channel (stream : ShardChannelStream) : Channel :=
  match stream with DenseShard _ => DenseChannel | SparseShard _ => SparseChannel end.

Definition stream_telemetry (stream : ShardChannelStream) : ExactShardStreamTelemetry :=
  match stream with DenseShard st => sm_telemetry st | SparseShard st => sm_telemetry st end.

#[export] Instance no_scores : ScoreStream Empty_set := fun q => match q with end.

Section Session.

(** The bound of the loops of the model, and what the loads of the
    cancellation flag see in the shard streams. *)
Context (fuel : nat) (stopped_at : nat -> bool).

#[local] Instance dense_pull : SegmentPull DenseCursor := dense_cursor_pull fuel.
#[local] Instance sparse_pull : SegmentPull SparseCursor := sparse_cursor_pull fuel.
#[local] Existing Instances sparse_rank_plan dense_rank_plan.

(** [stream.next_batch(max_results)] *)
Definition shard_next (stream : ShardChannelStream) (max_results : nat)
    : ShardChannelStream * outcome (list ScoredPoint) :=
  match stream with
  | DenseShard st => let '(st, r) := next_batch fuel stopped_at st max_results in (DenseShard st, r)
  | SparseShard st =>
      let '(st, r) := next_batch fuel stopped_at st max_results in (SparseShard st, r)
  end.

(** The closure of [exact_score_batch_stream] over the closure that updates
    the telemetry. *)
Definition exact_score_batch_stream : ScoreBatchStream SessionCells ShardSource :=
  fun w source max_results =>
    let '(stream, result) := shard_next (shard_stream source) max_results in
    let source := {| shard_stream := stream; physical_source := physical_source source |} in
    match result with
    | Panicked => (Err (ServiceError "panicked"), (source, unwind w UnwindPanic))
    | OutOfFuel => (Err (ServiceError "out of fuel"), (source, unwind w UnwindFuel))
    | Returned result =>
        if length (physical w (stream_channel stream)) <=? physical_source source then
          (Err (ServiceError "panicked"), (source, unwind w UnwindPanic))
        else
        let w := set_physical w (stream_channel stream) (physical_source source)
                   (stream_telemetry stream) in
        match result with
        | Err e => (Err e, (source, w))
        | Ok points =>
            match check_versions (versions w) ∅ points with
            | Err e => (Err e, (source, w))
            | Ok batch_versions =>
                (Ok {| sb_points := to_identity <$> points;
                       sb_exhausted := length points <? max_results |},
                 (source, set_versions w (batch_versions ∪ versions w)))
            end
        end
    end.

#[local] Existing Instance exact_score_batch_stream.

Local Abbreviation kway := (KWayExactScoreStream SessionCells Empty_set ShardSource).

(** A merged channel with the counter of what it delivered. *)
Record ObservedStream : Type := mkObservedStream {
  observed : kway;
  observed_channel : Channel;
}.

(** The closure of [observed_rank_batch_stream]. *)
Definition observed_rank_batch_stream : BatchStream SessionCells ObservedStream :=
  fun w b max_results =>
    let '(r, (st, w)) := pull_batch w (observed b) max_results in
    let b := {| observed := st; observed_channel := observed_channel b |} in
    match r with
    | Ok batch => (Ok batch, (b, count_materialized w (observed_channel b) (length (point_ids batch))))
    | Err e => (Err e, (b, w))
    end.

#[local] Existing Instance observed_rank_batch_stream.

(** *** Opening the shards *)

Definition open_sparse_shard (request : ExactRrfRequest) (batch_size posting_batch_size : nat)
    (segments : list (LockedSegment SparseSegment)) : outcome ShardChannelStream :=
  match SparseRankPlan_new segments (sparse_using request) (sparse_query request)
          posting_batch_size with
  | Err e => Returned (Err e)
  | Ok plan =>
      match ExactShardStream_open fuel segments plan batch_size with
      | Returned (Ok st) => Returned (Ok (SparseShard st))
      | Returned (Err e) => Returned (Err e)
      | Panicked => Panicked
      | OutOfFuel => OutOfFuel
      end
  end.

Definition open_dense_shard (request : ExactRrfRequest) (batch_size : nat)
    (segments : list (LockedSegment DenseSegment)) : outcome ShardChannelStream :=
  match ExactShardStream_open fuel segments
          {| dp_query := dense_query request; dp_policy := dense_policy request |} batch_size with
  | Returned (Ok st) => Returned (Ok (DenseShard st))
  | Returned (Err e) => Returned (Err e)
  | Panicked => Panicked
  | OutOfFuel => OutOfFuel
  end.

(** One of the two loops over the snapshots: open the shards in order, pushing
    the telemetry of each. *)
Fixpoint open_shards {L} (open : list L -> outcome ShardChannelStream) (snapshots : list (list L))
    (sources : list ShardSource) (w : SessionCells)
    : outcome (list ShardSource * SessionCells) :=
  match snapshots with
  | [] => Returned (Ok (sources, w))
  | segments :: snapshots =>
      match open segments with
      | Returned (Ok stream) =>
          let physical_source := length (physical w (stream_channel stream)) in
          open_shards open snapshots
            (sources ++ [{| shard_stream := stream; physical_source := physical_source |}])
            (push_physical w (stream_channel stream) (stream_telemetry stream))
      | Returned (Err e) => Returned (Err e)
      | Panicked => Panicked
      | OutOfFuel => OutOfFuel
      end
  end.

Definition empty_cells : SessionCells :=
  {| versions := ∅; dense_physical := []; sparse_physical := []; materialized := (0, 0)%N;
     unwinding := None |}.

(** An error that a pull reported: a pull that did not return unwinds the
    whole call. *)
Definition report {A} (w : SessionCells) (e : OperationError) : outcome A :=
  match unwinding w with
  | None => Returned (Err e)
  | Some UnwindPanic => Panicked
  | Some UnwindFuel => OutOfFuel
  end.

(** The versions of the result. *)
Fixpoint result_versions (observed : gmap ExtendedPointId N) (ids : list ExtendedPointId)
    (acc : gmap ExtendedPointId N) : OperationResult (gmap ExtendedPointId N) :=
  match ids with
  | [] => Ok acc
  | id :: ids =>
      match observed !! id with
      | None => Err (InconsistentStorage "exact RRF result {id} has no visible version")
      | Some version => result_versions observed ids (<[id := version]> acc)
      end
  end.

Definition session_policy : DynamicRrfPolicy :=
  {| warmup_check_interval := warmup_check_interval DynamicRrfPolicy_default;
     exhaustive_after_pulls_per_source :=
       exhaustive_after_pulls_per_source DynamicRrfPolicy_default;
     scheduler := MaxNextContribution;
     fairness_after_actions_per_source :=
       fairness_after_actions_per_source DynamicRrfPolicy_default |}.

(** The second half of [execute]: merge the channels, fuse them and collect
    the result.  [fallbacks] and [visible] were counted when the sparse shards
    were opened. *)
Definition fuse (request : ExactRrfRequest) (dense_sources sparse_sources : list ShardSource)
    (fallbacks visible : nat) (w : SessionCells) : outcome ExactRrfResult :=
  let '(dense, w) := kway_new_batched dense_sources w EXACT_FUSION_BATCH_SIZE in
  match dense with
  | Err e => report w e
  | Ok dense =>
      let '(sparse, w) := kway_new_batched sparse_sources w EXACT_FUSION_BATCH_SIZE in
      match sparse with
      | Err e => report w e
      | Ok sparse =>
          let '(execution, w) :=
            execute_dynamic_rrf_batches_with_policy fuel
              [{| observed := dense; observed_channel := DenseChannel |};
               {| observed := sparse; observed_channel := SparseChannel |}]
              w EXACT_FUSION_BATCH_SIZE (limit request) (rrf_k request)
              (Some (request_weights request)) session_policy in
          match execution with
          | Panicked => Panicked
          | OutOfFuel => OutOfFuel
          | Returned (Err e) => report w e
          | Returned (Ok x) =>
              match result_versions (versions w) (ex_point_ids x) ∅ with
              | Err e => Returned (Err e)
              | Ok v =>
                  Returned (Ok
                    {| rr_point_ids := ex_point_ids x; rr_versions := v;
                       rr_stop_reason := ex_stop_reason x;
                       rr_source_pulls := ex_source_pulls x;
                       rr_source_exhausted := ex_source_exhausted x;
                       rr_certification_checks := ex_certification_checks x;
                       source_points_materialized := [(materialized w).1; (materialized w).2];
                       source_batch_requests :=
                         [sum_list (batch_requests <$> dense_physical w);
                          sum_list (batch_requests <$> sparse_physical w)];
                       source_points_received :=
                         [sum_list (points_received <$> dense_physical w);
                          sum_list (points_received <$> sparse_physical w)];
                       rr_exhaustive_fallback_sources := fallbacks;
                       rr_visible_point_copies := visible;
                       shard_count := 0 |})
              end
          end
      end
  end.

Definition dense_side (segments : list FrozenSegment) : list (LockedSegment DenseSegment) :=
  as_dense <$> segments.

Definition sparse_side (segments : list FrozenSegment) : list (LockedSegment SparseSegment) :=
  as_sparse <$> segments.

(** [ExactHybridSession::execute] *)
Definition execute (snapshots : list (list FrozenSegment)) (request : ExactRrfRequest)
    : outcome ExactRrfResult :=
  let batch_size :=
    if request_batch_size request =? 0 then DEFAULT_EXACT_BATCH_SIZE
    else request_batch_size request in
  let posting_batch_size :=
    if sparse_posting_batch_size request =? 0 then DEFAULT_SPARSE_POSTING_BATCH_SIZE
    else sparse_posting_batch_size request in
  match open_shards (open_sparse_shard request batch_size posting_batch_size)
          (sparse_side <$> snapshots) [] empty_cells with
  | Returned (Ok (sparse_sources, w)) =>
      let fallbacks := sum_list (exhaustive_fallback_sources <$> sparse_physical w) in
      let visible := sum_list (visible_point_copies <$> sparse_physical w) in
      match open_shards (open_dense_shard request batch_size)
              (dense_side <$> snapshots) [] w with
      | Returned (Ok (dense_sources, w)) =>
          fuse request dense_sources sparse_sources fallbacks visible w
      | Returned (Err e) => Returned (Err e)
      | Panicked => Panicked
      | OutOfFuel => OutOfFuel
      end
  | Returned (Err e) => Returned (Err e)
  | Panicked => Panicked
  | OutOfFuel => OutOfFuel
  end.

(** ** Versions *)

Lemma check_versions_sound observed batch points batch' :
  check_versions observed batch points = Ok batch' ->
  (forall id v, batch !! id = Some v -> default v (observed !! id) = v) ->
  (forall id v, batch' !! id = Some v -> default v (observed !! id) = v) /\
  Forall (fun p => is_Some (batch' !! sp_id p)) points /\ dom batch ⊆ dom batch'.
Proof.
  revert batch. induction points as [|p points IH]; intros batch; simpl.
  { intros [= <-] Hb. by split_and!. }
  destruct (observed !! sp_id p) as [v|] eqn:Eo.
  - destruct (N.eqb_spec v (sp_version p)) as [->|]; [|done]. simpl.
    destruct (match batch !! sp_id p with Some _ => _ | None => _ end); [done |].
    intros E Hb. destruct (IH _ E) as (H1 & H2 & H3).
    { intros id v. rewrite lookup_insert_Some. intros [[<- <-]|[_ Hv]]; [by rewrite Eo | by apply Hb]. }
    split_and!; [done | | set_solver]. constructor; [|done]. apply elem_of_dom. set_solver.
  - destruct (match batch !! sp_id p with Some _ => _ | None => _ end); [done |].
    intros E Hb. destruct (IH _ E) as (H1 & H2 & H3).
    { intros id v. rewrite lookup_insert_Some. intros [[<- <-]|[_ Hv]]; [by rewrite Eo | by apply Hb]. }
    split_and!; [done | | set_solver]. constructor; [|done]. apply elem_of_dom. set_solver.
Qed.

(** [C38] The observed versions of a session are stable, whatever the
    segments deliver: a pull never changes the version recorded for a point,
    a pull that fails records nothing, and every point of a batch that is
    delivered has its version recorded. *)
Theorem observed_versions_stable w source n r source' w' :
  exact_score_batch_stream w source n = (r, (source', w')) ->
  versions w ⊆ versions w' /\
  match r with
  | Err _ => versions w' = versions w
  | Ok batch => Forall (fun p => is_Some (versions w' !! es_id p)) (sb_points batch)
  end.
Proof.
  unfold exact_score_batch_stream.
  destruct (shard_next (shard_stream source) n) as [stream [result| |]];
    [|by intros [= <- <- <-] | by intros [= <- <- <-]].
  destruct (_ <=? _); [by intros [= <- <- <-] |]. destruct result as [points|]; [|by intros [= <- <- <-]].
  change (versions (set_physical w _ _ _)) with (versions w).
  destruct (check_versions (versions w) ∅ points) as [batch|] eqn:E; [|by intros [= <- <- <-]].
  intros [= <- <- <-]. apply check_versions_sound in E as (H1 & H2 & _); [|by intros id v; rewrite lookup_empty].
  simpl. split.
  - apply map_subseteq_spec. intros id v Hv. rewrite lookup_union, Hv.
    destruct (batch !! id) as [v'|] eqn:Eb; [|done]. specialize (H1 id v' Eb). rewrite Hv in H1.
    simpl in *. by subst.
  - apply Forall_fmap. eapply Forall_impl; [exact H2 |]. intros p [v Hv]. simpl.
    rewrite lookup_union, Hv. by destruct (versions w !! sp_id p).
Qed.

(** ** Exact sources *)

#[export] Program Instance no_exact_scores : ExactScores Empty_set :=
  {| score_rest q _ := False |}.
Next Obligation. done. Qed.

#[local] Instance dense_exact : ExactSegment DenseCursor := dense_cursor_exact fuel.
#[local] Instance sparse_exact : ExactSegment SparseCursor := sparse_cursor_exact fuel.

Context (Hfuel : 2 <= fuel) (Hrunning : forall n, stopped_at n = false).

(** The version every point has, wherever it is visible. *)
Context (authority : ExtendedPointId -> N).

Definition cells_ok (w : SessionCells) : Prop :=
  map_Forall (fun id version => version = authority id) (versions w) /\ unwinding w = None.

(** Pulls only add versions; they keep the cells in order. *)
#[local] Program Instance session_memory : SharedMemory SessionCells :=
  {| shared_step w w' := (cells_ok w -> cells_ok w') /\
       dom (versions w) ⊆ dom (versions w') /\
       (forall c, length (physical w c) <= length (physical w' c));
     recorded w id := id ∈ dom (versions w) |}.
Next Obligation.
  split; [done |]. intros w1 w2 w3 (A1 & B1 & C1) (A2 & B2 & C2).
  split_and!; [auto | set_solver |]. intros c. specialize (C1 c). specialize (C2 c). lia.
Qed.
Next Obligation. intros w w' id (_ & Hd & _) Hi. set_solver. Qed.

Lemma check_versions_ok observed batch points :
  map_Forall (fun id version => version = authority id) observed ->
  map_Forall (fun id version => version = authority id) batch ->
  Forall (fun p => sp_version p = authority (sp_id p)) points ->
  exists batch', check_versions observed batch points = Ok batch' /\
    map_Forall (fun id version => version = authority id) batch' /\
    dom batch ⊆ dom batch' /\ Forall (fun p => sp_id p ∈ dom batch') points.
Proof.
  intros Ho. revert batch. induction points as [|p points IH]; intros batch Hb Hp; simpl.
  { by exists batch. }
  apply Forall_cons in Hp as [Hp1 Hp].
  replace (match observed !! sp_id p with Some _ => _ | None => false end) with false.
  2:{ destruct (observed !! sp_id p) as [v|] eqn:E; [|done].
      rewrite (Ho _ _ E), Hp1, N.eqb_refl. done. }
  replace (match batch !! sp_id p with Some _ => _ | None => false end) with false.
  2:{ destruct (batch !! sp_id p) as [v|] eqn:E; [|done].
      rewrite (Hb _ _ E), Hp1, N.eqb_refl. done. }
  destruct (IH (<[sp_id p := sp_version p]> batch)) as (batch' & E & H1 & H2 & H3).
  - by apply map_Forall_insert_2.
  - done.
  - exists batch'. split_and!; [done | done | set_solver |]. constructor; [set_solver | done].
Qed.

Definition stream_lines (stream : ShardChannelStream) (lines : list (list ScoredPoint)) : Prop :=
  match stream with
  | DenseShard st => shard_holds st ∅ lines
  | SparseShard st => shard_holds st ∅ lines
  end.

Lemma shard_next_exact stream lines n :
  stream_lines stream lines -> n <> 0 ->
  exists stream' lines',
    shard_next stream n = (stream', Returned (Ok (take n (shard_merged lines)))) /\
    stream_lines stream' lines' /\ shard_merged lines' = drop n (shard_merged lines) /\
    stream_channel stream' = stream_channel stream.
Proof.
  destruct stream as [st|st]; simpl; intros Hd Hn; unfold next_batch;
    rewrite decide_False, (s_error _ _ _ Hd) by done.
  - destruct (shard_batch_loop_exact fuel Hfuel stopped_at n st lines [] Hd Hrunning)
      as (st' & lines' & Hd' & Em & ->). by exists (DenseShard st'), lines'.
  - destruct (shard_batch_loop_exact fuel Hfuel stopped_at n st lines [] Hd Hrunning)
      as (st' & lines' & Hd' & Em & ->). by exists (SparseShard st'), lines'.
Qed.

Definition source_delivers (w : SessionCells) (source : ShardSource)
    (rest : list ExactScoredIdentity) : Prop :=
  cells_ok w /\
  physical_source source < length (physical w (stream_channel (shard_stream source))) /\
  exists lines, stream_lines (shard_stream source) lines /\
    Forall (fun p => sp_version p = authority (sp_id p)) (shard_merged lines) /\
    rest = to_identity <$> shard_merged lines.

Lemma source_delivers_step w w' source rest :
  shared_step w w' -> source_delivers w source rest -> source_delivers w' source rest.
Proof.
  intros (Hok & _ & Hl) (Hw & Hp & HR). split_and!; [auto | | done].
  specialize (Hl (stream_channel (shard_stream source))). lia.
Qed.

#[local] Program Instance exact_score_batches : ExactScoreBatches SessionCells ShardSource :=
  {| scores_rest := source_delivers |}.
Next Obligation. apply source_delivers_step. Qed.
Next Obligation.
  intros w [stream i] rest n ([Hv Hu] & Hp & lines & Hd & Ha & ->) Hn. simpl in *.
  destruct (shard_next_exact stream lines n Hd ltac:(lia)) as (stream' & lines' & E & Hd' & Em & Ec).
  unfold pull_scores, exact_score_batch_stream. simpl. rewrite E, Ec.
  rewrite (proj2 (Nat.leb_gt _ _) Hp).
  set (ps := take n (shard_merged lines)) in *.
  assert (Hps : Forall (fun p => sp_version p = authority (sp_id p)) ps) by (by apply Forall_take).
  destruct (check_versions_ok (versions w) ∅ ps Hv) as (batch & Ev & Hb & _ & Hin);
    [apply map_Forall_empty | done |].
  change (versions (set_physical _ _ _ _)) with (versions w). rewrite Ev.
  exists (to_identity <$> ps), (to_identity <$> drop n (shard_merged lines)), (length ps <? n).
  eexists _, _. split; [done |].
  assert (Hlen : length ps = Nat.min n (length (shard_merged lines))) by apply length_take.
  assert (Hok' : map_Forall (fun id version => version = authority id) (batch ∪ versions w))
    by (by apply map_Forall_union_2).
  split_and!.
  - unfold ps. by rewrite <- fmap_app, take_drop.
  - rewrite length_fmap. lia.
  - intros E0%fmap_nil_inv. rewrite E0. apply Nat.ltb_lt. simpl. lia.
  - destruct (Nat.ltb_spec (length ps) n).
    + by rewrite drop_ge by lia.
    + split_and!; simpl.
      * by split.
      * rewrite Ec. destruct (stream_channel stream); simpl in *; rewrite ?length_insert; done.
      * exists lines'. rewrite Em. split_and!; [done | by apply Forall_drop | done].
  - by intros _; split.
  - simpl. rewrite dom_union_L. set_solver.
  - intros c. destruct (stream_channel stream), c; simpl; rewrite ?length_insert; lia.
  - apply Forall_fmap. eapply Forall_impl; [exact Hin |]. intros p. simpl. rewrite dom_union_L. set_solver.
Qed.

(** *** Observed channels *)

Lemma count_materialized_step w c n : shared_step w (count_materialized w c n).
Proof. split_and!; [done | done |]. intros c'. by destruct c, c'. Qed.

#[local] Program Instance exact_observed : ExactBatchStream SessionCells ObservedStream :=
  {| batch_rest w b start rest := batch_rest w (observed b) start rest |}.
Next Obligation. intros w w' b start rest. apply batch_rest_step. Qed.
Next Obligation.
  intros w b start rest n Hr Hn.
  destruct (batch_rest_pull w (observed b) start rest n Hr Hn)
    as (ids & rest' & e & st' & w' & E & -> & Hlen & H1 & H2 & H3 & Hs & Hrec).
  exists ids, rest', e. eexists _, _.
  unfold pull_batch at 1, observed_rank_batch_stream. rewrite E. split; [done |].
  split_and!; try done.
  - intros He. exact (batch_rest_step _ _ _ _ _ (count_materialized_step _ _ _) (H3 He)).
Qed.

(** *** Opened shards *)

Lemma push_physical_step w c t : shared_step w (push_physical w c t).
Proof. split_and!; [done | done |]. intros c'. destruct c, c'; simpl; rewrite ?length_app; simpl; lia. Qed.

(** A shard whose segments show [points], opened for one channel. *)
Definition opens_channel {L} (open : list L -> outcome ShardChannelStream) (segments : list L)
    (points : list (list ScoredPoint)) : Prop :=
  agreeing points /\ Forall (fun p => sp_version p = authority (sp_id p)) (concat points) /\
  exists stream, open segments = Returned (Ok stream) /\
    stream_lines stream (sort_by shard_score_order <$> points).

Definition identities (points : list (list ScoredPoint)) : list ExactScoredIdentity :=
  to_identity <$> shard_merged points.

Lemma elem_of_shard_merged p lines : p ∈ shard_merged lines <-> p ∈ concat lines.
Proof. unfold shard_merged. by rewrite sort_by_perm, elem_of_remove_dups. Qed.

Lemma open_shards_exact {L} (open : list L -> outcome ShardChannelStream) snapshots points acc w :
  cells_ok w -> Forall2 (opens_channel open) snapshots points ->
  exists sources w', open_shards open snapshots acc w = Returned (Ok (acc ++ sources, w')) /\
    shared_step w w' /\ Forall2 (source_delivers w') sources (identities <$> points).
Proof.
  intros Hw F2. revert acc w Hw.
  induction F2 as [|segments pts snapshots points (Ha & Hv & stream & E & Hd) F2 IH]; intros acc w Hw; simpl.
  { exists [], w. rewrite app_nil_r. split; [done |]. split; [done | constructor]. }
  rewrite E. set (source := {| shard_stream := stream; physical_source := _ |}).
  set (w1 := push_physical _ _ _).
  assert (Hw1 : shared_step w w1) by apply push_physical_step.
  destruct (IH (acc ++ [source]) w1) as (sources & w' & E' & Hw' & F); [by apply Hw1 |].
  exists (source :: sources), w'. rewrite E', <- app_assoc. split; [done |].
  split; [exact (PreOrder_Transitive _ _ _ Hw1 Hw') |].
  constructor; [|done]. apply (source_delivers_step w1 w'); [exact Hw' |].
  split_and!; [by apply Hw1 | |].
  - simpl. destruct (stream_channel stream); simpl; rewrite length_app; simpl; lia.
  - eexists. split_and!; [exact Hd | | by rewrite shard_merged_sorted].
    rewrite shard_merged_sorted by done. apply Forall_forall. intros p Hp%elem_of_shard_merged.
    rewrite Forall_forall in Hv. by apply Hv.
Qed.

(** *** Channels *)

(** The points the segments of all shards show to one channel: copies agree,
    and a point lives in one shard. *)
Record channel_ok (points : list (list (list ScoredPoint))) : Prop := {
  co_agree : agreeing (concat points);
  co_shards : forall i j si sj p q, points !! i = Some si -> points !! j = Some sj ->
    p ∈ concat si -> q ∈ concat sj -> sp_id p = sp_id q -> i = j;
}.

(** The global ranking of a channel: every point once, by descending score,
    ties by identity. *)
Definition channel_ranking (points : list (list (list ScoredPoint))) : list ExtendedPointId :=
  sp_id <$> shard_merged (concat points).

Lemma elem_of_concat_concat (points : list (list (list ScoredPoint))) p :
  p ∈ concat (concat points) <-> exists i s, points !! i = Some s /\ p ∈ concat s.
Proof.
  rewrite elem_of_concat. split.
  - intros (i & l & Hl & Hp). assert (Hin : l ∈ concat points) by (by eapply list_elem_of_lookup_2).
    apply elem_of_concat in Hin as (j & s & Hs & Hls). exists j, s. split; [done |].
    apply elem_of_concat. apply list_elem_of_lookup in Hls as [k Hk]. eauto.
  - intros (i & s & Hs & (k & l & Hl & Hp)%elem_of_concat).
    assert (Hin : l ∈ concat points) by (apply elem_of_concat; eauto using list_elem_of_lookup_2).
    apply list_elem_of_lookup in Hin as [j Hj]. eauto.
Qed.

Lemma channel_agree points s : channel_ok points -> s ∈ points -> agreeing s.
Proof.
  intros Hc [i Hi]%list_elem_of_lookup p q Hp Hq.
  apply (co_agree _ Hc); apply elem_of_concat_concat; eauto.
Qed.

Lemma NoDup_concat_lookup {A} (ls : list (list A)) :
  Forall NoDup ls ->
  (forall i j l l' x, ls !! i = Some l -> ls !! j = Some l' -> x ∈ l -> x ∈ l' -> i = j) ->
  NoDup (concat ls).
Proof.
  induction ls as [|l ls IH]; intros Hn Hd; simpl; [constructor |].
  apply Forall_cons in Hn as [Hn1 Hn2]. apply NoDup_app. split_and!; [done | |].
  - intros x Hx (j & l' & Hl' & Hx')%elem_of_concat. by specialize (Hd 0 (S j) l l' x eq_refl Hl' Hx Hx').
  - apply IH; [done |]. intros i j l1 l2 x H1 H2 Hx1 Hx2.
    by injection (Hd (S i) (S j) l1 l2 x H1 H2 Hx1 Hx2).
Qed.

Lemma concat_fmap_fmap {A B} (f : A -> B) (ls : list (list A)) :
  concat ((fun l : list A => f <$> l) <$> ls) = f <$> concat ls.
Proof. induction ls as [|l ls IH]; csimpl; [done |]. by rewrite fmap_app, IH. Qed.

Lemma channel_ids points :
  channel_ok points -> NoDup (sp_id <$> concat (shard_merged <$> points)).
Proof.
  intros Hc. rewrite <- concat_fmap_fmap. apply NoDup_concat_lookup.
  - apply Forall_fmap, Forall_fmap, Forall_forall. intros s Hs. simpl. unfold shard_merged.
    rewrite sort_by_perm. by apply agreeing_ids, (channel_agree points).
  - intros i j l l' x. rewrite !list_lookup_fmap.
    destruct (points !! i) as [si|] eqn:Ei; [|done]. destruct (points !! j) as [sj|] eqn:Ej; [|done].
    simpl. intros [= <-] [= <-] (p & -> & Hp)%list_elem_of_fmap (q & E & Hq)%list_elem_of_fmap.
    rewrite elem_of_shard_merged in Hp, Hq. by apply (co_shards _ Hc i j si sj p q).
Qed.

Lemma sort_identities l :
  NoDup (sp_id <$> l) ->
  sort_by exact_score_order (to_identity <$> l) = to_identity <$> sort_by shard_score_order l.
Proof.
  intros Hn. apply (sorted_unique exact_score_order).
  - intros x y Hx Hy E%exact_score_order_eq_id. rewrite sort_by_perm in Hx, Hy.
    apply (NoDup_fmap_eq es_id (to_identity <$> l)); [by rewrite <- list_fmap_compose | done ..].
  - apply sort_by_sorted, _.
  - apply StronglySorted_fmap_key. apply (sort_by_sorted shard_score_order).
  - by rewrite !sort_by_perm.
Qed.

Lemma concat_identities points :
  concat (identities <$> points) = to_identity <$> concat (shard_merged <$> points).
Proof. rewrite <- concat_fmap_fmap, <- list_fmap_compose. done. Qed.

Lemma merged_ranking points :
  channel_ok points -> es_id <$> merged (identities <$> points) = channel_ranking points.
Proof.
  intros Hc. pose proof (channel_ids points Hc) as Hn. unfold merged, channel_ranking.
  rewrite concat_identities, sort_identities by done. rewrite <- list_fmap_compose.
  change (es_id ∘ to_identity) with sp_id. f_equal.
  apply sort_shard_perm; [|done].
  apply NoDup_Permutation; [by apply NoDup_fmap_1 in Hn | apply NoDup_remove_dups |].
  intros p. rewrite elem_of_remove_dups, elem_of_concat_concat, elem_of_concat.
  setoid_rewrite list_lookup_fmap. split.
  - intros (i & l & Hl & Hp). destruct (points !! i) as [s|] eqn:E; [|done].
    injection Hl as <-. rewrite elem_of_shard_merged in Hp. eauto.
  - intros (i & s & Hs & Hp). exists i, (shard_merged s). rewrite Hs.
    by rewrite elem_of_shard_merged.
Qed.

Lemma channel_mergeable points :
  Forall (Forall proper) points -> channel_ok points -> mergeable (identities <$> points).
Proof.
  intros Hp Hc. split.
  - apply Forall_fmap, Forall_forall. intros s _. apply StronglySorted_fmap_key.
    apply (sort_by_sorted shard_score_order).
  - rewrite concat_identities. apply Forall_fmap, Forall_forall. intros p (i & l & Hl & Hin)%elem_of_concat.
    rewrite list_lookup_fmap in Hl. destruct (points !! i) as [s|] eqn:Es; [|done].
    injection Hl as <-. rewrite elem_of_shard_merged in Hin.
    apply elem_of_concat in Hin as (k & l & Hl & Hin). rewrite Forall_lookup in Hp.
    specialize (Hp i s Es). rewrite Forall_lookup in Hp. destruct (Hp k l Hl) as [_ Hf].
    rewrite Forall_forall in Hf. by apply Hf.
  - rewrite concat_identities, <- list_fmap_compose. by apply channel_ids.
Qed.

Lemma result_versions_ok observed ids acc :
  map_Forall (fun id version => version = authority id) observed ->
  Forall (fun id => id ∈ dom observed) ids ->
  exists v, result_versions observed ids acc = Ok v /\
    forall id, v !! id = if decide (id ∈ ids) then Some (authority id) else acc !! id.
Proof.
  intros Ho Hi. revert acc. induction Hi as [|id ids [v Hv]%elem_of_dom Hi IH]; intros acc; simpl.
  { by exists acc. }
  rewrite Hv. destruct (IH (<[id := v]> acc)) as (v' & E & Hv'). exists v'. split; [done |].
  intros id'. rewrite Hv', (Ho id v Hv).
  destruct (decide (id' ∈ ids)) as [Hi'|Hi']; case_decide as D; try done.
  - exfalso. apply D. by right.
  - apply elem_of_cons in D as [->|D]; [by rewrite lookup_insert_eq | done].
  - rewrite lookup_insert_ne; [done |]. intros ->. apply D. left.
Qed.

Lemma source_batches w sources lines :
  Forall2 (source_delivers w) sources lines ->
  Forall2 (src_rest (Q := Empty_set) w)
    ((fun pull => ScoreBatch pull [] false) <$> sources) lines.
Proof.
  intros F2. apply Forall2_fmap_l. eapply Forall2_impl; [exact F2 |].
  intros source l Hd. exists l. split_and!; [done | constructor | exact Hd].
Qed.

(** Over sources of both channels, the second half of [execute] returns the
    exact prefix with the version of every point. *)
Lemma fuse_exact request dense_sources sparse_sources dpoints spoints fallbacks visible w :
  cells_ok w -> dense_sources <> [] -> sparse_sources <> [] ->
  Forall2 (source_delivers w) dense_sources (identities <$> dpoints) ->
  Forall2 (source_delivers w) sparse_sources (identities <$> spoints) ->
  Forall (Forall proper) dpoints -> channel_ok dpoints ->
  Forall (Forall proper) spoints -> channel_ok spoints ->
  1 <= rrf_k request -> weights_ok (request_weights request) ->
  length (request_weights request) = 2 ->
  stream_fuel [channel_ranking dpoints; channel_ranking spoints] <= fuel ->
  exists result,
    fuse request dense_sources sparse_sources fallbacks visible w = Returned (Ok result) /\
    rr_point_ids result = take (limit request) (wrrf_order (rrf_k request) (request_weights request)
      [channel_ranking dpoints; channel_ranking spoints]) /\
    forall id, rr_versions result !! id =
      if decide (id ∈ rr_point_ids result) then Some (authority id) else None.
Proof.
  intros Hw Hd0 Hs0 Fd Fs Pd Cd Ps Cs Hk Hwt Hl Hf. unfold fuse, kway_new_batched.
  destruct (open_sources_exact (Q := Empty_set) _ w _ EXACT_FUSION_BATCH_SIZE
    (fun E => Hd0 (fmap_nil_inv _ _ E)) ltac:(unfold EXACT_FUSION_BATCH_SIZE; lia)
    (channel_mergeable dpoints Pd Cd) (source_batches w _ _ Fd)) as (dense & -> & Rd & Ed & S1).
  assert (Fs' : Forall2 (source_delivers (kw_memory dense)) sparse_sources (identities <$> spoints)).
  { eapply Forall2_impl; [exact Fs |]. intros source l. by apply source_delivers_step. }
  destruct (open_sources_exact (Q := Empty_set) _ (kw_memory dense) _ EXACT_FUSION_BATCH_SIZE
    (fun E => Hs0 (fmap_nil_inv _ _ E)) ltac:(unfold EXACT_FUSION_BATCH_SIZE; lia)
    (channel_mergeable spoints Ps Cs) (source_batches _ _ _ Fs')) as (sparse & -> & Rs & Es & S2).
  set (pulls := [_; _]).
  destruct (execute_batches_exact pulls (kw_memory sparse)
    [channel_ranking dpoints; channel_ranking spoints] EXACT_FUSION_BATCH_SIZE (limit request)
    (rrf_k request) (request_weights request) session_policy fuel)
    as (x & w' & -> & Ei & Hrec & S3); try done.
  - unfold EXACT_FUSION_BATCH_SIZE. lia.
  - rewrite <- (merged_ranking dpoints Cd), <- (merged_ranking spoints Cs).
    repeat constructor; apply merged_nodup; by apply channel_mergeable.
  - repeat constructor; rewrite <- merged_ranking by done.
    + eexists. split_and!; [|done|done]. by apply ready_step.
    + eexists. split_and!; [|done|done]. destruct sparse. exact Rs.
  - destruct (result_versions_ok (versions w') (ex_point_ids x) ∅) as (v & -> & Hv).
    + apply S3, S2, S1, Hw.
    + exact Hrec.
    + eexists. split; [done |]. simpl. split; [exact Ei |]. intros id. by rewrite Hv, lookup_empty.
Qed.

(** *** The request *)

Definition plan_of (request : ExactRrfRequest) : DenseRankPlan :=
  {| dp_query := dense_query request; dp_policy := dense_policy request |}.

Definition effective_batch_size (request : ExactRrfRequest) : nat :=
  if request_batch_size request =? 0 then DEFAULT_EXACT_BATCH_SIZE else request_batch_size request.

Definition effective_posting_batch_size (request : ExactRrfRequest) : nat :=
  if sparse_posting_batch_size request =? 0 then DEFAULT_SPARSE_POSTING_BATCH_SIZE
  else sparse_posting_batch_size request.

(** The plan a sparse shard is opened with. *)
Definition sparse_plan_of (request : ExactRrfRequest)
    (segments : list (LockedSegment SparseSegment)) : SparseRankPlan :=
  {| sp_name := sparse_using request; sp_query := sparse_query request;
     sp_posting_batch_size := effective_posting_batch_size request;
     requires_idf := existsb segment_idf segments |}.

Lemma effective_batch_size_pos request : 1 <= effective_batch_size request.
Proof. unfold effective_batch_size, DEFAULT_EXACT_BATCH_SIZE. destruct (Nat.eqb_spec (request_batch_size request) 0); lia. Qed.

Lemma effective_posting_pos request : 1 <= effective_posting_batch_size request.
Proof.
  unfold effective_posting_batch_size, DEFAULT_SPARSE_POSTING_BATCH_SIZE.
  destruct (Nat.eqb_spec (sparse_posting_batch_size request) 0); lia.
Qed.

(** What the segments of one shard show to the request. *)
Record shard_shows (request : ExactRrfRequest) (segments : list FrozenSegment)
    (dense sparse : list (list ScoredPoint)) : Prop := {
  sh_dense : Forall2 (dense_shows fuel (plan_of request)) (dense_side segments) dense;
  sh_filled : Forall (fun segment => segment_filled segment = Ok tt) (sparse_side segments);
  sh_sparse : Forall2 (sparse_shows fuel (sparse_plan_of request (sparse_side segments)))
    (sparse_side segments) sparse;
}.

(** Every point of the channel has its authoritative version. *)
Definition authoritative (points : list (list (list ScoredPoint))) : Prop :=
  Forall (fun p => sp_version p = authority (sp_id p)) (concat (concat points)).

Lemma authoritative_shard points s :
  authoritative points -> s ∈ points ->
  Forall (fun p => sp_version p = authority (sp_id p)) (concat s).
Proof.
  intros Ha [i Hi]%list_elem_of_lookup. apply Forall_forall. intros p Hp.
  unfold authoritative in Ha. rewrite Forall_forall in Ha. apply Ha, elem_of_concat_concat. eauto.
Qed.

Lemma dense_channel_opens request segments points :
  Forall2 (dense_shows fuel (plan_of request)) segments points -> agreeing points ->
  Forall (fun p => sp_version p = authority (sp_id p)) (concat points) ->
  opens_channel (open_dense_shard request (effective_batch_size request)) segments points.
Proof.
  intros F2 Ha Hv. split_and!; [done | done |].
  destruct (shard_channel_opens (dense_shows fuel (plan_of request)) (plan_of request)
    (dense_shows_proper fuel _) (dense_opens fuel _) fuel segments points
    (effective_batch_size request) Hfuel (effective_batch_size_pos request) F2 Ha) as (st & E & Hd).
  exists (DenseShard st). split; [|exact Hd]. unfold open_dense_shard.
  assert (E' : ExactShardStream_open fuel segments
    {| dp_query := dense_query request; dp_policy := dense_policy request |}
    (effective_batch_size request) = Returned (Ok st)) by exact E.
  by rewrite E'.
Qed.

Lemma sparse_channel_opens request segments points :
  (N.of_nat (effective_posting_batch_size request) <= U32_MAX)%N ->
  Forall (fun segment => segment_filled segment = Ok tt) segments ->
  Forall2 (sparse_shows fuel (sparse_plan_of request segments)) segments points ->
  agreeing points -> Forall (fun p => sp_version p = authority (sp_id p)) (concat points) ->
  opens_channel (open_sparse_shard request (effective_batch_size request)
    (effective_posting_batch_size request)) segments points.
Proof.
  intros Hmax Hfill F2 Ha Hv. split_and!; [done | done |].
  destruct (shard_channel_opens (sparse_shows fuel _) (sparse_plan_of request segments)
    (sparse_shows_proper fuel _)
    (fun segment points => sparse_opens fuel (sparse_plan_of request segments) segment points
       (effective_posting_pos request) Hmax) fuel segments points
    (effective_batch_size request) Hfuel (effective_batch_size_pos request) F2 Ha) as (st & E & Hd).
  exists (SparseShard st). split; [|exact Hd]. unfold open_sparse_shard, SparseRankPlan_new.
  pose proof (effective_posting_pos request).
  rewrite (proj2 (Nat.eqb_neq _ 0)), build_query_context_ok by (done || lia).
  assert (E' : ExactShardStream_open fuel segments
    {| sp_name := sparse_using request; sp_query := sparse_query request;
       sp_posting_batch_size := effective_posting_batch_size request;
       requires_idf := existsb segment_idf segments |}
    (effective_batch_size request) = Returned (Ok st)) by exact E.
  by rewrite E'.
Qed.

(** The whole request: what every shard shows, in the two channels. *)
Inductive collection_shows (request : ExactRrfRequest) :
    list (list FrozenSegment) -> list (list (list ScoredPoint)) ->
    list (list (list ScoredPoint)) -> Prop :=
  | collection_shows_nil : collection_shows request [] [] []
  | collection_shows_cons segments dense sparse snapshots dpoints spoints :
      shard_shows request segments dense sparse ->
      collection_shows request snapshots dpoints spoints ->
      collection_shows request (segments :: snapshots) (dense :: dpoints) (sparse :: spoints).

Lemma collection_dense request snapshots dpoints spoints :
  collection_shows request snapshots dpoints spoints ->
  Forall (fun s => agreeing s /\ Forall (fun p => sp_version p = authority (sp_id p)) (concat s)) dpoints ->
  Forall2 (opens_channel (open_dense_shard request (effective_batch_size request)))
    (dense_side <$> snapshots) dpoints /\ Forall (Forall proper) dpoints.
Proof.
  induction 1 as [|segments dense sparse snapshots dpoints spoints [Hd _ _] Hc IH]; [done |].
  intros [[Ha Hv] Hrest]%Forall_cons. destruct (IH Hrest). csimpl. split; constructor; try done.
  - by apply dense_channel_opens.
  - clear -Hd. induction Hd; constructor; eauto using dense_shows_proper.
Qed.

Lemma collection_sparse request snapshots dpoints spoints :
  (N.of_nat (effective_posting_batch_size request) <= U32_MAX)%N ->
  collection_shows request snapshots dpoints spoints ->
  Forall (fun s => agreeing s /\ Forall (fun p => sp_version p = authority (sp_id p)) (concat s)) spoints ->
  Forall2 (opens_channel (open_sparse_shard request (effective_batch_size request)
    (effective_posting_batch_size request))) (sparse_side <$> snapshots) spoints /\
  Forall (Forall proper) spoints.
Proof.
  intros Hmax. induction 1 as [|segments dense sparse snapshots dpoints spoints [_ Hf Hs] Hc IH]; [done |].
  intros [[Ha Hv] Hrest]%Forall_cons. destruct (IH Hrest). csimpl. split; constructor; try done.
  - by apply sparse_channel_opens.
  - clear -Hs. induction Hs; constructor; eauto using sparse_shows_proper.
Qed.

Lemma channel_shards points :
  channel_ok points -> authoritative points ->
  Forall (fun s => agreeing s /\ Forall (fun p => sp_version p = authority (sp_id p)) (concat s)) points.
Proof.
  intros Hc Ha. apply Forall_forall. intros s Hs.
  split; [by apply (channel_agree points) | by apply (authoritative_shard points)].
Qed.

Lemma execute_returns request snapshots dpoints spoints :
  snapshots <> [] -> collection_shows request snapshots dpoints spoints ->
  channel_ok dpoints -> authoritative dpoints -> channel_ok spoints -> authoritative spoints ->
  1 <= rrf_k request -> weights_ok (request_weights request) ->
  length (request_weights request) = 2 ->
  (N.of_nat (effective_posting_batch_size request) <= U32_MAX)%N ->
  stream_fuel [channel_ranking dpoints; channel_ranking spoints] <= fuel ->
  exists result, execute snapshots request = Returned (Ok result) /\
    rr_point_ids result = take (limit request) (wrrf_order (rrf_k request) (request_weights request)
      [channel_ranking dpoints; channel_ranking spoints]) /\
    forall id, rr_versions result !! id =
      if decide (id ∈ rr_point_ids result) then Some (authority id) else None.
Proof.
  intros Hne Hshow Cd Ad Cs As Hk Hw Hl Hmax Hf.
  destruct (collection_dense _ _ _ _ Hshow (channel_shards _ Cd Ad)) as [Fd Pd].
  destruct (collection_sparse _ _ _ _ Hmax Hshow (channel_shards _ Cs As)) as [Fs Ps].
  assert (Hw0 : cells_ok empty_cells) by (split; [apply map_Forall_empty | done]).
  destruct (open_shards_exact _ _ _ [] empty_cells Hw0 Fs) as (ss & w1 & E1 & S1 & Rs).
  destruct (open_shards_exact _ _ _ [] w1 (proj1 S1 Hw0) Fd) as (ds & w2 & E2 & S2 & Rd).
  assert (Rs' : Forall2 (source_delivers w2) ss (identities <$> spoints)).
  { eapply Forall2_impl; [exact Rs |]. intros source l. by apply source_delivers_step. }
  unfold execute. fold (effective_batch_size request) (effective_posting_batch_size request).
  rewrite E1, E2. cbn [app]. apply fuse_exact; try done.
  - apply S2, S1, Hw0.
  - intros ->. apply Forall2_nil_inv_l, fmap_nil_inv in Rd as ->.
    by apply Forall2_nil_inv_r, fmap_nil_inv in Fd.
  - intros ->. apply Forall2_nil_inv_l, fmap_nil_inv in Rs as ->.
    by apply Forall2_nil_inv_r, fmap_nil_inv in Fs.
Qed.

(** [C3] Exact hybrid retrieval, end to end: over a frozen collection whose
    segments agree on the points they share, [execute] returns, without
    error or panic, the first [limit] identities of weighted reciprocal rank
    fusion of the two global channel rankings (every visible point by
    descending exact score, ties by identity), and the version of each
    result and of nothing else.  It holds for any number of shards, any
    mixture of segment plans and fallbacks, any batch sizes and weights. *)
Theorem execute_exact request snapshots dpoints spoints :
  snapshots <> [] -> collection_shows request snapshots dpoints spoints ->
  channel_ok dpoints -> authoritative dpoints -> channel_ok spoints -> authoritative spoints ->
  1 <= rrf_k request -> weights_ok (request_weights request) ->
  length (request_weights request) = 2 ->
  (N.of_nat (effective_posting_batch_size request) <= U32_MAX)%N ->
  stream_fuel [channel_ranking dpoints; channel_ranking spoints] <= fuel ->
  exists result, execute snapshots request = Returned (Ok result) /\
    rr_point_ids result = take (limit request) (wrrf_order (rrf_k request) (request_weights request)
      [channel_ranking dpoints; channel_ranking spoints]) /\
    forall id, rr_versions result !! id =
      if decide (id ∈ rr_point_ids result) then Some (authority id) else None.
Proof. apply execute_returns. Qed.
End Session.

(** ** Examples *)

(** Two shards: an original segment, and a proxied one. *)
Definition example_snapshots : list (list FrozenSegment) :=
  [[{| as_dense := Original example_dense_segment; as_sparse := Original example_sparse_segment |}];
   [{| as_dense := Proxy (Ok [[point_of 3 1 5]]) 2 false (Ok tt);
       as_sparse := Proxy (Ok [[point_of 3 1 9; point_of 4 1 6]]) 2 false (Ok tt) |}]].

Definition example_request : ExactRrfRequest :=
  {| dense_query := [f32_one]; sparse_query := example_sparse_query; sparse_using := "text";
     limit := 3; rrf_k := 60; request_weights := replicate 2 f32_one; request_batch_size := 0;
     sparse_posting_batch_size := 2; dense_policy := dp_policy example_dense_plan |}.

Definition example_dense_channel : list (list (list ScoredPoint)) :=
  [[[point_of 10 7 0; point_of 9 7 0; point_of 7 7 1]]; [[point_of 3 1 5]]].

Definition example_sparse_channel : list (list (list ScoredPoint)) :=
  [[[point_of 19 7 8; point_of 17 7 5; point_of 11 7 10]]; [[point_of 3 1 9; point_of 4 1 6]]].

Definition example_authority (id : ExtendedPointId) : N :=
  if decide (id = NumId 3 \/ id = NumId 4) then 1%N else 7%N.

Lemma example_collection_shows :
  collection_shows 20 example_request example_snapshots example_dense_channel example_sparse_channel.
Proof.
  constructor; [|constructor; [|constructor]]; split.
  - apply Forall2_cons. split; [|apply Forall2_nil; exact Logic.I].
    assert (Ep : [point_of 10 7 0; point_of 9 7 0; point_of 7 7 1] =
      dense_points tied_score example_view 4) by (vm_compute; reflexivity).
    rewrite Ep. apply (dense_shows_original _ _ example_dense_segment tied_score 4).
    apply example_dense_readers; [lia | reflexivity | vm_compute; exact Logic.I].
  - apply Forall_cons. split; [reflexivity | apply Forall_nil; exact Logic.I].
  - apply Forall2_cons. split; [|apply Forall2_nil; exact Logic.I].
    apply (example_sparse_ranked 20 2 false); [lia | reflexivity].
  - apply Forall2_cons. split; [|apply Forall2_nil; exact Logic.I]. apply dense_shows_proxy.
    split_and!; [done | split | by vm_compute]; apply (bool_decide_unpack _); vm_compute; exact Logic.I.
  - apply Forall_cons. split; [reflexivity | apply Forall_nil; exact Logic.I].
  - apply Forall2_cons. split; [|apply Forall2_nil; exact Logic.I]. apply sparse_shows_proxy.
    split_and!; [done | split | by vm_compute]; apply (bool_decide_unpack _); vm_compute; exact Logic.I.
Qed.

(** A point that occurs in two shards is found by its identity. *)
Lemma channel_ok_check points :
  agreeing (concat points) ->
  bool_decide (NoDup (concat ((fun s : list (list ScoredPoint) =>
    remove_dups (sp_id <$> concat s)) <$> points))) = true ->
  channel_ok points.
Proof.
  intros Ha Hn%bool_decide_eq_true. split; [done |].
  intros i j si sj p q Hi Hj Hp Hq E. destruct (decide (i = j)) as [|Hne]; [done | exfalso].
  assert (Hx : forall k s x, points !! k = Some s -> x ∈ concat s ->
    exists l, ((fun s : list (list ScoredPoint) => remove_dups (sp_id <$> concat s)) <$> points) !! k
      = Some l /\ sp_id x ∈ l).
  { intros k s x Hk Hx. rewrite list_lookup_fmap, Hk. eexists. split; [done |].
    rewrite elem_of_remove_dups. by apply list_elem_of_fmap_2. }
  destruct (Hx i si p Hi Hp) as (l & Hl & Hpl), (Hx j sj q Hj Hq) as (l' & Hl' & Hql).
  rewrite E in Hpl. revert Hn Hl Hl' Hpl Hql Hne.
  generalize ((fun s : list (list ScoredPoint) => remove_dups (sp_id <$> concat s)) <$> points) as ls.
  generalize (sp_id q) as x. clear. intros x ls Hn. revert i j.
  induction ls as [|l0 ls IH]; intros [|i] [|j] Hi Hj Hx Hy Hne; try done; simpl in *.
  - injection Hi as ->. apply NoDup_app in Hn as (_ & Hd & _). apply (Hd x Hx).
    apply elem_of_concat. eauto.
  - injection Hj as ->. apply NoDup_app in Hn as (_ & Hd & _). apply (Hd x Hy).
    apply elem_of_concat. eauto.
  - apply NoDup_app in Hn as (_ & _ & Hn). apply (IH Hn i j); try done. congruence.
Qed.

Lemma execute_exact_witness :
  exists result, execute 20 (fun _ => false) example_snapshots example_request = Returned (Ok result) /\
    rr_point_ids result = [NumId 3; NumId 11; NumId 7] /\
    rr_versions result !! NumId 3 = Some 1%N /\ rr_versions result !! NumId 19 = None.
Proof.
  destruct (execute_exact 20 (fun _ => false) ltac:(lia) (fun _ => eq_refl) example_authority
    example_request example_snapshots example_dense_channel example_sparse_channel)
    as (result & E & Ei & Hv).
  - discriminate.
  - apply example_collection_shows.
  - apply channel_ok_check; [apply agreeing_check; vm_compute; reflexivity | vm_compute; reflexivity].
  - apply (bool_decide_unpack _). vm_compute. exact Logic.I.
  - apply channel_ok_check; [apply agreeing_check; vm_compute; reflexivity | vm_compute; reflexivity].
  - apply (bool_decide_unpack _). vm_compute. exact Logic.I.
  - simpl. lia.
  - apply weights_ok_ones. lia.
  - reflexivity.
  - vm_compute. discriminate.
  - assert (Ef : stream_fuel [channel_ranking example_dense_channel;
      channel_ranking example_sparse_channel] = 12) by (vm_compute; reflexivity).
    rewrite Ef. lia.
  - exists result. split; [exact E |].
    assert (Ew : take (limit example_request) (wrrf_order (rrf_k example_request)
      (request_weights example_request) [channel_ranking example_dense_channel;
        channel_ranking example_sparse_channel]) = [NumId 3; NumId 11; NumId 7])
      by (vm_compute; reflexivity).
    rewrite Ew in Ei. split; [exact Ei |]. rewrite !Hv, Ei. split; vm_compute; reflexivity.
Defined.

(** A pull that meets a recorded version of another generation. *)
Definition stale_cells : SessionCells :=
  {| versions := {[NumId 3 := 9%N]}; dense_physical := []; sparse_physical := [];
     materialized := (0, 0)%N; unwinding := None |}.

Definition fresh_shard : option ShardSource :=
  match open_dense_shard 5 example_request 2 [Proxy (Ok [[point_of 3 1 5]]) 1 false (Ok tt)] with
  | Returned (Ok stream) => Some {| shard_stream := stream; physical_source := 0 |}
  | _ => None
  end.

Lemma observed_versions_stable_witness :
  exists source r source' w', fresh_shard = Some source /\
    exact_score_batch_stream 5 (fun _ => false)
      (push_physical stale_cells DenseChannel (stream_telemetry (shard_stream source))) source 2
      = (r, (source', w')) /\
    r = Err (InconsistentStorage "exact RRF observed point {} at conflicting versions {} and {}") /\
    versions w' = {[NumId 3 := 9%N]}.
Proof.
  assert (Hs : match fresh_shard with
    | Some source => (exact_score_batch_stream 5 (fun _ => false)
      (push_physical stale_cells DenseChannel (stream_telemetry (shard_stream source))) source 2).1
      = Err (InconsistentStorage "exact RRF observed point {} at conflicting versions {} and {}")
    | None => False end) by (vm_compute; reflexivity).
  destruct fresh_shard as [source|]; [|exfalso; exact Hs].
  destruct (exact_score_batch_stream _ _ _ source 2) as [r [source' w']] eqn:E. simpl in Hs.
  destruct (observed_versions_stable 5 (fun _ => false) _ source 2 r source' w' E) as [_ Hv].
  exists source, r, source', w'. rewrite Hs in Hv. split_and!; done.
Defined.
