(* ===== verification/ExactRrfApi.v ===== *)
(** * The exact fusion endpoint

    src/actix/api/query_api/exact_rrf.rs (validation, resolution of the
    sparse query, the response) over
    lib/collection/src/collection/exact_rrf/service.rs (the frozen local view
    and its cancellation).

    The selection of shards, the reservation of a reader, access checks and
    local text inference are parameters: they give what the code reads from
    them.  The file proves what validation accepts, that a response is the
    exact prefix with ranks and versions whenever the collection keeps its
    contracts, and that an abandoned task is told to stop. *)

From S2P Require Import Prelude Float Order PointId RrfScoring RrfState RrfSession RrfExact.
From S2P Require Import RankStream ShardStream DenseRank SegmentRank Postings SparseVectors BlockMax.
From S2P Require Import SparseIndex ShardRank HybridSession.

(** ** Data *)

Inductive CollectionError : Type :=
  | CollectionService (error : string)
  | CollectionTimeout (operation : string)
  | CollectionOperation (error : OperationError).

Inductive StorageError : Type :=
  | BadInput (description : string)
  | StorageService (description : string)
  | StorageCollection (error : CollectionError).

Record ExactRrfBm25Document : Type := mkExactRrfBm25Document {
  text : string;
  model : string;
  options : option (list (string * string));
}.

Inductive ExactRrfSparseQuery : Type :=
  | QueryVector (vector : SparseVector)
  | QueryDocument (document : ExactRrfBm25Document).

(** [ExactRrfQueryRequest] with its definition; the filter and the shard key
    are part of what the collection reads. *)
Record ExactRrfQueryRequest : Type := mkExactRrfQueryRequest {
  q_dense : list float;
  q_dense_using : string;
  q_sparse : ExactRrfSparseQuery;
  q_sparse_using : string;
  q_k : nat;
  q_weights : float * float;
  q_limit : nat;
}.

Record ExactRrfHit : Type := mkExactRrfHit {
  hit_id : ExtendedPointId;
  hit_rank : nat;
  hit_version : N;
}.

Record ExactRrfGuarantee : Type := mkExactRrfGuarantee {
  scope : string;
  ordered_top_k_exact : bool;
  tie_break : string;
  channel_input : string;
}.

Record ExactRrfExecutionResponse : Type := mkExactRrfExecutionResponse {
  plan : string;
  stop_reason : string;
  er_source_pulls : list nat;
  er_source_exhausted : list bool;
  er_certification_checks : nat;
  corpus_points_observed : nat;
  query_rounds : nat;
  er_source_points_materialized : list N;
  exhaustive_fallback : bool;
}.

Record ExactRrfQueryResponse : Type := mkExactRrfQueryResponse {
  hits : list ExactRrfHit;
  guarantee : ExactRrfGuarantee;
  execution : ExactRrfExecutionResponse;
}.

(** What local inference returns. *)
Inductive VectorPersisted : Type :=
  | PersistedSparse (vector : SparseVector)
  | PersistedDense
  | PersistedMultiDense.

(** ** Operations *)

Definition EXACT_RRF_BM25_OPTION_KEYS : list string :=
  ["k"; "b"; "avg_len"; "tokenizer"; "language"; "lowercase"; "ascii_folding"; "stopwords";
   "stemmer"; "min_token_len"; "max_token_len"].

Definition default_exact_rrf_weights : float * float := (f32_one, f32_one).

(** [windows(2).any(|pair| pair[0] >= pair[1])] *)
Fixpoint has_disorder (indices : list N) : bool :=
  match indices with
  | a :: ((b :: _) as indices) => (b <=? a)%N || has_disorder indices
  | _ => false
  end.

Definition bad_weight (weight : float) : bool := negb (is_finite weight) || flt weight fzero.

(** The checks of the sparse query; [Some] is the error. *)
Definition check_sparse_query (query : ExactRrfSparseQuery) : option StorageError :=
  match query with
  | QueryVector sparse =>
      if negb (length (indices sparse) =? length (values sparse))
         || has_disorder (indices sparse) || existsb bad_weight (values sparse) then
        Some (BadInput
          "exact_rrf Sparse query requires sorted unique indices and finite non-negative impacts")
      else None
  | QueryDocument document =>
      if negb (String.eqb (model document) "qdrant/bm25") then
        Some (BadInput "exact_rrf Sparse document supports only qdrant/bm25")
      else if match options document with
              | Some options =>
                  existsb (fun key => negb (existsb (String.eqb key) EXACT_RRF_BM25_OPTION_KEYS))
                    options.*1
              | None => false
              end then
        Some (BadInput "exact_rrf Sparse document contains an unknown BM25 option")
      else None
  end.

(** [validate_exact_rrf_request]; [None] is [Ok(())]. *)
Definition validate_exact_rrf_request (request : ExactRrfQueryRequest) : option StorageError :=
  if q_limit request =? 0 then Some (BadInput "exact_rrf limit must be positive")
  else if q_k request =? 0 then Some (BadInput "exact_rrf k must be positive")
  else if bool_decide (q_dense request = [])
          || existsb (fun value => negb (is_finite value)) (q_dense request) then
    Some (BadInput "exact_rrf Dense query must be non-empty and finite")
  else
    match check_sparse_query (q_sparse request) with
    | Some error => Some error
    | None =>
        let weights := [(q_weights request).1; (q_weights request).2] in
        if existsb bad_weight weights || negb (existsb (fun weight => flt fzero weight) weights) then
          Some (BadInput "exact_rrf weights must be finite and non-negative with one positive value")
        else None
    end.

(** [resolve_exact_sparse_query]; [search_embed] is configuration, inference
    and embedding of a document. *)
Definition resolve_exact_sparse_query
    (search_embed : ExactRrfBm25Document -> VectorPersisted + StorageError)
    (query : ExactRrfSparseQuery) : SparseVector + StorageError :=
  match query with
  | QueryVector vector => inl vector
  | QueryDocument document =>
      match search_embed document with
      | inl (PersistedSparse vector) => inl vector
      | inl (PersistedDense | PersistedMultiDense) =>
          inr (StorageService "exact_rrf local BM25 inference returned a non-Sparse vector")
      | inr error => inr error
      end
  end.

(** [require_default_consistency]; [None] is [Ok(())]. *)
Definition require_default_consistency (explicit_consistency : bool) : option StorageError :=
  if explicit_consistency then
    Some (BadInput
      "exact_rrf explicit replica consistency is unsupported; use the frozen local Shard view")
  else None.

(** *** The service *)

(** [ExactRrfCancellation], with the shared flag. *)
Record ExactRrfCancellation : Type := mkExactRrfCancellation {
  flag : bool;
  armed : bool;
}.

Definition ExactRrfCancellation_new (stopped : bool) : ExactRrfCancellation :=
  {| flag := stopped; armed := true |}.

Definition disarm (c : ExactRrfCancellation) : ExactRrfCancellation :=
  {| flag := flag c; armed := false |}.

(** [Drop]: the value of the flag afterwards. *)
Definition drop_cancellation (c : ExactRrfCancellation) : bool :=
  if armed c then true else flag c.

(** The snapshots of the selected shards, in order. *)
Fixpoint collect_snapshots
    (targets : list (option (list FrozenSegment) + CollectionError))
    : list (list FrozenSegment) + CollectionError :=
  match targets with
  | [] => inl []
  | inr error :: _ => inr error
  | inl None :: _ =>
      inr (CollectionService
        "exact RRF requires a readable local snapshot for every selected Shard")
  | inl (Some snapshot) :: targets =>
      match collect_snapshots targets with
      | inl snapshots => inl (snapshot :: snapshots)
      | inr error => inr error
      end
  end.

Section Endpoint.
Context (fuel : nat) (stopped_at : nat -> bool).

(** [ExactRrfService::execute]: the result, and the cancellation flag when the
    call is over.  [selected] is the selection with the read set of each
    shard, [reserved] whether the session could be reserved, [elapsed]
    whether the timeout elapsed before the task ended. *)
Definition service_execute
    (selected : list (option (list FrozenSegment) + CollectionError) + CollectionError)
    (reserved elapsed : bool) (request : ExactRrfRequest)
    : (ExactRrfResult + CollectionError) * bool :=
  match selected with
  | inr error => (inr error, false)
  | inl targets =>
      match collect_snapshots targets with
      | inr error => (inr error, false)
      | inl snapshots =>
          if negb reserved then
            (inr (CollectionService "exact RRF cannot reserve its local rank session"), false)
          else
            let cancellation := ExactRrfCancellation_new false in
            if elapsed then (inr (CollectionTimeout "exact RRF"), drop_cancellation cancellation)
            else
              match execute fuel stopped_at snapshots request with
              | Panicked | OutOfFuel =>
                  (inr (CollectionService "exact RRF task failed: {error}"),
                   drop_cancellation cancellation)
              | Returned (Err e) => (inr (CollectionOperation e), drop_cancellation cancellation)
              | Returned (Ok result) =>
                  (inl {| rr_point_ids := rr_point_ids result; rr_versions := rr_versions result;
                          rr_stop_reason := rr_stop_reason result;
                          rr_source_pulls := rr_source_pulls result;
                          rr_source_exhausted := rr_source_exhausted result;
                          rr_certification_checks := rr_certification_checks result;
                          source_points_materialized := source_points_materialized result;
                          source_batch_requests := source_batch_requests result;
                          source_points_received := source_points_received result;
                          rr_exhaustive_fallback_sources := rr_exhaustive_fallback_sources result;
                          rr_visible_point_copies := rr_visible_point_copies result;
                          shard_count := length snapshots |},
                   drop_cancellation (disarm cancellation))
              end
      end
  end.

(** *** The response *)

Fixpoint number_hits (versions : gmap ExtendedPointId N) (rank : nat) (ids : list ExtendedPointId)
    : list ExactRrfHit + StorageError :=
  match ids with
  | [] => inl []
  | id :: ids =>
      match versions !! id with
      | None => inr (StorageService "exact_rrf lost the authoritative version for point {id}")
      | Some version =>
          match number_hits versions (S rank) ids with
          | inl hits =>
              inl ({| hit_id := id; hit_rank := rank + 1; hit_version := version |} :: hits)
          | inr error => inr error
          end
      end
  end.

Definition response_of (result : ExactRrfResult) : ExactRrfQueryResponse + StorageError :=
  match number_hits (rr_versions result) 0 (rr_point_ids result) with
  | inr error => inr error
  | inl hits =>
      inl {| hits := hits;
             guarantee :=
               {| scope := "selected-local-shards-frozen-segment-view";
                  ordered_top_k_exact := true; tie_break := "point-identity-ascending";
                  channel_input := "exact-channel-rank-streams" |};
             execution :=
               {| plan := "exact-rank-session-v1";
                  stop_reason :=
                    match rr_stop_reason result with
                    | TopKFixed => "top-k-fixed"
                    | AllSourcesExhausted => "all-sources-exhausted"
                    end;
                  er_source_pulls := rr_source_pulls result;
                  er_source_exhausted := rr_source_exhausted result;
                  er_certification_checks := rr_certification_checks result;
                  corpus_points_observed := rr_visible_point_copies result;
                  query_rounds := 1;
                  er_source_points_materialized := source_points_materialized result;
                  exhaustive_fallback := 0 <? rr_exhaustive_fallback_sources result |} |}
  end.

(** The request of the collection. *)
Definition collection_request (request : ExactRrfQueryRequest) (sparse : SparseVector)
    : ExactRrfRequest :=
  {| dense_query := q_dense request; sparse_query := sparse;
     sparse_using := q_sparse_using request; limit := q_limit request; rrf_k := q_k request;
     request_weights := [(q_weights request).1; (q_weights request).2];
     request_batch_size := DEFAULT_EXACT_BATCH_SIZE;
     sparse_posting_batch_size := DEFAULT_SPARSE_POSTING_BATCH_SIZE;
     dense_policy := DenseExecutionPolicy_default |}.

(** [execute_exact_rrf_request]; [access] is the outcome of the strict mode
    and access checks and of the lookup of the collection. *)
Definition execute_exact_rrf_request
    (search_embed : ExactRrfBm25Document -> VectorPersisted + StorageError)
    (access : option StorageError)
    (selected : list (option (list FrozenSegment) + CollectionError) + CollectionError)
    (reserved elapsed explicit_consistency : bool) (request : ExactRrfQueryRequest)
    : ExactRrfQueryResponse + StorageError :=
  match validate_exact_rrf_request request with
  | Some error => inr error
  | None =>
      match require_default_consistency explicit_consistency with
      | Some error => inr error
      | None =>
          match resolve_exact_sparse_query search_embed (q_sparse request) with
          | inr error => inr error
          | inl sparse =>
              match access with
              | Some error => inr error
              | None =>
                  match (service_execute selected reserved elapsed
                           (collection_request request sparse)).1 with
                  | inr error => inr (StorageCollection error)
                  | inl result => response_of result
                  end
              end
          end
      end
  end.
End Endpoint.

(** ** Validation *)

Lemma has_disorder_sorted l : has_disorder l = negb (is_sorted l).
Proof.
  induction l as [|a [|b l] IH]; [done | done |].
  change (has_disorder (a :: b :: l)) with ((b <=? a)%N || has_disorder (b :: l)).
  change (is_sorted (a :: b :: l)) with ((a <? b)%N && is_sorted (b :: l)).
  rewrite IH, negb_andb. f_equal. by rewrite N.leb_antisym.
Qed.

Lemma bad_weight_spec w : bad_weight w = negb (weight_valid w).
Proof. unfold bad_weight, weight_valid. by destruct (is_finite w), (flt w fzero). Qed.

Lemma existsb_bad ws : existsb bad_weight ws = false <-> Forall (fun w => weight_valid w = true) ws.
Proof.
  rewrite Forall_forall. split.
  - intros E w Hw. pose proof (existsb_false_elem bad_weight ws w E Hw) as Hb.
    rewrite bad_weight_spec in Hb. by destruct (weight_valid w).
  - intros Hw. apply not_true_iff_false. intros (w & Hin%list_elem_of_In & E)%existsb_exists.
    by rewrite bad_weight_spec, (Hw w Hin) in E.
Qed.

(** What an accepted request looks like. *)
Record acceptable (request : ExactRrfQueryRequest) : Prop := {
  ac_limit : 1 <= q_limit request;
  ac_k : 1 <= q_k request;
  ac_dense : q_dense request <> [] /\ Forall (fun x => is_finite x = true) (q_dense request);
  ac_sparse : match q_sparse request with
    | QueryVector v => length (indices v) = length (values v) /\ StronglySorted N.lt (indices v) /\
        Forall (fun w => weight_valid w = true) (values v)
    | QueryDocument d => model d = "qdrant/bm25" /\
        forall key, key ∈ (default [] (options d)).*1 -> key ∈ EXACT_RRF_BM25_OPTION_KEYS
    end;
  ac_weights : weight_valid (q_weights request).1 = true /\
    weight_valid (q_weights request).2 = true /\
    (flt fzero (q_weights request).1 = true \/ flt fzero (q_weights request).2 = true);
}.

Lemma check_sparse_query_spec query :
  check_sparse_query query = None <->
  match query with
  | QueryVector v => length (indices v) = length (values v) /\ StronglySorted N.lt (indices v) /\
      Forall (fun w => weight_valid w = true) (values v)
  | QueryDocument d => model d = "qdrant/bm25" /\
      forall key, key ∈ (default [] (options d)).*1 -> key ∈ EXACT_RRF_BM25_OPTION_KEYS
  end.
Proof.
  destruct query as [v|d]; unfold check_sparse_query.
  - rewrite <- existsb_bad, <- is_sorted_spec, has_disorder_sorted.
    destruct (Nat.eqb_spec (length (indices v)) (length (values v))); simpl; [|naive_solver].
    destruct (is_sorted (indices v)); simpl; [|naive_solver].
    by destruct (existsb bad_weight (values v)); simpl; naive_solver.
  - destruct (String.eqb_spec (model d) "qdrant/bm25") as [->|]; cbn [negb]; [|naive_solver].
    set (keys := (default [] (options d)).*1).
    assert (Hk : (match options d with
      | Some options => existsb
          (fun key => negb (existsb (String.eqb key) EXACT_RRF_BM25_OPTION_KEYS)) options.*1
      | None => false end) = existsb
          (fun key => negb (existsb (String.eqb key) EXACT_RRF_BM25_OPTION_KEYS)) keys)
      by (unfold keys; by destruct (options d)).
    rewrite Hk. clear Hk. clearbody keys.
    assert (Hin : forall key, existsb (String.eqb key) EXACT_RRF_BM25_OPTION_KEYS = true <->
      key ∈ EXACT_RRF_BM25_OPTION_KEYS).
    { intros key. rewrite existsb_exists. setoid_rewrite list_elem_of_In. split.
      - by intros (x & Hx & ->%String.eqb_eq).
      - intros Hx. exists key. by rewrite String.eqb_refl. }
    destruct (existsb _ keys) eqn:E.
    + split; [done |]. intros [_ Hall]. apply existsb_exists in E as (key & Hkey%list_elem_of_In & E).
      apply Hall, Hin in Hkey. by rewrite Hkey in E.
    + split; [|done]. intros _. split; [done |]. intros key Hkey. apply Hin.
      pose proof (existsb_false_elem _ _ key E Hkey) as Hf. by apply negb_false_iff in Hf.
Qed.

Lemma validate_iff request :
  validate_exact_rrf_request request = None <-> acceptable request.
Proof.
  unfold validate_exact_rrf_request.
  assert (Hd : bool_decide (q_dense request = [])
      || existsb (fun value => negb (is_finite value)) (q_dense request) = false <->
      q_dense request <> [] /\ Forall (fun x => is_finite x = true) (q_dense request)).
  { rewrite orb_false_iff, bool_decide_eq_false, Forall_forall. split; intros [? Hf]; (split; [done |]).
    - intros x Hx. pose proof (existsb_false_elem _ _ x Hf Hx) as E. by apply negb_false_iff in E.
    - apply not_true_iff_false. intros (x & Hx%list_elem_of_In & E)%existsb_exists.
      by rewrite (Hf x Hx) in E. }
  assert (Hw : existsb bad_weight [(q_weights request).1; (q_weights request).2]
      || negb (existsb (fun weight => flt fzero weight) [(q_weights request).1; (q_weights request).2])
      = false <-> weight_valid (q_weights request).1 = true /\
    weight_valid (q_weights request).2 = true /\
    (flt fzero (q_weights request).1 = true \/ flt fzero (q_weights request).2 = true)).
  { rewrite orb_false_iff, existsb_bad, !Forall_cons, negb_false_iff. simpl.
    rewrite orb_true_iff, orb_false_r. naive_solver. }
  pose proof (check_sparse_query_spec (q_sparse request)) as Hs. split.
  - destruct (Nat.eqb_spec (q_limit request) 0); [done |].
    destruct (Nat.eqb_spec (q_k request) 0); [done |].
    destruct (_ || existsb (fun value => negb (is_finite value)) _); [done |].
    destruct (check_sparse_query _); [done |].
    destruct (_ || negb _) eqn:E; [done |]. intros _.
    split; [lia | lia | by apply Hd | by apply Hs | by apply Hw].
  - intros [H1 H2 H3 H4 H5]. rewrite (proj2 (Nat.eqb_neq _ 0)), (proj2 (Nat.eqb_neq _ 0)) by lia.
    apply Hd in H3. apply Hs in H4. apply Hw in H5. by rewrite H3, H4, H5.
Qed.


Lemma validate_errors request error :
  validate_exact_rrf_request request = Some error -> exists d, error = BadInput d.
Proof.
  assert (Hs : forall q e, check_sparse_query q = Some e -> exists d, e = BadInput d).
  { intros [v|d] e; unfold check_sparse_query; repeat case_match; intros [= <-]; eauto. }
  unfold validate_exact_rrf_request. repeat case_match; intros [= <-]; eauto.
Qed.

(** ** The response *)

Lemma number_hits_ok versions rank ids authority :
  (forall id, id ∈ ids -> versions !! id = Some (authority id)) ->
  number_hits versions rank ids = inl (imap (fun i id =>
    {| hit_id := id; hit_rank := rank + i + 1; hit_version := authority id |}) ids).
Proof.
  revert rank. induction ids as [|id ids IH]; intros rank Hv; simpl; [done |].
  rewrite (Hv id) by left. rewrite IH by (intros id' Hid; apply Hv; by right).
  rewrite Nat.add_0_r. do 2 f_equal. apply imap_ext. intros i id' _. simpl. f_equal. lia.
Qed.

Section Exact.
Context (fuel : nat) (stopped_at : nat -> bool).
Context (search_embed : ExactRrfBm25Document -> VectorPersisted + StorageError).

Lemma collect_snapshots_ok snapshots :
  collect_snapshots (inl ∘ Some <$> snapshots) = inl snapshots.
Proof. induction snapshots as [|s snapshots IH]; csimpl; [done | by rewrite IH]. Qed.

(** [C4] The promise of the endpoint: an accepted request, over shards that
    are all readable locally and keep the contracts of [execute_exact], is
    answered with the first [limit] points of weighted reciprocal rank
    fusion of the two exact global rankings, numbered from one, each with
    its authoritative version, under the guarantee [ordered_top_k_exact]. *)
Theorem endpoint_exact request sparse snapshots dpoints spoints authority :
  acceptable request -> wf binary32 (q_weights request).1 -> wf binary32 (q_weights request).2 ->
  resolve_exact_sparse_query search_embed (q_sparse request) = inl sparse ->
  snapshots <> [] -> 2 <= fuel -> (forall n, stopped_at n = false) ->
  collection_shows fuel (collection_request request sparse) snapshots dpoints spoints ->
  channel_ok dpoints -> authoritative authority dpoints ->
  channel_ok spoints -> authoritative authority spoints ->
  stream_fuel [channel_ranking dpoints; channel_ranking spoints] <= fuel ->
  exists response,
    execute_exact_rrf_request fuel stopped_at search_embed None
      (inl (inl ∘ Some <$> snapshots)) true false false request = inl response /\
    hits response = imap (fun i id =>
      {| hit_id := id; hit_rank := i + 1; hit_version := authority id |})
      (take (q_limit request) (wrrf_order (q_k request)
        [(q_weights request).1; (q_weights request).2]
        [channel_ranking dpoints; channel_ranking spoints])) /\
    ordered_top_k_exact (guarantee response) = true.
Proof.
  intros Hac Hw1 Hw2 Hres Hne Hf Hrun Hshow Cd Ad Cs As Hsf.
  assert (Hv : validate_exact_rrf_request request = None) by (by apply validate_iff).
  unfold execute_exact_rrf_request. rewrite Hv, Hres. simpl. rewrite collect_snapshots_ok.
  destruct Hac as [_ Hk _ _ (V1 & V2 & _)].
  destruct (execute_returns fuel stopped_at Hf Hrun authority (collection_request request sparse)
    snapshots dpoints spoints) as (result & -> & Ei & Hver); try done.
  { split; [done |]. by repeat constructor. }
  unfold response_of. simpl. rewrite (number_hits_ok _ 0 _ authority).
  - eexists. split; [done |]. simpl. by rewrite Ei.
  - intros id Hid. rewrite Hver. by case_decide.
Qed.

(** [C40] Errors of the endpoint: whatever the collection holds, a request
    that is not acceptable, or that asks for a replica consistency, is
    refused as bad input before anything is read; a selected shard without a
    readable local snapshot is an error and never a partial answer; and once
    the task has started, an answer leaves the cancellation flag down while
    every failure, a timeout included, raises it. *)
Theorem endpoint_fails_closed access selected reserved elapsed explicit_consistency request :
  (~ acceptable request \/ explicit_consistency = true ->
   exists d, execute_exact_rrf_request fuel stopped_at search_embed access selected reserved elapsed
     explicit_consistency request = inr (BadInput d)) /\
  (forall r targets, inl None ∈ targets -> exists e,
     service_execute fuel stopped_at (inl targets) reserved elapsed r = (inr e, false)) /\
  (forall r snapshots,
     let '(result, cancelled) := service_execute fuel stopped_at (inl (inl ∘ Some <$> snapshots))
       true elapsed r in
     match result with inl _ => cancelled = false | inr _ => cancelled = true end).
Proof.
  split_and!.
  - intros Hbad. unfold execute_exact_rrf_request.
    destruct (validate_exact_rrf_request request) as [error|] eqn:E.
    + destruct (validate_errors request error E) as [d ->]. by exists d.
    + destruct Hbad as [Hn| ->]; [by apply validate_iff in E | by eexists].
  - intros r targets Hin. unfold service_execute.
    destruct (collect_snapshots targets) as [snapshots|error] eqn:E; [|by exists error].
    exfalso. revert snapshots E. induction targets as [|t targets IH]; [by apply elem_of_nil in Hin |].
    intros snapshots. simpl. apply elem_of_cons in Hin as [<-|Hin]; [done |].
    destruct t as [[s|]|]; [|done|done]. destruct (collect_snapshots targets) as [l|]; [|done].
    intros _. by apply (IH Hin l).
  - intros r snapshots. unfold service_execute. rewrite collect_snapshots_ok. simpl.
    destruct elapsed; [done |]. by destruct (execute fuel stopped_at snapshots r) as [[result|e]| |].
Qed.
End Exact.

(** ** Examples *)

(** Local inference that answers with the query of the examples. *)
Definition example_document : ExactRrfBm25Document :=
  {| text := "fox"; model := "qdrant/bm25"; options := Some [("k", "1.2")] |}.

Definition example_document_request : ExactRrfQueryRequest :=
  {| q_dense := [f32_one]; q_dense_using := "dense"; q_sparse := QueryDocument example_document;
     q_sparse_using := "text"; q_k := 60; q_weights := default_exact_rrf_weights; q_limit := 3 |}.

Definition example_embed (document : ExactRrfBm25Document) : VectorPersisted + StorageError :=
  inl (PersistedSparse example_sparse_query).

Lemma example_endpoint_shows :
  collection_shows 20 (collection_request example_document_request example_sparse_query)
    example_snapshots example_dense_channel example_sparse_channel.
Proof.
  constructor; [|constructor; [|constructor]]; split.
  - apply Forall2_cons. split; [|apply Forall2_nil; exact Logic.I].
    assert (Ep : [point_of 10 7 0; point_of 9 7 0; point_of 7 7 1] =
      dense_points tied_score example_view 4) by (vm_compute; reflexivity).
    rewrite Ep. apply (dense_shows_original _ _ example_dense_segment tied_score 4).
    apply example_dense_readers; [lia | reflexivity | vm_compute; exact Logic.I].
  - apply Forall_cons. split; [reflexivity | apply Forall_nil; exact Logic.I].
  - apply Forall2_cons. split; [|apply Forall2_nil; exact Logic.I].
    apply (example_sparse_ranked 20 _ false); [lia | reflexivity].
  - apply Forall2_cons. split; [|apply Forall2_nil; exact Logic.I]. apply dense_shows_proxy.
    split_and!; [done | split | by vm_compute]; apply (bool_decide_unpack _); vm_compute; exact Logic.I.
  - apply Forall_cons. split; [reflexivity | apply Forall_nil; exact Logic.I].
  - apply Forall2_cons. split; [|apply Forall2_nil; exact Logic.I]. apply sparse_shows_proxy.
    split_and!; [done | split | by vm_compute]; apply (bool_decide_unpack _); vm_compute; exact Logic.I.
Qed.

Lemma endpoint_exact_witness :
  exists response,
    execute_exact_rrf_request 20 (fun _ => false) example_embed None
      (inl (inl ∘ Some <$> example_snapshots)) true false false example_document_request
      = inl response /\
    hits response =
      [{| hit_id := NumId 3; hit_rank := 1; hit_version := 1 |};
       {| hit_id := NumId 11; hit_rank := 2; hit_version := 7 |};
       {| hit_id := NumId 7; hit_rank := 3; hit_version := 7 |}].
Proof.
  destruct (endpoint_exact 20 (fun _ => false) example_embed example_document_request
    example_sparse_query example_snapshots example_dense_channel example_sparse_channel
    example_authority) as (response & E & Eh & _).
  - apply validate_iff. vm_compute. reflexivity.
  - apply (of_Z_wf binary32).
  - apply (of_Z_wf binary32).
  - reflexivity.
  - discriminate.
  - lia.
  - reflexivity.
  - apply example_endpoint_shows.
  - apply channel_ok_check; [apply agreeing_check; vm_compute; reflexivity | vm_compute; reflexivity].
  - apply (bool_decide_unpack _). vm_compute. exact Logic.I.
  - apply channel_ok_check; [apply agreeing_check; vm_compute; reflexivity | vm_compute; reflexivity].
  - apply (bool_decide_unpack _). vm_compute. exact Logic.I.
  - assert (Ef : stream_fuel [channel_ranking example_dense_channel;
      channel_ranking example_sparse_channel] = 12) by (vm_compute; reflexivity).
    rewrite Ef. lia.
  - exists response. split; [exact E |]. rewrite Eh. vm_compute. reflexivity.
Defined.
