(* ===== verification/MachineInt.v ===== *)
(** * Machine integers and bytes

    Unsigned integers of a width are naturals below a power of two.  [+], [-]
    and [*] of Rust are the checked operations: [None] is the panic of an
    overflow, so that a theorem that ends in [Some] says that no overflow
    happens and that builds without overflow checks compute the same.  Shifts
    lose the bits above the width and panic when the distance reaches it.
    Bytes are naturals below 256, byte strings are little-endian numbers. *)

From S2P Require Import Prelude.

Local Open Scope N_scope.

(** ** Arithmetic at a width *)

Definition checked_add (w a b : N) : option N := if a + b <? 2 ^ w then Some (a + b) else None.
Definition checked_sub (a b : N) : option N := if b <=? a then Some (a - b) else None.
Definition checked_mul (w a b : N) : option N := if a * b <? 2 ^ w then Some (a * b) else None.

Definition wrapping_add (w a b : N) : N := (a + b) mod 2 ^ w.

(** [<<] and [>>] *)
Definition shl (w a n : N) : option N := if n <? w then Some (N.shiftl a n mod 2 ^ w) else None.
Definition shr (w a n : N) : option N := if n <? w then Some (N.shiftr a n) else None.

Definition leading_zeros (w a : N) : N := w - N.size a.
Definition div_ceil (a b : N) : N := (a + (b - 1)) / b.

(** ** Bytes *)

Definition byte_ok (b : N) : Prop := b < 256.
Abbreviation bytes_ok := (Forall byte_ok).

(** The number of bits of a byte string. *)
Definition nbits (l : list N) : N := 8 * N.of_nat (length l).

Fixpoint to_le_bytes (n : nat) (v : N) : list N :=
  match n with
  | O => []
  | S n' => v mod 256 :: to_le_bytes n' (v / 256)
  end.

Fixpoint from_le_bytes (l : list N) : N :=
  match l with
  | [] => 0
  | b :: l' => b + 256 * from_le_bytes l'
  end.

(** ** Powers of two *)

Lemma pow2_pos n : 0 < 2 ^ n.
Proof. apply N.neq_0_lt_0, N.pow_nonzero. lia. Qed.

Lemma pow2_nonzero n : 2 ^ n <> 0.
Proof. apply N.pow_nonzero. lia. Qed.

Lemma pow2_le a b : a <= b -> 2 ^ a <= 2 ^ b.
Proof. apply N.pow_le_mono_r. lia. Qed.

Lemma pow2_split a b : b <= a -> 2 ^ a = 2 ^ b * 2 ^ (a - b).
Proof. intros H. rewrite <- N.pow_add_r. f_equal. lia. Qed.

Create HintDb machine.
#[export] Hint Resolve pow2_pos pow2_nonzero : machine.

Lemma checked_add_some w a b : a + b < 2 ^ w -> checked_add w a b = Some (a + b).
Proof. intros H. unfold checked_add. by apply N.ltb_lt in H as ->. Qed.

Lemma checked_sub_some a b : b <= a -> checked_sub a b = Some (a - b).
Proof. intros H. unfold checked_sub. by apply N.leb_le in H as ->. Qed.

Lemma checked_mul_some w a b : a * b < 2 ^ w -> checked_mul w a b = Some (a * b).
Proof. intros H. unfold checked_mul. by apply N.ltb_lt in H as ->. Qed.

Lemma shl_some w a n : n < w -> shl w a n = Some (a * 2 ^ n mod 2 ^ w).
Proof. intros H. unfold shl. apply N.ltb_lt in H as ->. by rewrite N.shiftl_mul_pow2. Qed.

Lemma shr_some w a n : n < w -> shr w a n = Some (a / 2 ^ n).
Proof. intros H. unfold shr. apply N.ltb_lt in H as ->. by rewrite N.shiftr_div_pow2. Qed.

(** Joining bit fields: the low field is below [2 ^ n], the high one is a
    multiple of it. *)
Lemma lor_disjoint a b n : a < 2 ^ n -> N.lor a (b * 2 ^ n) = a + b * 2 ^ n.
Proof.
  intros Ha. assert (Hz : N.land a (b * 2 ^ n) = 0).
  { apply N.bits_inj_0. intros i. rewrite N.land_spec. destruct (N.lt_ge_cases i n).
    - rewrite N.mul_pow2_bits_low by done. apply andb_false_r.
    - destruct (decide (a = 0)) as [-> |]; [by rewrite N.bits_0 |].
      rewrite N.bits_above_log2; [done |]. apply N.lt_le_trans with n; [| done].
      apply N.log2_lt_pow2; [lia | done]. }
  rewrite <- N.lxor_lor by done. symmetry. by apply N.add_nocarry_lxor.
Qed.

Lemma mod_pow2_add a b n m : m <= n -> a < 2 ^ m ->
  (a + b * 2 ^ m) mod 2 ^ n = a + (b mod 2 ^ (n - m)) * 2 ^ m.
Proof.
  intros Hm Ha. pose proof (pow2_pos m). pose proof (pow2_pos (n - m)).
  symmetry. apply (N.mod_unique _ _ (b / 2 ^ (n - m))).
  - rewrite (pow2_split n m) by done.
    assert (b mod 2 ^ (n - m) < 2 ^ (n - m)) by (apply N.mod_lt; lia). nia.
  - rewrite (pow2_split n m) by done. pose proof (N.div_mod b (2 ^ (n - m)) ltac:(lia)). nia.
Qed.

Lemma mul_pow2_mod b n m : m <= n -> b * 2 ^ m mod 2 ^ n = (b mod 2 ^ (n - m)) * 2 ^ m.
Proof.
  intros Hm. pose proof (mod_pow2_add 0 b n m Hm (pow2_pos m)) as H. by rewrite !N.add_0_l in H.
Qed.

Lemma div_pow2_lt a n m : m <= n -> a < 2 ^ n -> a / 2 ^ m < 2 ^ (n - m).
Proof.
  intros Hm Ha. apply N.Div0.div_lt_upper_bound.
  by rewrite <- (pow2_split n m).
Qed.

Lemma mod_mod_le a n m : m <= n -> (a mod 2 ^ n) mod 2 ^ m = a mod 2 ^ m.
Proof.
  intros Hm. rewrite (pow2_split n m) by done.
  rewrite N.Div0.mod_mul_r, N.mul_comm, N.Div0.mod_add. apply N.Div0.mod_mod.
Qed.

Lemma mod_small_le a n m : a < 2 ^ m -> m <= n -> a mod 2 ^ n = a.
Proof. intros Ha Hm. apply N.mod_small. pose proof (pow2_le _ _ Hm). lia. Qed.

(** Taking fields apart: below and above the end of the low field. *)
Lemma field_mod_low b x n m : m <= n -> (b + 2 ^ n * x) mod 2 ^ m = b mod 2 ^ m.
Proof.
  intros Hm. rewrite (pow2_split n m) by done.
  replace (b + _) with (b + 2 ^ (n - m) * x * 2 ^ m) by ring. apply N.Div0.mod_add.
Qed.

Lemma field_div_low b x n m : m <= n -> (b + 2 ^ n * x) / 2 ^ m = b / 2 ^ m + 2 ^ (n - m) * x.
Proof.
  intros Hm. rewrite (pow2_split n m) by done.
  replace (b + _) with (b + 2 ^ (n - m) * x * 2 ^ m) by ring.
  apply N.div_add, pow2_nonzero.
Qed.

Lemma field_mod_high b x n m : b < 2 ^ n -> n <= m ->
  (b + 2 ^ n * x) mod 2 ^ m = b + 2 ^ n * (x mod 2 ^ (m - n)).
Proof. intros Hb Hn. rewrite !(N.mul_comm (2 ^ n)). by apply mod_pow2_add. Qed.

Lemma field_div_high b x n m : b < 2 ^ n -> n <= m -> (b + 2 ^ n * x) / 2 ^ m = x / 2 ^ (m - n).
Proof.
  intros Hb Hn. rewrite (pow2_split m n) by done.
  rewrite <- N.Div0.div_div, N.mul_comm, N.div_add by apply pow2_nonzero.
  by rewrite (N.div_small b).
Qed.

(** ** Little-endian bytes *)

Lemma length_to_le_bytes n v : length (to_le_bytes n v) = n.
Proof. revert v. induction n; intros v; simpl; auto. Qed.

Lemma to_le_bytes_ok n v : bytes_ok (to_le_bytes n v).
Proof.
  revert v. induction n; intros v; constructor; [| done].
  apply N.mod_lt. done.
Qed.

Lemma nbits_cons b l : nbits (b :: l) = 8 + nbits l.
Proof. unfold nbits. csimpl. lia. Qed.

Lemma nbits_app l k : nbits (l ++ k) = nbits l + nbits k.
Proof. unfold nbits. rewrite length_app. lia. Qed.

Lemma from_le_bytes_app l k :
  from_le_bytes (l ++ k) = from_le_bytes l + 2 ^ nbits l * from_le_bytes k.
Proof.
  induction l as [| b l IH].
  - unfold nbits. simpl. lia.
  - simpl. rewrite IH, nbits_cons, N.pow_add_r. change (2 ^ 8) with 256. lia.
Qed.

Lemma from_le_bytes_lt l : bytes_ok l -> from_le_bytes l < 2 ^ nbits l.
Proof.
  induction 1 as [| b l Hb _ IH]; [done |].
  cbn [from_le_bytes]. rewrite nbits_cons, N.pow_add_r. change (2 ^ 8) with 256.
  unfold byte_ok in Hb. lia.
Qed.

Lemma from_to_le_bytes n v : from_le_bytes (to_le_bytes n v) = v mod 2 ^ (8 * N.of_nat n).
Proof.
  revert v. induction n as [| n IH]; intros v; [by rewrite N.mod_1_r |].
  cbn [to_le_bytes from_le_bytes]. rewrite IH.
  replace (8 * N.of_nat (S n)) with (8 + 8 * N.of_nat n) by lia.
  rewrite N.pow_add_r. change (2 ^ 8) with 256. by rewrite N.Div0.mod_mul_r.
Qed.

Lemma to_from_le_bytes l : bytes_ok l -> to_le_bytes (length l) (from_le_bytes l) = l.
Proof.
  induction 1 as [| b l Hb _ IH]; [done |]. cbn [length to_le_bytes from_le_bytes].
  unfold byte_ok in Hb. f_equal.
  - rewrite N.mul_comm, N.Div0.mod_add. by apply N.mod_small.
  - rewrite N.mul_comm, N.div_add, N.div_small by lia. done.
Qed.

(** The leading bytes hold the low bits. *)
Lemma take_to_le_bytes k n v : (k <= n)%nat -> take k (to_le_bytes n v) = to_le_bytes k v.
Proof.
  revert n v. induction k as [| k IH]; intros [| n] v Hk; try done; [lia |].
  cbn [to_le_bytes firstn]. f_equal. apply IH. lia.
Qed.

Lemma div_ceil_bounds a b : b <> 0 -> a <= b * div_ceil a b < a + b.
Proof.
  intros Hb. unfold div_ceil. pose proof (N.div_mod (a + (b - 1)) b Hb).
  pose proof (N.mod_lt (a + (b - 1)) b Hb).
  generalize dependent ((a + (b - 1)) mod b). generalize dependent ((a + (b - 1)) / b). lia.
Qed.

Lemma div_ceil_unique a b q : b <> 0 -> a <= b * q < a + b -> div_ceil a b = q.
Proof. intros Hb Hq. pose proof (div_ceil_bounds a b Hb). nia. Qed.

Lemma from_le_bytes_drop j l : bytes_ok l ->
  from_le_bytes (drop j l) = from_le_bytes l / 2 ^ (8 * N.of_nat j).
Proof.
  intros Hl. pose proof (from_le_bytes_lt l Hl) as Hlt.
  destruct (Nat.le_gt_cases j (length l)) as [Hj | Hj].
  - rewrite <- (take_drop j l) at 2. rewrite from_le_bytes_app.
    assert (E : nbits (take j l) = 8 * N.of_nat j) by (unfold nbits; rewrite length_take; lia).
    pose proof (from_le_bytes_lt _ (Forall_take _ j _ Hl)) as Ht. rewrite E in *.
    rewrite field_div_high, N.sub_diag by (done || lia). by rewrite N.div_1_r.
  - rewrite drop_ge by lia. rewrite N.div_small; [done |].
    pose proof (pow2_le (nbits l) (8 * N.of_nat j) ltac:(unfold nbits; lia)). lia.
Qed.

Lemma from_le_bytes_take j l : bytes_ok l ->
  from_le_bytes (take j l) = from_le_bytes l mod 2 ^ (8 * N.of_nat j).
Proof.
  intros Hl. pose proof (from_le_bytes_lt l Hl) as Hlt.
  destruct (Nat.le_gt_cases j (length l)) as [Hj | Hj].
  - rewrite <- (take_drop j l) at 2. rewrite from_le_bytes_app.
    assert (E : nbits (take j l) = 8 * N.of_nat j) by (unfold nbits; rewrite length_take; lia).
    pose proof (from_le_bytes_lt _ (Forall_take _ j _ Hl)) as Ht. rewrite E in *.
    rewrite field_mod_low by done. symmetry. by apply N.mod_small.
  - rewrite take_ge by lia. symmetry. apply (mod_small_le _ _ (nbits l)); [done | unfold nbits; lia].
Qed.

(** A field inside a window of a number. *)
Lemma window_field x n s m : s + m <= n -> (x mod 2 ^ n) / 2 ^ s mod 2 ^ m = x / 2 ^ s mod 2 ^ m.
Proof.
  intros H. rewrite (N.div_mod x (2 ^ n)) at 2 by apply pow2_nonzero.
  rewrite N.add_comm, field_div_low, field_mod_low by lia. done.
Qed.
