(* ===== verification/BitPacking.v ===== *)
(** * Bit streams

    lib/common/common/src/bitpacking.rs: a writer that appends values of up to
    64 bits to a byte vector through a 64-bit buffer, and a reader of such
    values.  A byte string is read as one little-endian number, so that a
    stream of values is a number in a mixed radix ([stream]); the file proves
    that writing appends to that number, that reading divides it, and that
    what was written is read back ([bit_stream_roundtrip]). *)

From S2P Require Import Prelude MachineInt.

Local Open Scope N_scope.

(** ** The writer *)

(** [Buf::BITS] *)
Definition BUF_BITS : N := 64.

Record BitWriter : Type := mkBitWriter {
  output : list N;
  buf : N;
  buf_bits : N;
}.

(** [BitWriter::new] *)
Definition BitWriter_new (out : list N) : BitWriter :=
  {| output := out; buf := 0; buf_bits := 0 |}.

(** [BitWriter::write] *)
Definition BitWriter_write (self : BitWriter) (value bits : N) : option BitWriter :=
  shifted ← shl BUF_BITS value (buf_bits self);
  let buf' := N.lor (buf self) shifted in
  buf_bits' ← checked_add 8 (buf_bits self) bits;
  if BUF_BITS <=? buf_bits' then
    let output' := output self ++ to_le_bytes 8 buf' in
    left ← checked_sub buf_bits' BUF_BITS;
    taken ← checked_sub bits left;
    rest ← (if taken =? BUF_BITS then Some 0 else shr BUF_BITS value taken);
    Some {| output := output'; buf := rest; buf_bits := left |}
  else Some {| output := output self; buf := buf'; buf_bits := buf_bits' |}.

(** [BitWriter::finish] *)
Definition BitWriter_finish (self : BitWriter) : list N :=
  output self ++ take (N.to_nat (div_ceil (buf_bits self) 8)) (to_le_bytes 8 (buf self)).

(** A sequence of calls of [write], each with its width. *)
Fixpoint write_all (self : BitWriter) (vs : list (N * N)) : option BitWriter :=
  match vs with
  | [] => Some self
  | (value, bits) :: vs' => self' ← BitWriter_write self value bits; write_all self' vs'
  end.

(** ** The reader *)

(** [make_bitmask] at a type of [w] bits *)
Definition make_bitmask (w bits : N) : N :=
  if w <=? bits then 2 ^ w - 1 else N.shiftl 1 bits - 1.

(** [packed_bits] at a type of [w] bits *)
Definition packed_bits (w max_value : N) : N := w - leading_zeros w max_value.

Record BitReader : Type := mkBitReader {
  input : list N;
  rbuf : N;
  rbuf_bits : N;
  mask : N;
  rbits : N;
}.

(** [BitReader::new] *)
Definition BitReader_new (inp : list N) : BitReader :=
  {| input := inp; rbuf := 0; rbuf_bits := 0; mask := 0; rbits := 0 |}.

(** [BitReader::set_bits] *)
Definition set_bits (self : BitReader) (bits : N) : BitReader :=
  {| input := input self; rbuf := rbuf self; rbuf_bits := rbuf_bits self;
     mask := make_bitmask BUF_BITS bits; rbits := bits |}.

(** The loop over the last, incomplete word. *)
Fixpoint or_bytes (i acc : N) (bytes : list N) : option N :=
  match bytes with
  | [] => Some acc
  | byte :: bytes' => shifted ← shl BUF_BITS byte (i * 8); or_bytes (i + 1) (N.lor acc shifted) bytes'
  end.

(** [read_buf_and_advance]: the word and the advanced input. *)
Definition read_buf_and_advance (inp : list N) : option (N * list N) :=
  if (8 <=? length inp)%nat then Some (from_le_bytes (take 8 inp), drop 8 inp)
  else word ← or_bytes 0 0 inp; Some (word, inp).

(** [BitReader::read] of a value that is cut to [w] bits. *)
Definition BitReader_read (w : N) (self : BitReader) : option (N * BitReader) :=
  if rbits self <=? rbuf_bits self then
    rest ← shr BUF_BITS (rbuf self) (rbits self);
    Some (N.land (rbuf self) (mask self) mod 2 ^ w,
          {| input := input self; rbuf := rest; rbuf_bits := rbuf_bits self - rbits self;
             mask := mask self; rbits := rbits self |})
  else
    '(new_buf, input') ← read_buf_and_advance (input self);
    shifted ← shl BUF_BITS new_buf (rbuf_bits self);
    let val := N.lor (rbuf self) (N.land shifted (mask self)) mod 2 ^ w in
    unread ← checked_sub BUF_BITS (rbits self);
    buf_bits' ← checked_add 8 (rbuf_bits self) unread;
    buf' ← (if buf_bits' =? 0 then Some 0
            else taken ← checked_sub BUF_BITS buf_bits'; shr BUF_BITS new_buf taken);
    Some (val, {| input := input'; rbuf := buf'; rbuf_bits := buf_bits';
                  mask := mask self; rbits := rbits self |}).

(** Reads of the given widths, each after [set_bits]. *)
Fixpoint read_all (w : N) (self : BitReader) (widths : list N) : option (list N * BitReader) :=
  match widths with
  | [] => Some ([], self)
  | bits :: widths' =>
      '(v, self') ← BitReader_read w (set_bits self bits);
      '(vs, self'') ← read_all w self' widths';
      Some (v :: vs, self'')
  end.

(** ** Streams as numbers *)

(** Values that fit their widths. *)
Definition fits (vb : N * N) : Prop := vb.1 < 2 ^ vb.2 /\ vb.2 <= 64.

(** The number a stream of values with widths stands for, and its length. *)
Fixpoint stream (vs : list (N * N)) : N :=
  match vs with
  | [] => 0
  | (v, b) :: vs' => v + 2 ^ b * stream vs'
  end.

Fixpoint stream_bits (vs : list (N * N)) : N :=
  match vs with
  | [] => 0
  | (_, b) :: vs' => b + stream_bits vs'
  end.

(** What a writer holds: its bytes, then its buffer. *)
Definition held (w : BitWriter) : N := from_le_bytes (output w) + 2 ^ nbits (output w) * buf w.
Definition held_bits (w : BitWriter) : N := nbits (output w) + buf_bits w.

Definition writer_ok (w : BitWriter) : Prop :=
  bytes_ok (output w) /\ buf w < 2 ^ buf_bits w /\ buf_bits w < BUF_BITS.

(** A reader with [n] bits left that stand for [R]: they are in its buffer and
    its input, or, after the last incomplete word, in its buffer alone. *)
Definition reads (r : BitReader) (R n : N) : Prop :=
  rbuf r < 2 ^ rbuf_bits r /\ rbuf_bits r < BUF_BITS /\ bytes_ok (input r) /\
  ((n = rbuf_bits r + nbits (input r) /\ R = rbuf r + 2 ^ rbuf_bits r * from_le_bytes (input r))
   \/ (n <= rbuf_bits r /\ R = rbuf r)).

(** ** Masks and widths *)

Lemma make_bitmask_pow w bits : bits <= w -> make_bitmask w bits = 2 ^ bits - 1.
Proof.
  intros H. unfold make_bitmask. destruct (N.leb_spec w bits).
  - by replace w with bits by lia.
  - by rewrite N.shiftl_mul_pow2, N.mul_1_l.
Qed.

Lemma land_bitmask w bits a : bits <= w -> N.land a (make_bitmask w bits) = a mod 2 ^ bits.
Proof.
  intros H. rewrite make_bitmask_pow by done. rewrite N.sub_1_r, <- N.ones_equiv. apply N.land_ones.
Qed.

Lemma packed_bits_fits w v : v < 2 ^ w -> v < 2 ^ packed_bits w v /\ packed_bits w v <= w.
Proof.
  intros Hv. unfold packed_bits, leading_zeros.
  assert (N.size v <= w).
  { destruct (decide (v = 0)) as [-> |]; [simpl; lia |].
    rewrite N.size_log2 by done. apply N.le_succ_l, N.log2_lt_pow2; [lia | done]. }
  replace (w - (w - N.size v)) with (N.size v) by lia. split; [apply N.size_gt | done].
Qed.

(** No smaller width would do. *)
Lemma packed_bits_least w v b : v < 2 ^ w -> v < 2 ^ b -> packed_bits w v <= b.
Proof.
  intros Hw Hv. unfold packed_bits, leading_zeros. enough (N.size v <= b) by lia.
  destruct (decide (v = 0)) as [-> |]; [simpl; lia |].
  rewrite N.size_log2 by done. apply N.le_succ_l, N.log2_lt_pow2; [lia | done].
Qed.

(** ** Writing *)

Lemma writer_new_ok out : bytes_ok out -> writer_ok (BitWriter_new out).
Proof. intros H. by split. Qed.

(** The bits above the buffered ones. *)
Lemma buffer_join b v n : b < 2 ^ n -> n < 64 ->
  N.lor b (v * 2 ^ n mod 2 ^ 64) = b + (v mod 2 ^ (64 - n)) * 2 ^ n.
Proof. intros Hb Hn. rewrite mul_pow2_mod by lia. by apply lor_disjoint. Qed.

Lemma join_lt b v n m : b < 2 ^ n -> v < 2 ^ m -> b + v * 2 ^ n < 2 ^ (n + m).
Proof. intros Hb Hv. rewrite N.pow_add_r. nia. Qed.

(** [write] appends its value to the number the writer holds. *)
Lemma write_spec w v b : writer_ok w -> fits (v, b) ->
  exists w', BitWriter_write w v b = Some w' /\ writer_ok w' /\
    held w' = held w + 2 ^ held_bits w * v /\ held_bits w' = held_bits w + b.
Proof.
  destruct w as [out bf n]. intros (Hout & Hbf & Hn) [Hv Hb]. simpl in *.
  unfold BitWriter_write, held, held_bits. unfold BUF_BITS in *. simpl.
  rewrite shl_some by done. simpl. rewrite buffer_join by done.
  rewrite checked_add_some by lia. simpl.
  assert (Hlo : v mod 2 ^ (64 - n) < 2 ^ (64 - n)) by (apply N.mod_lt, pow2_nonzero).
  destruct (N.leb_spec 64 (n + b)) as [Hfull | Hroom].
  - rewrite checked_sub_some by done. simpl. rewrite checked_sub_some by lia. simpl.
    replace (b - (n + b - 64)) with (64 - n) by lia.
    assert (Hrest : (if 64 - n =? 64 then Some 0 else shr 64 v (64 - n)) = Some (v / 2 ^ (64 - n))).
    { destruct (N.eqb_spec (64 - n) 64) as [E |]; [| apply shr_some; lia].
      rewrite E, N.div_small; [done |]. by replace 64 with b by lia. }
    rewrite Hrest. simpl. eexists. split; [done |].
    pose proof (join_lt _ _ _ _ Hbf Hlo) as Hw. replace (n + (64 - n)) with 64 in Hw by lia.
    split; [split; [| split] | split]; simpl.
    + apply Forall_app. split; [done |]. apply (to_le_bytes_ok 8).
    + replace (n + b - 64) with (b - (64 - n)) by lia. apply div_pow2_lt; [lia | done].
    + unfold BUF_BITS. lia.
    + change (?a :: ?l) with (to_le_bytes 8 (bf + v mod 2 ^ (64 - n) * 2 ^ n)).
      rewrite from_le_bytes_app, from_to_le_bytes, nbits_app.
      unfold nbits at 3. rewrite length_to_le_bytes. change (8 * N.of_nat 8) with 64.
      rewrite N.mod_small by done. rewrite !N.pow_add_r.
      pose proof (N.div_mod v (2 ^ (64 - n)) (pow2_nonzero _)) as E.
      rewrite (pow2_split 64 n) by lia. rewrite E at 3. ring.
    + rewrite nbits_app. unfold nbits at 2. simpl. lia.
  - simpl. eexists. split; [done |].
    assert (v mod 2 ^ (64 - n) = v) as -> by (apply (mod_small_le _ _ b); [done | lia]).
    split; [split; [| split] | split]; simpl; [done | | done | | lia].
    + by apply join_lt.
    + rewrite N.pow_add_r. ring.
Qed.

Lemma stream_app l k : stream (l ++ k) = stream l + 2 ^ stream_bits l * stream k.
Proof.
  induction l as [| [v b] l IH]; simpl; [by destruct (stream k) |].
  rewrite IH, N.pow_add_r. ring.
Qed.

Lemma stream_bits_app l k : stream_bits (l ++ k) = stream_bits l + stream_bits k.
Proof. induction l as [| [v b] l IH]; simpl; [done |]. rewrite IH. lia. Qed.

Lemma stream_lt l : Forall fits l -> stream l < 2 ^ stream_bits l.
Proof.
  induction 1 as [| [v b] l [Hv _] _ IH]; simpl; [done |].
  rewrite (N.mul_comm (2 ^ b)). by apply join_lt.
Qed.

(** One value inside a stream, whatever follows it. *)
Lemma stream_nth l v b r more : Forall fits l -> v < 2 ^ b ->
  (stream (l ++ (v, b) :: r) + 2 ^ stream_bits (l ++ (v, b) :: r) * more) / 2 ^ stream_bits l mod 2 ^ b = v.
Proof.
  intros Hl Hv. rewrite stream_app, stream_bits_app. cbn [stream stream_bits]. rewrite !N.pow_add_r.
  replace (_ + _) with (stream l + 2 ^ stream_bits l * (v + 2 ^ b * (stream r + 2 ^ stream_bits r * more))) by ring.
  rewrite field_div_high, N.sub_diag, N.div_1_r by (done || by apply stream_lt).
  rewrite field_mod_low by done. by apply N.mod_small.
Qed.

Lemma write_all_spec w vs : writer_ok w -> Forall fits vs ->
  exists w', write_all w vs = Some w' /\ writer_ok w' /\
    held w' = held w + 2 ^ held_bits w * stream vs /\ held_bits w' = held_bits w + stream_bits vs.
Proof.
  intros Hw Hvs. revert w Hw. induction Hvs as [| [v b] vs Hv _ IH]; intros w Hw; simpl.
  - exists w. split; [done |]. split; [done |]. split; lia.
  - destruct (write_spec w v b Hw Hv) as (w1 & -> & Hw1 & Eh & Eb).
    destruct (IH w1 Hw1) as (w2 & E2 & Hw2 & Eh2 & Eb2). exists w2. simpl.
    split; [done |]. split; [done |]. rewrite Eh2, Eb2, Eh, Eb. split; [| lia].
    rewrite N.pow_add_r. ring.
Qed.

Lemma write_all_app w l k : write_all w (l ++ k) = w' ← write_all w l; write_all w' k.
Proof.
  revert w. induction l as [| [v b] l IH]; intros w; [done |]. simpl.
  destruct (BitWriter_write w v b); [apply IH | done].
Qed.

Lemma finish_spec w : writer_ok w ->
  bytes_ok (BitWriter_finish w) /\ from_le_bytes (BitWriter_finish w) = held w /\
  N.of_nat (length (BitWriter_finish w)) = div_ceil (held_bits w) 8.
Proof.
  intros (Hout & Hbf & Hn). unfold BitWriter_finish, BUF_BITS in *.
  pose proof (div_ceil_bounds (buf_bits w) 8 ltac:(done)) as Hc.
  rewrite take_to_le_bytes by lia. split; [| split].
  - apply Forall_app. split; [done | apply to_le_bytes_ok].
  - rewrite from_le_bytes_app, from_to_le_bytes, N2Nat.id.
    unfold held. by rewrite (mod_small_le _ _ (buf_bits w)) by (done || lia).
  - rewrite length_app, length_to_le_bytes. symmetry. apply div_ceil_unique; [done |].
    unfold held_bits, nbits. lia.
Qed.

Lemma finish_new out : BitWriter_finish (BitWriter_new out) = out.
Proof. apply app_nil_r. Qed.

(** ** Reading *)

Lemma reads_new inp : bytes_ok inp -> reads (BitReader_new inp) (from_le_bytes inp) (nbits inp).
Proof.
  intros H. split; [done |]. split; [done |]. split; [done |]. left. simpl.
  split; [done |]. by destruct (from_le_bytes inp).
Qed.

Lemma reads_set_bits r R n b : reads r R n -> reads (set_bits r b) R n.
Proof. done. Qed.

Lemma or_bytes_spec i acc l : bytes_ok l -> acc < 2 ^ (i * 8) -> i + N.of_nat (length l) <= 8 ->
  or_bytes i acc l = Some (acc + 2 ^ (i * 8) * from_le_bytes l).
Proof.
  intros Hl. revert i acc. induction Hl as [| b l Hb _ IH]; intros i acc Hacc Hi; simpl in *.
  { f_equal. lia. }
  unfold byte_ok in Hb. unfold BUF_BITS. rewrite shl_some by lia. simpl.
  rewrite mul_pow2_mod by lia.
  rewrite N.mod_small by (pose proof (pow2_le 8 (64 - i * 8) ltac:(lia)) as H; change (2 ^ 8) with 256 in H; lia).
  rewrite lor_disjoint by done. rewrite IH.
  - f_equal. replace ((i + 1) * 8) with (i * 8 + 8) by lia. rewrite N.pow_add_r.
    change (2 ^ 8) with 256. ring.
  - replace ((i + 1) * 8) with (i * 8 + 8) by lia. by apply join_lt.
  - lia.
Qed.

(** The word read is the low 64 bits of what is left; the advanced input holds
    the rest, and an input that is not advanced has no rest. *)
Lemma read_buf_spec inp : bytes_ok inp ->
  exists word inp' rest, read_buf_and_advance inp = Some (word, inp') /\ bytes_ok inp' /\
    word < 2 ^ 64 /\ from_le_bytes inp = word + 2 ^ 64 * rest /\
    (nbits inp = 64 + nbits inp' /\ rest = from_le_bytes inp' \/ nbits inp <= 64 /\ rest = 0).
Proof.
  intros H. unfold read_buf_and_advance. destruct (Nat.leb_spec 8 (length inp)) as [Hl | Hl].
  - exists (from_le_bytes (take 8 inp)), (drop 8 inp), (from_le_bytes (drop 8 inp)).
    split; [done |]. split; [by apply Forall_drop |].
    assert (E : nbits (take 8 inp) = 64) by (unfold nbits; rewrite length_take; lia).
    split; [rewrite <- E; by apply from_le_bytes_lt, Forall_take |].
    split; [rewrite <- E, <- from_le_bytes_app; by rewrite take_drop |]. left. split; [| done].
    rewrite <- E, <- nbits_app. by rewrite take_drop.
  - exists (from_le_bytes inp), inp, 0.
    rewrite or_bytes_spec by (done || lia). simpl.
    assert (nbits inp <= 64) by (unfold nbits; lia).
    split; [f_equal; f_equal; lia |]. split; [done |]. split; [| split; [lia | by right]].
    pose proof (from_le_bytes_lt inp H). pose proof (pow2_le _ _ H0). lia.
Qed.

Local Ltac provide_reader :=
  match goal with |- exists r', Some (_, ?r) = _ /\ _ => exists r end.

(** [read] takes the low bits and leaves the others. *)
Lemma read_spec w r R n : reads r R n -> rbits r <= n -> rbits r <= 64 ->
  mask r = make_bitmask 64 (rbits r) ->
  exists r', BitReader_read w r = Some ((R mod 2 ^ rbits r) mod 2 ^ w, r') /\
    reads r' (R / 2 ^ rbits r) (n - rbits r) /\ rbits r' = rbits r /\ mask r' = mask r.
Proof.
  destruct r as [inp b bb m rb]. intros (Hb & Hbb & Hinp & HR) Hn Hrb Hm. simpl in *. subst m.
  unfold BitReader_read, BUF_BITS in *. simpl. destruct (N.leb_spec rb bb) as [Hle | Hlt].
  - rewrite shr_some by lia. simpl. rewrite land_bitmask by done.
    provide_reader. split; [| split; [| done]].
    + do 2 f_equal. destruct HR as [[_ ->] | [_ ->]]; [| done]. by rewrite field_mod_low.
    + split; [by apply div_pow2_lt |]. split; [simpl; unfold BUF_BITS; lia |]. split; [done |]. simpl.
      destruct HR as [[-> ->] | [? ->]]; [left | right; split; [lia | done]].
      split; [lia |]. by apply field_div_low.
  - destruct HR as [[-> ->] | [? _]]; [| lia].
    destruct (read_buf_spec inp Hinp) as (word & inp' & rest & -> & Hinp' & Hword & Ew & Hrest). simpl.
    rewrite shl_some by done. simpl. rewrite land_bitmask, mod_mod_le by done.
    rewrite mul_pow2_mod, lor_disjoint by (done || lia).
    rewrite checked_sub_some by done. simpl. rewrite checked_add_some by lia. simpl.
    assert (Hbuf : (if bb + (64 - rb) =? 0 then Some 0
       else taken ← checked_sub 64 (bb + (64 - rb)); shr 64 word taken) = Some (word / 2 ^ (rb - bb))).
    { destruct (N.eqb_spec (bb + (64 - rb)) 0) as [E |].
      - by rewrite N.div_small by (by replace (rb - bb) with 64 by lia).
      - rewrite checked_sub_some by lia. simpl. rewrite shr_some by lia.
        by replace (64 - (bb + (64 - rb))) with (rb - bb) by lia. }
    rewrite Hbuf. simpl. provide_reader. split; [| split; [| done]].
    + do 2 f_equal. rewrite field_mod_high by (done || lia). rewrite Ew, (field_mod_low word) by lia.
      by rewrite (N.mul_comm (2 ^ bb)).
    + rewrite field_div_high by (done || lia). rewrite Ew, field_div_low by lia.
      split; simpl; [| split; [unfold BUF_BITS; lia | split; [done |]]].
      { replace (bb + (64 - rb)) with (64 - (rb - bb)) by lia. apply div_pow2_lt; [lia | done]. }
      destruct Hrest as [[En ->] | [En ->]]; [left | right].
      * split; [lia |]. by replace (bb + (64 - rb)) with (64 - (rb - bb)) by lia.
      * split; [lia |]. lia.
Qed.

(** One value of a stream. *)
Lemma read_value w r v b R n : reads r (v + 2 ^ b * R) (b + n) -> rbits r = b ->
  mask r = make_bitmask 64 b -> fits (v, b) -> v < 2 ^ w ->
  exists r', BitReader_read w r = Some (v, r') /\ reads r' R n /\ rbits r' = b /\
    mask r' = make_bitmask 64 b.
Proof.
  intros Hr <- Hm [Hv Hb] Hw. simpl in *.
  destruct (read_spec w r _ _ Hr ltac:(lia) Hb Hm) as (r' & -> & Hr' & Eb & Em).
  rewrite field_mod_low, (N.mod_small v), (N.mod_small v) by done.
  exists r'. split; [done |]. split; [| by rewrite Em].
  rewrite field_div_low, N.sub_diag, (N.div_small v), N.mul_1_l in Hr' by done.
  by replace (rbits r + n - rbits r) with n in Hr' by lia.
Qed.

Lemma read_all_spec w r vs R n : Forall fits vs -> Forall (fun vb => vb.1 < 2 ^ w) vs ->
  reads r (stream vs + 2 ^ stream_bits vs * R) (stream_bits vs + n) ->
  exists r', read_all w r vs.*2 = Some (vs.*1, r') /\ reads r' R n.
Proof.
  intros Hvs Hw. revert r. induction Hvs as [| [v b] vs Hv _ IH]; intros r Hr; csimpl in *.
  { exists r. split; [done |]. by destruct R. }
  inversion_clear Hw as [| ?? Hvw Hw']. csimpl in *.
  destruct (read_value w (set_bits r b) v b (stream vs + 2 ^ stream_bits vs * R) (stream_bits vs + n))
    as (r1 & -> & Hr1 & _); [| done.. |].
  { apply reads_set_bits. revert Hr.
    replace (v + 2 ^ b * stream vs + 2 ^ (b + stream_bits vs) * R)
      with (v + 2 ^ b * (stream vs + 2 ^ stream_bits vs * R)) by (rewrite N.pow_add_r; ring).
    by rewrite N.add_assoc. }
  csimpl. destruct (IH Hw' r1 Hr1) as (r2 & -> & Hr2). by exists r2.
Qed.

(** ** Packed streams *)

(** The writer only appends. *)
Definition behind (out : list N) (w : BitWriter) : BitWriter :=
  {| output := out ++ output w; buf := buf w; buf_bits := buf_bits w |}.

Lemma write_behind out w v b : BitWriter_write (behind out w) v b = behind out <$> BitWriter_write w v b.
Proof.
  unfold BitWriter_write, behind. simpl.
  destruct (shl _ _ _); simpl; [| done]. destruct (checked_add _ _ _); simpl; [| done].
  destruct (_ <=? _); [| done]. destruct (checked_sub _ _); simpl; [| done].
  destruct (checked_sub _ _); simpl; [| done].
  destruct (_ =? _); simpl; [by rewrite <- app_assoc |].
  destruct (shr _ _ _); simpl; [by rewrite <- app_assoc | done].
Qed.

Lemma write_all_behind out w vs : write_all (behind out w) vs = behind out <$> write_all w vs.
Proof.
  revert w. induction vs as [| [v b] vs IH]; intros w; [done |]. simpl.
  rewrite write_behind. destruct (BitWriter_write w v b); simpl; [apply IH | done].
Qed.

Lemma finish_behind out w : BitWriter_finish (behind out w) = out ++ BitWriter_finish w.
Proof. unfold BitWriter_finish. simpl. by rewrite <- app_assoc. Qed.

(** What a sequence of writes appends to the output. *)
Lemma pack_spec out vs : Forall fits vs ->
  exists self packed, write_all (BitWriter_new out) vs = Some self /\
    BitWriter_finish self = out ++ packed /\ bytes_ok packed /\
    from_le_bytes packed = stream vs /\ N.of_nat (length packed) = div_ceil (stream_bits vs) 8.
Proof.
  intros Hvs.
  destruct (write_all_spec _ _ (writer_new_ok [] ltac:(constructor)) Hvs) as (w & E & Hw & Eh & Eb).
  exists (behind out w), (BitWriter_finish w).
  assert (Ho : BitWriter_new out = behind out (BitWriter_new [])).
  { unfold behind. simpl. by rewrite app_nil_r. }
  rewrite Ho, write_all_behind, E, finish_behind. split; [done |]. split; [done |].
  destruct (finish_spec w Hw) as (Hok & En & El). split; [done |].
  rewrite En, El, Eh, Eb. unfold held, held_bits, nbits. simpl. split; [lia | done].
Qed.

(** A reader of such bytes, whatever follows them. *)
Lemma reads_packed packed vs : bytes_ok packed -> from_le_bytes packed = stream vs ->
  N.of_nat (length packed) = div_ceil (stream_bits vs) 8 ->
  reads (BitReader_new packed) (stream vs) (stream_bits vs + (nbits packed - stream_bits vs)).
Proof.
  intros Hok En El. pose proof (div_ceil_bounds (stream_bits vs) 8 ltac:(done)).
  rewrite N.add_sub_assoc, N.add_sub_swap, N.sub_diag by (unfold nbits; lia).
  rewrite <- En. by apply reads_new.
Qed.

(** ** Round trip *)

(** [C23] What is written is read back: a sequence of values that fit their
    widths (up to 64 bits) is written without overflow; the finished output is
    the old output and as many bytes as the bits need; and a reader of the new
    bytes that is set to the same widths returns the values. *)
Theorem bit_stream_roundtrip (w : N) (out : list N) (vs : list (N * N)) :
  Forall fits vs -> Forall (fun vb => vb.1 < 2 ^ w) vs ->
  exists self packed, write_all (BitWriter_new out) vs = Some self /\
    BitWriter_finish self = out ++ packed /\ bytes_ok packed /\
    N.of_nat (length packed) = div_ceil (stream_bits vs) 8 /\
    exists r, read_all w (BitReader_new packed) vs.*2 = Some (vs.*1, r).
Proof.
  intros Hvs Hw.
  destruct (pack_spec out vs Hvs) as (self & packed & E & Ef & Hok & En & El).
  exists self, packed. split; [done |]. split; [done |]. split; [done |]. split; [done |].
  destruct (read_all_spec w (BitReader_new packed) vs 0 (nbits packed - stream_bits vs))
    as (r & Er & _); [done.. | | by exists r].
  rewrite N.mul_0_r, N.add_0_r. by apply reads_packed.
Qed.

(** The widths of the first example in the source's tests. *)
Lemma bit_stream_roundtrip_witness :
  exists self packed, write_all (BitWriter_new [7]) [(10, 5); (22, 5); (178, 9); (305419896, 32); (2 ^ 64 - 1, 64)]
      = Some self /\ BitWriter_finish self = [7] ++ packed /\ length packed = 15%nat /\
    exists r, read_all 64 (BitReader_new packed) [5; 5; 9; 32; 64]
      = Some ([10; 22; 178; 305419896; 2 ^ 64 - 1], r).
Proof.
  destruct (bit_stream_roundtrip 64 [7]
    [(10, 5); (22, 5); (178, 9); (305419896, 32); (2 ^ 64 - 1, 64)])
    as (self & packed & E & Ef & _ & El & r & Er).
  - repeat constructor; simpl; lia.
  - repeat constructor; simpl; lia.
  - exists self, packed. split; [done |]. split; [done |]. split; [| by exists r].
    replace (div_ceil _ 8) with 15 in El by (vm_compute; reflexivity). lia.
Defined.
