(* ===== verification/DeltaPack.v ===== *)
(** * Packed sequences

    lib/common/common/src/delta_pack.rs: a sequence of [u64] is packed with one
    width for all values, a sorted one as the differences of its neighbours.
    The length is not stored: the width is at least a byte, so that the bits
    left at the end are too few for another value.

    Functions return [None] where Rust panics; a loop takes fuel, and the
    theorems end in [Some]. *)

From S2P Require Import Prelude MachineInt BitPacking.

Local Open Scope N_scope.

(** [MIN_BITS_PER_VALUE], [HEADER_BITS] *)
Definition MIN_BITS_PER_VALUE : N := 8.
Definition DELTA_HEADER_BITS : N := 6.

(** [iter().max().unwrap()] *)
Fixpoint iter_max (l : list N) : option N :=
  match l with
  | [] => None
  | x :: l' => Some (match iter_max l' with Some y => N.max x y | None => x end)
  end.

(** [compress_sequence] *)
Definition compress_sequence (data : list N) : option (list N) :=
  let length := N.of_nat (length data) mod 2 ^ 32 in
  if length =? 0 then Some []
  else
    max_value ← iter_max data;
    let bits_per_value := N.max (packed_bits 64 max_value) MIN_BITS_PER_VALUE in
    header ← checked_sub bits_per_value MIN_BITS_PER_VALUE;
    writer ← BitWriter_write (BitWriter_new []) header DELTA_HEADER_BITS;
    writer' ← write_all writer ((fun value => (value, bits_per_value)) <$> data);
    Some (BitWriter_finish writer').

(** The loop of [decompress_sequence]. *)
Fixpoint decompress_loop (fuel : nat) (reader : BitReader) (bits_per_value remaining_bits : N)
    : option (list N) :=
  if bits_per_value <=? remaining_bits then
    match fuel with
    | O => None
    | S fuel' =>
        '(v, reader') ← BitReader_read 64 reader;
        vs ← decompress_loop fuel' reader' bits_per_value (remaining_bits - bits_per_value);
        Some (v :: vs)
    end
  else Some [].

(** [decompress_sequence] *)
Definition decompress_sequence (data : list N) : option (list N) :=
  match data with
  | [] => Some []
  | _ =>
      '(header, reader) ← BitReader_read 8 (set_bits (BitReader_new data) DELTA_HEADER_BITS);
      bits_per_value ← checked_add 8 header MIN_BITS_PER_VALUE;
      remaining_bits ← checked_sub (nbits data) DELTA_HEADER_BITS;
      decompress_loop (length data) (set_bits reader bits_per_value) bits_per_value remaining_bits
  end.

(** The loops of [delta_pack] and [delta_unpack]. *)
Fixpoint delta_loop (prev : N) (data : list N) : option (list N) :=
  match data with
  | [] => Some []
  | value :: data' =>
      delta ← checked_sub value prev; deltas ← delta_loop value data'; Some (delta :: deltas)
  end.

Fixpoint undelta_loop (prev : N) (sequence : list N) : option (list N) :=
  match sequence with
  | [] => Some []
  | value :: sequence' =>
      value' ← checked_add 64 value prev; rest ← undelta_loop value' sequence'; Some (value' :: rest)
  end.

(** [delta_pack], [delta_unpack] *)
Definition delta_pack (data : list N) : option (list N) :=
  deltas ← delta_loop 0 data; compress_sequence deltas.

Definition delta_unpack (data : list N) : option (list N) :=
  sequence ← decompress_sequence data; undelta_loop 0 sequence.

(** ** One width for a run of values *)

Abbreviation run bits := (fmap (M := list) (fun value : N => (value, bits))).

Lemma run_fits b l : b <= 64 -> Forall (fun v => v < 2 ^ b) l -> Forall fits (run b l).
Proof. intros Hb Hl. apply Forall_fmap. eapply Forall_impl; [exact Hl |]. intros v Hv. by split. Qed.

Lemma run_bits b l : stream_bits (run b l) = b * N.of_nat (length l).
Proof. induction l as [| v l IH]; csimpl; [lia |]. rewrite IH. lia. Qed.

Lemma iter_max_spec l : l <> [] -> exists m, iter_max l = Some m /\ m ∈ l /\ Forall (fun v => v <= m) l.
Proof.
  induction l as [| x l IH]; [done |]. intros _. simpl. destruct l as [| y l].
  - exists x. split; [done |]. split; [set_solver |]. by repeat constructor.
  - destruct IH as (m & -> & Hm & Hl); [done |]. eexists. split; [done |]. split.
    + destruct (N.max_spec x m) as [[_ ->] | [_ ->]]; set_solver.
    + constructor; [lia |]. eapply Forall_impl; [exact Hl |]. simpl. lia.
Qed.

(** The width chosen from the largest value holds every value. *)
Lemma chosen_width w l m : w <= 64 -> 8 <= w -> Forall (fun v => v < 2 ^ w) l -> iter_max l = Some m ->
  let b := N.max (packed_bits w m) MIN_BITS_PER_VALUE in
  8 <= b <= w /\ Forall (fun v => v < 2 ^ b) l.
Proof.
  intros Hw H8 Hl Hm b. destruct l as [| x l]; [done |].
  destruct (iter_max_spec (x :: l)) as (m' & E & Hin & Hle); [done |].
  rewrite Hm in E. injection E as <-.
  assert (Hm' : m < 2 ^ w) by (rewrite Forall_forall in Hl; by apply Hl).
  destruct (packed_bits_fits w m Hm') as [Hfit Hpw]. unfold b, MIN_BITS_PER_VALUE.
  split; [lia |]. eapply Forall_impl; [exact Hle |]. simpl. intros v Hv.
  pose proof (pow2_le (packed_bits w m) (N.max (packed_bits w m) 8) ltac:(lia)). lia.
Qed.

(** ** Round trips *)

Lemma decompress_loop_spec fuel r b l pad :
  8 <= b <= 64 -> pad < 8 -> rbits r = b -> mask r = make_bitmask 64 b ->
  Forall (fun v => v < 2 ^ b) l -> (length l <= fuel)%nat ->
  reads r (stream (run b l)) (stream_bits (run b l) + pad) ->
  decompress_loop fuel r b (stream_bits (run b l) + pad) = Some l.
Proof.
  intros Hb Hpad Hbits Hmask Hl. revert fuel r Hbits Hmask.
  induction Hl as [| v l Hv _ IH]; intros fuel r Hbits Hmask Hfuel Hr; csimpl in *.
  { assert ((b <=? 0 + pad) = false) as E by (apply N.leb_gt; lia).
    destruct fuel; cbn [decompress_loop]; by rewrite E. }
  destruct fuel as [| fuel]; [lia |]. cbn [decompress_loop].
  destruct (N.leb_spec b (b + stream_bits (run b l) + pad)); [| lia].
  rewrite <- N.add_assoc in Hr.
  destruct (read_value 64 r v b _ _ Hr Hbits Hmask) as (r' & -> & Hr' & Hbits' & Hmask').
  { split; [done | simpl; lia]. }
  { pose proof (pow2_le b 64 ltac:(lia)). lia. }
  simpl. replace (b + _ + pad - b) with (stream_bits (run b l) + pad) by lia.
  rewrite IH; [done.. | lia | done].
Qed.

(** The packed form of a sequence, and its size. *)
Lemma compress_sequence_spec data : data <> [] -> N.of_nat (length data) < 2 ^ 32 ->
  Forall (fun v => v < 2 ^ 64) data ->
  exists b packed, compress_sequence data = Some packed /\ bytes_ok packed /\ 8 <= b <= 64 /\
    Forall (fun v => v < 2 ^ b) data /\ from_le_bytes packed = stream ((b - 8, 6) :: run b data) /\
    N.of_nat (length packed) = div_ceil (6 + b * N.of_nat (length data)) 8.
Proof.
  intros Hne Hlen Hdata. unfold compress_sequence. rewrite N.mod_small by done.
  destruct (N.eqb_spec (N.of_nat (length data)) 0) as [E |]; [destruct data; done || (simpl in E; lia) |].
  destruct (iter_max_spec data Hne) as (m & Em & _). rewrite Em. cbn [mbind option_bind].
  destruct (chosen_width 64 data m ltac:(lia) ltac:(lia) Hdata Em) as [Hb Hfit].
  set (b := N.max (packed_bits 64 m) MIN_BITS_PER_VALUE) in *.
  rewrite checked_sub_some by (unfold MIN_BITS_PER_VALUE; lia). cbn [mbind option_bind].
  change MIN_BITS_PER_VALUE with 8. change DELTA_HEADER_BITS with 6.
  assert (Hfits : Forall fits ((b - 8, 6) :: run b data)).
  { constructor; [split; simpl; lia | apply run_fits; [lia | done]]. }
  destruct (pack_spec [] _ Hfits) as (self & packed & Ew & Ef & Hok & En & El).
  exists b, packed. cbn [write_all] in Ew. destruct (BitWriter_write _ _ _) as [w1 |]; [| done].
  cbn [mbind option_bind] in *. rewrite Ew. cbn [mbind option_bind].
  split; [by rewrite Ef |]. split; [done |]. split; [done |]. split; [done |]. split; [done |].
  by rewrite El; csimpl; rewrite run_bits.
Qed.

Lemma sequence_restored data packed b : packed <> [] -> bytes_ok packed -> 8 <= b <= 64 ->
  Forall (fun v => v < 2 ^ b) data -> from_le_bytes packed = stream ((b - 8, 6) :: run b data) ->
  N.of_nat (length packed) = div_ceil (6 + b * N.of_nat (length data)) 8 ->
  decompress_sequence packed = Some data.
Proof.
  intros Hne Hok Hb Hdata En El. unfold decompress_sequence.
  destruct packed as [| p0 packed]; [done |]. set (bytes := p0 :: packed) in *. clearbody bytes. clear Hne.
  pose proof (div_ceil_bounds (6 + b * N.of_nat (length data)) 8 ltac:(done)) as Hc.
  rewrite <- El in Hc. fold (nbits bytes) in Hc. set (pad := nbits bytes - (6 + b * N.of_nat (length data))).
  pose proof (reads_new bytes Hok) as Hr. rewrite En in Hr. cbn [stream] in Hr.
  replace (nbits bytes) with (6 + (stream_bits (run b data) + pad)) in Hr
    by (rewrite run_bits; unfold pad; lia).
  change DELTA_HEADER_BITS with 6. change MIN_BITS_PER_VALUE with 8.
  destruct (read_value 8 (set_bits (BitReader_new bytes) 6) (b - 8) 6 _ _ (reads_set_bits _ _ _ 6 Hr))
    as (r & -> & Hr1 & _); [done | done | split; simpl; lia | simpl; lia |].
  cbn [mbind option_bind]. rewrite checked_add_some by (simpl; lia). cbn [mbind option_bind].
  rewrite checked_sub_some by lia. cbn [mbind option_bind].
  replace (b - 8 + 8) with b by lia.
  replace (nbits bytes - 6) with (stream_bits (run b data) + pad) by (rewrite run_bits; unfold pad; lia).
  apply decompress_loop_spec; try done.
  - unfold pad. lia.
  - unfold nbits in Hc. nia.
Qed.

Lemma sequence_roundtrip (data : list N) :
  N.of_nat (length data) < 2 ^ 32 -> Forall (fun v => v < 2 ^ 64) data ->
  exists packed, compress_sequence data = Some packed /\ bytes_ok packed /\
    decompress_sequence packed = Some data.
Proof.
  intros Hlen Hdata. destruct (decide (data = [])) as [-> | Hne].
  { exists []. by split. }
  destruct (compress_sequence_spec data Hne Hlen Hdata) as (b & packed & E & Hok & Hb & Hfit & En & El).
  exists packed. split; [done |]. split; [done |].
  apply (sequence_restored data packed b); try done. intros ->.
  pose proof (div_ceil_bounds (6 + b * N.of_nat (length data)) 8 ltac:(done)). simpl in El. lia.
Qed.

(** Differences of sorted values, and their sums. *)
Lemma delta_loop_spec prev data :
  prev < 2 ^ 64 -> StronglySorted N.le (prev :: data) -> Forall (fun v => v < 2 ^ 64) data ->
  exists deltas, delta_loop prev data = Some deltas /\ length deltas = length data /\
    Forall (fun v => v < 2 ^ 64) deltas /\ undelta_loop prev deltas = Some data.
Proof.
  intros Hp Hs Hdata. revert prev Hp Hs.
  induction Hdata as [| v data Hv _ IH]; intros prev Hp Hs; simpl; [by exists [] |].
  inversion_clear Hs as [| ?? Hs' Hle]. inversion_clear Hle as [| ?? Hpv _].
  rewrite checked_sub_some by done. simpl.
  destruct (IH v Hv Hs') as (ds & -> & El & Hds & Eu). eexists. split; [done |].
  simpl. split; [by rewrite El |]. split; [constructor; [lia | done] |].
  rewrite checked_add_some by lia. simpl. replace (v - prev + prev) with v by lia. by rewrite Eu.
Qed.

(** [C22] Any sequence of fewer than 2^32 values of [u64], sorted or not, is
    packed without overflow and unpacked to the same sequence; a sorted one is
    also restored from its packed differences. *)
Theorem packed_sequences_roundtrip (data : list N) :
  N.of_nat (length data) < 2 ^ 32 -> Forall (fun v => v < 2 ^ 64) data ->
  (exists packed, compress_sequence data = Some packed /\ bytes_ok packed /\
     decompress_sequence packed = Some data) /\
  (StronglySorted N.le data ->
   exists packed, delta_pack data = Some packed /\ bytes_ok packed /\ delta_unpack packed = Some data).
Proof.
  intros Hlen Hdata. split; [by apply sequence_roundtrip |]. intros Hs.
  destruct (delta_loop_spec 0 data) as (ds & Ed & El & Hds & Eu); [done | | done |].
  { constructor; [done |]. apply Forall_forall. lia. }
  destruct (sequence_roundtrip ds) as (packed & Ep & Hok & Er); [by rewrite El | done |].
  exists packed. unfold delta_pack, delta_unpack. by rewrite Ed, Er.
Qed.

Lemma packed_sequences_roundtrip_witness :
  (exists packed, compress_sequence [2 ^ 64 - 3; 2 ^ 64 - 1; 0] = Some packed /\
     decompress_sequence packed = Some [2 ^ 64 - 3; 2 ^ 64 - 1; 0]) /\
  (exists packed, delta_pack [5; 5; 2 ^ 64 - 1] = Some packed /\
     delta_unpack packed = Some [5; 5; 2 ^ 64 - 1]).
Proof.
  split.
  - destruct (packed_sequences_roundtrip [2 ^ 64 - 3; 2 ^ 64 - 1; 0]) as [(p & E & _ & D) _].
    + simpl. lia.
    + repeat constructor; lia.
    + exists p. by split.
  - destruct (packed_sequences_roundtrip [5; 5; 2 ^ 64 - 1]) as [_ H].
    + simpl. lia.
    + repeat constructor; lia.
    + destruct H as (p & E & _ & D); [repeat constructor; lia |]. exists p. by split.
Defined.

(** The length is cut to 32 bits: a sequence of 2^32 values, the largest the
    source allows, is packed to nothing. *)
Lemma longest_sequence_lost (data : list N) :
  N.of_nat (length data) = 2 ^ 32 ->
  compress_sequence data = Some [] /\ decompress_sequence [] <> Some data.
Proof.
  intros Hlen. split; [unfold compress_sequence; by rewrite Hlen |].
  intros [= <-]. done.
Qed.

(** The packed form starts with the width: nothing of it depends on the
    length alone, and a packed sequence of one small value takes two bytes. *)
Example packed_size : compress_sequence [5] = Some [64; 1] /\ delta_pack [5] = Some [64; 1].
Proof. split; vm_compute; reflexivity. Qed.
