(* ===== verification/PackedLinks.v ===== *)
(** * Packed graph links

    lib/common/common/src/bitpacking_links.rs: the links of a node of the HNSW
    graph.  The first [sorted_count] links may be reordered and are stored as
    the differences of the sorted values, with a width of their own behind a
    header; the rest keep their order at a width fixed for the graph.  Packing
    also reorders the links given.

    The file proves that the iterator returns the links in the order packing
    leaves them, whether through [next] or through the optimised [fold], that
    its size hint is exact at every moment, and that the size computed from a
    longer slice is the size of the packed links. *)

From S2P Require Import Prelude MachineInt BitPacking DeltaPack.

Local Open Scope N_scope.

(** [HEADER_BITS] *)
Definition LINKS_HEADER_BITS : N := 5.

(** ** Packing *)

(** [raw_links[i] -= raw_links[i - 1]] for [i] from [sorted_count - 1] down
    to 1, and [raw_links[i] += raw_links[i - 1]] upwards. *)
Fixpoint delta_encode (i : nat) (raw_links : list N) : option (list N) :=
  match i with
  | O => Some raw_links
  | S i' =>
      x ← raw_links !! i; prev ← raw_links !! i';
      d ← checked_sub x prev;
      delta_encode i' (<[i := d]> raw_links)
  end.

Fixpoint undo_delta (n i : nat) (raw_links : list N) : option (list N) :=
  match n with
  | O => Some raw_links
  | S n' =>
      d ← raw_links !! i; prev ← raw_links !! (i - 1)%nat;
      x ← checked_add 32 d prev;
      undo_delta n' (S i) (<[i := x]> raw_links)
  end.

(** [sort_unstable] of [u32] values: equal values cannot be told apart. *)
Definition sort_u32 (l : list N) : list N := merge_sort N.le l.

(** [pack_links]: the extended byte vector and the reordered links. *)
Definition pack_links (links raw_links : list N) (bits_per_unsorted : N) (sorted_count : nat)
    : option (list N * list N) :=
  match raw_links with
  | [] => Some (links, raw_links)
  | _ =>
      let sorted_count := Nat.min (length raw_links) sorted_count in
      let raw_links := sort_u32 (take sorted_count raw_links) ++ drop sorted_count raw_links in
      raw_links ← delta_encode (sorted_count - 1) raw_links;
      let w := BitWriter_new links in
      w ← (if (sorted_count =? 0)%nat then Some w
           else
             max ← iter_max (take sorted_count raw_links);
             let bits_per_sorted := N.max (packed_bits 32 max) MIN_BITS_PER_VALUE in
             header ← checked_sub bits_per_sorted MIN_BITS_PER_VALUE;
             w ← BitWriter_write w header LINKS_HEADER_BITS;
             write_all w ((fun value => (value, bits_per_sorted)) <$> take sorted_count raw_links));
      w ← write_all w ((fun value => (value, bits_per_unsorted)) <$> drop sorted_count raw_links);
      raw_links ← undo_delta (sorted_count - 1) 1 raw_links;
      Some (BitWriter_finish w, raw_links)
  end.

(** ** Iterating *)

Record PackedLinksIterator : Type := mkLinksIterator {
  reader : BitReader;
  bits_per_unsorted : N;
  remaining_bits : N;
  remaining_bits_target : N;
  current_delta : N;
}.

(** [iterate_packed_links] *)
Definition iterate_packed_links (links : list N) (bits_per_unsorted : N) (sorted_count : N)
    : option PackedLinksIterator :=
  let reader := BitReader_new links in
  let remaining_bits := nbits links in
  if negb (sorted_count =? 0) && negb (length links =? 0)%nat then
    '(header, reader) ← BitReader_read 8 (set_bits reader LINKS_HEADER_BITS);
    bits_per_sorted ← checked_add 8 header MIN_BITS_PER_VALUE;
    rest ← checked_sub remaining_bits LINKS_HEADER_BITS;
    let max_sorted := rest / bits_per_sorted in
    target ← checked_sub remaining_bits (N.min sorted_count max_sorted * bits_per_sorted);
    Some {| reader := set_bits reader bits_per_sorted; bits_per_unsorted := bits_per_unsorted;
            remaining_bits := rest; remaining_bits_target := target; current_delta := 0 |}
  else
    Some {| reader := set_bits reader bits_per_unsorted; bits_per_unsorted := bits_per_unsorted;
            remaining_bits := remaining_bits; remaining_bits_target := remaining_bits;
            current_delta := 0 |}.

Definition with_reader (self : PackedLinksIterator) (r : BitReader) : PackedLinksIterator :=
  {| reader := r; bits_per_unsorted := bits_per_unsorted self; remaining_bits := remaining_bits self;
     remaining_bits_target := remaining_bits_target self; current_delta := current_delta self |}.

(** [next_sorted] *)
Definition next_sorted (self : PackedLinksIterator) : option (N * PackedLinksIterator) :=
  '(delta, r) ← BitReader_read 32 (reader self);
  let current := wrapping_add 32 (current_delta self) delta in
  remaining ← checked_sub (remaining_bits self) (rbits r);
  Some (current,
    {| reader := r; bits_per_unsorted := bits_per_unsorted self; remaining_bits := remaining;
       remaining_bits_target := remaining_bits_target self; current_delta := current |}).

(** [next_unsorted] *)
Definition next_unsorted (self : PackedLinksIterator) : option (option N * PackedLinksIterator) :=
  match checked_sub (remaining_bits self) (rbits (reader self)) with
  | Some rb =>
      '(value, r) ← BitReader_read 32 (reader self);
      Some (Some value,
        {| reader := r; bits_per_unsorted := bits_per_unsorted self; remaining_bits := rb;
           remaining_bits_target := remaining_bits_target self;
           current_delta := current_delta self |})
  | None => Some (None, self)
  end.

(** [Iterator::next] *)
Definition links_next (self : PackedLinksIterator) : option (option N * PackedLinksIterator) :=
  if remaining_bits_target self <? remaining_bits self then
    '(value, self) ← next_sorted self;
    let self :=
      if remaining_bits self <=? remaining_bits_target self
      then with_reader self (set_bits (reader self) (bits_per_unsorted self)) else self in
    Some (Some value, self)
  else next_unsorted self.

(** Calling [next] until it returns nothing. *)
Fixpoint links_collect (fuel : nat) (self : PackedLinksIterator) : option (list N) :=
  match fuel with
  | O => None
  | S fuel' =>
      '(x, self) ← links_next self;
      match x with Some v => vs ← links_collect fuel' self; Some (v :: vs) | None => Some [] end
  end.

(** [Iterator::fold] and its two loops. *)
Section Fold.

Context {Acc : Type} (f : Acc -> N -> Acc).

Fixpoint fold_sorted (fuel : nat) (self : PackedLinksIterator) (acc : Acc)
    : option (PackedLinksIterator * Acc) :=
  if remaining_bits_target self <? remaining_bits self then
    match fuel with
    | O => None
    | S fuel' => '(value, self) ← next_sorted self; fold_sorted fuel' self (f acc value)
    end
  else Some (self, acc).

Fixpoint fold_unsorted (fuel : nat) (self : PackedLinksIterator) (acc : Acc) : option Acc :=
  match fuel with
  | O => None
  | S fuel' =>
      '(x, self) ← next_unsorted self;
      match x with Some value => fold_unsorted fuel' self (f acc value) | None => Some acc end
  end.

Definition links_fold (fuel : nat) (self : PackedLinksIterator) (acc : Acc) : option Acc :=
  '(self, acc) ← fold_sorted fuel self acc;
  fold_unsorted fuel (with_reader self (set_bits (reader self) (bits_per_unsorted self))) acc.

End Fold.

(** [usize::next_multiple_of] and [/]: a division by zero panics. *)
Definition next_multiple_of (a b : N) : option N := if b =? 0 then None else Some (div_ceil a b * b).
Definition checked_div (a b : N) : option N := if b =? 0 then None else Some (a / b).

(** [size_hint], whose two bounds are equal. *)
Definition links_size_hint (self : PackedLinksIterator) : option N :=
  match checked_sub (remaining_bits self) (remaining_bits_target self) with
  | Some sorted_bits =>
      sorted_bits ← next_multiple_of sorted_bits (rbits (reader self));
      sorted ← checked_div sorted_bits (rbits (reader self));
      rest ← checked_sub (remaining_bits self) sorted_bits;
      unsorted ← checked_div rest (bits_per_unsorted self);
      Some (sorted + unsorted)
  | None =>
      unsorted ← checked_div (remaining_bits self) (rbits (reader self));
      Some (0 + unsorted)
  end.

(** [packed_links_size] *)
Definition packed_links_size (data : list N) (bits_per_unsorted sorted_count total_count : N)
    : option N :=
  if total_count =? 0 then Some 0
  else
    match data with
    | [] => Some 0
    | first_byte :: _ =>
        let actual_sorted_count := N.min total_count sorted_count in
        total_bits ← (if 0 <? actual_sorted_count then
            bits_per_sorted ←
              checked_add 8 (N.land first_byte (make_bitmask 8 LINKS_HEADER_BITS)) MIN_BITS_PER_VALUE;
            Some (LINKS_HEADER_BITS + actual_sorted_count * bits_per_sorted)
          else Some 0);
        unsorted_count ← checked_sub total_count actual_sorted_count;
        Some (div_ceil (total_bits + unsorted_count * bits_per_unsorted) 8)
    end.

(** ** Differences *)

Fixpoint deltas (prev : N) (l : list N) : list N :=
  match l with [] => [] | x :: l' => x - prev :: deltas x l' end.

Fixpoint sums (current : N) (ds : list N) : list N :=
  match ds with [] => [] | d :: ds' => current + d :: sums (current + d) ds' end.

Lemma length_deltas prev l : length (deltas prev l) = length l.
Proof. revert prev. induction l; intros prev; simpl; auto. Qed.

Lemma sums_deltas prev l : StronglySorted N.le (prev :: l) -> sums prev (deltas prev l) = l.
Proof.
  revert prev. induction l as [| x l IH]; intros prev Hs; [done |]. simpl.
  inversion_clear Hs as [| ?? Hs' Hle]. inversion_clear Hle as [| ?? Hx _].
  replace (prev + (x - prev)) with x by lia. by rewrite IH.
Qed.

Lemma deltas_lt w prev l : Forall (fun x => x < 2 ^ w) l -> Forall (fun x => x < 2 ^ w) (deltas prev l).
Proof. intros H. revert prev. induction H; intros prev; simpl; constructor; [lia | done]. Qed.

Lemma deltas_snoc prev l y x : deltas prev ((l ++ [y]) ++ [x]) = deltas prev (l ++ [y]) ++ [x - y].
Proof. revert prev. induction l as [| z l IH]; intros prev; [done |]. simpl. by rewrite IH. Qed.

Lemma lookup_behind (q : list N) y x r : (q ++ y :: x :: r) !! S (length q) = Some x.
Proof. rewrite lookup_app_r by lia. by replace (S (length q) - length q)%nat with 1%nat by lia. Qed.

Lemma insert_behind (q : list N) y x z r : <[S (length q) := z]> (q ++ y :: x :: r) = q ++ y :: z :: r.
Proof. rewrite insert_app_r_alt by lia. by replace (S (length q) - length q)%nat with 1%nat by lia. Qed.

(** The loop from the right leaves the differences. *)
Lemma delta_encode_spec p rest : StronglySorted N.le p ->
  delta_encode (length p - 1) (p ++ rest) = Some (deltas 0 p ++ rest).
Proof.
  revert rest. induction p as [| x p IH] using rev_ind; intros rest Hs; [done |].
  assert (Hp : StronglySorted N.le p) by (by eapply StronglySorted_app_1_l).
  destruct (exists_last' p) as [-> | (q & y & ->)].
  { simpl. by rewrite N.sub_0_r. }
  assert (Hyx : y <= x) by (eapply StronglySorted_app_1_elem_of; [exact Hs | set_solver..]).
  rewrite deltas_snoc. rewrite !length_app in *. simpl in *.
  replace (length q + 1 + 1 - 1)%nat with (S (length q)) by lia. cbn [delta_encode].
  rewrite <- !(app_assoc _ [_]). simpl.
  rewrite lookup_behind. simpl. rewrite list_lookup_middle by done. simpl.
  rewrite checked_sub_some by done. simpl. rewrite insert_behind.
  specialize (IH (x - y :: rest) Hp).
  replace (length q + 1 - 1)%nat with (length q) in IH by lia.
  by rewrite <- app_assoc in IH.
Qed.

(** The loop from the left restores the values. *)
Lemma undo_delta_spec ds q y rest : Forall (fun x => x < 2 ^ 32) (sums y ds) ->
  undo_delta (length ds) (S (length q)) (q ++ y :: ds ++ rest) = Some (q ++ y :: sums y ds ++ rest).
Proof.
  revert q y. induction ds as [| d ds IH]; intros q y Hs; [done |].
  cbn [sums] in *. inversion_clear Hs as [| ?? Hx Hs']. cbn [length undo_delta]. simpl.
  rewrite lookup_behind. simpl. rewrite Nat.sub_0_r, list_lookup_middle by done. simpl.
  rewrite checked_add_some by lia. simpl. rewrite insert_behind.
  specialize (IH (q ++ [y]) (y + d) Hs'). rewrite length_app, <- !app_assoc in IH. simpl in IH.
  rewrite (N.add_comm d y). by replace (length q + 1)%nat with (S (length q)) in IH by lia.
Qed.

(** ** What an iterator has left *)

(** The differences [ds] of width [bs], the values [us], and the padding. *)
Record left_over (it : PackedLinksIterator) (bs : N) (ds us : list N) (pad : N) : Prop := {
  lo_sorted_width : 8 <= bs <= 32;
  lo_unsorted_width : 8 <= bits_per_unsorted it <= 32;
  lo_pad : pad < 8;
  lo_ds : Forall (fun d => d < 2 ^ bs) ds;
  lo_us : Forall (fun v => v < 2 ^ bits_per_unsorted it) us;
  lo_sums : Forall (fun v => v < 2 ^ 32) (sums (current_delta it) ds);
  lo_reads : reads (reader it) (stream (run bs ds ++ run (bits_per_unsorted it) us)) (remaining_bits it);
  lo_remaining :
    remaining_bits it = stream_bits (run bs ds) + (stream_bits (run (bits_per_unsorted it) us) + pad);
  lo_target : stream_bits (run (bits_per_unsorted it) us) + pad <= remaining_bits_target it /\
    (ds <> [] -> remaining_bits_target it < bs + (stream_bits (run (bits_per_unsorted it) us) + pad));
}.

Definition set_to (it : PackedLinksIterator) (b : N) : Prop :=
  rbits (reader it) = b /\ mask (reader it) = make_bitmask 64 b.

(** The iterator will return [l]. *)
Definition yields (it : PackedLinksIterator) (l : list N) : Prop :=
  exists bs ds us pad, left_over it bs ds us pad /\
    set_to it (match ds with [] => bits_per_unsorted it | _ => bs end) /\
    l = sums (current_delta it) ds ++ us.

(** The comparison of the bits left with the target decides the phase. *)
Lemma phase it bs ds us pad : left_over it bs ds us pad ->
  (remaining_bits_target it <? remaining_bits it) = match ds with [] => false | _ => true end.
Proof.
  intros [? ? ? _ _ _ _ Hr [Ht Ht']]. destruct ds as [| d ds].
  - apply N.ltb_ge. simpl in Hr. lia.
  - apply N.ltb_lt. specialize (Ht' ltac:(done)). csimpl in Hr. lia.
Qed.

Lemma next_sorted_spec it bs d ds us pad : left_over it bs (d :: ds) us pad -> set_to it bs ->
  exists it', next_sorted it = Some (current_delta it + d, it') /\ left_over it' bs ds us pad /\
    set_to it' bs /\ bits_per_unsorted it' = bits_per_unsorted it /\
    current_delta it' = current_delta it + d.
Proof.
  intros [Hbs Hbu Hpad Hds Hus Hsums Hr Hrem [Ht Ht']] [Eb Em].
  inversion_clear Hds as [| ?? Hd Hds']. cbn [sums] in Hsums. inversion_clear Hsums as [| ?? Hx Hsums'].
  csimpl in *. rewrite Hrem, <- N.add_assoc in Hr.
  destruct (read_value 32 (reader it) d bs _ _ Hr Eb Em) as (r' & E & Hr' & Eb' & Em').
  { split; simpl; [done | lia]. }
  { pose proof (pow2_le bs 32 ltac:(lia)). lia. }
  unfold next_sorted. rewrite E. cbn [mbind option_bind]. rewrite Eb', checked_sub_some by lia.
  cbn [mbind option_bind]. unfold wrapping_add. rewrite N.mod_small by done.
  eexists. split; [done |].
  split; [| done]. constructor; simpl; try done; try lia.
  - by replace (remaining_bits it - bs) with (stream_bits (run bs ds) + (stream_bits (run (bits_per_unsorted it) us) + pad)) by lia.
  - split; [done |]. intros _. by apply Ht'.
Qed.

Lemma next_unsorted_spec it bs u us pad : left_over it bs [] (u :: us) pad ->
  set_to it (bits_per_unsorted it) ->
  exists it', next_unsorted it = Some (Some u, it') /\ left_over it' bs [] us pad /\
    set_to it' (bits_per_unsorted it') /\ bits_per_unsorted it' = bits_per_unsorted it.
Proof.
  intros [Hbs Hbu Hpad Hds Hus Hsums Hr Hrem [Ht Ht']] [Eb Em].
  inversion_clear Hus as [| ?? Hu Hus']. csimpl in *. rewrite N.add_0_l in Hrem.
  rewrite Hrem, <- N.add_assoc in Hr.
  destruct (read_value 32 (reader it) u (bits_per_unsorted it) _ _ Hr Eb Em) as (r' & E & Hr' & Eb' & Em').
  { split; simpl; [done | lia]. }
  { pose proof (pow2_le (bits_per_unsorted it) 32 ltac:(lia)). lia. }
  unfold next_unsorted. rewrite Eb, checked_sub_some by lia. rewrite E. cbn [mbind option_bind].
  eexists. split; [done |]. split; [| done]. constructor; simpl; try done; try lia.
  - by replace (remaining_bits it - bits_per_unsorted it)
      with (stream_bits (run (bits_per_unsorted it) us) + pad) by lia.
  - split; [lia | done].
Qed.

Lemma next_unsorted_end it bs pad : left_over it bs [] [] pad -> set_to it (bits_per_unsorted it) ->
  next_unsorted it = Some (None, it).
Proof.
  intros [Hbs Hbu Hpad _ _ _ _ Hrem _] [Eb _]. simpl in Hrem. unfold next_unsorted, checked_sub.
  rewrite Eb. destruct (N.leb_spec (bits_per_unsorted it) (remaining_bits it)); [lia | done].
Qed.

(** Turning to the unsorted values. *)
Lemma left_over_set_bits it bs ds us pad b : left_over it bs ds us pad ->
  left_over (with_reader it (set_bits (reader it) b)) bs ds us pad.
Proof. intros []. by constructor. Qed.

(** [next] returns the first value left, and nothing at the end. *)
Lemma links_next_spec it l : yields it l ->
  exists it', links_next it = Some (head l, it') /\ yields it' (tail l).
Proof.
  intros (bs & ds & us & pad & Hlo & Hset & ->). unfold links_next. rewrite (phase _ _ _ _ _ Hlo).
  destruct ds as [| d ds].
  - destruct us as [| u us]; simpl.
    + rewrite (next_unsorted_end it bs pad) by done. exists it. split; [done |]. by exists bs, [], [], pad.
    + destruct (next_unsorted_spec it bs u us pad Hlo Hset) as (it' & -> & Hlo' & Hset' & _).
      exists it'. split; [done |]. by exists bs, [], us, pad.
  - destruct (next_sorted_spec it bs d ds us pad Hlo Hset) as (it' & -> & Hlo' & Hset' & Ebu & Ec).
    simpl. rewrite <- Ec, N.leb_antisym, (phase _ _ _ _ _ Hlo').
    destruct ds as [| d' ds]; simpl; eexists; (split; [done |]).
    + exists bs, [], us, pad. split; [by apply left_over_set_bits |]. by split.
    + by exists bs, (d' :: ds), us, pad.
Qed.

Lemma links_collect_spec fuel it l : yields it l -> (length l < fuel)%nat ->
  links_collect fuel it = Some l.
Proof.
  revert it l. induction fuel as [| fuel IH]; intros it l Hy Hf; [lia |]. simpl.
  destruct (links_next_spec it l Hy) as (it' & -> & Hy'). simpl. destruct l as [| x l]; [done |].
  simpl in *. by rewrite (IH it' l) by (done || lia).
Qed.

(** The optimised [fold] visits the same values. *)
Section FoldSpec.

Context {Acc : Type} (f : Acc -> N -> Acc).

Lemma fold_sorted_spec fuel it bs ds us pad acc : left_over it bs ds us pad ->
  (ds <> [] -> set_to it bs) -> (length ds <= fuel)%nat ->
  exists it', fold_sorted f fuel it acc = Some (it', foldl f acc (sums (current_delta it) ds)) /\
    left_over it' bs [] us pad.
Proof.
  revert fuel it acc. induction ds as [| d ds IH]; intros fuel it acc Hlo Hset Hf.
  - destruct fuel; cbn [fold_sorted]; rewrite (phase _ _ _ _ _ Hlo); by exists it.
  - destruct fuel as [| fuel]; [simpl in Hf; lia |]. cbn [fold_sorted]. rewrite (phase _ _ _ _ _ Hlo).
    destruct (next_sorted_spec it bs d ds us pad Hlo (Hset ltac:(done)))
      as (it' & -> & Hlo' & Hset' & _ & Ec). simpl in *. rewrite <- Ec.
    apply IH; [done | done | lia].
Qed.

Lemma fold_unsorted_spec fuel it bs us pad acc : left_over it bs [] us pad ->
  set_to it (bits_per_unsorted it) -> (length us < fuel)%nat ->
  fold_unsorted f fuel it acc = Some (foldl f acc us).
Proof.
  revert it us acc. induction fuel as [| fuel IH]; intros it us acc Hlo Hset Hf; [lia |].
  destruct us as [| u us]; simpl.
  - by rewrite (next_unsorted_end it bs pad).
  - destruct (next_unsorted_spec it bs u us pad Hlo Hset) as (it' & -> & Hlo' & Hset' & _). simpl in *.
    apply IH; [done | done | lia].
Qed.

Lemma links_fold_spec fuel it l acc : yields it l -> (length l < fuel)%nat ->
  links_fold f fuel it acc = Some (foldl f acc l).
Proof.
  intros (bs & ds & us & pad & Hlo & Hset & ->) Hf. rewrite length_app in Hf. unfold links_fold.
  assert (Hl : length (sums (current_delta it) ds) = length ds).
  { generalize (current_delta it). clear. induction ds; intros c; simpl; auto. }
  destruct (fold_sorted_spec fuel it bs ds us pad acc Hlo) as (it' & -> & Hlo'); [| lia |].
  { by destruct ds. }
  simpl. rewrite (fold_unsorted_spec _ _ bs us pad); [by rewrite foldl_app | | done | lia].
  by apply left_over_set_bits.
Qed.

End FoldSpec.

(** [size_hint] is exact at every moment. *)
Lemma checked_div_some a b q : b <> 0 -> b * q <= a < b * q + b -> checked_div a b = Some q.
Proof.
  intros Hb Hq. unfold checked_div. destruct (N.eqb_spec b 0); [done |]. f_equal. symmetry.
  apply (N.div_unique _ _ _ (a - b * q)); lia.
Qed.

Lemma length_sums c ds : length (sums c ds) = length ds.
Proof. revert c. induction ds; intros c; simpl; auto. Qed.

Lemma links_size_hint_spec it l : yields it l -> links_size_hint it = Some (N.of_nat (length l)).
Proof.
  intros (bs & ds & us & pad & [Hbs Hbu Hpad _ _ _ _ Hrem [Ht Ht']] & [Eb _] & ->).
  unfold links_size_hint, next_multiple_of, checked_sub at 1.
  rewrite length_app, length_sums, Nat2N.inj_add. rewrite !run_bits in *. rewrite Eb.
  destruct ds as [| d ds].
  - simpl in *. destruct (N.leb_spec (remaining_bits_target it) (remaining_bits it)).
    + destruct (N.eqb_spec (bits_per_unsorted it) 0); [lia |]. cbn [mbind option_bind].
      replace (remaining_bits it - remaining_bits_target it) with 0 by lia.
      rewrite (div_ceil_unique 0 _ 0) by lia. rewrite N.mul_0_l.
      rewrite (checked_div_some 0 _ 0) by lia. cbn [mbind option_bind].
      rewrite checked_sub_some by lia. cbn [mbind option_bind].
      by rewrite (checked_div_some _ _ (N.of_nat (length us))) by lia.
    + by rewrite (checked_div_some _ _ (N.of_nat (length us))) by lia.
  - specialize (Ht' ltac:(done)). set (k := N.of_nat (length (d :: ds))) in *.
    assert (1 <= k) by (unfold k; simpl; lia). clearbody k.
    destruct (N.leb_spec (remaining_bits_target it) (remaining_bits it)); [| nia].
    destruct (N.eqb_spec bs 0); [lia |]. cbn [mbind option_bind].
    rewrite (div_ceil_unique _ _ k) by nia. rewrite (checked_div_some _ _ k) by lia. cbn [mbind option_bind].
    rewrite checked_sub_some by lia. cbn [mbind option_bind].
    by rewrite (checked_div_some _ _ (N.of_nat (length us))) by lia.
Qed.

(** ** Opening packed links *)

(** The stream packing writes: a header and differences, if there are any, and
    the rest. *)
Definition links_stream (bs bu : N) (ds us : list N) : list (N * N) :=
  match ds with [] => [] | _ => (bs - 8, 5) :: run bs ds end ++ run bu us.

Lemma links_stream_bits bs bu ds us :
  stream_bits (links_stream bs bu ds us) =
    match ds with [] => 0 | _ => 5 + bs * N.of_nat (length ds) end + bu * N.of_nat (length us).
Proof.
  unfold links_stream. rewrite stream_bits_app, run_bits. destruct ds as [| d ds]; [done |].
  cbn [stream_bits]. by rewrite run_bits.
Qed.

(** Bytes that hold the packed links [sums 0 ds ++ us] of a node whose first
    [sorted_count] links are sorted. *)
Record packs (packed : list N) (bs bu : N) (ds us : list N) (sorted_count : nat) : Prop := {
  pk_ok : bytes_ok packed;
  pk_stream : from_le_bytes packed = stream (links_stream bs bu ds us);
  pk_length : N.of_nat (length packed) = div_ceil (stream_bits (links_stream bs bu ds us)) 8;
  pk_sorted_width : 8 <= bs <= 32;
  pk_unsorted_width : 8 <= bu <= 32;
  pk_ds : Forall (fun d => d < 2 ^ bs) ds;
  pk_us : Forall (fun v => v < 2 ^ bu) us;
  pk_sums : Forall (fun v => v < 2 ^ 32) (sums 0 ds);
  pk_count : length ds = Nat.min (length ds + length us) sorted_count;
}.

Lemma iterate_packed_links_spec packed bs bu ds us sorted_count :
  packs packed bs bu ds us sorted_count ->
  exists it, iterate_packed_links packed bu (N.of_nat sorted_count) = Some it /\ yields it (sums 0 ds ++ us).
Proof.
  intros [Hok En El Hbs Hbu Hds Hus Hsums Hcount].
  pose proof (div_ceil_bounds (stream_bits (links_stream bs bu ds us)) 8 ltac:(done)) as Hc.
  rewrite <- El in Hc. fold (nbits packed) in Hc. pose proof (reads_new packed Hok) as Hr. rewrite En in Hr.
  rewrite links_stream_bits in Hc. unfold iterate_packed_links. destruct ds as [| d ds].
  - assert (Hb : negb (N.of_nat sorted_count =? 0) && negb (length packed =? 0)%nat = false).
    { destruct us as [| u us]; cbn [length] in Hcount, Hc.
      - apply andb_false_iff. right. unfold nbits in Hc. destruct packed; [done | simpl in Hc; lia].
      - by replace sorted_count with O by lia. }
    rewrite Hb. eexists. split; [done |]. exists bs, [], us, (nbits packed - bu * N.of_nat (length us)).
    split; [| by split]. constructor; simpl; try done; try lia; rewrite ?run_bits; lia.
  - assert (Hb : negb (N.of_nat sorted_count =? 0) && negb (length packed =? 0)%nat = true).
    { unfold nbits in Hc. apply andb_true_iff. cbn [length] in Hcount.
      split; apply negb_true_iff; [apply N.eqb_neq | apply Nat.eqb_neq]; lia. }
    rewrite Hb. set (k := N.of_nat (length (d :: ds))) in *. assert (1 <= k) by (unfold k; simpl; lia).
    set (pad := nbits packed - (5 + bs * k + bu * N.of_nat (length us))).
    change LINKS_HEADER_BITS with 5. change MIN_BITS_PER_VALUE with 8.
    replace (nbits packed) with (5 + (bs * k + (bu * N.of_nat (length us) + pad))) in Hr by (unfold pad; lia).
    unfold links_stream in Hr. cbn [app stream] in Hr.
    destruct (read_value 8 (set_bits (BitReader_new packed) 5) (bs - 8) 5 _ _ (reads_set_bits _ _ _ 5 Hr))
      as (r & -> & Hr1 & _); [done | done | split; simpl; lia | simpl; lia |].
    cbn [mbind option_bind]. rewrite checked_add_some by (simpl; lia). cbn [mbind option_bind].
    replace (bs - 8 + 8) with bs by lia. rewrite checked_sub_some by lia. cbn [mbind option_bind].
    replace (nbits packed - 5) with (bs * k + (bu * N.of_nat (length us) + pad)) by (unfold pad; lia).
    assert (Hmin : N.min (N.of_nat sorted_count) ((bs * k + (bu * N.of_nat (length us) + pad)) / bs) = k).
    { assert (Hp : pad < 8) by (unfold pad; lia).
      destruct us as [| u us].
      - rewrite <- (N.div_unique _ bs k pad) by (simpl; lia). cbn [length] in Hcount. unfold k. cbn [length]. lia.
      - cbn [length] in Hcount. assert (N.of_nat sorted_count = k) as -> by (unfold k; cbn [length]; lia).
        apply N.min_l. apply N.div_le_lower_bound; lia. }
    rewrite Hmin. rewrite checked_sub_some by (unfold pad; lia). cbn [mbind option_bind].
    eexists. split; [done |]. exists bs, (d :: ds), us, pad. split; [| by split].
    constructor; cbn [reader bits_per_unsorted remaining_bits remaining_bits_target current_delta];
      rewrite ?run_bits; fold k; try done; unfold pad; lia.
Qed.

(** ** Packing *)

Lemma sort_u32_sorted l : StronglySorted N.le (sort_u32 l).
Proof. apply StronglySorted_merge_sort; [apply _ |]. intros x y. destruct (N.le_gt_cases x y); lia. Qed.

Lemma sort_u32_perm l : sort_u32 l ≡ₚ l.
Proof. apply merge_sort_Permutation. Qed.

Lemma deltas_undone l rest : StronglySorted N.le l -> Forall (fun v => v < 2 ^ 32) l ->
  undo_delta (length l - 1) 1 (deltas 0 l ++ rest) = Some (l ++ rest).
Proof.
  intros Hs Hl. destruct l as [| y l]; [done |]. cbn [deltas]. rewrite N.sub_0_r.
  pose proof (sums_deltas y l Hs) as E. inversion_clear Hl as [| ?? _ Hl'].
  pose proof (undo_delta_spec (deltas y l) [] y rest) as H. rewrite E, length_deltas in H.
  simpl. rewrite Nat.sub_0_r. by apply H.
Qed.

(** The two writing phases write one stream. *)
Lemma write_links ds us bu : Forall (fun v => v < 2 ^ 32) ds ->
  exists bs, 8 <= bs <= 32 /\ Forall (fun v => v < 2 ^ bs) ds /\ forall w,
    (w ← (if (length ds =? 0)%nat then Some w
          else
            max ← iter_max ds;
            let bits_per_sorted := N.max (packed_bits 32 max) MIN_BITS_PER_VALUE in
            header ← checked_sub bits_per_sorted MIN_BITS_PER_VALUE;
            w ← BitWriter_write w header LINKS_HEADER_BITS;
            write_all w (run bits_per_sorted ds));
     write_all w (run bu us)) = write_all w (links_stream bs bu ds us).
Proof.
  intros Hds. destruct (decide (ds = [])) as [-> | Hne].
  { exists 8. split; [lia |]. by split. }
  destruct (iter_max_spec ds Hne) as (m & Em & _).
  destruct (chosen_width 32 ds m ltac:(lia) ltac:(lia) Hds Em) as [Hb Hfit].
  exists (N.max (packed_bits 32 m) MIN_BITS_PER_VALUE). split; [done |]. split; [done |]. intros w.
  rewrite Em. cbn [mbind option_bind]. rewrite checked_sub_some by (unfold MIN_BITS_PER_VALUE; lia).
  destruct ds as [| d ds]; [done |]. unfold links_stream. by rewrite write_all_app.
Qed.

(** Packing appends the links and leaves them reordered. *)
Lemma pack_links_spec links raw bu sorted_count (sorted := sort_u32 (take sorted_count raw)) :
  8 <= bu <= 32 -> Forall (fun v => v < 2 ^ 32) raw ->
  Forall (fun v => v < 2 ^ bu) (drop sorted_count raw) ->
  exists bs packed,
    pack_links links raw bu sorted_count = Some (links ++ packed, sorted ++ drop sorted_count raw) /\
    packs packed bs bu (deltas 0 sorted) (drop sorted_count raw) sorted_count.
Proof.
  intros Hbu Hraw Hus. pose proof (sort_u32_sorted (take sorted_count raw)) as Hs.
  pose proof (sort_u32_perm (take sorted_count raw)) as Hp. fold sorted in Hs, Hp.
  assert (Hlen : length sorted = Nat.min (length raw) sorted_count).
  { rewrite Hp, length_take. lia. }
  assert (Hsorted : Forall (fun v => v < 2 ^ 32) sorted) by (rewrite Hp; by apply Forall_take).
  pose proof (deltas_lt 32 0 sorted Hsorted) as Hds.
  destruct (write_links _ (drop sorted_count raw) bu Hds) as (bs & Hb & Hfit & Hw).
  destruct (pack_spec links (links_stream bs bu (deltas 0 sorted) (drop sorted_count raw)))
    as (self & packed & E & Ef & Hok & En & El).
  { unfold links_stream. apply Forall_app. split; [| apply run_fits; [lia | done]].
    destruct (deltas 0 sorted); [done |]. constructor; [split; simpl; lia | apply run_fits; [lia | done]]. }
  exists bs, packed. split.
  - rewrite <- Hw, length_deltas in E. unfold pack_links. destruct raw as [| x raw].
    + unfold sorted in *. rewrite take_nil, drop_nil in *. injection E as <-.
      rewrite finish_new in Ef. by rewrite <- Ef.
    + set (l := x :: raw) in *. clearbody l. clear x raw. cbv zeta.
      assert (Et : take (Nat.min (length l) sorted_count) l = take sorted_count l).
      { rewrite Nat.min_comm, <- take_take. by rewrite firstn_all. }
      assert (Ed : drop (Nat.min (length l) sorted_count) l = drop sorted_count l).
      { destruct (Nat.min_spec (length l) sorted_count) as [[? ->] | [? ->]]; [| done].
        by rewrite !drop_ge by lia. }
      rewrite Et, Ed. fold sorted. rewrite <- Hlen, delta_encode_spec by done. cbn [mbind option_bind].
      rewrite take_app_length', drop_app_length' by (symmetry; apply length_deltas).
      destruct (if (length sorted =? 0)%nat then _ else _) as [w1 |]; [| done]. cbn [mbind option_bind] in *.
      rewrite E. cbn [mbind option_bind]. rewrite deltas_undone by done. cbn [mbind option_bind].
      by rewrite Ef.
  - constructor; try done.
    + by rewrite sums_deltas by (constructor; [done | apply Forall_forall; lia]).
    + rewrite length_deltas, Hlen, length_drop. lia.
Qed.

(** The size read off the header, whatever follows the packed links. *)
Lemma packed_links_size_spec packed bs bu ds us sorted_count trailing :
  packs packed bs bu ds us sorted_count ->
  packed_links_size (packed ++ trailing) bu (N.of_nat sorted_count) (N.of_nat (length (ds ++ us)))
    = Some (N.of_nat (length packed)).
Proof.
  intros [Hok En El Hbs Hbu _ _ _ Hcount]. rewrite length_app. unfold packed_links_size.
  rewrite links_stream_bits in El.
  destruct (N.eqb_spec (N.of_nat (length ds + length us)) 0) as [E0 | Hne].
  { destruct ds as [| d ds], us as [| u us]; cbn [length] in *; try lia.
    rewrite El. by rewrite N.mul_0_r. }
  pose proof (div_ceil_bounds (match ds with [] => 0 | _ => 5 + bs * N.of_nat (length ds) end
    + bu * N.of_nat (length us)) 8 ltac:(done)) as Hc. rewrite <- El in Hc.
  destruct packed as [| b packed].
  { destruct ds, us; cbn [length] in *; lia. }
  cbn [app]. replace (N.min _ _) with (N.of_nat (length ds)) by lia.
  rewrite checked_sub_some by lia.
  replace (N.of_nat (length ds + length us) - N.of_nat (length ds)) with (N.of_nat (length us)) by lia.
  destruct ds as [| d ds]; cbn [mbind option_bind].
  - rewrite El. cbn [length]. by rewrite (N.mul_comm bu).
  - destruct (N.ltb_spec 0 (N.of_nat (length (d :: ds)))); [| cbn [length] in *; lia].
    assert (Hb : N.land b (make_bitmask 8 LINKS_HEADER_BITS) = bs - 8).
    { change LINKS_HEADER_BITS with 5. rewrite land_bitmask by lia. cbn [from_le_bytes] in En.
      unfold links_stream in En. cbn [app stream] in En.
      apply (f_equal (fun x => x mod 2 ^ 5)) in En.
      rewrite (field_mod_low (bs - 8)), (N.mod_small (bs - 8)) in En by (simpl; lia).
      rewrite <- En. change 256 with (2 ^ 8). by rewrite field_mod_low by lia. }
    rewrite Hb. change LINKS_HEADER_BITS with 5. change MIN_BITS_PER_VALUE with 8.
    rewrite checked_add_some by (simpl; lia). cbn [mbind option_bind]. rewrite El.
    replace (bs - 8 + 8) with bs by lia. by rewrite (N.mul_comm bs), (N.mul_comm bu).
Qed.

(** [C21] Packed links are read back.  For links below 2^32 whose unsorted part
    fits its width, packing succeeds, appends to the output and leaves the
    links with the first [sorted_count] of them sorted; iterating the packed
    bytes by [next] or by [fold] visits exactly those links in that order, the
    size hint is their number, and [packed_links_size] finds the end of the
    packed bytes in front of any others. *)
Theorem packed_links_roundtrip (links raw trailing : list N) (bu : N) (sorted_count : nat) :
  8 <= bu <= 32 -> Forall (fun v => v < 2 ^ 32) raw ->
  Forall (fun v => v < 2 ^ bu) (drop sorted_count raw) ->
  exists packed raw' it,
    pack_links links raw bu sorted_count = Some (links ++ packed, raw') /\
    raw' = sort_u32 (take sorted_count raw) ++ drop sorted_count raw /\
    iterate_packed_links packed bu (N.of_nat sorted_count) = Some it /\
    links_size_hint it = Some (N.of_nat (length raw)) /\
    links_collect (S (length raw)) it = Some raw' /\
    (forall Acc (f : Acc -> N -> Acc) acc,
       links_fold f (S (length raw)) it acc = Some (foldl f acc raw')) /\
    packed_links_size (packed ++ trailing) bu (N.of_nat sorted_count) (N.of_nat (length raw))
      = Some (N.of_nat (length packed)).
Proof.
  intros Hbu Hraw Hus.
  destruct (pack_links_spec links raw bu sorted_count Hbu Hraw Hus) as (bs & packed & Ep & Hp).
  set (sorted := sort_u32 (take sorted_count raw)) in *.
  assert (Hs : sums 0 (deltas 0 sorted) = sorted).
  { apply sums_deltas. constructor; [apply sort_u32_sorted | apply Forall_forall; lia]. }
  assert (Hl : length (sorted ++ drop sorted_count raw) = length raw).
  { rewrite length_app. unfold sorted. rewrite sort_u32_perm, <- length_app. by rewrite take_drop. }
  destruct (iterate_packed_links_spec _ _ _ _ _ _ Hp) as (it & Ei & Hy). rewrite Hs in Hy.
  exists packed, (sorted ++ drop sorted_count raw), it.
  split; [done |]. split; [done |]. split; [done |].
  split; [rewrite <- Hl; by apply links_size_hint_spec |].
  split; [apply links_collect_spec; [done | lia] |].
  split; [intros; apply links_fold_spec; [done | lia] |].
  rewrite <- (packed_links_size_spec _ _ _ _ _ _ trailing Hp), <- Hl.
  by rewrite !length_app, length_deltas.
Qed.

Lemma packed_links_roundtrip_witness :
  exists packed it,
    pack_links [9] [300; 2; 70000; 1; 5] 8 3 = Some ([9] ++ packed, [2; 300; 70000; 1; 5]) /\
    iterate_packed_links packed 8 3 = Some it /\
    links_collect 6 it = Some [2; 300; 70000; 1; 5] /\
    packed_links_size (packed ++ [77]) 8 3 5 = Some (N.of_nat (length packed)).
Proof.
  destruct (packed_links_roundtrip [9] [300; 2; 70000; 1; 5] [77] 8 3)
    as (packed & raw' & it & Ep & -> & Ei & _ & Ec & _ & Es).
  - lia.
  - repeat constructor; lia.
  - repeat constructor; lia.
  - exists packed, it. by split_and!.
Defined.
