(* ===== verification/OrderedPacking.v ===== *)
(** * Random access to a packed sorted sequence

    lib/common/common/src/bitpacking_ordered.rs: sorted [u64] values in chunks
    of one size, each a base and the differences to it, with a tail of seven
    bytes so that every value is read by two unaligned and unchecked reads of
    eight bytes.  The parameters are the cheapest of eight candidates.

    The file proves that compression succeeds on every sorted sequence with
    the cheapest parameters and that every index is read back; and that a
    reader that was accepted for any parameters and any bytes, also corrupted
    ones, never reads outside of its slice. *)

From S2P Require Import Prelude MachineInt BitPacking DeltaPack.

Local Open Scope N_scope.

(** [TAIL_SIZE], [DELTA_BITS_RANGE], [MAX_CHUNK_LEN_LOG2] *)
Definition TAIL_SIZE : N := 7.
Definition DELTA_BITS_START : N := 1.
Definition DELTA_BITS_END : N := 56.
Definition MAX_CHUNK_LEN_LOG2 : N := 7.

Record Parameters : Type := mkParameters {
  p_length : N;
  base_bits : N;
  delta_bits : N;
  chunk_len_log2 : N;
}.

Definition delta_bits_in_range (bits : N) : bool := (DELTA_BITS_START <=? bits) && (bits <=? DELTA_BITS_END).

(** [Parameters::valid] *)
Definition parameters_valid (p : Parameters) : bool :=
  (base_bits p <=? 64) && delta_bits_in_range (delta_bits p) && (chunk_len_log2 p <=? MAX_CHUNK_LEN_LOG2).

(** [Parameters::chunk_size_bytes] *)
Definition chunk_size_bytes (p : Parameters) : option N :=
  deltas ← checked_mul 64 (delta_bits p) (make_bitmask 64 (chunk_len_log2 p));
  bits ← checked_add 64 (base_bits p) deltas;
  Some (div_ceil bits 8).

(** [Parameters::total_chunks_size_bytes] *)
Definition total_chunks_size_bytes (p : Parameters) : option N :=
  let chunks_count := div_ceil (p_length p) (2 ^ chunk_len_log2 p) in
  size ← chunk_size_bytes p;
  checked_mul 64 chunks_count size.

(** [1 << chunk_len_log2] *)
Definition chunk_len (p : Parameters) : nat := N.to_nat (2 ^ chunk_len_log2 p).

(** ** Compression *)

(** The values of a chunk behind its base. *)
Fixpoint write_deltas (w : BitWriter) (first bits : N) (values : list N) : option BitWriter :=
  match values with
  | [] => Some w
  | value :: values' =>
      delta ← checked_sub value first;
      w ← BitWriter_write w delta bits; write_deltas w first bits values'
  end.

(** The body of the loop over chunks. *)
Definition compress_chunk (p : Parameters) (compressed chunk : list N) : option (list N) :=
  first ← chunk !! 0%nat;
  w ← BitWriter_write (BitWriter_new compressed) first (base_bits p);
  w ← write_deltas w first (delta_bits p) (drop 1 chunk);
  w ← write_all w (replicate (chunk_len p - length chunk)
                     (make_bitmask 64 (delta_bits p), delta_bits p));
  Some (BitWriter_finish w).

Fixpoint compress_chunks (p : Parameters) (compressed : list N) (cs : list (list N)) : option (list N) :=
  match cs with
  | [] => Some compressed
  | chunk :: cs' => compressed ← compress_chunk p compressed chunk; compress_chunks p compressed cs'
  end.

(** [compress_with_parameters] *)
Definition compress_with_parameters (values : list N) (p : Parameters) : option (list N) :=
  total ← total_chunks_size_bytes p;
  expected_size ← checked_add 64 total TAIL_SIZE;
  compressed ← compress_chunks p [] (slice_chunks (chunk_len p) values);
  let compressed := compressed ++ replicate (N.to_nat TAIL_SIZE) 255 in
  if N.of_nat (length compressed) =? expected_size then Some compressed else None.

(** The width of the differences, over all chunks. *)
Fixpoint widest_delta (delta_bits : N) (cs : list (list N)) : option N :=
  match cs with
  | [] => Some delta_bits
  | chunk :: cs' =>
      l ← last chunk; first ← chunk !! 0%nat;
      d ← checked_sub l first;
      widest_delta (N.max delta_bits (packed_bits 64 d)) cs'
  end.

(** One candidate of [Parameters::try_all]. *)
Definition candidate (values : list N) (log2 : N) : option Parameters :=
  let last_value := default 0 (last values) in
  bits ← widest_delta DELTA_BITS_START (slice_chunks (N.to_nat (2 ^ log2)) values);
  Some {| p_length := N.of_nat (length values);
          base_bits := N.max (packed_bits 64 last_value) 1;
          delta_bits := bits; chunk_len_log2 := log2 |}.

(** [Parameters::try_all] *)
Definition try_all (values : list N) : option (list Parameters) :=
  all ← mapM (candidate values) [0; 1; 2; 3; 4; 5; 6; 7];
  Some (List.filter (fun p => delta_bits_in_range (delta_bits p)) all).

(** [Ord for Option<usize>]: [None] comes first. *)
Definition size_lt (a b : option N) : bool :=
  match a, b with
  | None, Some _ => true
  | Some x, Some y => x <? y
  | _, None => false
  end.

(** [Iterator::min_by_key]: the first of the least elements. *)
Fixpoint min_by_key (best : Parameters) (l : list Parameters) : Parameters :=
  match l with
  | [] => best
  | p :: l' =>
      min_by_key (if size_lt (total_chunks_size_bytes p) (total_chunks_size_bytes best) then p else best) l'
  end.

(** [Parameters::find_best] *)
Definition find_best (values : list N) : option Parameters :=
  all ← try_all values;
  match all with [] => None | p :: l => Some (min_by_key p l) end.

(** [compress] *)
Definition compress (values : list N) : option (list N * Parameters) :=
  p ← find_best values;
  compressed ← compress_with_parameters values p;
  Some (compressed, p).

(** ** Reading *)

Record Reader : Type := mkReader {
  r_base_bits : N;
  base_mask : N;
  r_delta_bits : N;
  delta_mask : N;
  r_chunk_len_log2 : N;
  chunk_len_mask : N;
  r_chunk_size_bytes : N;
  compressed : list N;
  len : N;
}.

(** [Result<T, DecompressionError>] *)
Inductive decompression (A : Type) : Type :=
  | Decompressed (a : A)
  | DecompressionError (message : string).
Arguments Decompressed {A} a.
Arguments DecompressionError {A} message.

(** The two assertions of [Reader::new]. *)
Definition reader_asserts (r : Reader) : bool :=
  if len r =? 0 then true
  else
    let max_index := len r - 1 in
    let chunk_offset := N.shiftr max_index (r_chunk_len_log2 r) * r_chunk_size_bytes r in
    (chunk_offset + 8 <=? N.of_nat (length (compressed r))) &&
    (let max_value_index := chunk_len_mask r in
     if 0 <? max_value_index then
       let delta_offset_bits := r_base_bits r + (max_value_index - 1) * r_delta_bits r in
       chunk_offset + delta_offset_bits / 8 + 8 <=? N.of_nat (length (compressed r))
     else true).

(** [Reader::new]: the reader and the bytes behind its slice. *)
Definition Reader_new (p : Parameters) (bytes : list N) : option (decompression (Reader * list N)) :=
  if negb (parameters_valid p) then Some (DecompressionError "invalid parameters")
  else
    match total_chunks_size_bytes p ≫= (fun size => checked_add 64 size TAIL_SIZE) with
    | None => Some (DecompressionError "invalid parameters")
    | Some total_size_bytes =>
        if N.of_nat (length bytes) <? total_size_bytes then
          Some (DecompressionError "insufficient length (compressed data, expected {} bytes, got {})")
        else
          size ← chunk_size_bytes p;
          let r := {| r_base_bits := base_bits p; base_mask := make_bitmask 64 (base_bits p);
                      r_delta_bits := delta_bits p; delta_mask := make_bitmask 64 (delta_bits p);
                      r_chunk_len_log2 := chunk_len_log2 p;
                      chunk_len_mask := make_bitmask 64 (chunk_len_log2 p);
                      r_chunk_size_bytes := size;
                      compressed := take (N.to_nat total_size_bytes) bytes;
                      len := p_length p |} in
          if reader_asserts r then Some (Decompressed (r, drop (N.to_nat total_size_bytes) bytes))
          else None
    end.

(** The result of [Reader::get]: a value or none, the panic of the final
    addition, or a read outside of the slice, which the source leaves
    undefined. *)
Inductive access : Type :=
  | Got (value : option N)
  | Overflow
  | OutOfBounds.

(** [read_u64_le] at an offset of the slice. *)
Definition read_u64_le (bytes : list N) (offset : N) : option N :=
  if offset + 8 <=? N.of_nat (length bytes)
  then Some (from_le_bytes (take 8 (drop (N.to_nat offset) bytes))) else None.

(** [Reader::get] *)
Definition get (self : Reader) (index : N) : access :=
  if len self <=? index then Got None
  else
    let chunk_offset := N.shiftr index (r_chunk_len_log2 self) * r_chunk_size_bytes self in
    let value_index := N.land index (chunk_len_mask self) in
    match read_u64_le (compressed self) chunk_offset with
    | None => OutOfBounds
    | Some word =>
        let base := N.land word (base_mask self) in
        if value_index =? 0 then Got (Some base)
        else
          let delta_offset_bits := r_base_bits self + (value_index - 1) * r_delta_bits self in
          match read_u64_le (compressed self) (chunk_offset + delta_offset_bits / 8) with
          | None => OutOfBounds
          | Some word =>
              let delta := N.land (N.shiftr word (delta_offset_bits mod 8)) (delta_mask self) in
              match checked_add 64 base delta with Some v => Got (Some v) | None => Overflow end
          end
    end.

(** ** Reading in bounds *)

(** [C19] Memory safety of the unchecked reads: whatever the parameters and the
    bytes, if [Reader::new] returns a reader then no index makes [get] read
    outside of the reader's slice. *)
Theorem reader_in_bounds (p : Parameters) (bytes rest : list N) (r : Reader) (index : N) :
  Reader_new p bytes = Some (Decompressed (r, rest)) -> get r index <> OutOfBounds.
Proof.
  unfold Reader_new. destruct (parameters_valid p) eqn:Hv; simpl; [| done].
  destruct (_ ≫= _) as [total |]; [| done]. destruct (_ <? _); [done |].
  destruct (chunk_size_bytes p) as [size |]; [| done]. simpl.
  destruct (reader_asserts _) eqn:Ha; [| done]. intros [= <- _].
  unfold parameters_valid in Hv. apply andb_true_iff in Hv as [_ Hc%N.leb_le].
  unfold MAX_CHUNK_LEN_LOG2 in Hc. unfold reader_asserts in Ha. unfold get. simpl in *.
  set (bs := take _ bytes) in *. clearbody bs.
  destruct (N.leb_spec (p_length p) index); [done |].
  destruct (N.eqb_spec (p_length p) 0); [lia |]. apply andb_true_iff in Ha as [Hbase%N.leb_le Hdelta].
  rewrite !N.shiftr_div_pow2 in *. rewrite (land_bitmask 64 (chunk_len_log2 p)) by lia.
  rewrite (make_bitmask_pow 64 (chunk_len_log2 p)) in Hdelta by lia.
  set (c := chunk_len_log2 p) in *.
  assert (Hoff : index / 2 ^ c * size <= (p_length p - 1) / 2 ^ c * size).
  { apply N.mul_le_mono_r, N.Div0.div_le_mono. lia. }
  pose proof (N.mod_lt index (2 ^ c) (pow2_nonzero c)) as Hmod.
  generalize dependent (index mod 2 ^ c). intros vi Hvi. generalize dependent (index / 2 ^ c * size).
  intros off Hoff. unfold read_u64_le.
  destruct (N.leb_spec (off + 8) (N.of_nat (length bs))); [| lia].
  destruct (N.eqb_spec vi 0); [done |].
  destruct (N.ltb_spec 0 (2 ^ c - 1)); [| lia]. apply N.leb_le in Hdelta.
  assert (Hbits : (base_bits p + (vi - 1) * delta_bits p) / 8
    <= (base_bits p + (2 ^ c - 1 - 1) * delta_bits p) / 8).
  { apply N.Div0.div_le_mono, N.add_le_mono_l, N.mul_le_mono_r. lia. }
  destruct (N.leb_spec (off + (base_bits p + (vi - 1) * delta_bits p) / 8 + 8) (N.of_nat (length bs))); [| lia].
  by destruct (checked_add _ _ _).
Qed.

(** Bytes that no compression wrote. *)
Lemma reader_in_bounds_witness :
  exists r rest, Reader_new {| p_length := 5; base_bits := 9; delta_bits := 56; chunk_len_log2 := 2 |}
      (replicate 60 255) = Some (Decompressed (r, rest)) /\ get r 3 <> OutOfBounds.
Proof.
  eexists _, _. split; [vm_compute; reflexivity |].
  eapply (reader_in_bounds {| p_length := 5; base_bits := 9; delta_bits := 56; chunk_len_log2 := 2 |}
    (replicate 60 255)). vm_compute. reflexivity.
Defined.

(** ** Chunks *)

Lemma length_chunks_loop fuel k (l : list N) : (0 < k)%nat -> (length l <= fuel)%nat ->
  N.of_nat (length (chunks_loop fuel k l)) = div_ceil (N.of_nat (length l)) (N.of_nat k).
Proof.
  intros Hk. revert l.
  induction fuel as [| fuel IH]; intros l Hl.
  { destruct l; [| simpl in Hl; lia]. symmetry. apply div_ceil_unique; simpl; lia. }
  destruct l as [| x l]; [symmetry; apply div_ceil_unique; simpl; lia |]. cbn [chunks_loop].
  set (l0 := x :: l) in *. assert (H0 : (1 <= length l0)%nat) by (simpl; lia). clearbody l0.
  cbn [length]. rewrite Nat2N.inj_succ. rewrite IH by (rewrite length_drop; lia). rewrite length_drop.
  symmetry. apply div_ceil_unique; [lia |].
  pose proof (div_ceil_bounds (N.of_nat (length l0 - k)) (N.of_nat k) ltac:(lia)).
  rewrite N.mul_succ_r. generalize dependent (div_ceil (N.of_nat (length l0 - k)) (N.of_nat k)). intros q Hq.
  destruct (Nat.le_gt_cases k (length l0)); [lia |].
  assert (q = 0) as -> by nia. lia.
Qed.

Lemma length_chunks k (l : list N) : (0 < k)%nat ->
  N.of_nat (length (slice_chunks k l)) = div_ceil (N.of_nat (length l)) (N.of_nat k).
Proof. intros Hk. by apply length_chunks_loop. Qed.

(** ** Packed chunks *)

(** A chunk that fits the parameters. *)
Definition chunk_fits (p : Parameters) (first : N) (vs : list N) : Prop :=
  first < 2 ^ base_bits p /\ Forall (fun v => first <= v /\ v - first < 2 ^ delta_bits p) vs /\
  (length (first :: vs) <= chunk_len p)%nat.

Definition parameters_ok (p : Parameters) : Prop :=
  1 <= base_bits p <= 64 /\ 1 <= delta_bits p <= 56 /\ chunk_len_log2 p <= 7.

(** The stream of a chunk: base, differences, padding. *)
Definition chunk_stream (p : Parameters) (first : N) (vs : list N) : list (N * N) :=
  (first, base_bits p) :: run (delta_bits p) ((fun v => v - first) <$> vs) ++
  replicate (chunk_len p - length (first :: vs)) (make_bitmask 64 (delta_bits p), delta_bits p).

Lemma chunk_len_pos p : (1 <= chunk_len p)%nat.
Proof. unfold chunk_len. pose proof (pow2_pos (chunk_len_log2 p)). lia. Qed.

Lemma write_deltas_all w first bits vs : Forall (fun v => first <= v) vs ->
  write_deltas w first bits vs = write_all w (run bits ((fun v => v - first) <$> vs)).
Proof.
  intros H. revert w. induction H as [| v vs Hv _ IH]; intros w; [done |]. simpl.
  rewrite checked_sub_some by done. simpl. destruct (BitWriter_write w (v - first) bits); [apply IH | done].
Qed.

Lemma replicate_bits n v b : stream_bits (replicate n (v, b)) = b * N.of_nat n.
Proof. induction n as [| n IH]; cbn [replicate stream_bits]; [lia |]. rewrite IH. lia. Qed.

Definition chunk_size (p : Parameters) : N :=
  div_ceil (base_bits p + delta_bits p * (2 ^ chunk_len_log2 p - 1)) 8.

Lemma chunk_size_bytes_ok p : parameters_ok p -> chunk_size_bytes p = Some (chunk_size p) /\ 1 <= chunk_size p <= 1024.
Proof.
  intros (Hb & Hd & Hc). unfold chunk_size_bytes. rewrite make_bitmask_pow by lia.
  unfold checked_mul.
  pose proof (pow2_le _ _ Hc) as H7. change (2 ^ 7) with 128 in H7.
  pose proof (pow2_pos (chunk_len_log2 p)).
  assert (delta_bits p * (2 ^ chunk_len_log2 p - 1) <= 56 * 127) by nia.
  assert (56 * 127 + 64 < 2 ^ 64) by done.
  unfold chunk_size. generalize dependent (delta_bits p * (2 ^ chunk_len_log2 p - 1)). intros d Hd'.
  destruct (N.ltb_spec d (2 ^ 64)); [| lia]. cbn [mbind option_bind]. rewrite checked_add_some by lia.
  split; [done |]. pose proof (div_ceil_bounds (base_bits p + d) 8 ltac:(done)). lia.
Qed.

Lemma chunk_stream_bits p first vs : (length (first :: vs) <= chunk_len p)%nat ->
  stream_bits (chunk_stream p first vs) = base_bits p + delta_bits p * (2 ^ chunk_len_log2 p - 1).
Proof.
  intros Hl. unfold chunk_stream. cbn [stream_bits]. rewrite stream_bits_app, run_bits, replicate_bits, length_fmap.
  f_equal. rewrite <- N.mul_add_distr_l. f_equal. unfold chunk_len in *. simpl in *. lia.
Qed.

Lemma chunk_stream_fits p first vs : parameters_ok p -> chunk_fits p first vs ->
  Forall fits (chunk_stream p first vs).
Proof.
  intros (Hb & Hd & _) (Hf & Hvs & _). constructor; [split; simpl; [done | lia] |].
  apply Forall_app. split.
  - apply run_fits; [lia |]. apply Forall_fmap. eapply Forall_impl; [exact Hvs |]. by intros v [].
  - apply Forall_replicate. split; simpl; [| lia]. rewrite make_bitmask_pow by lia.
    pose proof (pow2_pos (delta_bits p)). lia.
Qed.

Lemma compress_chunk_spec p out first vs : parameters_ok p -> chunk_fits p first vs ->
  exists block, compress_chunk p out (first :: vs) = Some (out ++ block) /\ bytes_ok block /\
    from_le_bytes block = stream (chunk_stream p first vs) /\ N.of_nat (length block) = chunk_size p.
Proof.
  intros Hp Hfits. pose proof (chunk_stream_fits p first vs Hp Hfits) as Hs.
  destruct Hfits as (Hf & Hvs & Hl).
  destruct (pack_spec out _ Hs) as (self & block & E & Ef & Hok & En & El). exists block.
  rewrite chunk_stream_bits in El by done. split; [| by split].
  unfold compress_chunk. simpl. unfold chunk_stream in E. cbn [write_all] in E.
  destruct (BitWriter_write _ _ _) as [w |]; [| done]. simpl in *.
  rewrite write_deltas_all by (eapply Forall_impl; [exact Hvs |]; by intros v []).
  rewrite write_all_app in E. destruct (write_all w _) as [w' |]; [| done]. simpl in *.
  rewrite E. simpl. by rewrite Ef.
Qed.

(** The chunk at an index of a packed sequence, whatever follows it. *)
Definition holds_chunk (p : Parameters) (packed : N) (k : nat) (first : N) (vs : list N) : Prop :=
  exists rest, packed / 2 ^ (8 * (chunk_size p * N.of_nat k)) =
    stream (chunk_stream p first vs) + 2 ^ (8 * chunk_size p) * rest.

Lemma compress_chunks_spec p out cs : parameters_ok p ->
  Forall (fun c => exists first vs, c = first :: vs /\ chunk_fits p first vs) cs ->
  exists packed, compress_chunks p out cs = Some (out ++ packed) /\ bytes_ok packed /\
    N.of_nat (length packed) = chunk_size p * N.of_nat (length cs) /\
    forall k first vs, cs !! k = Some (first :: vs) -> forall more,
      holds_chunk p (from_le_bytes packed + 2 ^ nbits packed * more) k first vs.
Proof.
  intros Hp Hcs. revert out. induction Hcs as [| c cs (first & vs & -> & Hc) _ IH]; intros out; simpl.
  { exists []. rewrite app_nil_r. split; [done |]. split; [constructor |]. split; [simpl; lia | done]. }
  destruct (compress_chunk_spec p out first vs Hp Hc) as (block & -> & Hok & En & El). simpl.
  destruct (IH (out ++ block)) as (packed & -> & Hok' & El' & Hh). exists (block ++ packed).
  rewrite <- app_assoc. split; [done |]. split; [by apply Forall_app |].
  split; [rewrite length_app; lia |]. intros k first' vs' Hk more.
  assert (Eb : nbits block = 8 * chunk_size p) by (unfold nbits; lia).
  rewrite from_le_bytes_app, nbits_app, N.pow_add_r.
  replace (from_le_bytes block + 2 ^ nbits block * from_le_bytes packed + 2 ^ nbits block * 2 ^ nbits packed * more)
    with (from_le_bytes block + 2 ^ nbits block * (from_le_bytes packed + 2 ^ nbits packed * more)) by ring.
  destruct k as [| k]; simpl in Hk.
  - injection Hk as <- <-. exists (from_le_bytes packed + 2 ^ nbits packed * more).
    rewrite N.mul_0_r, N.mul_0_r, N.div_1_r, En, Eb. done.
  - destruct (Hh k first' vs' Hk more) as (rest & E). exists rest. rewrite <- E.
    pose proof (from_le_bytes_lt block Hok) as Hlt. rewrite Eb in *.
    rewrite field_div_high by (done || nia). f_equal. f_equal. lia.
Qed.

(** ** Reading a packed value *)

Lemma read_u64_le_spec bytes off : bytes_ok bytes -> off + 8 <= N.of_nat (length bytes) ->
  read_u64_le bytes off = Some (from_le_bytes bytes / 2 ^ (8 * off) mod 2 ^ 64).
Proof.
  intros Hok Hoff. unfold read_u64_le. destruct (N.leb_spec (off + 8) (N.of_nat (length bytes))); [| lia].
  rewrite from_le_bytes_take by (by apply Forall_drop). rewrite from_le_bytes_drop by done.
  by rewrite N2Nat.id.
Qed.

(** The reader of parameters over a slice. *)
Definition reader_of (p : Parameters) (bytes : list N) : Reader :=
  {| r_base_bits := base_bits p; base_mask := make_bitmask 64 (base_bits p);
     r_delta_bits := delta_bits p; delta_mask := make_bitmask 64 (delta_bits p);
     r_chunk_len_log2 := chunk_len_log2 p; chunk_len_mask := make_bitmask 64 (chunk_len_log2 p);
     r_chunk_size_bytes := chunk_size p; compressed := bytes; len := p_length p |}.

(** A value of a chunk, found in the number the slice stands for. *)
Lemma chunk_field p x k first vs l v b r : parameters_ok p -> chunk_fits p first vs ->
  holds_chunk p x k first vs -> chunk_stream p first vs = l ++ (v, b) :: r -> v < 2 ^ b ->
  x / 2 ^ (8 * (chunk_size p * N.of_nat k)) / 2 ^ stream_bits l mod 2 ^ b = v.
Proof.
  intros Hp Hfits [rest ->] E Hv. pose proof (chunk_stream_fits p first vs Hp Hfits) as Hs.
  pose proof (chunk_stream_bits p first vs (proj2 (proj2 Hfits))) as Eb.
  pose proof (div_ceil_bounds (base_bits p + delta_bits p * (2 ^ chunk_len_log2 p - 1)) 8 ltac:(done)) as Hc.
  fold (chunk_size p) in Hc. rewrite <- Eb in Hc. rewrite (pow2_split (8 * chunk_size p) _ (proj1 Hc)).
  rewrite <- N.mul_assoc. rewrite E in *. apply stream_nth; [| done]. by apply Forall_app in Hs as [].
Qed.

(** Where the difference of a value is in its chunk. *)
Lemma delta_field p first vs vi v : vs !! vi = Some v ->
  exists l r, chunk_stream p first vs = l ++ (v - first, delta_bits p) :: r /\
    stream_bits l = base_bits p + N.of_nat vi * delta_bits p.
Proof.
  intros Hv. set (f := fun v => v - first).
  assert (E : run (delta_bits p) (f <$> vs) = run (delta_bits p) (f <$> take vi vs) ++
    (v - first, delta_bits p) :: run (delta_bits p) (f <$> drop (S vi) vs)).
  { rewrite <- (take_drop_middle vs vi v Hv) at 1. by rewrite !fmap_app. }
  unfold chunk_stream. fold f. rewrite E, <- app_assoc.
  exists ((first, base_bits p) :: run (delta_bits p) (f <$> take vi vs)).
  eexists. split; [done |]. cbn [stream_bits]. rewrite run_bits, length_fmap, length_take.
  apply lookup_lt_Some in Hv. rewrite Nat.min_l by lia. lia.
Qed.

Lemma get_spec p bytes k first vs vi v (x := from_le_bytes bytes) (index := 2 ^ chunk_len_log2 p * N.of_nat k + N.of_nat vi) :
  parameters_ok p -> bytes_ok bytes -> chunk_fits p first vs -> holds_chunk p x k first vs ->
  Forall (fun v => v < 2 ^ 64) (first :: vs) ->
  chunk_size p * (N.of_nat k + 1) + 7 <= N.of_nat (length bytes) -> index < p_length p ->
  (first :: vs) !! vi = Some v -> get (reader_of p bytes) index = Got (Some v).
Proof.
  intros Hp Hok Hfits Hh H64 Hlen Hindex Hv. pose proof Hp as (Hbb & Hdb & Hc).
  pose proof (chunk_size_bytes_ok p Hp) as [_ Hsize].
  assert (Hvi : N.of_nat vi < 2 ^ chunk_len_log2 p).
  { apply lookup_lt_Some in Hv. destruct Hfits as (_ & _ & Hl). unfold chunk_len in Hl. lia. }
  unfold get. cbn [reader_of len r_chunk_len_log2 r_chunk_size_bytes chunk_len_mask compressed base_mask
    r_base_bits r_delta_bits delta_mask].
  destruct (N.leb_spec (p_length p) index); [lia |].
  rewrite N.shiftr_div_pow2, !land_bitmask by lia.
  rewrite <- (N.div_unique index _ (N.of_nat k) (N.of_nat vi)) by done.
  rewrite <- (N.mod_unique index _ (N.of_nat k) (N.of_nat vi)) by done.
  rewrite read_u64_le_spec by (done || nia). fold x. rewrite land_bitmask, mod_mod_le by lia.
  replace (N.of_nat k * chunk_size p) with (chunk_size p * N.of_nat k) by lia.
  assert (Hbase : x / 2 ^ (8 * (chunk_size p * N.of_nat k)) mod 2 ^ base_bits p = first).
  { rewrite <- (N.div_1_r (x / _)). eapply (chunk_field p x k first vs []); [done.. | apply Hfits]. }
  rewrite Hbase. destruct vi as [| vi]; [by injection Hv as -> |].
  destruct (N.eqb_spec (N.of_nat (S vi)) 0); [lia |]. simpl in Hv.
  set (o := base_bits p + (N.of_nat (S vi) - 1) * delta_bits p).
  assert (Ho : o + delta_bits p <= 8 * chunk_size p).
  { pose proof (div_ceil_bounds (base_bits p + delta_bits p * (2 ^ chunk_len_log2 p - 1)) 8 ltac:(done)) as Hb8.
    fold (chunk_size p) in Hb8.
    assert (Hm : delta_bits p * N.of_nat (S vi) <= delta_bits p * (2 ^ chunk_len_log2 p - 1))
      by (apply N.mul_le_mono_l; lia).
    unfold o. rewrite Nat2N.inj_succ, N.mul_succ_r in Hm.
    replace (N.of_nat (S vi) - 1) with (N.of_nat vi) by lia. lia. }
  pose proof (N.div_mod o 8 ltac:(done)) as Eo. pose proof (N.mod_lt o 8 ltac:(done)) as Hmod.
  assert (Hq : o / 8 + 1 <= chunk_size p).
  { assert (o / 8 < chunk_size p); [| lia]. apply N.Div0.div_lt_upper_bound. lia. }
  rewrite read_u64_le_spec by (done || (clear - Hq Hlen; generalize dependent (o / 8); lia)). fold x.
  rewrite N.shiftr_div_pow2, land_bitmask, window_field by lia.
  assert (Hdelta : x / 2 ^ (8 * (chunk_size p * N.of_nat k + o / 8)) / 2 ^ (o mod 8) mod 2 ^ delta_bits p = v - first).
  { rewrite N.mul_add_distr_l, N.pow_add_r, <- N.Div0.div_div, N.Div0.div_div, <- N.pow_add_r, <- Eo.
    destruct (delta_field p first vs vi v Hv) as (l & r & E & El).
    replace o with (stream_bits l) by (unfold o; lia).
    eapply chunk_field; [done.. |]. destruct Hfits as (_ & Hvs & _).
    by apply (Forall_lookup_1 _ _ _ _ Hvs) in Hv as []. }
  rewrite Hdelta. inversion_clear H64 as [| ?? _ H64'].
  destruct Hfits as (_ & Hvs & _). pose proof (Forall_lookup_1 _ _ _ _ Hvs Hv) as [Hle _].
  pose proof (Forall_lookup_1 _ _ _ _ H64' Hv) as Hv64. simpl in Hv64.
  rewrite checked_add_some by lia. by replace (first + (v - first)) with v by lia.
Qed.

(** ** Choosing the parameters *)

(** Parameters that suit a sequence. *)
Definition suits (values : list N) (p : Parameters) : Prop :=
  parameters_ok p /\ p_length p = N.of_nat (length values) /\
  Forall (fun c => exists first vs, c = first :: vs /\ chunk_fits p first vs) (slice_chunks (chunk_len p) values).

Definition total_size (p : Parameters) : N := div_ceil (p_length p) (2 ^ chunk_len_log2 p) * chunk_size p.

Lemma total_size_ok p : parameters_ok p -> p_length p < 2 ^ 60 ->
  total_chunks_size_bytes p = Some (total_size p) /\ total_size p + TAIL_SIZE < 2 ^ 64.
Proof.
  intros Hp Hn. unfold total_chunks_size_bytes. destruct (chunk_size_bytes_ok p Hp) as [-> _].
  cbn [mbind option_bind]. destruct Hp as (Hb & Hd & Hc).
  pose proof (pow2_le _ _ Hc) as H7. change (2 ^ 7) with 128 in H7. pose proof (pow2_pos (chunk_len_log2 p)) as Hpos.
  assert (Hs : chunk_size p <= 8 * 2 ^ chunk_len_log2 p).
  { pose proof (div_ceil_bounds (base_bits p + delta_bits p * (2 ^ chunk_len_log2 p - 1)) 8 ltac:(done)) as H8.
    fold (chunk_size p) in H8.
    assert (delta_bits p * (2 ^ chunk_len_log2 p - 1) <= 56 * (2 ^ chunk_len_log2 p - 1)) by (apply N.mul_le_mono_r; lia).
    lia. }
  pose proof (div_ceil_bounds (p_length p) (2 ^ chunk_len_log2 p) ltac:(lia)) as Hq.
  assert (Ht : total_size p <= 8 * (2 ^ chunk_len_log2 p * div_ceil (p_length p) (2 ^ chunk_len_log2 p))).
  { unfold total_size. rewrite N.mul_assoc, N.mul_comm. by apply N.mul_le_mono_r. }
  assert (Hlt : total_size p + TAIL_SIZE < 2 ^ 64).
  { unfold TAIL_SIZE. change (2 ^ 64) with (8 * 2 ^ 60 + 2 ^ 63). lia. }
  split; [| done]. apply checked_mul_some. unfold total_size in Hlt. lia.
Qed.

Lemma widest_delta_spec bits cs :
  Forall (fun c => exists first vs, c = first :: vs /\ Forall (fun v => first <= v /\ v <= default first (last vs)) vs /\
    Forall (fun v => v < 2 ^ 64) c) cs -> bits <= 64 ->
  exists b, widest_delta bits cs = Some b /\ bits <= b <= 64 /\
    Forall (fun c => forall first vs, c = first :: vs -> Forall (fun v => v - first < 2 ^ b) vs) cs /\
    (Forall (fun c => length c = 1%nat) cs -> b = bits).
Proof.
  intros Hcs. revert bits. induction Hcs as [| c cs (first & vs & -> & Hvs & H64) _ IH]; intros bits Hbits; simpl.
  { exists bits. split; [done |]. split; [lia |]. by split. }
  assert (Hl : exists l, last (first :: vs) = Some l /\ first <= l < 2 ^ 64 /\ Forall (fun v => v <= l) vs /\ (vs = [] -> l = first)).
  { destruct (exists_last' vs) as [-> | (k & y & ->)].
    - exists first. inversion_clear H64. split; [done |]. split; [split; [lia | done] |]. by split.
    - exists y. rewrite app_comm_cons, last_snoc. split; [done |]. rewrite last_snoc in Hvs. simpl in Hvs.
      rewrite Forall_app in Hvs. split; [| split].
      + rewrite app_comm_cons, Forall_app in H64. destruct H64 as [_ H64]. inversion_clear H64.
        destruct Hvs as [_ Hvs]. inversion_clear Hvs. lia.
      + apply Forall_app. destruct Hvs as [Hk Hy]. split; [eapply Forall_impl; [exact Hk |]; simpl; lia | by repeat constructor].
      + intros E. by apply app_nil in E as []. }
  destruct Hl as (l & El & Hl & Hvl & Hone). simpl in El. rewrite El. cbn [mbind option_bind].
  rewrite checked_sub_some by lia. cbn [mbind option_bind].
  destruct (packed_bits_fits 64 (l - first) ltac:(lia)) as [Hfit Hle].
  destruct (IH (N.max bits (packed_bits 64 (l - first))) ltac:(lia)) as (b & -> & Hb & Hall & Hsame).
  exists b. split; [done |]. split; [lia |]. split.
  - constructor; [| done]. intros ? ? [= <- <-]. eapply Forall_impl; [exact Hvl |]. simpl. intros v Hv.
    pose proof (pow2_le (packed_bits 64 (l - first)) b ltac:(lia)). lia.
  - intros Hlen. inversion_clear Hlen as [| ?? H1 Hlen']. rewrite (Hsame Hlen').
    assert (vs = []) as E by (destruct vs; done). rewrite (Hone E), N.sub_diag.
    change (packed_bits 64 0) with 0. lia.
Qed.

Lemma sorted_le_last l d : StronglySorted N.le l -> Forall (fun v => v <= default d (last l)) l.
Proof.
  intros Hs. destruct (exists_last' l) as [-> | (k & y & ->)]; [done |]. rewrite last_snoc. simpl.
  apply Forall_app. split; [| by repeat constructor]. apply Forall_forall. intros v Hv.
  eapply StronglySorted_app_1_elem_of; [exact Hs | done | set_solver].
Qed.

Lemma sorted_chunks k values : (0 < k)%nat -> StronglySorted N.le values -> Forall (fun v => v < 2 ^ 64) values ->
  Forall (fun c => exists first vs, c = first :: vs /\
    Forall (fun v => first <= v /\ v <= default first (last vs)) vs /\ Forall (fun v => v < 2 ^ 64) c)
    (slice_chunks k values).
Proof.
  intros Hk Hs H64. eapply Forall_impl; [apply (chunks_pieces k values Hk) |].
  intros c (pre & post & -> & Hc). apply StronglySorted_app_r, StronglySorted_app_1_l in Hs.
  rewrite !Forall_app in H64. destruct c as [| first vs]; [simpl in Hc; lia |].
  exists first, vs. split; [done |]. split; [| apply H64].
  apply StronglySorted_inv in Hs as [Hs Hf]. apply Forall_and. split; [done | by apply sorted_le_last].
Qed.

(** A candidate within the range of widths suits the values; the first
    candidate, with chunks of one value, is always within it. *)
Lemma candidate_spec values c : StronglySorted N.le values -> Forall (fun v => v < 2 ^ 64) values -> c <= 7 ->
  exists p, candidate values c = Some p /\
    (delta_bits_in_range (delta_bits p) = true -> suits values p) /\
    (c = 0 -> delta_bits_in_range (delta_bits p) = true).
Proof.
  intros Hs H64 Hc. unfold candidate.
  assert (Hk : (0 < N.to_nat (2 ^ c))%nat) by (pose proof (pow2_pos c); lia).
  destruct (widest_delta_spec DELTA_BITS_START _ (sorted_chunks _ values Hk Hs H64)) as (b & -> & Hb & Hall & Hone); [done |].
  cbn [mbind option_bind]. eexists. split; [done |]. split.
  - intros Hr. unfold delta_bits_in_range, DELTA_BITS_START, DELTA_BITS_END in Hr. simpl in Hr.
    apply andb_true_iff in Hr as [H1%N.leb_le H56%N.leb_le].
    assert (Hlast : Forall (fun v => v <= default 0 (last values)) values) by (by apply sorted_le_last).
    assert (Hlast64 : default 0 (last values) < 2 ^ 64).
    { destruct (exists_last' values) as [-> | (k & y & ->)]; [done |]. rewrite last_snoc. simpl.
      apply Forall_app in H64 as [_ H64]. by inversion_clear H64. }
    destruct (packed_bits_fits 64 _ Hlast64) as [Hfit Hle].
    split; [split; [simpl; lia | split; simpl; lia] |]. split; [done |].
    apply Forall_forall. intros ch Hch. rewrite Forall_forall in Hall. specialize (Hall ch Hch).
    pose proof (chunks_pieces _ values Hk) as Hp. rewrite Forall_forall in Hp.
    destruct (Hp ch Hch) as (pre & post & E & Hlen).
    pose proof (sorted_chunks _ values Hk Hs H64) as Hsc. rewrite Forall_forall in Hsc.
    destruct (Hsc ch Hch) as (first & vs & -> & Hvs & _). exists first, vs. split; [done |].
    split; [| split; [| unfold chunk_len; simpl in *; lia]]; simpl.
    + rewrite E, !Forall_app in Hlast. destruct Hlast as (_ & Hl & _). inversion_clear Hl as [| ?? Hf _].
      pose proof (pow2_le (packed_bits 64 (default 0 (last values)))
        (N.max (packed_bits 64 (default 0 (last values))) 1) ltac:(lia)) as Hpow.
      rewrite <- E in Hf. lia.
    + apply Forall_and. split; [eapply Forall_impl; [exact Hvs |]; by intros v [] | by apply Hall].
  - intros ->. simpl. rewrite Hone; [done |]. eapply Forall_impl; [apply (chunks_pieces 1); lia |].
    intros ch (pre & post & _ & Hlen). simpl in *. lia.
Qed.

Lemma try_all_spec values : StronglySorted N.le values -> Forall (fun v => v < 2 ^ 64) values ->
  exists all, try_all values = Some all /\ all <> [] /\ Forall (suits values) all.
Proof.
  intros Hs H64. unfold try_all.
  assert (Hm : forall cs, Forall (fun c => c <= 7) cs ->
    exists all, Forall2 (fun c p => candidate values c = Some p) cs all /\
      Forall (fun p => delta_bits_in_range (delta_bits p) = true -> suits values p) all).
  { induction 1 as [| c cs Hc _ (all & E & Hall)]; [by exists [] |].
    destruct (candidate_spec values c Hs H64 Hc) as (p & Ep & Hp & _).
    exists (p :: all). split; by constructor. }
  destruct (Hm [0; 1; 2; 3; 4; 5; 6; 7]) as (all & E & Hall); [repeat constructor; lia |].
  rewrite (mapM_Some_2 _ _ _ E). cbn [mbind option_bind]. eexists. split; [done |]. split.
  - inversion E as [| ? p0 ? ps E0]; subst. simpl.
    destruct (candidate_spec values 0 Hs H64 ltac:(lia)) as (p & E0' & _ & Hr0). rewrite E0 in E0'.
    injection E0' as <-. by rewrite Hr0.
  - rewrite Forall_forall in *. intros p Hin. apply list_elem_of_In, filter_In in Hin as [Hin Hr].
    apply Hall; [by apply list_elem_of_In | done].
Qed.

Lemma min_by_key_elem best l : min_by_key best l ∈ best :: l.
Proof.
  revert best. induction l as [| p l IH]; intros best; simpl; [set_solver |].
  destruct (size_lt _ _); [specialize (IH p) | specialize (IH best)]; set_solver.
Qed.

(** The chosen parameters are a candidate, and none is cheaper. *)
Lemma min_by_key_spec values best l : N.of_nat (length values) < 2 ^ 60 -> Forall (suits values) (best :: l) ->
  suits values (min_by_key best l) /\ Forall (fun p => total_size (min_by_key best l) <= total_size p) (best :: l).
Proof.
  intros Hn. revert best. induction l as [| p l IH]; intros best Hl; simpl.
  { inversion_clear Hl. split; [done |]. by repeat constructor. }
  inversion_clear Hl as [| ?? Hbest Hl']. inversion_clear Hl' as [| ?? Hp Hl].
  destruct (total_size_ok best) as [-> _]; [apply Hbest | by rewrite (proj1 (proj2 Hbest)) |].
  destruct (total_size_ok p) as [-> _]; [apply Hp | by rewrite (proj1 (proj2 Hp)) |]. simpl.
  destruct (N.ltb_spec (total_size p) (total_size best)) as [Hlt | Hge].
  - destruct (IH p ltac:(by constructor)) as [Hsuit Hmin]. split; [done |].
    inversion_clear Hmin as [| ?? Hm Hmin']. constructor; [lia |]. by constructor.
  - destruct (IH best ltac:(by constructor)) as [Hsuit Hmin]. split; [done |].
    inversion_clear Hmin as [| ?? Hm Hmin']. constructor; [done |]. constructor; [lia | done].
Qed.

(** ** Round trip *)

(** Compression with parameters that suit the values. *)
Lemma compress_with_parameters_spec values p : N.of_nat (length values) < 2 ^ 60 -> suits values p ->
  exists bytes, compress_with_parameters values p = Some bytes /\ bytes_ok bytes /\
    N.of_nat (length bytes) = total_size p + TAIL_SIZE /\
    forall k first vs, slice_chunks (chunk_len p) values !! k = Some (first :: vs) ->
      holds_chunk p (from_le_bytes bytes) k first vs.
Proof.
  intros Hn (Hp & El & Hcs). unfold compress_with_parameters.
  destruct (total_size_ok p Hp) as [-> Hmax]; [by rewrite El |]. cbn [mbind option_bind].
  rewrite checked_add_some by done. cbn [mbind option_bind].
  destruct (compress_chunks_spec p [] _ Hp Hcs) as (packed & -> & Hok & Elen & Hh). cbn [mbind option_bind].
  assert (Ek : N.of_nat (length (packed ++ replicate (N.to_nat TAIL_SIZE) 255)) = total_size p + TAIL_SIZE).
  { rewrite length_app, length_replicate, Nat2N.inj_add, Elen, length_chunks by apply chunk_len_pos.
    unfold total_size, chunk_len. rewrite El, !N2Nat.id. lia. }
  exists (packed ++ replicate (N.to_nat TAIL_SIZE) 255). rewrite app_nil_l, Ek, N.eqb_refl.
  split; [done |]. split; [apply Forall_app; split; [done | by apply Forall_replicate] |]. split; [done |].
  intros k first vs Hk. rewrite from_le_bytes_app. by apply Hh.
Qed.

(** The chunk of an index. *)
Lemma index_chunk p n i : i < n ->
  i / 2 ^ chunk_len_log2 p + 1 <= div_ceil n (2 ^ chunk_len_log2 p).
Proof.
  intros Hi. pose proof (pow2_nonzero (chunk_len_log2 p)) as H0.
  pose proof (div_ceil_bounds n (2 ^ chunk_len_log2 p) H0) as Hc.
  enough (i / 2 ^ chunk_len_log2 p < div_ceil n (2 ^ chunk_len_log2 p)) by lia.
  apply N.Div0.div_lt_upper_bound. lia.
Qed.

(** The assertions of the reader hold. *)
Lemma reader_asserts_ok p bytes : parameters_ok p -> N.of_nat (length bytes) = total_size p + TAIL_SIZE ->
  reader_asserts (reader_of p bytes) = true.
Proof.
  intros Hp Hlen. pose proof (chunk_size_bytes_ok p Hp) as [_ Hsize]. destruct Hp as (Hbb & Hdb & Hc).
  unfold reader_asserts. cbn [reader_of len r_chunk_len_log2 r_chunk_size_bytes chunk_len_mask compressed
    r_base_bits r_delta_bits].
  destruct (N.eqb_spec (p_length p) 0); [done |]. rewrite N.shiftr_div_pow2, Hlen.
  pose proof (index_chunk p (p_length p) (p_length p - 1) ltac:(lia)) as Hk.
  assert (Hoff : (p_length p - 1) / 2 ^ chunk_len_log2 p * chunk_size p + chunk_size p <= total_size p).
  { unfold total_size. transitivity (((p_length p - 1) / 2 ^ chunk_len_log2 p + 1) * chunk_size p); [lia |].
    by apply N.mul_le_mono_r. }
  rewrite make_bitmask_pow by lia. unfold TAIL_SIZE.
  generalize dependent ((p_length p - 1) / 2 ^ chunk_len_log2 p). intros k _ Hoff.
  apply andb_true_iff. split; [apply N.leb_le; lia |].
  destruct (N.ltb_spec 0 (2 ^ chunk_len_log2 p - 1)); [| done]. apply N.leb_le.
  assert (Hq : (base_bits p + (2 ^ chunk_len_log2 p - 1 - 1) * delta_bits p) / 8 < chunk_size p); [| lia].
  apply N.Div0.div_lt_upper_bound.
  pose proof (div_ceil_bounds (base_bits p + delta_bits p * (2 ^ chunk_len_log2 p - 1)) 8 ltac:(done)) as Hb8.
  fold (chunk_size p) in Hb8. generalize dependent (2 ^ chunk_len_log2 p - 1). intros m Hm.
  replace m with (m - 1 + 1) by lia. intros Hb8. rewrite N.mul_add_distr_l in Hb8.
  replace (m - 1 + 1 - 1) with (m - 1) by lia. lia.
Qed.

Lemma Reader_new_ok p bytes rest : parameters_ok p -> p_length p < 2 ^ 60 ->
  N.of_nat (length bytes) = total_size p + TAIL_SIZE ->
  Reader_new p (bytes ++ rest) = Some (Decompressed (reader_of p bytes, rest)).
Proof.
  intros Hp Hn Hlen. pose proof Hp as (Hbb & Hdb & Hc). unfold Reader_new.
  assert (parameters_valid p = true) as ->.
  { unfold parameters_valid, delta_bits_in_range, DELTA_BITS_START, DELTA_BITS_END, MAX_CHUNK_LEN_LOG2.
    rewrite !andb_true_iff, !N.leb_le. lia. }
  destruct (total_size_ok p Hp Hn) as [-> Hmax]. cbn [negb mbind option_bind].
  rewrite checked_add_some by done. rewrite <- Hlen, length_app.
  destruct (N.ltb_spec (N.of_nat (length bytes + length rest)) (N.of_nat (length bytes))); [lia |].
  destruct (chunk_size_bytes_ok p Hp) as [-> _]. cbn [mbind option_bind].
  rewrite Nat2N.id, take_app_length, drop_app_length. fold (reader_of p bytes).
  by rewrite reader_asserts_ok.
Qed.

Lemma get_suits values p bytes i : suits values p -> Forall (fun v => v < 2 ^ 64) values -> bytes_ok bytes ->
  N.of_nat (length bytes) = total_size p + TAIL_SIZE ->
  (forall k first vs, slice_chunks (chunk_len p) values !! k = Some (first :: vs) ->
     holds_chunk p (from_le_bytes bytes) k first vs) ->
  get (reader_of p bytes) (N.of_nat i) = Got (values !! i).
Proof.
  intros (Hp & El & Hcs) H64 Hok Hlen Hh. destruct (values !! i) as [v |] eqn:Ev.
  - pose proof (lookup_lt_Some _ _ _ Ev) as Hi. pose proof (chunk_len_pos p) as Hk.
    rewrite (chunks_lookup (chunk_len p)) in Ev by done. apply bind_Some in Ev as (c & Ec & Ev).
    pose proof (Forall_lookup_1 _ _ _ _ Hcs Ec) as (first & vs & -> & Hfits).
    assert (Hidx : N.of_nat i = 2 ^ chunk_len_log2 p * N.of_nat (i / chunk_len p) + N.of_nat (i mod chunk_len p)).
    { pose proof (Nat.div_mod_eq i (chunk_len p)) as E. rewrite E at 1. unfold chunk_len at 1. lia. }
    pose proof (index_chunk p (p_length p) (N.of_nat i) ltac:(lia)) as Hin.
    assert (Hdiv : N.of_nat i / 2 ^ chunk_len_log2 p = N.of_nat (i / chunk_len p)).
    { symmetry. apply (N.div_unique _ _ _ (N.of_nat (i mod chunk_len p))); [| done].
      pose proof (Nat.mod_upper_bound i (chunk_len p) ltac:(lia)). unfold chunk_len in *. lia. }
    rewrite Hidx. eapply get_spec; [done | done | exact Hfits | by apply Hh | | | lia | done].
    + pose proof (chunks_pieces (chunk_len p) values Hk) as Hpc. rewrite Forall_forall in Hpc.
      destruct (Hpc _ (list_elem_of_lookup_2 _ _ _ Ec)) as (pre & post & E & _).
      rewrite E, !Forall_app in H64. apply H64.
    + rewrite Hdiv in Hin. rewrite Hlen. unfold TAIL_SIZE, total_size.
      rewrite (N.mul_comm (div_ceil _ _)). apply N.add_le_mono_r. by apply N.mul_le_mono_l.
  - apply lookup_ge_None in Ev. unfold get. cbn [reader_of len].
    destruct (N.leb_spec (p_length p) (N.of_nat i)); [done | lia].
Qed.

(** The chosen parameters suit the values, and what they give is read back. *)
Lemma compress_spec values rest :
  StronglySorted N.le values -> Forall (fun v => v < 2 ^ 64) values -> N.of_nat (length values) < 2 ^ 60 ->
  exists bytes p, compress values = Some (bytes, p) /\ bytes_ok bytes /\ suits values p /\
    N.of_nat (length bytes) = total_size p + TAIL_SIZE /\
    Reader_new p (bytes ++ rest) = Some (Decompressed (reader_of p bytes, rest)) /\
    (forall i, get (reader_of p bytes) (N.of_nat i) = Got (values !! i)) /\
    exists all, try_all values = Some all /\ p ∈ all /\ Forall (suits values) all /\
      Forall (fun p' => total_size p <= total_size p') all.
Proof.
  intros Hs H64 Hn. destruct (try_all_spec values Hs H64) as (all & Ea & Hne & Hall).
  destruct all as [| p0 l]; [done |]. destruct (min_by_key_spec values p0 l Hn Hall) as [Hsuit Hmin].
  set (p := min_by_key p0 l) in *.
  destruct (compress_with_parameters_spec values p Hn Hsuit) as (bytes & Ec & Hok & Hlen & Hh).
  assert (El : p_length p = N.of_nat (length values)) by apply Hsuit.
  exists bytes, p. split.
  { unfold compress, find_best. rewrite Ea. cbn [mbind option_bind]. fold p. by rewrite Ec. }
  split; [done |]. split; [done |]. split; [done |].
  split; [apply Reader_new_ok; [apply Hsuit | by rewrite El | done] |].
  split; [intros i; by apply get_suits |]. exists (p0 :: l). split; [done |].
  split; [apply min_by_key_elem |]. by split.
Qed.

(** [C20] Every sorted sequence of [u64] is compressed and read back: [compress]
    succeeds, no other candidate would give fewer bytes, a reader of the bytes
    is accepted and leaves the bytes behind them, and [get] returns the value
    at every index and nothing behind the end. *)
Theorem ordered_roundtrip (values rest : list N) :
  StronglySorted N.le values -> Forall (fun v => v < 2 ^ 64) values -> N.of_nat (length values) < 2 ^ 60 ->
  exists bytes p r, compress values = Some (bytes, p) /\
    Reader_new p (bytes ++ rest) = Some (Decompressed (r, rest)) /\
    len r = N.of_nat (length values) /\
    (forall i, get r (N.of_nat i) = Got (values !! i)) /\
    exists all, try_all values = Some all /\ p ∈ all /\
      Forall (fun p' => exists bytes', compress_with_parameters values p' = Some bytes' /\
        (length bytes <= length bytes')%nat) all.
Proof.
  intros Hs H64 Hn.
  destruct (compress_spec values rest Hs H64 Hn)
    as (bytes & p & Ec & _ & Hsuit & Hlen & Er & Hg & all & Ea & Hin & Hall & Hmin).
  exists bytes, p, (reader_of p bytes). split; [done |]. split; [done |]. split; [apply Hsuit |].
  split; [done |]. exists all. split; [done |]. split; [done |].
  apply Forall_forall. intros p' Hp'. rewrite Forall_forall in Hall, Hmin.
  destruct (compress_with_parameters_spec values p' Hn (Hall p' Hp')) as (bytes' & Ec' & _ & Hlen' & _).
  exists bytes'. split; [done |]. specialize (Hmin p' Hp'). simpl in Hmin. lia.
Qed.

Lemma ordered_roundtrip_witness :
  exists bytes p r, compress [3; 5; 5; 1000; 2 ^ 64 - 1] = Some (bytes, p) /\
    Reader_new p (bytes ++ [1; 2]) = Some (Decompressed (r, [1; 2])) /\
    get r 3 = Got (Some 1000) /\ get r 5 = Got None.
Proof.
  destruct (ordered_roundtrip [3; 5; 5; 1000; 2 ^ 64 - 1] [1; 2]) as (bytes & p & r & Ec & Er & _ & Hg & _).
  - repeat constructor; lia.
  - repeat constructor; lia.
  - simpl. lia.
  - exists bytes, p, r. split; [done |]. split; [done |]. split; [apply (Hg 3%nat) | apply (Hg 5%nat)].
Defined.

(** A reader is refused or opened, but parameters with no bits for a base and
    one value per chunk pass the validation and fail the assertion. *)
Example zero_width_base_panics :
  Reader_new {| p_length := 1; base_bits := 0; delta_bits := 1; chunk_len_log2 := 0 |} (replicate 16 0) = None.
Proof. vm_compute. reflexivity. Qed.
