(* ===== verification/GraphLinks.v ===== *)
(** * The links file of the HNSW graph

    lib/segment/src/index/hnsw_index/graph_links/{header,serializer,view}.rs
    and graph_links.rs.  A graph maps every point to its levels and every level
    to the point's links.  The file holds, behind a header, the first index of
    every level, the order of the points on the levels above the lowest one,
    the links of every node (plain, packed, or packed with vectors between
    them) and the offsets of the nodes.

    The file proves that a graph that was serialized is loaded and read back:
    every point has its levels, and every node its links, in the order packing
    leaves them.

    The machine is little-endian, as the plain format writes native integers.
    Positions are counted from a base aligned to eight bytes.  The writer is a
    byte vector and does not fail.  Sizes of data in memory do not reach 64
    bits: their sums are plain additions. *)

From S2P Require Import Prelude MachineInt BitPacking DeltaPack PackedLinks OrderedPacking.

Local Open Scope N_scope.

(** ** Data *)

Abbreviation edges_t := (list (list (list N))).

Record HnswM : Type := mkHnswM { m : nat; m0 : nat }.

(** [HnswM::level_m] *)
Definition level_m (self : HnswM) (level : nat) : nat := if (level =? 0)%nat then m0 self else m self.

(** [std::alloc::Layout] *)
Record Layout : Type := mkLayout { size : N; align : N }.

(** [GraphLinksVectors]: the bytes of the vectors and their layouts. *)
Record GraphLinksVectors : Type := {
  base_vector : N -> OperationResult (list N);
  get_link_vector : N -> OperationResult (list N);
  base_layout : Layout;
  link_layout : Layout;
}.

Inductive GraphLinksFormat : Type := PlainFormat | CompressedFormat | CompressedWithVectorsFormat.

Inductive GraphLinksFormatParam : Type :=
  | Plain
  | Compressed
  | CompressedWithVectors (vectors : GraphLinksVectors).

(** [GraphLinksFormatParam::as_format] *)
Definition as_format (param : GraphLinksFormatParam) : GraphLinksFormat :=
  match param with
  | Plain => PlainFormat
  | Compressed => CompressedFormat
  | CompressedWithVectors _ => CompressedWithVectorsFormat
  end.

(** The variable-length integers of the [integer-encoding] crate: what is
    written is read back with its length, and the required space is exact. *)
Class VarInt : Type := {
  encode_var : N -> list N;
  required_space : N -> N;
  decode_var : list N -> option (N * N);
  encode_var_ok v : bytes_ok (encode_var v);
  required_space_exact v : required_space v = N.of_nat (length (encode_var v));
  decode_encode_var v rest : v < 2 ^ 64 ->
    decode_var (encode_var v ++ rest) = Some (v, N.of_nat (length (encode_var v)));
}.

(** [sort_unstable_by_key] with [Reverse] of a length: any permutation by
    descending length. *)
Class UnstableByLevel : Type := {
  sort_by_level : (N -> nat) -> list N -> list N;
  sort_by_level_perm f l : sort_by_level f l ≡ₚ l;
  sort_by_level_sorted f l : StronglySorted (fun i j => (f j <= f i)%nat) (sort_by_level f l);
}.

(** ** Integers and structs as bytes *)

Definition u32_bytes (v : N) : list N := to_le_bytes 4 v.
Definition u64_bytes (v : N) : list N := to_le_bytes 8 v.

(** An integer field of a [repr(C)] struct. *)
Definition field (data : list N) (offset size : nat) : N := from_le_bytes (take size (drop offset data)).

(** [HeaderPlain]: five [u64] and 24 zeros. *)
Record HeaderPlain : Type := mkHeaderPlain {
  hp_point_count : N;
  hp_levels_count : N;
  hp_total_neighbors_count : N;
  hp_total_offset_count : N;
  hp_offsets_padding_bytes : N;
}.

Definition HeaderPlain_bytes (h : HeaderPlain) : list N :=
  u64_bytes (hp_point_count h) ++ u64_bytes (hp_levels_count h) ++
  u64_bytes (hp_total_neighbors_count h) ++ u64_bytes (hp_total_offset_count h) ++
  u64_bytes (hp_offsets_padding_bytes h) ++ replicate 24 0.

Definition HeaderPlain_read (data : list N) : HeaderPlain :=
  {| hp_point_count := field data 0 8; hp_levels_count := field data 8 8;
     hp_total_neighbors_count := field data 16 8; hp_total_offset_count := field data 24 8;
     hp_offsets_padding_bytes := field data 32 8 |}.

(** [bitpacking_ordered::Parameters] as bytes *)
Definition Parameters_bytes (p : Parameters) : list N :=
  u64_bytes (p_length p) ++ [base_bits p; delta_bits p; chunk_len_log2 p].

Definition Parameters_read (data : list N) (offset : nat) : Parameters :=
  {| p_length := field data offset 8; base_bits := field data (offset + 8) 1;
     delta_bits := field data (offset + 9) 1; chunk_len_log2 := field data (offset + 10) 1 |}.

(** [HEADER_VERSION_COMPRESSED], [HEADER_VERSION_COMPRESSED_WITH_VECTORS] *)
Definition HEADER_VERSION_COMPRESSED : N := 0xFFFFFFFFFFFFFF01.
Definition HEADER_VERSION_COMPRESSED_WITH_VECTORS : N := 0xFFFFFFFFFFFFFF02.

(** [HeaderCompressed], and the common part of
    [HeaderCompressedWithVectors]. *)
Record HeaderCompressed : Type := mkHeaderCompressed {
  hc_point_count : N;
  hc_version : N;
  hc_levels_count : N;
  hc_total_neighbors_bytes : N;
  hc_offsets_parameters : Parameters;
  hc_m : N;
  hc_m0 : N;
}.

Definition header_fields (h : HeaderCompressed) : list N :=
  u64_bytes (hc_point_count h) ++ u64_bytes (hc_version h) ++ u64_bytes (hc_levels_count h) ++
  u64_bytes (hc_total_neighbors_bytes h) ++ Parameters_bytes (hc_offsets_parameters h) ++
  u64_bytes (hc_m h) ++ u64_bytes (hc_m0 h).

Definition HeaderCompressed_bytes (h : HeaderCompressed) : list N := header_fields h ++ replicate 5 0.

Definition HeaderCompressed_read (data : list N) : HeaderCompressed :=
  {| hc_point_count := field data 0 8; hc_version := field data 8 8; hc_levels_count := field data 16 8;
     hc_total_neighbors_bytes := field data 24 8; hc_offsets_parameters := Parameters_read data 32;
     hc_m := field data 43 8; hc_m0 := field data 51 8 |}.

(** [PackedVectorLayout] *)
Definition PackedVectorLayout_bytes (l : Layout) : list N := u64_bytes (size l) ++ [align l].

(** [pack_layout]: the alignment must fit a byte. *)
Definition pack_layout (l : Layout) : outcome (list N) :=
  if align l <? 256 then Returned (Ok (PackedVectorLayout_bytes l)) else Panicked.

(** [Layout::from_size_align]: a power of two, and a size that stays in range
    when it is rounded up. *)
Definition from_size_align (sz al : N) : option Layout :=
  if negb (al =? 0) && (2 ^ N.log2 al =? al) && (sz + (al - 1) <? 2 ^ 63)
  then Some {| size := sz; align := al |} else None.

(** [PackedVectorLayout::try_into_layout] *)
Definition try_into_layout (data : list N) (offset : nat) : OperationResult Layout :=
  match from_size_align (field data offset 8) (field data (offset + 8) 1) with
  | Some l => Ok l
  | None => Err (ServiceError "Invalid vector layout")
  end.

(** [usize::next_multiple_of] an alignment, which is not zero, and the distance
    to it. *)
Definition next_multiple (a b : N) : N := div_ceil a b * b.
Definition padding (a b : N) : N := next_multiple a b - a.
Definition zeros (n : N) : list N := replicate (N.to_nat n) 0.

(** ** Serialization *)

(** The number of levels of a point. *)
Definition levels_of (edges : edges_t) (id : N) : nat := length (edges !!! N.to_nat id).

(** [point_count_by_level[point.len() - 1] += 1] over the points *)
Fixpoint count_by_level (edges : edges_t) (counts : list N) : outcome (list N) :=
  match edges with
  | [] => mret counts
  | point :: edges' =>
      if (length point =? 0)%nat then Panicked
      else
        c ← unwrap (counts !! (length point - 1)%nat);
        count_by_level edges' (<[(length point - 1)%nat := c + 1]> counts)
  end.

Definition sum_list (l : list N) : N := foldr N.add 0 l.

(** The first index of every level, and the number of nodes. *)
Fixpoint level_starts (counts : list N) (total suffix_sum : N) : outcome (list N * N) :=
  match counts with
  | [] => mret ([], total)
  | value :: counts' =>
      suffix_sum' ← unwrap (checked_sub suffix_sum value);
      '(starts, total') ← level_starts counts' (total + suffix_sum) suffix_sum';
      mret (total :: starts, total')
  end.

(** [reindex[back_index[i]] = i] *)
Fixpoint invert (i : N) (back_index : list N) (reindex : list N) : outcome (list N) :=
  match back_index with
  | [] => mret reindex
  | id :: back_index' =>
      _ ← unwrap (reindex !! N.to_nat id);
      invert (i + 1) back_index' (<[N.to_nat id := i]> reindex)
  end.

(** The state of the loop over the nodes: the links not yet taken, the bytes
    written, the offset and all offsets. *)
Record NodeWriter : Type := mkNodeWriter {
  nw_edges : edges_t;
  nw_bytes : list N;
  nw_offset : N;
  nw_offsets : list N;
}.

(** [std::mem::take(&mut edges[id][level])] *)
Definition take_links (edges : edges_t) (id : N) (level : nat) : outcome (list N * edges_t) :=
  levels ← unwrap (edges !! N.to_nat id);
  links ← unwrap (levels !! level);
  mret (links, <[N.to_nat id := <[level := []]> levels]> edges).

(** The link vectors, in the order of the links. *)
Fixpoint write_link_vectors (vectors : GraphLinksVectors) (links : list N) : outcome (list N) :=
  match links with
  | [] => mret []
  | i :: links' =>
      vector ← Returned (get_link_vector vectors i);
      if negb (N.of_nat (length vector) =? size (link_layout vectors))
      then Returned (Err (ServiceError "Vector size mismatch"))
      else rest ← write_link_vectors vectors links'; mret (vector ++ rest)
  end.

(** The bytes of a node in the last format, and the offset behind it. *)
Definition node_with_vectors `{VarInt} (vectors : GraphLinksVectors) (bits_per_unsorted : N) (level_m : nat)
    (level : nat) (id : N) (raw_links : list N) (offset : N) : outcome (list N * N) :=
  base ← (if (level =? 0)%nat then
            vector ← Returned (base_vector vectors id);
            if negb (N.of_nat (length vector) =? size (base_layout vectors))
            then Returned (Err (ServiceError "Vector size mismatch")) else mret vector
          else mret []);
  let offset := if (level =? 0)%nat then offset + size (base_layout vectors) else offset in
  let count := encode_var (N.of_nat (length raw_links)) in
  let offset := offset + required_space (N.of_nat (length raw_links)) in
  '(packed, raw_links) ← unwrap (pack_links [] raw_links bits_per_unsorted level_m);
  let offset := offset + N.of_nat (length packed) in
  let pad := padding offset (align (link_layout vectors)) in
  let offset := offset + pad in
  link_vectors ← write_link_vectors vectors raw_links;
  let offset := offset + N.of_nat (length link_vectors) in
  let last_pad := if (level =? 0)%nat then padding offset (align (base_layout vectors)) else 0 in
  mret (base ++ count ++ packed ++ zeros pad ++ link_vectors ++ zeros last_pad, offset + last_pad).

(** The bytes of a node and the offset behind it, in elements in the plain
    format and in bytes in the others. *)
Definition node_bytes `{VarInt} (param : GraphLinksFormatParam) (bits_per_unsorted : N) (level_m : nat)
    (level : nat) (id : N) (raw_links : list N) (offset : N) : outcome (list N * N) :=
  match param with
  | Plain => mret (mjoin (u32_bytes <$> raw_links), offset + N.of_nat (length raw_links))
  | Compressed =>
      '(packed, _) ← unwrap (pack_links [] raw_links bits_per_unsorted level_m);
      mret (packed, offset + N.of_nat (length packed))
  | CompressedWithVectors vectors =>
      node_with_vectors vectors bits_per_unsorted level_m level id raw_links offset
  end.

(** The body of the loop over the nodes of a level. *)
Definition write_node `{VarInt} (param : GraphLinksFormatParam) (bits_per_unsorted : N) (hnsw_m : HnswM)
    (st : NodeWriter) (level : nat) (id : N) : outcome NodeWriter :=
  '(raw_links, edges) ← take_links (nw_edges st) id level;
  '(bytes, offset) ← node_bytes param bits_per_unsorted (level_m hnsw_m level) level id raw_links (nw_offset st);
  mret {| nw_edges := edges; nw_bytes := nw_bytes st ++ bytes; nw_offset := offset;
          nw_offsets := nw_offsets st ++ [offset] |}.

Fixpoint write_nodes `{VarInt} (param : GraphLinksFormatParam) (bits_per_unsorted : N) (hnsw_m : HnswM)
    (st : NodeWriter) (nodes : list (nat * N)) : outcome NodeWriter :=
  match nodes with
  | [] => mret st
  | (level, id) :: nodes' =>
      st ← write_node param bits_per_unsorted hnsw_m st level id;
      write_nodes param bits_per_unsorted hnsw_m st nodes'
  end.

(** The nodes of a level: all points in their order on the lowest one, a prefix
    of the sorted points above it. *)
Definition level_nodes (counts back_index : list N) (level : nat) : outcome (list (nat * N)) :=
  let count := N.to_nat (sum_list (drop level counts)) in
  if (level =? 0)%nat then mret ((fun i => (level, N.of_nat i)) <$> seq 0 count)
  else if (count <=? length back_index)%nat then mret (pair level <$> take count back_index)
  else Panicked.

(** The loop over the levels. *)
Fixpoint write_levels `{VarInt} (param : GraphLinksFormatParam) (bits_per_unsorted : N) (hnsw_m : HnswM)
    (counts back_index : list N) (st : NodeWriter) (levels : list nat) : outcome NodeWriter :=
  match levels with
  | [] => mret st
  | level :: levels' =>
      nodes ← level_nodes counts back_index level;
      st ← write_nodes param bits_per_unsorted hnsw_m st nodes;
      write_levels param bits_per_unsorted hnsw_m counts back_index st levels'
  end.

(** The checks of the vector layouts. *)
Definition check_layouts (param : GraphLinksFormatParam) : outcome unit :=
  match param with
  | CompressedWithVectors v =>
      if negb (size (base_layout v) mod align (base_layout v) =? 0) then
        Returned (Err (ServiceError "Base vector size must be a multiple of its alignment"))
      else if negb (size (link_layout v) mod align (link_layout v) =? 0) then
        Returned (Err (ServiceError "Link vector size must be a multiple of its alignment"))
      else mret tt
  | _ => mret tt
  end.

Definition header_size (param : GraphLinksFormatParam) : nat :=
  match param with Plain => 64 | Compressed => 64 | CompressedWithVectors _ => 80 end.

(** The offsets, and the header that describes them. *)
Definition write_offsets (param : GraphLinksFormatParam) (hnsw_m : HnswM) (point_count levels_count : N)
    (st : NodeWriter) (position : N) : outcome (list N * list N) :=
  match param with
  | Plain =>
      let offsets_padding := padding position 8 in
      mret (zeros offsets_padding ++ mjoin (u64_bytes <$> nw_offsets st),
            HeaderPlain_bytes
              {| hp_point_count := point_count; hp_levels_count := levels_count;
                 hp_total_neighbors_count := nw_offset st;
                 hp_total_offset_count := N.of_nat (length (nw_offsets st));
                 hp_offsets_padding_bytes := offsets_padding |})
  | _ =>
      '(compressed_offsets, parameters) ← unwrap (compress (nw_offsets st));
      let header version :=
        {| hc_point_count := point_count; hc_version := version; hc_levels_count := levels_count;
           hc_total_neighbors_bytes := nw_offset st; hc_offsets_parameters := parameters;
           hc_m := N.of_nat (m hnsw_m); hc_m0 := N.of_nat (m0 hnsw_m) |} in
      match param with
      | CompressedWithVectors v =>
          base ← pack_layout (base_layout v);
          link ← pack_layout (link_layout v);
          mret (compressed_offsets,
                header_fields (header HEADER_VERSION_COMPRESSED_WITH_VECTORS) ++ base ++ link ++ replicate 3 0)
      | _ => mret (compressed_offsets, HeaderCompressed_bytes (header HEADER_VERSION_COMPRESSED))
      end
  end.

(** [u32::try_from(point_count - 1)], as a width of links *)
Definition unsorted_width (point_count : N) : option N :=
  if point_count - 1 <? 2 ^ 32 then Some (N.max (packed_bits 32 (point_count - 1)) MIN_BITS_PER_VALUE)
  else None.

(** The sections in front of the nodes: a placeholder for the header, the level
    offsets, the order of the points and the padding. *)
Definition write_front (param : GraphLinksFormatParam) (starts reindex : list N) : list N :=
  let written := replicate (header_size param) 0 ++ mjoin (u64_bytes <$> starts) ++ mjoin (u32_bytes <$> reindex) in
  match param with
  | CompressedWithVectors v =>
      written ++ zeros (padding (N.of_nat (length written)) (N.max (align (base_layout v)) (align (link_layout v))))
  | _ => written
  end.

(** [serialize_graph_links] up to the nodes: the sections in front of them, the
    number of levels, and the nodes. *)
Definition serialize_nodes `{VarInt} `{UnstableByLevel} (edges : edges_t) (param : GraphLinksFormatParam)
    (hnsw_m : HnswM) : outcome (list N * nat * NodeWriter) :=
  bits_per_unsorted ← unwrap (unsorted_width (N.of_nat (length edges)));
  _ ← check_layouts param;
  let back_index := sort_by_level (levels_of edges) (N.of_nat <$> seq 0 (length edges)) in
  let levels_count := match back_index with [] => O | id :: _ => levels_of edges id end in
  counts ← count_by_level edges (replicate levels_count 0);
  '(starts, _) ← level_starts counts 0 (sum_list counts);
  reindex ← invert 0 back_index (replicate (length back_index) 0);
  st ← write_levels param bits_per_unsorted hnsw_m counts back_index
         {| nw_edges := edges; nw_bytes := []; nw_offset := 0; nw_offsets := [0] |} (seq 0 levels_count);
  mret (write_front param starts reindex, levels_count, st).

(** The rest of [serialize_graph_links]: the offsets, and the header in place of
    its placeholder. *)
Definition write_file (param : GraphLinksFormatParam) (hnsw_m : HnswM) (point_count levels_count : N)
    (front : list N) (st : NodeWriter) : outcome (list N) :=
  let written := front ++ nw_bytes st in
  '(offsets, header) ← write_offsets param hnsw_m point_count levels_count st (N.of_nat (length written));
  mret (header ++ drop (length header) (written ++ offsets)).

(** [serialize_graph_links]: the bytes of the file. *)
Definition serialize_graph_links `{VarInt} `{UnstableByLevel} (edges : edges_t) (param : GraphLinksFormatParam)
    (hnsw_m : HnswM) : outcome (list N) :=
  '(front, levels_count, st) ← serialize_nodes edges param hnsw_m;
  write_file param hnsw_m (N.of_nat (length edges)) (N.of_nat levels_count) front st.

(** ** Loading *)

Inductive CompressionInfo : Type :=
  | Uncompressed (neighbors offsets : list N)
  | CompressedInfo (neighbors : list N) (offsets : Reader) (hnsw_m : HnswM) (bits_per_unsorted : N)
  | CompressedWithVectorsInfo (neighbors : list N) (offsets : Reader) (hnsw_m : HnswM) (bits_per_unsorted : N)
      (base_vector_layout : Layout) (link_vector_size link_vector_alignment : N).

Record GraphLinksView : Type := mkGraphLinksView {
  reindex : list N;
  compression : CompressionInfo;
  level_offsets : list N;
}.

(** [error_unsufficent_size] *)
Definition error_unsufficent_size : OperationError :=
  ServiceError "Unsufficent file size for GraphLinks file".

(** What is left of the file, and its position. *)
Record Cursor : Type := mkCursor { position : N; remaining : list N }.

Definition advance (c : Cursor) (n : nat) : Cursor :=
  {| position := position c + N.of_nat n; remaining := drop n (remaining c) |}.

(** [T::ref_from_prefix] of a header *)
Definition header_prefix (n : nat) (c : Cursor) : OperationResult (list N * Cursor) :=
  if (n <=? length (remaining c))%nat && (position c mod 8 =? 0)
  then Ok (take n (remaining c), advance c n) else Err error_unsufficent_size.

(** The integers of [k] bytes at the front of a byte string. *)
Fixpoint words (count k : nat) (bytes : list N) : list N :=
  match count with
  | O => []
  | S count' => from_le_bytes (take k bytes) :: words count' k (drop k bytes)
  end.

(** [get_slice] of integers of [k] bytes with an alignment. *)
Definition get_slice (k : nat) (alignment : N) (c : Cursor) (length_ : N) : OperationResult (list N * Cursor) :=
  if (length_ * N.of_nat k <=? N.of_nat (length (remaining c))) && (position c mod alignment =? 0)
  then Ok (words (N.to_nat length_) k (remaining c), advance c (N.to_nat length_ * k))
  else Err error_unsufficent_size.

(** [read_level_offsets] *)
Definition read_level_offsets (c : Cursor) (levels_count total_offset_count : N)
    : OperationResult (list N * Cursor) :=
  match get_slice 8 8 c levels_count with
  | Err e => Err e
  | Ok (offsets, c) =>
      match checked_sub total_offset_count 1 with
      | Some last => Ok (offsets ++ [last], c)
      | None => Err (ServiceError "Total offset count should be at least 1 in GraphLinks file")
      end
  end.

(** [load_plain] *)
Definition load_plain (c : Cursor) : outcome GraphLinksView :=
  '(h, c) ← Returned (header_prefix 64 c);
  let header := HeaderPlain_read h in
  '(level_offsets, c) ← Returned (read_level_offsets c (hp_levels_count header) (hp_total_offset_count header));
  '(reindex, c) ← Returned (get_slice 4 4 c (hp_point_count header));
  '(neighbors, c) ← Returned (get_slice 4 4 c (hp_total_neighbors_count header));
  '(_, c) ← Returned (get_slice 1 1 c (hp_offsets_padding_bytes header));
  '(offsets, _) ← Returned (get_slice 8 1 c (hp_total_offset_count header));
  mret {| reindex := reindex; compression := Uncompressed neighbors offsets; level_offsets := level_offsets |}.

(** [bitpacking_ordered::Reader::new] with its error mapped *)
Definition open_offsets (parameters : Parameters) (c : Cursor) : outcome Reader :=
  match Reader_new parameters (remaining c) with
  | Some (Decompressed (r, _)) => mret r
  | Some (DecompressionError _) => Returned (Err (ServiceError "Can't create decompressor: {e}"))
  | None => Panicked
  end.

Definition width_of_links (point_count : N) : OperationResult N :=
  match unsorted_width point_count with
  | Some bits => Ok bits
  | None => Err (ServiceError "Too many points in GraphLinks file")
  end.

(** [load_compressed] *)
Definition load_compressed (c : Cursor) : outcome GraphLinksView :=
  '(h, c) ← Returned (header_prefix 64 c);
  let header := HeaderCompressed_read h in
  '(level_offsets, c) ←
    Returned (read_level_offsets c (hc_levels_count header) (p_length (hc_offsets_parameters header)));
  '(reindex, c) ← Returned (get_slice 4 4 c (hc_point_count header));
  '(neighbors, c) ← Returned (get_slice 1 1 c (hc_total_neighbors_bytes header));
  offsets ← open_offsets (hc_offsets_parameters header) c;
  bits_per_unsorted ← Returned (width_of_links (hc_point_count header));
  mret {| reindex := reindex;
          compression := CompressedInfo neighbors offsets
            {| m := N.to_nat (hc_m header); m0 := N.to_nat (hc_m0 header) |} bits_per_unsorted;
          level_offsets := level_offsets |}.

(** [load_compressed_with_vectors] *)
Definition load_compressed_with_vectors (c : Cursor) : outcome GraphLinksView :=
  '(h, c) ← Returned (header_prefix 80 c);
  let header := HeaderCompressed_read h in
  base ← Returned (try_into_layout h 59);
  link ← Returned (try_into_layout h 68);
  '(level_offsets, c) ←
    Returned (read_level_offsets c (hc_levels_count header) (p_length (hc_offsets_parameters header)));
  '(reindex, c) ← Returned (get_slice 4 4 c (hc_point_count header));
  '(_, c) ← Returned (get_slice 1 1 c (padding (position c) (N.max (align link) (align base))));
  '(neighbors, c) ← Returned (get_slice 1 1 c (hc_total_neighbors_bytes header));
  offsets ← open_offsets (hc_offsets_parameters header) c;
  bits_per_unsorted ← Returned (width_of_links (hc_point_count header));
  if size link =? 0 then Returned (Err (ServiceError "Zero link vector size in GraphLinks file"))
  else
    mret {| reindex := reindex;
            compression := CompressedWithVectorsInfo neighbors offsets
              {| m := N.to_nat (hc_m header); m0 := N.to_nat (hc_m0 header) |} bits_per_unsorted
              base (size link) (align link);
            level_offsets := level_offsets |}.

(** [GraphLinksView::load] *)
Definition load (data : list N) (format : GraphLinksFormat) : outcome GraphLinksView :=
  let c := {| position := 0; remaining := data |} in
  match format with
  | CompressedFormat => load_compressed c
  | PlainFormat => load_plain c
  | CompressedWithVectorsFormat => load_compressed_with_vectors c
  end.

(** [GraphLinks::new_from_edges] *)
Definition new_from_edges `{VarInt} `{UnstableByLevel} (edges : edges_t) (param : GraphLinksFormatParam)
    (hnsw_m : HnswM) : outcome GraphLinksView :=
  bytes ← serialize_graph_links edges param hnsw_m; load bytes (as_format param).

(** ** Reading *)

(** [offset_idx] *)
Definition offset_idx (self : GraphLinksView) (point_id : N) (level : nat) : outcome N :=
  if (level =? 0)%nat then mret point_id
  else
    start ← unwrap (level_offsets self !! level);
    i ← unwrap (reindex self !! N.to_nat point_id);
    mret (start + i).

(** [&slice[start..end]] *)
Definition slice (l : list N) (start end_ : N) : outcome (list N) :=
  if (start <=? end_) && (end_ <=? N.of_nat (length l))
  then mret (take (N.to_nat (end_ - start)) (drop (N.to_nat start) l)) else Panicked.

(** [offsets.get(idx).unwrap()] *)
Definition offset_at (offsets : Reader) (idx : N) : outcome N :=
  match get offsets idx with Got (Some v) => mret v | _ => Panicked end.

(** [LinksIterator] *)
Inductive LinksIterator : Type :=
  | PlainLinks (links : list N)
  | PackedLinks (it : PackedLinksIterator).

(** [slice::chunks_exact]: full chunks only *)
Fixpoint chunks_exact (fuel k : nat) (l : list N) : list (list N) :=
  match fuel with
  | O => []
  | S fuel' => if (k <=? length l)%nat then take k l :: chunks_exact fuel' k (drop k l) else []
  end.

(** [GraphLinksView::links_with_vectors]: the base vector, the links and the
    link vectors. *)
Definition links_with_vectors `{VarInt} (self : GraphLinksView) (point_id : N) (level : nat)
    : outcome (list N * PackedLinksIterator * list (list N)) :=
  idx ← offset_idx self point_id level;
  match compression self with
  | CompressedWithVectorsInfo neighbors offsets hnsw_m bits_per_unsorted base link_size link_align =>
      start ← offset_at offsets idx;
      end_ ← offset_at offsets (idx + 1);
      _ ← slice neighbors start end_;
      '(base_vector, pos) ←
        (if (level =? 0)%nat
         then v ← slice neighbors start (start + size base); mret (v, start + size base)
         else mret ([], start));
      tail ← slice neighbors pos end_;
      '(neighbors_count, count_size) ← unwrap (decode_var tail);
      let pos := pos + count_size in
      tail ← slice neighbors pos end_;
      links_size ← unwrap (packed_links_size tail bits_per_unsorted (N.of_nat (level_m hnsw_m level)) neighbors_count);
      packed ← slice neighbors pos (pos + links_size);
      links ← unwrap (iterate_packed_links packed bits_per_unsorted (N.of_nat (level_m hnsw_m level)));
      let pos := next_multiple (pos + links_size) link_align in
      link_vectors ← slice neighbors pos (pos + neighbors_count * link_size);
      mret (base_vector, links, chunks_exact (length link_vectors) (N.to_nat link_size) link_vectors)
  | _ => Panicked
  end.

(** [GraphLinksView::links] *)
Definition view_links `{VarInt} (self : GraphLinksView) (point_id : N) (level : nat) : outcome LinksIterator :=
  idx ← offset_idx self point_id level;
  match compression self with
  | Uncompressed neighbors offsets =>
      start ← unwrap (offsets !! N.to_nat idx);
      end_ ← unwrap (offsets !! N.to_nat (idx + 1));
      links ← slice neighbors start end_;
      mret (PlainLinks links)
  | CompressedInfo neighbors offsets hnsw_m bits_per_unsorted =>
      start ← offset_at offsets idx;
      end_ ← offset_at offsets (idx + 1);
      packed ← slice neighbors start end_;
      it ← unwrap (iterate_packed_links packed bits_per_unsorted (N.of_nat (level_m hnsw_m level)));
      mret (PackedLinks it)
  | CompressedWithVectorsInfo _ _ _ _ _ _ _ =>
      '(_, it, _) ← links_with_vectors self point_id level; mret (PackedLinks it)
  end.

(** [collect] of the iterator, which knows its length. *)
Definition collect_links (it : LinksIterator) : outcome (list N) :=
  match it with
  | PlainLinks links => mret links
  | PackedLinks it => n ← unwrap (links_size_hint it); unwrap (links_collect (S (N.to_nat n)) it)
  end.

(** [GraphLinksView::links_empty] *)
Definition links_empty `{VarInt} (self : GraphLinksView) (point_id : N) (level : nat) : outcome bool :=
  idx ← offset_idx self point_id level;
  match compression self with
  | Uncompressed _ offsets =>
      start ← unwrap (offsets !! N.to_nat idx);
      end_ ← unwrap (offsets !! N.to_nat (idx + 1));
      mret (start =? end_)
  | CompressedInfo _ offsets _ _ =>
      end_ ← offset_at offsets (idx + 1);
      start ← offset_at offsets idx;
      mret (end_ =? start)
  | CompressedWithVectorsInfo _ _ _ _ _ _ _ =>
      it ← view_links self point_id level;
      match it with
      | PlainLinks links => mret (length links =? 0)%nat
      | PackedLinks it => '(x, _) ← unwrap (links_next it); mret (match x with None => true | Some _ => false end)
      end
  end.

(** The loop of [point_level] over neighbouring level offsets. *)
Fixpoint point_level_loop (reindexed : N) (level : nat) (windows : list N) : outcome (option nat) :=
  match windows with
  | a :: (b :: _) as windows' =>
      d ← unwrap (checked_sub b a);
      if d <=? reindexed then mret (Some level) else point_level_loop reindexed (S level) windows'
  | _ => mret None
  end.

(** [GraphLinksView::point_level] *)
Definition point_level (self : GraphLinksView) (point_id : N) : outcome nat :=
  reindexed ← unwrap (reindex self !! N.to_nat point_id);
  found ← point_level_loop reindexed 0 (drop 1 (level_offsets self));
  match found with
  | Some level => mret level
  | None => if (2 <=? length (level_offsets self))%nat then mret (length (level_offsets self) - 2)%nat else Panicked
  end.

(** [GraphLinks::num_points] *)
Definition num_points (self : GraphLinksView) : nat := length (reindex self).

(** Calling a function in order, stopping at the first that does not return. *)
Fixpoint mapM_outcome {A B} (f : A -> outcome B) (l : list A) : outcome (list B) :=
  match l with
  | [] => mret []
  | a :: l' => b ← f a; bs ← mapM_outcome f l'; mret (b :: bs)
  end.

(** [GraphLinks::to_edges_impl] and [GraphLinks::to_edges] *)
Definition to_edges_impl {A} (self : GraphLinksView) (f : N -> nat -> outcome A) : outcome (list (list A)) :=
  mapM_outcome (fun point_id =>
    top ← point_level self (N.of_nat point_id);
    mapM_outcome (f (N.of_nat point_id)) (seq 0 (top + 1))) (seq 0 (num_points self)).

Definition to_edges `{VarInt} (self : GraphLinksView) : outcome edges_t :=
  to_edges_impl self (fun point_id level => it ← view_links self point_id level; collect_links it).

(** ** Instances of the parameters

    The usual encoding of seven bits per byte, and a sort by insertion. *)

Fixpoint leb_encode (fuel : nat) (v : N) : list N :=
  match fuel with
  | O => []
  | S fuel' => if v <? 128 then [v] else v mod 128 + 128 :: leb_encode fuel' (v / 128)
  end.

Fixpoint leb_decode (l : list N) : option (N * N) :=
  match l with
  | [] => None
  | b :: l' =>
      if b <? 128 then Some (b, 1)
      else '(v, n) ← leb_decode l'; Some (b - 128 + 128 * v, n + 1)
  end.

Lemma leb_encode_ok fuel v : bytes_ok (leb_encode fuel v).
Proof.
  revert v. induction fuel as [| fuel IH]; intros v; simpl; [constructor |].
  destruct (N.ltb_spec v 128); repeat constructor; try apply IH; unfold byte_ok; [lia |].
  pose proof (N.mod_lt v 128 ltac:(done)). lia.
Qed.

Lemma leb_decode_encode fuel v rest : v < 128 ^ N.of_nat (S fuel) ->
  leb_decode (leb_encode (S fuel) v ++ rest) = Some (v, N.of_nat (length (leb_encode (S fuel) v))).
Proof.
  revert v. induction fuel as [| fuel IH]; intros v Hv; cbn [leb_encode].
  { destruct (N.ltb_spec v 128) as [H |]; [| change (128 ^ N.of_nat 1) with 128 in Hv; lia].
    cbn [app leb_decode]. by apply N.ltb_lt in H as ->. }
  destruct (N.ltb_spec v 128) as [H |].
  { cbn [app leb_decode]. by apply N.ltb_lt in H as ->. }
  assert (Hq : v / 128 < 128 ^ N.of_nat (S fuel)).
  { apply N.Div0.div_lt_upper_bound. by rewrite <- N.pow_succ_r', <- Nat2N.inj_succ. }
  change (if _ <? _ then _ else _) with (leb_encode (S fuel) (v / 128)). cbn [app leb_decode].
  rewrite (proj2 (N.ltb_ge _ 128) (N.le_add_l _ _)), IH by done. cbn [mbind option_bind length].
  rewrite N.add_sub, N.add_comm, <- N.div_mod by done. f_equal. f_equal. lia.
Qed.

Definition leb128 : VarInt.
Proof.
  refine {| encode_var := leb_encode 10; required_space := fun v => N.of_nat (length (leb_encode 10 v));
            decode_var := leb_decode |}.
  - apply leb_encode_ok.
  - done.
  - intros v rest Hv. apply (leb_decode_encode 9). change (128 ^ N.of_nat 10) with (2 ^ 70).
    pose proof (pow2_le 64 70 ltac:(lia)). lia.
Defined.

Fixpoint insert_by_level (f : N -> nat) (i : N) (l : list N) : list N :=
  match l with
  | [] => [i]
  | j :: l' => if (f j <=? f i)%nat then i :: l else j :: insert_by_level f i l'
  end.

Lemma insert_by_level_perm f i l : insert_by_level f i l ≡ₚ i :: l.
Proof.
  induction l as [| j l IH]; simpl; [done |]. destruct (_ <=? _)%nat; [done |].
  rewrite IH. apply Permutation_swap.
Qed.

Lemma insert_by_level_sorted f i l : StronglySorted (fun i j => (f j <= f i)%nat) l ->
  StronglySorted (fun i j => (f j <= f i)%nat) (insert_by_level f i l).
Proof.
  induction 1 as [| j l Hl IH Hj]; simpl; [by repeat constructor |].
  destruct (Nat.leb_spec (f j) (f i)).
  - constructor; [by constructor |]. constructor; [done |]. eapply Forall_impl; [exact Hj |]. simpl. lia.
  - constructor; [done |]. rewrite insert_by_level_perm. constructor; [lia | done].
Qed.

Definition insertion_sort : UnstableByLevel.
Proof.
  refine {| sort_by_level f l := foldr (insert_by_level f) [] l |}; intros f l.
  - induction l as [| i l IH]; simpl; [done |]. by rewrite insert_by_level_perm, IH.
  - induction l as [| i l IH]; simpl; [constructor |]. by apply insert_by_level_sorted.
Defined.

(** A graph of four points with up to three levels. *)
Definition sample_edges : edges_t :=
  [[[1; 2]]; [[3; 0; 2]; [2]; [2]]; [[0]; [1; 3]; [1]]; [[2; 1]; [2]]].

Definition sample_vectors : GraphLinksVectors :=
  {| base_vector id := Ok [id; id + 1; 0; 9]; get_link_vector id := Ok [id; 7];
     base_layout := {| size := 4; align := 4 |}; link_layout := {| size := 2; align := 2 |} |}.
