(* ===== verification/GraphLinksExact.v ===== *)
(** * The links file read back

    The theorems about [GraphLinks]: the levels and the order of the points,
    the layout of the nodes, the sections of the file, and the round trip from
    edges to edges. *)

From S2P Require Import Prelude MachineInt BitPacking DeltaPack PackedLinks OrderedPacking GraphLinks.

Local Open Scope N_scope.

(** A call that returned goes on. *)
Lemma bind_ok {A B} (x : A) (k : A -> outcome B) : (Returned (Ok x) ≫= k) = k x.
Proof. done. Qed.

Lemma bind_ret {A B} (x : A) (k : A -> outcome B) : (mret x ≫= k) = k x.
Proof. done. Qed.

Lemma unwrap_some {A} (x : A) : unwrap (Some x) = Returned (Ok x).
Proof. done. Qed.

Create Rewrite HintDb calls.
#[export] Hint Rewrite @bind_ok @bind_ret @unwrap_some : calls.
Local Ltac go_on := autorewrite with calls; cbv beta iota zeta.

(** ** Levels *)

(** The points with more than a number of levels. *)
Definition above (edges : edges_t) (level : nat) : nat :=
  length (filter (fun point => (level < length point)%nat) edges).

Lemma sum_list_cons x l : sum_list (x :: l) = x + sum_list l.
Proof. done. Qed.

Lemma sum_list_app l k : sum_list (l ++ k) = sum_list l + sum_list k.
Proof. induction l as [| x l IH]; simpl; [done |]. rewrite IH. lia. Qed.

Lemma sum_list_replicate n : sum_list (replicate n 0) = 0.
Proof. induction n; simpl; auto. Qed.

Lemma sum_drop_insert counts k c level : counts !! k = Some c ->
  sum_list (drop level (<[k := c + 1]> counts)) = sum_list (drop level counts) + (if (level <=? k)%nat then 1 else 0).
Proof.
  intros Hk. destruct (Nat.leb_spec level k) as [Hle | Hlt].
  - rewrite drop_insert_ge by done.
    assert (Hk' : drop level counts !! (k - level)%nat = Some c)
      by (rewrite lookup_drop; by replace (level + (k - level))%nat with k by lia).
    rewrite <- (take_drop_middle _ _ _ Hk') at 2.
    rewrite insert_take_drop by (by eapply lookup_lt_Some). rewrite !sum_list_app. simpl. lia.
  - rewrite drop_insert_lt by lia. lia.
Qed.

(** Counting gives the numbers of points above every level. *)
Lemma count_points_spec edges counts :
  Forall (fun point => (1 <= length point <= length counts)%nat) edges ->
  exists counts', count_by_level edges counts = Returned (Ok counts') /\ length counts' = length counts /\
    forall level, sum_list (drop level counts') = sum_list (drop level counts) + N.of_nat (above edges level).
Proof.
  revert counts. induction edges as [| point edges IH]; intros counts Hp; simpl.
  { exists counts. split; [done |]. split; [done |]. intros level. unfold above. simpl. lia. }
  inversion_clear Hp as [| ?? Hpoint Hp']. destruct (Nat.eqb_spec (length point) 0); [lia |].
  destruct (lookup_lt_is_Some_2 counts (length point - 1)) as [c Hc]; [lia |]. rewrite Hc. simpl.
  destruct (IH (<[(length point - 1)%nat := c + 1]> counts)) as (counts' & -> & Hlen & Hsum).
  { by rewrite length_insert. }
  exists counts'. split; [done |]. split; [by rewrite Hlen, length_insert |]. intros level.
  rewrite Hsum, sum_drop_insert by done. unfold above. rewrite filter_cons.
  destruct (Nat.leb_spec level (length point - 1)), (decide (level < length point)%nat); simpl; lia.
Qed.

Fixpoint suffix_sums (counts : list N) : list N :=
  match counts with [] => [] | value :: counts' => sum_list counts :: suffix_sums counts' end.

Lemma length_suffix_sums counts : length (suffix_sums counts) = length counts.
Proof. induction counts; simpl; auto. Qed.

Lemma suffix_sums_lookup counts level : (level < length counts)%nat ->
  suffix_sums counts !! level = Some (sum_list (drop level counts)).
Proof.
  revert level. induction counts as [| value counts IH]; intros level Hl; simpl in Hl; [lia |].
  destruct level as [| level]; [done |]. simpl. apply IH. lia.
Qed.

(** Every level starts behind the nodes of the levels below it. *)
Lemma level_starts_spec counts total :
  exists starts, level_starts counts total (sum_list counts)
      = Returned (Ok (starts, total + sum_list (suffix_sums counts))) /\
    length starts = length counts /\
    forall level, (level < length counts)%nat ->
      starts !! level = Some (total + sum_list (take level (suffix_sums counts))).
Proof.
  revert total. induction counts as [| value counts IH]; intros total.
  { exists []. simpl. rewrite N.add_0_r. split; [done |]. split; [done |]. intros level Hl. simpl in Hl. lia. }
  destruct (IH (total + sum_list (value :: counts))) as (starts & E & Hlen & Hs).
  exists (total :: starts). cbn [level_starts].
  rewrite checked_sub_some by (simpl; lia). cbn [unwrap mbind outcome_bind].
  replace (sum_list (value :: counts) - value) with (sum_list counts) by (simpl; lia).
  rewrite E. cbn [mbind outcome_bind mret outcome_ret]. split.
  { cbn [suffix_sums]. by rewrite (sum_list_cons (sum_list _)), N.add_assoc. }
  split; [simpl; by rewrite Hlen |]. intros [| level] Hl; cbn [length] in Hl.
  - by rewrite N.add_0_r.
  - cbn [suffix_sums take lookup list_lookup]. rewrite sum_list_cons, N.add_assoc. apply Hs. lia.
Qed.

(** ** The order of the points *)

(** [reindex] is the inverse of [back_index]. *)
Lemma invert_spec back i re : NoDup back -> Forall (fun id => (N.to_nat id < length re)%nat) back ->
  exists re', invert i back re = Returned (Ok re') /\ length re' = length re /\
    (forall j id, back !! j = Some id -> re' !! N.to_nat id = Some (i + N.of_nat j)) /\
    (forall k, Forall (fun id => N.to_nat id <> k) back -> re' !! k = re !! k).
Proof.
  intros Hnd. revert i re. induction Hnd as [| id back Hid _ IH]; intros i re Hb; simpl.
  { exists re. by split. }
  inversion_clear Hb as [| ?? Hlt Hb']. destruct (lookup_lt_is_Some_2 re (N.to_nat id) Hlt) as [x Hx].
  rewrite Hx. simpl.
  destruct (IH (i + 1) (<[N.to_nat id := i]> re)) as (re' & -> & Hlen & Hin & Hout).
  { by rewrite length_insert. }
  exists re'. split; [done |]. split; [by rewrite Hlen, length_insert |]. split.
  - intros [| j] id' Hj; simpl in Hj.
    + injection Hj as <-. rewrite Hout; [rewrite list_lookup_insert_eq by done; f_equal; lia |].
      apply Forall_forall. intros id' Hid' E. apply N2Nat.inj in E as ->. done.
    + rewrite (Hin j id' Hj). f_equal. lia.
  - intros k Hk. inversion_clear Hk as [| ?? Hne Hk']. rewrite Hout by done. by rewrite list_lookup_insert_ne.
Qed.

(** In a list by descending levels, the points above a level are a prefix. *)
Lemma sorted_prefix (f : N -> nat) level l j id : StronglySorted (fun i j => (f j <= f i)%nat) l ->
  l !! j = Some id -> ((j < length (filter (fun i => (level < f i)%nat) l))%nat <-> (level < f id)%nat).
Proof.
  intros Hs. revert j. induction Hs as [| i l Hs IH Hi]; intros j Hj; [done |]. rewrite filter_cons.
  destruct (decide (level < f i)%nat) as [Hl | Hl]; simpl.
  - destruct j as [| j]; simpl in Hj; [injection Hj as <-; split; [done | lia] |].
    rewrite <- (IH j Hj). lia.
  - assert (filter (fun i => (level < f i)%nat) l = []) as ->.
    { apply filter_nil. eapply Forall_impl; [exact Hi |]. simpl. lia. }
    simpl. assert (f id <= f i)%nat; [| lia].
    destruct j as [| j]; simpl in Hj; [injection Hj as <-; done |].
    by apply (Forall_lookup_1 _ _ _ _ Hi Hj).
Qed.

Definition point_ids (edges : edges_t) : list N := N.of_nat <$> seq 0 (length edges).

Lemma edges_by_id edges : (fun id => edges !!! N.to_nat id) <$> point_ids edges = edges.
Proof.
  apply list_eq. intros i. unfold point_ids. rewrite list_lookup_fmap, list_lookup_fmap.
  destruct (decide (i < length edges)%nat) as [Hi | Hi].
  - rewrite lookup_seq_lt by done. simpl. rewrite Nat2N.id.
    destruct (lookup_lt_is_Some_2 edges i Hi) as [x Hx]. rewrite Hx. f_equal. by apply list_lookup_total_correct.
  - rewrite lookup_seq_ge by lia. simpl. symmetry. apply lookup_ge_None. lia.
Qed.

Lemma filter_fmap_length {A B} (g : A -> B) (P : B -> Prop) `{forall x, Decision (P x)} l :
  length (filter P (g <$> l)) = length (filter (fun x => P (g x)) l).
Proof.
  induction l as [| x l IH]; [done |]. csimpl. rewrite !filter_cons.
  destruct (decide (P (g x))); simpl; by rewrite IH.
Qed.

Lemma above_by_id edges level :
  above edges level = length (filter (fun id => (level < levels_of edges id)%nat) (point_ids edges)).
Proof. unfold above. rewrite <- (edges_by_id edges) at 1. by rewrite filter_fmap_length. Qed.

Lemma point_ids_lookup edges i : (i < length edges)%nat -> point_ids edges !! i = Some (N.of_nat i).
Proof. intros Hi. unfold point_ids. by rewrite list_lookup_fmap, lookup_seq_lt. Qed.

Lemma NoDup_point_ids edges : NoDup (point_ids edges).
Proof. apply NoDup_fmap_2; [intros ???; lia | apply NoDup_seq]. Qed.

(** The facts about the order that serialization chooses. *)
Record ordered (edges : edges_t) (back re : list N) : Prop := {
  od_perm : back ≡ₚ point_ids edges;
  od_sorted : StronglySorted (fun i j => (levels_of edges j <= levels_of edges i)%nat) back;
  od_length : length re = length edges;
  od_inverse : forall j id, back !! j = Some id -> re !! N.to_nat id = Some (N.of_nat j);
}.

Section Order.

Context {edges : edges_t} {back re : list N} (Hod : ordered edges back re).

Lemma od_back_length : length back = length edges.
Proof. rewrite (od_perm _ _ _ Hod). unfold point_ids. by rewrite length_fmap, length_seq. Qed.

Lemma od_NoDup : NoDup back.
Proof. rewrite (od_perm _ _ _ Hod). apply NoDup_point_ids. Qed.

(** A point has its place in the order; the place is below the number of points
    above a level just if the point is above it. *)
Lemma od_place i point : edges !! i = Some point ->
  exists j, back !! j = Some (N.of_nat i) /\ re !! i = Some (N.of_nat j) /\ (j < length edges)%nat /\
    forall level, (j < above edges level)%nat <-> (level < length point)%nat.
Proof.
  intros Hi. pose proof (lookup_lt_Some _ _ _ Hi) as Hlt.
  assert (Hin : N.of_nat i ∈ back).
  { rewrite (od_perm _ _ _ Hod). eapply list_elem_of_lookup_2. by apply point_ids_lookup. }
  apply list_elem_of_lookup in Hin as [j Hj]. exists j. split; [done |].
  pose proof (od_inverse _ _ _ Hod j _ Hj) as Hr. rewrite Nat2N.id in Hr. split; [done |].
  split; [rewrite <- od_back_length; by eapply lookup_lt_Some |]. intros level.
  rewrite above_by_id, <- (od_perm _ _ _ Hod).
  rewrite (sorted_prefix _ _ _ _ _ (od_sorted _ _ _ Hod) Hj).
  unfold levels_of. by rewrite Nat2N.id, (list_lookup_total_correct _ _ _ Hi).
Qed.

End Order.

(** ** The nodes in the order of the file *)

Definition nodes_of_level (edges : edges_t) (back : list N) (level : nat) : list (nat * N) :=
  if (level =? 0)%nat then (fun i => (level, N.of_nat i)) <$> seq 0 (above edges level)
  else pair level <$> take (above edges level) back.

Definition all_nodes (edges : edges_t) (back : list N) (levels_count : nat) : list (nat * N) :=
  mjoin (nodes_of_level edges back <$> seq 0 levels_count).

(** The links of a node. *)
Definition links_at (edges : edges_t) (level : nat) (id : N) : option (list N) :=
  levels ← edges !! N.to_nat id; levels !! level.

Lemma length_mjoin {A} (ls : list (list A)) :
  N.of_nat (length (mjoin ls)) = sum_list ((fun l => N.of_nat (length l)) <$> ls).
Proof. induction ls as [| l ls IH]; [done |].
  rewrite fmap_cons, sum_list_cons, <- IH, <- Nat2N.inj_add, <- length_app. done. Qed.

Lemma mjoin_lookup {A} (ls : list (list A)) k l j x : ls !! k = Some l -> l !! j = Some x ->
  mjoin ls !! (length (mjoin (take k ls)) + j)%nat = Some x.
Proof.
  intros Hk Hj. rewrite <- (take_drop_middle ls k l Hk) at 2. rewrite join_app. csimpl.
  rewrite lookup_app_r by lia. rewrite Nat.add_comm, Nat.add_sub. by apply lookup_app_l_Some.
Qed.

Section Nodes.

Context {edges : edges_t} {back re : list N} (Hod : ordered edges back re).
Hypothesis Hlevels : Forall (fun point => (1 <= length point)%nat) edges.

Lemma above_0 : above edges 0 = length edges.
Proof. unfold above. rewrite filter_id; [done |]. eapply Forall_impl; [exact Hlevels |]. simpl. lia. Qed.

Lemma above_le level : (above edges level <= length edges)%nat.
Proof. apply length_filter. Qed.

Lemma length_nodes_of_level level : length (nodes_of_level edges back level) = above edges level.
Proof.
  unfold nodes_of_level. destruct (level =? 0)%nat; rewrite length_fmap; [apply length_seq |].
  rewrite length_take, (od_back_length Hod). pose proof (above_le level). lia.
Qed.

Lemma nodes_of_level_fst level node : node ∈ nodes_of_level edges back level -> node.1 = level.
Proof.
  unfold nodes_of_level. destruct (level =? 0)%nat; intros (x & -> & _)%list_elem_of_fmap; done.
Qed.

Lemma NoDup_nodes_of_level level : NoDup (nodes_of_level edges back level).
Proof.
  unfold nodes_of_level. destruct (level =? 0)%nat.
  - apply NoDup_fmap_2; [| apply NoDup_seq]. intros i j [= E]. lia.
  - apply NoDup_fmap_2; [by intros i j [=] |].
    eapply sublist_NoDup; [apply (od_NoDup Hod) | apply sublist_take].
Qed.

Lemma NoDup_all_nodes levels_count : NoDup (all_nodes edges back levels_count).
Proof.
  unfold all_nodes. pose proof (NoDup_seq 0 levels_count) as Hnd. induction Hnd as [| level levels Hl Hnd IH]; [constructor |].
  csimpl. apply NoDup_app. split; [apply NoDup_nodes_of_level |]. split; [| done].
  intros node H1 H2. apply nodes_of_level_fst in H1. apply list_elem_of_join in H2 as (l & Hin & Hl2).
  apply list_elem_of_fmap in Hl2 as (level' & -> & Hl'). apply nodes_of_level_fst in Hin. congruence.
Qed.

(** Every node of the file is a node of the graph. *)
Lemma all_nodes_links levels_count level id : (level, id) ∈ all_nodes edges back levels_count ->
  exists links, links_at edges level id = Some links.
Proof.
  intros Hin. apply list_elem_of_join in Hin as (l & Hin & Hl2).
  apply list_elem_of_fmap in Hl2 as (level' & -> & _).
  assert (Hpoint : exists i point, id = N.of_nat i /\ edges !! i = Some point /\ (level < length point)%nat).
  { unfold nodes_of_level in Hin. destruct (Nat.eqb_spec level' 0) as [E0 | Hne].
    - apply list_elem_of_fmap in Hin as (i & [= -> ->] & Hi%elem_of_seq). subst level'. rewrite above_0 in Hi.
      destruct (lookup_lt_is_Some_2 edges i) as [point Hp]; [lia |]. exists i, point. split; [done |]. split; [done |].
      by apply (Forall_lookup_1 _ _ _ _ Hlevels Hp).
    - apply list_elem_of_fmap in Hin as (id' & [= E1 E2] & Hid). subst level' id'.
      apply list_elem_of_lookup in Hid as [j Hj]. apply lookup_take_Some in Hj as [Hj Hlt].
      assert (Hidin : id ∈ point_ids edges) by (rewrite <- (od_perm _ _ _ Hod); by eapply list_elem_of_lookup_2).
      apply list_elem_of_fmap in Hidin as (i & -> & Hi%elem_of_seq).
      destruct (lookup_lt_is_Some_2 edges i) as [point Hp]; [lia |]. exists i, point. split; [done |]. split; [done |].
      destruct (od_place Hod i point Hp) as (j' & Hj' & _ & _ & Hiff).
      rewrite <- (Hiff level). by rewrite (NoDup_lookup _ _ _ _ (od_NoDup Hod) Hj' Hj). }
  destruct Hpoint as (i & point & -> & Hp & Hl). destruct (lookup_lt_is_Some_2 point level Hl) as [links Hlinks].
  exists links. unfold links_at. rewrite Nat2N.id, Hp. done.
Qed.

(** Where the nodes of a level are. *)
Definition level_start (level : nat) : nat := length (mjoin (nodes_of_level edges back <$> seq 0 level)).

Lemma node_index levels_count level j node : (level < levels_count)%nat ->
  nodes_of_level edges back level !! j = Some node ->
  all_nodes edges back levels_count !! (level_start level + j)%nat = Some node.
Proof.
  intros Hl Hj. unfold all_nodes, level_start.
  replace (seq 0 level) with (take level (seq 0 levels_count)) by (rewrite take_seq; f_equal; lia).
  rewrite fmap_take. eapply mjoin_lookup; [| exact Hj]. by rewrite list_lookup_fmap, lookup_seq_lt.
Qed.

(** The index [offset_idx] computes. *)
Lemma point_node levels_count i point level (Hi : edges !! i = Some point) : (level < length point)%nat ->
  (length point <= levels_count)%nat ->
  exists j, re !! i = Some (N.of_nat j) /\
    all_nodes edges back levels_count !! (if (level =? 0)%nat then i else level_start level + j)%nat
      = Some (level, N.of_nat i).
Proof.
  intros Hl Hlc. destruct (od_place Hod i point Hi) as (j & Hj & Hre & _ & Hiff). exists j. split; [done |].
  destruct (Nat.eqb_spec level 0) as [-> | Hne].
  - change i with (level_start 0 + i)%nat at 1. apply node_index; [lia |]. unfold nodes_of_level. simpl.
    rewrite list_lookup_fmap, lookup_seq_lt; [done |]. rewrite above_0. by eapply lookup_lt_Some.
  - apply node_index; [lia |]. unfold nodes_of_level. destruct (Nat.eqb_spec level 0); [done |].
    rewrite list_lookup_fmap, lookup_take_lt by (by apply Hiff). by rewrite Hj.
Qed.

End Nodes.

(** ** Writing the nodes *)

(** The number of bytes of a unit of the offsets. *)
Definition unit_size (param : GraphLinksFormatParam) : N := match param with Plain => 4 | _ => 1 end.

Lemma links_at_take edges level id links : links_at edges level id = Some links ->
  exists edges', take_links edges id level = Returned (Ok (links, edges')) /\
    forall level' id', (level', id') <> (level, id) -> links_at edges' level' id' = links_at edges level' id'.
Proof.
  unfold links_at, take_links. intros (levels & He & Hl)%bind_Some. rewrite He. simpl. rewrite Hl. simpl.
  eexists. split; [done |]. intros level' id' Hne.
  pose proof (lookup_lt_Some _ _ _ He) as Hlt.
  destruct (decide (id' = id)) as [-> | Hid].
  - rewrite list_lookup_insert_eq by done. rewrite He. simpl.
    rewrite list_lookup_insert_ne; [done |]. congruence.
  - rewrite list_lookup_insert_ne; [done |]. lia.
Qed.

Section Write.

Context `{VarInt} (edges : edges_t) (param : GraphLinksFormatParam) (bits : N) (hnsw_m : HnswM).

(** A node that is written at an offset. *)
Definition node_written (level : nat) (id : N) (links : list N) (o : N) (bs : list N) (o' : N) : Prop :=
  node_bytes param bits (level_m hnsw_m level) level id links o = Returned (Ok (bs, o')) /\
  o <= o' /\ N.of_nat (length bs) = unit_size param * (o' - o) /\ bytes_ok bs.

Hypothesis Hnode : forall level id links o, links_at edges level id = Some links ->
  exists bs o', node_written level id links o bs o'.

(** Each node lies between its offsets. *)
Definition laid_out (nodes : list (nat * N)) (bytes offsets : list N) : Prop :=
  forall k level id, nodes !! k = Some (level, id) -> exists links pre bs post o o',
    links_at edges level id = Some links /\ offsets !! k = Some o /\ offsets !! S k = Some o' /\
    node_written level id links o bs o' /\ bytes = pre ++ bs ++ post /\
    N.of_nat (length pre) = unit_size param * o.

Record nodes_done (st : NodeWriter) (done : list (nat * N)) : Prop := {
  nd_laid_out : laid_out done (nw_bytes st) (nw_offsets st);
  nd_offsets : length (nw_offsets st) = S (length done);
  nd_last : last (nw_offsets st) = Some (nw_offset st);
  nd_bytes : N.of_nat (length (nw_bytes st)) = unit_size param * nw_offset st;
  nd_sorted : StronglySorted N.le (nw_offsets st);
  nd_ok : bytes_ok (nw_bytes st);
}.

Lemma nodes_done_snoc st done level id links bs o' e :
  nodes_done st done -> links_at edges level id = Some links ->
  node_written level id links (nw_offset st) bs o' ->
  nodes_done {| nw_edges := e; nw_bytes := nw_bytes st ++ bs; nw_offset := o'; nw_offsets := nw_offsets st ++ [o'] |}
    (done ++ [(level, id)]).
Proof.
  intros [Hlay Hlen Hlast Hbytes Hsorted Hok] Hlinks Hw. pose proof Hw as (_ & Hle & Hbs & Hbsok).
  assert (Hl : nw_offsets st !! length done = Some (nw_offset st)).
  { rewrite last_lookup, Hlen in Hlast. done. }
  constructor; simpl.
  - intros k lv i Hk. apply lookup_app_Some in Hk as [Hk | [Hk E]].
    + destruct (Hlay k lv i Hk) as (ls & pre & b & post & a & a' & H1 & H2 & H3 & H4 & H5 & H6).
      exists ls, pre, b, (post ++ bs), a, a'. split; [done |]. split; [by apply lookup_app_l_Some |].
      split; [by apply lookup_app_l_Some |]. split; [done |]. split; [| done]. by rewrite H5, <- !app_assoc.
    + apply list_lookup_singleton_Some in E as [E [= <- <-]].
      replace k with (length done) by lia. exists links, (nw_bytes st), bs, [], (nw_offset st), o'.
      split; [done |]. split; [by apply lookup_app_l_Some |].
      split; [rewrite lookup_app_r by lia; by replace (S (length done) - length (nw_offsets st))%nat with 0%nat by lia |].
      split; [done |]. split; [by rewrite app_nil_r | done].
  - rewrite !length_app. simpl. lia.
  - apply last_snoc.
  - rewrite length_app. nia.
  - apply StronglySorted_app_2; [done | by repeat constructor |]. intros x y Hx Hy.
    apply list_elem_of_singleton in Hy as ->.
    pose proof (sorted_le_last _ 0 Hsorted) as Hs. rewrite Hlast, Forall_forall in Hs. specialize (Hs x Hx). simpl in Hs. lia.
  - by apply Forall_app.
Qed.

Lemma write_nodes_spec st done nodes : nodes_done st done -> NoDup nodes ->
  (forall level id, (level, id) ∈ nodes ->
     links_at (nw_edges st) level id = links_at edges level id /\ is_Some (links_at edges level id)) ->
  exists st', write_nodes param bits hnsw_m st nodes = Returned (Ok st') /\ nodes_done st' (done ++ nodes).
Proof.
  intros Hst Hnd. revert st done Hst. induction Hnd as [| [level id] nodes Hin _ IH]; intros st done Hst He.
  { exists st. by rewrite app_nil_r. }
  destruct (He level id) as [E [links Hlinks]]; [set_solver |]. rewrite Hlinks in E.
  destruct (links_at_take _ _ _ _ E) as (e' & Et & Hothers).
  destruct (Hnode level id links (nw_offset st) Hlinks) as (bs & o' & Hw).
  destruct (IH {| nw_edges := e'; nw_bytes := nw_bytes st ++ bs; nw_offset := o'; nw_offsets := nw_offsets st ++ [o'] |}
    (done ++ [(level, id)])) as (st' & E' & Hst').
  - by apply (nodes_done_snoc st done level id links).
  - intros lv i Hi. simpl. destruct (He lv i) as [Ei Hs]; [set_solver |]. split; [| done].
    rewrite Hothers; [done |]. intros [= -> ->]. done.
  - exists st'. rewrite <- app_assoc in Hst'. split; [| done]. simpl. unfold write_node. rewrite Et. simpl.
    destruct Hw as (-> & _). done.
Qed.

Lemma write_nodes_app st l k :
  write_nodes param bits hnsw_m st (l ++ k) = st' ← write_nodes param bits hnsw_m st l; write_nodes param bits hnsw_m st' k.
Proof.
  revert st. induction l as [| [level id] l IH]; intros st; [done |]. simpl.
  destruct (write_node param bits hnsw_m st level id) as [[st1 |] | |]; simpl; [apply IH | done..].
Qed.

(** The loop over the levels is one loop over all nodes. *)
Lemma write_levels_flat back counts st levels :
  Forall (fun level => level_nodes counts back level = Returned (Ok (nodes_of_level edges back level))) levels ->
  write_levels param bits hnsw_m counts back st levels =
    write_nodes param bits hnsw_m st (mjoin (nodes_of_level edges back <$> levels)).
Proof.
  intros Hl. revert st. induction Hl as [| level levels E _ IH]; intros st; [done |]. csimpl.
  rewrite E, write_nodes_app. simpl.
  destruct (write_nodes param bits hnsw_m st (nodes_of_level edges back level)) as [[st1 |] | |]; simpl; [apply IH | done..].
Qed.

End Write.

(** ** Integers as bytes *)

Lemma words_1 n l : (n <= length l)%nat -> words n 1 l = take n l.
Proof.
  revert l. induction n as [| n IH]; intros [| b l] Hn; simpl in *; try done; try lia.
  rewrite N.add_0_r. f_equal. apply IH. lia.
Qed.

Lemma words_take_drop count k bytes a n : (a + n <= count)%nat ->
  take n (drop a (words count k bytes)) = words n k (drop (a * k) bytes).
Proof.
  revert count bytes. induction a as [| a IH]; intros count bytes Hc.
  - rewrite !drop_0. revert count bytes Hc. induction n as [| n IHn]; intros [| count] bytes Hc; try done; [lia |].
    simpl. f_equal. apply IHn. lia.
  - destruct count as [| count]; [lia |]. simpl. rewrite IH by lia. by rewrite drop_drop.
Qed.

Lemma words_join k l rest : (0 < k)%nat -> Forall (fun v => v < 2 ^ (8 * N.of_nat k)) l ->
  words (length l) k (mjoin (to_le_bytes k <$> l) ++ rest) = l.
Proof.
  intros Hk. induction 1 as [| v l Hv _ IH]; [done |]. csimpl. rewrite <- app_assoc.
  rewrite take_app_length', drop_app_length' by (by rewrite length_to_le_bytes).
  rewrite from_to_le_bytes, N.mod_small by done. by rewrite IH.
Qed.

Lemma length_join k l : length (mjoin (to_le_bytes k <$> l)) = (length l * k)%nat.
Proof. induction l as [| v l IH]; [done |]. csimpl. by rewrite length_app, length_to_le_bytes, IH. Qed.

Lemma bytes_ok_join k l : bytes_ok (mjoin (to_le_bytes k <$> l)).
Proof. induction l as [| v l IH]; [constructor |]. csimpl. apply Forall_app. split; [apply to_le_bytes_ok | done]. Qed.

(** A section of integers is read back. *)
Lemma get_slice_join k al pos l rest : (0 < k)%nat -> pos mod al = 0 ->
  Forall (fun v => v < 2 ^ (8 * N.of_nat k)) l ->
  get_slice k al {| position := pos; remaining := mjoin (to_le_bytes k <$> l) ++ rest |} (N.of_nat (length l))
    = Ok (l, {| position := pos + N.of_nat (length l * k); remaining := rest |}).
Proof.
  intros Hk Hpos Hl. unfold get_slice, advance. simpl. rewrite length_app, length_join, Nat2N.id, Hpos.
  destruct (N.leb_spec (N.of_nat (length l) * N.of_nat k) (N.of_nat (length l * k + length rest))); [| lia].
  simpl. rewrite words_join by done. by rewrite drop_app_length' by (by rewrite length_join).
Qed.

(** A section of bytes is read back. *)
Lemma get_slice_bytes pos l rest n : n = N.of_nat (length l) ->
  get_slice 1 1 {| position := pos; remaining := l ++ rest |} n
    = Ok (l, {| position := pos + n; remaining := rest |}).
Proof.
  intros ->. unfold get_slice, advance. cbn [position remaining].
  assert ((N.of_nat (length l) * N.of_nat 1 <=? N.of_nat (length (l ++ rest))) = true) as ->
    by (apply N.leb_le; rewrite length_app; lia).
  rewrite N.mod_1_r, Nat2N.id, Nat.mul_1_r. cbn [andb N.eqb].
  rewrite words_1 by (rewrite length_app; lia). by rewrite take_app_length, drop_app_length.
Qed.

Lemma slice_mid pre x post a b : a = N.of_nat (length pre) -> b = a + N.of_nat (length x) ->
  slice (pre ++ x ++ post) a b = Returned (Ok x).
Proof.
  intros -> ->. unfold slice. rewrite !length_app.
  destruct (N.leb_spec (N.of_nat (length pre)) (N.of_nat (length pre) + N.of_nat (length x))); [| lia].
  destruct (N.leb_spec (N.of_nat (length pre) + N.of_nat (length x)) (N.of_nat (length pre + (length x + length post)))); [| lia].
  simpl. rewrite Nat2N.id, drop_app_length.
  by rewrite take_app_length' by lia.
Qed.

Lemma slice_at pre x post l a b : l = pre ++ x ++ post -> a = N.of_nat (length pre) ->
  b = a + N.of_nat (length x) -> slice l a b = Returned (Ok x).
Proof. intros ->. apply slice_mid. Qed.

(** ** Headers *)

Lemma field_at pre v n post : v < 2 ^ (8 * N.of_nat n) ->
  field (pre ++ to_le_bytes n v ++ post) (length pre) n = v.
Proof.
  intros Hv. unfold field. rewrite drop_app_length, take_app_length' by (by rewrite length_to_le_bytes).
  rewrite from_to_le_bytes. by apply N.mod_small.
Qed.

(** Fields in front of the one that is read. *)
Lemma field_skip k x post off n : length x = k -> (k <= off)%nat -> field (x ++ post) off n = field post (off - k) n.
Proof. intros <- Hk. unfold field. by rewrite drop_app_ge. Qed.

Lemma field_here v n post : v < 2 ^ (8 * N.of_nat n) -> field (to_le_bytes n v ++ post) 0 n = v.
Proof. apply (field_at []). Qed.

Lemma field_byte v post : field (v :: post) 0 1 = v.
Proof. unfold field. simpl. lia. Qed.

Lemma field_cons b post off n : (1 <= off)%nat -> field (b :: post) off n = field post (off - 1) n.
Proof. apply (field_skip 1 [b]). done. Qed.

(** Reads past the fields in front. *)
Local Ltac read_field :=
  repeat (first [ rewrite (field_skip 8) by (apply length_to_le_bytes || lia)
                | rewrite field_cons by lia ]; simpl Nat.sub);
  first [ by apply field_here | by rewrite field_byte ].

Lemma HeaderPlain_roundtrip h : hp_point_count h < 2 ^ 64 -> hp_levels_count h < 2 ^ 64 ->
  hp_total_neighbors_count h < 2 ^ 64 -> hp_total_offset_count h < 2 ^ 64 -> hp_offsets_padding_bytes h < 2 ^ 64 ->
  HeaderPlain_read (HeaderPlain_bytes h) = h.
Proof.
  destruct h as [a b c d e]. unfold HeaderPlain_read, HeaderPlain_bytes, u64_bytes. intros. cbn -[to_le_bytes field N.pow] in *.
  f_equal; read_field.
Qed.

(** The common fields of the compressed headers, whatever follows them. *)
Lemma header_fields_roundtrip h rest : hc_point_count h < 2 ^ 64 -> hc_version h < 2 ^ 64 -> hc_levels_count h < 2 ^ 64 ->
  hc_total_neighbors_bytes h < 2 ^ 64 -> p_length (hc_offsets_parameters h) < 2 ^ 64 ->
  hc_m h < 2 ^ 64 -> hc_m0 h < 2 ^ 64 ->
  HeaderCompressed_read (header_fields h ++ rest) = h.
Proof.
  destruct h as [a b c d [p1 p2 p3 p4] e f].
  unfold HeaderCompressed_read, Parameters_read, header_fields, Parameters_bytes, u64_bytes. intros.
  cbn -[to_le_bytes field N.pow app] in *. rewrite <- !app_assoc. cbn [app].
  f_equal; try (f_equal; read_field); read_field.
Qed.

(** A layout that fits the packed form. *)
Definition layout_ok (l : Layout) : Prop :=
  from_size_align (size l) (align l) = Some l /\ align l < 256 /\ size l mod align l = 0.

Lemma layout_bounds l : layout_ok l -> 1 <= align l /\ size l < 2 ^ 64.
Proof.
  intros (E & _ & _). unfold from_size_align in E.
  destruct (negb (align l =? 0) && (2 ^ N.log2 (align l) =? align l) && (size l + (align l - 1) <? 2 ^ 63)) eqn:Hc; [| done].
  apply andb_true_iff in Hc as [[Ha%negb_true_iff%N.eqb_neq _]%andb_true_iff Hs%N.ltb_lt].
  pose proof (pow2_le 63 64 ltac:(lia)). lia.
Qed.

Lemma try_into_layout_at pre l post : layout_ok l ->
  try_into_layout (pre ++ PackedVectorLayout_bytes l ++ post) (length pre) = Ok l.
Proof.
  intros Hl. pose proof (layout_bounds l Hl) as [_ Hs]. destruct Hl as (E & Ha & _).
  unfold try_into_layout, PackedVectorLayout_bytes, u64_bytes. rewrite <- app_assoc.
  rewrite field_at by done.
  rewrite (field_skip (length pre)) by (done || lia). replace (length pre + 8 - length pre)%nat with 8%nat by lia.
  rewrite (field_skip 8) by (apply length_to_le_bytes || lia). simpl Nat.sub. cbn [app]. rewrite field_byte.
  by rewrite E.
Qed.

(** ** Graphs *)

(** Every point has a level, and every link names a point. *)
Record graph_ok (edges : edges_t) : Prop := {
  go_count : N.of_nat (length edges) <= 2 ^ 32;
  go_levels : Forall (fun point => (1 <= length point)%nat) edges;
  go_links : forall level id links, links_at edges level id = Some links ->
    N.of_nat (length links) < 2 ^ 64 /\ Forall (fun v => v < N.of_nat (length edges)) links;
}.

(** The vectors of all points exist and have the size of their layout. *)
Definition vectors_ok (edges : edges_t) (v : GraphLinksVectors) : Prop :=
  layout_ok (base_layout v) /\ layout_ok (link_layout v) /\ size (link_layout v) <> 0 /\
  forall id, id < N.of_nat (length edges) ->
    (exists b, base_vector v id = Ok b /\ bytes_ok b /\ N.of_nat (length b) = size (base_layout v)) /\
    (exists l, get_link_vector v id = Ok l /\ bytes_ok l /\ N.of_nat (length l) = size (link_layout v)).

Definition param_ok (edges : edges_t) (param : GraphLinksFormatParam) : Prop :=
  match param with CompressedWithVectors v => vectors_ok edges v | _ => True end.

(** The links of a node as they are stored: the compressed formats sort the
    first of them. *)
Definition stored (param : GraphLinksFormatParam) (sorted_count : nat) (links : list N) : list N :=
  match param with
  | Plain => links
  | _ => sort_u32 (take sorted_count links) ++ drop sorted_count links
  end.

Lemma length_stored param k links : length (stored param k links) = length links.
Proof.
  destruct param; simpl; [done | |];
    rewrite length_app, sort_u32_perm, <- length_app; by rewrite take_drop.
Qed.

Lemma unsorted_width_spec n : n <= 2 ^ 32 ->
  exists bits, unsorted_width n = Some bits /\ 8 <= bits <= 32 /\ forall u, u < n -> u < 2 ^ bits /\ u < 2 ^ 32.
Proof.
  intros Hn. unfold unsorted_width. destruct (N.ltb_spec (n - 1) (2 ^ 32)) as [Hlt | Hge]; [| lia].
  destruct (packed_bits_fits 32 (n - 1) Hlt) as [Hfit Hle]. eexists. split; [done |].
  unfold MIN_BITS_PER_VALUE. split; [lia |]. intros u Hu.
  pose proof (pow2_le (packed_bits 32 (n - 1)) (N.max (packed_bits 32 (n - 1)) 8) ltac:(lia)). lia.
Qed.

(** ** Parts of nodes *)

(** Links take at least a byte. *)
Lemma packed_empty packed bs bu ds us k : packs packed bs bu ds us k ->
  (length packed = 0)%nat <-> (length ds + length us = 0)%nat.
Proof.
  intros [_ _ El Hbs Hbu _ _ _ _]. rewrite links_stream_bits in El.
  pose proof (div_ceil_bounds (match ds with [] => 0 | _ => 5 + bs * N.of_nat (length ds) end + bu * N.of_nat (length us)) 8
    ltac:(done)) as Hc. rewrite <- El in Hc.
  destruct ds as [| d ds], us as [| u us]; cbn [length] in *; split; lia.
Qed.


Lemma packed_node_yields bits links k bs packed :
  packs packed bs bits (deltas 0 (sort_u32 (take k links))) (drop k links) k ->
  exists it, iterate_packed_links packed bits (N.of_nat k) = Some it /\ yields it (stored Compressed k links).
Proof.
  intros Hp. destruct (iterate_packed_links_spec _ _ _ _ _ _ Hp) as (it & E & Hy). exists it. split; [done |].
  rewrite sums_deltas in Hy; [done |]. constructor; [apply sort_u32_sorted | apply Forall_forall; lia].
Qed.

Lemma collect_yields it l : yields it l -> collect_links (PackedLinks it) = Returned (Ok l).
Proof.
  intros Hy. cbn [collect_links]. rewrite (links_size_hint_spec it l Hy). cbn [unwrap mbind outcome_bind].
  rewrite Nat2N.id.
  by rewrite (links_collect_spec _ it l Hy) by lia.
Qed.

Lemma length_mjoin_const (vecs : list (list N)) k : Forall (fun vec => bytes_ok vec /\ N.of_nat (length vec) = k) vecs ->
  N.of_nat (length (mjoin vecs)) = N.of_nat (length vecs) * k /\ bytes_ok (mjoin vecs).
Proof.
  induction 1 as [| vec vecs [Hok Hlen] _ [IH IHok]]; [split; [done | constructor] |].
  csimpl. rewrite length_app. split; [lia | by apply Forall_app].
Qed.

Lemma chunks_exact_join vecs k : (0 < k)%nat ->
  Forall (fun vec => bytes_ok vec /\ N.of_nat (length vec) = N.of_nat k) vecs ->
  forall fuel, (length vecs <= fuel)%nat -> chunks_exact fuel k (mjoin vecs) = vecs.
Proof.
  intros Hk. induction 1 as [| vec vecs [_ Hlen] _ IH]; intros [| fuel] Hf; csimpl in *; try (done || lia).
  - destruct k; [lia | done].
  - rewrite length_app. destruct (Nat.leb_spec k (length vec + length (mjoin vecs))); [| lia].
    rewrite take_app_length', drop_app_length' by lia. f_equal. apply IH. lia.
Qed.

Lemma bytes_ok_zeros n : bytes_ok (zeros n).
Proof. by apply Forall_replicate. Qed.

Lemma length_zeros n : N.of_nat (length (zeros n)) = n.
Proof. unfold zeros. rewrite length_replicate. lia. Qed.

Lemma stored_forall (P : N -> Prop) k links : Forall P links -> Forall P (stored Compressed k links).
Proof.
  intros Hl. apply Forall_app. split; [rewrite sort_u32_perm; by apply Forall_take | by apply Forall_drop].
Qed.

(** The parts of a node with vectors, as slices of all nodes. *)
Lemma vector_node_slices v o base count packed vecs last_pad pre post bytes neighbors
    (pos := o + N.of_nat (length (base ++ count ++ packed))) (pad := padding pos (align (link_layout v)))
    (rest := zeros pad ++ mjoin vecs ++ zeros last_pad) :
  1 <= align (link_layout v) -> bytes = base ++ count ++ packed ++ rest -> neighbors = pre ++ bytes ++ post ->
  N.of_nat (length pre) = o ->
  slice neighbors o (o + N.of_nat (length bytes)) = Returned (Ok bytes) /\
  slice neighbors o (o + N.of_nat (length base)) = Returned (Ok base) /\
  slice neighbors (o + N.of_nat (length base)) (o + N.of_nat (length bytes))
    = Returned (Ok (count ++ packed ++ rest)) /\
  slice neighbors (o + N.of_nat (length base) + N.of_nat (length count)) (o + N.of_nat (length bytes))
    = Returned (Ok (packed ++ rest)) /\
  slice neighbors (o + N.of_nat (length base) + N.of_nat (length count))
    (o + N.of_nat (length base) + N.of_nat (length count) + N.of_nat (length packed)) = Returned (Ok packed) /\
  slice neighbors
    (next_multiple (o + N.of_nat (length base) + N.of_nat (length count) + N.of_nat (length packed)) (align (link_layout v)))
    (next_multiple (o + N.of_nat (length base) + N.of_nat (length count) + N.of_nat (length packed)) (align (link_layout v))
      + N.of_nat (length (mjoin vecs))) = Returned (Ok (mjoin vecs)).
Proof.
  intros Ha Eb En Hpre.
  assert (Epos : o + N.of_nat (length base) + N.of_nat (length count) + N.of_nat (length packed) = pos).
  { unfold pos. rewrite !length_app. lia. }
  assert (Epad : next_multiple pos (align (link_layout v)) = pos + pad).
  { unfold pad, padding, next_multiple. pose proof (div_ceil_bounds pos (align (link_layout v)) ltac:(lia)). lia. }
  assert (Ezeros : N.of_nat (length (zeros pad)) = pad) by apply length_zeros.
  rewrite Epos, Epad. subst neighbors. rewrite Eb in *. unfold rest, pos in *. rewrite !length_app in *.
  split; [| split; [| split; [| split; [| split]]]].
  - apply (slice_at pre (base ++ count ++ packed ++ zeros pad ++ mjoin vecs ++ zeros last_pad) post);
      rewrite ?length_app; done || lia.
  - apply (slice_at pre base ((count ++ packed ++ zeros pad ++ mjoin vecs ++ zeros last_pad) ++ post));
      rewrite <- ?app_assoc; done || lia.
  - apply (slice_at (pre ++ base) (count ++ packed ++ zeros pad ++ mjoin vecs ++ zeros last_pad) post);
      rewrite <- ?app_assoc, ?length_app; done || lia.
  - apply (slice_at (pre ++ base ++ count) (packed ++ zeros pad ++ mjoin vecs ++ zeros last_pad) post);
      rewrite <- ?app_assoc, ?length_app; done || lia.
  - apply (slice_at (pre ++ base ++ count) packed ((zeros pad ++ mjoin vecs ++ zeros last_pad) ++ post));
      rewrite <- ?app_assoc, ?length_app; done || lia.
  - apply (slice_at (pre ++ base ++ count ++ packed ++ zeros pad) (mjoin vecs) (zeros last_pad ++ post));
      rewrite <- ?app_assoc, ?length_app; done || lia.
Qed.

(** ** The nodes of each format *)

Section Formats.

Context `{VarInt} {edges : edges_t} (Hg : graph_ok edges) {bits : N} (hnsw_m : HnswM).
Hypothesis Hbits : 8 <= bits <= 32.
Hypothesis Hfit : forall u, u < N.of_nat (length edges) -> u < 2 ^ bits /\ u < 2 ^ 32.

Lemma pack_node links k : Forall (fun v => v < N.of_nat (length edges)) links ->
  exists bs packed, pack_links [] links bits k = Some (packed, stored Compressed k links) /\
    packs packed bs bits (deltas 0 (sort_u32 (take k links))) (drop k links) k.
Proof.
  intros Hl. destruct (pack_links_spec [] links bits k Hbits) as (bs & packed & E & Hp).
  - eapply Forall_impl; [exact Hl |]. intros v Hv. by apply Hfit.
  - apply Forall_drop. eapply Forall_impl; [exact Hl |]. intros v Hv. by apply Hfit.
  - by exists bs, packed.
Qed.

(** The vectors of the links of a node. *)
Lemma write_link_vectors_spec v links : vectors_ok edges v ->
  Forall (fun u => u < N.of_nat (length edges)) links ->
  exists vecs, write_link_vectors v links = Returned (Ok (mjoin vecs)) /\
    Forall2 (fun u vec => get_link_vector v u = Ok vec) links vecs /\
    Forall (fun vec => bytes_ok vec /\ N.of_nat (length vec) = size (link_layout v)) vecs.
Proof.
  intros (_ & _ & _ & Hv). induction 1 as [| u links Hu _ (vecs & E & Hf & Hall)]; simpl.
  { exists []. split; [done |]. split; constructor. }
  destruct (Hv u Hu) as [_ (vec & Evec & Hok & Hlen)]. exists (vec :: vecs). rewrite Evec. simpl.
  rewrite Hlen, N.eqb_refl. simpl. rewrite E. simpl.
  split; [done |]. split; by constructor.
Qed.

(** A node with vectors, part by part. *)
Record vector_node (v : GraphLinksVectors) (level : nat) (id : N) (links : list N) (o : N) (bytes : list N) : Prop :=
  { vn_parts : exists base bs packed vecs last_pad,
      bytes = base ++ encode_var (N.of_nat (length links)) ++ packed ++
        zeros (padding (o + N.of_nat (length (base ++ encode_var (N.of_nat (length links)) ++ packed)))
                 (align (link_layout v))) ++ mjoin vecs ++ zeros last_pad /\
      (if (level =? 0)%nat then base_vector v id = Ok base /\ N.of_nat (length base) = size (base_layout v)
       else base = []) /\
      packs packed bs bits (deltas 0 (sort_u32 (take (level_m hnsw_m level) links)))
        (drop (level_m hnsw_m level) links) (level_m hnsw_m level) /\
      Forall2 (fun u vec => get_link_vector v u = Ok vec) (stored Compressed (level_m hnsw_m level) links) vecs /\
      Forall (fun vec => bytes_ok vec /\ N.of_nat (length vec) = size (link_layout v)) vecs }.

Lemma node_with_vectors_spec v level id links o : vectors_ok edges v -> links_at edges level id = Some links ->
  exists bytes, node_with_vectors v bits (level_m hnsw_m level) level id links o
      = Returned (Ok (bytes, o + N.of_nat (length bytes))) /\ bytes_ok bytes /\
    vector_node v level id links o bytes.
Proof.
  intros Hv Hlinks. destruct (go_links _ Hg _ _ _ Hlinks) as [_ Hl].
  assert (Hid : id < N.of_nat (length edges)).
  { apply bind_Some in Hlinks as (point & He & _). apply lookup_lt_Some in He. lia. }
  destruct (pack_node links (level_m hnsw_m level) Hl) as (bs & packed & Ep & Hp).
  destruct (write_link_vectors_spec v (stored Compressed (level_m hnsw_m level) links) Hv) as (vecs & Ev & Hf & Hall).
  { by apply stored_forall. }
  destruct (length_mjoin_const _ _ Hall) as [_ Hvok].
  assert (Hbase : exists base, (if (level =? 0)%nat then
      vector ← Returned (base_vector v id);
      if negb (N.of_nat (length vector) =? size (base_layout v))
      then Returned (Err (ServiceError "Vector size mismatch")) else mret vector
    else mret []) = Returned (Ok base) /\ bytes_ok base /\
    (if (level =? 0)%nat then base_vector v id = Ok base /\ N.of_nat (length base) = size (base_layout v)
     else base = []) /\
    (if (level =? 0)%nat then o + size (base_layout v) else o) = o + N.of_nat (length base)).
  { destruct (level =? 0)%nat.
    - destruct (proj2 (proj2 (proj2 Hv)) id Hid) as [(b & Eb & Hok & Hlen) _]. exists b. rewrite Eb. simpl.
      by rewrite Hlen, N.eqb_refl.
    - exists []. simpl. split; [done |]. split; [constructor |]. split; [done | lia]. }
  destruct Hbase as (base & Eb & Hbok & Hbase & Eo). unfold node_with_vectors. rewrite Eb. cbn [mbind outcome_bind].
  rewrite Ep. cbn [unwrap mbind outcome_bind]. rewrite Ev. cbn [mbind outcome_bind].
  rewrite Eo, required_space_exact.
  set (count := encode_var (N.of_nat (length links))).
  replace (o + N.of_nat (length base) + N.of_nat (length count) + N.of_nat (length packed))
    with (o + N.of_nat (length (base ++ count ++ packed))) by (rewrite !length_app; lia).
  set (pad := padding (o + N.of_nat (length (base ++ count ++ packed))) (align (link_layout v))).
  set (last_pad := if (level =? 0)%nat then _ else 0).
  exists (base ++ count ++ packed ++ zeros pad ++ mjoin vecs ++ zeros last_pad). split; [| split].
  - unfold mret, outcome_ret. do 3 f_equal.
    rewrite !length_app. rewrite !Nat2N.inj_add, !length_zeros. lia.
  - repeat (apply Forall_app; split); try done; try apply bytes_ok_zeros; [apply encode_var_ok | apply Hp].
  - constructor. by exists base, bs, packed, vecs, last_pad.
Qed.

Lemma node_exists param level id links o : param_ok edges param -> links_at edges level id = Some links ->
  exists bs o', node_written param bits hnsw_m level id links o bs o'.
Proof.
  intros Hp Hlinks. destruct (go_links _ Hg _ _ _ Hlinks) as [_ Hl]. destruct param as [| | v].
  - exists (mjoin (u32_bytes <$> links)), (o + N.of_nat (length links)). split; [done |]. split; [lia |].
    unfold u32_bytes. rewrite length_join. split; [simpl unit_size; lia | apply bytes_ok_join].
  - destruct (pack_node links (level_m hnsw_m level) Hl) as (bs & packed & Ep & Hpk).
    exists packed, (o + N.of_nat (length packed)). unfold node_written. simpl. rewrite Ep. simpl.
    split; [done |]. split; [lia |]. split; [lia | apply Hpk].
  - destruct (node_with_vectors_spec v level id links o Hp Hlinks) as (bytes & E & Hok & _).
    exists bytes, (o + N.of_nat (length bytes)). unfold node_written. simpl. rewrite E.
    split; [done |]. split; [lia |]. split; [lia | done].
Qed.

(** A node of the plain format is a slice of the links. *)
Lemma read_plain level id links o bs o' bytes pre post total :
  links_at edges level id = Some links -> node_written Plain bits hnsw_m level id links o bs o' ->
  bytes = pre ++ bs ++ post -> N.of_nat (length pre) = 4 * o -> N.of_nat (length bytes) = 4 * total ->
  slice (words (N.to_nat total) 4 bytes) o o' = Returned (Ok links).
Proof.
  intros Hlinks (E & Hle & Hlen & _) -> Hpre Htotal. simpl in E. injection E as <- <-. simpl in Hlen.
  destruct (go_links _ Hg _ _ _ Hlinks) as [_ Hl]. unfold slice.
  assert (Hw : forall n bs, length (words n 4 bs) = n) by (clear; induction n; intros bs; simpl; auto).
  rewrite !length_app in Htotal. rewrite Hw, N2Nat.id.
  destruct (N.leb_spec o (o + N.of_nat (length links))); [| lia].
  destruct (N.leb_spec (o + N.of_nat (length links)) total); [| lia].
  cbn [andb]. unfold mret, outcome_ret. do 2 f_equal. rewrite words_take_drop by lia.
  replace (N.to_nat o * 4)%nat with (length pre) by lia. rewrite drop_app_length.
  replace (N.to_nat (o + N.of_nat (length links) - o)) with (length links) by lia.
  apply words_join; [lia |]. eapply Forall_impl; [exact Hl |]. intros u Hu. by apply Hfit.
Qed.

(** A node of the compressed format is a slice that yields the stored links. *)
Lemma read_compressed level id links o bs o' bytes pre post :
  links_at edges level id = Some links -> node_written Compressed bits hnsw_m level id links o bs o' ->
  bytes = pre ++ bs ++ post -> N.of_nat (length pre) = o ->
  slice bytes o o' = Returned (Ok bs) /\
  exists it, iterate_packed_links bs bits (N.of_nat (level_m hnsw_m level)) = Some it /\
    yields it (stored Compressed (level_m hnsw_m level) links).
Proof.
  intros Hlinks (E & Hle & Hlen & _) -> Hpre. simpl unit_size in Hlen.
  destruct (go_links _ Hg _ _ _ Hlinks) as [_ Hl].
  destruct (pack_node links (level_m hnsw_m level) Hl) as (b & packed & Ep & Hpk).
  simpl in E. rewrite Ep in E. simpl in E. injection E as <- <-.
  split; [apply slice_mid; lia |]. by eapply packed_node_yields.
Qed.

(** A node with vectors, read by the view. *)
Lemma read_with_vectors v level id links o bs o' neighbors pre post offsets view idx :
  vectors_ok edges v -> links_at edges level id = Some links ->
  node_written (CompressedWithVectors v) bits hnsw_m level id links o bs o' ->
  neighbors = pre ++ bs ++ post -> N.of_nat (length pre) = o ->
  compression view = CompressedWithVectorsInfo neighbors offsets hnsw_m bits (base_layout v)
    (size (link_layout v)) (align (link_layout v)) ->
  offset_idx view id level = Returned (Ok idx) -> get offsets idx = Got (Some o) ->
  get offsets (idx + 1) = Got (Some o') ->
  exists base it vecs, links_with_vectors view id level = Returned (Ok (base, it, vecs)) /\
    (if (level =? 0)%nat then base_vector v id = Ok base else base = []) /\
    yields it (stored Compressed (level_m hnsw_m level) links) /\
    Forall2 (fun u vec => get_link_vector v u = Ok vec) (stored Compressed (level_m hnsw_m level) links) vecs.
Proof.
  intros Hv Hlinks (E & Hle & Hlen & _) Hn Hpre Ec Ei Eo Eo'.
  destruct (node_with_vectors_spec v level id links o Hv Hlinks) as (bytes & En & _ & [Hparts]).
  simpl in E. rewrite En in E. injection E as <- <-.
  destruct Hparts as (base & b & packed & vecs & last_pad & Eb & Hbase & Hpk & Hf & Hall).
  destruct (go_links _ Hg _ _ _ Hlinks) as [H64 Hl]. destruct (length_mjoin_const _ _ Hall) as [Hvlen _].
  destruct (packed_node_yields bits links (level_m hnsw_m level) b packed Hpk) as (it & Eit & Hy).
  destruct (layout_bounds _ (proj1 (proj2 Hv))) as [Ha _].
  destruct (vector_node_slices v o base _ packed vecs last_pad pre post bytes neighbors Ha Eb Hn Hpre)
    as (S1 & S2 & S3 & S4 & S5 & S6).
  set (count := encode_var (N.of_nat (length links))) in *.
  set (rest := zeros _ ++ mjoin vecs ++ zeros last_pad) in *.
  exists base, it, vecs. split; [| by destruct (level =? 0)%nat; [destruct Hbase as [Hb _] |]].
  unfold links_with_vectors. rewrite Ei. go_on. rewrite Ec. unfold offset_at.
  rewrite Eo, Eo'. go_on. rewrite S1. go_on.
  assert (Estart : (if (level =? 0)%nat
     then v0 ← slice neighbors o (o + size (base_layout v)); mret (v0, o + size (base_layout v))
     else mret ([], o)) = Returned (Ok (base, o + N.of_nat (length base)))).
  { destruct (level =? 0)%nat; [destruct Hbase as [_ <-]; by rewrite S2 |].
    rewrite Hbase. simpl. by rewrite N.add_0_r. }
  rewrite Estart. go_on. rewrite S3. go_on. unfold count at 1. rewrite decode_encode_var by done. fold count. go_on.
  rewrite S4. go_on.
  assert (Hcount : length links = length (deltas 0 (sort_u32 (take (level_m hnsw_m level) links)) ++ drop (level_m hnsw_m level) links)).
  { rewrite length_app, length_deltas, sort_u32_perm, <- length_app. by rewrite take_drop. }
  rewrite Hcount at 1. rewrite (packed_links_size_spec _ _ _ _ _ _ rest Hpk). go_on.
  rewrite S5. go_on. rewrite Eit. go_on.
  assert (Hvecs : length links = length vecs) by (rewrite <- (Forall2_length _ _ _ Hf); symmetry; apply length_stored).
  rewrite Hvecs, <- Hvlen, S6. go_on. unfold mret, outcome_ret. do 3 f_equal.
  apply chunks_exact_join; [apply proj2, proj2, proj1 in Hv; lia | by rewrite N2Nat.id | ].
  apply proj2, proj2, proj1 in Hv. nia.
Qed.


End Formats.

(** ** Serialization up to the nodes *)

Lemma check_layouts_ok edges param : param_ok edges param -> check_layouts param = Returned (Ok tt).
Proof.
  destruct param as [| | v]; [done.. |]. intros ((_ & _ & Hb) & (_ & _ & Hl) & _). simpl. by rewrite Hb, Hl.
Qed.

(** No point has more levels than the first in the order. *)
Lemma first_has_most edges back : back ≡ₚ point_ids edges ->
  StronglySorted (fun i j => (levels_of edges j <= levels_of edges i)%nat) back ->
  Forall (fun point => (length point <= match back with [] => 0 | id :: _ => levels_of edges id end)%nat) edges.
Proof.
  intros Hp Hs. apply Forall_lookup_2. intros i point Hi.
  assert (Hin : N.of_nat i ∈ back).
  { rewrite Hp. eapply list_elem_of_lookup_2, point_ids_lookup. by eapply lookup_lt_Some. }
  assert (E : levels_of edges (N.of_nat i) = length point).
  { unfold levels_of. by rewrite Nat2N.id, (list_lookup_total_correct _ _ _ Hi). }
  rewrite <- E. destruct back as [| id back]; [set_solver |]. apply StronglySorted_inv in Hs as [_ Hs].
  apply elem_of_cons in Hin as [-> | Hin]; [done |]. rewrite Forall_forall in Hs. by apply Hs.
Qed.

(** The counts name the nodes of every level. *)
Lemma level_nodes_spec edges back re counts level : ordered edges back re ->
  sum_list (drop level counts) = N.of_nat (above edges level) ->
  level_nodes counts back level = Returned (Ok (nodes_of_level edges back level)).
Proof.
  intros Hod E. unfold level_nodes, nodes_of_level. rewrite E, Nat2N.id.
  destruct (level =? 0)%nat; [done |]. rewrite (od_back_length Hod). pose proof (@above_le edges level).
  by destruct (Nat.leb_spec (above edges level) (length edges)); [| lia].
Qed.

Lemma suffix_sums_levels edges back re counts : ordered edges back re ->
  (forall level, sum_list (drop level counts) = N.of_nat (above edges level)) ->
  forall level, (level <= length counts)%nat ->
    sum_list (take level (suffix_sums counts)) = N.of_nat (@level_start edges back level).
Proof.
  intros Hod Hsum level Hl. unfold level_start. rewrite length_mjoin. f_equal. apply list_eq. intros k.
  rewrite !list_lookup_fmap. destruct (decide (k < level)%nat) as [Hk | Hk].
  - rewrite lookup_take_lt, suffix_sums_lookup, lookup_seq_lt by lia. simpl.
    by rewrite (length_nodes_of_level Hod), Hsum.
  - rewrite lookup_take_ge, lookup_seq_ge by lia. done.
Qed.

Record nodes_serialized `{VarInt} (edges : edges_t) (param : GraphLinksFormatParam) (hnsw_m : HnswM)
    (front : list N) (levels_count : nat) (st : NodeWriter) (back re starts : list N) (bits : N) : Prop := {
  ns_front : front = write_front param starts re;
  ns_ordered : ordered edges back re;
  ns_levels : Forall (fun point => (length point <= levels_count)%nat) edges;
  ns_starts : forall level, (level < levels_count)%nat -> starts !! level = Some (N.of_nat (@level_start edges back level));
  ns_starts_length : length starts = levels_count;
  ns_nodes : nodes_done edges param bits hnsw_m st (all_nodes edges back levels_count);
  ns_bits : unsorted_width (N.of_nat (length edges)) = Some bits;
  ns_nonempty : forall level, (level < levels_count)%nat -> (1 <= above edges level)%nat;
}.

Lemma serialize_nodes_spec `{VarInt} `{UnstableByLevel} edges param hnsw_m : graph_ok edges -> param_ok edges param ->
  exists front levels_count st back re starts bits,
    serialize_nodes edges param hnsw_m = Returned (Ok (front, levels_count, st)) /\
    nodes_serialized edges param hnsw_m front levels_count st back re starts bits.
Proof.
  intros Hg Hp. destruct (unsorted_width_spec _ (go_count _ Hg)) as (bits & Ebits & Hbits & Hfit).
  set (back := sort_by_level (levels_of edges) (point_ids edges)).
  assert (Hperm : back ≡ₚ point_ids edges) by apply sort_by_level_perm.
  assert (Hsorted : StronglySorted (fun i j => (levels_of edges j <= levels_of edges i)%nat) back)
    by apply sort_by_level_sorted.
  assert (Hlen : length back = length edges) by (rewrite Hperm; unfold point_ids; by rewrite length_fmap, length_seq).
  set (levels_count := match back with [] => O | id :: _ => levels_of edges id end).
  pose proof (first_has_most edges back Hperm Hsorted) as Hmost. fold levels_count in Hmost.
  destruct (count_points_spec edges (replicate levels_count 0)) as (counts & Ec & Hcl & Hsum).
  { rewrite length_replicate. apply Forall_and. split; [apply (go_levels _ Hg) | done]. }
  rewrite length_replicate in Hcl.
  assert (Habove : forall level, sum_list (drop level counts) = N.of_nat (above edges level)).
  { intros level. rewrite Hsum, drop_replicate, sum_list_replicate. lia. }
  destruct (level_starts_spec counts 0) as (starts & Es & Hsl & Hstarts).
  destruct (invert_spec back 0 (replicate (length back) 0)) as (re & Ei & Hrl & Hre & _).
  { rewrite Hperm. apply NoDup_point_ids. }
  { rewrite Hperm, length_replicate, Hlen. apply Forall_fmap, Forall_forall. intros i Hi%elem_of_seq. simpl. lia. }
  rewrite length_replicate, Hlen in Hrl.
  assert (Hod : ordered edges back re).
  { split; [done.. |]. intros j id Hj. by rewrite (Hre j id Hj). }
  destruct (write_nodes_spec edges param bits hnsw_m (fun level id links o => node_exists Hg hnsw_m Hbits Hfit param level id links o Hp)
    {| nw_edges := edges; nw_bytes := []; nw_offset := 0; nw_offsets := [0] |} [] (all_nodes edges back levels_count))
    as (st & Ew & Hst).
  - constructor; [done.. | simpl; lia | by repeat constructor | constructor].
  - apply (NoDup_all_nodes Hod).
  - intros level id Hin. split; [done |]. by apply (all_nodes_links Hod (go_levels _ Hg)) in Hin.
  - exists (write_front param starts re), levels_count, st, back, re, starts, bits. split.
    + unfold serialize_nodes. rewrite Ebits. go_on. rewrite (check_layouts_ok _ _ Hp). go_on.
      fold (point_ids edges). fold back levels_count. rewrite Ec. go_on. rewrite Es. go_on. rewrite Ei. go_on.
      rewrite (write_levels_flat edges) by (apply Forall_forall; intros level _; by apply (level_nodes_spec _ _ re)).
      fold (all_nodes edges back levels_count). rewrite Ew. done.
    + constructor; try done; [| by rewrite Hsl |].
      * intros level Hl. rewrite Hstarts by lia. by rewrite (suffix_sums_levels edges back re) by (done || lia).
      * intros level Hl. unfold levels_count in Hl. rewrite above_by_id, <- Hperm.
        destruct back as [| id back']; [lia |]. rewrite filter_cons_True by done. simpl. lia.
Qed.

(** ** The sections of the file *)

Lemma words_app n k l rest : length l = (n * k)%nat -> words n k (l ++ rest) = words n k l.
Proof.
  revert l. induction n as [| n IH]; intros l Hl; [done |]. simpl in *.
  rewrite take_app_le, drop_app_le by lia. rewrite IH; [done |]. rewrite length_drop. lia.
Qed.

Lemma get_slice_app k al pos l rest n : length l = (N.to_nat n * k)%nat -> pos mod al = 0 ->
  get_slice k al {| position := pos; remaining := l ++ rest |} n
    = Ok (words (N.to_nat n) k l, {| position := pos + N.of_nat (length l); remaining := rest |}).
Proof.
  intros Hl Hpos. unfold get_slice, advance. cbn [position remaining].
  assert ((n * N.of_nat k <=? N.of_nat (length (l ++ rest))) = true) as ->
    by (apply N.leb_le; rewrite length_app; lia).
  rewrite Hpos, <- Hl. cbn [andb N.eqb]. rewrite words_app by done. by rewrite drop_app_length.
Qed.

Lemma mod_divides a b c : b <> 0 -> a = b * c -> a mod b = 0.
Proof. intros Hb ->. rewrite N.mul_comm. by apply N.Div0.mod_mul. Qed.

Section Sections.

Context `{VarInt} `{UnstableByLevel} {edges : edges_t} {param : GraphLinksFormatParam} {hnsw_m : HnswM}
  {front : list N} {levels_count : nat} {st : NodeWriter} {back re starts : list N} {bits : N}.
Hypothesis Hg : graph_ok edges.
Hypothesis Hp : param_ok edges param.
Hypothesis Hns : nodes_serialized edges param hnsw_m front levels_count st back re starts bits.
Hypothesis Hmax : nw_offset st < 2 ^ 64.
Hypothesis Hcount : N.of_nat (length (nw_offsets st)) < 2 ^ 60.
Hypothesis Hm : N.of_nat (m hnsw_m) < 2 ^ 64 /\ N.of_nat (m0 hnsw_m) < 2 ^ 64.

Local Abbreviation node_count := (length (all_nodes edges back levels_count)).

Lemma offsets_count : length (nw_offsets st) = S node_count.
Proof. apply (nd_offsets _ _ _ _ _ _ (ns_nodes _ _ _ _ _ _ _ _ _ _ Hns)). Qed.

Lemma offsets_fit : Forall (fun o => o < 2 ^ 64) (nw_offsets st).
Proof.
  destruct (ns_nodes _ _ _ _ _ _ _ _ _ _ Hns) as [_ _ Hlast _ Hs _].
  pose proof (sorted_le_last _ 0 Hs) as Hle. rewrite Hlast in Hle.
  eapply Forall_impl; [exact Hle |]. simpl. lia.
Qed.

Lemma reindex_fits : Forall (fun i => i < 2 ^ 32) re.
Proof.
  pose proof (ns_ordered _ _ _ _ _ _ _ _ _ _ Hns) as Hod. apply Forall_lookup_2. intros i x Hx.
  pose proof (lookup_lt_Some _ _ _ Hx) as Hi. rewrite (od_length _ _ _ Hod) in Hi.
  destruct (lookup_lt_is_Some_2 edges i Hi) as [point Hpoint].
  destruct (od_place Hod i point Hpoint) as (j & _ & Hj & Hlt & _).
  rewrite Hx in Hj. injection Hj as ->. pose proof (go_count _ Hg). lia.
Qed.

Lemma level_start_le level : (level <= levels_count)%nat -> (@level_start edges back level <= node_count)%nat.
Proof.
  intros Hl. unfold level_start, all_nodes.
  replace (seq 0 levels_count) with (seq 0 level ++ seq level (levels_count - level))
    by (rewrite <- seq_app; f_equal; lia).
  rewrite fmap_app, join_app, length_app. lia.
Qed.

Lemma starts_fit : Forall (fun o => o < 2 ^ 64) starts.
Proof.
  apply Forall_lookup_2. intros level x Hx. pose proof (lookup_lt_Some _ _ _ Hx) as Hl.
  rewrite (ns_starts_length _ _ _ _ _ _ _ _ _ _ Hns) in Hl.
  rewrite (ns_starts _ _ _ _ _ _ _ _ _ _ Hns level Hl) in Hx. injection Hx as <-.
  pose proof (level_start_le level ltac:(lia)). rewrite offsets_count in Hcount.
  pose proof (pow2_le 60 64 ltac:(lia)). lia.
Qed.

(** Every level has a node. *)
Lemma levels_le_nodes : (levels_count <= node_count)%nat.
Proof.
  pose proof (ns_ordered _ _ _ _ _ _ _ _ _ _ Hns) as Hod.
  assert (Hall : forall levels, (forall level, level ∈ levels -> (level < levels_count)%nat) ->
    (length levels <= length (mjoin (nodes_of_level edges back <$> levels)))%nat).
  { induction levels as [| level levels IH]; intros Hl; [done |]. csimpl. rewrite length_app, (length_nodes_of_level Hod).
    pose proof (ns_nonempty _ _ _ _ _ _ _ _ _ _ Hns level ltac:(apply Hl; set_solver)).
    assert (length levels <= length (mjoin (nodes_of_level edges back <$> levels)))%nat; [| lia].
    apply IH. intros l Hin. apply Hl. set_solver. }
  rewrite <- (length_seq levels_count 0) at 1. apply Hall. intros level Hin%elem_of_seq. lia.
Qed.

(** The sections in front of the nodes, as the loader reads them. *)
Lemma read_front hs rest : hs mod 8 = 0 ->
  read_level_offsets {| position := hs; remaining := mjoin (u64_bytes <$> starts) ++ mjoin (u32_bytes <$> re) ++ rest |}
      (N.of_nat levels_count) (N.of_nat (length (nw_offsets st)))
    = Ok (starts ++ [N.of_nat node_count],
          {| position := hs + 8 * N.of_nat levels_count; remaining := mjoin (u32_bytes <$> re) ++ rest |}) /\
  get_slice 4 4 {| position := hs + 8 * N.of_nat levels_count; remaining := mjoin (u32_bytes <$> re) ++ rest |}
      (N.of_nat (length edges))
    = Ok (re, {| position := hs + 8 * N.of_nat levels_count + 4 * N.of_nat (length edges); remaining := rest |}).
Proof.
  intros Hhs. pose proof (ns_ordered _ _ _ _ _ _ _ _ _ _ Hns) as Hod.
  pose proof (ns_starts_length _ _ _ _ _ _ _ _ _ _ Hns) as Hsl. split.
  - unfold read_level_offsets. rewrite <- Hsl. unfold u64_bytes. rewrite get_slice_join; [| lia | done | apply starts_fit].
    rewrite offsets_count. rewrite checked_sub_some by lia.
    replace (N.of_nat (S node_count) - 1) with (N.of_nat node_count) by lia.
    rewrite Hsl. by replace (N.of_nat (levels_count * 8)) with (8 * N.of_nat levels_count) by lia.
  - rewrite <- (od_length _ _ _ Hod). unfold u32_bytes.
    rewrite get_slice_join; [by replace (N.of_nat (length re * 4)) with (4 * N.of_nat (length re)) by lia | lia | | apply reindex_fits].
    apply (mod_divides _ 4 (hs / 4 + 2 * N.of_nat levels_count)); [done |].
    pose proof (N.div_mod hs 4 ltac:(done)) as E4. pose proof (N.div_mod hs 8 ltac:(done)) as E8. rewrite Hhs in E8.
    assert (hs mod 4 = 0) by (apply (mod_divides _ 4 (2 * (hs / 8))); lia). lia.
Qed.

(** What the loaded view holds. *)
Record view_reads (view : GraphLinksView) : Prop := {
  vr_reindex : reindex view = re;
  vr_levels : level_offsets view = starts ++ [N.of_nat node_count];
  vr_compression :
    match param with
    | Plain => compression view = Uncompressed (words (N.to_nat (nw_offset st)) 4 (nw_bytes st)) (nw_offsets st)
    | Compressed => exists r, compression view = CompressedInfo (nw_bytes st) r hnsw_m bits /\
        forall i, get r (N.of_nat i) = Got (nw_offsets st !! i)
    | CompressedWithVectors v => exists r,
        compression view = CompressedWithVectorsInfo (nw_bytes st) r hnsw_m bits (base_layout v)
          (size (link_layout v)) (align (link_layout v)) /\
        forall i, get r (N.of_nat i) = Got (nw_offsets st !! i)
    end;
}.

Lemma header_prefix_app n h rest : length h = n ->
  header_prefix n {| position := 0; remaining := h ++ rest |}
    = Ok (h, {| position := N.of_nat n; remaining := rest |}).
Proof.
  intros <-. unfold header_prefix, advance. cbn [position remaining]. rewrite length_app.
  destruct (Nat.leb_spec (length h) (length h + length rest)); [| lia]. cbn [andb N.modulo N.eqb].
  by rewrite take_app_length, drop_app_length.
Qed.

(** The header replaces its placeholder. *)
Lemma replace_header h hs rest : length h = hs -> h ++ drop (length h) (replicate hs 0 ++ rest) = h ++ rest.
Proof. intros <-. f_equal. apply drop_app_length'. by rewrite length_replicate. Qed.

Lemma width_ok : width_of_links (N.of_nat (length edges)) = Ok bits.
Proof. unfold width_of_links. by rewrite (ns_bits _ _ _ _ _ _ _ _ _ _ Hns). Qed.

Lemma points_u64 : N.of_nat (length edges) < 2 ^ 64 /\ N.of_nat levels_count < 2 ^ 64 /\ N.of_nat (length (nw_offsets st)) < 2 ^ 64.
Proof.
  pose proof (go_count _ Hg). pose proof levels_le_nodes. rewrite offsets_count in *.
  pose proof (pow2_le 60 64 ltac:(lia)). assert (2 ^ 32 < 2 ^ 64) by done. lia.
Qed.

Lemma load_plain_ok : param = Plain -> exists bytes view,
  write_file param hnsw_m (N.of_nat (length edges)) (N.of_nat levels_count) front st = Returned (Ok bytes) /\
  load bytes PlainFormat = Returned (Ok view) /\ view_reads view.
Proof.
  intros Hparam. destruct points_u64 as (H1 & H2 & H3).
  pose proof (nd_bytes _ _ _ _ _ _ (ns_nodes _ _ _ _ _ _ _ _ _ _ Hns)) as Hb. rewrite Hparam in Hb. simpl in Hb.
  set (pad := padding (N.of_nat (length (front ++ nw_bytes st))) 8).
  set (h := {| hp_point_count := N.of_nat (length edges); hp_levels_count := N.of_nat levels_count;
    hp_total_neighbors_count := nw_offset st; hp_total_offset_count := N.of_nat (length (nw_offsets st));
    hp_offsets_padding_bytes := pad |}).
  assert (Hpad : pad < 2 ^ 64).
  { unfold pad, padding, next_multiple. pose proof (div_ceil_bounds (N.of_nat (length (front ++ nw_bytes st))) 8 ltac:(done)).
    assert (8 < 2 ^ 64) by done. lia. }
  exists (HeaderPlain_bytes h ++ mjoin (u64_bytes <$> starts) ++ mjoin (u32_bytes <$> re) ++ nw_bytes st ++ zeros pad ++
    mjoin (u64_bytes <$> nw_offsets st) ++ []).
  exists {| reindex := re; compression := Uncompressed (words (N.to_nat (nw_offset st)) 4 (nw_bytes st)) (nw_offsets st);
    level_offsets := starts ++ [N.of_nat node_count] |}. split; [| split].
  - unfold write_file. rewrite Hparam. unfold write_offsets. go_on. fold pad. fold h.
    rewrite (ns_front _ _ _ _ _ _ _ _ _ _ Hns), Hparam. unfold write_front. cbn [header_size].
    rewrite <- !app_assoc, replace_header by done. by rewrite app_nil_r.
  - unfold load, load_plain. rewrite header_prefix_app by done. go_on. change (N.of_nat 64) with 64. rewrite HeaderPlain_roundtrip by done.
    cbn [hp_levels_count hp_total_offset_count hp_point_count hp_total_neighbors_count hp_offsets_padding_bytes h].
    destruct (read_front 64 (nw_bytes st ++ zeros pad ++ mjoin (u64_bytes <$> nw_offsets st) ++ []) eq_refl) as [Ef Er].
    rewrite Ef. go_on. rewrite Er. go_on.
    rewrite get_slice_app; [| lia | apply (mod_divides _ 4 (16 + 2 * N.of_nat levels_count + N.of_nat (length edges))); lia].
    go_on. rewrite get_slice_bytes by (by rewrite length_zeros). go_on.
    unfold u64_bytes. rewrite get_slice_join; [| lia | apply N.mod_1_r | apply offsets_fit]. done.
  - constructor; [done.. |]. by rewrite Hparam.
Qed.

(** The packed offsets, and the common fields of the compressed headers. *)
Lemma compressed_offsets : exists packed p,
  compress (nw_offsets st) = Some (packed, p) /\ p_length p = N.of_nat (length (nw_offsets st)) /\
  Reader_new p packed = Some (Decompressed (reader_of p packed, [])) /\
  forall i, get (reader_of p packed) (N.of_nat i) = Got (nw_offsets st !! i).
Proof.
  destruct (compress_spec (nw_offsets st) []) as (packed & p & Ec & _ & Hsuit & _ & Er & Hget & _).
  - apply (ns_nodes _ _ _ _ _ _ _ _ _ _ Hns).
  - apply offsets_fit.
  - done.
  - exists packed, p. rewrite app_nil_r in Er. split; [done |]. split; [apply Hsuit | by split].
Qed.

Definition compressed_header (version : N) (p : Parameters) : HeaderCompressed :=
  {| hc_point_count := N.of_nat (length edges); hc_version := version; hc_levels_count := N.of_nat levels_count;
     hc_total_neighbors_bytes := nw_offset st; hc_offsets_parameters := p;
     hc_m := N.of_nat (m hnsw_m); hc_m0 := N.of_nat (m0 hnsw_m) |}.

Lemma read_compressed_header version p rest : version < 2 ^ 64 -> p_length p = N.of_nat (length (nw_offsets st)) ->
  HeaderCompressed_read (header_fields (compressed_header version p) ++ rest) = compressed_header version p.
Proof.
  intros Hv Ep. destruct points_u64 as (H1 & H2 & H3). apply header_fields_roundtrip; simpl; try done; [by rewrite Ep | apply Hm..].
Qed.

Lemma hnsw_m_back : {| m := N.to_nat (N.of_nat (m hnsw_m)); m0 := N.to_nat (N.of_nat (m0 hnsw_m)) |} = hnsw_m.
Proof. rewrite !Nat2N.id. by destruct hnsw_m. Qed.

Lemma load_compressed_ok : param = Compressed -> exists bytes view,
  write_file param hnsw_m (N.of_nat (length edges)) (N.of_nat levels_count) front st = Returned (Ok bytes) /\
  load bytes CompressedFormat = Returned (Ok view) /\ view_reads view.
Proof.
  intros Hparam. pose proof (nd_bytes _ _ _ _ _ _ (ns_nodes _ _ _ _ _ _ _ _ _ _ Hns)) as Hb. rewrite Hparam in Hb.
  destruct compressed_offsets as (packed & p & Ec & Ep & Er & Hget).
  set (h := compressed_header HEADER_VERSION_COMPRESSED p).
  exists (HeaderCompressed_bytes h ++ mjoin (u64_bytes <$> starts) ++ mjoin (u32_bytes <$> re) ++ nw_bytes st ++ packed).
  exists {| reindex := re; compression := CompressedInfo (nw_bytes st) (reader_of p packed) hnsw_m bits;
    level_offsets := starts ++ [N.of_nat node_count] |}. split; [| split].
  - unfold write_file. rewrite Hparam. unfold write_offsets. rewrite Ec. go_on.
    fold (compressed_header HEADER_VERSION_COMPRESSED p). fold h.
    rewrite (ns_front _ _ _ _ _ _ _ _ _ _ Hns), Hparam. unfold write_front. cbn [header_size].
    by rewrite <- !app_assoc, replace_header.
  - unfold load, load_compressed. rewrite header_prefix_app by done. go_on. change (N.of_nat 64) with 64.
    unfold HeaderCompressed_bytes, h. rewrite read_compressed_header by done.
    unfold compressed_header. cbn [hc_levels_count hc_offsets_parameters hc_point_count hc_total_neighbors_bytes hc_m hc_m0].
    rewrite Ep. destruct (read_front 64 (nw_bytes st ++ packed) eq_refl) as [Ef Ere].
    rewrite Ef. go_on. rewrite Ere. go_on. rewrite get_slice_bytes by (simpl in Hb; lia). go_on.
    unfold open_offsets. cbn [remaining]. rewrite Er. go_on. rewrite width_ok. go_on. by rewrite hnsw_m_back.
  - constructor; [done.. |]. rewrite Hparam. by eexists.
Qed.

Lemma load_vectors_ok v : param = CompressedWithVectors v -> exists bytes view,
  write_file param hnsw_m (N.of_nat (length edges)) (N.of_nat levels_count) front st = Returned (Ok bytes) /\
  load bytes CompressedWithVectorsFormat = Returned (Ok view) /\ view_reads view.
Proof.
  intros Hparam. pose proof (nd_bytes _ _ _ _ _ _ (ns_nodes _ _ _ _ _ _ _ _ _ _ Hns)) as Hb. rewrite Hparam in Hb.
  destruct compressed_offsets as (packed & p & Ec & Ep & Er & Hget).
  pose proof Hp as Hv. rewrite Hparam in Hv. destruct Hv as (Hbl & Hll & Hne & _).
  set (h := compressed_header HEADER_VERSION_COMPRESSED_WITH_VECTORS p).
  set (hb := header_fields h ++ PackedVectorLayout_bytes (base_layout v) ++ PackedVectorLayout_bytes (link_layout v) ++ replicate 3 0).
  set (pad := padding (80 + 8 * N.of_nat levels_count + 4 * N.of_nat (length edges))
    (N.max (align (base_layout v)) (align (link_layout v)))).
  exists (hb ++ mjoin (u64_bytes <$> starts) ++ mjoin (u32_bytes <$> re) ++ zeros pad ++ nw_bytes st ++ packed).
  exists {| reindex := re; compression := CompressedWithVectorsInfo (nw_bytes st) (reader_of p packed) hnsw_m bits
      (base_layout v) (size (link_layout v)) (align (link_layout v));
    level_offsets := starts ++ [N.of_nat node_count] |}. split; [| split].
  - unfold write_file. rewrite Hparam. unfold write_offsets. rewrite Ec. go_on.
    fold (compressed_header HEADER_VERSION_COMPRESSED_WITH_VECTORS p). fold h.
    unfold pack_layout. destruct Hbl as (_ & Ha%N.ltb_lt & _). destruct Hll as (_ & Ha'%N.ltb_lt & _). rewrite Ha, Ha'. go_on.
    fold hb. rewrite (ns_front _ _ _ _ _ _ _ _ _ _ Hns), Hparam. unfold write_front. cbn [header_size].
    assert (El : N.of_nat (length (replicate 80 0 ++ mjoin (u64_bytes <$> starts) ++ mjoin (u32_bytes <$> re)))
      = 80 + 8 * N.of_nat levels_count + 4 * N.of_nat (length edges)).
    { unfold u64_bytes, u32_bytes. rewrite !length_app, !length_join, length_replicate.
      rewrite (ns_starts_length _ _ _ _ _ _ _ _ _ _ Hns), (od_length _ _ _ (ns_ordered _ _ _ _ _ _ _ _ _ _ Hns)). lia. }
    rewrite El. fold pad. by rewrite <- !app_assoc, replace_header.
  - unfold load, load_compressed_with_vectors. rewrite header_prefix_app by done. go_on. change (N.of_nat 80) with 80.
    assert (Eh : HeaderCompressed_read hb = h) by (by apply read_compressed_header). rewrite Eh.
    assert (Ebase : try_into_layout hb 59 = Ok (base_layout v)) by (by apply (try_into_layout_at (header_fields h))).
    assert (Elink : try_into_layout hb 68 = Ok (link_layout v)).
    { unfold hb. rewrite (app_assoc (header_fields h)). 
      by apply (try_into_layout_at (header_fields h ++ PackedVectorLayout_bytes (base_layout v))). }
    rewrite Ebase. go_on. rewrite Elink. go_on.
    unfold h, compressed_header. cbn [hc_levels_count hc_offsets_parameters hc_point_count hc_total_neighbors_bytes hc_m hc_m0].
    rewrite Ep. destruct (read_front 80 (zeros pad ++ nw_bytes st ++ packed) eq_refl) as [Ef Ere].
    rewrite Ef. go_on. rewrite Ere. go_on. cbn [position]. rewrite (N.max_comm (align (link_layout v))). fold pad.
    rewrite get_slice_bytes by (by rewrite length_zeros). go_on. rewrite get_slice_bytes by (simpl in Hb; lia). go_on.
    unfold open_offsets. cbn [remaining]. rewrite Er. go_on. rewrite width_ok. go_on.
    apply N.eqb_neq in Hne. rewrite Hne. by rewrite hnsw_m_back.
  - constructor; [done.. |]. rewrite Hparam. by eexists.
Qed.

(** Serialization ends, and what it wrote is loaded. *)
Lemma file_loads : exists bytes view,
  write_file param hnsw_m (N.of_nat (length edges)) (N.of_nat levels_count) front st = Returned (Ok bytes) /\
  load bytes (as_format param) = Returned (Ok view) /\ view_reads view.
Proof.
  assert (Hcase : param = Plain \/ param = Compressed \/ exists v, param = CompressedWithVectors v)
    by (clear; destruct param; eauto).
  destruct Hcase as [E | [E | [v E]]].
  - destruct (load_plain_ok E) as (bytes & view & Hw). exists bytes, view. by rewrite E in *.
  - destruct (load_compressed_ok E) as (bytes & view & Hw). exists bytes, view. by rewrite E in *.
  - destruct (load_vectors_ok v E) as (bytes & view & Hw). exists bytes, view. by rewrite E in *.
Qed.

(** ** Reading the view *)

Section View.

Context {view : GraphLinksView} (Hview : view_reads view).

Lemma level_offsets_all : level_offsets view = (fun l => N.of_nat (@level_start edges back l)) <$> seq 0 (S levels_count).
Proof.
  rewrite (vr_levels _ Hview), seq_S, fmap_app. simpl. f_equal. apply list_eq. intros level.
  rewrite list_lookup_fmap. destruct (decide (level < levels_count)%nat) as [Hl | Hl].
  - rewrite (ns_starts _ _ _ _ _ _ _ _ _ _ Hns level Hl), lookup_seq_lt by done. done.
  - rewrite lookup_seq_ge by lia. apply lookup_ge_None. rewrite (ns_starts_length _ _ _ _ _ _ _ _ _ _ Hns). lia.
Qed.

(** The index of a node. *)
Lemma offset_idx_spec i point level : edges !! i = Some point -> (level < length point)%nat ->
  exists k, offset_idx view (N.of_nat i) level = Returned (Ok (N.of_nat k)) /\
    all_nodes edges back levels_count !! k = Some (level, N.of_nat i).
Proof.
  intros Hi Hl. pose proof (Forall_lookup_1 _ _ _ _ (ns_levels _ _ _ _ _ _ _ _ _ _ Hns) Hi) as Hlc. simpl in Hlc.
  destruct (point_node (ns_ordered _ _ _ _ _ _ _ _ _ _ Hns) (go_levels _ Hg) levels_count i point level Hi Hl Hlc)
    as (j & Hre & Hnode). eexists. split; [| exact Hnode]. unfold offset_idx.
  destruct (level =? 0)%nat; [done |]. rewrite level_offsets_all, list_lookup_fmap, lookup_seq_lt by lia. simpl.
  go_on. rewrite (vr_reindex _ Hview), Nat2N.id, Hre. go_on. unfold mret, outcome_ret. do 2 f_equal. lia.
Qed.

(** The links of a node, and its vectors. *)
Lemma view_links_spec i point level links : edges !! i = Some point -> point !! level = Some links ->
  exists it, view_links view (N.of_nat i) level = Returned (Ok it) /\
    collect_links it = Returned (Ok (stored param (level_m hnsw_m level) links)) /\
    match param with
    | CompressedWithVectors v => exists base it' vecs,
        it = PackedLinks it' /\ links_with_vectors view (N.of_nat i) level = Returned (Ok (base, it', vecs)) /\
        (if (level =? 0)%nat then base_vector v (N.of_nat i) = Ok base else base = []) /\
        Forall2 (fun u vec => get_link_vector v u = Ok vec) (stored param (level_m hnsw_m level) links) vecs
    | _ => True
    end.
Proof.
  intros Hi Hl. destruct (offset_idx_spec i point level Hi (lookup_lt_Some _ _ _ Hl)) as (k & Eidx & Hk).
  destruct (nd_laid_out _ _ _ _ _ _ (ns_nodes _ _ _ _ _ _ _ _ _ _ Hns) k level _ Hk)
    as (links' & pre & bs & post & o & o' & Hlinks & Ho & Ho' & Hw & Eb & Hpre).
  assert (links' = links) as ->.
  { unfold links_at in Hlinks. rewrite Nat2N.id, Hi in Hlinks. simpl in Hlinks. congruence. }
  destruct (unsorted_width_spec _ (go_count _ Hg)) as (bits' & Ebits & Hbits & Hfit).
  rewrite (ns_bits _ _ _ _ _ _ _ _ _ _ Hns) in Ebits. injection Ebits as <-.
  assert (Esucc : N.of_nat k + 1 = N.of_nat (S k)) by lia.
  pose proof (vr_compression _ Hview) as Hc. unfold view_links. rewrite Eidx. go_on.
  pose proof (nd_bytes _ _ _ _ _ _ (ns_nodes _ _ _ _ _ _ _ _ _ _ Hns)) as Hbytes.
  destruct param as [| | v].
  - rewrite Hc, Esucc, !Nat2N.id, Ho, Ho'. go_on. rewrite (read_plain Hg hnsw_m Hbits Hfit level _ links o bs o' _ pre post) by done.
    go_on. by exists (PlainLinks links).
  - destruct Hc as (r & -> & Hget). unfold offset_at. rewrite Esucc, !Hget, Ho, Ho'. go_on.
    destruct (read_compressed Hg hnsw_m Hbits Hfit level (N.of_nat i) links o bs o' (nw_bytes st) pre post) as (-> & it & Eit & Hy);
      [done.. | simpl in Hpre; lia |].
    go_on. rewrite Eit. go_on. exists (PackedLinks it). split; [done |]. by rewrite (collect_yields it _ Hy).
  - destruct Hc as (r & Ec & Hget). rewrite Ec.
    destruct (read_with_vectors Hg hnsw_m Hbits Hfit v level (N.of_nat i) links o bs o' (nw_bytes st) pre post r view (N.of_nat k))
      as (base & it & vecs & El & Hbase & Hy & Hf);
      [done | done | done | done | simpl in Hpre; lia | done | done | by rewrite Hget, Ho | by rewrite Esucc, Hget, Ho' |].
    rewrite El. go_on. exists (PackedLinks it). split; [done |].
    split; [by rewrite (collect_yields it _ Hy) |]. by exists base, it, vecs.
Qed.

(** A node without links is seen as such. *)
Lemma links_empty_spec i point level links : edges !! i = Some point -> point !! level = Some links ->
  links_empty view (N.of_nat i) level = Returned (Ok (length links =? 0)%nat).
Proof.
  intros Hi Hl. destruct (view_links_spec i point level links Hi Hl) as (it & Eit & Hcollect & Hvec).
  destruct (offset_idx_spec i point level Hi (lookup_lt_Some _ _ _ Hl)) as (k & Eidx & Hk).
  destruct (nd_laid_out _ _ _ _ _ _ (ns_nodes _ _ _ _ _ _ _ _ _ _ Hns) k level _ Hk)
    as (links' & pre & bs & post & o & o' & Hlinks & Ho & Ho' & Hw & _).
  assert (links' = links) as ->.
  { unfold links_at in Hlinks. rewrite Nat2N.id, Hi in Hlinks. simpl in Hlinks. congruence. }
  destruct (unsorted_width_spec _ (go_count _ Hg)) as (bits' & Ebits & Hbits & Hfit).
  rewrite (ns_bits _ _ _ _ _ _ _ _ _ _ Hns) in Ebits. injection Ebits as <-.
  assert (Esucc : N.of_nat k + 1 = N.of_nat (S k)) by lia. destruct Hw as (Hw & _).
  pose proof (vr_compression _ Hview) as Hc. unfold links_empty. rewrite Eidx. go_on.
  destruct param as [| | v].
  - rewrite Hc, Esucc, !Nat2N.id, Ho, Ho'. go_on. simpl in Hw. injection Hw as _ <-.
    unfold mret, outcome_ret. do 2 f_equal. destruct (Nat.eqb_spec (length links) 0), (N.eqb_spec o (o + N.of_nat (length links))); lia || done.
  - destruct Hc as (r & -> & Hget). unfold offset_at. rewrite Esucc, !Hget, Ho, Ho'. go_on.
    destruct (pack_node Hbits Hfit links (level_m hnsw_m level)) as (b & packed & Ep & Hpk).
    { by destruct (go_links _ Hg _ _ _ Hlinks). }
    simpl in Hw. rewrite Ep in Hw. injection Hw as <- <-. unfold mret, outcome_ret. do 2 f_equal.
    pose proof (packed_empty _ _ _ _ _ _ Hpk) as Hempty. rewrite length_deltas, sort_u32_perm, <- length_app, take_drop in Hempty.
    destruct (Nat.eqb_spec (length links) 0), (N.eqb_spec (o + N.of_nat (length packed)) o); lia || done.
  - destruct Hc as (r & Ec & Hget). rewrite Ec, Eit. go_on. destruct Hvec as (base & it' & vecs & -> & _).
    cbn [collect_links] in Hcollect. destruct (links_size_hint it') as [n |]; [| done]. rewrite unwrap_some, bind_ok in Hcollect.
    cbn [links_collect] in Hcollect. destruct (links_next it') as [[x it2] |]; [| done]. go_on.
    rewrite <- (length_stored Compressed (level_m hnsw_m level) links). unfold mret, outcome_ret. do 2 f_equal.
    cbn [mbind option_bind] in Hcollect. unfold stored.
    destruct x as [u |]; [| by injection Hcollect as <-].
    destruct (links_collect _ _) as [l |]; [| done]. by injection Hcollect as <-.
Qed.

(** The top level of a point. *)
Lemma point_level_loop_spec (point : list (list N)) j t k : (forall level, (j < above edges level)%nat <-> (level < length point)%nat) ->
  (t < length point)%nat ->
  point_level_loop (N.of_nat j) t ((fun l => N.of_nat (@level_start edges back l)) <$> seq (S t) (S k))
    = Returned (Ok (if (length point <? t + S k)%nat then Some (length point - 1)%nat else None)).
Proof.
  intros Hj. revert t. induction k as [| k IH]; intros t Ht.
  { simpl. by destruct (Nat.ltb_spec (length point) (t + 1)); [lia |]. }
  assert (Estep : @level_start edges back (S (S t)) = (@level_start edges back (S t) + above edges (S t))%nat).
  { unfold level_start. rewrite (seq_S (S t) 0), fmap_app, join_app, length_app. simpl. rewrite app_nil_r.
    by rewrite (length_nodes_of_level (ns_ordered _ _ _ _ _ _ _ _ _ _ Hns)). }
  cbn [seq fmap list_fmap point_level_loop]. rewrite checked_sub_some by lia. go_on.
  destruct (N.leb_spec (N.of_nat (@level_start edges back (S (S t))) - N.of_nat (@level_start edges back (S t))) (N.of_nat j)) as [Hle | Hgt].
  - assert (~ (S t < length point)%nat) by (rewrite <- (Hj (S t)); lia).
    destruct (Nat.ltb_spec (length point) (t + S (S k))); [| lia]. unfold mret, outcome_ret. do 3 f_equal. lia.
  - assert (S t < length point)%nat by (apply Hj; lia).
    transitivity (point_level_loop (N.of_nat j) (S t)
      ((fun l => N.of_nat (@level_start edges back l)) <$> seq (S (S t)) (S k))); [done |].
    rewrite IH by done. by replace (S t + S k)%nat with (t + S (S k))%nat by lia.
Qed.

Lemma point_level_spec i point : edges !! i = Some point ->
  point_level view (N.of_nat i) = Returned (Ok (length point - 1)%nat).
Proof.
  intros Hi. pose proof (ns_ordered _ _ _ _ _ _ _ _ _ _ Hns) as Hod.
  destruct (od_place Hod i point Hi) as (j & _ & Hre & _ & Hj).
  pose proof (Forall_lookup_1 _ _ _ _ (go_levels _ Hg) Hi) as H1. simpl in H1.
  pose proof (Forall_lookup_1 _ _ _ _ (ns_levels _ _ _ _ _ _ _ _ _ _ Hns) Hi) as Hlc. simpl in Hlc.
  unfold point_level. rewrite (vr_reindex _ Hview), Nat2N.id, Hre. go_on.
  assert (Ew : drop 1 (level_offsets view) =
    (fun l => N.of_nat (@level_start edges back l)) <$> seq 1 (S (levels_count - 1))).
  { rewrite level_offsets_all. by replace (S (levels_count - 1)) with levels_count by lia. }
  assert (El : length (level_offsets view) = S (S (levels_count - 1))).
  { rewrite level_offsets_all, length_fmap, length_seq. lia. }
  rewrite Ew, El, (point_level_loop_spec point) by (done || lia). go_on.
  destruct (Nat.ltb_spec (length point) (0 + S (levels_count - 1))); [done |].
  destruct (Nat.leb_spec 2 (S (S (levels_count - 1)))); [| lia]. unfold mret, outcome_ret. do 2 f_equal. lia.
Qed.

End View.

End Sections.

(** ** Round trip *)

(** The graph as it is stored. *)
Definition stored_edges (param : GraphLinksFormatParam) (hnsw_m : HnswM) (edges : edges_t) : edges_t :=
  imap (fun level => stored param (level_m hnsw_m level)) <$> edges.

Lemma mapM_outcome_spec {A B} (f : A -> outcome B) (g : A -> B) l :
  (forall a, a ∈ l -> f a = Returned (Ok (g a))) -> mapM_outcome f l = Returned (Ok (g <$> l)).
Proof.
  induction l as [| a l IH]; intros Hf; [done |]. csimpl. rewrite Hf by set_solver. go_on.
  rewrite IH; [done |]. intros b Hb. apply Hf. set_solver.
Qed.

Lemma fmap_seq_lookup {A B} `{Inhabited A} (l : list A) (f : nat -> A -> B) :
  (fun i => f i (l !!! i)) <$> seq 0 (length l) = imap f l.
Proof.
  apply list_eq. intros i. rewrite list_lookup_fmap, list_lookup_imap.
  destruct (decide (i < length l)%nat) as [Hi | Hi].
  - rewrite lookup_seq_lt by done. destruct (lookup_lt_is_Some_2 l i Hi) as [x Hx]. rewrite Hx. simpl.
    by rewrite (list_lookup_total_correct _ _ _ Hx).
  - rewrite lookup_seq_ge by lia. by rewrite lookup_ge_None_2 by lia.
Qed.

(** The offsets of the nodes fit 64 bits, and there are fewer than 2^60. *)
Definition fits_memory `{VarInt} `{UnstableByLevel} (edges : edges_t) (param : GraphLinksFormatParam) (hnsw_m : HnswM) : bool :=
  (N.of_nat (m hnsw_m) <? 2 ^ 64) && (N.of_nat (m0 hnsw_m) <? 2 ^ 64) &&
  match serialize_nodes edges param hnsw_m with
  | Returned (Ok (_, _, st)) => (nw_offset st <? 2 ^ 64) && (N.of_nat (length (nw_offsets st)) <? 2 ^ 60)
  | _ => true
  end.

(** [C18] A graph is serialized and read back.  For every graph in which each
    point has a level and links name points, in each of the three formats,
    whatever order the unstable sort gives to points of equal height:
    serialization returns a file; loading it returns a view of all points;
    [to_edges] returns every level of every point with its links, as given in
    the plain format and with the first [m] of them sorted in the others;
    [links_empty] says whether there are any; and with vectors, a node also returns the vector of its point and the vectors
    of its links in their order. *)
Theorem graph_links_roundtrip `{VarInt} `{UnstableByLevel} (edges : edges_t) (param : GraphLinksFormatParam)
    (hnsw_m : HnswM) :
  graph_ok edges -> param_ok edges param -> fits_memory edges param hnsw_m = true ->
  exists bytes view, serialize_graph_links edges param hnsw_m = Returned (Ok bytes) /\
    load bytes (as_format param) = Returned (Ok view) /\ num_points view = length edges /\
    to_edges view = Returned (Ok (stored_edges param hnsw_m edges)) /\
    (forall i point level links, edges !! i = Some point -> point !! level = Some links ->
       links_empty view (N.of_nat i) level = Returned (Ok (length links =? 0)%nat)) /\
    forall v, param = CompressedWithVectors v -> forall i point level links,
      edges !! i = Some point -> point !! level = Some links ->
      exists base it vecs, links_with_vectors view (N.of_nat i) level = Returned (Ok (base, it, vecs)) /\
        (if (level =? 0)%nat then base_vector v (N.of_nat i) = Ok base else base = []) /\
        collect_links (PackedLinks it) = Returned (Ok (stored param (level_m hnsw_m level) links)) /\
        Forall2 (fun u vec => get_link_vector v u = Ok vec) (stored param (level_m hnsw_m level) links) vecs.
Proof.
  intros Hg Hp Hfits.
  destruct (serialize_nodes_spec edges param hnsw_m Hg Hp) as (front & levels_count & st & back & re & starts & bits & E & Hns).
  unfold fits_memory in Hfits. rewrite E in Hfits. rewrite !andb_true_iff, !N.ltb_lt in Hfits.
  destruct Hfits as [Hm [Hmax Hcount]].
  destruct (file_loads Hg Hp Hns Hmax Hcount Hm) as (bytes & view & Ew & El & Hview).
  exists bytes, view. split; [unfold serialize_graph_links; by rewrite E |]. split; [done |].
  assert (Hn : num_points view = length edges).
  { unfold num_points. rewrite (vr_reindex _ Hview). apply (ns_ordered _ _ _ _ _ _ _ _ _ _ Hns). }
  split; [done |].
  split; [| split; [intros; by eapply (links_empty_spec Hg Hp Hns Hmax Hcount Hm Hview) |]].
  - unfold to_edges, to_edges_impl. rewrite Hn.
    set (g := fun (i : nat) (point : list (list N)) => imap (fun level => stored param (level_m hnsw_m level)) point).
    rewrite (mapM_outcome_spec _ (fun i => g i (edges !!! i))).
    + rewrite (fmap_seq_lookup edges g). do 2 f_equal. apply imap_const.
    + intros i Hi%elem_of_seq. destruct (lookup_lt_is_Some_2 edges i) as [point Hpoint]; [lia |].
      rewrite (list_lookup_total_correct _ _ _ Hpoint). rewrite (point_level_spec Hg Hns Hmax Hcount Hm Hview i point Hpoint). go_on.
      pose proof (Forall_lookup_1 _ _ _ _ (go_levels _ Hg) Hpoint) as H1. simpl in H1.
      replace (length point - 1 + 1)%nat with (length point) by lia.
      rewrite (mapM_outcome_spec _ (fun level => stored param (level_m hnsw_m level) (point !!! level))).
      * by rewrite (fmap_seq_lookup point (fun level => stored param (level_m hnsw_m level))).
      * intros level Hl%elem_of_seq. destruct (lookup_lt_is_Some_2 point level) as [links Hlinks]; [lia |].
        rewrite (list_lookup_total_correct _ _ _ Hlinks).
        destruct (view_links_spec Hg Hp Hns Hmax Hcount Hm Hview i point level links Hpoint Hlinks) as (it & -> & Ec & _). by go_on.
  - intros v Hv i point level links Hpoint Hlinks.
    destruct (view_links_spec Hg Hp Hns Hmax Hcount Hm Hview i point level links Hpoint Hlinks) as (it & _ & Ec & Hvec).
    rewrite Hv in Hvec. destruct Hvec as (base & it' & vecs & -> & Elv & Hbase & Hf). rewrite Hv in *. by exists base, it', vecs.
Qed.

(** The sample graph in every format, with a concrete encoding and sort. *)
Lemma sample_graph_ok : graph_ok sample_edges.
Proof.
  split; [done | repeat constructor; simpl; lia |]. intros level id links Hl. unfold links_at in Hl.
  apply bind_Some in Hl as (point & Hp & Hl).
  assert (Hall : Forall (Forall (fun links => N.of_nat (length links) < 2 ^ 64 /\ Forall (fun v => v < 4) links)) sample_edges).
  { repeat constructor; lia. }
  by apply (Forall_lookup_1 _ _ _ _ (Forall_lookup_1 _ _ _ _ Hall Hp) Hl).
Qed.

Lemma graph_links_roundtrip_witness :
  (exists bytes view,
    @serialize_graph_links leb128 insertion_sort sample_edges (CompressedWithVectors sample_vectors) {| m := 1; m0 := 2 |}
      = Returned (Ok bytes) /\
    load bytes CompressedWithVectorsFormat = Returned (Ok view) /\
    @to_edges leb128 view = Returned (Ok [[[1; 2]]; [[0; 3; 2]; [2]; [2]]; [[0]; [1; 3]; [1]]; [[1; 2]; [2]]])) /\
  (exists bytes view,
    @serialize_graph_links leb128 insertion_sort sample_edges Plain {| m := 1; m0 := 2 |} = Returned (Ok bytes) /\
    load bytes PlainFormat = Returned (Ok view) /\ @to_edges leb128 view = Returned (Ok sample_edges)).
Proof.
  split.
  - destruct (@graph_links_roundtrip leb128 insertion_sort sample_edges (CompressedWithVectors sample_vectors)
      {| m := 1; m0 := 2 |} sample_graph_ok) as (bytes & view & Es & El & _ & Et & _).
    + split; [done |]. split; [done |]. split; [done |]. intros id Hid. simpl in Hid.
      split; (eexists; split; [done |]; split; [repeat constructor; unfold byte_ok; lia | done]).
    + vm_compute. reflexivity.
    + exists bytes, view. split; [done |]. split; [done |]. rewrite Et. vm_compute. reflexivity.
  - destruct (@graph_links_roundtrip leb128 insertion_sort sample_edges Plain {| m := 1; m0 := 2 |} sample_graph_ok)
      as (bytes & view & Es & El & _ & Et & _).
    + done.
    + vm_compute. reflexivity.
    + exists bytes, view. split; [done |]. split; [done |]. rewrite Et. vm_compute. reflexivity.
Defined.

(** An empty graph has no level: its view holds a single level offset. *)
Example empty_graph_levels :
  exists view, (bytes ← @serialize_graph_links leb128 insertion_sort [] Compressed {| m := 1; m0 := 2 |};
    load bytes CompressedFormat) = Returned (Ok view) /\ level_offsets view = [0].
Proof. eexists. split; [vm_compute; reflexivity | reflexivity]. Qed.
