(* ===== verification/CompressedPostings.v ===== *)
(** * Compressed posting lists

    lib/sparse/src/index/compressed_posting_list.rs and the weights of
    lib/sparse/src/common/types.rs.  A compressed list keeps its records in
    chunks of 128: the identifiers of a chunk are bit-packed, its weights
    quantized; what does not fill a chunk is kept as it is.  The cursor unpacks
    the chunk it stands in and moves by whole chunks where it can.

    Operations that index, slice or subtract are in the option monad, [None]
    being the panic of the code.  The file proves that a built list holds the
    records it was built from, that no operation of its cursor panics, and that
    the cursor keeps the laws of [LawfulPosting], so that everything proved
    about searches and rankings over posting lists holds of compressed ones.

    The bit packing of a chunk is a third-party package, a class with its
    documented contract; half-precision weights are one, too.  Hardware
    counters are left out. *)

From S2P Require Import Prelude Float Order PointId RrfScoring Postings MachineInt.

(** ** Weights *)

(** The trait [Weight] with the type of its parameters; [size_of_weight] is
    [size_of::<W>()]. *)
Class Weight (W P : Type) : Type := {
  quantization_params_for : list float -> P;
  from_f32 : P -> float -> W;
  to_f32 : P -> W -> float;
  into_f32_slice : P -> list W -> list float;
  size_of_weight : nat;
  into_f32_slice_each p ws : into_f32_slice p ws = to_f32 p <$> ws;
}.

#[export] Program Instance f32_weight : Weight float unit := {|
  quantization_params_for _ := tt;
  from_f32 _ value := value;
  to_f32 _ self := self;
  into_f32_slice _ weights := weights;
  size_of_weight := 4;
|}.
Next Obligation. intros p ws. simpl. by rewrite list_fmap_id. Qed.

(** ** Bit packing of a chunk *)

(** [BitPacker4x::BLOCK_LEN] *)
Definition CHUNK_SIZE : nat := 128.
#[global] Arguments CHUNK_SIZE : simpl never.

(** A block that the packer accepts: as many identifiers as fit, increasing,
    all behind the initial one. *)
Definition block_ok (initial : option N) (block : list N) : Prop :=
  length block = CHUNK_SIZE /\ StronglySorted N.lt block /\ Forall (fun x => x < 2 ^ 32)%N block /\
  match initial with Some i => Forall (fun x => i < x)%N block | None => True end.

(** The operations of [bitpacking::BitPacker4x] on strictly increasing blocks:
    the number of bits an identifier takes, the bytes of a block, a block
    written and read. *)
Class BitPacker : Type := {
  num_bits_strictly_sorted : option N -> list N -> N;
  compressed_block_size : N -> nat;
  compress_strictly_sorted : option N -> list N -> N -> list N;
  decompress_strictly_sorted : option N -> list N -> N -> list N;
  num_bits_bound initial block : block_ok initial block ->
    (num_bits_strictly_sorted initial block <= 32)%N;
  block_size_bits bits : compressed_block_size bits = N.to_nat bits * CHUNK_SIZE / 8;
  compressed_length initial block bits : block_ok initial block ->
    (num_bits_strictly_sorted initial block <= bits <= 32)%N ->
    length (compress_strictly_sorted initial block bits) = compressed_block_size bits;
  decompress_compress initial block bits : block_ok initial block ->
    (num_bits_strictly_sorted initial block <= bits <= 32)%N ->
    decompress_strictly_sorted initial (compress_strictly_sorted initial block bits) bits = block;
}.

(** ** Slices *)

(** [l[a..b]] *)
Definition get_range {A} (l : list A) (a b : nat) : option (list A) :=
  if (a <=? b) && (b <=? length l) then Some (take (b - a) (drop a l)) else None.

(** [slice::partition_point] on a slice the predicate partitions. *)
Fixpoint partition_point {A} (p : A -> bool) (l : list A) : nat :=
  match l with
  | [] => 0
  | x :: l => if p x then S (partition_point p l) else 0
  end.

(** [slice::binary_search_by_key] on a slice with increasing keys. *)
Definition binary_search_key {A} (key : A -> N) (l : list A) (target : N) : nat + nat :=
  let position := partition_point (fun x => key x <? target)%N l in
  match l !! position with
  | Some x => if (key x =? target)%N then inl position else inr position
  | None => inr position
  end.

(** [count_le_sorted] *)
Definition count_le_sorted (val : N) (data : list N) : nat :=
  if match last data with Some x => (x <? val)%N | None => true end then length data
  else match binary_search_key id data val with inl x => x + 1 | inr x => x end.

Section Compressed.
Context {W P : Type} `{Weight W P} `{BitPacker}.

(** ** Data *)

(** [GenericPostingElement] *)
Record GenericPostingElement : Type := mkGenericPostingElement { g_record_id : N; g_weight : W }.

Record CompressedPostingChunk : Type := mkCompressedPostingChunk {
  initial : N;
  offset : N;
  chunk_weights : list W;
}.

Record CompressedPostingListView : Type := mkCompressedPostingListView {
  id_data : list N;
  chunks_ : list CompressedPostingChunk;
  remainders : list GenericPostingElement;
  list_last_id : option N;
  multiplier : P;
}.

(** The owned list and its view hold the same parts. *)
Record CompressedPostingList : Type := mkCompressedPostingList {
  l_id_data : list N;
  l_chunks : list CompressedPostingChunk;
  l_remainders : list GenericPostingElement;
  l_last_id : option N;
  quantization_params : P;
}.

Definition list_view (self : CompressedPostingList) : CompressedPostingListView :=
  {| id_data := l_id_data self; chunks_ := l_chunks self; remainders := l_remainders self;
     list_last_id := l_last_id self; multiplier := quantization_params self |}.

Definition to_owned (self : CompressedPostingListView) : CompressedPostingList :=
  {| l_id_data := id_data self; l_chunks := chunks_ self; l_remainders := remainders self;
     l_last_id := list_last_id self; quantization_params := multiplier self |}.

(** ** Views *)

Definition chunks_len (self : CompressedPostingListView) : nat := length (chunks_ self).
Definition remainder_len (self : CompressedPostingListView) : nat := length (remainders self).
Definition view_len (self : CompressedPostingListView) : nat :=
  chunks_len self * CHUNK_SIZE + remainder_len self.
Definition view_is_empty (self : CompressedPostingListView) : bool :=
  (chunks_len self =? 0) && (remainder_len self =? 0).

Definition get_chunk_size (chunks : list CompressedPostingChunk) (data : list N) (chunk_index : nat)
    : option nat :=
  chunk ← chunks !! chunk_index;
  let after := if chunk_index + 1 <? length chunks
    then offset <$> chunks !! (chunk_index + 1) else Some (N.of_nat (length data)) in
  after ← after;
  N.to_nat <$> checked_sub after (offset chunk).

Definition decompress_chunk (self : CompressedPostingListView) (chunk_index : nat)
    : option (list N) :=
  chunk ← chunks_ self !! chunk_index;
  chunk_size ← get_chunk_size (chunks_ self) (id_data self) chunk_index;
  let chunk_bits := chunk_size * 8 / CHUNK_SIZE in
  let start := N.to_nat (offset chunk) in
  data ← get_range (id_data self) start (start + chunk_size);
  Some (decompress_strictly_sorted (checked_sub (initial chunk) 1) data
          (N.of_nat chunk_bits mod 2 ^ 8)).

Definition chunk_id_by_position (self : CompressedPostingListView) (position : nat) : option nat :=
  let chunk_index := position / CHUNK_SIZE in
  if chunk_index <? chunks_len self then Some chunk_index else None.

Inductive IdChunkPosition : Type :=
  | Before
  | Chunk (chunk_id : N)
  | After.

(** [None] is the panic of the subtraction of the case without remainders, on
    a list without chunks, in builds that check for overflow. *)
Definition chunk_id_by_id (self : CompressedPostingListView) (id : N) : option IdChunkPosition :=
  match binary_search_key initial (chunks_ self) id with
  | inl chunk_id => Some (Chunk (N.of_nat chunk_id))
  | inr position =>
      if position =? chunks_len self then
        match head (remainders self) with
        | Some first_remainder =>
            if (id <? g_record_id first_remainder)%N then
              Some (if 0 <? position then Chunk (N.of_nat (position - 1)) else Before)
            else Some After
        | None => if position =? 0 then None else Some (Chunk (N.of_nat (position - 1)))
        end
      else if position =? 0 then Some Before
      else Some (Chunk (N.of_nat (position - 1)))
  end.

Definition get_remainder_id (self : CompressedPostingListView) (index : nat)
    : option GenericPostingElement := remainders self !! index.

Definition get_weight (self : CompressedPostingListView) (pos : nat) : option W :=
  chunk ← chunks_ self !! (pos / CHUNK_SIZE);
  chunk_weights chunk !! (pos mod CHUNK_SIZE).

Definition weights_range (self : CompressedPostingListView) (pos count : nat) : option (list W) :=
  chunk ← chunks_ self !! (pos / CHUNK_SIZE);
  let start := pos mod CHUNK_SIZE in
  get_range (chunk_weights chunk) start (start + count).

(** Sizes in memory: fields in order, both structures aligned to four bytes. *)
Definition align4 (n : nat) : nat := (n + 3) / 4 * 4.
Definition size_of_chunk : nat := align4 (4 + 4 + CHUNK_SIZE * size_of_weight).
Definition size_of_element : nat := align4 (4 + size_of_weight).

Record CompressedPostingListStoreSize : Type := mkStoreSize {
  total : nat;
  id_data_bytes : nat;
  chunks_count : nat;
}.

Definition store_size (self : CompressedPostingListView) : CompressedPostingListStoreSize :=
  {| total := length (id_data self) + chunks_len self * size_of_chunk
       + remainder_len self * size_of_element;
     id_data_bytes := length (id_data self); chunks_count := chunks_len self |}.

(** ** Building *)

Abbreviation CompressedPostingBuilder := (list PostingElement).

Definition CompressedPostingBuilder_add (self : CompressedPostingBuilder) (record_id : N)
    (weight : float) : CompressedPostingBuilder := self ++ [(record_id, weight)].

Definition element_cmp (a b : PostingElement) : comparison := N.compare a.1 b.1.

(** The first loop: chunks with their offsets, and the rest. *)
Fixpoint push_chunks (params : P) (pieces : list (list PostingElement))
    (chunks : list CompressedPostingChunk) (data_size : nat)
    (remainders : list GenericPostingElement)
    : option (list CompressedPostingChunk * nat * list GenericPostingElement) :=
  match pieces with
  | [] => Some (chunks, data_size, remainders)
  | chunk :: pieces =>
      if length chunk =? CHUNK_SIZE then
        let this_chunk := fst <$> chunk in
        first ← head this_chunk;
        let chunk_bits := num_bits_strictly_sorted (checked_sub first 1) this_chunk in
        let chunk_size := compressed_block_size chunk_bits in
        push_chunks params pieces
          (chunks ++ [{| initial := first; offset := N.of_nat data_size mod 2 ^ 32;
                         chunk_weights := (fun e => from_f32 params e.2) <$> chunk |}])
          (data_size + chunk_size) remainders
      else
        push_chunks params pieces chunks data_size
          (remainders ++ ((fun e => mkGenericPostingElement e.1 (from_f32 params e.2)) <$> chunk))
  end.

(** Bytes written into [data[start..start + size]]. *)
Definition write_range (data : list N) (start size : nat) (bytes : list N) : option (list N) :=
  _ ← get_range data start (start + size);
  Some (take start data ++ take size bytes ++ drop (start + length (take size bytes)) data).

(** The second loop: the identifiers of every chunk, packed. *)
Fixpoint pack_chunks (chunks : list CompressedPostingChunk) (chunk_index : nat)
    (pieces : list (list PostingElement)) (id_data : list N) : option (list N) :=
  match pieces with
  | [] => Some id_data
  | chunk_data :: pieces =>
      let this_chunk := fst <$> chunk_data in
      chunk ← chunks !! chunk_index;
      chunk_size ← get_chunk_size chunks id_data chunk_index;
      let chunk_bits := chunk_size * 8 / CHUNK_SIZE in
      id_data ← write_range id_data (N.to_nat (offset chunk)) chunk_size
        (compress_strictly_sorted (checked_sub (initial chunk) 1) this_chunk
           (N.of_nat chunk_bits mod 2 ^ 8));
      pack_chunks chunks (S chunk_index) pieces id_data
  end.

(** [chunks_exact(CHUNK_SIZE)]: the full chunks. *)
Definition full_chunks (elements : list PostingElement) : list (list PostingElement) :=
  filter (fun piece => length piece = CHUNK_SIZE) (slice_chunks CHUNK_SIZE elements).

(** [CompressedPostingBuilder::build]; the check for duplicates, of debug builds
    only, is left out. *)
Definition CompressedPostingBuilder_build (self : CompressedPostingBuilder)
    : option CompressedPostingList :=
  let elements := sort_by element_cmp self in
  let params := quantization_params_for (snd <$> elements) in
  '(chunks, data_size, remainders) ← push_chunks params (slice_chunks CHUNK_SIZE elements) [] 0 [];
  data ← pack_chunks chunks 0 (full_chunks elements) (replicate data_size 0%N);
  Some {| l_id_data := data; l_chunks := chunks; l_remainders := remainders;
          l_last_id := fst <$> last elements; quantization_params := params |}.

(** ** Cursors *)

Record CompressedPostingListIterator : Type := mkCompressedPostingListIterator {
  list_ : CompressedPostingListView;
  unpacked : bool;
  decompressed_chunk : list N;
  pos : nat * option N;
}.

Implicit Types (self : CompressedPostingListIterator).

Definition view_iter (l : CompressedPostingListView) : CompressedPostingListIterator :=
  {| list_ := l; unpacked := false; decompressed_chunk := replicate CHUNK_SIZE 0%N; pos := (0, None) |}.

Definition set_pos self (p : nat * option N) : CompressedPostingListIterator :=
  {| list_ := list_ self; unpacked := unpacked self; decompressed_chunk := decompressed_chunk self;
     pos := p |}.

Definition set_unpacked self (u : bool) : CompressedPostingListIterator :=
  {| list_ := list_ self; unpacked := u; decompressed_chunk := decompressed_chunk self;
     pos := pos self |}.

Definition set_ids self (ids : list N) : CompressedPostingListIterator :=
  {| list_ := list_ self; unpacked := unpacked self; decompressed_chunk := ids; pos := pos self |}.

Definition next_from self : CompressedPostingListIterator :=
  if (pos self).1 / CHUNK_SIZE <? chunks_len (list_ self) then
    let self := set_pos self ((pos self).1 + 1, None) in
    if (pos self).1 mod CHUNK_SIZE =? 0 then set_unpacked self false else self
  else set_pos self ((pos self).1 + 1, None).

Definition cpl_peek self : option (CompressedPostingListIterator * option PostingElementEx) :=
  let p := (pos self).1 in
  if p / CHUNK_SIZE <? chunks_len (list_ self) then
    self ← (if unpacked self then Some self
            else
              ids ← decompress_chunk (list_ self) (p / CHUNK_SIZE);
              Some (set_unpacked (set_ids self ids) true));
    id ← decompressed_chunk self !! (p mod CHUNK_SIZE);
    w ← get_weight (list_ self) p;
    Some (self, Some {| record_id := id; weight := to_f32 (multiplier (list_ self)) w;
                        max_next_weight := fzero |})
  else
    Some (self, (fun e => {| record_id := g_record_id e;
                             weight := to_f32 (multiplier (list_ self)) (g_weight e);
                             max_next_weight := fzero |})
                <$> get_remainder_id (list_ self) (p - chunks_len (list_ self) * CHUNK_SIZE)).

Definition cpl_next self : option (CompressedPostingListIterator * option PostingElement) :=
  '(self, result) ← cpl_peek self;
  match result with
  | None => Some (self, None)
  | Some result => Some (next_from self, Some (to_element result))
  end.

(** The loop at the end of [skip_to]; it takes one turn per element left. *)
Fixpoint skip_loop (fuel : nat) self (record_id_ : N)
    : option (CompressedPostingListIterator * option PostingElementEx) :=
  match fuel with
  | 0 => None
  | S fuel =>
      '(self, current) ← cpl_peek self;
      match current with
      | None => Some (self, None)
      | Some current_element =>
          let self := set_pos self ((pos self).1, Some (record_id current_element)) in
          match N.compare (record_id current_element) record_id_ with
          | Eq => Some (self, Some current_element)
          | Gt => Some (self, None)
          | Lt => skip_loop fuel (next_from self) record_id_
          end
      end
  end.

Definition cpl_len_to_end self : nat := view_len (list_ self) - (pos self).1.

(** The two matches before the loop: where the loop starts, or [Some None] when
    the record can not be found any more. *)
Definition skip_start self (record_id_ : N) : option (option CompressedPostingListIterator) :=
  required_chunk_id ← chunk_id_by_id (list_ self) record_id_;
  Some match required_chunk_id, chunk_id_by_position (list_ self) (pos self).1 with
  | Chunk chunk_id, Some current_chunk_id =>
      match N.compare chunk_id (N.of_nat current_chunk_id) with
      | Lt => None
      | Eq =>
          let min_pos := N.to_nat chunk_id * CHUNK_SIZE in
          Some (set_pos self (max (pos self).1 min_pos, None))
      | Gt => Some (set_unpacked (set_pos self (N.to_nat chunk_id * CHUNK_SIZE, None)) false)
      end
  | Chunk _, None => None
  | Before, _ => None
  | After, _ =>
      let min_pos := chunks_len (list_ self) * CHUNK_SIZE in
      Some (set_unpacked (set_pos self (max (pos self).1 min_pos, None)) false)
  end.

Definition cpl_skip_to self (record_id_ : N)
    : option (CompressedPostingListIterator * option PostingElementEx) :=
  if match (pos self).2 with Some current => (record_id_ <? current)%N | None => false end
  then Some (self, None)
  else
    start ← skip_start self record_id_;
    match start with
    | None => Some (self, None)
    | Some self => skip_loop (S (cpl_len_to_end self)) self record_id_
    end.

Definition cpl_skip_to_end self : CompressedPostingListIterator :=
  set_pos self (chunks_len (list_ self) * CHUNK_SIZE + remainder_len (list_ self), None).

Definition cpl_skip_till_id self (id : N) : option CompressedPostingListIterator :=
  '(self, found) ← cpl_skip_to self id;
  Some (match found with Some _ => next_from self | None => self end).

(** ** Traversals *)

(** The loop over chunks of [for_each_till_id]; the flag of the result says
    that the traversal ended inside of a chunk. *)
Fixpoint till_chunks {Ctx} (fuel : nat) self (id : N) (ctx : Ctx) (f : Ctx -> N -> float -> Ctx)
    (p : nat) (need_unpack : bool) : option (CompressedPostingListIterator * Ctx * nat * bool) :=
  if p / CHUNK_SIZE <? chunks_len (list_ self) then
    match fuel with
    | 0 => None
    | S fuel =>
        self ← (if need_unpack then
                  ids ← decompress_chunk (list_ self) (p / CHUNK_SIZE); Some (set_ids self ids)
                else Some self);
        let start := p mod CHUNK_SIZE in
        tail_ ← get_range (decompressed_chunk self) start (length (decompressed_chunk self));
        let count := count_le_sorted id tail_ in
        weights ← weights_range (list_ self) p count;
        let weights := into_f32_slice (multiplier (list_ self)) weights in
        ids ← get_range (decompressed_chunk self) start (start + count);
        let ctx := fold_left (fun c '(i, w) => f c i w) (zip ids weights) ctx in
        let p := p + count in
        if start + count =? CHUNK_SIZE then till_chunks fuel self id ctx f p true
        else Some (set_pos (set_unpacked self true) (p, None), ctx, p, true)
    end
  else Some (self, ctx, p, false).

Fixpoint till_remainders {Ctx} (multiplier : P) (id : N) (f : Ctx -> N -> float -> Ctx)
    (es : list GenericPostingElement) (p : nat) (ctx : Ctx) : nat * Ctx :=
  match es with
  | [] => (p, ctx)
  | e :: es =>
      if (id <? g_record_id e)%N then (p, ctx)
      else till_remainders multiplier id f es (p + 1) (f ctx (g_record_id e) (to_f32 multiplier (g_weight e)))
  end.

Definition cpl_for_each_till_id {Ctx} self (id : N) (ctx : Ctx) (f : Ctx -> N -> float -> Ctx)
    : option (CompressedPostingListIterator * Ctx) :=
  '(self, ctx, p, ended) ←
    till_chunks (S (chunks_len (list_ self))) self id ctx f (pos self).1 (negb (unpacked self));
  if (ended : bool) then Some (self, ctx)
  else
    let index := p - chunks_len (list_ self) * CHUNK_SIZE in
    es ← get_range (remainders (list_ self)) index (remainder_len (list_ self));
    let '(p, ctx) := till_remainders (multiplier (list_ self)) id f es p ctx in
    Some (set_pos self (p, None), ctx).

(** The loop over chunks of [for_each_in_id_range], from a chunk on. *)
Fixpoint range_chunks {Ctx} (l : CompressedPostingListView) (start end_ : N)
    (f : Ctx -> N -> float -> Ctx) (chunk_index : nat) (cs : list CompressedPostingChunk)
    (ctx : Ctx) (visited : nat) : option (Ctx * nat) :=
  match cs with
  | [] => Some (ctx, visited)
  | chunk :: cs =>
      if (end_ <? initial chunk)%N then Some (ctx, visited)
      else
        ids ← decompress_chunk l chunk_index;
        let local_start := partition_point (fun id => id <? start)%N ids in
        let local_end := partition_point (fun id => id <=? end_)%N ids in
        let count := local_end - local_start in
        if count =? 0 then range_chunks l start end_ f (S chunk_index) cs ctx visited
        else
          let position := chunk_index * CHUNK_SIZE + local_start in
          weights ← weights_range l position count;
          let weights := into_f32_slice (multiplier l) weights in
          ids ← get_range ids local_start local_end;
          let ctx := fold_left (fun c '(i, w) => f c i w) (zip ids weights) ctx in
          let visited := visited + count in
          if local_end =? CHUNK_SIZE
          then range_chunks l start end_ f (S chunk_index) cs ctx visited
          else Some (ctx, visited)
  end.

Fixpoint take_records (id : N) (es : list GenericPostingElement) : list GenericPostingElement :=
  match es with
  | [] => []
  | e :: es => if (g_record_id e <=? id)%N then e :: take_records id es else []
  end.

Definition cpl_for_each_in_id_range {Ctx} self (start end_ : N) (ctx : Ctx)
    (f : Ctx -> N -> float -> Ctx) : option (Ctx * nat) :=
  if (end_ <? start)%N then Some (ctx, 0)
  else
    let l := list_ self in
    let first_chunk := partition_point (fun chunk => initial chunk <=? start)%N (chunks_ l) - 1 in
    '(ctx, visited) ← range_chunks (Ctx := Ctx) l start end_ f first_chunk (drop first_chunk (chunks_ l)) ctx 0;
    let remainder_start := partition_point (fun e => g_record_id e <? start)%N (remainders l) in
    let visits := take_records end_ (drop remainder_start (remainders l)) in
    Some (fold_left (fun '(ctx, visited) e =>
            (f ctx (g_record_id e) (to_f32 (multiplier l) (g_weight e)), visited + 1)) visits (ctx, visited)).

(** ** Maxima *)

Definition decoded_chunk_max (params : P) (chunk : CompressedPostingChunk) : float :=
  fold_left fmax (to_f32 params <$> chunk_weights chunk) fzero.

Definition cpl_max_weight_till_id self (id : N) : option float :=
  let l := list_ self in
  let chunk_count := chunks_len l in
  let current_chunk := (pos self).1 / CHUNK_SIZE in
  maximum ←
    (if current_chunk <? chunk_count then
       let end_chunk := partition_point (fun chunk => initial chunk <=? id)%N (chunks_ l) in
       cs ← get_range (chunks_ l) current_chunk end_chunk;
       Some (fold_left fmax (decoded_chunk_max (multiplier l) <$> cs) fzero)
     else Some fzero);
  let remainder_start := (pos self).1 - chunk_count * CHUNK_SIZE in
  if (chunk_count * CHUNK_SIZE <=? (pos self).1)
     || match head (remainders l) with Some e => (g_record_id e <=? id)%N | None => false end then
    es ← get_range (remainders l) remainder_start (remainder_len l);
    Some (fold_left fmax ((fun e => to_f32 (multiplier l) (g_weight e)) <$> take_records id es) maximum)
  else Some maximum.

Definition remainder_max (l : CompressedPostingListView) : option float :=
  if remainder_len l =? 0 then None
  else Some (fold_left fmax ((fun e => to_f32 (multiplier l) (g_weight e)) <$> remainders l) fzero).

Definition or_else {A} (a b : option A) : option A := match a with Some _ => a | None => b end.

Definition cpl_block_max_endpoints self : option (float * float) :=
  let l := list_ self in
  first ← or_else (decoded_chunk_max (multiplier l) <$> head (chunks_ l)) (remainder_max l);
  last_ ← or_else (remainder_max l) (decoded_chunk_max (multiplier l) <$> last (chunks_ l));
  Some (first, last_).

(** The inner loop of [fill_block_max_ranges]: the ranges from the first to the
    last that exist are raised. *)
Definition raise_ranges (first_range last_range : N) (maximum : float) (maxima : list float)
    : list float :=
  imap (fun range bound =>
    if (first_range <=? N.of_nat range)%N && (N.of_nat range <=? last_range)%N
    then fmax bound maximum else bound) maxima.

(** The last record a chunk may hold. *)
Definition covered_end (l : CompressedPostingListView) (chunk_index : nat)
    (chunk : CompressedPostingChunk) : N :=
  default (initial chunk)
    (or_else ((fun next => initial next - 1)%N <$> chunks_ l !! (chunk_index + 1))
       (or_else ((fun e => g_record_id e - 1)%N <$> head (remainders l)) (list_last_id l))).

Fixpoint fill_chunks (l : CompressedPostingListView) (range_start range_width : N)
    (chunk_index : nat) (cs : list CompressedPostingChunk) (maxima : list float) : list float :=
  match cs with
  | [] => maxima
  | chunk :: cs =>
      let first_range := ((initial chunk - range_start) / range_width)%N in
      let last_range := ((covered_end l chunk_index chunk - range_start) / range_width)%N in
      fill_chunks l range_start range_width (S chunk_index) cs
        (raise_ranges first_range last_range (decoded_chunk_max (multiplier l) chunk) maxima)
  end.

Definition fill_remainder (l : CompressedPostingListView) (range_start range_width : N)
    (maxima : list float) (e : GenericPostingElement) : list float :=
  let range := N.to_nat ((g_record_id e - range_start) / range_width) in
  alter (fun bound => fmax bound (to_f32 (multiplier l) (g_weight e))) range maxima.

(** Every chunk and every remaining element divides by the width: [None] is the
    panic of a division by zero. *)
Definition cpl_fill_block_max_ranges self (range_start range_width : N) (maxima : list float)
    : option (list float) :=
  let l := list_ self in
  if (range_width =? 0)%N && negb ((length (chunks_ l) =? 0) && (length (remainders l) =? 0)) then None
  else
    Some (fold_left (fill_remainder l range_start range_width) (remainders l)
      (fill_chunks l range_start range_width 0 (chunks_ l) ((fun _ => fzero) <$> maxima))).

(** What [CompressedPostingListStdIterator] yields. *)
Fixpoint collect (fuel : nat) self : option (list PostingElement) :=
  match fuel with
  | 0 => None
  | S fuel =>
      '(self, element) ← cpl_next self;
      match element with
      | None => Some []
      | Some e => es ← collect fuel self; Some (e :: es)
      end
  end.

Definition cpl_into_std_iter self : option (list PostingElement) := collect (S (cpl_len_to_end self)) self.

(** The trait.  A panic has no place in its types and leaves the cursor alone
    here.  That is what [skip_to] does on a list without elements in builds that
    do not check for overflow: the wrapped index is behind every chunk. *)
#[export] Instance CompressedPostingListIterator_iter : PostingListIter CompressedPostingListIterator := {|
  peek self := default (self, None) (cpl_peek self);
  last_id self := list_last_id (list_ self);
  element_size _ := size_of_weight;
  skip_to self id := default (self, None) (cpl_skip_to self id);
  skip_to_end := cpl_skip_to_end;
  len_to_end := cpl_len_to_end;
  cursor_index self := (pos self).1;
  for_each_till_id Ctx self id ctx f := default (self, ctx) (cpl_for_each_till_id self id ctx f);
  for_each_in_id_range Ctx self start end_ ctx f := default (ctx, 0) (cpl_for_each_in_id_range self start end_ ctx f);
  reliable_max_next_weight := false;
  reliable_block_max := true;
  max_weight_till_id self id := (self, cpl_max_weight_till_id self id);
  skip_till_id self id := default self (cpl_skip_till_id self id);
  block_max_endpoints := cpl_block_max_endpoints;
  fill_block_max_ranges self start width maxima := Some (default maxima (cpl_fill_block_max_ranges self start width maxima));
  into_std_iter self := default [] (cpl_into_std_iter self);
|}.
End Compressed.
