(* ===== verification/CompressedLaws.v ===== *)
(** * Compressed posting lists keep the laws of cursors

    The entries of a view are its unpacked identifiers with their decoded
    weights.  A view is well formed when its chunks unpack, the entries are
    sorted and the last identifier is recorded; a cursor when its position is
    in the list and what it has unpacked belongs there.  Every operation of a
    well-formed cursor returns, and does to the entries left what
    [LawfulPosting] asks for. *)

From S2P Require Import Prelude Float Order PointId RrfScoring Postings MachineInt CompressedPostings.

#[local] Arguments Nat.div : simpl never.
#[local] Arguments Nat.modulo : simpl never.
#[local] Arguments Nat.mul : simpl never.

Lemma chunk_size_pos : 0 < CHUNK_SIZE.
Proof. unfold CHUNK_SIZE. lia. Qed.

(** ** Lists cut into pieces of one length *)

Lemma join_lookup {A} k (ls : list (list A)) r p :
  0 < k -> Forall (fun l => length l = k) ls ->
  (mjoin ls ++ r) !! p =
    if p / k <? length ls then l ← ls !! (p / k); l !! (p mod k) else r !! (p - length ls * k).
Proof.
  intros Hk Hls. revert p. induction Hls as [|l ls Hl Hls IH]; intros p; simpl.
  { f_equal. lia. }
  rewrite <- app_assoc. destruct (Nat.lt_ge_cases p k) as [Hp|Hp].
  - rewrite Nat.div_small, Nat.mod_small by done. simpl. by rewrite lookup_app_l by lia.
  - rewrite lookup_app_r, IH, Hl by lia. assert (E : p = p - k + 1 * k) by lia.
    assert (Ed : p / k = S ((p - k) / k)) by (rewrite E at 1; rewrite Nat.div_add by lia; lia).
    assert (Em : p mod k = (p - k) mod k) by (rewrite E at 1; by rewrite Nat.Div0.mod_add).
    rewrite Ed, Em. simpl. destruct (Nat.ltb_spec ((p - k) / k) (length ls)).
    + by rewrite (proj2 (Nat.ltb_lt _ _)) by lia.
    + rewrite (proj2 (Nat.ltb_ge _ _)) by lia. f_equal. lia.
Qed.

Lemma sorted_lookup {A} (R : A -> A -> Prop) l i j x y :
  StronglySorted R l -> i < j -> l !! i = Some x -> l !! j = Some y -> R x y.
Proof.
  intros Hs. revert i j. induction Hs as [|a l Hl IH Ha]; intros i j Hij Hx Hy; [done |].
  destruct j as [|j]; [lia |]. destruct i as [|i]; simpl in *.
  - injection Hx as ->. rewrite Forall_forall in Ha. apply Ha. by eapply list_elem_of_lookup_2.
  - apply (IH i j); [lia | done | done].
Qed.

Lemma get_range_Some {A} (l : list A) a b :
  a <= b -> b <= length l -> get_range l a b = Some (take (b - a) (drop a l)).
Proof.
  intros Ha Hb. unfold get_range. by rewrite (proj2 (Nat.leb_le a b) Ha), (proj2 (Nat.leb_le _ _) Hb).
Qed.

Lemma partition_point_spec {A} (p : A -> bool) l :
  partition_point p l <= length l /\
  (forall i x, i < partition_point p l -> l !! i = Some x -> p x = true) /\
  (forall x, l !! partition_point p l = Some x -> p x = false).
Proof.
  induction l as [|a l (IH1 & IH2 & IH3)]; simpl; [split_and!; [lia | intros; lia | done] |].
  destruct (p a) eqn:Ep; split_and!; simpl; try lia.
  - intros [|i] x Hi; simpl; [by intros [= ->] | apply IH2; lia].
  - apply IH3.
  - by intros x [= ->].
Qed.

(** Where a predicate stops to hold, on a list sorted so that it does not
    start again. *)
Lemma partition_point_filter {A} (P : A -> Prop) `{forall x, Decision (P x)} (p : A -> bool) (R : A -> A -> Prop) l :
  (forall x, p x = true <-> P x) -> (forall x y, R x y -> P y -> P x) -> StronglySorted R l ->
  take (partition_point p l) l = filter P l /\ Forall (fun x => ~ P x) (drop (partition_point p l) l).
Proof.
  intros Hp HR. induction 1 as [|a l Hl [IH1 IH2] Ha]; simpl; [done |].
  rewrite filter_cons. destruct (p a) eqn:Ep.
  - rewrite decide_True by by apply Hp. simpl. by rewrite IH1.
  - assert (~ P a) by (rewrite <- Hp; congruence). rewrite decide_False by done.
    assert (Hn : Forall (fun x => ~ P x) (a :: l)).
    { constructor; [done |]. eapply Forall_impl; [exact Ha |]. simpl. intros y Hy ?. eauto. }
    split; [|done]. simpl. symmetry. apply filter_nil. by apply Forall_cons in Hn as [_ ?].
Qed.

Section Laws.
Context {W P : Type} `{HW : Weight W P} `{HB : BitPacker}.
Local Abbreviation view := (@CompressedPostingListView W P).
Local Abbreviation cursor := (@CompressedPostingListIterator W P).
Implicit Types (v : view) (it : cursor).

(** ** Entries *)

Definition chunk_entries v (i : nat) c : list PostingElement :=
  zip (default [] (decompress_chunk v i)) (to_f32 (multiplier v) <$> chunk_weights c).

Definition element_entry v (e : @GenericPostingElement W) : PostingElement :=
  (g_record_id e, to_f32 (multiplier v) (g_weight e)).

Definition view_entries v : list PostingElement :=
  mjoin (imap (chunk_entries v) (chunks_ v)) ++ (element_entry v <$> remainders v).

Record chunk_ok v (i : nat) (c : @CompressedPostingChunk W) (ids : list N) : Prop := {
  co_unpacks : decompress_chunk v i = Some ids;
  co_length : length ids = CHUNK_SIZE;
  co_weights : length (chunk_weights c) = CHUNK_SIZE;
  co_first : head ids = Some (initial c);
}.

Record view_ok v : Prop := {
  vo_chunks i c : chunks_ v !! i = Some c -> exists ids, chunk_ok v i c ids;
  vo_sorted : StronglySorted by_record (view_entries v);
  vo_last : list_last_id v = fst <$> last (view_entries v);
  vo_fits : (N.of_nat (chunks_len v) < 2 ^ 64)%N;
}.

Lemma chunk_entries_ok v i c ids :
  chunk_ok v i c ids -> chunk_entries v i c = zip ids (to_f32 (multiplier v) <$> chunk_weights c).
Proof. intros [E _ _ _]. unfold chunk_entries. by rewrite E. Qed.

Lemma chunk_entries_length v i c ids : chunk_ok v i c ids -> length (chunk_entries v i c) = CHUNK_SIZE.
Proof.
  intros Hc. rewrite (chunk_entries_ok v i c ids Hc). destruct Hc as [_ Hl Hw _].
  by rewrite length_zip_with, length_fmap, Hl, Hw, Nat.min_id.
Qed.

Lemma pieces_uniform v : view_ok v ->
  Forall (fun l => length l = CHUNK_SIZE) (imap (chunk_entries v) (chunks_ v)).
Proof.
  intros Hv. apply Forall_lookup. intros i l. rewrite list_lookup_imap.
  destruct (chunks_ v !! i) as [c|] eqn:E; [|done]. intros [= <-].
  destruct (vo_chunks v Hv i c E) as [ids Hc]. by eapply chunk_entries_length.
Qed.

Lemma entries_lookup v p : view_ok v ->
  view_entries v !! p =
    if p / CHUNK_SIZE <? chunks_len v
    then c ← chunks_ v !! (p / CHUNK_SIZE); chunk_entries v (p / CHUNK_SIZE) c !! (p mod CHUNK_SIZE)
    else element_entry v <$> remainders v !! (p - chunks_len v * CHUNK_SIZE).
Proof.
  intros Hv. unfold view_entries, chunks_len.
  rewrite (join_lookup CHUNK_SIZE) by (apply chunk_size_pos || by apply pieces_uniform).
  rewrite length_imap, list_lookup_imap, list_lookup_fmap. destruct (_ <? _); [|done].
  by destruct (chunks_ v !! (p / CHUNK_SIZE)).
Qed.

Lemma entries_length v : view_ok v -> length (view_entries v) = view_len v.
Proof.
  intros Hv. unfold view_entries, view_len, remainder_len. rewrite length_app, length_fmap. f_equal.
  pose proof (pieces_uniform v Hv) as Hp. unfold chunks_len. rewrite <- (length_imap (chunk_entries v)).
  induction Hp as [|l ls Hl Hp IH]; [done |]. change (mjoin (l :: ls)) with (l ++ mjoin ls).
  rewrite length_app, Hl, IH. cbn [length]. lia.
Qed.

(** The entries of a chunk, by position. *)
Lemma chunk_lookup v p c ids :
  view_ok v -> chunks_ v !! (p / CHUNK_SIZE) = Some c -> chunk_ok v (p / CHUNK_SIZE) c ids ->
  exists id w, ids !! (p mod CHUNK_SIZE) = Some id /\ chunk_weights c !! (p mod CHUNK_SIZE) = Some w /\
    view_entries v !! p = Some (id, to_f32 (multiplier v) w).
Proof.
  intros Hv Hc Hok. rewrite entries_lookup by done.
  assert (Hlt : p / CHUNK_SIZE < chunks_len v) by by eapply lookup_lt_Some.
  rewrite (proj2 (Nat.ltb_lt _ _) Hlt), Hc. simpl. rewrite (chunk_entries_ok v _ c ids Hok).
  destruct Hok as [_ Hl Hw _]. pose proof (Nat.mod_upper_bound p CHUNK_SIZE ltac:(pose proof chunk_size_pos; lia)).
  destruct (lookup_lt_is_Some_2 ids (p mod CHUNK_SIZE)) as [id Hid]; [lia |].
  destruct (lookup_lt_is_Some_2 (chunk_weights c) (p mod CHUNK_SIZE)) as [w Hw']; [lia |].
  exists id, w. split_and!; [done | done |]. rewrite lookup_zip_with, Hid. simpl.
  by rewrite list_lookup_fmap, Hw'.
Qed.

(** The first entry of a chunk carries its initial record. *)
Lemma initial_entry v k c :
  view_ok v -> chunks_ v !! k = Some c ->
  exists e, view_entries v !! (k * CHUNK_SIZE) = Some e /\ e.1 = initial c.
Proof.
  intros Hv Hc. destruct (vo_chunks v Hv k c Hc) as [ids Hok].
  pose proof chunk_size_pos. assert (Ek : k * CHUNK_SIZE / CHUNK_SIZE = k) by (apply Nat.div_mul; lia).
  destruct (chunk_lookup v (k * CHUNK_SIZE) c ids) as (id & w & Hid & _ & E); [done | by rewrite Ek.. |].
  rewrite Nat.Div0.mod_mul in Hid. eexists. split; [exact E |]. simpl.
  pose proof (co_first _ _ _ _ Hok) as Hf. destruct ids; [done |]. simpl in *. congruence.
Qed.

Lemma remainder_entry v i e :
  view_ok v -> remainders v !! i = Some e ->
  view_entries v !! (chunks_len v * CHUNK_SIZE + i) = Some (element_entry v e).
Proof.
  intros Hv He. rewrite entries_lookup by done. pose proof chunk_size_pos.
  rewrite (proj2 (Nat.ltb_ge _ _)) by (apply Nat.div_le_lower_bound; lia).
  by rewrite (Nat.add_comm _ i), Nat.add_sub, He.
Qed.

Lemma entry_lt v i j a b :
  view_ok v -> i < j -> view_entries v !! i = Some a -> view_entries v !! j = Some b -> (a.1 < b.1)%N.
Proof. intros Hv. apply (sorted_lookup by_record), (vo_sorted v Hv). Qed.

Lemma entry_le v i j a b :
  view_ok v -> i <= j -> view_entries v !! i = Some a -> view_entries v !! j = Some b -> (a.1 <= b.1)%N.
Proof.
  intros Hv Hij Ha Hb. destruct (Nat.eq_dec i j) as [->|]; [rewrite Ha in Hb; injection Hb as ->; lia |].
  apply N.lt_le_incl, (entry_lt v i j); [done | lia | done | done].
Qed.

(** ** Cursors *)

Definition cpl_entries it : list PostingElement := view_entries (list_ it).
Definition cpl_rest it : list PostingElement := drop (pos it).1 (cpl_entries it).

Record cursor_ok it : Prop := {
  cu_view : view_ok (list_ it);
  cu_pos : (pos it).1 <= length (cpl_entries it);
  cu_unpacked : unpacked it = true -> (pos it).1 / CHUNK_SIZE < chunks_len (list_ it) ->
    decompress_chunk (list_ it) ((pos it).1 / CHUNK_SIZE) = Some (decompressed_chunk it);
  cu_current id : (pos it).2 = Some id -> exists e, cpl_entries it !! (pos it).1 = Some e /\ e.1 = id;
}.

Lemma rest_cons it e :
  cpl_entries it !! (pos it).1 = Some e -> cpl_rest it = e :: drop ((pos it).1 + 1) (cpl_entries it).
Proof. intros E. unfold cpl_rest. rewrite Nat.add_1_r. by apply drop_S. Qed.

Lemma rest_nil it : cpl_entries it !! (pos it).1 = None -> cpl_rest it = [].
Proof. intros E%lookup_ge_None. by apply drop_ge. Qed.

Lemma rest_sorted it : cursor_ok it -> StronglySorted by_record (cpl_rest it).
Proof.
  intros Hok. pose proof (vo_sorted _ (cu_view _ Hok)) as Hs. unfold cpl_rest, cpl_entries.
  rewrite <- (take_drop (pos it).1 (view_entries (list_ it))) in Hs. by apply StronglySorted_app_r in Hs.
Qed.

(** [peek] unpacks the chunk if need be and returns the entry in front. *)
Lemma peek_returns it : cursor_ok it ->
  exists it' r, cpl_peek it = Some (it', r) /\ cursor_ok it' /\ list_ it' = list_ it /\
    pos it' = pos it /\ to_element <$> r = cpl_entries it !! (pos it).1.
Proof.
  intros Hok. pose proof (cu_view _ Hok) as Hv. unfold cpl_peek, cpl_entries.
  destruct (Nat.ltb_spec ((pos it).1 / CHUNK_SIZE) (chunks_len (list_ it))) as [Hlt|Hge].
  - destruct (lookup_lt_is_Some_2 _ _ Hlt) as [c Hc]. destruct (vo_chunks _ Hv _ c Hc) as [ids Hcok].
    destruct (chunk_lookup _ _ c ids Hv Hc Hcok) as (id & w & Hid & Hw & E).
    assert (Hu : exists it', (if unpacked it then Some it
        else ids ← decompress_chunk (list_ it) ((pos it).1 / CHUNK_SIZE);
             Some (set_unpacked (set_ids it ids) true)) = Some it' /\
        decompressed_chunk it' = ids /\ cursor_ok it' /\ list_ it' = list_ it /\ pos it' = pos it).
    { destruct (unpacked it) eqn:Eu.
      - exists it. split_and!; try done. pose proof (cu_unpacked _ Hok Eu Hlt) as Ed.
        rewrite (co_unpacks _ _ _ _ Hcok) in Ed. congruence.
      - rewrite (co_unpacks _ _ _ _ Hcok). eexists. split; [done |]. split_and!; try done.
        destruct Hok as [H1 H2 H3 H4]. split; try done. simpl. intros _ _. apply (co_unpacks _ _ _ _ Hcok). }
    destruct Hu as (it' & -> & Ed & Hok' & El & Ep). cbn [mbind option_bind]. rewrite Ed, Hid.
    cbn [mbind option_bind]. unfold get_weight. rewrite El, Hc. cbn [mbind option_bind]. rewrite Hw.
    cbn [mbind option_bind]. eexists _, _. split; [done |]. split_and!; try done.
  - eexists _, _. split; [done |]. split_and!; try done. rewrite entries_lookup by done.
    rewrite (proj2 (Nat.ltb_ge _ _) Hge). unfold get_remainder_id. by destruct (_ !! _).
Qed.

Lemma next_from_ok it : cursor_ok it -> (pos it).1 < length (cpl_entries it) ->
  cursor_ok (next_from it) /\ list_ (next_from it) = list_ it /\ pos (next_from it) = ((pos it).1 + 1, None).
Proof.
  intros Hok Hlt. pose proof chunk_size_pos. unfold next_from.
  destruct (Nat.ltb_spec ((pos it).1 / CHUNK_SIZE) (chunks_len (list_ it))) as [Hin|Hout]; simpl.
  - destruct (Nat.eqb_spec (((pos it).1 + 1) mod CHUNK_SIZE) 0) as [Em|Em]; simpl; split; try done.
    + split; simpl; try done; [apply Hok |]. unfold cpl_entries in *. simpl. lia.
    + assert (Ed : ((pos it).1 + 1) / CHUNK_SIZE = (pos it).1 / CHUNK_SIZE).
      { pose proof (Nat.div_mod_eq (pos it).1 CHUNK_SIZE) as E1. pose proof (Nat.div_mod_eq ((pos it).1 + 1) CHUNK_SIZE) as E2.
        pose proof (Nat.mod_upper_bound (pos it).1 CHUNK_SIZE ltac:(lia)).
        pose proof (Nat.mod_upper_bound ((pos it).1 + 1) CHUNK_SIZE ltac:(lia)). symmetry.
        apply (Nat.div_unique _ _ _ ((pos it).1 mod CHUNK_SIZE + 1)); [|lia].
        destruct (Nat.eq_dec ((pos it).1 mod CHUNK_SIZE + 1) CHUNK_SIZE) as [Ee|]; [|lia]. exfalso. apply Em.
        replace ((pos it).1 + 1) with (0 + ((pos it).1 / CHUNK_SIZE + 1) * CHUNK_SIZE) by lia.
        rewrite Nat.Div0.mod_add. by apply Nat.Div0.mod_0_l. }
      split; simpl; try done; [apply Hok | unfold cpl_entries in *; simpl; lia |].
      rewrite Ed. apply Hok.
  - split; [|done]. split; simpl; try done; [apply Hok | unfold cpl_entries in *; simpl; lia |].
    intros _ Hin. exfalso. assert ((pos it).1 / CHUNK_SIZE <= ((pos it).1 + 1) / CHUNK_SIZE); [|lia].
    apply Nat.Div0.div_le_mono. lia.
Qed.

Lemma same_entries it it' : list_ it' = list_ it -> cpl_entries it' = cpl_entries it.
Proof. unfold cpl_entries. by intros ->. Qed.

Lemma same_rest it it' : list_ it' = list_ it -> pos it' = pos it -> cpl_rest it' = cpl_rest it.
Proof. intros El Ep. unfold cpl_rest. by rewrite (same_entries it it' El), Ep. Qed.

Lemma remember_ok it e : cursor_ok it -> cpl_entries it !! (pos it).1 = Some e ->
  cursor_ok (set_pos it ((pos it).1, Some e.1)).
Proof. intros [H1 H2 H3 H4] He. split; try done. simpl. intros id [= <-]. eauto. Qed.

Lemma len_to_end_rest it : cursor_ok it -> cpl_len_to_end it = length (cpl_rest it).
Proof.
  intros Hok. unfold cpl_len_to_end, cpl_rest, cpl_entries.
  by rewrite length_drop, (entries_length _ (cu_view _ Hok)).
Qed.

(** What [skip_to] leaves and finds. *)
Definition skipped it (id : N) it' (r : option PostingElementEx) : Prop :=
  cursor_ok it' /\ list_ it' = list_ it /\
  cpl_rest it' = filter (fun e => id <= e.1)%N (cpl_rest it) /\
  to_element <$> r = head (filter (fun e => e.1 = id) (cpl_rest it)) /\
  (is_Some r -> (pos it').1 < length (cpl_entries it')).

Lemma filter_none_before id (l : list PostingElement) :
  Forall (fun e => id < e.1)%N l ->
  filter (fun e => id <= e.1)%N l = l /\ filter (fun e => e.1 = id) l = [].
Proof.
  intros Hl. split; [apply filter_id | apply filter_nil]; (eapply Forall_impl; [exact Hl |]); simpl; lia.
Qed.

Lemma skip_loop_returns fuel it id : cursor_ok it -> cpl_len_to_end it < fuel ->
  exists it' r, skip_loop fuel it id = Some (it', r) /\ skipped it id it' r.
Proof.
  revert it. induction fuel as [|fuel IH]; intros it Hok Hf; [lia |]. cbn [skip_loop].
  destruct (peek_returns it Hok) as (it1 & r & -> & Hok1 & El & Ep & Er). cbn [mbind option_bind].
  assert (Hr : cpl_rest it1 = cpl_rest it) by by apply same_rest.
  destruct r as [x|]; simpl in Er.
  2: { exists it1, None. split; [done |]. unfold skipped. rewrite (rest_nil it) by done. split_and!; try done.
       by rewrite Hr, rest_nil. }
  symmetry in Er. set (it2 := set_pos it1 ((pos it1).1, Some (record_id x))).
  assert (Hent : cpl_entries it1 = cpl_entries it) by by apply same_entries.
  assert (Hok2 : cursor_ok it2).
  { apply (remember_ok it1 (to_element x)); [done |]. by rewrite Hent, Ep. }
  assert (Hr2 : cpl_rest it2 = cpl_rest it) by (unfold it2, cpl_rest in *; simpl; exact Hr).
  pose proof (rest_cons it _ Er) as Ec. pose proof (rest_sorted it Hok) as Hs. rewrite Ec in Hs.
  assert (Hin : (pos it2).1 < length (cpl_entries it2)).
  { unfold it2. simpl. rewrite Ep. change (cpl_entries (set_pos it1 _)) with (cpl_entries it1).
    rewrite Hent. by eapply lookup_lt_Some. }
  destruct (N.compare_spec (record_id x) id) as [E|Hlt|Hgt].
  - exists it2, (Some x). split; [done |]. split_and!; try done.
    + rewrite Hr2, Ec, filter_from; [done | done | simpl; lia].
    + rewrite Ec, filter_cons_True by done. done.
  - destruct (next_from_ok it2 Hok2 Hin) as (Hok3 & El3 & Ep3).
    assert (Hr3 : cpl_rest (next_from it2) = drop ((pos it).1 + 1) (cpl_entries it)).
    { unfold cpl_rest. rewrite Ep3, (same_entries it2 _ El3). simpl. rewrite Ep.
      change (cpl_entries it2) with (cpl_entries it1). by rewrite Hent. }
    destruct (IH (next_from it2)) as (it' & r & E & Hk & Hl & H1 & H2 & H3); [done | |].
    { rewrite (len_to_end_rest it Hok), Ec in Hf. rewrite len_to_end_rest, Hr3 by done. simpl in Hf. lia. }
    exists it', r. split; [done |].
    rewrite Hr3 in H1, H2. split_and!; try done.
    + rewrite Hl, El3. done.
    + rewrite Ec, filter_cons_False; [done | simpl; lia].
    + rewrite Ec, filter_cons_False; [done | simpl; lia].
  - exists it2, None. split; [done |]. destruct (filter_none_before id (cpl_rest it)) as [F1 F2].
    { rewrite Ec. apply by_record_cons in Hs as [_ Hs]. constructor; [done |].
      eapply Forall_impl; [exact Hs |]. unfold by_record. simpl. lia. }
    unfold skipped. rewrite F2. split_and!; try done. by rewrite Hr2, F1.
Qed.

(** *** Finding the chunk *)

Lemma binary_search_key_spec {A} (key : A -> N) l target :
  match binary_search_key key l target with
  | inl i => exists x, l !! i = Some x /\ key x = target
  | inr i => i <= length l /\ (forall j x, j < i -> l !! j = Some x -> (key x < target)%N) /\
      (forall x, l !! i = Some x -> (target < key x)%N)
  end.
Proof.
  unfold binary_search_key. set (p := fun x => (key x <? target)%N).
  destruct (partition_point_spec p l) as (H1 & H2 & H3). destruct (l !! partition_point p l) as [x|] eqn:E.
  - destruct (N.eqb_spec (key x) target) as [Ek|Ek]; [by exists x |]. split_and!; [done | |].
    + intros j y Hj Hy. apply N.ltb_lt. by apply (H2 j).
    + intros y Hy. rewrite E in Hy. injection Hy as <-. specialize (H3 x eq_refl).
      apply N.ltb_ge in H3. lia.
  - split_and!; [done | | by rewrite E]. intros j y Hj Hy. apply N.ltb_lt. by apply (H2 j).
Qed.

(** The entries before a chunk that starts at or before a record, and behind
    one that starts after it. *)
Lemma before_chunk v k c id p e :
  view_ok v -> chunks_ v !! k = Some c -> (initial c <= id)%N -> p < k * CHUNK_SIZE ->
  view_entries v !! p = Some e -> (e.1 < id)%N.
Proof.
  intros Hv Hc Hle Hp He. destruct (initial_entry v k c Hv Hc) as (x & Hx & Ex).
  pose proof (entry_lt v p _ e x Hv Hp He Hx). lia.
Qed.

Lemma after_chunk v k c id p e :
  view_ok v -> chunks_ v !! k = Some c -> (id < initial c)%N -> k * CHUNK_SIZE <= p ->
  view_entries v !! p = Some e -> (id < e.1)%N.
Proof.
  intros Hv Hc Hlt Hp He. destruct (initial_entry v k c Hv Hc) as (x & Hx & Ex).
  pose proof (entry_le v _ p x e Hv Hp Hx He). lia.
Qed.

Lemma head_remainder v r p e :
  view_ok v -> head (remainders v) = Some r -> view_entries v !! p = Some e ->
  (chunks_len v * CHUNK_SIZE <= p -> (g_record_id r <= e.1)%N) /\
  (p < chunks_len v * CHUNK_SIZE -> (e.1 < g_record_id r)%N).
Proof.
  intros Hv Hr He. assert (Hr0 : remainders v !! 0 = Some r) by by destruct (remainders v).
  pose proof (remainder_entry v 0 r Hv Hr0) as Hx. rewrite Nat.add_0_r in Hx. split; intros Hp.
  - by apply (entry_le v _ p _ e Hv Hp Hx He).
  - by apply (entry_lt v p _ e _ Hv Hp He Hx).
Qed.

Lemma chunk_id_by_id_spec v id : view_ok v ->
  match chunk_id_by_id v id with
  | None => view_entries v = []
  | Some Before => Forall (fun e => id < e.1)%N (view_entries v)
  | Some (Chunk n) =>
      exists k, n = N.of_nat k /\ k < chunks_len v /\
        (forall p e, p < k * CHUNK_SIZE -> view_entries v !! p = Some e -> (e.1 < id)%N) /\
        (forall p e, (k + 1) * CHUNK_SIZE <= p -> view_entries v !! p = Some e -> (id < e.1)%N)
  | Some After => forall p e, p < chunks_len v * CHUNK_SIZE -> view_entries v !! p = Some e -> (e.1 < id)%N
  end.
Proof.
  intros Hv. pose proof chunk_size_pos as HK. unfold chunk_id_by_id.
  pose proof (binary_search_key_spec initial (chunks_ v) id) as Hb.
  destruct (binary_search_key initial (chunks_ v) id) as [k|k].
  { destruct Hb as (c & Hc & Ei). exists k. split; [done |].
    split; [by eapply lookup_lt_Some |]. split; [intros p e; apply (before_chunk v k c); [done..|lia] |].
    intros p e Hp He. destruct (initial_entry v k c Hv Hc) as (x & Hx & Ex).
    rewrite <- Ei, <- Ex. apply (entry_lt v (k * CHUNK_SIZE) p); [done | nia | done | done]. }
  destruct Hb as (Hk & Hlo & Hhi). fold (chunks_len v) in Hk.
  assert (Hprev : forall p e, p < (k - 1) * CHUNK_SIZE -> view_entries v !! p = Some e -> (e.1 < id)%N).
  { intros p e Hp He. destruct (lookup_lt_is_Some_2 (chunks_ v) (k - 1)) as [c Hc].
    { unfold chunks_len in Hk. destruct k; [nia | lia]. }
    apply (before_chunk v (k - 1) c id p e Hv Hc); [|done|done].
    apply N.lt_le_incl, (Hlo (k - 1)); [destruct k; [nia | lia] | done]. }
  destruct (Nat.eqb_spec k (chunks_len v)) as [->|Hne].
  - destruct (head (remainders v)) as [r|] eqn:Er.
    + destruct (N.ltb_spec id (g_record_id r)) as [Hlt|Hge].
      * destruct (Nat.ltb_spec 0 (chunks_len v)) as [Hpos|Hzero].
        { exists (chunks_len v - 1). split_and!; [done | lia | done |]. intros p e Hp He.
          destruct (head_remainder v r p e Hv Er He) as [Hh _]. specialize (Hh ltac:(nia)). lia. }
        apply Forall_lookup. intros p e He.
        destruct (head_remainder v r p e Hv Er He) as [Hh _]. specialize (Hh ltac:(nia)). lia.
      * intros p e Hp He. destruct (head_remainder v r p e Hv Er He) as [_ Hh]. specialize (Hh Hp). lia.
    + destruct (Nat.eqb_spec (chunks_len v) 0) as [Ez|Ez].
      { apply nil_length_inv. rewrite (entries_length v Hv). unfold view_len, remainder_len.
        destruct (remainders v); [|done]. rewrite Ez. done. }
      exists (chunks_len v - 1). split_and!; [done | lia | done |]. intros p e Hp He%lookup_lt_Some. rewrite (entries_length v Hv) in He. unfold view_len, remainder_len in He.
        destruct (remainders v); [|done]. simpl in He. nia.
  - destruct (lookup_lt_is_Some_2 (chunks_ v) k) as [c Hc]; [unfold chunks_len in *; lia |].
    destruct (Nat.eqb_spec k 0) as [->|Hz].
    + apply Forall_lookup. intros p e He. apply (after_chunk v 0 c id p e Hv Hc); [by apply Hhi | lia | done].
    + exists (k - 1). split_and!; [done | lia | done |]. intros p e Hp He.
      apply (after_chunk v k c id p e Hv Hc); [by apply Hhi | nia | done].
Qed.

Lemma moved_ok it p :
  cursor_ok it -> p <= length (cpl_entries it) ->
  (p / CHUNK_SIZE = (pos it).1 / CHUNK_SIZE -> cursor_ok (set_pos it (p, None))) /\
  cursor_ok (set_unpacked (set_pos it (p, None)) false).
Proof.
  intros [H1 H2 H3 H4] Hp. split; [intros Ed|]; (split; [done | done | | done]); simpl; [|done].
  by rewrite Ed.
Qed.

(** Entries passed over on the way are not asked for. *)
Lemma filter_drop_before (Q : PostingElement -> Prop) `{forall e, Decision (Q e)} (l : list PostingElement) a b :
  a <= b -> (forall p e, a <= p < b -> l !! p = Some e -> ~ Q e) ->
  filter Q (drop a l) = filter Q (drop b l).
Proof.
  intros Hab Hn. replace b with (a + (b - a)) by lia. rewrite <- drop_drop.
  rewrite <- (take_drop (b - a) (drop a l)) at 1. rewrite filter_app, filter_nil; [done |].
  apply Forall_lookup. intros i e. intros [Hi He]%lookup_take_Some. rewrite lookup_drop in Hi.
  apply (Hn (a + i)); [lia | done].
Qed.

Definition starts it (id : N) it' : Prop :=
  cursor_ok it' /\ list_ it' = list_ it /\ (pos it).1 <= (pos it').1 /\
  forall p e, (pos it).1 <= p < (pos it').1 -> cpl_entries it !! p = Some e -> (e.1 < id)%N.

Lemma skip_start_returns it id : cursor_ok it ->
  match skip_start it id with
  | None => cpl_entries it = []
  | Some None => Forall (fun e => id < e.1)%N (cpl_rest it)
  | Some (Some it') => starts it id it'
  end.
Proof.
  intros Hok. pose proof chunk_size_pos as HK. pose proof (cu_view _ Hok) as Hv.
  pose proof (entries_length _ Hv) as Hlen. unfold skip_start.
  pose proof (chunk_id_by_id_spec (list_ it) id Hv) as Hc.
  assert (Hlook : forall (Q : PostingElement -> Prop),
    (forall p e, (pos it).1 <= p -> view_entries (list_ it) !! p = Some e -> Q e) -> Forall Q (cpl_rest it)).
  { intros Q HQ. apply Forall_lookup. intros i e. unfold cpl_rest. rewrite lookup_drop. apply HQ. lia. }
  unfold chunk_id_by_position.
  destruct (chunk_id_by_id (list_ it) id) as [[|n|]|]; cbn [mbind option_bind]; [| | |done].
  - apply Hlook. intros p e _ He. by apply (proj1 (Forall_lookup _ _) Hc p).
  - destruct (Nat.ltb_spec ((pos it).1 / CHUNK_SIZE) (chunks_len (list_ it))) as [Hin|Hout].
    + destruct Hc as (k & -> & Hk & Hlo & Hhi).
      pose proof (Nat.div_mod_eq (pos it).1 CHUNK_SIZE) as Ep.
      pose proof (Nat.mod_upper_bound (pos it).1 CHUNK_SIZE ltac:(lia)) as Hm.
      rewrite <- Nat2N.inj_compare. destruct (Nat.compare_spec k ((pos it).1 / CHUNK_SIZE)) as [E|Hlt|Hgt].
      * rewrite Nat2N.id, Nat.max_l by nia.
        destruct (moved_ok it (pos it).1 Hok) as [Hm1 _]; [apply Hok |].
        split_and!; [by apply Hm1 | done | simpl; lia | simpl; lia].
      * apply Hlook. intros p e Hp He. apply (Hhi p e); [nia | done].
      * rewrite Nat2N.id. destruct (moved_ok it (k * CHUNK_SIZE) Hok) as [_ Hm2].
        { unfold cpl_entries. rewrite Hlen. unfold view_len. nia. }
        split_and!; [done | done | simpl; nia |]. simpl. intros p e [_ Hp] He. by apply (Hlo p).
    + apply Hlook. intros p e Hp He. destruct Hc as (k & -> & Hk & Hlo & Hhi).
      apply (Hhi p e); [|done]. assert (Hd : chunks_len (list_ it) * CHUNK_SIZE <= (pos it).1).
      { apply (Nat.le_trans _ (CHUNK_SIZE * ((pos it).1 / CHUNK_SIZE))); [nia | apply Nat.Div0.mul_div_le]. }
      nia.
  - assert (Hmax : max (pos it).1 (chunks_len (list_ it) * CHUNK_SIZE) <= length (cpl_entries it)).
    { pose proof (cu_pos _ Hok). unfold cpl_entries in *. rewrite Hlen in *. unfold view_len in *. lia. }
    destruct (moved_ok it _ Hok Hmax) as [_ Hm2].
    split_and!; [done | done | simpl; lia |]. simpl. intros p e Hp He. apply (Hc p); [lia | done].
Qed.

(** Only a list without elements can make [skip_to] panic. *)
Lemma skip_to_cases it id : cursor_ok it ->
  match cpl_skip_to it id with Some (it', r) => skipped it id it' r | None => cpl_entries it = [] end.
Proof.
  intros Hok. unfold cpl_skip_to.
  assert (Hnone : Forall (fun e => id < e.1)%N (cpl_rest it) -> skipped it id it None).
  { intros Hr. destruct (filter_none_before id _ Hr) as [F1 F2]. unfold skipped. rewrite F1, F2.
    by split_and!. }
  destruct (match (pos it).2 with Some _ => _ | None => false end) eqn:Eahead.
  { destruct (pos it).2 as [cur|] eqn:Ec; [|done]. apply N.ltb_lt in Eahead. apply Hnone. destruct (cu_current _ Hok cur Ec) as (e & He & Ee). pose proof (rest_sorted it Hok) as Hs.
    rewrite (rest_cons it e He) in *. apply by_record_cons in Hs as [_ Hs]. constructor; [lia |].
    eapply Forall_impl; [exact Hs |]. unfold by_record. simpl. lia. }
  pose proof (skip_start_returns it id Hok) as Hst. destruct (skip_start it id) as [[it1|]|]; cbn [mbind option_bind]; [|by apply Hnone | done].
  destruct Hst as (Hok1 & El & Hp & Hpass).
  destruct (skip_loop_returns (S (cpl_len_to_end it1)) it1 id Hok1 ltac:(lia)) as (it' & r & -> & Hk & Hl & H1 & H2 & H3).
  assert (Er : cpl_rest it1 = drop (pos it1).1 (cpl_entries it)) by by unfold cpl_rest; rewrite (same_entries it it1 El).
  unfold skipped. rewrite H1, H2, Er. split_and!; try done; [by rewrite Hl | symmetry.. ].
  - apply filter_drop_before; [done |]. intros p e Hr He. specialize (Hpass p e Hr He). lia.
  - f_equal. apply filter_drop_before; [done |]. intros p e Hr He. specialize (Hpass p e Hr He). lia.
Qed.

Lemma skip_to_returns it id : cursor_ok it -> cpl_entries it <> [] ->
  exists it' r, cpl_skip_to it id = Some (it', r) /\ skipped it id it' r.
Proof.
  intros Hok Hne. pose proof (skip_to_cases it id Hok) as Hc. destruct (cpl_skip_to it id) as [[it' r]|]; [eauto | done].
Qed.

(** The trait's [skip_to], on lists without elements as well. *)
Lemma skip_to_default it id : cursor_ok it ->
  exists it' r, default (it, None) (cpl_skip_to it id) = (it', r) /\ skipped it id it' r.
Proof.
  intros Hok. pose proof (skip_to_cases it id Hok) as Hc. destruct (cpl_skip_to it id) as [[it' r]|]; [eauto |].
  exists it, None. split; [done |]. unfold skipped, cpl_rest. rewrite Hc, drop_nil. by split_and!.
Qed.

Lemma filter_after_from id (l : list PostingElement) :
  filter (fun e => id < e.1)%N l = filter (fun e => id < e.1)%N (filter (fun e => id <= e.1)%N l).
Proof.
  induction l as [|e l IH]; [done |]. rewrite !filter_cons.
  repeat case_decide; rewrite ?filter_cons; repeat case_decide; try lia; congruence.
Qed.

Lemma skip_till_returns it id : cursor_ok it -> cpl_entries it <> [] ->
  exists it', cpl_skip_till_id it id = Some it' /\ cursor_ok it' /\ list_ it' = list_ it /\
    cpl_rest it' = filter (fun e => id < e.1)%N (cpl_rest it).
Proof.
  intros Hok Hne. unfold cpl_skip_till_id.
  destruct (skip_to_returns it id Hok Hne) as (it1 & r & -> & Hok1 & El & Hr & Hf & Hin). cbn [mbind option_bind].
  rewrite filter_after_from, <- Hr. pose proof (rest_sorted it1 Hok1) as Hs.
  assert (Hhead : forall e l, cpl_rest it1 = e :: l -> (id <= e.1)%N /\ (r = None -> e.1 <> id)).
  { intros e l E. rewrite Hr in E. assert (He : e ∈ filter (fun e => id <= e.1)%N (cpl_rest it)) by (rewrite E; left).
    apply list_elem_of_filter in He as [He Hm]. split; [done |]. intros -> Ee. simpl in Hf.
    assert (Hm' : e ∈ filter (fun e => e.1 = id) (cpl_rest it)) by by apply list_elem_of_filter.
    symmetry in Hf. apply head_None in Hf. rewrite Hf in Hm'. by apply elem_of_nil in Hm'. }
  destruct r as [x|].
  - destruct (next_from_ok it1 Hok1 (Hin ltac:(eauto))) as (Hok2 & El2 & Ep2).
    eexists. split; [done |]. split_and!; [done | by rewrite El2 |].
    destruct (lookup_lt_is_Some_2 _ _ (Hin ltac:(eauto))) as [e He].
    assert (Ee : e.1 = id).
    { assert (Hh : head (cpl_rest it1) = Some e) by by rewrite (rest_cons it1 e He).
      assert (Hx : (to_element x).1 = id /\ to_element x ∈ cpl_rest it1).
      { rewrite Hr. assert (Hm : to_element x ∈ filter (fun e => e.1 = id) (cpl_rest it)).
        { symmetry in Hf. apply head_Some in Hf as [l ->]. left. }
        apply list_elem_of_filter in Hm as [Hm1 Hm2]. split; [done |]. apply list_elem_of_filter.
        split; [lia | done]. }
      destruct Hx as [Hx1 Hx2]. destruct (Hhead e _ (rest_cons it1 e He)) as [Hge _].
      rewrite (rest_cons it1 e He) in Hx2, Hs. apply by_record_cons in Hs as [_ Hs].
      apply elem_of_cons in Hx2 as [Hx2|Hx2]; [by rewrite <- Hx2 |]. rewrite Forall_forall in Hs.
      specialize (Hs _ Hx2). unfold by_record in Hs. lia. }
    unfold cpl_rest at 1. rewrite Ep2, (same_entries it1 _ El2). cbn [fst].
    rewrite (rest_cons it1 e He) in Hs |- *. rewrite filter_cons_False by lia.
    apply by_record_cons in Hs as [_ Hs]. symmetry. apply filter_id.
    eapply Forall_impl; [exact Hs |]. unfold by_record. simpl. lia.
  - eexists. split; [done |]. split_and!; [done | done |]. symmetry. apply filter_id.
    destruct (cpl_rest it1) as [|e l] eqn:E; [constructor |]. destruct (Hhead e l eq_refl) as [Hge Hid].
    apply by_record_cons in Hs as [_ Hs]. specialize (Hid eq_refl). constructor; [lia |].
    eapply Forall_impl; [exact Hs |]. unfold by_record. simpl. lia.
Qed.

Lemma skip_till_default it id : cursor_ok it ->
  exists it', default it (cpl_skip_till_id it id) = it' /\ cursor_ok it' /\ list_ it' = list_ it /\
    cpl_rest it' = filter (fun e => id < e.1)%N (cpl_rest it).
Proof.
  intros Hok. destruct (decide (cpl_entries it = [])) as [He|Hne].
  - assert (Hr : cpl_rest it = []) by (unfold cpl_rest; by rewrite He, drop_nil). unfold cpl_skip_till_id.
    destruct (skip_to_default it id Hok) as (it' & r & E & Hok' & El & Hr' & _ & Hin).
    destruct (cpl_skip_to it id) as [[it1 r1]|]; cbn [mbind option_bind default]; [|by exists it; rewrite Hr].
    injection E as -> ->. destruct r as [x|].
    { specialize (Hin ltac:(eauto)). rewrite (same_entries it it' El), He in Hin. simpl in Hin. lia. }
    exists it'. split_and!; [done | done | done |]. by rewrite Hr', Hr.
  - destruct (skip_till_returns it id Hok Hne) as (it' & -> & ?). by exists it'.
Qed.

Lemma skip_to_end_ok it : cursor_ok it ->
  cursor_ok (cpl_skip_to_end it) /\ cpl_entries (cpl_skip_to_end it) = cpl_entries it /\
  cpl_rest (cpl_skip_to_end it) = [].
Proof.
  intros Hok. pose proof (entries_length _ (cu_view _ Hok)) as Hl. pose proof chunk_size_pos.
  unfold view_len in Hl. split_and!; [|done|].
  - destruct Hok as [H1 H2 H3 H4]. split; try done; simpl.
    + unfold cpl_entries. simpl. lia.
    + intros _ Hlt. exfalso. apply Nat.lt_nge in Hlt. apply Hlt, Nat.div_le_lower_bound; lia.
  - unfold cpl_rest, cpl_entries. simpl. apply drop_ge. lia.
Qed.

Lemma collect_returns fuel it : cursor_ok it -> length (cpl_rest it) < fuel ->
  collect fuel it = Some (cpl_rest it).
Proof.
  revert it. induction fuel as [|fuel IH]; intros it Hok Hf; [lia |]. cbn [collect]. unfold cpl_next.
  destruct (peek_returns it Hok) as (it1 & r & -> & Hok1 & El & Ep & Er). cbn [mbind option_bind].
  destruct r as [x|]; simpl in Er; symmetry in Er; [|by rewrite (rest_nil it Er)].
  pose proof (same_entries it it1 El) as Ee.
  destruct (next_from_ok it1 Hok1) as (Hok2 & El2 & Ep2).
  { rewrite Ep, Ee. by eapply lookup_lt_Some. }
  rewrite (rest_cons it _ Er) in Hf |- *.
  assert (Hr : cpl_rest (next_from it1) = drop ((pos it).1 + 1) (cpl_entries it)).
  { unfold cpl_rest. by rewrite Ep2, (same_entries it1 _ El2), Ep, Ee. }
  cbn [mbind option_bind]. rewrite IH, Hr; [done | done |]. rewrite Hr. simpl in Hf. lia.
Qed.

(** ** Traversals *)

Lemma count_le_sorted_spec val data : StronglySorted N.lt data ->
  count_le_sorted val data <= length data /\
  (forall i x, i < count_le_sorted val data -> data !! i = Some x -> (x <= val)%N) /\
  (forall i x, count_le_sorted val data <= i -> data !! i = Some x -> (val < x)%N).
Proof.
  intros Hs. unfold count_le_sorted.
  destruct (match last data with Some _ => _ | None => true end) eqn:El.
  - split_and!; [done | | intros i x Hi Hx%lookup_lt_Some; lia]. intros i x Hi Hx.
    destruct (last data) as [y|] eqn:Ey; [|by apply last_None in Ey; subst]. apply N.ltb_lt in El.
    rewrite last_lookup in Ey. destruct (Nat.eq_dec i (pred (length data))) as [->|].
    { rewrite Hx in Ey. injection Ey as ->. lia. }
    pose proof (sorted_lookup N.lt data i (pred (length data)) x y Hs ltac:(lia) Hx Ey). lia.
  - pose proof (binary_search_key_spec (id : N -> N) data val) as Hb. unfold id in *.
    destruct (binary_search_key (fun x : N => x) data val) as [k|k].
    + destruct Hb as (y & Hy & ->). split_and!; [apply lookup_lt_Some in Hy; lia | |].
      * intros i x Hi Hx. destruct (Nat.eq_dec i k) as [->|]; [rewrite Hx in Hy; injection Hy as ->; lia |].
        pose proof (sorted_lookup N.lt data i k x val Hs ltac:(lia) Hx Hy). lia.
      * intros i x Hi Hx. apply (sorted_lookup N.lt data k i val x Hs); [lia | done | done].
    + destruct Hb as (Hk & Hlo & Hhi). split_and!; [done | |].
      * intros i x Hi Hx. specialize (Hlo i x Hi Hx). lia.
      * intros i x Hi Hx. destruct (lookup_lt_is_Some_2 data k) as [y Hy]; [apply lookup_lt_Some in Hx; lia |].
        specialize (Hhi y Hy). destruct (Nat.eq_dec i k) as [->|]; [congruence |].
        pose proof (sorted_lookup N.lt data k i y x Hs ltac:(lia) Hy Hx). lia.
Qed.

Lemma fold_pairs {Ctx} (f : Ctx -> N -> float -> Ctx) (l : list (N * float)) ctx :
  fold_left (fun c '(i, w) => f c i w) l ctx = fold_left (fun c e => f c e.1 e.2) l ctx.
Proof. revert ctx. induction l as [|[i w] l IH]; intros ctx; simpl; auto. Qed.

Lemma div_mod_within p s m : s = p mod CHUNK_SIZE -> s + m < CHUNK_SIZE ->
  (p + m) / CHUNK_SIZE = p / CHUNK_SIZE /\ (p + m) mod CHUNK_SIZE = s + m.
Proof.
  intros -> Hm. pose proof chunk_size_pos. pose proof (Nat.div_mod_eq p CHUNK_SIZE) as E. split; symmetry.
  - apply (Nat.div_unique _ _ _ (p mod CHUNK_SIZE + m)); lia.
  - apply (Nat.mod_unique _ _ (p / CHUNK_SIZE)); lia.
Qed.

(** Some entries of one chunk. *)
Lemma chunk_slice v p c ids m :
  view_ok v -> chunks_ v !! (p / CHUNK_SIZE) = Some c -> chunk_ok v (p / CHUNK_SIZE) c ids ->
  p mod CHUNK_SIZE + m <= CHUNK_SIZE ->
  take m (drop p (view_entries v)) =
    zip (take m (drop (p mod CHUNK_SIZE) ids))
      (to_f32 (multiplier v) <$> take m (drop (p mod CHUNK_SIZE) (chunk_weights c))).
Proof.
  intros Hv Hc Hok Hm. pose proof (co_length _ _ _ _ Hok) as Hl. pose proof (co_weights _ _ _ _ Hok) as Hw.
  apply list_eq. intros i. rewrite lookup_zip_with, list_lookup_fmap.
  destruct (Nat.lt_ge_cases i m) as [Hi|Hi].
  - rewrite !lookup_take_lt, !lookup_drop by done.
    destruct (div_mod_within p _ i eq_refl ltac:(lia)) as [Ed Em].
    destruct (chunk_lookup v (p + i) c ids Hv) as (id & w & Hid & Hw' & E); [by rewrite Ed.. |].
    rewrite Em in Hid, Hw'. rewrite E, Hid. simpl. by rewrite Hw'.
  - by rewrite !lookup_take_ge by done.
Qed.

Lemma chunk_ids_sorted v p c ids :
  view_ok v -> chunks_ v !! (p / CHUNK_SIZE) = Some c -> chunk_ok v (p / CHUNK_SIZE) c ids ->
  StronglySorted N.lt ids.
Proof.
  intros Hv Hc Hok. pose proof chunk_size_pos. set (k := p / CHUNK_SIZE) in *.
  assert (Ek : k * CHUNK_SIZE / CHUNK_SIZE = k) by (apply Nat.div_mul; lia).
  pose proof (chunk_slice v (k * CHUNK_SIZE) c ids CHUNK_SIZE Hv) as E. rewrite Ek, Nat.Div0.mod_mul in E.
  specialize (E Hc Hok ltac:(lia)). pose proof (co_length _ _ _ _ Hok) as Hl. pose proof (co_weights _ _ _ _ Hok) as Hw.
  rewrite !drop_0, (take_ge ids), (take_ge (chunk_weights c)) in E by lia.
  pose proof (vo_sorted v Hv) as Hs. rewrite <- (take_drop (k * CHUNK_SIZE) (view_entries v)) in Hs.
  apply StronglySorted_app_r in Hs. rewrite <- (take_drop CHUNK_SIZE (drop _ _)) in Hs.
  apply StronglySorted_app_1_l in Hs. rewrite E in Hs.
  replace ids with (zip ids (to_f32 (multiplier v) <$> chunk_weights c)).*1
    by (apply fst_zip; rewrite length_fmap; lia).
  clear -Hs. induction Hs as [|e l Hl IH He]; [constructor |]. csimpl. constructor; [done |].
  apply Forall_fmap. exact He.
Qed.

(** A stretch of the entries that was visited, all up to a record. *)
Definition visited_upto {Ctx} v (id : N) (f : Ctx -> N -> float -> Ctx) (ctx : Ctx) (p : nat) (ctx' : Ctx)
    (p' : nat) : Prop :=
  p <= p' <= length (view_entries v) /\
  ctx' = fold_left (fun c e => f c e.1 e.2) (take (p' - p) (drop p (view_entries v))) ctx /\
  Forall (fun e => e.1 <= id)%N (take (p' - p) (drop p (view_entries v))).

Lemma visited_refl {Ctx} v id (f : Ctx -> N -> float -> Ctx) ctx p :
  p <= length (view_entries v) -> visited_upto v id f ctx p ctx p.
Proof. intros Hp. unfold visited_upto. rewrite Nat.sub_diag, take_0. split_and!; simpl; auto. Qed.

Lemma visited_trans {Ctx} v id (f : Ctx -> N -> float -> Ctx) ctx p ctx' p' ctx'' p'' :
  visited_upto v id f ctx p ctx' p' -> visited_upto v id f ctx' p' ctx'' p'' ->
  visited_upto v id f ctx p ctx'' p''.
Proof.
  intros (H1 & -> & H2) (H3 & -> & H4). unfold visited_upto.
  replace (p'' - p) with ((p' - p) + (p'' - p')) by lia.
  rewrite <- (take_take_drop _ (p' - p)), drop_drop. replace (p + (p' - p)) with p' by lia.
  rewrite fold_left_app. split_and!; [lia.. | done |]. by apply Forall_app.
Qed.

Lemma visited_chunk {Ctx} v id (f : Ctx -> N -> float -> Ctx) ctx p c ids count :
  view_ok v -> chunks_ v !! (p / CHUNK_SIZE) = Some c -> chunk_ok v (p / CHUNK_SIZE) c ids ->
  count = count_le_sorted id (drop (p mod CHUNK_SIZE) ids) ->
  p mod CHUNK_SIZE + count <= CHUNK_SIZE /\
  visited_upto v id f ctx p
    (fold_left (fun c '(i, w) => f c i w)
       (zip (take count (drop (p mod CHUNK_SIZE) ids))
          (to_f32 (multiplier v) <$> take count (drop (p mod CHUNK_SIZE) (chunk_weights c)))) ctx)
    (p + count) /\
  (p mod CHUNK_SIZE + count <> CHUNK_SIZE -> Forall (fun e => id < e.1)%N (drop (p + count) (view_entries v))).
Proof.
  intros Hv Hc Hok Hcount. pose proof chunk_size_pos. pose proof (co_length _ _ _ _ Hok) as Hl.
  pose proof (Nat.mod_upper_bound p CHUNK_SIZE ltac:(lia)) as Hmod.
  assert (Hs : StronglySorted N.lt (drop (p mod CHUNK_SIZE) ids)).
  { pose proof (chunk_ids_sorted v p c ids Hv Hc Hok) as Hs.
    rewrite <- (take_drop (p mod CHUNK_SIZE) ids) in Hs. by apply StronglySorted_app_r in Hs. }
  destruct (count_le_sorted_spec id _ Hs) as (H1 & H2 & H3). rewrite <- Hcount in H1, H2, H3.
  rewrite length_drop, Hl in H1. split; [lia |].
  assert (Hlen : p + count <= length (view_entries v)).
  { rewrite (entries_length v Hv). unfold view_len. apply lookup_lt_Some in Hc. fold (chunks_len v) in Hc.
    pose proof (Nat.div_mod_eq p CHUNK_SIZE). nia. }
  assert (Hat : forall i, p mod CHUNK_SIZE + i < CHUNK_SIZE -> exists e x,
    view_entries v !! (p + i) = Some e /\ drop (p mod CHUNK_SIZE) ids !! i = Some x /\ e.1 = x).
  { intros i Hi. destruct (div_mod_within p _ i eq_refl Hi) as [Ed Em].
    destruct (chunk_lookup v (p + i) c ids Hv) as (x & w & Hid & _ & E); [by rewrite Ed.. |].
    rewrite Em in Hid. eexists _, x. split; [exact E |]. by rewrite lookup_drop. }
  split.
  - unfold visited_upto. replace (p + count - p) with count by lia. rewrite fold_pairs.
    rewrite <- (chunk_slice v p c ids count Hv Hc Hok) by lia. split_and!; [lia.. | done |].
    apply Forall_lookup. intros i e [He Hi]%lookup_take_Some. rewrite lookup_drop in He.
    destruct (Hat i ltac:(lia)) as (e' & x & E1 & E2 & E3). rewrite He in E1. injection E1 as <-.
    rewrite E3. by apply (H2 i).
  - intros Hne. destruct (Hat count ltac:(lia)) as (e & x & E1 & E2 & E3).
    specialize (H3 count x ltac:(lia) E2). apply Forall_lookup. intros i y. rewrite lookup_drop. intros Hy.
    pose proof (entry_le v (p + count) (p + count + i) e y Hv ltac:(lia) E1 Hy). lia.
Qed.

Lemma till_chunks_returns {Ctx} fuel it id (ctx : Ctx) f p need :
  view_ok (list_ it) -> p <= length (cpl_entries it) ->
  (need = false -> p / CHUNK_SIZE < chunks_len (list_ it) ->
     decompress_chunk (list_ it) (p / CHUNK_SIZE) = Some (decompressed_chunk it)) ->
  chunks_len (list_ it) - p / CHUNK_SIZE < fuel ->
  exists it' ctx' p' ended, till_chunks fuel it id ctx f p need = Some (it', ctx', p', ended) /\
    list_ it' = list_ it /\ visited_upto (list_ it) id f ctx p ctx' p' /\
    if ended then cursor_ok it' /\ pos it' = (p', None) /\ Forall (fun e => id < e.1)%N (drop p' (cpl_entries it))
    else chunks_len (list_ it) * CHUNK_SIZE <= p'.
Proof.
  pose proof chunk_size_pos as HK. revert it ctx p need.
  induction fuel as [|fuel IH]; intros it ctx p need Hv Hp Hneed Hf; [lia |]. cbn [till_chunks].
  destruct (Nat.ltb_spec (p / CHUNK_SIZE) (chunks_len (list_ it))) as [Hlt|Hge].
  2: { exists it, ctx, p, false. split_and!; try done; [by apply visited_refl |].
       pose proof (Nat.Div0.mul_div_le p CHUNK_SIZE). nia. }
  destruct (lookup_lt_is_Some_2 _ _ Hlt) as [c Hc]. destruct (vo_chunks _ Hv _ c Hc) as [ids Hok].
  assert (Hu : exists it1, (if need then ids ← decompress_chunk (list_ it) (p / CHUNK_SIZE); Some (set_ids it ids)
      else Some it) = Some it1 /\ decompressed_chunk it1 = ids /\ list_ it1 = list_ it).
  { pose proof (co_unpacks _ _ _ _ Hok) as Ed. destruct need.
    - rewrite Ed. by eexists.
    - exists it. split_and!; try done. specialize (Hneed eq_refl Hlt). congruence. }
  destruct Hu as (it1 & -> & Ed1 & El1). cbn [mbind option_bind]. rewrite Ed1.
  set (count := count_le_sorted id (drop (p mod CHUNK_SIZE) ids)).
  destruct (visited_chunk (list_ it) id f ctx p c ids count Hv Hc Hok eq_refl) as (Hcount & Hvis & Hafter).
  pose proof (co_length _ _ _ _ Hok) as Hl. pose proof (co_weights _ _ _ _ Hok) as Hw.
  pose proof (Nat.mod_upper_bound p CHUNK_SIZE ltac:(lia)) as Hmod.
  rewrite get_range_Some by lia. cbn [mbind option_bind]. rewrite take_ge by (rewrite length_drop; lia).
  fold count. unfold weights_range. rewrite El1, Hc. cbn [mbind option_bind].
  rewrite get_range_Some by lia. cbn [mbind option_bind]. rewrite get_range_Some by lia. cbn [mbind option_bind].
  replace (p mod CHUNK_SIZE + count - p mod CHUNK_SIZE) with count by lia.
  rewrite into_f32_slice_each. set (ctx1 := fold_left _ _ ctx) in *.
  destruct (Nat.eqb_spec (p mod CHUNK_SIZE + count) CHUNK_SIZE) as [Efull|Efull].
  - assert (Ed : (p + count) / CHUNK_SIZE = p / CHUNK_SIZE + 1).
    { pose proof (Nat.div_mod_eq p CHUNK_SIZE). symmetry. apply (Nat.div_unique _ _ _ 0); lia. }
    destruct (IH it1 ctx1 (p + count) true) as (it' & ctx' & p' & ended & -> & El & Hv' & He).
    { by rewrite El1. } { rewrite (same_entries it it1 El1). apply Hvis. } { done. } { rewrite El1. lia. }
    exists it', ctx', p', ended. rewrite El1, (same_entries it it1 El1) in *. split_and!; try done.
    by eapply visited_trans.
  - exists (set_pos (set_unpacked it1 true) (p + count, None)), ctx1, (p + count), true.
    split_and!; try done; [|by apply Hafter].
    destruct (div_mod_within p _ count eq_refl ltac:(lia)) as [Ed Em].
    split; simpl; unfold cpl_entries; simpl; rewrite ?El1, ?Ed; try done; [apply Hvis |].
    intros _ _. rewrite (co_unpacks _ _ _ _ Hok). by rewrite Ed1.
Qed.

(** The entries from a position behind the chunks on. *)
Lemma remainder_entries v p :
  view_ok v -> chunks_len v * CHUNK_SIZE <= p ->
  drop p (view_entries v) = element_entry v <$> drop (p - chunks_len v * CHUNK_SIZE) (remainders v).
Proof.
  intros Hv Hp. apply list_eq. intros i. rewrite list_lookup_fmap, !lookup_drop, entries_lookup by done.
  pose proof chunk_size_pos. rewrite (proj2 (Nat.ltb_ge _ _)) by (apply Nat.div_le_lower_bound; lia).
  do 2 f_equal. lia.
Qed.

Lemma till_remainders_spec {Ctx} v id (f : Ctx -> N -> float -> Ctx) es p ctx :
  StronglySorted by_record (element_entry v <$> es) ->
  exists k, till_remainders (multiplier v) id f es p ctx =
      (p + k, fold_left (fun c e => f c e.1 e.2) (element_entry v <$> take k es) ctx) /\
    k <= length es /\ Forall (fun e => e.1 <= id)%N (element_entry v <$> take k es) /\
    Forall (fun e => id < e.1)%N (element_entry v <$> drop k es).
Proof.
  revert p ctx. induction es as [|e es IH]; intros p ctx Hs; cbn [till_remainders].
  { exists 0. split_and!; simpl; auto. by rewrite Nat.add_0_r. }
  csimpl in Hs. apply by_record_cons in Hs as [Hs He]. destruct (N.ltb_spec id (g_record_id e)) as [Hlt|Hge].
  - exists 0. rewrite Nat.add_0_r. split_and!; simpl; [done | lia | constructor |].
    constructor; [done |]. eapply Forall_impl; [exact He |]. unfold by_record. simpl. lia.
  - destruct (IH (p + 1) (f ctx (g_record_id e) (to_f32 (multiplier v) (g_weight e))) Hs) as (k & -> & Hk & Hlo & Hhi).
    exists (S k). split_and!; simpl; [f_equal; lia | lia | by constructor | done].
Qed.

Lemma filter_split id (l : list PostingElement) k :
  Forall (fun e => e.1 <= id)%N (take k l) -> Forall (fun e => id < e.1)%N (drop k l) ->
  filter (fun e => e.1 <= id)%N l = take k l /\ filter (fun e => id < e.1)%N l = drop k l.
Proof.
  intros H1 H2. rewrite <- (take_drop k l) at 1 3. rewrite !filter_app. split.
  - rewrite (filter_id _ (take k l)), (filter_nil _ (drop k l)); [by rewrite app_nil_r | | done].
    eapply Forall_impl; [exact H2 |]. simpl. lia.
  - rewrite (filter_id _ (drop k l)), (filter_nil _ (take k l)); [done | | done].
    eapply Forall_impl; [exact H1 |]. simpl. lia.
Qed.

Lemma for_each_returns {Ctx} it id (ctx : Ctx) f : cursor_ok it ->
  exists it' ctx', cpl_for_each_till_id it id ctx f = Some (it', ctx') /\
    cursor_ok it' /\ list_ it' = list_ it /\
    cpl_rest it' = filter (fun e => id < e.1)%N (cpl_rest it) /\
    ctx' = fold_left (fun c e => f c e.1 e.2) (filter (fun e => e.1 <= id)%N (cpl_rest it)) ctx.
Proof.
  intros Hok. pose proof (cu_view _ Hok) as Hv. unfold cpl_for_each_till_id.
  destruct (till_chunks_returns (S (chunks_len (list_ it))) it id ctx f (pos it).1 (negb (unpacked it)))
    as (it1 & ctx1 & p & ended & -> & El & Hvis & He); [done | apply Hok | | lia |].
  { intros Hu. apply Hok. by destruct (unpacked it). }
  assert (Hfin : forall it' ctx' p', pos it' = (p', None) -> list_ it' = list_ it ->
    visited_upto (list_ it) id f ctx (pos it).1 ctx' p' -> Forall (fun e => id < e.1)%N (drop p' (cpl_entries it)) ->
    cpl_rest it' = filter (fun e => id < e.1)%N (cpl_rest it) /\
    ctx' = fold_left (fun c e => f c e.1 e.2) (filter (fun e => e.1 <= id)%N (cpl_rest it)) ctx).
  { intros it' ctx' p' Ep El' (Hp & -> & Hle) Hgt.
    destruct (filter_split id (cpl_rest it) (p' - (pos it).1)) as [F1 F2]; [done | |].
    { unfold cpl_rest. rewrite drop_drop. by replace ((pos it).1 + (p' - (pos it).1)) with p' by lia. }
    rewrite F1, F2. split; [|done]. unfold cpl_rest. rewrite drop_drop, (same_entries it it' El'), Ep. cbn [fst].
    f_equal. lia. }
  cbn [mbind option_bind]. destruct ended.
  - destruct He as (Hok1 & Ep & Hgt). exists it1, ctx1. split_and!; try done; by eapply Hfin.
  - rewrite El. pose proof Hvis as (Hp & _). rewrite (entries_length _ Hv) in Hp. unfold view_len in Hp.
    rewrite get_range_Some by (unfold remainder_len in *; lia). cbn [mbind option_bind].
    rewrite take_ge by (rewrite length_drop; unfold remainder_len; lia).
    pose proof (vo_sorted _ Hv) as Hs. rewrite <- (take_drop p (view_entries (list_ it))) in Hs.
    apply StronglySorted_app_r in Hs. rewrite (remainder_entries _ p Hv He) in Hs.
    destruct (till_remainders_spec (list_ it) id f _ p ctx1 Hs) as (k & -> & Hk & Hlo & Hhi).
    rewrite !fmap_take, !fmap_drop, <- fmap_drop, <- (remainder_entries _ p Hv He) in *.
    rewrite length_drop in Hk. unfold remainder_len in Hp.
    assert (Hv2 : visited_upto (list_ it) id f ctx1 p
      (fold_left (fun c e => f c e.1 e.2) (take k (drop p (view_entries (list_ it)))) ctx1) (p + k)).
    { unfold visited_upto. replace (p + k - p) with k by lia. split_and!; [lia | | done | done].
      rewrite (entries_length _ Hv). unfold view_len, remainder_len. lia. }
    eexists _, _. split; [done |].
    assert (Hgt : Forall (fun e => id < e.1)%N (drop (p + k) (cpl_entries it))).
    { unfold cpl_entries. by rewrite <- drop_drop. }
    destruct (Hfin (set_pos it1 (p + k, None)) _ (p + k) eq_refl El (visited_trans _ _ _ _ _ _ _ _ _ Hvis Hv2) Hgt)
      as [Hrest Hctx]. split_and!; [|done|done|done].
    split; simpl; unfold cpl_entries; simpl; rewrite ?El; try done; [apply Hv2 |].
    intros _ Hlt. exfalso. apply Nat.lt_nge in Hlt. apply Hlt, Nat.div_le_lower_bound; [pose proof chunk_size_pos; lia |]. lia.
Qed.

(** *** Ranges *)

Lemma filter_stretch {A} (Q : A -> Prop) `{forall x, Decision (Q x)} (l : list A) a b :
  a <= b -> (forall i x, i < a -> l !! i = Some x -> ~ Q x) ->
  (forall i x, a <= i < b -> l !! i = Some x -> Q x) -> (forall i x, b <= i -> l !! i = Some x -> ~ Q x) ->
  filter Q l = take (b - a) (drop a l).
Proof.
  intros Hab H1 H2 H3. rewrite <- (take_drop a l) at 1. rewrite <- (take_drop (b - a) (drop a l)) at 1.
  rewrite !filter_app, drop_drop. replace (a + (b - a)) with b by lia.
  rewrite (filter_nil _ (take a l)), (filter_id _ (take (b - a) (drop a l))), (filter_nil _ (drop b l)).
  - by rewrite app_nil_r.
  - apply Forall_lookup. intros i x. rewrite lookup_drop. apply H3. lia.
  - apply Forall_lookup. intros i x [Hx Hi]%lookup_take_Some. rewrite lookup_drop in Hx. apply (H2 (a + i)); [lia | done].
  - apply Forall_lookup. intros i x [Hx Hi]%lookup_take_Some. by apply (H1 i).
Qed.

(** The entries of the chunks from one on. *)
Definition segment v (k : nat) : list PostingElement :=
  take ((chunks_len v - k) * CHUNK_SIZE) (drop (k * CHUNK_SIZE) (view_entries v)).

Lemma segment_lookup v k i e : segment v k !! i = Some e -> view_entries v !! (k * CHUNK_SIZE + i) = Some e.
Proof. unfold segment. intros [He _]%lookup_take_Some. by rewrite lookup_drop in He. Qed.

Lemma segment_cons v k c ids :
  view_ok v -> chunks_ v !! k = Some c -> chunk_ok v k c ids ->
  segment v k = zip ids (to_f32 (multiplier v) <$> chunk_weights c) ++ segment v (S k).
Proof.
  intros Hv Hc Hok. pose proof chunk_size_pos. apply lookup_lt_Some in Hc as Hk. fold (chunks_len v) in Hk.
  unfold segment. replace ((chunks_len v - k) * CHUNK_SIZE)
    with (CHUNK_SIZE + (chunks_len v - S k) * CHUNK_SIZE) by nia.
  rewrite <- (take_take_drop _ CHUNK_SIZE), drop_drop.
  assert (Ek : k * CHUNK_SIZE / CHUNK_SIZE = k) by (apply Nat.div_mul; lia).
  pose proof (chunk_slice v (k * CHUNK_SIZE) c ids CHUNK_SIZE Hv) as E. rewrite Ek, Nat.Div0.mod_mul in E.
  specialize (E Hc Hok ltac:(lia)). pose proof (co_length _ _ _ _ Hok). pose proof (co_weights _ _ _ _ Hok).
  rewrite !drop_0, (take_ge ids), (take_ge (chunk_weights c)) in E by lia. rewrite E. do 2 f_equal. f_equal. nia.
Qed.

Section Range.
Context (v : view) (Hv : view_ok v) (start end_ : N) (Hse : (start <= end_)%N).

Definition in_range (e : PostingElement) : Prop := (start <= e.1 <= end_)%N.
#[local] Instance in_range_dec e : Decision (in_range e).
Proof. unfold in_range. apply _. Defined.

(** The part of a sorted chunk in the range. *)
Lemma chunk_range k c ids :
  chunks_ v !! k = Some c -> chunk_ok v k c ids ->
  let ls := partition_point (fun id => id <? start)%N ids in
  let le := partition_point (fun id => id <=? end_)%N ids in
  ls <= le <= CHUNK_SIZE /\
  filter in_range (zip ids (to_f32 (multiplier v) <$> chunk_weights c)) =
    zip (take (le - ls) (drop ls ids)) (to_f32 (multiplier v) <$> take (le - ls) (drop ls (chunk_weights c))) /\
  (le <> CHUNK_SIZE -> exists x, ids !! le = Some x /\ (end_ < x)%N).
Proof.
  intros Hc Hok ls le. pose proof (co_length _ _ _ _ Hok) as Hl. pose proof (co_weights _ _ _ _ Hok) as Hw.
  destruct (partition_point_spec (fun id => id <? start)%N ids) as (S1 & S2 & S3).
  destruct (partition_point_spec (fun id => id <=? end_)%N ids) as (E1 & E2 & E3). fold ls in S1, S2, S3. fold le in E1, E2, E3.
  assert (Hs : StronglySorted N.lt ids).
  { apply (chunk_ids_sorted v (k * CHUNK_SIZE) c); [done | |]; rewrite Nat.div_mul by (pose proof chunk_size_pos; lia); done. }
  assert (Hle : ls <= le).
  { apply Nat.nlt_ge. intros Hlt. destruct (lookup_lt_is_Some_2 ids le ltac:(lia)) as [x Hx].
    specialize (E3 x Hx). specialize (S2 le x Hlt Hx). apply N.leb_gt in E3. apply N.ltb_lt in S2. lia. }
  assert (Hge : forall i x, ls <= i -> ids !! i = Some x -> (start <= x)%N).
  { intros i x Hi Hx. destruct (lookup_lt_is_Some_2 ids ls) as [y Hy]; [apply lookup_lt_Some in Hx; lia |].
    specialize (S3 y Hy). apply N.ltb_ge in S3. destruct (Nat.eq_dec i ls) as [->|]; [congruence |].
    pose proof (sorted_lookup N.lt ids ls i y x Hs ltac:(lia) Hy Hx). lia. }
  assert (Hgt : forall i x, le <= i -> ids !! i = Some x -> (end_ < x)%N).
  { intros i x Hi Hx. destruct (lookup_lt_is_Some_2 ids le) as [y Hy]; [apply lookup_lt_Some in Hx; lia |].
    specialize (E3 y Hy). apply N.leb_gt in E3. destruct (Nat.eq_dec i le) as [->|]; [congruence |].
    pose proof (sorted_lookup N.lt ids le i y x Hs ltac:(lia) Hy Hx). lia. }
  assert (Hz : forall i e, zip ids (to_f32 (multiplier v) <$> chunk_weights c) !! i = Some e -> ids !! i = Some e.1).
  { intros i e (x & y & -> & Hx & _)%lookup_zip_with_Some. done. }
  split_and!; [done | lia | |].
  - rewrite (filter_stretch in_range _ ls le Hle).
    + by rewrite zip_with_drop, zip_with_take, fmap_take, fmap_drop.
    + intros i e Hi He%Hz [Hr _]. specialize (S2 i _ Hi He). apply N.ltb_lt in S2. lia.
    + intros i e Hi He%Hz. split; [by apply (Hge i); [lia |] |]. apply N.leb_le. apply (E2 i); [lia | done].
    + intros i e Hi He%Hz [_ Hr]. specialize (Hgt i _ Hi He). lia.
  - intros Hne. destruct (lookup_lt_is_Some_2 ids le) as [x Hx]; [lia |]. exists x. split; [done |]. by apply (Hgt le).
Qed.

Lemma segment_beyond k : (forall i e, segment v k !! i = Some e -> (end_ < e.1)%N) -> filter in_range (segment v k) = [].
Proof. intros Hb. apply filter_nil, Forall_lookup. intros i e He [_ Hr]. specialize (Hb i e He). lia. Qed.

Lemma range_chunks_returns {Ctx} (f : Ctx -> N -> float -> Ctx) cs k ctx visited :
  drop k (chunks_ v) = cs ->
  range_chunks v start end_ f k cs ctx visited =
    Some (fold_left (fun c e => f c e.1 e.2) (filter in_range (segment v k)) ctx,
          visited + length (filter in_range (segment v k))).
Proof.
  pose proof chunk_size_pos as HK. revert k ctx visited. induction cs as [|c cs IH]; intros k ctx visited Hd.
  { cbn [range_chunks]. assert (Hz : chunks_len v - k = 0).
    { apply (f_equal length) in Hd. rewrite length_drop in Hd. done. }
    unfold segment. rewrite Hz. simpl. by rewrite Nat.add_0_r. }
  assert (Hc : chunks_ v !! k = Some c).
  { rewrite <- (Nat.add_0_r k), <- lookup_drop, Hd. done. }
  assert (Hd' : drop (S k) (chunks_ v) = cs) by by rewrite (drop_S _ _ _ Hc) in Hd; injection Hd.
  cbn [range_chunks]. destruct (N.ltb_spec end_ (initial c)) as [Hlt|Hge].
  { rewrite segment_beyond; [simpl; by rewrite Nat.add_0_r |]. intros i e He%segment_lookup.
    apply (after_chunk v k c end_ (k * CHUNK_SIZE + i)); [done | done | done | lia | done]. }
  destruct (vo_chunks _ Hv k c Hc) as [ids Hok]. rewrite (co_unpacks _ _ _ _ Hok). cbn [mbind option_bind].
  destruct (chunk_range k c ids Hc Hok) as (Hle & Hf & Hend).
  set (ls := partition_point (fun id => id <? start)%N ids) in *.
  set (le := partition_point (fun id => id <=? end_)%N ids) in *.
  rewrite (segment_cons v k c ids Hv Hc Hok), filter_app, fold_left_app, length_app, Hf.
  pose proof (co_length _ _ _ _ Hok) as Hl. pose proof (co_weights _ _ _ _ Hok) as Hw.
  destruct (Nat.eqb_spec (le - ls) 0) as [Ez|Ez].
  { rewrite Ez, take_0. simpl. by apply IH. }
  unfold weights_range. assert (Epos : (k * CHUNK_SIZE + ls) / CHUNK_SIZE = k /\ (k * CHUNK_SIZE + ls) mod CHUNK_SIZE = ls).
  { rewrite Nat.add_comm, Nat.div_add, Nat.Div0.mod_add, Nat.div_small, Nat.mod_small by lia. done. }
  destruct Epos as [-> ->]. rewrite Hc. cbn [mbind option_bind]. rewrite get_range_Some by lia. cbn [mbind option_bind].
  replace (ls + (le - ls) - ls) with (le - ls) by lia. rewrite get_range_Some by lia. cbn [mbind option_bind].
  rewrite into_f32_slice_each, fold_pairs.
  assert (Hlz : length (zip (take (le - ls) (drop ls ids))
    (to_f32 (multiplier v) <$> take (le - ls) (drop ls (chunk_weights c)))) = le - ls).
  { rewrite length_zip_with, length_fmap, !length_take, !length_drop. lia. }
  rewrite Hlz. destruct (Nat.eqb_spec le CHUNK_SIZE) as [Efull|Efull].
  - rewrite IH by done. replace (ls + (le - ls) - ls) with (le - ls) by lia. by rewrite <- Nat.add_assoc.
  - destruct (Hend Efull) as (x & Hx & Hgt). replace (ls + (le - ls) - ls) with (le - ls) by lia.
    rewrite (segment_beyond (S k)); [simpl; by rewrite Nat.add_0_r |].
    intros i e He%segment_lookup.
    assert (Ep : (k * CHUNK_SIZE + le) / CHUNK_SIZE = k /\ (k * CHUNK_SIZE + le) mod CHUNK_SIZE = le).
    { rewrite Nat.add_comm, Nat.div_add, Nat.Div0.mod_add, Nat.div_small, Nat.mod_small by lia. done. }
    destruct (chunk_lookup v (k * CHUNK_SIZE + le) c ids Hv) as (y & w & Hy & _ & E); [by rewrite (proj1 Ep).. |].
    rewrite (proj2 Ep), Hx in Hy. injection Hy as <-.
    pose proof (entry_lt v (k * CHUNK_SIZE + le) (S k * CHUNK_SIZE + i) _ e Hv ltac:(nia) E He) as Hxe. simpl in Hxe. lia.
Qed.
End Range.

Lemma take_records_spec v id es :
  StronglySorted by_record (element_entry v <$> es) ->
  element_entry v <$> take_records id es = filter (fun e => e.1 <= id)%N (element_entry v <$> es).
Proof.
  induction es as [|e es IH]; [done |]. csimpl. intros Hs. destruct (N.leb_spec (g_record_id e) id).
  - apply by_record_cons in Hs as [Hs _]. rewrite filter_cons_True by done. csimpl. by rewrite IH.
  - by destruct (filter_after id (element_entry v e) (element_entry v <$> es) Hs) as [_ ->].
Qed.

Lemma fold_counted {Ctx} v (f : Ctx -> N -> float -> Ctx) es ctx n :
  fold_left (fun '(ctx, visited) (e : @GenericPostingElement W) =>
      (f ctx (g_record_id e) (to_f32 (multiplier v) (g_weight e)), visited + 1)) es (ctx, n) =
    (fold_left (fun c e => f c e.1 e.2) (element_entry v <$> es) ctx, n + length es).
Proof.
  revert ctx n. induction es as [|e es IH]; intros ctx n; csimpl; [by rewrite Nat.add_0_r |].
  rewrite IH. f_equal. lia.
Qed.

Lemma remainder_filter v start end_ : view_ok v ->
  element_entry v <$>
    take_records end_ (drop (partition_point (fun e => g_record_id e <? start)%N (remainders v)) (remainders v)) =
  filter (in_range start end_) (element_entry v <$> remainders v).
Proof.
  intros Hv. pose proof (vo_sorted v Hv) as Hs. unfold view_entries in Hs. apply StronglySorted_app_r in Hs.
  rewrite take_records_spec.
  2: { rewrite fmap_drop. rewrite <- (take_drop (partition_point (fun e => g_record_id e <? start)%N (remainders v))
         (element_entry v <$> remainders v)) in Hs. by apply StronglySorted_app_r in Hs. }
  rewrite <- (filter_bounds start end_). f_equal. clear Hv.
  induction (remainders v) as [|e es IH]; [done |]. csimpl in Hs. csimpl. destruct (N.ltb_spec (g_record_id e) start).
  - apply by_record_cons in Hs as [Hs _]. rewrite filter_cons_False by (simpl; lia). by apply IH.
  - rewrite filter_from; [done | done | simpl; lia].
Qed.

Lemma range_returns {Ctx} it start end_ (ctx : Ctx) f : cursor_ok it ->
  cpl_for_each_in_id_range it start end_ ctx f =
    Some (fold_left (fun c e => f c e.1 e.2) (filter (fun e => start <= e.1 <= end_)%N (cpl_entries it)) ctx,
          length (filter (fun e => start <= e.1 <= end_)%N (cpl_entries it))).
Proof.
  intros Hok. pose proof (cu_view _ Hok) as Hv. set (v := list_ it). unfold cpl_for_each_in_id_range. fold v.
  destruct (N.ltb_spec end_ start) as [Hlt|Hse].
  { rewrite filter_nil; [done |]. apply Forall_forall. intros e _. lia. }
  set (k := partition_point _ (chunks_ v) - 1). rewrite (range_chunks_returns v Hv start end_ Hse) by done.
  cbn [mbind option_bind]. rewrite fold_counted, <- fold_left_app, remainder_filter by done.
  assert (Hcut : cpl_entries it = take (k * CHUNK_SIZE) (cpl_entries it) ++ segment v k
    ++ (element_entry v <$> remainders v)).
  { pose proof (remainder_entries v (chunks_len v * CHUNK_SIZE) Hv ltac:(lia)) as Er.
    rewrite Nat.sub_diag, drop_0 in Er. rewrite <- Er. unfold segment, cpl_entries. fold v.
    assert (Hk : k <= chunks_len v).
    { unfold k, chunks_len. destruct (partition_point_spec (fun chunk => initial chunk <=? start)%N (chunks_ v)) as [Hp _]. lia. }
    rewrite <- (take_drop (k * CHUNK_SIZE) (view_entries v)) at 1. f_equal.
    rewrite <- (take_drop ((chunks_len v - k) * CHUNK_SIZE) (drop (k * CHUNK_SIZE) (view_entries v))) at 1.
    f_equal. rewrite drop_drop. f_equal. nia. }
  assert (Hpre : filter (in_range start end_) (take (k * CHUNK_SIZE) (cpl_entries it)) = []).
  { apply filter_nil, Forall_lookup. intros i e [He Hi]%lookup_take_Some [Hr _].
    destruct (partition_point_spec (fun chunk => initial chunk <=? start)%N (chunks_ v)) as (P1 & P2 & _).
    destruct (lookup_lt_is_Some_2 (chunks_ v) k) as [c Hc]; [unfold k in *; nia |].
    specialize (P2 k c ltac:(unfold k in *; nia) Hc). apply N.leb_le in P2.
    pose proof (before_chunk v k c start i e Hv Hc P2 Hi He). lia. }
  change (fun e : PostingElement => (start <= e.1 <= end_)%N) with (in_range start end_).
  rewrite Hcut at 1 2. rewrite !filter_app, Hpre. simpl. f_equal. f_equal. rewrite length_app. f_equal.
  by rewrite <- (length_fmap (element_entry v)), remainder_filter.
Qed.

(** ** Maxima *)

Local Abbreviation impacts es := (Forall (fun e : PostingElement => impact binary32 e.2) es).

Lemma chunk_max_bound v k c :
  view_ok v -> impacts (view_entries v) -> chunks_ v !! k = Some c ->
  impact binary32 (decoded_chunk_max (multiplier v) c) /\
  forall p e, p / CHUNK_SIZE = k -> view_entries v !! p = Some e ->
    (rank binary32 e.2 <= rank binary32 (decoded_chunk_max (multiplier v) c))%Z.
Proof.
  intros Hv Hi Hc. destruct (vo_chunks v Hv k c Hc) as [ids Hok]. pose proof chunk_size_pos.
  assert (Hws : Forall (impact binary32) (to_f32 (multiplier v) <$> chunk_weights c)).
  { apply Forall_fmap, Forall_lookup. intros i w Hw. apply lookup_lt_Some in Hw as Hlt. rewrite (co_weights _ _ _ _ Hok) in Hlt.
    assert (Ep : (k * CHUNK_SIZE + i) / CHUNK_SIZE = k /\ (k * CHUNK_SIZE + i) mod CHUNK_SIZE = i).
    { rewrite Nat.add_comm, Nat.div_add, Nat.Div0.mod_add, Nat.div_small, Nat.mod_small by lia. done. }
    destruct (chunk_lookup v (k * CHUNK_SIZE + i) c ids Hv) as (x & w' & _ & Hw' & E); [by rewrite (proj1 Ep).. |].
    rewrite (proj2 Ep), Hw in Hw'. injection Hw' as <-. rewrite Forall_lookup in Hi. apply (Hi _ _ E). }
  destruct (fold_fmax_impact _ fzero impact_zero Hws) as [H1 H2]. split; [done |].
  intros p e <- He. destruct (chunk_lookup v p c ids Hv Hc Hok) as (x & w & _ & Hw & E).
  rewrite He in E. injection E as ->. apply Forall_cons in H2 as [_ H2]. rewrite Forall_forall in H2.
  apply (H2 (to_f32 (multiplier v) w)). apply list_elem_of_fmap_2. by eapply list_elem_of_lookup_2.
Qed.

Lemma passed_in_rest it p e :
  cursor_ok it -> cpl_entries it !! p = Some e -> e ∈ cpl_rest it -> (pos it).1 <= p.
Proof.
  intros Hok He Hr. apply Nat.nlt_ge. intros Hlt. apply list_elem_of_lookup in Hr as [i Hi].
  unfold cpl_rest in Hi. rewrite lookup_drop in Hi.
  pose proof (entry_lt _ p ((pos it).1 + i) e e (cu_view _ Hok) ltac:(lia) He Hi). lia.
Qed.

(** The chunks from the cursor to a record it has not passed. *)
Lemma chunks_till it id :
  cursor_ok it -> (forall e, e ∈ cpl_entries it -> (id < e.1)%N -> e ∈ cpl_rest it) ->
  let end_chunk := partition_point (fun chunk => initial chunk <=? id)%N (chunks_ (list_ it)) in
  (pos it).1 / CHUNK_SIZE < chunks_len (list_ it) ->
  (pos it).1 / CHUNK_SIZE <= end_chunk <= chunks_len (list_ it) /\
  forall p e, cpl_entries it !! p = Some e -> p / CHUNK_SIZE < chunks_len (list_ it) -> (e.1 <= id)%N ->
    p / CHUNK_SIZE < end_chunk.
Proof.
  intros Hok Hnp end_chunk Hlt. pose proof (cu_view _ Hok) as Hv. pose proof chunk_size_pos.
  destruct (partition_point_spec (fun chunk => initial chunk <=? id)%N (chunks_ (list_ it))) as (P1 & P2 & P3).
  fold end_chunk in P1, P2, P3. split; [split; [|done] |].
  - apply Nat.nlt_ge. intros Hge. destruct (lookup_lt_is_Some_2 (chunks_ (list_ it)) end_chunk) as [c Hc];
      [unfold chunks_len in *; lia |].
    specialize (P3 c Hc). apply N.leb_gt in P3. destruct (initial_entry _ _ c Hv Hc) as (e & He & Ee).
    pose proof (passed_in_rest it _ e Hok He (Hnp e (list_elem_of_lookup_2 _ _ _ He) ltac:(lia))) as Hp.
    pose proof (Nat.Div0.mul_div_le (pos it).1 CHUNK_SIZE). nia.
  - intros p e He Hp Hle. apply Nat.nle_gt. intros Hge.
    destruct (lookup_lt_is_Some_2 (chunks_ (list_ it)) end_chunk) as [c Hc]; [unfold chunks_len in *; lia |].
    specialize (P3 c Hc). apply N.leb_gt in P3.
    pose proof (after_chunk _ end_chunk c id p e Hv Hc P3) as Ha.
    pose proof (Nat.Div0.mul_div_le p CHUNK_SIZE). specialize (Ha ltac:(nia) He). lia.
Qed.

(** A bound of the entries up to a record, from a position on. *)
Definition bounds it (Q : nat -> Prop) (id : N) (m : float) : Prop :=
  impact binary32 m /\ forall p e, (pos it).1 <= p -> Q p -> cpl_entries it !! p = Some e -> (e.1 <= id)%N ->
    (rank binary32 e.2 <= rank binary32 m)%Z.

Lemma chunks_max it id :
  cursor_ok it -> impacts (cpl_entries it) ->
  (forall e, e ∈ cpl_entries it -> (id < e.1)%N -> e ∈ cpl_rest it) ->
  let v := list_ it in
  exists m, (if (pos it).1 / CHUNK_SIZE <? chunks_len v
      then cs ← get_range (chunks_ v) ((pos it).1 / CHUNK_SIZE)
             (partition_point (fun chunk => initial chunk <=? id)%N (chunks_ v));
           Some (fold_left fmax (decoded_chunk_max (multiplier v) <$> cs) fzero)
      else Some fzero) = Some m /\ bounds it (fun p => p / CHUNK_SIZE < chunks_len v) id m.
Proof.
  intros Hok Hi Hnp v. pose proof (cu_view _ Hok) as Hv.
  destruct (Nat.ltb_spec ((pos it).1 / CHUNK_SIZE) (chunks_len v)) as [Hlt|Hge].
  2: { exists fzero. split; [done |]. split; [apply impact_zero |]. intros p e Hp Hin. exfalso.
       assert ((pos it).1 / CHUNK_SIZE <= p / CHUNK_SIZE) by by apply Nat.Div0.div_le_mono. lia. }
  destruct (chunks_till it id Hok Hnp Hlt) as [Hend Hbelow]. fold v in Hend, Hbelow.
  set (stop := partition_point _ (chunks_ v)) in *.
  rewrite get_range_Some by (unfold chunks_len in *; lia). cbn [mbind option_bind].
  set (cs := take _ _). assert (Hmax : Forall (impact binary32) (decoded_chunk_max (multiplier v) <$> cs)).
  { apply Forall_fmap, Forall_lookup. intros i c [Hc _]%lookup_take_Some. rewrite lookup_drop in Hc.
    by apply (chunk_max_bound v _ c Hv Hi Hc). }
  destruct (fold_fmax_impact _ fzero impact_zero Hmax) as [H1 H2]. eexists. split; [done |]. split; [done |].
  intros p e Hp Hin He Hle. destruct (lookup_lt_is_Some_2 (chunks_ v) (p / CHUNK_SIZE) Hin) as [c Hc].
  destruct (chunk_max_bound v _ c Hv Hi Hc) as [_ Hb]. specialize (Hb p e eq_refl He).
  apply Forall_cons in H2 as [_ H2]. rewrite Forall_fmap, Forall_forall in H2.
  assert (Hk : (pos it).1 / CHUNK_SIZE <= p / CHUNK_SIZE) by by apply Nat.Div0.div_le_mono.
  assert (Hcs : c ∈ cs).
  { unfold cs. specialize (Hbelow p e He Hin Hle). apply (list_elem_of_lookup_2 _ (p / CHUNK_SIZE - (pos it).1 / CHUNK_SIZE)).
    rewrite lookup_take_lt, lookup_drop by lia. by replace ((pos it).1 / CHUNK_SIZE + _) with (p / CHUNK_SIZE) by lia. }
  specialize (H2 c Hcs). simpl in H2. lia.
Qed.

Lemma remainders_max v rs id m :
  view_ok v -> impacts (view_entries v) -> impact binary32 m ->
  let m' := fold_left fmax
    ((fun e => to_f32 (multiplier v) (g_weight e)) <$> take_records id (drop rs (remainders v))) m in
  impact binary32 m' /\ (rank binary32 m <= rank binary32 m')%Z /\
  forall i e, rs <= i -> remainders v !! i = Some e -> (g_record_id e <= id)%N ->
    (rank binary32 (element_entry v e).2 <= rank binary32 m')%Z.
Proof.
  intros Hv Hi Hm m'. set (es := take_records id (drop rs (remainders v))) in m'.
  assert (Hes : element_entry v <$> es = filter (fun e => e.1 <= id)%N (element_entry v <$> drop rs (remainders v))).
  { apply take_records_spec. pose proof (vo_sorted v Hv) as Hs. unfold view_entries in Hs.
    apply StronglySorted_app_r in Hs. rewrite <- (take_drop rs (remainders v)), fmap_app in Hs.
    by apply StronglySorted_app_r in Hs. }
  assert (Hw : (fun e => to_f32 (multiplier v) (g_weight e)) <$> es = snd <$> (element_entry v <$> es)).
  { by rewrite <- list_fmap_compose. }
  assert (Hws : Forall (impact binary32) ((fun e => to_f32 (multiplier v) (g_weight e)) <$> es)).
  { rewrite Hw, Hes. apply Forall_fmap, Forall_forall. intros e [_ He]%list_elem_of_filter.
    apply list_elem_of_fmap in He as (x & -> & Hx). apply list_elem_of_lookup in Hx as [i Hx].
    rewrite lookup_drop in Hx. rewrite Forall_lookup in Hi. apply (Hi _ _ (remainder_entry v _ x Hv Hx)). }
  destruct (fold_fmax_impact _ m Hm Hws) as [H1 H2]. apply Forall_cons in H2 as [H2 H3].
  split_and!; [done | done |]. intros i e Hge He Hle. rewrite Forall_forall in H3. apply H3.
  rewrite Hw, Hes. apply list_elem_of_fmap_2, list_elem_of_filter. split; [done |]. apply list_elem_of_fmap_2.
  apply (list_elem_of_lookup_2 _ (i - rs)). rewrite lookup_drop. by replace (rs + (i - rs)) with i by lia.
Qed.

Lemma max_weight_returns it id :
  cursor_ok it -> impacts (cpl_entries it) ->
  (forall e, e ∈ cpl_entries it -> (id < e.1)%N -> e ∈ cpl_rest it) ->
  exists m, cpl_max_weight_till_id it id = Some m /\ impact binary32 m /\
    Forall (fun e => (e.1 <= id)%N -> (rank binary32 e.2 <= rank binary32 m)%Z) (cpl_rest it).
Proof.
  intros Hok Hi Hnp. pose proof (cu_view _ Hok) as Hv. pose proof chunk_size_pos as HK.
  unfold cpl_max_weight_till_id. destruct (chunks_max it id Hok Hi Hnp) as (m & -> & Hm & Hb).
  cbn [mbind option_bind]. set (v := list_ it) in *. set (rs := (pos it).1 - chunks_len v * CHUNK_SIZE).
  assert (Hfin : forall m', impact binary32 m' -> (rank binary32 m <= rank binary32 m')%Z ->
    (forall i e, rs <= i -> remainders v !! i = Some e -> (g_record_id e <= id)%N ->
      (rank binary32 (element_entry v e).2 <= rank binary32 m')%Z) ->
    Forall (fun e => (e.1 <= id)%N -> (rank binary32 e.2 <= rank binary32 m')%Z) (cpl_rest it)).
  { intros m' Hm' Hmm Hr. apply Forall_lookup. intros i e. unfold cpl_rest. rewrite lookup_drop. intros He Hle.
    destruct (Nat.lt_ge_cases (((pos it).1 + i) / CHUNK_SIZE) (chunks_len v)) as [Hin|Hout].
    { specialize (Hb ((pos it).1 + i) e ltac:(lia) Hin He Hle). lia. }
    unfold cpl_entries in He. rewrite entries_lookup in He by done. fold v in He.
    rewrite (proj2 (Nat.ltb_ge _ _) Hout) in He. apply fmap_Some in He as (x & Hx & ->).
    apply (Hr ((pos it).1 + i - chunks_len v * CHUNK_SIZE) x); [|done|done]. unfold rs. lia. }
  destruct (orb _ _) eqn:Eb.
  - rewrite get_range_Some.
    2: { pose proof (cu_pos _ Hok) as Hp. unfold cpl_entries in Hp. fold v in Hp.
         rewrite (entries_length _ Hv) in Hp. unfold view_len in Hp. lia. }
    2: { done. }
    cbn [mbind option_bind]. rewrite take_ge by (rewrite length_drop; unfold remainder_len; lia).
    destruct (remainders_max v rs id m Hv Hi Hm) as (R1 & R2 & R3). eexists. split; [done |]. split; [done |].
    by apply Hfin.
  - apply orb_false_iff in Eb as [_ Eh]. exists m. split; [done |]. split; [done |]. apply Hfin; [done | lia |].
    intros i e _ He Hle. exfalso. destruct (head (remainders v)) as [r|] eqn:Er; [|by destruct (remainders v)].
    destruct (head_remainder v r _ _ Hv Er (remainder_entry v i e Hv He)) as [Hh _]. specialize (Hh ltac:(lia)).
    apply N.leb_gt in Eh. simpl in Hh. lia.
Qed.

(** Bounds that only grow. *)
Definition raised (ms ms' : list float) : Prop :=
  Forall2 (fun b b' => impact binary32 b' /\ (rank binary32 b <= rank binary32 b')%Z) ms ms'.

Lemma raised_refl ms : Forall (impact binary32) ms -> raised ms ms.
Proof. induction 1; constructor; [split; [done | lia] | done]. Qed.

Lemma raised_trans a b c : raised a b -> raised b c -> raised a c.
Proof.
  intros H1. revert c. induction H1 as [|x y a b [Hy Hxy] H1 IH]; intros c H2; inversion H2 as [|? z ? c' [Hz Hyz]]; subst;
    constructor; [split; [done | lia] | by apply IH].
Qed.

Lemma raised_impacts ms ms' : raised ms ms' -> Forall (impact binary32) ms'.
Proof. induction 1 as [|???? [? _]]; by constructor. Qed.

Lemma raised_lookup ms ms' i b' :
  raised ms ms' -> ms' !! i = Some b' -> exists b, ms !! i = Some b /\ (rank binary32 b <= rank binary32 b')%Z.
Proof. intros Hr Hb. destruct (Forall2_lookup_r _ _ _ _ _ Hr Hb) as (b & Hb' & _ & Hle). eauto. Qed.

Lemma raise_ranges_spec a b m ms :
  Forall (impact binary32) ms -> impact binary32 m ->
  raised ms (raise_ranges a b m ms) /\
  forall i x, (a <= N.of_nat i <= b)%N -> raise_ranges a b m ms !! i = Some x -> (rank binary32 m <= rank binary32 x)%Z.
Proof.
  intros Hms Hm. unfold raise_ranges. split.
  - apply Forall2_same_length_lookup_2; [by rewrite length_imap |]. intros i x y Hx. rewrite list_lookup_imap, Hx.
    rewrite Forall_lookup in Hms. specialize (Hms i x Hx). destruct (fmax_impact x m Hms Hm) as (F1 & F2 & F3).
    destruct (_ && _); intros [= <-]; split; try done; lia.
  - intros i x Hi. rewrite list_lookup_imap. destruct (ms !! i) as [y|] eqn:Ey; [|done].
    rewrite (proj2 (N.leb_le _ _) (proj1 Hi)), (proj2 (N.leb_le _ _) (proj2 Hi)). intros [= <-].
    rewrite Forall_lookup in Hms. apply (fmax_impact y m (Hms i y Ey) Hm).
Qed.

Lemma covered_end_spec v p c e :
  view_ok v -> chunks_ v !! (p / CHUNK_SIZE) = Some c -> view_entries v !! p = Some e ->
  (initial c <= e.1 <= covered_end v (p / CHUNK_SIZE) c)%N.
Proof.
  intros Hv Hc He. pose proof chunk_size_pos. pose proof (Nat.div_mod_eq p CHUNK_SIZE) as Ep.
  pose proof (Nat.mod_upper_bound p CHUNK_SIZE ltac:(lia)). split.
  - destruct (initial_entry v _ c Hv Hc) as (x & Hx & <-). apply (entry_le v (p / CHUNK_SIZE * CHUNK_SIZE) p x e Hv); [lia | done | done].
  - unfold covered_end. destruct (chunks_ v !! (p / CHUNK_SIZE + 1)) as [c'|] eqn:Ec; simpl.
    { destruct (initial_entry v _ c' Hv Ec) as (x & Hx & <-).
      pose proof (entry_lt v p ((p / CHUNK_SIZE + 1) * CHUNK_SIZE) e x Hv ltac:(lia) He Hx). lia. }
    apply lookup_lt_Some in Hc as Hk. apply lookup_ge_None in Ec. fold (chunks_len v) in *.
    destruct (head (remainders v)) as [r|] eqn:Er; simpl.
    { destruct (head_remainder v r p e Hv Er He) as [_ Hh]. specialize (Hh ltac:(nia)). lia. }
    rewrite (vo_last v Hv), last_lookup. apply lookup_lt_Some in He as Hp.
    destruct (lookup_lt_is_Some_2 (view_entries v) (pred (length (view_entries v)))) as [x Hx]; [lia |].
    rewrite Hx. simpl. apply (entry_le v p (pred (length (view_entries v))) e x Hv); [lia | done | done].
Qed.

(** The bounds cover the entries at some positions. *)
Definition covers_entries v (start width : N) (Q : nat -> Prop) (ms : list float) : Prop :=
  forall p e b, Q p -> view_entries v !! p = Some e -> (start <= e.1)%N ->
    ms !! N.to_nat ((e.1 - start) / width) = Some b -> (rank binary32 e.2 <= rank binary32 b)%Z.

Lemma covers_raised v start width Q ms ms' :
  covers_entries v start width Q ms -> raised ms ms' -> covers_entries v start width Q ms'.
Proof.
  intros Hc Hr p e b' Hq He Hs Hb. destruct (raised_lookup _ _ _ _ Hr Hb) as (b & Hb' & Hle).
  specialize (Hc p e b Hq He Hs Hb'). lia.
Qed.

Lemma fill_chunks_spec v start width cs k ms :
  view_ok v -> impacts (view_entries v) -> (0 < width)%N -> drop k (chunks_ v) = cs ->
  Forall (impact binary32) ms ->
  raised ms (fill_chunks v start width k cs ms) /\
  covers_entries v start width (fun p => k <= p / CHUNK_SIZE < chunks_len v) (fill_chunks v start width k cs ms).
Proof.
  intros Hv Hi Hw. revert k ms. induction cs as [|c cs IH]; intros k ms Hd Hms; cbn [fill_chunks].
  { split; [by apply raised_refl |]. intros p e b Hq. exfalso. apply (f_equal length) in Hd.
    rewrite length_drop in Hd. unfold chunks_len in Hq. simpl in Hd. lia. }
  assert (Hc : chunks_ v !! k = Some c) by (rewrite <- (Nat.add_0_r k), <- lookup_drop, Hd; done).
  assert (Hd' : drop (S k) (chunks_ v) = cs) by by rewrite (drop_S _ _ _ Hc) in Hd; injection Hd.
  destruct (chunk_max_bound v k c Hv Hi Hc) as [Hm Hb].
  set (a := ((initial c - start) / width)%N). set (z := ((covered_end v k c - start) / width)%N).
  set (m := decoded_chunk_max (multiplier v) c) in *.
  destruct (raise_ranges_spec a z m ms Hms Hm) as [R1 R2].
  destruct (IH (S k) (raise_ranges a z m ms) Hd' (raised_impacts _ _ R1)) as [I1 I2].
  split; [by eapply raised_trans |]. intros p e b Hq He Hs Hlook.
  destruct (Nat.eq_dec (p / CHUNK_SIZE) k) as [Ek|Ek]; [|by apply (I2 p e b); [lia |..]].
  destruct (raised_lookup _ _ _ _ I1 Hlook) as (b0 & Hb0 & Hle). specialize (Hb p e Ek He).
  destruct (covered_end_spec v p c e Hv ltac:(by rewrite Ek) He) as [Hlo Hhi]. rewrite Ek in Hhi.
  assert (Hrange : (a <= N.of_nat (N.to_nat ((e.1 - start) / width)) <= z)%N).
  { rewrite N2Nat.id. unfold a, z. split; apply N.Div0.div_le_mono; lia. }
  specialize (R2 _ b0 Hrange Hb0). lia.
Qed.

Lemma fill_remainders_spec v start width es ms k :
  view_ok v -> impacts (view_entries v) -> drop k (remainders v) = es -> Forall (impact binary32) ms ->
  let ms' := fold_left (fill_remainder v start width) es ms in
  raised ms ms' /\
  covers_entries v start width (fun p => chunks_len v * CHUNK_SIZE + k <= p) ms'.
Proof.
  intros Hv Hi. revert k ms. induction es as [|x es IH]; intros k ms Hd Hms ms'.
  { split; [by apply raised_refl |]. intros p e b Hq He%lookup_lt_Some. exfalso.
    rewrite (entries_length v Hv) in He. unfold view_len, remainder_len in He. apply (f_equal length) in Hd.
    rewrite length_drop in Hd. simpl in Hd. lia. }
  assert (Hx : remainders v !! k = Some x) by (rewrite <- (Nat.add_0_r k), <- lookup_drop, Hd; done).
  assert (Hd' : drop (S k) (remainders v) = es) by by rewrite (drop_S _ _ _ Hx) in Hd; injection Hd.
  pose proof (remainder_entry v k x Hv Hx) as Ex. assert (Hw : impact binary32 (to_f32 (multiplier v) (g_weight x))).
  { rewrite Forall_lookup in Hi. apply (Hi _ _ Ex). }
  assert (R1 : raised ms (fill_remainder v start width ms x)).
  { unfold fill_remainder. apply Forall2_same_length_lookup_2; [by rewrite length_alter |]. intros i b b' Hb Hb'.
    rewrite Forall_lookup in Hms. specialize (Hms i b Hb). destruct (fmax_impact b _ Hms Hw) as (F1 & F2 & F3).
    destruct (decide (i = N.to_nat ((g_record_id x - start) / width))) as [->|Hne].
    - rewrite list_lookup_alter_eq, Hb in Hb'. simpl in Hb'. injection Hb' as <-. done.
    - rewrite list_lookup_alter_ne, Hb in Hb' by done. injection Hb' as <-. split; [done | lia]. }
  destruct (IH (S k) _ Hd' (raised_impacts _ _ R1)) as [I1 I2]. subst ms'. cbn [fold_left].
  split; [by eapply raised_trans |]. intros p e b Hq He Hs Hlook.
  destruct (Nat.eq_dec p (chunks_len v * CHUNK_SIZE + k)) as [->|Hne]; [|by apply (I2 p e b); [lia |..]].
  rewrite Ex in He. injection He as <-. destruct (raised_lookup _ _ _ _ I1 Hlook) as (b0 & Hb0 & Hle).
  unfold fill_remainder in Hb0. cbn [fst element_entry] in Hb0. rewrite list_lookup_alter_eq in Hb0.
  apply fmap_Some in Hb0 as (b1 & Hb1 & ->). rewrite Forall_lookup in Hms.
  destruct (fmax_impact b1 _ (Hms _ _ Hb1) Hw) as (F1 & F2 & F3). simpl. lia.
Qed.

Lemma fill_returns it start width maxima :
  cursor_ok it -> (0 < width)%N -> impacts (cpl_entries it) ->
  exists maxima', cpl_fill_block_max_ranges it start width maxima = Some maxima' /\
  length maxima' = length maxima /\ Forall (impact binary32) maxima' /\
  covers_entries (list_ it) start width (fun _ => True) maxima'.
Proof.
  intros Hok Hw Hi. unfold cpl_fill_block_max_ranges. rewrite (proj2 (N.eqb_neq _ _)) by lia. cbn [andb].
  set (maxima' := fold_left _ _ _). exists maxima'. split; [done |]. pose proof (cu_view _ Hok) as Hv. set (zs := (fun _ : float => fzero) <$> maxima).
  assert (Hz : Forall (impact binary32) zs).
  { apply Forall_fmap, Forall_forall. intros x _. apply impact_zero. }
  destruct (fill_chunks_spec (list_ it) start width (chunks_ (list_ it)) 0 zs Hv Hi Hw eq_refl Hz) as [C1 C2].
  destruct (fill_remainders_spec (list_ it) start width (remainders (list_ it)) _ 0 Hv Hi eq_refl (raised_impacts _ _ C1)) as [R1 R2].
  change (raised (fill_chunks (list_ it) start width 0 (chunks_ (list_ it)) zs) maxima') in R1.
  change (covers_entries (list_ it) start width (fun p => chunks_len (list_ it) * CHUNK_SIZE + 0 <= p) maxima') in R2.
  split_and!.
  - rewrite <- (Forall2_length _ _ _ R1), <- (Forall2_length _ _ _ C1). unfold zs. by rewrite length_fmap.
  - by eapply raised_impacts.
  - intros p e b _ He. pose proof chunk_size_pos.
    destruct (Nat.lt_ge_cases (p / CHUNK_SIZE) (chunks_len (list_ it))) as [Hin|Hout].
    + apply (covers_raised _ _ _ _ _ _ C2 R1 p e b); [lia | done].
    + apply (R2 p e b); [|done]. pose proof (Nat.Div0.mul_div_le p CHUNK_SIZE). nia.
Qed.

(** ** The laws *)

#[export] Program Instance compressed_lawful : LawfulPosting cursor := {|
  posting_ok := cursor_ok;
  entries := cpl_entries;
  posting_rest := cpl_rest;
|}.
Next Obligation. intros it Hok. apply (vo_sorted _ (cu_view _ Hok)). Qed.
Next Obligation.
  intros it _. exists (take (pos it).1 (cpl_entries it)). unfold cpl_rest. by rewrite take_drop.
Qed.
Next Obligation.
  intros it it' r Hok. simpl. destruct (peek_returns it Hok) as (it1 & r1 & -> & Hok1 & El & Ep & Er).
  intros [= <- <-]. split_and!; [done | by apply same_entries | by apply same_rest |]. rewrite Er.
  unfold cpl_rest. rewrite <- (Nat.add_0_r (pos it).1) at 1. rewrite <- lookup_drop. by destruct (drop _ _).
Qed.
Next Obligation. intros it Hok. apply (vo_last _ (cu_view _ Hok)). Qed.
Next Obligation.
  intros it it' id r Hok. simpl. destruct (skip_to_default it id Hok) as (it1 & r1 & -> & Hok1 & El & Hr & _).
  intros [= <- <-]. split_and!; [done | by apply same_entries | done].
Qed.
Next Obligation.
  intros it id Hok. simpl. by destruct (skip_to_default it id Hok) as (it1 & r1 & -> & _ & _ & _ & Hf & _).
Qed.
Next Obligation. intros it Hok. by apply skip_to_end_ok. Qed.
Next Obligation.
  intros it Hok. simpl. pose proof (cu_pos _ Hok). unfold cpl_rest. rewrite length_drop. lia.
Qed.
Next Obligation. intros Ctx it start end_ ctx f Hok. simpl. by rewrite (range_returns it start end_ ctx f Hok). Qed.
Next Obligation. done. Qed.
Next Obligation.
  intros it Hok Hr. simpl. unfold cpl_into_std_iter. rewrite (len_to_end_rest it Hok).
  rewrite collect_returns; [by rewrite Hr | done | lia].
Qed.
Next Obligation. intros it Hok. by apply len_to_end_rest. Qed.
Next Obligation.
  intros Ctx it it' id ctx ctx' f Hok. simpl.
  destruct (for_each_returns it id ctx f Hok) as (it1 & ctx1 & -> & Hok1 & El & Hr & Hc).
  intros [= <- <-]. split_and!; [done | by apply same_entries | done | done].
Qed.
Next Obligation.
  intros it it' id r Hok. simpl. intros [= <- <-] Hi Hnp. split_and!; try done. by apply max_weight_returns.
Qed.
Next Obligation.
  intros it id Hok. simpl. destruct (skip_till_default it id Hok) as (it1 & -> & Hok1 & El & Hr).
  split_and!; [done | by apply same_entries | done].
Qed.
Next Obligation.
  intros it start width maxima maxima' Hok Hw. simpl. intros [= <-] Hi.
  destruct (fill_returns it start width maxima Hok Hw Hi) as (m & -> & H1 & H2 & H3). split_and!; [done | done |].
  apply Forall_lookup. intros p e He Hs b Hb. by apply (H3 p e b).
Qed.
End Laws.
