(* ===== verification/CompressedBuild.v ===== *)
(** * Building compressed posting lists

    [CompressedPostingBuilder::build] sorts its records, cuts them into
    chunks, packs the identifiers of all full ones behind each other and keeps
    the rest.  The file proves that a built list is well formed and holds
    exactly the records that were added, each with its weight quantized and
    decoded. *)

From S2P Require Import Prelude Float Order PointId RrfScoring Postings MachineInt CompressedPostings CompressedLaws.

#[local] Arguments Nat.div : simpl never.
#[local] Arguments Nat.modulo : simpl never.
#[local] Arguments Nat.mul : simpl never.

#[export] Instance element_cmp_total : TotalCmp element_cmp.
Proof. apply (TotalCmp_key N.compare fst), _. Qed.

(** The i-th piece of a concatenation. *)
Lemma join_piece {A} (ls : list (list A)) i l :
  ls !! i = Some l -> mjoin ls = mjoin (take i ls) ++ l ++ mjoin (drop (S i) ls).
Proof.
  intros E. rewrite <- (take_drop_middle ls i l E) at 1. rewrite join_app. done.
Qed.

Lemma join_take_S {A} (ls : list (list A)) i l :
  ls !! i = Some l -> mjoin (take (S i) ls) = mjoin (take i ls) ++ l.
Proof. intros E. rewrite (take_S_r _ _ _ E), join_app. simpl. by rewrite app_nil_r. Qed.

Lemma join_get_range {A} (ls : list (list A)) i l :
  ls !! i = Some l ->
  get_range (mjoin ls) (length (mjoin (take i ls))) (length (mjoin (take i ls)) + length l) = Some l.
Proof.
  intros E. rewrite (join_piece ls i l E). rewrite get_range_Some by (rewrite ?length_app; lia).
  rewrite drop_app_length, Nat.add_comm, Nat.add_sub, take_app_length. done.
Qed.

Lemma fmap_join {A B} (f : A -> B) (ls : list (list A)) : mjoin (fmap f <$> ls) = f <$> mjoin ls.
Proof. induction ls as [|l ls IH]; [done |]. csimpl. rewrite fmap_app. by rewrite IH. Qed.

Section Build.
Context {W P : Type} `{HW : Weight W P} `{HB : BitPacker}.
Context (params : P) (full : list (list PostingElement)) (rest : list PostingElement).

(** ** What the loops compute *)

Definition piece_ids (piece : list PostingElement) : list N := fst <$> piece.
Definition piece_first (piece : list PostingElement) : N := default 0%N (head (piece_ids piece)).
Definition piece_base (piece : list PostingElement) : option N := checked_sub (piece_first piece) 1.
Definition piece_bits (piece : list PostingElement) : N :=
  num_bits_strictly_sorted (piece_base piece) (piece_ids piece).
Definition packed_piece (piece : list PostingElement) : list N :=
  compress_strictly_sorted (piece_base piece) (piece_ids piece) (piece_bits piece).
Definition packed : list (list N) := packed_piece <$> full.

Definition made_chunk (i : nat) (piece : list PostingElement) : @CompressedPostingChunk W :=
  {| initial := piece_first piece; offset := N.of_nat (length (mjoin (take i packed)));
     chunk_weights := (fun e => from_f32 params e.2) <$> piece |}.

Context (Hfull : Forall (fun c => length c = CHUNK_SIZE) full) (Hrest : length rest < CHUNK_SIZE).
Context (Hsorted : StronglySorted by_record (mjoin full ++ rest)).
Context (H32 : Forall (fun e => e.1 < 2 ^ 32)%N (mjoin full ++ rest)).
Context (Hsize : (N.of_nat (length (mjoin full ++ rest)) < 2 ^ 30)%N).

Lemma piece_ok i piece : full !! i = Some piece ->
  length piece = CHUNK_SIZE /\ StronglySorted by_record piece /\ Forall (fun e => e.1 < 2 ^ 32)%N piece.
Proof.
  intros E. rewrite Forall_lookup in Hfull. split; [by apply (Hfull i) |].
  rewrite (join_piece full i piece E), <- !app_assoc in Hsorted, H32. split.
  - apply StronglySorted_app_r in Hsorted. by apply StronglySorted_app_1_l in Hsorted.
  - rewrite !Forall_app in H32. tauto.
Qed.

Lemma piece_head i piece : full !! i = Some piece ->
  head (piece_ids piece) = Some (piece_first piece) /\ block_ok (piece_base piece) (piece_ids piece).
Proof.
  intros E. destruct (piece_ok i piece E) as (Hl & Hs & H). pose proof chunk_size_pos.
  unfold piece_first, piece_base, piece_ids in *. destruct piece as [|e piece]; [simpl in Hl; lia |]. split; [done |].
  apply by_record_cons in Hs as Hs'. destruct Hs' as [_ Hhd].
  split_and!; [by rewrite length_fmap | | by apply Forall_fmap |].
  - clear -Hs. induction Hs as [|x l Hl IH Hx]; csimpl; [constructor |]. constructor; [done |]. by apply Forall_fmap.
  - change (piece_first (e :: piece)) with e.1. unfold checked_sub. destruct (N.leb_spec 1 e.1) as [Hle|]; [|done].
    csimpl. constructor; [lia |].
    apply Forall_fmap. eapply Forall_impl; [exact Hhd |]. unfold by_record. simpl. lia.
Qed.

Lemma packed_length i piece : full !! i = Some piece ->
  length (packed_piece piece) = compressed_block_size (piece_bits piece) /\
  (piece_bits piece <= 32)%N /\ length (packed_piece piece) = N.to_nat (piece_bits piece) * 16.
Proof.
  intros E. destruct (piece_head i piece E) as [_ Hb]. pose proof (num_bits_bound _ _ Hb) as Hn.
  assert (Hl : length (packed_piece piece) = compressed_block_size (piece_bits piece)).
  { apply compressed_length; [done |]. unfold piece_bits in *. lia. }
  split_and!; [done | done |]. rewrite Hl, block_size_bits. unfold CHUNK_SIZE.
  replace (N.to_nat (piece_bits piece) * 128) with (N.to_nat (piece_bits piece) * 16 * 8) by lia.
  by rewrite Nat.div_mul.
Qed.

Lemma packed_total : (N.of_nat (length (mjoin packed)) < 2 ^ 32)%N.
Proof.
  assert (Hle : length (mjoin packed) <= 4 * length (mjoin full)).
  { assert (Hall : Forall (fun piece => length (packed_piece piece) <= 4 * length piece) full).
    { apply Forall_lookup. intros i piece E. destruct (packed_length i piece E) as (_ & Hb & ->).
      destruct (piece_ok i piece E) as (-> & _). unfold CHUNK_SIZE. lia. }
    unfold packed. clear -Hall. induction Hall as [|c cs Hc Hcs IH]; [done |]. csimpl.
    rewrite !length_app. lia. }
  rewrite length_app in Hsize. lia.
Qed.

Lemma packed_aligned : length (mjoin packed) mod 4 = 0.
Proof.
  assert (Hall : Forall (fun piece => exists k, length (packed_piece piece) = k * 4) full).
  { apply Forall_lookup. intros i piece E. destruct (packed_length i piece E) as (_ & _ & ->).
    exists (N.to_nat (piece_bits piece) * 4). lia. }
  apply Nat.Lcm0.mod_divide. unfold packed. clear -Hall. induction Hall as [|c cs [k Hc] Hcs IH]; [by exists 0 |].
  rewrite fmap_cons. change (mjoin (?b :: ?l)) with (b ++ mjoin l). rewrite length_app, Hc.
  apply Nat.divide_add_r; [by exists k | done].
Qed.

Lemma full_count : (N.of_nat (length full) < 2 ^ 30)%N.
Proof.
  assert (Hle : length full <= length (mjoin full)).
  { clear -Hfull. pose proof chunk_size_pos. induction Hfull as [|c cs Hc Hcs IH]; [done |].
    change (mjoin (c :: cs)) with (c ++ mjoin cs). specialize (IH Hcs). rewrite length_app. simpl. lia. }
  rewrite length_app in Hsize. lia.
Qed.

Lemma offsets_below i : (N.of_nat (length (mjoin (take i packed))) < 2 ^ 32)%N.
Proof.
  pose proof packed_total as Ht. rewrite <- (take_drop i packed), join_app, length_app in Ht. lia.
Qed.

(** ** The first loop *)

Definition made (pieces : list (list PostingElement)) : list (@CompressedPostingChunk W) := imap made_chunk pieces.

Lemma push_chunks_full suffix pre tl (rem : list (@GenericPostingElement W)) :
  pre ++ suffix = full ->
  push_chunks params (suffix ++ tl) (made pre) (length (mjoin (take (length pre) packed))) rem =
  push_chunks params tl (made full) (length (mjoin packed)) rem.
Proof.
  revert pre. induction suffix as [|piece suffix IH]; intros pre E; simpl.
  { rewrite app_nil_r in E. subst pre. rewrite take_ge; [done |]. unfold packed. by rewrite length_fmap. }
  assert (Ei : full !! length pre = Some piece) by by rewrite <- E, list_lookup_middle.
  destruct (piece_ok _ _ Ei) as (Hl & _). rewrite Hl, Nat.eqb_refl.
  destruct (piece_head _ _ Ei) as [Hh _]. fold (piece_ids piece). rewrite Hh. simpl.
  fold (piece_base piece). fold (piece_bits piece).
  rewrite <- (proj1 (packed_length _ _ Ei)), N.mod_small by apply offsets_below.
  assert (Ep : packed !! length pre = Some (packed_piece piece)).
  { unfold packed. by rewrite list_lookup_fmap, Ei. }
  rewrite <- length_app, <- (join_take_S _ _ _ Ep). rewrite <- (IH (pre ++ [piece])).
  - f_equal; [|rewrite length_app; simpl; by rewrite Nat.add_1_r]. unfold made. rewrite imap_app. simpl.
    unfold compose. simpl. by rewrite Nat.add_0_r.
  - rewrite <- E, <- app_assoc. done.
Qed.

Lemma push_chunks_made :
  push_chunks params (full ++ match rest with [] => [] | _ => [rest] end) [] 0 [] =
  Some (made full, length (mjoin packed),
        (fun e => mkGenericPostingElement e.1 (from_f32 params e.2)) <$> rest).
Proof.
  pose proof (push_chunks_full full [] (match rest with [] => [] | _ => [rest] end) [] eq_refl) as E.
  simpl in E. change (made []) with (@nil (@CompressedPostingChunk W)) in E. rewrite E. clear E. destruct rest as [|e r] eqn:Er; [done |]. cbn [push_chunks].
  rewrite <- Er in *. rewrite (proj2 (Nat.eqb_neq _ _)) by lia. done.
Qed.

(** ** The second loop *)

Lemma made_lookup i piece : full !! i = Some piece -> made full !! i = Some (made_chunk i piece).
Proof. intros E. unfold made. by rewrite list_lookup_imap, E. Qed.

Lemma packed_lookup i piece : full !! i = Some piece -> packed !! i = Some (packed_piece piece).
Proof. intros E. unfold packed. by rewrite list_lookup_fmap, E. Qed.

Lemma chunk_size_made i piece (data : list N) :
  full !! i = Some piece -> length data = length (mjoin packed) ->
  get_chunk_size (made full) data i = Some (length (packed_piece piece)).
Proof.
  intros E Hd. unfold get_chunk_size. rewrite (made_lookup i piece E). cbn [mbind option_bind].
  assert (Hafter : (if i + 1 <? length (made full) then offset <$> made full !! (i + 1)
    else Some (N.of_nat (length data))) = Some (N.of_nat (length (mjoin (take (S i) packed))))).
  { unfold made at 1. rewrite length_imap. destruct (Nat.ltb_spec (i + 1) (length full)) as [Hlt|Hge].
    - destruct (lookup_lt_is_Some_2 full (i + 1) Hlt) as [piece' E']. rewrite (made_lookup _ _ E'). simpl.
      by rewrite Nat.add_1_r.
    - rewrite Hd, take_ge; [done |]. unfold packed. rewrite length_fmap. lia. }
  rewrite Hafter. cbn [mbind option_bind]. rewrite (join_take_S _ _ _ (packed_lookup i piece E)), length_app.
  simpl. unfold checked_sub. rewrite (proj2 (N.leb_le _ _)) by lia. simpl. f_equal. lia.
Qed.

Lemma packed_bits_back i piece : full !! i = Some piece ->
  (N.of_nat (length (packed_piece piece) * 8 / CHUNK_SIZE) mod 2 ^ 8)%N = piece_bits piece.
Proof.
  intros E. destruct (packed_length i piece E) as (_ & Hb & ->). unfold CHUNK_SIZE.
  replace (N.to_nat (piece_bits piece) * 16 * 8) with (N.to_nat (piece_bits piece) * 128) by lia.
  rewrite Nat.div_mul, N2Nat.id, N.mod_small by lia. done.
Qed.

Lemma write_range_app (a p z : list N) : length p <= length z ->
  write_range (a ++ z) (length a) (length p) p = Some (a ++ p ++ drop (length p) z).
Proof.
  intros Hl. unfold write_range. rewrite get_range_Some by (rewrite ?length_app; lia). cbn [mbind option_bind].
  rewrite take_app_length, take_ge by lia. by rewrite <- drop_drop, drop_app_length.
Qed.

Lemma pack_chunks_full suffix pre :
  pre ++ suffix = full ->
  pack_chunks (made full) (length pre) suffix
    (mjoin (take (length pre) packed) ++
     replicate (length (mjoin packed) - length (mjoin (take (length pre) packed))) 0%N) = Some (mjoin packed).
Proof.
  revert pre. induction suffix as [|piece suffix IH]; intros pre E; cbn [pack_chunks].
  { rewrite app_nil_r in E. subst pre. rewrite take_ge by (unfold packed; by rewrite length_fmap).
    by rewrite Nat.sub_diag, app_nil_r. }
  assert (Ei : full !! length pre = Some piece) by by rewrite <- E, list_lookup_middle.
  pose proof (packed_lookup _ _ Ei) as Ep. pose proof (join_piece _ _ _ Ep) as Ej.
  apply (f_equal length) in Ej. rewrite !length_app in Ej.
  rewrite (made_lookup _ _ Ei). cbn [mbind option_bind].
  rewrite (chunk_size_made _ _ _ Ei) by (rewrite length_app, length_replicate; lia). cbn [mbind option_bind].
  rewrite (packed_bits_back _ _ Ei). cbn [offset initial made_chunk]. rewrite Nat2N.id.
  change (compress_strictly_sorted _ _ _) with (packed_piece piece).
  rewrite write_range_app by (rewrite length_replicate; lia). cbn [mbind option_bind].
  rewrite drop_replicate, app_assoc, <- (join_take_S _ _ _ Ep).
  replace (S (length pre)) with (length (pre ++ [piece])) by (rewrite length_app; simpl; lia).
  rewrite <- (IH (pre ++ [piece])) by (rewrite <- E, <- app_assoc; done). do 3 f_equal.
  replace (length (pre ++ [piece])) with (S (length pre)) by (rewrite length_app; simpl; lia).
  rewrite (join_take_S _ _ _ Ep), length_app. lia.
Qed.

Lemma pack_chunks_made :
  pack_chunks (made full) 0 full (replicate (length (mjoin packed)) 0%N) = Some (mjoin packed).
Proof.
  pose proof (pack_chunks_full full [] eq_refl) as E. simpl in E. by rewrite Nat.sub_0_r in E.
Qed.

(** ** The list *)

Definition built (last_ : option N) : @CompressedPostingListView W P :=
  {| id_data := mjoin packed; chunks_ := made full;
     remainders := (fun e => mkGenericPostingElement e.1 (from_f32 params e.2)) <$> rest;
     list_last_id := last_; multiplier := params |}.

Definition requantized (e : PostingElement) : PostingElement := (e.1, to_f32 params (from_f32 params e.2)).

Lemma built_chunk last_ i piece : full !! i = Some piece ->
  chunk_ok (built last_) i (made_chunk i piece) (piece_ids piece).
Proof.
  intros E. destruct (piece_ok i piece E) as (Hl & _). destruct (piece_head i piece E) as [Hh Hb]. split.
  - unfold decompress_chunk. simpl. rewrite (made_lookup _ _ E). cbn [mbind option_bind].
    rewrite (chunk_size_made _ _ _ E eq_refl). cbn [mbind option_bind]. rewrite (packed_bits_back _ _ E).
    cbn [offset initial made_chunk]. rewrite Nat2N.id, (join_get_range _ _ _ (packed_lookup _ _ E)).
    cbn [mbind option_bind]. f_equal. unfold packed_piece. fold (piece_base piece).
    apply decompress_compress; [done |]. split; [done |]. apply (packed_length i piece E).
  - unfold piece_ids. by rewrite length_fmap.
  - simpl. by rewrite length_fmap.
  - done.
Qed.

Lemma built_entries last_ : view_entries (built last_) = requantized <$> mjoin full ++ rest.
Proof.
  unfold view_entries. rewrite fmap_app, <- fmap_join. f_equal.
  - f_equal. apply list_eq. intros i. rewrite list_lookup_imap, list_lookup_fmap.
    destruct (full !! i) as [piece|] eqn:E.
    + simpl. rewrite (made_lookup _ _ E). simpl. f_equal.
      rewrite (chunk_entries_ok _ _ _ _ (built_chunk last_ i piece E)). unfold piece_ids. simpl.
      clear E. induction piece as [|e piece IH]; [done |]. csimpl. by rewrite IH.
    + simpl. unfold made. by rewrite list_lookup_imap, E.
  - simpl. rewrite <- list_fmap_compose. done.
Qed.

Lemma built_ok : view_ok (built (fst <$> last (mjoin full ++ rest))).
Proof.
  split.
  - intros i c. simpl. unfold made. rewrite list_lookup_imap. destruct (full !! i) as [piece|] eqn:E; [|done].
    intros [= <-]. exists (piece_ids piece). by apply built_chunk.
  - rewrite built_entries. clear -Hsorted. induction Hsorted as [|e l Hl IH He]; [constructor |]. csimpl.
    constructor; [by apply IH |]. apply Forall_fmap. exact He.
  - rewrite built_entries, fmap_last. simpl. by destruct (last _).
  - unfold chunks_len. simpl. unfold made. rewrite length_imap.
    pose proof full_count. lia.
Qed.
End Build.

Section Builder.
Context {W P : Type} `{HW : Weight W P} `{HB : BitPacker}.

Lemma sorted_distinct (records : list PostingElement) :
  NoDup records.*1 -> StronglySorted by_record (sort_by element_cmp records).
Proof.
  intros Hn. pose proof (sort_by_sorted element_cmp records) as Hs.
  assert (Hd : NoDup (sort_by element_cmp records).*1) by by rewrite sort_by_perm.
  induction Hs as [|e l Hl IH He]; [constructor |]. csimpl in Hd. apply NoDup_cons in Hd as [Hni Hd].
  constructor; [by apply IH |]. rewrite Forall_forall in *. intros x Hx. specialize (He x Hx).
  unfold cmp_le, element_cmp in He. unfold by_record.
  assert (x.1 <> e.1) by (intros E; apply Hni; rewrite <- E; by apply list_elem_of_fmap_2).
  destruct (N.compare_spec e.1 x.1); try done; lia.
Qed.

Lemma full_chunks_full (elements : list PostingElement) full rest :
  slice_chunks CHUNK_SIZE elements = full ++ match rest with [] => [] | _ => [rest] end ->
  Forall (fun c => length c = CHUNK_SIZE) full -> length rest < CHUNK_SIZE ->
  full_chunks elements = full.
Proof.
  intros E Hf Hr. unfold full_chunks. rewrite E, filter_app, filter_id by done.
  destruct rest; [by rewrite app_nil_r |]. rewrite filter_cons_False by lia. by rewrite app_nil_r.
Qed.

Lemma view_iter_ok (v : @CompressedPostingListView W P) : view_ok v -> cursor_ok (view_iter v).
Proof. intros Hv. by split; simpl; try lia. Qed.

(** The only entry of a record. *)
Lemma filter_record (l : list PostingElement) e :
  StronglySorted by_record l -> e ∈ l -> head (filter (fun x => x.1 = e.1) l) = Some e.
Proof.
  intros Hs. induction Hs as [|x l Hl IH Hx]; intros He; [by apply elem_of_nil in He |].
  apply elem_of_cons in He as [->|He]; [by rewrite filter_cons_True |].
  rewrite filter_cons_False; [by apply IH |]. rewrite Forall_forall in Hx. specialize (Hx e He).
  unfold by_record in Hx. lia.
Qed.

(** What building computes: the sorted records, cut into full chunks and a
    remainder. *)
Lemma build_parts (records : list PostingElement) :
  NoDup records.*1 -> Forall (fun e => e.1 < 2 ^ 32)%N records -> (N.of_nat (length records) < 2 ^ 30)%N ->
  let elements := sort_by element_cmp records in
  let params := quantization_params_for (snd <$> elements) in
  exists full rest, elements = mjoin full ++ rest /\ Forall (fun c => length c = CHUNK_SIZE) full /\ length rest < CHUNK_SIZE /\
    StronglySorted by_record (mjoin full ++ rest) /\ Forall (fun e => e.1 < 2 ^ 32)%N (mjoin full ++ rest) /\
    (N.of_nat (length (mjoin full ++ rest)) < 2 ^ 30)%N /\
    exists l : @CompressedPostingList W P, CompressedPostingBuilder_build records = Some l /\
      list_view l = built params full rest (fst <$> last (mjoin full ++ rest)).
Proof.
  intros Hn H32 Hlen elements params. pose proof (sorted_distinct records Hn) as Hs. fold elements in Hs.
  destruct (slice_chunks_full CHUNK_SIZE elements chunk_size_pos) as (full & rest & E & Hf & Hr & Ec).
  assert (H32' : Forall (fun e => e.1 < 2 ^ 32)%N (mjoin full ++ rest)) by (rewrite <- E; unfold elements; by rewrite sort_by_perm).
  assert (Hlen' : (N.of_nat (length (mjoin full ++ rest)) < 2 ^ 30)%N) by (rewrite <- E; unfold elements; by rewrite sort_by_perm).
  rewrite E in Hs. exists full, rest. do 6 (split; [done |]).
  unfold CompressedPostingBuilder_build. fold elements. fold params.
  rewrite Ec, (push_chunks_made params full rest Hf Hr Hs H32' Hlen'). cbn [mbind option_bind].
  rewrite (full_chunks_full elements full rest Ec Hf Hr), (pack_chunks_made params full rest Hf Hr Hs H32' Hlen').
  eexists. split; [done |]. by rewrite E.
Qed.

(** A list is built, is well formed and holds the records, their weights
    quantized. *)
Lemma compressed_build_spec (records : list PostingElement) :
  NoDup records.*1 -> Forall (fun e => e.1 < 2 ^ 32)%N records -> (N.of_nat (length records) < 2 ^ 30)%N ->
  let elements := sort_by element_cmp records in
  let params := quantization_params_for (snd <$> elements) in
  exists l : @CompressedPostingList W P, CompressedPostingBuilder_build records = Some l /\
    view_ok (list_view l) /\ view_entries (list_view l) = requantized params <$> elements.
Proof.
  intros Hn H32 Hlen elements params.
  destruct (build_parts records Hn H32 Hlen) as (full & rest & E & Hf & Hr & Hs & H32' & Hlen' & l & El & Ev).
  exists l. split; [done |]. fold elements in E, Ev. fold params in Ev. rewrite Ev, E.
  split; [exact (built_ok params full rest Hf Hr Hs H32' Hlen') | exact (built_entries params full rest Hf Hr Hs H32' Hlen' _)].
Qed.

(** The ranges of the stored fields. *)
Record stored_ranges (records : list PostingElement) (v : @CompressedPostingListView W P) : Prop := {
  sr_chunks : Forall (fun c => (initial c < 2 ^ 32)%N /\ (offset c < 2 ^ 32)%N /\ length (chunk_weights c) = CHUNK_SIZE /\
    Forall (fun w => exists e, e ∈ records /\ w = from_f32 (multiplier v) e.2) (chunk_weights c)) (chunks_ v);
  sr_remainders : Forall (fun g => exists e, e ∈ records /\ g = mkGenericPostingElement e.1 (from_f32 (multiplier v) e.2))
    (remainders v);
  sr_last id : list_last_id v = Some id -> id ∈ records.*1;
  sr_aligned : length (id_data v) mod 4 = 0;
  sr_data : (N.of_nat (length (id_data v)) < 2 ^ 32)%N;
  sr_count : (N.of_nat (length (chunks_ v)) < 2 ^ 32)%N;
  sr_params : multiplier v = quantization_params_for (snd <$> sort_by element_cmp records);
}.

Lemma build_ranges (records : list PostingElement) l :
  NoDup records.*1 -> Forall (fun e => e.1 < 2 ^ 32)%N records -> (N.of_nat (length records) < 2 ^ 30)%N ->
  CompressedPostingBuilder_build records = Some l -> stored_ranges records (list_view l).
Proof.
  intros Hn H32 Hlen El'.
  destruct (build_parts records Hn H32 Hlen) as (full & rest & E & Hf & Hr & Hs & H32' & Hlen' & l' & El & Ev).
  rewrite El in El'. injection El' as ->. rewrite Ev.
  assert (Hin : forall e, e ∈ mjoin full ++ rest -> e ∈ records) by (intros e; rewrite <- E; by rewrite sort_by_perm).
  split; simpl.
  - apply Forall_lookup. intros i c. unfold made. rewrite list_lookup_imap. destruct (full !! i) as [piece|] eqn:Ei; [|done].
    intros [= <-]. destruct (piece_ok full rest Hf Hs H32' i piece Ei) as (Hl & _ & Hp).
    destruct (piece_head full rest Hf Hr Hs H32' Hlen' i piece Ei) as [Hh _]. split_and!; simpl.
    + destruct piece as [|e piece]; [done |]. by apply Forall_cons in Hp as [? _].
    + apply (offsets_below full rest Hf Hr Hs H32' Hlen').
    + by rewrite length_fmap.
    + apply Forall_fmap, Forall_forall. intros e He. exists e. split; [|done]. apply Hin, elem_of_app. left.
      apply list_elem_of_join. exists piece. split; [done |]. by apply list_elem_of_lookup_2 in Ei.
  - apply Forall_fmap, Forall_forall. intros e He. exists e. split; [|done]. apply Hin, elem_of_app. by right.
  - intros id Hid. destruct (last (mjoin full ++ rest)) as [e|] eqn:Ee; [|done]. injection Hid as <-.
    apply list_elem_of_fmap_2, Hin. by apply last_Some_elem_of.
  - exact (packed_aligned full rest Hf Hr Hs H32' Hlen').
  - exact (packed_total full rest Hf Hr Hs H32' Hlen').
  - unfold made. rewrite length_imap. pose proof (full_count full rest Hf Hr Hlen'). lia.
  - done.
Qed.

(** [C15] Compressed posting lists hold what they are built from.  For records
    with distinct 32-bit identifiers, fewer than 2^30 of them, building does
    not panic; the list has their number as its length and the largest as its
    last identifier; iterating over it yields the records by increasing
    identifier, each weight quantized and decoded; and a cursor finds every
    record by [skip_to], from the start of the list. *)
Theorem compressed_build_exact (records : list PostingElement) :
  NoDup records.*1 -> Forall (fun e => e.1 < 2 ^ 32)%N records -> (N.of_nat (length records) < 2 ^ 30)%N ->
  let sorted := sort_by element_cmp records in
  let params := quantization_params_for (snd <$> sorted) in
  exists l : @CompressedPostingList W P, CompressedPostingBuilder_build records = Some l /\
    let it := view_iter (list_view l) in
    view_len (list_view l) = length records /\ l_last_id l = fst <$> last sorted /\
    cpl_into_std_iter it = Some (requantized params <$> sorted) /\
    forall id w, (id, w) ∈ records ->
      exists it' e, cpl_skip_to it id = Some (it', Some e) /\ to_element e = requantized params (id, w).
Proof.
  intros Hn H32 Hlen sorted params.
  destruct (compressed_build_spec records Hn H32 Hlen) as (l & E & Hv & He). exists l. split; [done |].
  fold sorted in He. fold params in He. pose proof (view_iter_ok _ Hv) as Hok.
  set (it := view_iter (list_view l)) in *. assert (Hr : cpl_rest it = requantized params <$> sorted) by done.
  split_and!.
  - rewrite <- (entries_length _ Hv), He, length_fmap. unfold sorted. by rewrite sort_by_perm.
  - change (l_last_id l) with (list_last_id (list_view l)). rewrite (vo_last _ Hv), He, fmap_last. by destruct (last sorted).
  - unfold cpl_into_std_iter. rewrite (len_to_end_rest it Hok), collect_returns; [by rewrite Hr | done | lia].
  - intros id w Hin. assert (Hne : cpl_entries it <> []).
    { change (cpl_entries it) with (view_entries (list_view l)). rewrite He. intros E0%fmap_nil_inv. unfold sorted in E0.
      assert (Hs0 : (id, w) ∈ sort_by element_cmp records) by by rewrite sort_by_perm. rewrite E0 in Hs0. by apply elem_of_nil in Hs0. }
    destruct (skip_to_returns it id Hok Hne) as (it' & r & -> & _ & _ & _ & Hf & _).
    rewrite Hr in Hf. assert (Hs : StronglySorted by_record (requantized params <$> sorted)) by (rewrite <- He; apply Hv).
    assert (Hm : requantized params (id, w) ∈ requantized params <$> sorted).
    { apply list_elem_of_fmap_2. unfold sorted. by rewrite sort_by_perm. }
    pose proof (filter_record _ (requantized params (id, w)) Hs Hm) as Hh.
    change (requantized params (id, w)).1 with id in Hh. rewrite Hh in Hf. destruct r as [e|]; [|done].
    exists it', e. split; [done |]. simpl in Hf. congruence.
Qed.
End Builder.

(** ** No operation panics *)

Section Safety.
Context {W P : Type} `{HW : Weight W P} `{HB : BitPacker}.
Local Abbreviation cursor := (@CompressedPostingListIterator W P).
Implicit Types (it : cursor).


(** An operation that returns, with a well-formed cursor of the same list. *)
Definition keeps {A} it (o : option (cursor * A)) : Prop :=
  exists it' r, o = Some (it', r) /\ cursor_ok it' /\ list_ it' = list_ it.

Lemma next_keeps it : cursor_ok it -> keeps it (cpl_next it).
Proof.
  intros Hok. unfold cpl_next. destruct (peek_returns it Hok) as (it1 & r & -> & Hok1 & El & Ep & Er).
  cbn [mbind option_bind]. destruct r as [x|]; [|by exists it1, None].
  destruct (next_from_ok it1 Hok1) as (Hok2 & El2 & _).
  { rewrite Ep, (same_entries it it1 El). simpl in Er. symmetry in Er. by eapply lookup_lt_Some. }
  eexists _, _. split; [done |]. split; [done |]. by rewrite El2.
Qed.

Lemma max_weight_total it id :
  cursor_ok it -> (forall e, e ∈ cpl_entries it -> (id < e.1)%N -> e ∈ cpl_rest it) ->
  is_Some (cpl_max_weight_till_id it id).
Proof.
  intros Hok Hnp. pose proof (cu_view _ Hok) as Hv. unfold cpl_max_weight_till_id.
  assert (Hc : exists m, (if (pos it).1 / CHUNK_SIZE <? chunks_len (list_ it)
    then cs ← get_range (chunks_ (list_ it)) ((pos it).1 / CHUNK_SIZE)
           (partition_point (fun chunk => initial chunk <=? id)%N (chunks_ (list_ it)));
         Some (fold_left fmax (decoded_chunk_max (multiplier (list_ it)) <$> cs) fzero)
    else Some fzero) = Some m).
  { destruct (Nat.ltb_spec ((pos it).1 / CHUNK_SIZE) (chunks_len (list_ it))) as [Hlt|]; [|eauto].
    destruct (chunks_till it id Hok Hnp Hlt) as [Hend _].
    rewrite get_range_Some by (unfold chunks_len in *; lia). simpl. eauto. }
  destruct Hc as [m ->]. cbn [mbind option_bind]. destruct (orb _ _); [|eauto].
  pose proof (cu_pos _ Hok) as Hp. unfold cpl_entries in Hp. rewrite (entries_length _ Hv) in Hp.
  unfold view_len in Hp. rewrite get_range_Some by (unfold remainder_len in *; lia). simpl. eauto.
Qed.

Lemma fill_total it start width maxima : (0 < width)%N ->
  exists maxima', cpl_fill_block_max_ranges it start width maxima = Some maxima' /\ length maxima' = length maxima.
Proof.
  intros Hw. unfold cpl_fill_block_max_ranges. rewrite (proj2 (N.eqb_neq _ _)) by lia. eexists. split; [done |].
  assert (Hr : forall es ms, length (fold_left (fill_remainder (list_ it) start width) es ms) = length ms).
  { induction es as [|e es IH]; intros ms; simpl; [done |]. rewrite IH. apply length_alter. }
  assert (Hc : forall cs k ms, length (fill_chunks (list_ it) start width k cs ms) = length ms).
  { induction cs as [|c cs IH]; intros k ms; simpl; [done |]. rewrite IH. apply length_imap. }
  by rewrite Hr, Hc, length_fmap.
Qed.

End Safety.

(** ** An example *)

(** A packer that stores every identifier in four bytes. *)
Definition flat_compress (initial : option N) (block : list N) (bits : N) : list N :=
  mjoin (to_le_bytes 4 <$> block).

Fixpoint flat_decompress (bytes : list N) : list N :=
  match bytes with
  | a :: b :: c :: d :: bytes => from_le_bytes [a; b; c; d] :: flat_decompress bytes
  | _ => []
  end.

Lemma flat_length block : length (mjoin (to_le_bytes 4 <$> block)) = 4 * length block.
Proof.
  induction block as [|x block IH]; [done |].
  change (mjoin (to_le_bytes 4 <$> x :: block)) with (to_le_bytes 4 x ++ mjoin (to_le_bytes 4 <$> block)).
  rewrite length_app, IH. cbn [length to_le_bytes]. lia.
Qed.

Lemma flat_roundtrip block : Forall (fun x => x < 2 ^ 32)%N block ->
  flat_decompress (mjoin (to_le_bytes 4 <$> block)) = block.
Proof.
  induction 1 as [|x block Hx Hb IH]; [done |].
  change (from_le_bytes (to_le_bytes 4 x) :: flat_decompress (mjoin (to_le_bytes 4 <$> block)) = x :: block).
  rewrite IH, from_to_le_bytes, N.mod_small; [done | exact Hx].
Qed.

Program Definition flat_packer : BitPacker := {|
  num_bits_strictly_sorted _ _ := 32%N;
  compressed_block_size bits := N.to_nat bits * CHUNK_SIZE / 8;
  compress_strictly_sorted := flat_compress;
  decompress_strictly_sorted _ bytes _ := flat_decompress bytes;
|}.
Next Obligation. done. Qed.
Next Obligation. done. Qed.
Next Obligation.
  intros initial block bits (Hl & _) Hb. unfold flat_compress. rewrite flat_length, Hl.
  assert (bits = 32%N) as -> by lia. done.
Qed.
Next Obligation. intros initial block bits (_ & _ & H & _) Hb. by apply flat_roundtrip. Qed.

(** A chunk and two more records, given in reverse. *)
Definition sample_records : list PostingElement :=
  (fun i => (N.of_nat (390 - 3 * i), Fin false (Z.of_nat i))) <$> seq 0 130.

Lemma compressed_build_exact_witness :
  exists l : @CompressedPostingList float unit,
    @CompressedPostingBuilder_build _ _ f32_weight flat_packer sample_records = Some l /\
    view_len (list_view l) = 130.
Proof.
  destruct (@compressed_build_exact float unit f32_weight flat_packer sample_records) as (l & E & Hl & _).
  - apply (bool_decide_unpack _). vm_compute. exact I.
  - apply (bool_decide_unpack _). vm_compute. exact I.
  - vm_compute. reflexivity.
  - exists l. split; [exact E | exact Hl].
Defined.

Definition sample_list : @CompressedPostingListView float unit :=
  match @CompressedPostingBuilder_build _ _ f32_weight flat_packer sample_records with
  | Some l => list_view l
  | None => {| id_data := []; chunks_ := []; remainders := []; list_last_id := None; multiplier := tt |}
  end.

Lemma sample_ok : @view_ok _ _ f32_weight flat_packer sample_list.
Proof.
  destruct (@compressed_build_spec float unit f32_weight flat_packer sample_records) as (l & E & Hv & _).
  - apply (bool_decide_unpack _). vm_compute. exact I.
  - apply (bool_decide_unpack _). vm_compute. exact I.
  - vm_compute. reflexivity.
  - unfold sample_list. by rewrite E.
Qed.


Definition empty_list : @CompressedPostingListView float unit :=
  {| id_data := []; chunks_ := []; remainders := []; list_last_id := None; multiplier := tt |}.

(** A list without elements: the index of the last chunk is below zero. *)
Example skip_in_empty_list_panics :
  @view_ok _ _ f32_weight flat_packer empty_list /\
  @cpl_skip_to _ _ f32_weight flat_packer (view_iter empty_list) 7 = None.
Proof.
  split; [|by vm_compute].
  destruct (@compressed_build_spec float unit f32_weight flat_packer []) as (l & E & Hv & _);
    [constructor | constructor | done |].
  vm_compute in E. injection E as <-. exact Hv.
Qed.

Example ranges_without_width_panic : @cpl_fill_block_max_ranges _ _ f32_weight (view_iter sample_list) 0 0 [fzero] = None.
Proof. vm_compute. reflexivity. Qed.

(** The maximum up to a record before the chunks the cursor has passed is
    asked for at the price of a panic. *)
Definition long_records : list PostingElement :=
  (fun i => (N.of_nat (i + 5), Fin false (Z.of_nat i))) <$> seq 0 260.

Example maximum_behind_the_cursor_panics :
  exists l it, @CompressedPostingBuilder_build _ _ f32_weight flat_packer long_records = Some l /\
    @cpl_skip_to _ _ f32_weight flat_packer (view_iter (list_view l)) 200 = Some (it, Some {| record_id := 200; weight := Fin false 195; max_next_weight := fzero |}) /\
    @cpl_max_weight_till_id _ _ f32_weight it 3 = None.
Proof. eexists _, _. split; [vm_compute; reflexivity |]. split; vm_compute; reflexivity. Qed.
