(* ===== verification/CompressedIndex.v ===== *)
(** * The compressed inverted index

    lib/sparse/src/index/inverted_index/inverted_index_compressed_immutable_ram.rs.
    An index in memory is converted, one posting list after the other.  The
    file proves that the converted index holds the posting lists it was made
    from, so that searches over it are exact. *)

From S2P Require Import Prelude Float Order PointId RrfScoring Postings MachineInt SparseVectors InvertedIndex.
From S2P Require Import BlockMax TopK SparseSearch CompressedPostings CompressedLaws CompressedBuild.

(** ** The index in memory *)

Section Index.
Context {W P : Type} `{HW : Weight W P} `{HB : BitPacker}.

Record InvertedIndexCompressedImmutableRam : Type := mkCompressedImmutableRam {
  c_postings : list (@CompressedPostingList W P);
  c_vector_count : nat;
  c_total_sparse_size : nat;
}.

Definition compress_posting (old : PostingList) : option (@CompressedPostingList W P) :=
  CompressedPostingBuilder_build
    (fold_left (fun b elem => CompressedPostingBuilder_add b (record_id elem) (weight elem)) old []).

(** [InvertedIndexCompressedImmutableRam::from_ram_index] *)
Definition from_ram_index (ram_index : InvertedIndexRam) : option InvertedIndexCompressedImmutableRam :=
  postings ← mapM compress_posting (postings ram_index);
  Some {| c_postings := postings; c_vector_count := vector_count ram_index;
          c_total_sparse_size := sum_list ((fun p => total (store_size (list_view p))) <$> postings) |}.

Definition out_of_bounds : OperationError :=
  ServiceError "DimOffset {id} out of bounds. Index contains {len} posting lists.".

(** The two [get]s: the view of a list, and its cursor. *)
Definition immutable_view (self : InvertedIndexCompressedImmutableRam) (id : N)
    : OperationResult (@CompressedPostingListView W P) :=
  match c_postings self !! N.to_nat id with
  | Some posting => Ok (list_view posting)
  | None => Err out_of_bounds
  end.

Definition immutable_get (self : InvertedIndexCompressedImmutableRam) (id : N)
    : OperationResult (@CompressedPostingListIterator W P) :=
  match immutable_view self id with Ok v => Ok (view_iter v) | Err e => Err e end.

Definition immutable_posting_list_len (self : InvertedIndexCompressedImmutableRam) (id : N)
    : OperationResult nat :=
  match immutable_view self id with Ok v => Ok (view_len v) | Err e => Err e end.

Definition immutable_max_index (self : InvertedIndexCompressedImmutableRam) : option N :=
  checked_sub (N.of_nat (length (c_postings self))) 1.
End Index.
#[global] Arguments InvertedIndexCompressedImmutableRam : clear implicits.

(** ** The converted index *)

(** Weights that come back as they were. *)
Class Lossless (W P : Type) `{Weight W P} : Prop := lossless p w : to_f32 p (from_f32 p w) = w.

#[export] Instance f32_lossless : Lossless float unit.
Proof. done. Qed.

Section Converted.
Context {W P : Type} `{HW : Weight W P} `{HB : BitPacker} `{HL : !Lossless W P}.

Lemma added_elements (old : PostingList) b :
  fold_left (fun b elem => CompressedPostingBuilder_add b (record_id elem) (weight elem)) old b =
  b ++ plist_entries old.
Proof.
  revert b. induction old as [|e old IH]; intros b; simpl; [by rewrite app_nil_r |].
  rewrite IH. unfold CompressedPostingBuilder_add. by rewrite <- app_assoc.
Qed.

Lemma sort_sorted (l : list PostingElement) : StronglySorted by_record l -> sort_by element_cmp l = l.
Proof.
  intros Hs. pose proof (by_record_nodup l Hs) as Hn. pose proof (sorted_distinct l Hn) as Hs'.
  apply sorted_ext; [done | done |]. intros d. unfold find_weight. f_equal.
  pose proof (sort_by_perm element_cmp l) as Hp.
  assert (Hf : filter (fun e => e.1 = d) (sort_by element_cmp l) ≡ₚ filter (fun e => e.1 = d) l) by by rewrite Hp.
  destruct (filter (fun e => e.1 = d) l) as [|e es] eqn:E.
  { apply Permutation_nil_r in Hf. by rewrite Hf. }
  assert (He : e ∈ l /\ e.1 = d).
  { assert (Hin : e ∈ filter (fun e => e.1 = d) l) by (rewrite E; left). apply list_elem_of_filter in Hin. tauto. }
  destruct He as [He <-]. rewrite (filter_record _ e Hs') by by rewrite Hp.
  by rewrite <- E, filter_record.
Qed.

Lemma compress_posting_spec (old : PostingList) :
  StronglySorted by_record (plist_entries old) -> Forall (fun e => e.1 <= U32_MAX)%N (plist_entries old) ->
  (N.of_nat (length old) < 2 ^ 30)%N ->
  exists l : @CompressedPostingList W P, compress_posting old = Some l /\
    view_ok (list_view l) /\ view_entries (list_view l) = plist_entries old.
Proof.
  intros Hs H32 Hlen. unfold compress_posting. rewrite added_elements. simpl.
  destruct (compressed_build_spec (plist_entries old)) as (l & E & Hv & He).
  - by apply by_record_nodup.
  - eapply Forall_impl; [exact H32 |]. unfold U32_MAX. simpl. lia.
  - unfold plist_entries. by rewrite length_fmap.
  - exists l. split_and!; [done | done |]. rewrite He, sort_sorted by done.
    generalize (quantization_params_for (plist_entries old).*2). intros p. clear -HL.
    induction (plist_entries old) as [|[id w] es IH]; [done |]. csimpl. rewrite IH. unfold requantized. simpl.
    by rewrite lossless.
Qed.

Context (ram_index : InvertedIndexRam) (m : VectorMap).
Context (Hreach : reachable ram_index m) (Hids : forall d, is_Some (m !! d) -> (d <= U32_MAX)%N).
Context (Hcount : (N.of_nat (size m) < 2 ^ 30)%N).

Lemma posting_records dim d : d ∈ (plist_entries (posting_of (postings ram_index) dim)).*1 -> is_Some (m !! d).
Proof.
  intros ([d' w] & -> & He)%list_elem_of_fmap. apply (posting_of_entry _ _ Hreach) in He. unfold stored in He. simpl.
  destruct (m !! d'); [eauto | done].
Qed.

(** A posting list has at most one entry per stored vector. *)
Lemma posting_length dim : length (posting_of (postings ram_index) dim) <= size m.
Proof.
  pose proof (plist_nodup _ (posting_of_ok _ _ Hreach dim)) as Hn.
  set (ids := (plist_entries (posting_of (postings ram_index) dim)).*1) in *.
  assert (El : length (posting_of (postings ram_index) dim) = length ids).
  { unfold ids, plist_entries. by rewrite !length_fmap. }
  rewrite El, <- size_dom, <- (size_list_to_set (C := gset N) ids Hn). apply subseteq_size.
  intros d Hd%elem_of_list_to_set. apply elem_of_dom. by apply (posting_records dim).
Qed.

Lemma posting_compresses dim :
  exists l : @CompressedPostingList W P, compress_posting (posting_of (postings ram_index) dim) = Some l /\
    view_ok (list_view l) /\ view_entries (list_view l) = plist_entries (posting_of (postings ram_index) dim).
Proof.
  apply compress_posting_spec.
  - apply (posting_of_ok _ _ Hreach).
  - apply Forall_forall. intros e He. apply Hids, (posting_records dim). by apply list_elem_of_fmap_2.
  - pose proof (posting_length dim). lia.
Qed.

(** The converted index has the posting lists of the original. *)
Lemma from_ram_index_spec :
  exists index : InvertedIndexCompressedImmutableRam W P, from_ram_index ram_index = Some index /\
    length (c_postings index) = length (postings ram_index) /\ c_vector_count index = vector_count ram_index /\
    forall dim, N.to_nat dim < length (postings ram_index) ->
      exists v, immutable_view index dim = Ok v /\ view_ok v /\
        view_entries v = plist_entries (posting_of (postings ram_index) dim).
Proof.
  assert (Hm : exists ls, mapM compress_posting (postings ram_index) = Some ls).
  { apply mapM_is_Some_2, Forall_lookup. intros i old E. destruct (posting_compresses (N.of_nat i)) as (l & El & _).
    unfold posting_of in El. rewrite Nat2N.id, E in El. simpl in El. eauto. }
  destruct Hm as [ls Hls]. unfold from_ram_index. rewrite Hls. cbn [mbind option_bind]. eexists. split; [done |]. simpl.
  pose proof (proj1 (mapM_Some _ _ _) Hls) as Hf. split_and!; [by apply Forall2_length in Hf | done |].
  intros dim Hd. destruct (lookup_lt_is_Some_2 _ _ Hd) as [old Eo].
  destruct (Forall2_lookup_l _ _ _ _ _ Hf Eo) as (l & El & Ec). destruct (posting_compresses dim) as (l' & El' & Hv & He).
  unfold posting_of in El' at 1. rewrite Eo in El'. simpl in El'. rewrite Ec in El'. injection El' as <-.
  exists (list_view l). unfold immutable_view. simpl. by rewrite El.
Qed.

Context `{UnstableOrder} (query : RemappedSparseVector) (n : nat) (f : N -> bool).
Context (Hquery : length (indices query) = length (values query)).
Context (Hdims : Forall (fun dim => N.to_nat dim < length (postings ram_index)) (indices query)).

(** The cursors of a query over the converted index. *)
Lemma converted_cursors (index : InvertedIndexCompressedImmutableRam W P) :
  from_ram_index ram_index = Some index ->
  exists its, Forall2 (readable (immutable_get index)) (indices query) its /\
    query_terms query its = query_terms query (ram_its ram_index query).
Proof.
  intros E. destruct from_ram_index_spec as (index' & E' & _ & _ & Hview). rewrite E in E'. injection E' as <-.
  assert (Hall : forall dims, Forall (fun dim => N.to_nat dim < length (postings ram_index)) dims ->
    exists its, Forall2 (readable (immutable_get index)) dims its /\
      entries <$> its = (fun dim => plist_entries (posting_of (postings ram_index) dim)) <$> dims).
  { induction 1 as [|dim dims Hd Hds (its & Hr & He)]; [by exists [] |].
    destruct (Hview dim Hd) as (v & Ev & Hok & Eent). exists (view_iter v :: its). rewrite !fmap_cons, He. split.
    - constructor; [|done]. split_and!.
      + unfold immutable_get. by rewrite Ev.
      + split; [by apply view_iter_ok | done].
      + change (entries (view_iter v)) with (view_entries v). rewrite Eent. apply Forall_forall. intros e Hin.
        apply Hids, (posting_records dim). by apply list_elem_of_fmap_2.
    - f_equal. exact Eent. }
  destruct (Hall _ Hdims) as (its & Hr & He). exists its. split; [done |]. unfold query_terms, ram_its.
  by rewrite He, <- list_fmap_compose.
Qed.

End Converted.

(** ** Examples *)

Definition converted_index : InvertedIndexCompressedImmutableRam float unit :=
  match @from_ram_index _ _ f32_weight flat_packer updated_index with
  | Some index => index
  | None => {| c_postings := []; c_vector_count := 0; c_total_sparse_size := 0 |}
  end.

Lemma converted_index_eq : @from_ram_index _ _ f32_weight flat_packer updated_index = Some converted_index.
Proof. vm_compute. reflexivity. Qed.

Lemma converted_opened : exists c,
  @is_opened _ (@CompressedPostingListIterator_iter _ _ f32_weight flat_packer)
    (immutable_get converted_index) example_query 1 c.
Proof.
  assert (exists c, @SearchContext_new _ (@CompressedPostingListIterator_iter _ _ f32_weight flat_packer)
    example_query 1 (immutable_get converted_index) = Returned (Ok c)) as [c Hc] by (eexists; vm_compute; reflexivity).
  exists c. by apply opened_new.
Qed.

