(* ===== verification/FloatBits.v ===== *)
(** * The bits of [f32] and [f64]

    [to_bits] and [from_bits]: the magnitude of a finite value, as an exponent
    and a significand without its leading one, below the sign.  Consecutive
    values of a format have consecutive bits, which is how the code steps to a
    neighbour without looking at infinities. *)

From S2P Require Import Prelude Float MachineInt.

Local Open Scope Z_scope.

Section Bits.
Context (f : format) {Hf : Format_ok f}.

Definition magnitude_bits (m : Z) : Z := shift_of f m * 2 ^ (prec f - 1) + m / 2 ^ shift_of f m.

Definition bits_magnitude (b : Z) : Z :=
  let e := Z.max 0 (b / 2 ^ (prec f - 1) - 1) in (b - e * 2 ^ (prec f - 1)) * 2 ^ e.

(** The bits of infinity. *)
Definition inf_bits : Z := (emax f - emin f - prec f + 2) * 2 ^ (prec f - 1).

(** A representable magnitude is a significand times a power of two. *)
Lemma significand m : 0 <= m -> round_mag f m 1 = m -> exists k, m = k * 2 ^ shift_of f m /\
  0 <= k < 2 ^ prec f /\ (shift_of f m = 0 \/ 2 ^ (prec f - 1) <= k) /\
  magnitude_bits m = shift_of f m * 2 ^ (prec f - 1) + k.
Proof.
  intros Hm Hr. destruct (shift_of_split f m Hm Hr) as [k Ek]. pose proof (shift_of_nonneg f m) as Hs.
  pose proof (shift_of_upper f m 1 Hm ltac:(lia)) as Hu. pose proof (shift_of_lower f m 1 Hm ltac:(lia)) as Hl.
  rewrite Z.div_1_r, Z.mul_1_l in Hu, Hl. unfold magnitude_bits. set (e := shift_of f m) in *.
  assert (Hpe : 0 < 2 ^ e) by (apply Z.pow_pos_nonneg; lia). exists k. split; [done |]. split; [nia |]. split.
  - destruct (Z.eq_dec e 0); [by left |]. right. specialize (Hl ltac:(lia)). nia.
  - f_equal. rewrite Ek at 1. by apply Z.div_mul; lia.
Qed.

Lemma bits_back m : 0 <= m -> round_mag f m 1 = m -> bits_magnitude (magnitude_bits m) = m.
Proof.
  intros Hm Hr. destruct (significand m Hm Hr) as (k & Ek & Hk & Hn & ->). unfold bits_magnitude.
  pose proof (shift_of_nonneg f m) as Hs. pose proof (prec_pos (f := f)). set (e := shift_of f m) in *.
  assert (Hp : 2 ^ prec f = 2 * 2 ^ (prec f - 1)) by (rewrite <- Z.pow_succ_r by lia; f_equal; lia).
  set (A := 2 ^ (prec f - 1)) in *. assert (HA : 0 < A) by (apply Z.pow_pos_nonneg; lia).
  assert (He : Z.max 0 ((e * A + k) / A - 1) = e).
  { rewrite Z.div_add_l by lia. destruct Hn as [->|Hn].
    - assert (k / A < 2) by (apply Z.div_lt_upper_bound; lia). lia.
    - assert (k / A = 1) by (symmetry; apply (Z.div_unique _ _ _ (k - A)); lia). lia. }
  rewrite He. replace (e * A + k - e * A) with k by lia. by symmetry.
Qed.

Lemma bits_bound m : 0 <= m < limit f -> round_mag f m 1 = m -> 0 <= magnitude_bits m < inf_bits.
Proof.
  intros Hm Hr. destruct (significand m ltac:(lia) Hr) as (k & Ek & Hk & Hn & ->). unfold inf_bits.
  pose proof (shift_of_nonneg f m) as Hs. pose proof (prec_pos (f := f)). pose proof (emin_neg (f := f)). pose proof (emax_big (f := f)).
  assert (He : shift_of f m <= emax f - emin f - prec f).
  { unfold shift_of. destruct (Z.eq_dec m 0) as [->|]; [simpl; lia |].
    assert (Z.log2 m < emax f - emin f); [|lia]. apply Z.log2_lt_pow2; [lia |]. apply Hm. }
  assert (Hp : 2 ^ prec f = 2 * 2 ^ (prec f - 1)) by (rewrite <- Z.pow_succ_r by lia; f_equal; lia).
  assert (HA : 0 < 2 ^ (prec f - 1)) by (apply Z.pow_pos_nonneg; lia). nia.
Qed.

(** The next magnitude has the next bits. *)
Lemma shift_of_exact k e : 0 <= e -> 0 <= k < 2 ^ prec f -> (e = 0 \/ 2 ^ (prec f - 1) <= k) -> shift_of f (k * 2 ^ e) = e.
Proof.
  intros He Hk Hn. pose proof (prec_pos (f := f)). unfold shift_of. destruct (Z.eq_dec k 0) as [->|Hk0].
  - assert (e = 0) as ->; [|simpl; lia]. destruct Hn as [|Hn]; [done |]. assert (0 < 2 ^ (prec f - 1)) by (apply Z.pow_pos_nonneg; lia). lia.
  - rewrite Z.log2_mul_pow2 by lia. assert (Z.log2 k < prec f) by (apply Z.log2_lt_pow2; lia).
    destruct Hn as [->|Hn]; [lia |]. assert (prec f - 1 <= Z.log2 k); [|lia].
    rewrite <- (Z.log2_pow2 (prec f - 1)) by lia. by apply Z.log2_le_mono.
Qed.

Lemma bits_next m : 0 <= m -> round_mag f m 1 = m -> magnitude_bits (m + 2 ^ shift_of f m) = magnitude_bits m + 1.
Proof.
  intros Hm Hr. destruct (significand m Hm Hr) as (k & Ek & Hk & Hn & ->). pose proof (shift_of_nonneg f m) as Hs.
  pose proof (prec_pos (f := f)). set (e := shift_of f m) in *.
  assert (Hp : 2 ^ prec f = 2 * 2 ^ (prec f - 1)) by (rewrite <- Z.pow_succ_r by lia; f_equal; lia).
  assert (HA : 0 < 2 ^ (prec f - 1)) by (apply Z.pow_pos_nonneg; lia). assert (Hpe : 0 < 2 ^ e) by (apply Z.pow_pos_nonneg; lia).
  replace (m + 2 ^ e) with ((k + 1) * 2 ^ e) by lia. unfold magnitude_bits.
  destruct (Z.eq_dec (k + 1) (2 ^ prec f)) as [Etop|].
  - rewrite Etop. assert (Em : 2 ^ prec f * 2 ^ e = 2 ^ (prec f - 1) * 2 ^ (e + 1)) by (rewrite <- !Z.pow_add_r by lia; f_equal; lia).
    rewrite Em, shift_of_exact by lia. rewrite Z.div_mul by (apply Z.pow_nonzero; lia). lia.
  - rewrite shift_of_exact by lia. rewrite Z.div_mul by lia. lia.
Qed.

(** The magnitude before another one. *)
Lemma previous m : 0 < m -> round_mag f m 1 = m -> let m' := m - 2 ^ shift_of f (m - 1) in
  0 <= m' /\ round_mag f m' 1 = m' /\ shift_of f m' = shift_of f (m - 1).
Proof.
  intros Hm Hr m'. destruct (significand m ltac:(lia) Hr) as (k & Ek & Hk & Hn & _).
  pose proof (prec_pos (f := f)). pose proof (shift_of_nonneg f (m - 1)) as Hs.
  assert (Hle : shift_of f (m - 1) <= shift_of f m) by (apply shift_of_mono; lia).
  pose proof (shift_of_upper f (m - 1) 1 ltac:(lia) ltac:(lia)) as Hu.
  pose proof (shift_of_lower f (m - 1) 1 ltac:(lia) ltac:(lia)) as Hl. rewrite Z.div_1_r, Z.mul_1_l in Hu, Hl.
  unfold m'. set (e' := shift_of f (m - 1)) in *. set (e := shift_of f m) in *.
  assert (Hpe : 0 < 2 ^ e') by (apply Z.pow_pos_nonneg; lia).
  assert (Ej : m = k * 2 ^ (e - e') * 2 ^ e') by (rewrite <- Z.mul_assoc, <- Z.pow_add_r by lia; rewrite Ek at 1; do 2 f_equal; lia).
  set (j := k * 2 ^ (e - e')) in *. assert (Hj : 0 < j <= 2 ^ prec f) by nia.
  replace (m - 2 ^ e') with ((j - 1) * 2 ^ e') by lia. split; [nia |]. split; [apply (round_mag_fits f); lia |].
  apply shift_of_exact; [lia | lia |]. destruct (Z.eq_dec e' 0) as [|Hne]; [by left |]. right. specialize (Hl ltac:(lia)). nia.
Qed.

Lemma limit_bits : magnitude_bits (limit f) = inf_bits.
Proof.
  unfold magnitude_bits, inf_bits, limit, shift_of. pose proof (prec_pos (f := f)). pose proof (emin_neg (f := f)). pose proof (emax_big (f := f)).
  rewrite Z.log2_pow2 by lia. rewrite Z.max_r by lia. rewrite <- Z.pow_sub_r by lia.
  replace (emax f - emin f - (emax f - emin f - prec f + 1)) with (prec f - 1) by lia. ring.
Qed.

Lemma next_limit m : 0 <= m < limit f -> round_mag f m 1 = m -> limit f <= m + 2 ^ shift_of f m -> m + 2 ^ shift_of f m = limit f.
Proof.
  intros Hm Hr Hl. destruct (significand m ltac:(lia) Hr) as (k & Ek & Hk & _ & _).
  pose proof (shift_of_nonneg f m) as Hs. pose proof (prec_pos (f := f)). pose proof (emin_neg (f := f)). pose proof (emax_big (f := f)).
  assert (He : shift_of f m <= emax f - emin f).
  { unfold shift_of. destruct (Z.eq_dec m 0) as [->|]; [simpl; lia |].
    assert (Z.log2 m < emax f - emin f); [|lia]. apply Z.log2_lt_pow2; [lia |]. apply Hm. }
  unfold limit in *. set (e := shift_of f m) in *.
  assert (E : 2 ^ (emax f - emin f) = 2 ^ (emax f - emin f - e) * 2 ^ e) by (rewrite <- Z.pow_add_r by lia; f_equal; lia).
  assert (0 < 2 ^ e) by (apply Z.pow_pos_nonneg; lia). set (L := 2 ^ (emax f - emin f - e)) in *.
  assert (k < L) by (apply (Z.mul_lt_mono_pos_r (2 ^ e)); lia). assert (L < k + 2) by (apply (Z.mul_lt_mono_pos_r (2 ^ e)); lia).
  rewrite E. replace L with (k + 1) by lia. lia.
Qed.

Lemma bits_zero m : 0 <= m -> round_mag f m 1 = m -> magnitude_bits m = 0 <-> m = 0.
Proof.
  intros Hm Hr. split; [|intros ->; unfold magnitude_bits; rewrite (shift_of_0 f), Z.div_0_l by (apply Z.pow_nonzero; lia); lia].
  intros E. rewrite <- (bits_back m Hm Hr), E. unfold bits_magnitude. rewrite Z.div_0_l by (apply Z.pow_nonzero; pose proof (prec_pos (f := f)); lia). done.
Qed.

(** ** Words *)

Context (w : N) (nan : N).

Definition to_bits (x : float) : N :=
  match x with
  | NaN => nan
  | Inf neg => (if neg then 2 ^ (w - 1) else 0) + Z.to_N inf_bits
  | Fin neg m => (if neg then 2 ^ (w - 1) else 0) + Z.to_N (magnitude_bits m)
  end%N.

Definition from_bits (b : N) : float :=
  let neg := (2 ^ (w - 1) <=? b)%N in
  let rest := (b mod 2 ^ (w - 1))%N in
  if (rest <? Z.to_N inf_bits)%N then Fin neg (bits_magnitude (Z.of_N rest))
  else if (rest =? Z.to_N inf_bits)%N then Inf neg
  else NaN.

Context (Hw : (Z.to_N inf_bits < 2 ^ (w - 1))%N).

Lemma sign_rest (neg : bool) (b : N) : (b < 2 ^ (w - 1))%N ->
  (2 ^ (w - 1) <=? (if neg then 2 ^ (w - 1) else 0) + b)%N = neg /\
  (((if neg then 2 ^ (w - 1) else 0) + b) mod 2 ^ (w - 1))%N = b.
Proof.
  intros Hb. destruct neg.
  - split; [apply N.leb_le; lia |]. rewrite N.add_comm, <- (N.mul_1_l (2 ^ (w - 1))) at 1.
    rewrite N.Div0.mod_add, N.mod_small by done. done.
  - rewrite N.add_0_l. split; [apply N.leb_gt; lia | by apply N.mod_small].
Qed.

Lemma from_bits_fin (neg : bool) m (b : N) : 0 <= m < limit f -> round_mag f m 1 = m -> b = Z.to_N (magnitude_bits m) ->
  from_bits ((if neg then 2 ^ (w - 1) else 0) + b)%N = Fin neg m.
Proof.
  intros Hm Hr ->. pose proof (bits_bound m Hm Hr) as Hb. unfold from_bits.
  destruct (sign_rest neg (Z.to_N (magnitude_bits m)) ltac:(lia)) as [-> ->].
  rewrite (proj2 (N.ltb_lt _ _)) by lia. rewrite Z2N.id, bits_back by lia. done.
Qed.

Lemma to_from_bits x : (Z.to_N inf_bits < nan < 2 ^ (w - 1))%N -> wf f x -> from_bits (to_bits x) = x.
Proof.
  intros Hnan. destruct x as [|neg|neg m]; intros Hx.
  - unfold from_bits. simpl. rewrite N.mod_small, (proj2 (N.ltb_ge _ _)), (proj2 (N.eqb_neq _ _)) by lia. done.
  - unfold from_bits. simpl. destruct (sign_rest neg (Z.to_N inf_bits) Hw) as [-> ->]. by rewrite N.ltb_irrefl, N.eqb_refl.
  - destruct Hx as [Hm Hr]. by apply from_bits_fin.
Qed.

Lemma to_bits_bound x : (Z.to_N inf_bits < nan < 2 ^ (w - 1))%N -> wf f x -> (0 < w)%N -> (to_bits x < 2 ^ w)%N.
Proof.
  intros Hnan Hx Hw0. assert (E : (2 ^ w = 2 ^ (w - 1) + 2 ^ (w - 1))%N).
  { replace w with (N.succ (w - 1)) at 1 by lia. rewrite N.pow_succ_r'. lia. }
  destruct x as [|[]|neg m]; simpl; try lia. destruct Hx as [Hm Hr]. pose proof (bits_bound m Hm Hr). destruct neg; lia.
Qed.

(** The bits after those of a finite value, and before them. *)
Lemma from_bits_after (neg : bool) m : 0 <= m < limit f -> round_mag f m 1 = m ->
  from_bits ((if neg then 2 ^ (w - 1) else 0) + (Z.to_N (magnitude_bits m) + 1))%N =
  let m' := m + 2 ^ shift_of f m in if m' <? limit f then Fin neg m' else Inf neg.
Proof.
  intros Hm Hr. set (m' := m + 2 ^ shift_of f m). cbv zeta. pose proof (bits_bound m Hm Hr) as Hb. pose proof (bits_next m ltac:(lia) Hr) as Hn.
  assert (Hpos : 0 < 2 ^ shift_of f m) by (apply Z.pow_pos_nonneg; [lia | apply shift_of_nonneg]).
  destruct (Z.ltb_spec m' (limit f)) as [Hlt|Hge].
  - apply from_bits_fin; [lia | by apply (next_mag_fits f); lia |]. unfold m'. rewrite Hn. lia.
  - unfold m' in Hge. rewrite (next_limit m Hm Hr Hge), limit_bits in Hn.
    replace (Z.to_N (magnitude_bits m) + 1)%N with (Z.to_N inf_bits) by lia.
    unfold from_bits. destruct (sign_rest neg (Z.to_N inf_bits) Hw) as [-> ->]. by rewrite N.ltb_irrefl, N.eqb_refl.
Qed.

Lemma from_bits_before (neg : bool) m : 0 < m < limit f -> round_mag f m 1 = m ->
  from_bits ((if neg then 2 ^ (w - 1) else 0) + (Z.to_N (magnitude_bits m) - 1))%N = Fin neg (m - 2 ^ shift_of f (m - 1)).
Proof.
  intros Hm Hr. destruct (previous m ltac:(lia) Hr) as (P1 & P2 & P3). pose proof (bits_next _ P1 P2) as Hn. rewrite P3 in Hn.
  assert (Hpos : 0 < 2 ^ shift_of f (m - 1)) by (apply Z.pow_pos_nonneg; [lia | apply shift_of_nonneg]).
  apply from_bits_fin; [lia | done |]. replace (m - 2 ^ shift_of f (m - 1) + 2 ^ shift_of f (m - 1)) with m in Hn by lia. lia.
Qed.
End Bits.

Definition f32_to_bits : float -> N := to_bits binary32 32 0x7FC00000.
Definition f32_from_bits : N -> float := from_bits binary32 32.
Definition f64_to_bits : float -> N := to_bits binary64 64 0x7FF8000000000000.
Definition f64_from_bits : N -> float := from_bits binary64 64.

Lemma f32_bits_back x : wf binary32 x -> f32_from_bits (f32_to_bits x) = x /\ (f32_to_bits x < 2 ^ 32)%N.
Proof.
  intros Hx. split; [apply to_from_bits; try done; apply _ | apply to_bits_bound; try done; apply _].
Qed.
