(* ===== verification/CompressedFile.v ===== *)
(** * The file of a compressed inverted index

    lib/sparse/src/index/inverted_index/inverted_index_compressed_mmap.rs: one
    header per posting list, then the packed identifiers, the chunks and the
    remaining elements of every list.  A list is read through its header and
    the start of the next one.

    The file proves that every list of a written index is read back, that the
    index opened from the file equals the written one, and that offsets out of
    bounds are refused.

    Structures are written as they lie in memory ([repr(C)], little-endian):
    the bytes of weights and parameters and of the padding behind them are
    those of a class, discharged for [f32].  A memory map starts at an aligned
    address.  The configuration file, a JSON object, is the record
    [InvertedIndexFileHeader]. *)

From S2P Require Import Prelude Float FloatBits Order PointId RrfScoring Postings MachineInt SparseVectors InvertedIndex.
From S2P Require Import BlockMax TopK SparseSearch CompressedPostings CompressedLaws CompressedBuild CompressedIndex.

(** ** Bytes of structures *)

Class StoredWeight (W P : Type) `{Weight W P} : Type := {
  weight_bytes : W -> list N;
  weight_of : list N -> W;
  params_bytes : P -> list N;
  params_of : list N -> P;
  size_of_params : nat;
  padding_bytes : nat -> list N;
  valid_weight : W -> Prop;
  valid_params : P -> Prop;
  size_of_weight_pos : 0 < size_of_weight;
  weight_bytes_length w : length (weight_bytes w) = size_of_weight;
  weight_bytes_back w : valid_weight w -> weight_of (weight_bytes w) = w;
  params_bytes_length p : length (params_bytes p) = size_of_params;
  params_bytes_back p : valid_params p -> params_of (params_bytes p) = p;
  padding_length n : length (padding_bytes n) = n;
  from_f32_valid p w : wf binary32 w -> valid_weight (from_f32 p w);
  params_for_valid ws : Forall (wf binary32) ws -> valid_params (quantization_params_for ws);
}.

#[export] Program Instance f32_stored : StoredWeight float unit := {|
  weight_bytes w := to_le_bytes 4 (f32_to_bits w);
  weight_of bytes := f32_from_bits (from_le_bytes bytes);
  params_bytes _ := [];
  params_of _ := tt;
  size_of_params := 0;
  padding_bytes n := replicate n 0%N;
  valid_weight w := wf binary32 w;
  valid_params _ := True;
|}.
Next Obligation. simpl. lia. Qed.
Next Obligation. done. Qed.
Next Obligation.
  intros w Hw. simpl in Hw |- *. destruct (f32_bits_back w Hw) as [E Hlt].
  change (f32_from_bits (from_le_bytes (to_le_bytes 4 (f32_to_bits w))) = w).
  rewrite from_to_le_bytes, N.mod_small; [done | exact Hlt].
Qed.
Next Obligation. done. Qed.
Next Obligation. by intros []. Qed.
Next Obligation. intros n. simpl. apply length_replicate. Qed.
Next Obligation. done. Qed.
Next Obligation. done. Qed.

Section File.
Context {W P : Type} `{HW : Weight W P} `{HS : !StoredWeight W P}.

Local Abbreviation chunk := (@CompressedPostingChunk W).
Local Abbreviation element := (@GenericPostingElement W).
Local Abbreviation plist := (@CompressedPostingList W P).

Definition chunk_to_bytes (c : chunk) : list N :=
  to_le_bytes 4 (initial c) ++ to_le_bytes 4 (offset c) ++ mjoin (weight_bytes <$> chunk_weights c)
    ++ padding_bytes (size_of_chunk - (8 + CHUNK_SIZE * size_of_weight)).

Definition chunk_of_bytes (b : list N) : chunk :=
  {| initial := from_le_bytes (take 4 b); offset := from_le_bytes (take 4 (drop 4 b));
     chunk_weights := weight_of <$> slice_chunks size_of_weight (take (CHUNK_SIZE * size_of_weight) (drop 8 b)) |}.

Definition element_to_bytes (e : element) : list N :=
  to_le_bytes 4 (g_record_id e) ++ weight_bytes (g_weight e) ++ padding_bytes (size_of_element - (4 + size_of_weight)).

Definition element_of_bytes (b : list N) : element :=
  {| g_record_id := from_le_bytes (take 4 b); g_weight := weight_of (take size_of_weight (drop 4 b)) |}.

(** ** Headers *)

Record PostingListFileHeader : Type := mkPostingListFileHeader {
  ids_start : N;
  h_last_id : N;
  ids_len : N;
  h_chunks_count : N;
  h_quantization_params : P;
}.

Definition align8 (n : nat) : nat := (n + 7) / 8 * 8.

(** [size_of::<PostingListFileHeader<W>>()] *)
Definition HEADER_SIZE : nat := align8 (8 + 4 + 4 + 4 + size_of_params).

Definition PostingListFileHeader_bytes (h : PostingListFileHeader) : list N :=
  to_le_bytes 8 (ids_start h) ++ to_le_bytes 4 (h_last_id h) ++ to_le_bytes 4 (ids_len h)
    ++ to_le_bytes 4 (h_chunks_count h) ++ params_bytes (h_quantization_params h)
    ++ padding_bytes (HEADER_SIZE - (20 + size_of_params)).

Definition PostingListFileHeader_read (b : list N) : PostingListFileHeader :=
  {| ids_start := from_le_bytes (take 8 b); h_last_id := from_le_bytes (take 4 (drop 8 b));
     ids_len := from_le_bytes (take 4 (drop 12 b)); h_chunks_count := from_le_bytes (take 4 (drop 16 b));
     h_quantization_params := params_of (take size_of_params (drop 20 b)) |}.

(** [PostingListFileHeader::postings_count] *)
Definition postings_count (self : PostingListFileHeader) (remainders_end : N) : option nat :=
  let chunks_bytes := (h_chunks_count self * N.of_nat size_of_chunk)%N in
  data_len ← checked_sub remainders_end (ids_start self);
  remainders_bytes ← checked_sub data_len (ids_len self + chunks_bytes);
  let elem_size := N.of_nat size_of_element in
  if (remainders_bytes mod elem_size =? 0)%N
  then Some (N.to_nat (h_chunks_count self) * CHUNK_SIZE + N.to_nat (remainders_bytes / elem_size))
  else None.

Record InvertedIndexFileHeader : Type := mkInvertedIndexFileHeader {
  posting_count : nat;
  f_vector_count : nat;
  f_total_sparse_size : option nat;
}.

Record InvertedIndexCompressedMmap : Type := mkInvertedIndexCompressedMmap {
  storage : list N;
  file_header : InvertedIndexFileHeader;
}.

(** ** Writing *)

(** The first loop; [None] is the overflow of the last identifier. *)
Fixpoint write_headers (offset : nat) (postings : list plist) : option (list N) :=
  match postings with
  | [] => Some []
  | posting :: postings =>
      let size := store_size (list_view posting) in
      last ← match list_last_id (list_view posting) with Some id => checked_add 32 id 1 | None => Some 0%N end;
      let header := {| ids_start := N.of_nat offset;
                       h_last_id := last;
                       ids_len := N.of_nat (id_data_bytes size) mod 2 ^ 32;
                       h_chunks_count := N.of_nat (chunks_count size) mod 2 ^ 32;
                       h_quantization_params := multiplier (list_view posting) |} in
      rest ← write_headers (offset + total size) postings;
      Some (PostingListFileHeader_bytes header ++ rest)
  end.

(** The parts of a list, behind each other. *)
Definition posting_bytes (posting : plist) : list N :=
  id_data (list_view posting) ++ mjoin (chunk_to_bytes <$> chunks_ (list_view posting))
    ++ mjoin (element_to_bytes <$> remainders (list_view posting)).

Definition total_posting_headers_size (index : InvertedIndexCompressedImmutableRam W P) : nat :=
  length (c_postings index) * HEADER_SIZE.

(** [create_and_ensure_length] gives a file of zeros, which is written from
    its start. *)
Definition convert_and_save (index : InvertedIndexCompressedImmutableRam W P)
    : option InvertedIndexCompressedMmap :=
  let file_length := total_posting_headers_size index
    + sum_list ((fun p => total (store_size (list_view p))) <$> c_postings index) in
  headers ← write_headers (total_posting_headers_size index) (c_postings index);
  let written := headers ++ mjoin (posting_bytes <$> c_postings index) in
  Some {| storage := written ++ drop (length written) (replicate file_length 0%N);
          file_header := {| posting_count := length (c_postings index);
                            f_vector_count := c_vector_count index;
                            f_total_sparse_size := Some (c_total_sparse_size index) |} |}.

(** ** Reading *)

Definition corrupted_index : OperationError := ServiceError "Sparse index is corrupted".

(** [read_bytes] of a memory map. *)
Definition read_bytes (bytes : list N) (start end_ : N) : OperationResult (list N) :=
  match get_range bytes (N.to_nat start) (N.to_nat end_) with
  | Some b => Ok b
  | None => Err (ServiceError "Out of bounds")
  end.

(** [ref_from_bytes] of a slice of structures of [size] bytes that lies at
    [address]: the length has to be a multiple, the address aligned. *)
Definition slice_from_bytes {A} (parse : list N -> A) (size : nat) (address : N) (b : list N)
    : OperationResult (list A) :=
  if (length b mod size =? 0) && (address mod 4 =? 0)%N then Ok (parse <$> slice_chunks size b)
  else Err corrupted_index.

Definition read_posting_header (self : InvertedIndexCompressedMmap) (id : N)
    : OperationResult (PostingListFileHeader * N) :=
  let count := (N.of_nat (posting_count (file_header self)) mod 2 ^ 32)%N in
  if (count <=? id)%N then Err out_of_bounds
  else
    let header_start := (id * N.of_nat HEADER_SIZE)%N in
    let has_next := (id + 1 <? count)%N in
    let read_size := (N.of_nat HEADER_SIZE + if has_next then 8 else 0)%N in
    match read_bytes (storage self) header_start (header_start + read_size) with
    | Err e => Err e
    | Ok header_bytes =>
        if (length header_bytes <? HEADER_SIZE) || negb (header_start mod 8 =? 0)%N then Err corrupted_index
        else
          let header := PostingListFileHeader_read (take HEADER_SIZE header_bytes) in
          let rest := drop HEADER_SIZE header_bytes in
          if has_next then
            if length rest =? 8 then Ok (header, from_le_bytes rest) else Err corrupted_index
          else Ok (header, N.of_nat (length (storage self)))
    end.

(** [InvertedIndexCompressedMmap::get] *)
Definition mmap_view (self : InvertedIndexCompressedMmap) (id : N)
    : OperationResult (@CompressedPostingListView W P) :=
  match read_posting_header self id with
  | Err e => Err e
  | Ok (header, remainders_end) =>
      match read_bytes (storage self) (ids_start header) remainders_end with
      | Err e => Err e
      | Ok data =>
          let ids_len := N.to_nat (ids_len header) in
          let chunks_bytes := N.to_nat (h_chunks_count header) * size_of_chunk in
          match get_range data 0 ids_len, get_range data ids_len (ids_len + chunks_bytes) with
          | Some id_data, Some chunk_data =>
              let address := (ids_start header + N.of_nat ids_len)%N in
              match slice_from_bytes chunk_of_bytes size_of_chunk address chunk_data,
                slice_from_bytes element_of_bytes size_of_element (address + N.of_nat chunks_bytes)
                  (drop (ids_len + chunks_bytes) data) with
              | Ok chunks, Ok remainders =>
                  Ok {| id_data := id_data; chunks_ := chunks; remainders := remainders;
                        list_last_id := checked_sub (h_last_id header) 1;
                        multiplier := h_quantization_params header |}
              | _, _ => Err corrupted_index
              end
          | _, _ => Err corrupted_index
          end
      end
  end.

Definition mmap_get (self : InvertedIndexCompressedMmap) (id : N)
    : OperationResult (@CompressedPostingListIterator W P) :=
  match mmap_view self id with Ok v => Ok (view_iter v) | Err e => Err e end.

Definition mmap_posting_list_len (self : InvertedIndexCompressedMmap) (id : N) : OperationResult nat :=
  match read_posting_header self id with
  | Err e => Err e
  | Ok (header, remainders_end) =>
      match postings_count header remainders_end with Some n => Ok n | None => Err corrupted_index end
  end.

Definition mmap_max_index (self : InvertedIndexCompressedMmap) : option N :=
  match posting_count (file_header self) with
  | 0 => None
  | len => Some ((N.of_nat len mod 2 ^ 32 + 2 ^ 32 - 1) mod 2 ^ 32)%N
  end.

(** The loops over all posting lists of [calculate_total_sparse_size] and of
    [InvertedIndexCompressedImmutableRam::open]. *)
Fixpoint read_lists (self : InvertedIndexCompressedMmap) (ids : list nat) : OperationResult (list plist) :=
  match ids with
  | [] => Ok []
  | id :: ids =>
      match mmap_view self (N.of_nat id) with
      | Err e => Err e
      | Ok v => match read_lists self ids with Ok ps => Ok (to_owned v :: ps) | Err e => Err e end
      end
  end.

Definition all_lists (self : InvertedIndexCompressedMmap) : OperationResult (list plist) :=
  read_lists self (seq 0 (N.to_nat (N.of_nat (posting_count (file_header self)) mod 2 ^ 32))).

Definition calculate_total_sparse_size (self : InvertedIndexCompressedMmap) : OperationResult nat :=
  match all_lists self with
  | Ok ps => Ok (sum_list ((fun p => total (store_size (list_view p))) <$> ps))
  | Err e => Err e
  end.

(** [InvertedIndexCompressedMmap::load]: a size missing in the configuration is
    computed. *)
Definition load_mmap (storage : list N) (header : InvertedIndexFileHeader)
    : OperationResult InvertedIndexCompressedMmap :=
  let index := {| storage := storage; file_header := header |} in
  match f_total_sparse_size header with
  | Some _ => Ok index
  | None =>
      match calculate_total_sparse_size index with
      | Ok size =>
          Ok {| storage := storage;
                file_header := {| posting_count := posting_count header; f_vector_count := f_vector_count header;
                                  f_total_sparse_size := Some size |} |}
      | Err e => Err e
      end
  end.

(** [InvertedIndexCompressedImmutableRam::open] *)
Definition immutable_open (storage : list N) (header : InvertedIndexFileHeader)
    : OperationResult (InvertedIndexCompressedImmutableRam W P) :=
  match load_mmap storage header with
  | Err e => Err e
  | Ok index =>
      match all_lists index with
      | Ok ps => Ok {| c_postings := ps; c_vector_count := f_vector_count (file_header index);
                       c_total_sparse_size := default 0 (f_total_sparse_size (file_header index)) |}
      | Err e => Err e
      end
  end.

(** ** What is written is read back *)

Record storable (p : plist) : Prop := {
  st_chunks : Forall (fun c => (initial c < 2 ^ 32)%N /\ (offset c < 2 ^ 32)%N /\
    length (chunk_weights c) = CHUNK_SIZE /\ Forall valid_weight (chunk_weights c)) (l_chunks p);
  st_remainders : Forall (fun e => (g_record_id e < 2 ^ 32)%N /\ valid_weight (g_weight e)) (l_remainders p);
  st_last id : l_last_id p = Some id -> (id < 2 ^ 32 - 1)%N;
  st_aligned : length (l_id_data p) mod 4 = 0;
  st_data : (N.of_nat (length (l_id_data p)) < 2 ^ 32)%N;
  st_count : (N.of_nat (length (l_chunks p)) < 2 ^ 32)%N;
  st_params : valid_params (quantization_params p);
}.

Lemma align4_ge n : n <= align4 n /\ align4 n mod 4 = 0.
Proof.
  unfold align4. split; [|apply Nat.Div0.mod_mul]. pose proof (Nat.div_mod_eq (n + 3) 4).
  pose proof (Nat.mod_upper_bound (n + 3) 4 ltac:(lia)). lia.
Qed.

Lemma align8_ge n : n <= align8 n /\ align8 n mod 8 = 0.
Proof.
  unfold align8. split; [|apply Nat.Div0.mod_mul]. pose proof (Nat.div_mod_eq (n + 7) 8).
  pose proof (Nat.mod_upper_bound (n + 7) 8 ltac:(lia)). lia.
Qed.

Lemma length_join_uniform {A} k (ls : list (list A)) :
  Forall (fun l => length l = k) ls -> length (mjoin ls) = length ls * k.
Proof.
  induction 1 as [|l ls Hl Hls IH]; [done |]. change (mjoin (l :: ls)) with (l ++ mjoin ls).
  rewrite length_app, IH, Hl. cbn [length]. lia.
Qed.

(** Pieces of one length, cut apart again. *)
Lemma slice_chunks_join {A} k (ls : list (list A)) :
  0 < k -> Forall (fun l => length l = k) ls -> slice_chunks k (mjoin ls) = ls.
Proof.
  intros Hk Hls. unfold slice_chunks. assert (Hf : length ls <= length (mjoin ls)).
  { rewrite (length_join_uniform k ls Hls). nia. }
  revert Hf. generalize (length (mjoin ls)). intros fuel. revert fuel.
  induction Hls as [|l ls Hl Hls IH]; intros fuel Hf; [by destruct fuel |]. destruct fuel as [|fuel]; [simpl in Hf; lia |].
  change (mjoin (l :: ls)) with (l ++ mjoin ls). destruct l as [|x l]; [simpl in Hl; lia |]. cbn [app chunks_loop].
  change (x :: l ++ mjoin ls) with ((x :: l) ++ mjoin ls). rewrite <- Hl, take_app_length, drop_app_length, Hl.
  f_equal. apply IH. simpl in Hf. lia.
Qed.

Lemma get_range_mid {A} (a b c : list A) : get_range (a ++ b ++ c) (length a) (length a + length b) = Some b.
Proof.
  rewrite get_range_Some by (rewrite ?length_app; lia).
  by rewrite drop_app_length, Nat.add_comm, Nat.add_sub, take_app_length.
Qed.

Lemma field_back n v (rest : list N) :
  (v < 2 ^ (8 * N.of_nat n))%N -> from_le_bytes (take n (to_le_bytes n v ++ rest)) = v.
Proof.
  intros Hv. rewrite take_app_length' by by rewrite length_to_le_bytes.
  by rewrite from_to_le_bytes, N.mod_small.
Qed.

Lemma drop_field n v (rest : list N) k : drop (n + k) (to_le_bytes n v ++ rest) = drop k rest.
Proof. by rewrite <- drop_drop, drop_app_length' by by rewrite length_to_le_bytes. Qed.

Lemma length_weights (ws : list W) : length (mjoin (weight_bytes <$> ws)) = length ws * size_of_weight.
Proof.
  rewrite (length_join_uniform size_of_weight), length_fmap; [done |].
  apply Forall_fmap, Forall_forall. intros w _. apply weight_bytes_length.
Qed.

Lemma chunk_bytes_length (c : chunk) : length (chunk_weights c) = CHUNK_SIZE -> length (chunk_to_bytes c) = size_of_chunk.
Proof.
  intros Hl. unfold chunk_to_bytes. rewrite !length_app, !length_to_le_bytes, length_weights, Hl, padding_length.
  pose proof (align4_ge (4 + 4 + CHUNK_SIZE * size_of_weight)). unfold size_of_chunk. lia.
Qed.

Lemma chunk_back (c : chunk) :
  (initial c < 2 ^ 32)%N -> (offset c < 2 ^ 32)%N -> length (chunk_weights c) = CHUNK_SIZE ->
  Forall valid_weight (chunk_weights c) -> chunk_of_bytes (chunk_to_bytes c) = c.
Proof.
  intros Hi Ho Hl Hw. unfold chunk_of_bytes, chunk_to_bytes. destruct c as [i o ws]. cbn [initial offset chunk_weights] in *.
  rewrite field_back by exact Hi. f_equal.
  - change 4 with (4 + 0) at 2. rewrite drop_field, drop_0, field_back by exact Ho. done.
  - change 8 with (4 + (4 + 0)). rewrite !drop_field, drop_0.
    rewrite take_app_length' by (rewrite length_weights, Hl; lia).
    rewrite slice_chunks_join; [|apply size_of_weight_pos | apply Forall_fmap, Forall_forall; intros w _; apply weight_bytes_length].
    rewrite <- list_fmap_compose. clear -Hw. induction Hw as [|w ws Hw Hws IH]; [done |]. csimpl. rewrite IH.
    unfold compose. by rewrite weight_bytes_back.
Qed.

Lemma element_bytes_length (e : element) : length (element_to_bytes e) = size_of_element.
Proof.
  unfold element_to_bytes. rewrite !length_app, length_to_le_bytes, weight_bytes_length, padding_length.
  pose proof (align4_ge (4 + size_of_weight)). unfold size_of_element. lia.
Qed.

Lemma element_back (e : element) :
  (g_record_id e < 2 ^ 32)%N -> valid_weight (g_weight e) -> element_of_bytes (element_to_bytes e) = e.
Proof.
  intros Hi Hw. unfold element_of_bytes, element_to_bytes. destruct e as [i w]. cbn [g_record_id g_weight] in *.
  rewrite field_back by exact Hi. f_equal. change 4 with (4 + 0) at 1. rewrite drop_field, drop_0.
  rewrite take_app_length' by by rewrite weight_bytes_length. by apply weight_bytes_back.
Qed.

(** *** Headers *)

Lemma header_size_ge : 20 + size_of_params <= HEADER_SIZE /\ HEADER_SIZE mod 8 = 0 /\ 0 < HEADER_SIZE.
Proof. pose proof (align8_ge (8 + 4 + 4 + 4 + size_of_params)). unfold HEADER_SIZE. lia. Qed.

Lemma header_bytes_length h : length (PostingListFileHeader_bytes h) = HEADER_SIZE.
Proof.
  unfold PostingListFileHeader_bytes. rewrite !length_app, !length_to_le_bytes, params_bytes_length, padding_length.
  pose proof header_size_ge. lia.
Qed.

Lemma header_first h :
  PostingListFileHeader_bytes h = to_le_bytes 8 (ids_start h) ++ drop 8 (PostingListFileHeader_bytes h).
Proof. unfold PostingListFileHeader_bytes at 2. by rewrite drop_app_length' by by rewrite length_to_le_bytes. Qed.

Lemma header_back h :
  (ids_start h < 2 ^ 64)%N -> (h_last_id h < 2 ^ 32)%N -> (ids_len h < 2 ^ 32)%N -> (h_chunks_count h < 2 ^ 32)%N ->
  valid_params (h_quantization_params h) -> PostingListFileHeader_read (PostingListFileHeader_bytes h) = h.
Proof.
  intros H1 H2 H3 H4 H5. unfold PostingListFileHeader_read, PostingListFileHeader_bytes. destruct h as [s l n c q].
  cbn [ids_start h_last_id ids_len h_chunks_count h_quantization_params] in *.
  f_equal.
  - by rewrite field_back.
  - change 8 with (8 + 0) at 1. by rewrite drop_field, drop_0, field_back.
  - change 12 with (8 + (4 + 0)). by rewrite !drop_field, drop_0, field_back.
  - change 16 with (8 + (4 + (4 + 0))). by rewrite !drop_field, drop_0, field_back.
  - change 20 with (8 + (4 + (4 + (4 + 0)))). rewrite !drop_field, drop_0.
    rewrite take_app_length' by by rewrite params_bytes_length. by apply params_bytes_back.
Qed.

(** The header of a list whose parts start at an offset. *)
Definition header_of (offset : nat) (p : plist) : PostingListFileHeader :=
  {| ids_start := N.of_nat offset;
     h_last_id := match l_last_id p with Some id => id + 1 | None => 0 end;
     ids_len := N.of_nat (length (l_id_data p));
     h_chunks_count := N.of_nat (length (l_chunks p));
     h_quantization_params := quantization_params p |}%N.

Lemma header_of_back offset p : storable p -> (N.of_nat offset < 2 ^ 64)%N ->
  PostingListFileHeader_read (PostingListFileHeader_bytes (header_of offset p)) = header_of offset p.
Proof.
  intros Hp Ho. apply header_back; simpl; [done | | apply Hp | apply Hp | apply Hp].
  destruct (l_last_id p) as [id|] eqn:E; [|done]. pose proof (st_last _ Hp id E). lia.
Qed.

Lemma posting_bytes_length p : storable p ->
  length (posting_bytes p) = total (store_size (list_view p)) /\ length (posting_bytes p) mod 4 = 0.
Proof.
  intros Hp. assert (El : length (posting_bytes p) = length (l_id_data p)
    + (length (l_chunks p) * size_of_chunk + length (l_remainders p) * size_of_element)).
  { unfold posting_bytes. simpl. rewrite !length_app. do 2 f_equal.
    - rewrite (length_join_uniform size_of_chunk), length_fmap; [done |]. apply Forall_fmap.
      eapply Forall_impl; [apply (st_chunks _ Hp) |]. intros c (_ & _ & Hl & _). by apply chunk_bytes_length.
    - rewrite (length_join_uniform size_of_element), length_fmap; [done |]. apply Forall_fmap, Forall_forall.
      intros e _. apply element_bytes_length. }
  rewrite El. split; [simpl; unfold chunks_len, remainder_len; simpl; lia |].
  pose proof (st_aligned _ Hp). pose proof (proj2 (align4_ge (4 + 4 + CHUNK_SIZE * size_of_weight))) as Hc.
  pose proof (proj2 (align4_ge (4 + size_of_weight))) as He. fold size_of_chunk in Hc. fold size_of_element in He.
  rewrite Nat.Div0.add_mod, (Nat.Div0.add_mod (length (l_chunks p) * _)), Nat.Div0.mul_mod, (Nat.Div0.mul_mod (length (l_remainders p))).
  by rewrite H, Hc, He, !Nat.mul_0_r.
Qed.

(** The headers that are written. *)
Fixpoint heads (offset : nat) (ps : list plist) : list PostingListFileHeader :=
  match ps with
  | [] => []
  | p :: ps => header_of offset p :: heads (offset + length (posting_bytes p)) ps
  end.

Lemma heads_lookup ps offset i p : ps !! i = Some p ->
  heads offset ps !! i = Some (header_of (offset + length (mjoin (take i (posting_bytes <$> ps)))) p).
Proof.
  revert offset i. induction ps as [|q ps IH]; intros offset [|i] E; simplify_eq/=; [by rewrite Nat.add_0_r |].
  rewrite (IH _ _ E). do 2 f_equal. rewrite length_app. lia.
Qed.

Lemma heads_length ps offset : length (heads offset ps) = length ps.
Proof. revert offset. induction ps as [|p ps IH]; intros offset; simpl; [done |]. by rewrite IH. Qed.

Lemma write_headers_heads ps offset : Forall storable ps ->
  write_headers offset ps = Some (mjoin (PostingListFileHeader_bytes <$> heads offset ps)).
Proof.
  intros Hps. revert offset. induction Hps as [|p ps Hp Hps IH]; intros offset; [done |]. cbn [write_headers].
  assert (Hl : match list_last_id (list_view p) with Some id => checked_add 32 id 1 | None => Some 0%N end =
    Some (h_last_id (header_of offset p))).
  { simpl. destruct (l_last_id p) as [id|] eqn:E; [|done]. pose proof (st_last _ Hp id E). unfold checked_add.
    rewrite (proj2 (N.ltb_lt _ _)) by lia. done. }
  rewrite Hl. cbn [mbind option_bind]. rewrite <- (proj1 (posting_bytes_length p Hp)), IH. cbn [mbind option_bind].
  rewrite (N.mod_small (N.of_nat (id_data_bytes _))) by apply (st_data _ Hp).
  rewrite (N.mod_small (N.of_nat (chunks_count _))) by apply (st_count _ Hp). done.
Qed.

(** *** The file *)

Section Written.
Context (index : InvertedIndexCompressedImmutableRam W P).
Local Abbreviation ps := (c_postings index).
Context (Hst : Forall storable ps) (Hcount : (N.of_nat (length ps) < 2 ^ 32)%N).

Definition bodies : list (list N) := posting_bytes <$> ps.
Definition header_blocks : list (list N) :=
  PostingListFileHeader_bytes <$> heads (total_posting_headers_size index) ps.

Context (Hfits : (N.of_nat (total_posting_headers_size index + length (mjoin bodies)) < 2 ^ 64)%N).

Lemma blocks_uniform : Forall (fun b => length b = HEADER_SIZE) header_blocks.
Proof. apply Forall_fmap, Forall_forall. intros h _. apply header_bytes_length. Qed.

Lemma bodies_total : length (mjoin bodies) = sum_list ((fun p => total (store_size (list_view p))) <$> ps).
Proof.
  unfold bodies. clear Hcount Hfits. induction Hst as [|p l Hp Hl IH]; [done |].
  rewrite !fmap_cons. change (mjoin (posting_bytes p :: (posting_bytes <$> l)))
    with (posting_bytes p ++ mjoin (posting_bytes <$> l)).
  rewrite length_app, (proj1 (posting_bytes_length p Hp)), IH by done. done.
Qed.

Definition saved : InvertedIndexCompressedMmap :=
  {| storage := mjoin header_blocks ++ mjoin bodies;
     file_header := {| posting_count := length ps; f_vector_count := c_vector_count index;
                       f_total_sparse_size := Some (c_total_sparse_size index) |} |}.

Lemma convert_and_save_saved : convert_and_save index = Some saved.
Proof.
  unfold convert_and_save. rewrite write_headers_heads by done. cbn [mbind option_bind]. unfold saved. do 2 f_equal.
  fold header_blocks. rewrite drop_ge; [by rewrite app_nil_r |].
  rewrite length_replicate, length_app, <- bodies_total, (length_join_uniform HEADER_SIZE header_blocks blocks_uniform).
  unfold header_blocks. rewrite length_fmap, heads_length. unfold total_posting_headers_size, bodies. lia.
Qed.

(** Where the parts of a list start. *)
Definition body_start (i : nat) : nat := total_posting_headers_size index + length (mjoin (take i bodies)).

Lemma body_start_fits i : (N.of_nat (body_start i) < 2 ^ 64)%N.
Proof.
  unfold body_start. pose proof (take_drop i bodies) as E. apply (f_equal (fun l => length (mjoin l))) in E.
  rewrite join_app, length_app in E. lia.
Qed.

Lemma block_lookup i p : ps !! i = Some p ->
  header_blocks !! i = Some (PostingListFileHeader_bytes (header_of (body_start i) p)).
Proof. intros E. unfold header_blocks. rewrite list_lookup_fmap, (heads_lookup _ _ _ _ E). done. Qed.

Lemma body_lookup i p : ps !! i = Some p -> bodies !! i = Some (posting_bytes p).
Proof. intros E. unfold bodies. by rewrite list_lookup_fmap, E. Qed.

Lemma body_start_S i p : ps !! i = Some p -> body_start (S i) = body_start i + length (posting_bytes p).
Proof. intros E. unfold body_start. rewrite (join_take_S _ _ _ (body_lookup i p E)), length_app. lia. Qed.

Lemma blocks_before i : i <= length ps -> length (mjoin (take i header_blocks)) = i * HEADER_SIZE.
Proof.
  intros Hi. rewrite (length_join_uniform HEADER_SIZE) by by apply Forall_take, blocks_uniform.
  rewrite length_take. unfold header_blocks. by rewrite length_fmap, heads_length, Nat.min_l.
Qed.

Lemma storage_length : length (storage saved) = body_start (length ps).
Proof.
  simpl. rewrite length_app. unfold body_start. rewrite (take_ge bodies) by (unfold bodies; by rewrite length_fmap).
  rewrite (length_join_uniform HEADER_SIZE header_blocks blocks_uniform). unfold header_blocks. by rewrite length_fmap, heads_length.
Qed.

Lemma read_header_saved i p : ps !! i = Some p ->
  read_posting_header saved (N.of_nat i) = Ok (header_of (body_start i) p, N.of_nat (body_start (S i))).
Proof.
  intros E. pose proof header_size_ge as (_ & H8 & Hpos). apply lookup_lt_Some in E as Hi. pose proof (proj1 (Forall_lookup _ _) Hst i p E) as Hp.
  unfold read_posting_header. cbn [file_header posting_count saved]. rewrite N.mod_small by done.
  rewrite (proj2 (N.leb_gt _ _)) by lia.
  pose proof (join_piece _ _ _ (block_lookup i p E)) as Ej. pose proof (blocks_before i ltac:(lia)) as Eb.
  assert (Ha : (N.of_nat i * N.of_nat HEADER_SIZE mod 8 = 0)%N).
  { rewrite <- Nat2N.inj_mul. change 8%N with (N.of_nat 8). rewrite <- Nat2N.inj_mod, Nat.Div0.mul_mod, H8, Nat.mul_0_r. done. }
  rewrite Ha, N.eqb_refl. cbn [negb].
  assert (Hread : forall b rest, storage saved = mjoin (take i header_blocks) ++ b ++ rest ->
    read_bytes (storage saved) (N.of_nat i * N.of_nat HEADER_SIZE)
      (N.of_nat i * N.of_nat HEADER_SIZE + N.of_nat (length b)) = Ok b).
  { intros b rest Es. unfold read_bytes. replace (N.to_nat (N.of_nat i * N.of_nat HEADER_SIZE)) with (i * HEADER_SIZE) by lia.
    replace (N.to_nat (N.of_nat i * N.of_nat HEADER_SIZE + N.of_nat (length b))) with (i * HEADER_SIZE + length b) by lia.
    by rewrite Es, <- Eb, get_range_mid. }
  set (hb := PostingListFileHeader_bytes (header_of (body_start i) p)) in *.
  assert (Hhb : length hb = HEADER_SIZE) by apply header_bytes_length.
  destruct (N.ltb_spec (N.of_nat i + 1) (N.of_nat (length ps))) as [Hlt|Hge].
  - destruct (lookup_lt_is_Some_2 ps (S i) ltac:(lia)) as [q Eq]. pose proof (block_lookup (S i) q Eq) as Enext.
    pose proof (drop_S _ _ _ Enext) as Ed. rewrite Ed in Ej.
    set (next := to_le_bytes 8 (N.of_nat (body_start (S i)))).
    replace (N.of_nat HEADER_SIZE + 8)%N with (N.of_nat (length (hb ++ next))) by (rewrite length_app, Hhb; unfold next; rewrite length_to_le_bytes; lia).
    rewrite Hread with (rest := drop 8 (PostingListFileHeader_bytes (header_of (body_start (S i)) q))
      ++ mjoin (drop (S (S i)) header_blocks) ++ mjoin bodies).
    2: { cbn [storage saved]. rewrite Ej. change (mjoin (?b :: ?l)) with (b ++ mjoin l).
         rewrite (header_first (header_of (body_start (S i)) q)) at 1. by rewrite <- !app_assoc. }
    rewrite length_app, (proj2 (Nat.ltb_ge _ _)) by lia. cbn [orb]. rewrite take_app_length', drop_app_length' by done.
    unfold next at 1. rewrite length_to_le_bytes, Nat.eqb_refl. unfold hb. rewrite header_of_back by (done || apply body_start_fits).
    unfold next. rewrite from_to_le_bytes, N.mod_small by apply body_start_fits. done.
  - replace (N.of_nat HEADER_SIZE + 0)%N with (N.of_nat (length hb)) by lia. rewrite (Hread hb (mjoin (drop (S i) header_blocks) ++ mjoin bodies)).
    2: { cbn [storage saved]. by rewrite Ej, <- !app_assoc. }
    rewrite Hhb, Nat.ltb_irrefl, take_ge by lia. cbn [orb]. unfold hb. rewrite header_of_back by (done || apply body_start_fits).
    by rewrite storage_length; replace (length ps) with (S i) by lia.
Qed.

Lemma read_body_saved i p : ps !! i = Some p ->
  read_bytes (storage saved) (N.of_nat (body_start i)) (N.of_nat (body_start (S i))) = Ok (posting_bytes p).
Proof.
  intros E. unfold read_bytes. rewrite !Nat2N.id, (body_start_S i p E). cbn [storage saved].
  rewrite (join_piece _ _ _ (body_lookup i p E)), app_assoc.
  replace (body_start i) with (length (mjoin header_blocks ++ mjoin (take i bodies))); [by rewrite get_range_mid |].
  rewrite length_app, (length_join_uniform HEADER_SIZE header_blocks blocks_uniform). unfold header_blocks.
  by rewrite length_fmap, heads_length.
Qed.

Lemma body_start_aligned i : i <= length ps -> body_start i mod 4 = 0.
Proof.
  induction i as [|i IH]; intros Hi.
  - unfold body_start. rewrite take_0, Nat.add_0_r. unfold total_posting_headers_size. pose proof header_size_ge as (_ & H8 & _).
    apply Nat.Lcm0.mod_divide in H8. apply Nat.Lcm0.mod_divide, Nat.divide_mul_r.
    etrans; [|exact H8]. by exists 2.
  - destruct (lookup_lt_is_Some_2 ps i ltac:(lia)) as [p E]. rewrite (body_start_S i p E), Nat.Div0.add_mod, IH by lia.
    by rewrite (proj2 (posting_bytes_length p (proj1 (Forall_lookup _ _) Hst i p E))).
Qed.

Lemma elements_slice {A} (to_bytes : A -> list N) (of_bytes : list N -> A) size address (l : list A) :
  0 < size -> (address mod 4 = 0)%N -> Forall (fun x => length (to_bytes x) = size /\ of_bytes (to_bytes x) = x) l ->
  slice_from_bytes of_bytes size address (mjoin (to_bytes <$> l)) = Ok l.
Proof.
  intros Hsize Ha Hl. assert (Hu : Forall (fun b => length b = size) (to_bytes <$> l)).
  { apply Forall_fmap. eapply Forall_impl; [exact Hl | by intros x [? _]]. }
  unfold slice_from_bytes. rewrite Ha, (length_join_uniform size) by done. rewrite Nat.Div0.mod_mul, !N.eqb_refl, slice_chunks_join by done.
  cbn [andb Nat.eqb]. f_equal. clear -Hl.
  induction Hl as [|x l [_ Hx] Hl IH]; [done |]. rewrite !fmap_cons. by rewrite Hx, IH.
Qed.

Lemma storable_chunks p : storable p ->
  Forall (fun c => length (chunk_to_bytes c) = size_of_chunk /\ chunk_of_bytes (chunk_to_bytes c) = c) (l_chunks p).
Proof.
  intros Hp. eapply Forall_impl; [apply (st_chunks _ Hp) |].
  intros c (Hi & Ho & Hl & Hw). split; [by apply chunk_bytes_length | by apply chunk_back].
Qed.

Lemma storable_remainders p : storable p ->
  Forall (fun e => length (element_to_bytes e) = size_of_element /\ element_of_bytes (element_to_bytes e) = e) (l_remainders p).
Proof.
  intros Hp. eapply Forall_impl; [apply (st_remainders _ Hp) |].
  intros e (Hi & Hw). split; [apply element_bytes_length | by apply element_back].
Qed.

Lemma sizes_aligned : 0 < size_of_chunk /\ 0 < size_of_element /\ size_of_chunk mod 4 = 0 /\ size_of_element mod 4 = 0.
Proof.
  pose proof (align4_ge (4 + 4 + CHUNK_SIZE * size_of_weight)). pose proof (align4_ge (4 + size_of_weight)).
  unfold size_of_chunk, size_of_element. lia.
Qed.

Lemma aligned_N n : n mod 4 = 0 -> (N.of_nat n mod 4 = 0)%N.
Proof. intros Hn. change 4%N with (N.of_nat 4). by rewrite <- Nat2N.inj_mod, Hn. Qed.

Lemma mmap_view_saved i p : ps !! i = Some p -> mmap_view saved (N.of_nat i) = Ok (list_view p).
Proof.
  intros E. pose proof (proj1 (Forall_lookup _ _) Hst i p E) as Hp. apply lookup_lt_Some in E as Hi.
  destruct sizes_aligned as (Hc & He & Hc4 & He4). pose proof (storable_chunks p Hp) as Hchunks.
  assert (Ec : length (mjoin (chunk_to_bytes <$> l_chunks p)) = length (l_chunks p) * size_of_chunk).
  { rewrite (length_join_uniform size_of_chunk), length_fmap; [done |]. apply Forall_fmap.
    eapply Forall_impl; [exact Hchunks | by intros c [? _]]. }
  assert (Ha : (body_start i + length (l_id_data p)) mod 4 = 0).
  { by rewrite Nat.Div0.add_mod, body_start_aligned, (st_aligned _ Hp) by lia. }
  unfold mmap_view. rewrite (read_header_saved i p E). cbn [ids_start header_of ids_len h_chunks_count h_last_id h_quantization_params].
  rewrite (read_body_saved i p E), !Nat2N.id. unfold posting_bytes. cbn [list_view id_data chunks_ remainders].
  pose proof (get_range_mid [] (l_id_data p) (mjoin (chunk_to_bytes <$> l_chunks p) ++ mjoin (element_to_bytes <$> l_remainders p))) as E1.
  cbn [length app] in E1. rewrite Nat.add_0_l in E1. rewrite E1, <- Ec, get_range_mid.
  rewrite elements_slice; [| done | by rewrite <- Nat2N.inj_add; apply aligned_N | done].
  rewrite drop_app_add, drop_app_length.
  rewrite elements_slice; [| done | | by apply storable_remainders].
  - unfold list_view. do 2 f_equal. destruct (l_last_id p) as [id|]; [|done]. unfold checked_sub.
    rewrite (proj2 (N.leb_le _ _)) by lia. f_equal. lia.
  - rewrite <- !Nat2N.inj_add. apply aligned_N. rewrite Nat.Div0.add_mod, Ha, Ec, Nat.Div0.mul_mod, Hc4, Nat.mul_0_r. done.
Qed.

Lemma mmap_len_saved i p : ps !! i = Some p -> mmap_posting_list_len saved (N.of_nat i) = Ok (view_len (list_view p)).
Proof.
  intros E. pose proof (proj1 (Forall_lookup _ _) Hst i p E) as Hp. destruct sizes_aligned as (Hc & He & _).
  unfold mmap_posting_list_len. rewrite (read_header_saved i p E), (body_start_S i p E), (proj1 (posting_bytes_length p Hp)).
  unfold postings_count, store_size, view_len, chunks_len, remainder_len.
  cbn [ids_start header_of ids_len h_chunks_count total list_view id_data chunks_ remainders].
  rewrite checked_sub_some by lia. cbn [mbind option_bind]. rewrite checked_sub_some by lia. cbn [mbind option_bind].
  replace (_ - _ - _)%N with (N.of_nat (length (l_remainders p)) * N.of_nat size_of_element)%N by lia.
  rewrite N.Div0.mod_mul, N.eqb_refl, N.div_mul, !Nat2N.id by lia. done.
Qed.

(** Offsets out of bounds. *)
Lemma read_header_out id : ps !! N.to_nat id = None -> read_posting_header saved id = Err out_of_bounds.
Proof.
  intros E%lookup_ge_None. unfold read_posting_header. cbn [file_header posting_count saved].
  rewrite N.mod_small, (proj2 (N.leb_le _ _)) by (done || lia). done.
Qed.

(** The file answers like the index that was written. *)
Lemma saved_view id : mmap_view saved id = immutable_view index id.
Proof.
  unfold immutable_view. destruct (ps !! N.to_nat id) as [p|] eqn:E.
  - rewrite <- (N2Nat.id id). by rewrite (mmap_view_saved _ p) by done.
  - unfold mmap_view. by rewrite read_header_out.
Qed.

Lemma saved_len id : mmap_posting_list_len saved id = immutable_posting_list_len index id.
Proof.
  unfold immutable_posting_list_len, immutable_view. destruct (ps !! N.to_nat id) as [p|] eqn:E.
  - rewrite <- (N2Nat.id id). by rewrite (mmap_len_saved _ p) by done.
  - unfold mmap_posting_list_len. by rewrite read_header_out.
Qed.

Lemma saved_max_index : mmap_max_index saved = immutable_max_index index.
Proof.
  unfold mmap_max_index, immutable_max_index. cbn [file_header posting_count saved].
  destruct (length ps) as [|n]; [done |]. rewrite checked_sub_some, (N.mod_small (N.of_nat (S n))) by (done || lia). f_equal.
  replace (N.of_nat (S n) + 2 ^ 32 - 1)%N with (N.of_nat n + 1 * 2 ^ 32)%N by lia.
  rewrite N.Div0.mod_add, N.mod_small by lia. lia.
Qed.

Lemma read_lists_saved pre suf mm : pre ++ suf = ps -> (forall id, mmap_view mm id = immutable_view index id) ->
  read_lists mm (seq (length pre) (length suf)) = Ok suf.
Proof.
  intros E Hv. revert pre E. induction suf as [|p suf IH]; intros pre E; [done |]. cbn [length seq read_lists].
  rewrite Hv. unfold immutable_view. rewrite Nat2N.id, <- E, list_lookup_middle by done. specialize (IH (pre ++ [p])).
  rewrite length_app, Nat.add_1_r in IH. rewrite IH by by rewrite <- app_assoc. by destruct p.
Qed.

Lemma all_lists_saved mm : posting_count (file_header mm) = length ps ->
  (forall id, mmap_view mm id = immutable_view index id) -> all_lists mm = Ok ps.
Proof.
  intros En Hv. unfold all_lists. rewrite En, N.mod_small, Nat2N.id by done. by apply (read_lists_saved []).
Qed.

(** The view depends on the bytes and the number of lists only. *)
Lemma view_header mm mm' id : storage mm = storage mm' -> posting_count (file_header mm) = posting_count (file_header mm') ->
  mmap_view mm id = mmap_view mm' id.
Proof. intros Es Ec. unfold mmap_view, read_posting_header. by rewrite Es, Ec. Qed.

Lemma immutable_open_saved (size : option nat) :
  match size with
  | Some n => n = c_total_sparse_size index
  | None => c_total_sparse_size index = sum_list ((fun p => total (store_size (list_view p))) <$> ps)
  end ->
  immutable_open (storage saved)
    {| posting_count := length ps; f_vector_count := c_vector_count index; f_total_sparse_size := size |} = Ok index.
Proof.
  intros Hsize. assert (Hv : forall h id, posting_count h = length ps ->
    mmap_view {| storage := storage saved; file_header := h |} id = immutable_view index id).
  { intros h id Eh. rewrite <- saved_view. by apply view_header. }
  unfold immutable_open, load_mmap, calculate_total_sparse_size. cbn [f_total_sparse_size posting_count f_vector_count].
  destruct size as [n|].
  - rewrite all_lists_saved by (done || (intros id; by apply Hv)). cbn [file_header f_vector_count f_total_sparse_size default]. rewrite Hsize. by destruct index.
  - rewrite all_lists_saved by (done || (intros id; by apply Hv)). cbn [file_header].
    rewrite all_lists_saved by (done || (intros id; by apply Hv)). cbn [file_header f_vector_count f_total_sparse_size default]. rewrite <- Hsize. by destruct index.
Qed.
End Written.

(** *** Built lists can be stored *)

Lemma ranges_storable `{BitPacker} (records : list PostingElement) p :
  stored_ranges records (list_view p) ->
  Forall (fun e => (e.1 < U32_MAX)%N /\ wf binary32 e.2) records -> storable p.
Proof.
  intros [H1 H2 H3 H4 H5 H6 H7] Hr. rewrite Forall_forall in Hr. split; simpl in *; try done.
  - eapply Forall_impl; [exact H1 |]. simpl. intros c (? & ? & ? & Hw). split_and!; try done.
    eapply Forall_impl; [exact Hw |]. intros w (e & He & ->). by apply from_f32_valid, Hr.
  - eapply Forall_impl; [exact H2 |]. simpl. intros g (e & He & ->). destruct (Hr e He). simpl. unfold U32_MAX in *.
    split; [lia | by apply from_f32_valid].
  - intros id Hid. apply H3, list_elem_of_fmap in Hid as (e & -> & He). destruct (Hr e He). unfold U32_MAX in *. lia.
  - rewrite H7. apply params_for_valid. rewrite sort_by_perm. apply Forall_fmap, Forall_forall. intros e He. by apply Hr.
Qed.

Context `{HB : BitPacker}.

Lemma converted_storable (ram_index : InvertedIndexRam) (m : VectorMap) (index : InvertedIndexCompressedImmutableRam W P) :
  reachable ram_index m -> (forall d, is_Some (m !! d) -> (d < U32_MAX)%N) -> (N.of_nat (size m) < 2 ^ 30)%N ->
  map_Forall (fun _ v => Forall (wf binary32) (values v)) m ->
  from_ram_index ram_index = Some index ->
  length (c_postings index) = length (postings ram_index) /\ Forall storable (c_postings index).
Proof.
  intros Hreach Hids Hsize Hwf E. unfold from_ram_index in E. apply bind_Some in E as (ls & Hls & [= <-]). simpl.
  pose proof (proj1 (mapM_Some _ _ _) Hls) as Hf. split; [by apply Forall2_length in Hf |].
  apply Forall_lookup. intros i l El. destruct (Forall2_lookup_r _ _ _ _ _ Hf El) as (old & Eo & Ec).
  pose proof (posting_records ram_index m Hreach (N.of_nat i)) as Hrec.
  pose proof (posting_length ram_index m Hreach (N.of_nat i)) as Hlen.
  pose proof (posting_of_ok _ _ Hreach (N.of_nat i)) as Hok. pose proof (posting_of_entry _ _ Hreach (N.of_nat i)) as Hent.
  assert (Ep : posting_of (postings ram_index) (N.of_nat i) = old) by (unfold posting_of; by rewrite Nat2N.id, Eo).
  rewrite Ep in *. unfold compress_posting in Ec. rewrite added_elements in Ec. cbn [app] in Ec.
  apply (ranges_storable (plist_entries old)).
  - apply build_ranges; [by apply plist_nodup | | | done].
    + apply Forall_forall. intros e He. pose proof (Hids e.1 (Hrec _ (list_elem_of_fmap_2 _ _ _ He))). unfold U32_MAX in *. lia.
    + unfold plist_entries. rewrite length_fmap. lia.
  - apply Forall_forall. intros e He. split; [apply Hids, Hrec; by apply list_elem_of_fmap_2 |].
    destruct e as [d w]. apply Hent in He. unfold stored in He. apply bind_Some in He as (v & Ev & Hw).
    apply find_weight_Some in Hw. pose proof (map_Forall_lookup_1 _ _ _ _ Hwf Ev) as Hv. rewrite Forall_forall in Hv.
    apply Hv. unfold sv_entries in Hw. by apply elem_of_zip_r in Hw.
Qed.

(** [C16] The file of a compressed index holds the index.  An index in memory,
    reached from an empty or built one by any updates and converted, is
    written without a panic, when the identifiers stay below the largest of 32
    bits and the file below 2^64 bytes.  For every offset, in bounds or not,
    the file gives the cursor and the length the converted index gives, and the
    same largest offset; and the index opened from the file is the converted
    index, also when the configuration lacks the total size. *)
Theorem mmap_index_roundtrip (ram_index : InvertedIndexRam) (m : VectorMap) (index : InvertedIndexCompressedImmutableRam W P) :
  reachable ram_index m -> (forall d, is_Some (m !! d) -> (d < U32_MAX)%N) -> (N.of_nat (size m) < 2 ^ 30)%N ->
  map_Forall (fun _ v => Forall (wf binary32) (values v)) m -> (N.of_nat (length (postings ram_index)) < 2 ^ 32)%N ->
  from_ram_index ram_index = Some index ->
  (N.of_nat (total_posting_headers_size index + c_total_sparse_size index) < 2 ^ 64)%N ->
  exists mm, convert_and_save index = Some mm /\
    (forall id, mmap_get mm id = immutable_get index id) /\
    (forall id, mmap_posting_list_len mm id = immutable_posting_list_len index id) /\
    mmap_max_index mm = immutable_max_index index /\
    immutable_open (storage mm) (file_header mm) = Ok index /\
    immutable_open (storage mm) {| posting_count := posting_count (file_header mm);
      f_vector_count := f_vector_count (file_header mm); f_total_sparse_size := None |} = Ok index.
Proof.
  intros Hreach Hids Hsize Hwf Hcount E Hfits.
  destruct (converted_storable ram_index m index Hreach Hids Hsize Hwf E) as [Hl Hst].
  assert (Et : c_total_sparse_size index = sum_list ((fun p => total (store_size (list_view p))) <$> c_postings index)).
  { unfold from_ram_index in E. by apply bind_Some in E as (ls & _ & [= <-]). }
  rewrite <- Hl in Hcount. rewrite Et, <- (bodies_total index Hst) in Hfits.
  exists (saved index). split_and!.
  - by apply convert_and_save_saved.
  - intros id. unfold mmap_get, immutable_get. by rewrite saved_view.
  - intros id. by apply saved_len.
  - by apply saved_max_index.
  - by apply immutable_open_saved.
  - by apply immutable_open_saved.
Qed.
End File.

(** ** Examples *)

Lemma final_map_below d : is_Some (final_map !! d) -> (d < U32_MAX)%N.
Proof.
  intros Hd%elem_of_dom. revert d Hd. apply (bool_decide_unpack (set_Forall (fun d => (d < U32_MAX)%N) (dom final_map))).
  vm_compute. exact I.
Qed.

Lemma mmap_index_roundtrip_witness :
  exists mm, convert_and_save converted_index = Some mm /\
    @mmap_posting_list_len float unit f32_weight f32_stored mm 0 = @immutable_posting_list_len float unit converted_index 0 /\
    immutable_open (storage mm) (file_header mm) = Ok converted_index.
Proof.
  destruct (@mmap_index_roundtrip float unit f32_weight f32_stored flat_packer updated_index final_map converted_index)
    as (mm & E1 & _ & E2 & _ & E3 & _).
  - exact updated_index_reachable.
  - exact final_map_below.
  - vm_compute. reflexivity.
  - eapply map_Forall_impl; [exact final_map_weights |]. intros d v Hv. eapply Forall_impl; [exact Hv |].
    intros w Hw. apply Hw.
  - vm_compute. reflexivity.
  - exact converted_index_eq.
  - vm_compute. reflexivity.
  - exists mm. split; [exact E1 |]. split; [exact (E2 0%N) | exact E3].
Defined.
