(* ===== verification/FloatReal.v ===== *)
(** * Floating-point arithmetic against the reals

    The real number a finite [f32] or [f64] stands for, and the error of every
    rounded operation as an inequality between reals: at most half a unit in
    the last place, that is [u] times the exact result, plus half the smallest
    subnormal where a product or a quotient may underflow.  [next_up] of a
    rounded result lies above the exact one; that is how the code rounds
    upwards. *)

From S2P Require Import Prelude Float.
From Stdlib Require Import Reals Lra.

Local Open Scope R_scope.

Lemma IZR_pow2 k : (0 <= k)%Z -> 0 < IZR (2 ^ k).
Proof. intros Hk. apply IZR_lt. by apply Z.pow_pos_nonneg. Qed.

Lemma Rabs_le_inv a b : Rabs a <= b -> - b <= a <= b.
Proof. unfold Rabs. destruct (Rcase_abs a); lra. Qed.

Section Real.
Context (f : format) {Hf : Format_ok f}.

(** The smallest subnormal, the unit roundoff, and half the range. *)
Definition runit : R := / IZR (2 ^ (- emin f)).
Definition u_round : R := / IZR (2 ^ prec f).
Definition half_range : R := IZR (2 ^ (emax f - emin f - 1)) * runit.

(** The value of a finite float. *)
Definition rv (x : float) : R := IZR (val x) * runit.

Lemma runit_pos : 0 < runit.
Proof. unfold runit. pose proof (emin_neg (f := f)). apply Rinv_0_lt_compat, IZR_pow2. lia. Qed.

Lemma u_round_pos : 0 < u_round <= 1 / 4.
Proof.
  unfold u_round. pose proof (prec_pos (f := f)) as Hp. split; [apply Rinv_0_lt_compat, IZR_pow2; lia |].
  assert (4 <= IZR (2 ^ prec f)).
  { apply IZR_le. change 4%Z with (2 ^ 2)%Z. apply Z.pow_le_mono_r; lia. }
  replace (1 / 4) with (/ 4) by lra. apply Rinv_le_contravar; lra.
Qed.

(** ** Rounding a magnitude *)

(** Half a unit in the last place. *)
Lemma round_mag_half p q : (0 <= p)%Z -> (0 < q)%Z ->
  Rabs (IZR (round_mag f p q) - IZR p / IZR q) <= IZR (2 ^ shift_of f (p / q)) / 2.
Proof.
  intros Hp Hq. unfold round_mag. set (e := shift_of f (p / q)).
  assert (He : (0 < 2 ^ e)%Z) by (apply Z.pow_pos_nonneg; [lia | apply shift_of_nonneg]).
  destruct (rne_spec p (q * 2 ^ e) ltac:(nia)) as [[B1 B2] _]. set (k := rne p (q * 2 ^ e)) in *.
  apply IZR_lt in Hq as Hq', He as He'. apply IZR_le in B1, B2.
  rewrite ?opp_IZR, ?mult_IZR, ?minus_IZR, ?mult_IZR in *.
  set (P := IZR p) in *. set (Q := IZR q) in *. set (E := IZR (2 ^ e)) in *. set (K := IZR k) in *.
  replace (K * E - P / Q) with ((Q * E * K - P) / Q) by (field; lra).
  unfold Rdiv at 1. rewrite Rabs_mult, (Rabs_pos_eq (/ Q)) by (left; by apply Rinv_0_lt_compat).
  apply Rmult_le_reg_r with Q; [done |]. rewrite Rmult_assoc, Rinv_l, Rmult_1_r by lra.
  apply Rabs_le. lra.
Qed.

(** ... which is [u] times the value, or half the smallest subnormal. *)
Lemma round_mag_error p q : (0 <= p)%Z -> (0 < q)%Z ->
  Rabs (IZR (round_mag f p q) - IZR p / IZR q) <= u_round * (IZR p / IZR q) + / 2.
Proof.
  intros Hp Hq. eapply Rle_trans; [by apply round_mag_half |].
  pose proof (shift_of_nonneg f (p / q)) as Hn. pose proof (prec_pos (f := f)). pose proof u_round_pos.
  apply IZR_lt in Hq as Hq'. assert (Hx : 0 <= IZR p / IZR q).
  { apply Rmult_le_pos; [by apply IZR_le | left; by apply Rinv_0_lt_compat]. }
  destruct (Z.eq_dec (shift_of f (p / q)) 0) as [->|Hs].
  - change (IZR (2 ^ 0)) with 1. nra.
  - pose proof (shift_of_lower f p q Hp Hq ltac:(lia)) as Hl. set (e := shift_of f (p / q)) in *.
    assert (Hle : IZR (2 ^ e) / 2 <= u_round * (IZR p / IZR q)); [|lra].
    apply IZR_le in Hl. rewrite !mult_IZR in Hl.
    assert (Ep : IZR (2 ^ prec f) = 2 * IZR (2 ^ (prec f - 1))).
    { rewrite <- mult_IZR. f_equal. rewrite <- Z.pow_succ_r by lia. f_equal. lia. }
    assert (Hpp : 0 < IZR (2 ^ (prec f - 1))) by (apply IZR_pow2; lia).
    unfold u_round. rewrite Ep. set (A := IZR (2 ^ (prec f - 1))) in *. set (E := IZR (2 ^ e)) in *.
    apply Rmult_le_reg_r with (2 * A * IZR q); [nra |].
    replace (/ (2 * A) * (IZR p / IZR q) * (2 * A * IZR q)) with (IZR p) by (field; lra).
    nra.
Qed.

(** Integers are rounded relatively. *)
Lemma round_mag_error1 p : (0 <= p)%Z ->
  Rabs (IZR (round_mag f p 1) - IZR p) <= u_round * IZR p.
Proof.
  intros Hp. pose proof (prec_pos (f := f)). pose proof u_round_pos. apply IZR_le in Hp as Hp'.
  destruct (Z.eq_dec (shift_of f (p / 1)) 0) as [Hs|Hs].
  - unfold round_mag. rewrite Hs, Z.pow_0_r, !Z.mul_1_r. rewrite <- (Z.mul_1_r p) at 1. rewrite rne_exact by lia.
    unfold Rminus. rewrite Rplus_opp_r, Rabs_R0. nra.
  - pose proof (round_mag_half p 1 Hp ltac:(lia)) as Hh. pose proof (shift_of_lower f p 1 Hp ltac:(lia)) as Hl.
    pose proof (shift_of_nonneg f (p / 1)). specialize (Hl ltac:(lia)). set (e := shift_of f (p / 1)) in *.
    rewrite Rdiv_1_r in Hh. eapply Rle_trans; [exact Hh |]. apply IZR_le in Hl. rewrite !mult_IZR in Hl.
    assert (Ep : IZR (2 ^ prec f) = 2 * IZR (2 ^ (prec f - 1))).
    { rewrite <- mult_IZR. f_equal. rewrite <- Z.pow_succ_r by lia. f_equal. lia. }
    assert (Hpp : 0 < IZR (2 ^ (prec f - 1))) by (apply IZR_pow2; lia).
    unfold u_round. rewrite Ep. set (A := IZR (2 ^ (prec f - 1))) in *. set (E := IZR (2 ^ e)) in *.
    apply Rmult_le_reg_r with (2 * A); [lra |]. replace (/ (2 * A) * IZR p * (2 * A)) with (IZR p) by (field; lra). nra.
Qed.

(** ** Rounded operations *)

Definition fin (x : float) : Prop := wf f x /\ is_finite x = true.

Definition fin_check (x : float) : bool :=
  match x with Fin _ m => (0 <=? m) && (m <? limit f) && (round_mag f m 1 =? m) | _ => false end%Z.

Lemma fin_check_ok l : forallb fin_check l = true -> Forall fin l.
Proof.
  induction l as [|x l IH]; [constructor |]. simpl. intros [Hx Hl]%andb_prop. constructor; [|by apply IH].
  destruct x as [| |s m]; [done..|]. simpl in Hx. apply andb_prop in Hx as [[H1 H2]%andb_prop H3].
  split; [|done]. split; [lia |]. by apply Z.eqb_eq.
Qed.

Lemma fin_wf x : fin x -> wf f x.
Proof. by intros [? _]. Qed.

Lemma round_mag_small p q : (0 <= p)%Z -> (0 < q)%Z -> IZR p / IZR q <= IZR (2 ^ (emax f - emin f - 1)) ->
  (round_mag f p q <= 2 ^ (emax f - emin f - 1))%Z.
Proof.
  intros Hp Hq Hle. pose proof (emin_neg (f := f)). pose proof (emax_big (f := f)). pose proof (prec_pos (f := f)).
  assert (E : round_mag f (1 * 2 ^ (emax f - emin f - 1)) 1 = (1 * 2 ^ (emax f - emin f - 1))%Z).
  { apply (round_mag_fits f); [|lia]. split; [lia |]. change 1%Z with (2 ^ 0)%Z. apply Z.pow_le_mono_r; lia. }
  rewrite Z.mul_1_l in E. rewrite <- E. apply (round_mag_mono f); [lia | apply Z.pow_nonneg; lia | lia | lia |].
  apply le_IZR. rewrite !mult_IZR, Rmult_1_r. apply IZR_lt in Hq. apply Rmult_le_reg_r with (/ IZR q); [by apply Rinv_0_lt_compat |].
  rewrite (Rmult_assoc _ (IZR q)), Rinv_r, Rmult_1_r by lra. exact Hle.
Qed.

Lemma fin_round_finite neg p q : (0 <= p)%Z -> (0 < q)%Z -> IZR p / IZR q <= IZR (2 ^ (emax f - emin f - 1)) ->
  fin_round f neg p q = Fin neg (round_mag f p q).
Proof.
  intros Hp Hq Hle. unfold fin_round. pose proof (emin_neg (f := f)). pose proof (emax_big (f := f)). pose proof (prec_pos (f := f)).
  pose proof (round_mag_small p q Hp Hq Hle). rewrite (proj2 (Z.ltb_lt _ _)); [done |]. unfold limit.
  assert (2 ^ (emax f - emin f - 1) < 2 ^ (emax f - emin f))%Z by (apply Z.pow_lt_mono_r; lia). lia.
Qed.

Lemma signed_error v m : Rabs (IZR (signed (v <? 0)%Z m) - IZR v) = Rabs (IZR m - IZR (Z.abs v)).
Proof.
  unfold signed. destruct (Z.ltb_spec v 0) as [Hv|Hv].
  - rewrite Z.abs_neq, !opp_IZR by lia. rewrite <- Rabs_Ropp. f_equal. lra.
  - by rewrite Z.abs_eq by lia.
Qed.

Lemma Rabs_rv (z : Z) : Rabs (IZR z * runit) = IZR (Z.abs z) * runit.
Proof. rewrite Rabs_mult, <- abs_IZR, (Rabs_pos_eq runit) by (left; apply runit_pos). done. Qed.

Lemma in_range (z : R) : z * runit <= half_range -> z <= IZR (2 ^ (emax f - emin f - 1)).
Proof. unfold half_range. pose proof runit_pos. intros Hz. by apply Rmult_le_reg_r with runit. Qed.

Lemma fadd_real x y : fin x -> fin y -> Rabs (rv x + rv y) <= half_range ->
  fin (fadd f x y) /\ Rabs (rv (fadd f x y) - (rv x + rv y)) <= u_round * Rabs (rv x + rv y).
Proof.
  intros [Wx Fx] [Wy Fy] Hr. assert (Wz : wf f (fadd f x y)) by by apply fadd_wf.
  destruct x as [| |s a]; [done | done |]. destruct y as [| |t b]; [done | done |].
  unfold rv in *. cbn [val] in *. unfold fin. rewrite <- Rmult_plus_distr_r, <- plus_IZR, Rabs_rv in *.
  unfold fadd in *. set (v := (signed s a + signed t b)%Z) in *. pose proof u_round_pos. pose proof runit_pos.
  destruct (Z.eqb_spec v 0) as [Ev|Ev].
  - split; [done |]. rewrite Ev. replace (val (Fin (s && t) 0)) with 0%Z by by destruct s, t.
    unfold Rminus. rewrite Rplus_opp_r, Rabs_R0. simpl. rewrite Rmult_0_l, Rmult_0_r. lra.
  - assert (E : fin_round f (v <? 0)%Z (Z.abs v) 1 = Fin (v <? 0)%Z (round_mag f (Z.abs v) 1)).
    { apply fin_round_finite; [lia | lia |]. rewrite Rdiv_1_r. by apply in_range. }
    rewrite E in *. split; [done |]. cbn [val]. rewrite <- Rmult_minus_distr_r, Rabs_mult, signed_error, (Rabs_pos_eq runit) by lra.
    rewrite <- Rmult_assoc. apply Rmult_le_compat_r; [lra |]. apply round_mag_error1. lia.
Qed.

Lemma val_product s a t b : IZR (val (Fin s a)) * IZR (val (Fin t b)) = IZR (signed (xorb s t) (a * b)).
Proof. rewrite <- mult_IZR. f_equal. destruct s, t; simpl; lia. Qed.

Lemma IZR_abs_signed s m : (0 <= m)%Z -> Rabs (IZR (signed s m)) = IZR m.
Proof. intros Hm. rewrite <- abs_IZR. f_equal. destruct s; simpl; lia. Qed.

(** The error of a signed rounded magnitude. *)
Lemma rounded_error s p q (x : R) : (0 <= p)%Z -> (0 < q)%Z -> x = IZR (signed s p) / IZR q * runit ->
  Rabs x <= half_range ->
  fin_round f s p q = Fin s (round_mag f p q) /\
  Rabs (rv (Fin s (round_mag f p q)) - x) <= u_round * Rabs x + runit / 2.
Proof.
  intros Hp Hq -> Hr. pose proof runit_pos. pose proof u_round_pos. apply IZR_lt in Hq as Hq'.
  assert (Ex : Rabs (IZR (signed s p) / IZR q * runit) = IZR p / IZR q * runit).
  { apply Rinv_0_lt_compat in Hq' as Hi. unfold Rdiv.
    rewrite !Rabs_mult, IZR_abs_signed, (Rabs_pos_eq runit), (Rabs_pos_eq (/ IZR q)) by (done || lra). done. }
  rewrite Ex in *. split; [apply fin_round_finite; try done; by apply in_range |].
  unfold rv. cbn [val]. rewrite <- Rmult_minus_distr_r, Rabs_mult, (Rabs_pos_eq runit) by lra.
  replace (u_round * (IZR p / IZR q * runit) + runit / 2) with ((u_round * (IZR p / IZR q) + / 2) * runit) by lra.
  apply Rmult_le_compat_r; [lra |]. etrans; [|by apply round_mag_error]. right.
  destruct s; simpl; [|done]. rewrite !opp_IZR, <- Rabs_Ropp. f_equal. field. lra.
Qed.

Lemma fmul_real x y : fin x -> fin y -> Rabs (rv x * rv y) <= half_range ->
  fin (fmul f x y) /\ Rabs (rv (fmul f x y) - rv x * rv y) <= u_round * Rabs (rv x * rv y) + runit / 2.
Proof.
  intros [Wx Fx] [Wy Fy] Hr. assert (Wz : wf f (fmul f x y)) by by apply fmul_wf.
  destruct x as [| |s a]; [done | done |]. destruct y as [| |t b]; [done | done |]. destruct Wx as [[Ha _] _], Wy as [[Hb _] _].
  pose proof (emin_neg (f := f)). assert (He : (0 < 2 ^ (- emin f))%Z) by (apply Z.pow_pos_nonneg; lia).
  destruct (rounded_error (xorb s t) (a * b) (2 ^ (- emin f)) (rv (Fin s a) * rv (Fin t b))) as [E B]; [lia | lia | | done |].
  { rewrite <- val_product. unfold rv, Rdiv. fold runit. lra. }
  unfold fmul in *. rewrite E in *. by split.
Qed.

Lemma fdiv_real x y : fin x -> fin y -> rv y <> 0 -> Rabs (rv x / rv y) <= half_range ->
  fin (fdiv f x y) /\ Rabs (rv (fdiv f x y) - rv x / rv y) <= u_round * Rabs (rv x / rv y) + runit / 2.
Proof.
  intros [Wx Fx] [Wy Fy] Hy Hr. assert (Wz : wf f (fdiv f x y)) by by apply fdiv_wf.
  destruct x as [| |s a]; [done | done |]. destruct y as [| |t b]; [done | done |]. destruct Wx as [[Ha _] _], Wy as [[Hb _] _].
  pose proof (emin_neg (f := f)). assert (He : (0 < 2 ^ (- emin f))%Z) by (apply Z.pow_pos_nonneg; lia).
  assert (Hb0 : b <> 0%Z). { intros ->. apply Hy. unfold rv. destruct t; simpl; by rewrite Rmult_0_l. }
  assert (Hb' : 0 < IZR b) by (apply IZR_lt; lia). apply IZR_lt in He as He'.
  destruct (rounded_error (xorb s t) (a * 2 ^ (- emin f)) b (rv (Fin s a) / rv (Fin t b))) as [E B]; [lia | lia | | done |].
  { unfold rv, runit. cbn [val]. destruct s, t; simpl; rewrite ?opp_IZR, mult_IZR; field; lra. }
  unfold fdiv in *. rewrite (proj2 (Z.eqb_neq _ _) Hb0) in *. rewrite E in *. by split.
Qed.

Lemma fsub_real x y : fin x -> fin y -> Rabs (rv x - rv y) <= half_range ->
  fin (fsub f x y) /\ Rabs (rv (fsub f x y) - (rv x - rv y)) <= u_round * Rabs (rv x - rv y).
Proof.
  intros Hx [Wy Fy] Hr. assert (En : rv (fneg y) = - rv y).
  { destruct y as [| |[] m]; [done | done | |]; unfold rv; simpl; rewrite ?opp_IZR; lra. }
  unfold fsub. unfold Rminus in *. rewrite <- En in *. apply fadd_real; [done | | done].
  split; [by apply fneg_wf | by destruct y].
Qed.

Lemma of_Z_exact n : (Z.abs n <= 2 ^ prec f)%Z -> IZR (Z.abs n) <= half_range -> fin (of_Z f n) /\ rv (of_Z f n) = IZR n.
Proof.
  intros Hn Hr. pose proof (emin_neg (f := f)). assert (He : (0 < 2 ^ (- emin f))%Z) by (apply Z.pow_pos_nonneg; lia).
  apply IZR_lt in He as He'. pose proof (of_Z_wf f n) as Wn. unfold of_Z in *.
  assert (Hu : runit * IZR (2 ^ (- emin f)) = 1) by (unfold runit; field; lra). pose proof runit_pos.
  assert (E : fin_round f (n <? 0)%Z (Z.abs n * 2 ^ (- emin f)) 1 = Fin (n <? 0)%Z (Z.abs n * 2 ^ (- emin f))).
  { rewrite fin_round_finite; [by rewrite (round_mag_fits f) by lia | lia | lia |].
    rewrite Rdiv_1_r. apply in_range. by rewrite mult_IZR, Rmult_assoc, (Rmult_comm _ runit), Hu, Rmult_1_r. }
  rewrite E in *. split; [done |]. unfold rv. cbn [val].
  replace (signed (n <? 0)%Z (Z.abs n * 2 ^ (- emin f))) with (n * 2 ^ (- emin f))%Z by (unfold signed; destruct (Z.ltb_spec n 0); lia).
  by rewrite mult_IZR, Rmult_assoc, (Rmult_comm _ runit), Hu, Rmult_1_r.
Qed.

(** ** Upwards *)

Lemma pow_shift m : (0 <= m)%Z -> IZR (2 ^ shift_of f m) <= 2 * u_round * IZR m + 1.
Proof.
  intros Hm. pose proof (shift_of_nonneg f m). pose proof u_round_pos. apply IZR_le in Hm as Hm'.
  destruct (Z.eq_dec (shift_of f m) 0) as [->|Hs]; [simpl; nra |].
  pose proof (shift_of_lower f m 1 Hm ltac:(lia)) as Hl. rewrite Z.div_1_r in Hl. specialize (Hl ltac:(lia)).
  pose proof (prec_pos (f := f)). apply IZR_le in Hl. rewrite !mult_IZR in Hl.
  assert (Ep : IZR (2 ^ prec f) = 2 * IZR (2 ^ (prec f - 1))).
  { rewrite <- mult_IZR. f_equal. rewrite <- Z.pow_succ_r by lia. f_equal. lia. }
  assert (Hpp : 0 < IZR (2 ^ (prec f - 1))) by (apply IZR_pow2; lia).
  unfold u_round. rewrite Ep. set (A := IZR (2 ^ (prec f - 1))) in *. set (E := IZR (2 ^ shift_of f m)) in *.
  assert (E <= 2 * / (2 * A) * IZR m); [|lra].
  apply Rmult_le_reg_r with A; [lra |]. replace (2 * / (2 * A) * IZR m * A) with (IZR m) by (field; lra). lra.
Qed.

(** The neighbour above a magnitude. *)
Lemma next_mag m : (0 <= m <= 2 ^ (emax f - emin f - 1))%Z -> round_mag f m 1 = m ->
  next_up f (Fin false m) = Fin false (m + 2 ^ shift_of f m) /\ fin (Fin false (m + 2 ^ shift_of f m)).
Proof.
  intros Hm Hr. pose proof (emin_neg (f := f)). pose proof (emax_big (f := f)). pose proof (prec_pos (f := f)).
  assert (Hs : (2 ^ shift_of f m <= 2 ^ (emax f - emin f - 2))%Z).
  { apply Z.pow_le_mono_r; [lia |]. unfold shift_of. destruct (Z.eq_dec m 0) as [->|]; [simpl; lia |].
    pose proof (Z.log2_le_mono _ _ (proj2 Hm)) as Hl. rewrite Z.log2_pow2 in Hl by lia. lia. }
  assert (Hlim : (m + 2 ^ shift_of f m < limit f)%Z).
  { unfold limit. replace (emax f - emin f)%Z with (2 + (emax f - emin f - 2))%Z by lia. rewrite Z.pow_add_r by lia.
    replace (emax f - emin f - 1)%Z with (1 + (emax f - emin f - 2))%Z in Hm by lia. rewrite Z.pow_add_r in Hm by lia.
    assert (0 < 2 ^ (emax f - emin f - 2))%Z by (apply Z.pow_pos_nonneg; lia). lia. }
  assert (Hpos : (0 < 2 ^ shift_of f m)%Z) by (apply Z.pow_pos_nonneg; [lia | apply shift_of_nonneg]).
  split.
  - unfold next_up. destruct (Z.eqb_spec m 0) as [->|]; [by rewrite (shift_of_0 f) |].
    by rewrite (proj2 (Z.ltb_lt _ _) Hlim).
  - split; [|done]. split; [lia |]. apply (next_mag_fits f); [lia | done].
Qed.

(** A magnitude rounded to nearest, then up, is not below the exact one. *)
Lemma round_up_ge p q : (0 <= p)%Z -> (0 < q)%Z ->
  IZR p / IZR q <= IZR (round_mag f p q + 2 ^ shift_of f (round_mag f p q)).
Proof.
  intros Hp Hq. pose proof (round_mag_half p q Hp Hq) as Hh. rewrite plus_IZR.
  pose proof (prec_pos (f := f)). pose proof (shift_of_nonneg f (p / q)).
  assert (He : (shift_of f (p / q) <= shift_of f (round_mag f p q))%Z \/ (round_mag f p q = 0 /\ shift_of f (p / q) = 0)%Z).
  { destruct (Z.eq_dec (shift_of f (p / q)) 0) as [->|Hs]; [left; apply shift_of_nonneg |]. left.
    pose proof (round_mag_lower f p q Hp Hq ltac:(lia)) as Hl. unfold round_mag. set (e := shift_of f (p / q)) in *.
    set (k := rne p (q * 2 ^ e)) in *. assert (0 < 2 ^ (prec f - 1))%Z by (apply Z.pow_pos_nonneg; lia).
    unfold shift_of. rewrite Z.log2_mul_pow2 by lia. pose proof (Z.log2_le_mono _ _ Hl) as Hll.
    rewrite Z.log2_pow2 in Hll by lia. lia. }
  assert (Hle : IZR (2 ^ shift_of f (p / q)) <= IZR (2 ^ shift_of f (round_mag f p q))).
  { apply IZR_le. destruct He as [He|[-> ->]]; [by apply Z.pow_le_mono_r; [lia |] | by rewrite (shift_of_0 f)]. }
  assert (0 < IZR (2 ^ shift_of f (p / q))) by by apply IZR_pow2.
  apply Rabs_le_inv in Hh. lra.
Qed.

(** [x] is an upper bound of the real [r]; infinity is one. *)
Definition upper (x : float) (r : R) : Prop :=
  match x with
  | Inf false => True
  | Fin false _ => wf f x /\ r <= rv x
  | _ => False
  end.

Lemma upper_le x r r' : upper x r -> r' <= r -> upper x r'.
Proof. destruct x as [|[]|[] m]; simpl; try done. intros [? ?] ?. split; [done | lra]. Qed.

Lemma upper_finite x r : upper x r -> is_finite x = true -> fin x /\ r <= rv x /\ 0 <= rv x.
Proof.
  destruct x as [|[]|[] m]; simpl; try done. intros [Hw Hr] _. split_and!; [done | done |].
  unfold rv. simpl. destruct Hw as [[? _] _]. apply Rmult_le_pos; [by apply IZR_le | left; apply runit_pos].
Qed.

Lemma upper_fabs x : fin x -> upper (fabs x) (Rabs (rv x)).
Proof.
  intros [Hw Hf']. destruct x as [| |s m]; [done..|]. simpl. split; [exact Hw |]. unfold rv. rewrite Rabs_rv. right.
  destruct Hw as [[? _] _]. do 2 f_equal. destruct s; simpl; lia.
Qed.

Lemma round_up_upper p q : (0 <= p)%Z -> (0 < q)%Z -> upper (next_up f (fin_round f false p q)) (IZR p / IZR q * runit).
Proof.
  intros Hp Hq. unfold fin_round. destruct (Z.ltb_spec (round_mag f p q) (limit f)) as [Hlt|]; [|done].
  pose proof (round_mag_nonneg f p q Hp Hq) as H0. pose proof (round_mag_idem f p q Hp Hq) as Hi. pose proof runit_pos.
  pose proof (round_up_ge p q Hp Hq) as Hge. set (m := round_mag f p q) in *.
  assert (En : next_up f (Fin false m) = if (m + 2 ^ shift_of f m <? limit f)%Z then Fin false (m + 2 ^ shift_of f m) else Inf false).
  { unfold next_up. destruct (Z.eqb_spec m 0) as [->|]; [|done]. rewrite (shift_of_0 f), Z.pow_0_r.
    rewrite (proj2 (Z.ltb_lt _ _)); [done |]. unfold limit. pose proof (emin_neg (f := f)). pose proof (emax_big (f := f)).
    pose proof (prec_pos (f := f)). change (0 + 1)%Z with (2 ^ 0)%Z. apply Z.pow_lt_mono_r; lia. }
  rewrite En. destruct (Z.ltb_spec (m + 2 ^ shift_of f m) (limit f)) as [Hl|]; [|done].
  assert (Hpos : (0 < 2 ^ shift_of f m)%Z) by (apply Z.pow_pos_nonneg; [lia | apply shift_of_nonneg]).
  split; [split; [lia | by apply (next_mag_fits f)] |]. unfold rv. simpl. apply Rmult_le_compat_r; [lra | done].
Qed.

Lemma fadd_up x y a b : upper x a -> upper y b -> upper (next_up f (fadd f x y)) (a + b).
Proof.
  intros Hx Hy. destruct x as [|[]|[] m]; [done | done | | done |].
  { by destruct y as [|[]|[] m']. }
  destruct y as [|[]|[] m']; [done | done | done | done |]. destruct Hx as [[[H0 _] _] Ha], Hy as [[[H0' _] _] Hb].
  assert (E : fadd f (Fin false m) (Fin false m') = fin_round f false (m + m') 1).
  { unfold fadd. simpl. destruct (Z.eqb_spec (m + m') 0) as [->|].
    - unfold fin_round. rewrite round_mag_0 by lia. by rewrite (proj2 (Z.ltb_lt _ _) (limit_pos f)).
    - by rewrite (proj2 (Z.ltb_ge _ _)), Z.abs_eq by lia. }
  rewrite E. eapply upper_le; [apply round_up_upper; lia |]. unfold rv in Ha, Hb. simpl in Ha, Hb.
  rewrite plus_IZR, Rdiv_1_r. lra.
Qed.

(** Products of finite bounds. *)
Lemma fmul_up x y a b : upper x a -> upper y b -> is_finite x = true -> is_finite y = true -> 0 <= a -> 0 <= b ->
  upper (next_up f (fmul f x y)) (a * b).
Proof.
  intros Hx Hy Fx Fy Ha0 Hb0. destruct x as [|[]|[] m]; [done..|]. destruct y as [|[]|[] m']; [done..|].
  destruct Hx as [[[H0 _] _] Ha], Hy as [[[H0' _] _] Hb].
  pose proof (emin_neg (f := f)). assert (He : (0 < 2 ^ (- emin f))%Z) by (apply Z.pow_pos_nonneg; lia).
  unfold fmul. simpl xorb. eapply upper_le; [apply round_up_upper; nia |].
  transitivity (rv (Fin false m) * rv (Fin false m')); [by apply Rmult_le_compat |].
  right. unfold rv. simpl. unfold runit. rewrite mult_IZR. unfold Rdiv. lra.
Qed.

Lemma fdiv_up x y : fin x -> fin y -> 0 <= rv x -> 0 < rv y -> upper x (rv x) -> upper y (rv y) ->
  upper (next_up f (fdiv f x y)) (rv x / rv y).
Proof.
  intros [Wx Fx] [Wy Fy] Hx Hy Ux Uy. destruct x as [|[]|[] m]; [done..|]. destruct y as [|[]|[] m']; [done..|].
  destruct Wx as [[H0 _] _], Wy as [[H0' _] _].
  pose proof (emin_neg (f := f)). assert (He : (0 < 2 ^ (- emin f))%Z) by (apply Z.pow_pos_nonneg; lia).
  assert (Hm' : m' <> 0%Z) by (intros ->; unfold rv in Hy; simpl in Hy; rewrite Rmult_0_l in Hy; lra).
  assert (Hb' : 0 < IZR m') by (apply IZR_lt; lia). apply IZR_lt in He as He'.
  unfold fdiv. rewrite (proj2 (Z.eqb_neq _ _) Hm'). simpl xorb. eapply upper_le; [apply round_up_upper; nia |].
  right. unfold rv, runit. simpl. rewrite mult_IZR. field. split; lra.
Qed.

(** *** Square roots *)

Lemma sqrt_floor n e : (0 <= n)%Z -> (0 <= e)%Z -> let k := Z.sqrt (n / 4 ^ e) in
  (k ^ 2 * 4 ^ e <= n < (k + 1) ^ 2 * 4 ^ e)%Z.
Proof.
  intros Hn He k. assert (H4 : (0 < 4 ^ e)%Z) by (apply Z.pow_pos_nonneg; lia).
  pose proof (Z.sqrt_spec (n / 4 ^ e) (Z.div_pos _ _ Hn H4)) as [S1 S2]. fold k in S1, S2.
  pose proof (Z.div_mod n (4 ^ e) ltac:(lia)). pose proof (Z.mod_pos_bound n (4 ^ e) H4). nia.
Qed.

(** The magnitude of a root, and its neighbour above. *)
Lemma sqrt_mag n : (0 < n)%Z -> let e := shift_of f (Z.sqrt n) in let k := Z.sqrt (n / 4 ^ e) in
  forall k', (k' = k \/ k' = k + 1)%Z ->
  (0 < k' <= 2 ^ prec f /\ 0 <= e /\ k' * 2 ^ e <= 2 * Z.sqrt n /\
   n <= (k' * 2 ^ e + 2 ^ shift_of f (k' * 2 ^ e)) ^ 2 <= 16 * n)%Z.
Proof.
  intros Hn e k k' Hk'. assert (He : (0 <= e)%Z) by apply shift_of_nonneg. pose proof (prec_pos (f := f)).
  pose proof (sqrt_floor n e ltac:(lia) He) as [K1 K2]. fold k in K1, K2.
  pose proof (Z.sqrt_spec n ltac:(lia)) as [S1 S2]. set (s := Z.sqrt n) in *.
  assert (Hs : (0 < s)%Z) by (apply Z.sqrt_pos; lia).
  assert (E4 : (4 ^ e = 2 ^ e * 2 ^ e)%Z) by (rewrite <- Z.pow_mul_l; f_equal).
  assert (Hpe : (0 < 2 ^ e)%Z) by (apply Z.pow_pos_nonneg; lia). rewrite E4 in K1, K2.
  assert (Hk0 : (0 <= k)%Z) by apply Z.sqrt_nonneg. pose proof (shift_pow_le f s Hs) as Hes. fold e in Hes.
  pose proof (shift_of_upper f s 1 ltac:(lia) ltac:(lia)) as Hu. rewrite Z.div_1_r, Z.mul_1_l in Hu. fold e in Hu.
  assert (Hks : (k * 2 ^ e <= s)%Z) by nia.
  assert (Hkp : (k < 2 ^ prec f)%Z) by nia.
  assert (Hk1 : (0 < k)%Z) by nia.
  assert (Hsh : (e <= shift_of f (k' * 2 ^ e))%Z).
  { destruct (Z.eq_dec e 0) as [->|Hne]; [apply shift_of_nonneg |].
    pose proof (shift_of_lower f s 1 ltac:(lia) ltac:(lia)) as Hl. rewrite Z.div_1_r, Z.mul_1_l in Hl.
    specialize (Hl ltac:(lia)). fold e in Hl. assert (Hp1 : (0 < 2 ^ (prec f - 1))%Z) by (apply Z.pow_pos_nonneg; lia).
    assert (Hkl : (2 ^ (prec f - 1) <= k)%Z).
    { assert (2 ^ e * 2 ^ (prec f - 1) < (k + 1) * 2 ^ e)%Z; [|nia].
      apply Z.square_lt_simpl_nonneg; [nia |].
      apply Z.le_lt_trans with (s * s)%Z; [apply Z.square_le_mono_nonneg; nia | lia]. }
    unfold shift_of. rewrite Z.log2_mul_pow2 by lia.
    assert (prec f - 1 <= Z.log2 k')%Z; [|lia]. rewrite <- (Z.log2_pow2 (prec f - 1)) by lia. apply Z.log2_le_mono. lia. }
  pose proof (shift_pow_le f (k' * 2 ^ e) ltac:(nia)) as Hle.
  apply (Z.pow_le_mono_r 2) in Hsh; [|lia]. set (w := (2 ^ shift_of f (k' * 2 ^ e))%Z) in *.
  assert (Hm : (k' * 2 ^ e <= 2 * s)%Z) by nia.
  split_and!; [lia | lia | done | done | |].
  - assert ((k + 1) * 2 ^ e <= k' * 2 ^ e + w)%Z by nia. nia.
  - assert (0 <= k' * 2 ^ e + w <= 4 * s)%Z by nia. nia.
Qed.

Lemma fsqrt_up x : fin x -> 0 <= rv x -> upper x (rv x) -> (4 <= emax f)%Z ->
  let y := next_up f (fsqrt f x) in
  upper y (rv y) /\ is_finite y = true /\ rv x <= rv y * rv y /\ (rv x <> 0 -> rv y * rv y <= 16 * rv x).
Proof.
  intros [Wx Fx] _ Ux H4 y. subst y. destruct x as [|[]|[] m]; [done..|]. destruct Wx as [[Nx Hlim] Hrep].
  pose proof runit_pos as Hu. pose proof (emin_neg (f := f)). pose proof (emax_big (f := f)). pose proof (prec_pos (f := f)).
  unfold fsqrt. destruct (Z.eqb_spec m 0) as [->|Hm0].
  - destruct (next_mag 0) as [-> Hf1]; [|by apply round_mag_0 |].
    { split; [lia | apply Z.pow_nonneg; lia]. }
    rewrite (shift_of_0 f) in *. split; [split; [apply Hf1 | lra] |]. unfold rv. simpl. rewrite Rmult_0_l, !Rmult_1_l. split_and!; [done | nra | lra].
  - assert (He : (0 < 2 ^ (- emin f))%Z) by (apply Z.pow_pos_nonneg; lia). set (n := (m * 2 ^ (- emin f))%Z).
    set (e := shift_of f (Z.sqrt n)). set (k := Z.sqrt (n / 4 ^ e)). set (d := (4 * n - (2 * k + 1) ^ 2 * 4 ^ e)%Z).
    set (k' := if (d <? 0)%Z then k else if (0 <? d)%Z then (k + 1)%Z else if Z.even k then k else (k + 1)%Z).
    assert (Hk' : (k' = k \/ k' = k + 1)%Z) by (unfold k'; destruct (d <? 0)%Z, (0 <? d)%Z, (Z.even k); auto).
    pose proof (sqrt_mag n ltac:(nia) k' Hk') as Hroot. cbv zeta in Hroot. fold e in Hroot. destruct Hroot as (Hkp & He0 & Hm2 & Hsq & Hsq2).
    assert (Hmax : (k' * 2 ^ e <= 2 ^ (emax f - emin f - 1))%Z).
    { pose proof (Z.sqrt_spec n ltac:(nia)) as [S1 _]. apply Z.square_le_simpl_nonneg; [apply Z.pow_nonneg; lia |].
      rewrite <- Z.pow_add_r by lia. transitivity (4 * n)%Z; [nia |]. unfold n, limit in *.
      transitivity (2 ^ 2 * (2 ^ (emax f - emin f) * 2 ^ (- emin f)))%Z; [nia |].
      rewrite <- !Z.pow_add_r by lia. apply Z.pow_le_mono_r; lia. }
    destruct (next_mag (k' * 2 ^ e)) as [-> Hf1]; [lia | apply (round_mag_fits f); lia |].
    apply IZR_le in Hsq, Hsq2. rewrite Z.pow_2_r, !mult_IZR in Hsq, Hsq2. unfold n in Hsq, Hsq2. rewrite !mult_IZR in Hsq, Hsq2.
    assert (Hinv : runit * IZR (2 ^ (- emin f)) = 1) by (unfold runit; field; apply IZR_lt in He; lra).
    set (M := IZR (k' * 2 ^ e + 2 ^ shift_of f (k' * 2 ^ e))) in *. set (P := IZR (2 ^ (- emin f))) in *.
    assert (Ex : rv (Fin false m) = IZR m * P * (runit * runit)).
    { unfold rv. simpl. replace (IZR m * P * (runit * runit)) with (IZR m * runit * (runit * P)) by ring. rewrite Hinv. ring. }
    assert (Ey : rv (Fin false (k' * 2 ^ e + 2 ^ shift_of f (k' * 2 ^ e))) = M * runit) by done.
    rewrite Ex, Ey. replace (M * runit * (M * runit)) with (M * M * (runit * runit)) by ring.
    split_and!; [split; [apply Hf1 | lra] | done | |].
    + apply Rmult_le_compat_r; [nra | done].
    + intros _. rewrite mult_IZR in Hsq2. fold P in Hsq2. rewrite <- (Rmult_assoc 16). apply Rmult_le_compat_r; [nra | done].
Qed.

(** ** Neighbours of signed values *)

Lemma next_up_above x : fin x -> rv x <= half_range -> is_finite (next_up f x) = true /\ rv x <= rv (next_up f x).
Proof.
  intros [Hw Hx] Hr. destruct x as [| |s m]; [done..|]. destruct Hw as [[H0 Hl] Hrep]. pose proof runit_pos.
  destruct s.
  - unfold next_up. destruct (Z.eqb_spec m 0) as [->|Hm].
    + split; [done |]. unfold rv. simpl. rewrite Rmult_0_l, Rmult_1_l. lra.
    + split; [done |]. unfold rv. simpl. apply Rmult_le_compat_r; [lra |]. apply IZR_le.
      assert (0 < 2 ^ shift_of f (m - 1))%Z by (apply Z.pow_pos_nonneg; [lia | apply shift_of_nonneg]). lia.
  - apply in_range in Hr. simpl in Hr. apply le_IZR in Hr. destruct (next_mag m ltac:(lia) Hrep) as [-> _].
    split; [done |]. unfold rv. simpl. apply Rmult_le_compat_r; [lra |]. apply IZR_le.
    assert (0 < 2 ^ shift_of f m)%Z by (apply Z.pow_pos_nonneg; [lia | apply shift_of_nonneg]). lia.
Qed.

(** How far above. *)
Lemma next_up_near x : fin x -> 0 <= rv x <= half_range ->
  fin (next_up f x) /\ rv x <= rv (next_up f x) <= rv x + 2 * u_round * rv x + runit.
Proof.
  intros [Hw Hx] [H0 Hr]. destruct x as [| |s m]; [done..|]. destruct Hw as [[Hm Hl] Hrep]. pose proof runit_pos as Hu.
  assert (Hs : s = false \/ m = 0%Z).
  { destruct s; [right | by left]. unfold rv in H0. simpl in H0. rewrite opp_IZR in H0. apply IZR_le in Hm as Hm'.
    apply eq_IZR. destruct (Rle_lt_or_eq_dec _ _ Hm') as [Hlt|E]; [nra | done]. }
  assert (E : next_up f (Fin s m) = next_up f (Fin false m)) by (destruct Hs as [->| ->]; done).
  assert (Ev : rv (Fin s m) = IZR m * runit) by (destruct Hs as [->| ->]; [| destruct s]; reflexivity).
  rewrite E, Ev in *. apply in_range in Hr. apply le_IZR in Hr. destruct (next_mag m ltac:(lia) Hrep) as [-> Hf1].
  split; [done |]. unfold rv. simpl. rewrite plus_IZR. pose proof (pow_shift m Hm).
  assert (0 < IZR (2 ^ shift_of f m)) by (apply IZR_pow2, shift_of_nonneg). nra.
Qed.

Lemma rv_fneg x : rv (fneg x) = - rv x.
Proof. destruct x as [| |[] m]; unfold rv; simpl; rewrite ?opp_IZR; lra. Qed.

Lemma fin_fneg x : fin x -> fin (fneg x).
Proof. intros [Hw Hx]. split; [by apply fneg_wf | by destruct x]. Qed.

Lemma next_down_below x : fin x -> - half_range <= rv x -> is_finite (next_down f x) = true /\ rv (next_down f x) <= rv x.
Proof.
  intros Hx Hr. destruct (next_up_above (fneg x) (fin_fneg x Hx)) as [H1 H2]; [rewrite rv_fneg; lra |].
  unfold next_down. rewrite rv_fneg in H2. rewrite rv_fneg. split; [by destruct (next_up f (fneg x)) | lra].
Qed.

Lemma rv_fabs x : fin x -> rv (fabs x) = Rabs (rv x).
Proof.
  intros [Hw Hx]. destruct x as [| |s m]; [done..|]. unfold rv. rewrite Rabs_rv. destruct Hw as [[? _] _].
  do 2 f_equal. destruct s; simpl; lia.
Qed.

Lemma fin_fabs x : fin x -> fin (fabs x).
Proof. intros [Hw Hx]. by destruct x. Qed.

(** ** Exact operations *)

Lemma rne_scale n d k : (0 < d)%Z -> (0 < k)%Z -> rne (n * k) (d * k) = rne n d.
Proof.
  intros Hd Hk. unfold rne. rewrite Z.div_mul_cancel_r, Zmult_mod_distr_r by lia.
  replace (2 * (n mod d * k) <? d * k)%Z with (2 * (n mod d) <? d)%Z by (apply eq_iff_eq_true; rewrite !Z.ltb_lt; nia).
  by replace (d * k <? 2 * (n mod d * k))%Z with (d <? 2 * (n mod d))%Z by (apply eq_iff_eq_true; rewrite !Z.ltb_lt; nia).
Qed.

Lemma round_mag_scale p q : (0 < q)%Z -> round_mag f (p * q) q = round_mag f p 1.
Proof.
  intros Hq. unfold round_mag. rewrite Z.div_mul, Z.div_1_r, Z.mul_1_l by lia.
  rewrite (Z.mul_comm q), rne_scale; [done | apply Z.pow_pos_nonneg; [lia | apply shift_of_nonneg] | done].
Qed.

(** An exact result is not changed. *)
Lemma fadd_exact x y z : fin x -> fin y -> (val x + val y = z)%Z -> (Z.abs z < limit f)%Z -> round_mag f (Z.abs z) 1 = Z.abs z ->
  fin (fadd f x y) /\ val (fadd f x y) = z.
Proof.
  intros [Wx Fx] [Wy Fy] Ez Hl Hr. assert (Wz : wf f (fadd f x y)) by by apply fadd_wf. unfold fin.
  destruct x as [| |s a]; [done..|]. destruct y as [| |t b]; [done..|]. cbn [val] in Ez. unfold fadd in *. rewrite Ez in *.
  destruct (Z.eqb_spec z 0) as [->|Hz]; [by destruct s, t |]. unfold fin_round in *.
  rewrite Hr, (proj2 (Z.ltb_lt _ _) Hl) in *. split; [done |]. cbn [val]. unfold signed. destruct (Z.ltb_spec z 0); lia.
Qed.

Lemma fsub_exact x y z : fin x -> fin y -> (val x - val y = z)%Z -> (Z.abs z < limit f)%Z -> round_mag f (Z.abs z) 1 = Z.abs z ->
  fin (fsub f x y) /\ val (fsub f x y) = z.
Proof.
  intros Hx Hy Ez. unfold fsub. apply fadd_exact; [done | by apply fin_fneg |]. rewrite <- Ez.
  destruct y as [| |[] b]; simpl; lia.
Qed.

Lemma fmul_exact x y z : fin x -> fin y -> (val x * val y = z * 2 ^ (- emin f))%Z -> (Z.abs z < limit f)%Z ->
  round_mag f (Z.abs z) 1 = Z.abs z -> fin (fmul f x y) /\ val (fmul f x y) = z.
Proof.
  intros [Wx Fx] [Wy Fy] Ez Hl Hr. assert (Wz : wf f (fmul f x y)) by by apply fmul_wf. unfold fin.
  pose proof (emin_neg (f := f)). assert (He : (0 < 2 ^ (- emin f))%Z) by (apply Z.pow_pos_nonneg; lia).
  destruct x as [| |s a]; [done..|]. destruct y as [| |t b]; [done..|]. destruct Wx as [[Ha _] _], Wy as [[Hb _] _].
  cbn [val] in Ez. unfold fmul in *. assert (Eab : (a * b = Z.abs z * 2 ^ (- emin f))%Z) by (destruct s, t; simpl in Ez; nia).
  unfold fin_round in *. rewrite Eab, round_mag_scale, Hr, (proj2 (Z.ltb_lt _ _) Hl) in * by done.
  split; [done |]. cbn [val]. destruct s, t; simpl in Ez |- *; nia.
Qed.

(** ** Comparisons *)

Lemma flt_rv x y : is_finite x = true -> is_finite y = true -> flt x y = true <-> rv x < rv y.
Proof.
  intros Hx Hy. rewrite finite_lt, Z.ltb_lt by done. unfold rv. pose proof runit_pos. split.
  - intros Hlt%IZR_lt. by apply Rmult_lt_compat_r.
  - intros Hlt. apply lt_IZR. by apply Rmult_lt_reg_r with runit.
Qed.

Lemma flt_rv_false x y : is_finite x = true -> is_finite y = true -> flt x y = false <-> rv y <= rv x.
Proof.
  intros Hx Hy. pose proof (flt_rv x y Hx Hy) as [H1 H2]. destruct (flt x y); split; intros H; try done.
  - specialize (H1 eq_refl). lra.
  - apply Rnot_lt_le. intros Hlt. by specialize (H2 Hlt).
Qed.

Lemma feq_zero x : fin x -> feq x fzero = true <-> rv x = 0.
Proof.
  intros [_ Hx]. rewrite finite_eq, Z.eqb_eq by done. unfold rv. pose proof runit_pos. split; [by intros -> ; simpl; rewrite Rmult_0_l |].
  intros E. apply eq_IZR. simpl. apply Rmult_eq_reg_r with runit; lra.
Qed.
End Real.

(** ** Between the formats *)

Lemma rv_f64 x : rv binary64 (f64_of_f32 x) = rv binary32 x.
Proof.
  unfold rv. rewrite val_f64, mult_IZR, Rmult_assoc. f_equal. unfold runit.
  assert (E : (2 ^ (- emin binary64) = f64_unit * 2 ^ (- emin binary32))%Z) by (vm_compute; reflexivity).
  rewrite E, mult_IZR. pose proof f64_unit_pos as Hu. apply IZR_lt in Hu.
  assert (0 < IZR (2 ^ (- emin binary32))) by (apply IZR_pow2; simpl; lia). field. lra.
Qed.

Lemma fin_f64 x : fin binary32 x -> fin binary64 (f64_of_f32 x).
Proof.
  intros [Hw Hx]. destruct x as [| |s m]; [done..|]. destruct Hw as [[H0 Hl] Hr]. split; [|done].
  cbn [f64_of_f32 wf]. assert (E : (2 ^ (emin binary32 - emin binary64) = 2 ^ 925)%Z) by done. rewrite E. split.
  - split; [nia |]. change (limit binary32) with (2 ^ 277)%Z in Hl. change (limit binary64) with (2 ^ 2098)%Z.
    apply Z.lt_le_trans with (2 ^ 277 * 2 ^ 925)%Z; [nia |]. rewrite <- Z.pow_add_r by lia. apply Z.pow_le_mono_r; lia.
  - destruct (shift_of_split binary32 m H0 Hr) as [k Ek]. pose proof (shift_of_nonneg binary32 m) as Hs.
    pose proof (shift_of_upper binary32 m 1 ltac:(lia) ltac:(lia)) as Hu. rewrite Z.div_1_r, Z.mul_1_l in Hu.
    set (e := shift_of binary32 m) in *. assert (0 < 2 ^ e)%Z by (apply Z.pow_pos_nonneg; lia).
    rewrite Ek, <- Z.mul_assoc, <- Z.pow_add_r by lia. apply (round_mag_fits binary64); [|lia]. simpl prec in *. split; [nia |].
    transitivity (2 ^ 24)%Z; [nia | done].
Qed.

Lemma rv_f64_units s m : rv binary64 (Fin s m) = IZR (signed s m) / IZR (2 ^ (emin binary32 - emin binary64)) * runit binary32.
Proof.
  unfold rv, runit. cbn [val]. change (2 ^ (emin binary32 - emin binary64))%Z with (2 ^ 925)%Z.
  change (2 ^ (- emin binary64))%Z with (2 ^ (925 + 149))%Z. change (2 ^ (- emin binary32))%Z with (2 ^ 149)%Z.
  rewrite Z.pow_add_r, mult_IZR by lia. field. split; apply not_0_IZR; apply Z.pow_nonzero; lia.
Qed.

(** [x as f32] is rounded once. *)
Lemma f32_of_f64_real x : fin binary64 x -> Rabs (rv binary64 x) <= half_range binary32 ->
  fin binary32 (f32_of_f64 x) /\
  Rabs (rv binary32 (f32_of_f64 x) - rv binary64 x) <= u_round binary32 * Rabs (rv binary64 x) + runit binary32 / 2.
Proof.
  intros [Wx Fx] Hr. destruct x as [| |s m]; [done..|]. destruct Wx as [[H0 _] _].
  assert (He : (0 < 2 ^ (emin binary32 - emin binary64))%Z) by (apply Z.pow_pos_nonneg; simpl; lia).
  destruct (rounded_error binary32 s m _ (rv binary64 (Fin s m)) H0 He (rv_f64_units s m) Hr) as [E B].
  unfold f32_of_f64. rewrite E. split; [|done]. rewrite <- E. split; [by apply fin_round_wf | by rewrite E].
Qed.
