(* ===== verification/RealSums.v ===== *)
(** * Finite sums of reals

    Sums over lists, the inner product of two lists and the inequality of
    Cauchy and Schwarz, in the form the certificates of the dense ranking use:
    norms are given by upper bounds of the sums of squares. *)

From S2P Require Import Prelude.
From Stdlib Require Import Reals Lra.

Local Open Scope R_scope.

Definition rsum (l : list R) : R := fold_right Rplus 0 l.

(** The inner product, the sum of the absolute products, the sum of squares. *)
Definition dot (a b : list R) : R := rsum (zip_with Rmult a b).
Definition absdot (a b : list R) : R := rsum (zip_with (fun x y => Rabs (x * y)) a b).
Definition sqsum (a : list R) : R := rsum ((fun x => x * x) <$> a).

Lemma rsum_app a b : rsum (a ++ b) = rsum a + rsum b.
Proof. induction a as [|x a IH]; simpl; [lra |]. rewrite IH. lra. Qed.

Lemma rsum_nonneg l : Forall (fun x => 0 <= x) l -> 0 <= rsum l.
Proof. induction 1; simpl; lra. Qed.

Lemma rsum_scale k l : rsum ((fun x => k * x) <$> l) = k * rsum l.
Proof. induction l as [|x l IH]; csimpl; [simpl; lra |]. rewrite IH. lra. Qed.

Lemma sqsum_nonneg a : 0 <= sqsum a.
Proof. apply rsum_nonneg, Forall_fmap, Forall_forall. intros x _. simpl. nra. Qed.

Lemma absdot_nonneg a b : 0 <= absdot a b.
Proof.
  unfold absdot. revert b. induction a as [|x a IH]; intros [|y b]; simpl; try lra.
  specialize (IH b). pose proof (Rabs_pos (x * y)). lra.
Qed.

Lemma dot_absdot a b : Rabs (dot a b) <= absdot a b.
Proof.
  unfold dot, absdot. revert b. induction a as [|x a IH]; intros [|y b]; simpl; try (rewrite Rabs_R0; lra).
  eapply Rle_trans; [apply Rabs_triang |]. specialize (IH b). lra.
Qed.

Lemma absdot_abs a b : absdot a b = dot (Rabs <$> a) (Rabs <$> b).
Proof.
  unfold dot, absdot. revert b. induction a as [|x a IH]; intros [|y b]; csimpl; try done.
  by rewrite IH, Rabs_mult.
Qed.

Lemma sqsum_abs a : sqsum (Rabs <$> a) = sqsum a.
Proof.
  unfold sqsum. induction a as [|x a IH]; csimpl; [done |]. rewrite IH, <- Rabs_mult, Rabs_pos_eq by nra. done.
Qed.

(** *** Cauchy and Schwarz *)

Lemma cauchy_schwarz_sq a b : length a = length b -> dot a b * dot a b <= sqsum a * sqsum b.
Proof.
  unfold dot, sqsum. revert b. induction a as [|x a IH]; intros [|y b] Hl; csimpl; [lra | done | done |].
  specialize (IH b ltac:(by injection Hl)).
  pose proof (sqsum_nonneg a) as Ha. pose proof (sqsum_nonneg b) as Hb. unfold sqsum in Ha, Hb.
  set (A := rsum ((fun x => x * x) <$> a)) in *. set (B := rsum ((fun x => x * x) <$> b)) in *.
  set (D := rsum (zip_with Rmult a b)) in *.
  (* 2 x y D <= x^2 B + y^2 A, as D^2 <= A B *)
  assert (H2 : 2 * (x * y * D) <= x * x * B + y * y * A).
  { destruct (Rle_lt_dec (x * y * D) 0) as [Hneg|Hpos]; [nra |].
    assert (Hsq : (2 * (x * y * D)) * (2 * (x * y * D)) <= (x * x * B + y * y * A) * (x * x * B + y * y * A)).
    { assert (H4 : 4 * (x * x * (y * y)) * (D * D) <= 4 * (x * x * (y * y)) * (A * B)).
      { apply Rmult_le_compat_l; [|done]. pose proof (Rle_0_sqr (x * y)) as Hs. unfold Rsqr in Hs. lra. }
      pose proof (Rle_0_sqr (x * x * B - y * y * A)) as Hs. unfold Rsqr in Hs. lra. }
    apply Rnot_lt_le. intros Hlt. assert (0 <= x * x * B + y * y * A) by nra. nra. }
  nra.
Qed.

Lemma square_le a b : 0 <= b -> a * a <= b * b -> Rabs a <= b.
Proof. intros Hb Hab. apply Rabs_le. split; nra. Qed.

(** An inner product is bounded by the product of bounds of the norms. *)
Lemma dot_bound a b A B : length a = length b -> 0 <= A -> 0 <= B -> sqsum a <= A * A -> sqsum b <= B * B ->
  Rabs (dot a b) <= A * B.
Proof.
  intros Hl HA HB Ha Hb. apply square_le; [nra |]. eapply Rle_trans; [by apply cauchy_schwarz_sq |].
  pose proof (sqsum_nonneg a). pose proof (sqsum_nonneg b).
  replace (A * B * (A * B)) with (A * A * (B * B)) by ring. by apply Rmult_le_compat.
Qed.

Lemma absdot_bound a b A B : length a = length b -> 0 <= A -> 0 <= B -> sqsum a <= A * A -> sqsum b <= B * B ->
  absdot a b <= A * B.
Proof.
  intros Hl HA HB Ha Hb. rewrite absdot_abs. eapply Rle_trans; [apply Rle_abs |].
  apply dot_bound; [by rewrite !length_fmap | done | done | by rewrite sqsum_abs | by rewrite sqsum_abs].
Qed.

(** *** Linearity *)

Definition diff (a b : list R) : list R := zip_with Rminus a b.

(** [q.v - q'.v' = (q - q').v + q'.(v - v')] *)
Lemma dot_split q q' v v' : length q = length q' -> length v = length v' -> length q = length v ->
  dot q v - dot q' v' = dot (diff q q') v + dot q' (diff v v').
Proof.
  unfold dot, diff. revert q' v v'. induction q as [|x q IH]; intros [|x' q'] [|y v] [|y' v'] H1 H2 H3; simpl in *; try done; [lra |].
  specialize (IH q' v v' ltac:(lia) ltac:(lia) ltac:(lia)). nra.
Qed.

Lemma dot_scaled k j (a b : list R) : dot ((fun x => k * x) <$> a) ((fun y => j * y) <$> b) = k * j * dot a b.
Proof.
  unfold dot. revert b. induction a as [|x a IH]; intros [|y b]; csimpl; try (simpl; lra). rewrite IH. lra.
Qed.
