(* ===== verification/DotKernels.v ===== *)
(** * Signed 8-bit dot products

    lib/quantization/src/per_vector_scalar/simd/{mod,x64,arm}.rs.  The codes of
    a query and of a row are multiplied by the widest kernel the processor has:
    SSE4.1, AVX2 or AVX512-VNNI on x86-64, NEON or SDOT on AArch64, and a scalar
    loop elsewhere and for dimensions whose sum may not fit [i32].  A register
    is the list of its lanes; every instruction wraps at the width of its lanes.

    The file proves that every kernel gives the exact dot product, for codes in
    [-127, 127] and for every dimension: no lane and no horizontal sum
    overflows below [MAX_I32_DIMENSION]. *)

From S2P Require Import Prelude.

Local Open Scope Z_scope.

(** ** Machine integers *)

(** Two's complement at [w] bits. *)
Definition wrap (w x : Z) : Z := (x + 2 ^ (w - 1)) mod 2 ^ w - 2 ^ (w - 1).

Definition i32_MAX : Z := 2 ^ 31 - 1.

Lemma wrap_small w x : 0 < w -> - 2 ^ (w - 1) <= x < 2 ^ (w - 1) -> wrap w x = x.
Proof.
  intros Hw Hx. unfold wrap. rewrite Z.mod_small; [lia |].
  assert (2 ^ w = 2 * 2 ^ (w - 1)) by (rewrite <- Z.pow_succ_r by lia; f_equal; lia). lia.
Qed.

(** ** The scalar kernel *)

Definition MAX_I32_DIMENSION : nat := Z.to_nat (i32_MAX / (127 * 127)).

Definition dot_i8_scalar (query vector : list Z) : Z :=
  fold_left (fun sum '(q, v) => wrap 64 (sum + q * v)) (zip query vector) 0.

(** ** Registers *)

(** [W] bytes from [offset]. *)
Definition load_lanes {A} (W offset : nat) (l : list A) : list A := take W (drop offset l).

Definition zero_lanes (n : nat) : list Z := replicate n 0.

(** [_mm_srli_si128(x, n)] *)
Definition srli_si128 (x : list Z) (n : nat) : list Z := drop n x ++ zero_lanes n.

(** [cvtepi8_epi16] on a register of [n] results: sign extension. *)
Definition cvtepi8_epi16 (n : nat) (x : list Z) : list Z := take n x.

Definition add_epi32 (a b : list Z) : list Z := zip_with (fun x y => wrap 32 (x + y)) a b.

Fixpoint madd_epi16 (a b : list Z) : list Z :=
  match a, b with
  | a0 :: a1 :: a', b0 :: b1 :: b' => wrap 32 (a0 * b0 + a1 * b1) :: madd_epi16 a' b'
  | _, _ => []
  end.

Fixpoint dpwssd_epi32 (acc a b : list Z) : list Z :=
  match acc, a, b with
  | x :: acc', a0 :: a1 :: a', b0 :: b1 :: b' => wrap 32 (x + a0 * b0 + a1 * b1) :: dpwssd_epi32 acc' a' b'
  | _, _, _ => []
  end.

(** Horizontal sum in [i32]. *)
Definition reduce_add_epi32 (a : list Z) : Z := fold_left (fun sum x => wrap 32 (sum + x)) a 0.

(** Horizontal sum in [i64] after widening. *)
Definition sum_i64 (a : list Z) : Z := fold_left (fun sum x => wrap 64 (sum + x)) a 0.

Definition vmull_s8 (a b : list Z) : list Z := zip_with (fun x y => wrap 16 (x * y)) a b.

Fixpoint vpadalq_s16 (acc p : list Z) : list Z :=
  match acc, p with
  | x :: acc', p0 :: p1 :: p' => wrap 32 (x + (p0 + p1)) :: vpadalq_s16 acc' p'
  | _, _ => []
  end.

Fixpoint sdot (acc a b : list Z) : list Z :=
  match acc, a, b with
  | x :: acc', a0 :: a1 :: a2 :: a3 :: a', b0 :: b1 :: b2 :: b3 :: b' =>
      wrap 32 (x + (a0 * b0 + a1 * b1 + a2 * b2 + a3 * b3)) :: sdot acc' a' b'
  | _, _, _ => []
  end.

(** [while offset + W <= query.len() { acc = body(acc, offset); offset += W }] *)
Fixpoint while_chunks {A} (fuel W len : nat) (body : A -> nat -> A) (acc : A) (offset : nat) : A * nat :=
  match fuel with
  | O => (acc, offset)
  | S fuel => if (offset + W <=? len)%nat then while_chunks fuel W len body (body acc offset) (offset + W) else (acc, offset)
  end.

(** ** x86-64 *)

Definition dot_i8_sse41 (query vector : list Z) : Z :=
  let '(acc, offset) := while_chunks (length query) 16 (length query) (fun acc offset =>
    let query_bytes := load_lanes 16 offset query in
    let vector_bytes := load_lanes 16 offset vector in
    let query_low := cvtepi8_epi16 8 query_bytes in
    let query_high := cvtepi8_epi16 8 (srli_si128 query_bytes 8) in
    let vector_low := cvtepi8_epi16 8 vector_bytes in
    let vector_high := cvtepi8_epi16 8 (srli_si128 vector_bytes 8) in
    let acc := add_epi32 acc (madd_epi16 query_low vector_low) in
    add_epi32 acc (madd_epi16 query_high vector_high)) (zero_lanes 4) 0%nat in
  wrap 64 (sum_i64 acc + dot_i8_scalar (drop offset query) (drop offset vector)).

(** [castsi256_si128], [extracti128_si256(_, 1)] and their 512-bit versions. *)
Definition low_half (n : nat) (x : list Z) : list Z := take n x.
Definition high_half (n : nat) (x : list Z) : list Z := drop n x.

Definition dot_i8_avx2 (query vector : list Z) : Z :=
  let '(acc, offset) := while_chunks (length query) 32 (length query) (fun acc offset =>
    let query_bytes := load_lanes 32 offset query in
    let vector_bytes := load_lanes 32 offset vector in
    let query_low := cvtepi8_epi16 16 (low_half 16 query_bytes) in
    let query_high := cvtepi8_epi16 16 (high_half 16 query_bytes) in
    let vector_low := cvtepi8_epi16 16 (low_half 16 vector_bytes) in
    let vector_high := cvtepi8_epi16 16 (high_half 16 vector_bytes) in
    let acc := add_epi32 acc (madd_epi16 query_low vector_low) in
    add_epi32 acc (madd_epi16 query_high vector_high)) (zero_lanes 8) 0%nat in
  wrap 64 (sum_i64 acc + dot_i8_scalar (drop offset query) (drop offset vector)).

Definition dot_i8_avx512_vnni (query vector : list Z) : Z :=
  let '(acc, offset) := while_chunks (length query) 64 (length query) (fun acc offset =>
    let query_bytes := load_lanes 64 offset query in
    let vector_bytes := load_lanes 64 offset vector in
    let query_low := cvtepi8_epi16 32 (low_half 32 query_bytes) in
    let query_high := cvtepi8_epi16 32 (high_half 32 query_bytes) in
    let vector_low := cvtepi8_epi16 32 (low_half 32 vector_bytes) in
    let vector_high := cvtepi8_epi16 32 (high_half 32 vector_bytes) in
    let acc := dpwssd_epi32 acc query_low vector_low in
    dpwssd_epi32 acc query_high vector_high) (zero_lanes 16) 0%nat in
  wrap 64 (reduce_add_epi32 acc + dot_i8_scalar (drop offset query) (drop offset vector)).

(** ** AArch64 *)

(** [vpadalq_s16(vpadalq_s16(acc, vmull_s8(low, low)), vmull_high_s8(_, _))] *)
Definition neon_step (acc query_chunk vector_chunk : list Z) : list Z :=
  vpadalq_s16 (vpadalq_s16 acc (vmull_s8 (low_half 8 query_chunk) (low_half 8 vector_chunk)))
    (vmull_s8 (high_half 8 query_chunk) (high_half 8 vector_chunk)).

(** The two AArch64 kernels differ in their step only: four accumulators over
    groups of 64 bytes, one over the chunks of 16 that remain. *)
Definition four_accumulators (step : list Z -> list Z -> list Z -> list Z) (query vector : list Z) (groups : nat)
    : list Z * list Z * list Z * list Z :=
  fold_left (fun '(acc_0, acc_1, acc_2, acc_3) group =>
    let offset := (group * 64)%nat in
    (step acc_0 (load_lanes 16 offset query) (load_lanes 16 offset vector),
     step acc_1 (load_lanes 16 (offset + 16) query) (load_lanes 16 (offset + 16) vector),
     step acc_2 (load_lanes 16 (offset + 32) query) (load_lanes 16 (offset + 32) vector),
     step acc_3 (load_lanes 16 (offset + 48) query) (load_lanes 16 (offset + 48) vector)))
    (seq 0 groups) (zero_lanes 4, zero_lanes 4, zero_lanes 4, zero_lanes 4).

Definition dot_i8_arm (step : list Z -> list Z -> list Z -> list Z) (query vector : list Z) : Z :=
  let chunks := (length query / 16)%nat in
  let groups := (chunks / 4)%nat in
  let '(acc_0, acc_1, acc_2, acc_3) := four_accumulators step query vector groups in
  let '(tail_acc, offset) := while_chunks (length query) 16 (length query)
    (fun tail_acc offset => step tail_acc (load_lanes 16 offset query) (load_lanes 16 offset vector)) (zero_lanes 4) (groups * 64)%nat in
  let acc := add_epi32 (add_epi32 acc_0 acc_1) (add_epi32 acc_2 acc_3) in
  wrap 64 (reduce_add_epi32 (add_epi32 acc tail_acc) + dot_i8_scalar (drop offset query) (drop offset vector)).

Definition dot_i8_neon : list Z -> list Z -> Z := dot_i8_arm neon_step.
Definition dot_i8_sdot : list Z -> list Z -> Z := dot_i8_arm sdot.

(** Four rows at once against one query. *)
Definition dot_i8_x4_sdot (query : list Z) (vectors : list (list Z)) : list Z :=
  let '(accs, offset) := while_chunks (length query) 16 (length query) (fun accs offset =>
    zip_with (fun acc vector => sdot acc (load_lanes 16 offset query) (load_lanes 16 offset vector)) accs vectors)
    (replicate 4 (zero_lanes 4)) 0%nat in
  fold_left (fun sums coordinate =>
    zip_with (fun sum vector => wrap 64 (sum + index query coordinate * index vector coordinate)) sums vectors)
    (seq offset (length query - offset)) (reduce_add_epi32 <$> accs).

(** ** Selection *)

Inductive Arch : Type := X86_64 | Aarch64 | OtherArch.

Record CpuFeatures : Type := mkCpuFeatures {
  avx512f : bool; avx512bw : bool; avx512vnni : bool; avx2 : bool; sse41 : bool; dotprod : bool;
}.

Definition resolve_dot_i8 (arch : Arch) (cpu : CpuFeatures) (dimension : nat) : list Z -> list Z -> Z :=
  if (MAX_I32_DIMENSION <? dimension)%nat then dot_i8_scalar
  else
    match arch with
    | Aarch64 => if dotprod cpu then dot_i8_sdot else dot_i8_neon
    | X86_64 =>
        if avx512f cpu && avx512bw cpu && avx512vnni cpu then dot_i8_avx512_vnni
        else if avx2 cpu then dot_i8_avx2
        else if sse41 cpu then dot_i8_sse41
        else dot_i8_scalar
    | OtherArch => dot_i8_scalar
    end.

Definition resolve_dot_i8_x4 (arch : Arch) (cpu : CpuFeatures) (dimension : nat)
    : option (list Z -> list (list Z) -> list Z) :=
  if (MAX_I32_DIMENSION <? dimension)%nat then None
  else
    match arch with
    | Aarch64 => if dotprod cpu then Some dot_i8_x4_sdot else None
    | _ => None
    end.

Definition dot_i8 (arch : Arch) (cpu : CpuFeatures) (query vector : list Z) : Z :=
  resolve_dot_i8 arch cpu (length query) query vector.

(** ** Sums *)

Definition zsum (l : list Z) : Z := foldr Z.add 0 l.
Definition asum (l : list Z) : Z := zsum (Z.abs <$> l).

(** The exact dot product. *)
Definition zdot (a b : list Z) : Z := zsum (zip_with Z.mul a b).

Definition small (l : list Z) : Prop := Forall (fun c => Z.abs c <= 127) l.

Lemma zsum_app a b : zsum (a ++ b) = zsum a + zsum b.
Proof. induction a as [|x a IH]; simpl; lia. Qed.

Lemma asum_nonneg a : 0 <= asum a.
Proof. unfold asum. induction a as [|x a IH]; csimpl; lia. Qed.

Lemma zsum_asum a : Z.abs (zsum a) <= asum a.
Proof. unfold asum. induction a as [|x a IH]; csimpl; lia. Qed.

Lemma zdot_app a a' b b' : length a = length b -> zdot (a ++ a') (b ++ b') = zdot a b + zdot a' b'.
Proof. intros Hl. unfold zdot. by rewrite zip_with_app, zsum_app. Qed.

Lemma product_small x y : Z.abs x <= 127 -> Z.abs y <= 127 -> Z.abs (x * y) <= 16129.
Proof. intros Hx Hy. rewrite Z.abs_mul. nia. Qed.

Lemma zdot_bound a b : small a -> small b -> Z.abs (zdot a b) <= 16129 * Z.of_nat (length a).
Proof.
  intros Ha. revert b. unfold zdot. induction Ha as [|x a Hx _ IH]; intros b Hb; [simpl; lia |].
  destruct Hb as [|y b Hy Hb]; [cbn [zip_with zsum foldr]; lia |]. specialize (IH b Hb). pose proof (product_small x y Hx Hy).
  cbn [zip_with zsum foldr length] in *. fold (zsum (zip_with Z.mul a b)) in *. lia.
Qed.

Lemma small_load W offset l : small l -> small (load_lanes W offset l).
Proof. intros Hl. by apply Forall_take, Forall_drop. Qed.

Lemma length_load {A} W offset (l : list A) : (offset + W <= length l)%nat -> length (load_lanes W offset l) = W.
Proof. intros Hl. unfold load_lanes. rewrite length_take, length_drop. lia. Qed.

Lemma take_load {A} W offset (l : list A) : take (offset + W) l = take offset l ++ load_lanes W offset l.
Proof. unfold load_lanes. by rewrite <- take_take_drop. Qed.

Lemma zdot_load W offset a b : length a = length b -> (offset + W <= length a)%nat ->
  zdot (take (offset + W) a) (take (offset + W) b) = zdot (take offset a) (take offset b) + zdot (load_lanes W offset a) (load_lanes W offset b).
Proof. intros Hl Ho. rewrite !take_load. apply zdot_app. rewrite !length_take. lia. Qed.

Lemma zdot_drop offset a b : length a = length b -> zdot (take offset a) (take offset b) + zdot (drop offset a) (drop offset b) = zdot a b.
Proof. intros Hl. rewrite <- zdot_app by (rewrite !length_take; lia). by rewrite !take_drop. Qed.

(** ** The scalar kernel is exact *)

Lemma dot_scalar_from q v acc : small q -> small v -> Z.abs acc + 16129 * Z.of_nat (length q) < 2 ^ 63 ->
  fold_left (fun sum '(q, v) => wrap 64 (sum + q * v)) (zip q v) acc = acc + zdot q v.
Proof.
  intros Hq. revert v acc. unfold zdot. induction Hq as [|x q Hx _ IH]; intros v acc Hv Hb; [cbn; lia |].
  destruct Hv as [|y v Hy Hv]; [cbn; lia |]. pose proof (product_small x y Hx Hy).
  cbn [zip_with fold_left zsum foldr length] in *. fold (zsum (zip_with Z.mul q v)).
  rewrite wrap_small by (change (2 ^ (64 - 1)) with (2 ^ 63); lia). rewrite IH by (done || lia). lia.
Qed.

Definition fits_sum (l : list Z) : Prop := Z.of_nat (length l) <= 2 ^ 40.

Lemma dot_scalar_exact q v : small q -> small v -> fits_sum q -> dot_i8_scalar q v = zdot q v.
Proof. unfold fits_sum. intros Hq Hv Hf. unfold dot_i8_scalar. rewrite dot_scalar_from; [lia | done | done | lia]. Qed.

(** ** Accumulators *)

(** [W] lanes whose sum is [s] and whose absolute values sum up to [m] at most. *)
Definition lanes (acc : list Z) (W : nat) (s m : Z) : Prop := length acc = W /\ zsum acc = s /\ asum acc <= m.

Lemma lanes_zeros W : lanes (zero_lanes W) W 0 0.
Proof.
  unfold lanes, zero_lanes. rewrite length_replicate. split; [done |]. unfold asum. induction W as [|W IH]; [done |]. csimpl. lia.
Qed.

Lemma lanes_more acc W s m m' : m <= m' -> lanes acc W s m -> lanes acc W s m'.
Proof. intros Hm (H1 & H2 & H3). split_and!; [done | done | lia]. Qed.

Lemma add_epi32_lanes a b W s t m k : lanes a W s m -> lanes b W t k -> m + k <= i32_MAX -> lanes (add_epi32 a b) W (s + t) (m + k).
Proof.
  unfold lanes, add_epi32, i32_MAX, asum. revert b W s t m k.
  induction a as [|x a IH]; intros [|y b] W s t m k (<- & <- & Ha) (Hl & <- & Hb) Hmk; csimpl in *; try done; [lia |].
  pose proof (asum_nonneg a) as Pa. pose proof (asum_nonneg b) as Pb. unfold asum in Pa, Pb.
  fold (zsum (Z.abs <$> a)) in *. fold (zsum (Z.abs <$> b)) in *.
  rewrite (wrap_small 32 (x + y)) by (change (2 ^ (32 - 1)) with (2 ^ 31); lia).
  destruct (IH b (length a) (zsum a) (zsum b) (m - Z.abs x) (k - Z.abs y)) as (I1 & I2 & I3); [split_and!; lia | split_and!; lia | lia |].
  change (foldr Z.add 0) with zsum in *. split_and!; [by rewrite I1 | lia | lia].
Qed.

Lemma madd_lanes W a b : length a = (2 * W)%nat -> length b = (2 * W)%nat -> small a -> small b ->
  lanes (madd_epi16 a b) W (zdot a b) (16129 * Z.of_nat (2 * W)).
Proof.
  revert a b. induction W as [|W IH]; intros a b La Lb Ha Hb.
  { apply nil_length_inv in La as ->. by apply nil_length_inv in Lb as ->. }
  destruct a as [|a0 [|a1 a]], b as [|b0 [|b1 b]]; simpl in La, Lb; try lia. cbn [madd_epi16].
  inversion_clear Ha as [|? ? A0 Ha']. inversion_clear Ha' as [|? ? A1 Ha]. inversion_clear Hb as [|? ? B0 Hb']. inversion_clear Hb' as [|? ? B1 Hb].
  pose proof (product_small a0 b0 A0 B0). pose proof (product_small a1 b1 A1 B1).
  rewrite wrap_small by (change (2 ^ (32 - 1)) with (2 ^ 31); lia).
  destruct (IH a b ltac:(lia) ltac:(lia) Ha Hb) as (I1 & I2 & I3). unfold lanes, asum, zdot in *. csimpl.
  change (foldr Z.add 0) with zsum in *. split_and!; [by rewrite I1 | lia | lia].
Qed.

(** The fused instructions are an addition of pair products. *)
Lemma dpwssd_eq acc a b : small a -> small b -> dpwssd_epi32 acc a b = add_epi32 acc (madd_epi16 a b).
Proof.
  revert a b. induction acc as [|x acc IH]; intros a b Ha Hb; [done |].
  destruct Ha as [|a0 ? A0 [|a1 a A1 Ha]]; [done.. |]. destruct Hb as [|b0 ? B0 [|b1 b B1 Hb]]; [done.. |].
  pose proof (product_small a0 b0 A0 B0). pose proof (product_small a1 b1 A1 B1). unfold add_epi32 in *.
  cbn [dpwssd_epi32 madd_epi16 zip_with]. rewrite IH by done.
  rewrite (wrap_small 32 (a0 * b0 + a1 * b1)) by (change (2 ^ (32 - 1)) with (2 ^ 31); lia). by rewrite Z.add_assoc.
Qed.

Lemma vpadal_eq acc a b : small a -> small b -> vpadalq_s16 acc (vmull_s8 a b) = add_epi32 acc (madd_epi16 a b).
Proof.
  revert a b. induction acc as [|x acc IH]; intros a b Ha Hb; [done |].
  destruct Ha as [|a0 ? A0 [|a1 a A1 Ha]]; [by destruct Hb | by destruct Hb as [|b0 ? B0 [|]] |].
  destruct Hb as [|b0 ? B0 [|b1 b B1 Hb]]; [done.. |].
  pose proof (product_small a0 b0 A0 B0). pose proof (product_small a1 b1 A1 B1). unfold add_epi32, vmull_s8 in *.
  cbn [vpadalq_s16 madd_epi16 zip_with]. rewrite IH by done.
  rewrite !wrap_small with (w := 16) by (try change (2 ^ (16 - 1)) with 32768; lia).
  rewrite (wrap_small 32 (a0 * b0 + a1 * b1)) by (change (2 ^ (32 - 1)) with (2 ^ 31); lia). done.
Qed.

(** A step of a kernel: it adds the dot product of a chunk to the lanes. *)
Definition adds (W C : nat) (step : list Z -> list Z -> list Z -> list Z) : Prop :=
  forall acc a b s m, lanes acc W s m -> length a = C -> length b = C -> small a -> small b ->
  m + 16129 * Z.of_nat C <= i32_MAX -> lanes (step acc a b) W (s + zdot a b) (m + 16129 * Z.of_nat C).

Lemma halves_add W acc a b s m : lanes acc W s m -> length a = (4 * W)%nat -> length b = (4 * W)%nat -> small a -> small b ->
  m + 16129 * Z.of_nat (4 * W) <= i32_MAX ->
  lanes (add_epi32 (add_epi32 acc (madd_epi16 (take (2 * W) a) (take (2 * W) b))) (madd_epi16 (drop (2 * W) a) (drop (2 * W) b)))
    W (s + zdot a b) (m + 16129 * Z.of_nat (4 * W)).
Proof.
  intros Hacc La Lb Ha Hb Hm. rewrite <- (zdot_drop (2 * W) a b) by lia. rewrite Z.add_assoc.
  replace (m + 16129 * Z.of_nat (4 * W)) with (m + 16129 * Z.of_nat (2 * W) + 16129 * Z.of_nat (2 * W)) by lia.
  apply add_epi32_lanes; [apply add_epi32_lanes; [done | | lia] | | lia]; apply madd_lanes;
    rewrite ?length_take, ?length_drop; auto using Forall_take, Forall_drop; try lia; by apply Forall_take || by apply Forall_drop.
Qed.

Lemma cvt_high l : length l = 16%nat -> cvtepi8_epi16 8 (srli_si128 l 8) = drop 8 l.
Proof. intros Hl. unfold cvtepi8_epi16, srli_si128. rewrite take_app_le, take_ge; rewrite ?length_drop; lia || done. Qed.

Lemma cvt_all n l : (length l <= n)%nat -> cvtepi8_epi16 n l = l.
Proof. intros Hl. by apply take_ge. Qed.

Lemma adds_sse41 : adds 4 16 (fun acc q v =>
  add_epi32 (add_epi32 acc (madd_epi16 (cvtepi8_epi16 8 q) (cvtepi8_epi16 8 v)))
    (madd_epi16 (cvtepi8_epi16 8 (srli_si128 q 8)) (cvtepi8_epi16 8 (srli_si128 v 8)))).
Proof. intros acc a b s m Hacc La Lb Ha Hb Hm. rewrite !cvt_high by done. by apply (halves_add 4). Qed.

Lemma adds_avx2 : adds 8 32 (fun acc q v =>
  add_epi32 (add_epi32 acc (madd_epi16 (cvtepi8_epi16 16 (low_half 16 q)) (cvtepi8_epi16 16 (low_half 16 v))))
    (madd_epi16 (cvtepi8_epi16 16 (high_half 16 q)) (cvtepi8_epi16 16 (high_half 16 v)))).
Proof.
  intros acc a b s m Hacc La Lb Ha Hb Hm. unfold low_half, high_half.
  rewrite (cvt_all 16 (take 16 a)), (cvt_all 16 (take 16 b)), (cvt_all 16 (drop 16 a)), (cvt_all 16 (drop 16 b))
    by (rewrite ?length_take, ?length_drop; lia). by apply (halves_add 8).
Qed.

Lemma adds_avx512 : adds 16 64 (fun acc q v =>
  dpwssd_epi32 (dpwssd_epi32 acc (cvtepi8_epi16 32 (low_half 32 q)) (cvtepi8_epi16 32 (low_half 32 v)))
    (cvtepi8_epi16 32 (high_half 32 q)) (cvtepi8_epi16 32 (high_half 32 v))).
Proof.
  intros acc a b s m Hacc La Lb Ha Hb Hm. unfold low_half, high_half.
  rewrite (cvt_all 32 (take 32 a)), (cvt_all 32 (take 32 b)), (cvt_all 32 (drop 32 a)), (cvt_all 32 (drop 32 b))
    by (rewrite ?length_take, ?length_drop; lia).
  rewrite !dpwssd_eq by (by apply Forall_take || by apply Forall_drop). by apply (halves_add 16).
Qed.

Lemma adds_neon : adds 4 16 neon_step.
Proof.
  intros acc a b s m Hacc La Lb Ha Hb Hm. unfold neon_step, low_half, high_half.
  rewrite !vpadal_eq by (by apply Forall_take || by apply Forall_drop). by apply (halves_add 4).
Qed.

Lemma adds_sdot : adds 4 16 sdot.
Proof.
  assert (Hgen : forall W, adds W (4 * W) sdot); [|by apply (Hgen 4%nat)].
  induction W as [|W IH]; intros acc a b s m Hacc La Lb Ha Hb Hm.
  { destruct Hacc as (E & <- & Hm'). apply nil_length_inv in E as ->, La as ->, Lb as ->. split_and!; [done | done | cbn in *; lia]. }
  destruct acc as [|x acc]; [by destruct Hacc |]. destruct a as [|a0 [|a1 [|a2 [|a3 a]]]]; simpl in La; try lia.
  destruct b as [|b0 [|b1 [|b2 [|b3 b]]]]; simpl in Lb; try lia. cbn [sdot].
  unfold small in Ha, Hb. rewrite !Forall_cons in Ha, Hb. destruct Ha as (A0 & A1 & A2 & A3 & Ha), Hb as (B0 & B1 & B2 & B3 & Hb).
  pose proof (product_small a0 b0 A0 B0). pose proof (product_small a1 b1 A1 B1).
  pose proof (product_small a2 b2 A2 B2). pose proof (product_small a3 b3 A3 B3).
  destruct Hacc as (Hl & <- & Hs). unfold lanes, asum, zdot, i32_MAX in *. csimpl in *. pose proof (asum_nonneg acc) as Pn. unfold asum in Pn.
  change (foldr Z.add 0) with zsum in *.
  set (p0 := a0 * b0) in *. set (p1 := a1 * b1) in *. set (p2 := a2 * b2) in *. set (p3 := a3 * b3) in *.
  clearbody p0 p1 p2 p3. clear A0 A1 A2 A3 B0 B1 B2 B3.
  destruct (IH acc a b (zsum acc) (m - Z.abs x)) as (I1 & I2 & I3); [unfold lanes, asum; split_and!; lia | lia | lia | done | done | unfold i32_MAX; lia |].
  unfold asum, zdot in I2, I3. rewrite wrap_small by (change (2 ^ (32 - 1)) with (2 ^ 31); lia). split_and!; [by rewrite I1 | lia | lia].
Qed.

(** ** Loops *)

Lemma while_chunks_inv {A} (P : A -> nat -> Prop) W len (body : A -> nat -> A) :
  (0 < W)%nat -> (forall acc o, (o + W <= len)%nat -> P acc o -> P (body acc o) (o + W)%nat) ->
  forall fuel acc o, (o <= len)%nat -> (len <= o + fuel)%nat -> P acc o ->
  exists acc' o', while_chunks fuel W len body acc o = (acc', o') /\ P acc' o' /\ (o' <= len)%nat.
Proof.
  intros HW Hstep fuel. induction fuel as [|fuel IH]; intros acc o Ho Hf HP; cbn [while_chunks]; [by eauto |].
  destruct (Nat.leb_spec (o + W) len); [|by eauto]. apply IH; [done | lia | by apply Hstep].
Qed.

Lemma dimension_fits n : (n <= MAX_I32_DIMENSION)%nat -> 16129 * Z.of_nat n <= i32_MAX.
Proof. unfold MAX_I32_DIMENSION, i32_MAX. change ((2 ^ 31 - 1) / (127 * 127)) with 133144. lia. Qed.

Lemma wrapping_sum w a acc : 0 < w -> Z.abs acc + asum a < 2 ^ (w - 1) -> fold_left (fun sum x => wrap w (sum + x)) a acc = acc + zsum a.
Proof.
  intros Hw. unfold asum. revert acc. induction a as [|x a IH]; intros acc Hb; csimpl in *; [lia |].
  pose proof (asum_nonneg a) as Pa. unfold asum in Pa. change (foldr Z.add 0) with zsum in *.
  rewrite wrap_small by lia. rewrite IH by lia. lia.
Qed.

Lemma reduce_add_lanes acc W s m : lanes acc W s m -> m <= i32_MAX -> reduce_add_epi32 acc = s.
Proof.
  intros (_ & <- & Hm) Hx. unfold reduce_add_epi32. unfold i32_MAX in Hx. rewrite wrapping_sum; [lia | lia | change (2 ^ (32 - 1)) with (2 ^ 31); lia].
Qed.

Lemma sum_i64_lanes acc W s m : lanes acc W s m -> m <= i32_MAX -> sum_i64 acc = s.
Proof.
  intros (_ & <- & Hm) Hx. unfold sum_i64. unfold i32_MAX in Hx. rewrite wrapping_sum; [lia | lia | change (2 ^ (64 - 1)) with (2 ^ 63); lia].
Qed.

(** What the kernels are given: codes of two vectors of the same dimension. *)
Record inputs (q v : list Z) : Prop := {
  in_q : small q; in_v : small v; in_length : length q = length v; in_dimension : (length q <= MAX_I32_DIMENSION)%nat;
}.

Lemma inputs_fits q v offset : inputs q v -> fits_sum (drop offset q).
Proof. intros [_ _ _ Hd]. unfold fits_sum. rewrite length_drop. apply dimension_fits in Hd. unfold i32_MAX in Hd. lia. Qed.

Lemma finish q v offset : inputs q v ->
  wrap 64 (zdot (take offset q) (take offset v) + dot_i8_scalar (drop offset q) (drop offset v)) = zdot q v.
Proof.
  intros Hi. rewrite dot_scalar_exact; [|apply Forall_drop; apply Hi.. | by apply (inputs_fits q v)].
  destruct Hi as [Hq Hv Hl Hd]. rewrite zdot_drop by done. apply dimension_fits in Hd. unfold i32_MAX in Hd.
  pose proof (zdot_bound q v Hq Hv). rewrite wrap_small; [done | lia | change (2 ^ (64 - 1)) with (2 ^ 63); lia].
Qed.

(** The loop over chunks of [C] bytes, from a position where the accumulator
    holds the sum since [start]. *)
Lemma chunk_loop W C step q v start : adds W C step -> (0 < C)%nat -> inputs q v -> (start <= length q)%nat ->
  exists acc offset, while_chunks (length q) C (length q) (fun acc o => step acc (load_lanes C o q) (load_lanes C o v)) (zero_lanes W) start = (acc, offset) /\
    lanes acc W (zdot (take offset q) (take offset v) - zdot (take start q) (take start v)) (16129 * Z.of_nat (offset - start)) /\
    (start <= offset <= length q)%nat.
Proof.
  intros Hstep HC [Hq Hv Hl Hd] Hs. apply dimension_fits in Hd.
  destruct (while_chunks_inv (fun acc o => (start <= o)%nat /\
    lanes acc W (zdot (take o q) (take o v) - zdot (take start q) (take start v)) (16129 * Z.of_nat (o - start))) C (length q)
    (fun acc o => step acc (load_lanes C o q) (load_lanes C o v)) HC) with (fuel := length q) (acc := zero_lanes W) (o := start) as (acc & o & E & [H1 H2] & H3).
  - intros acc o Ho [Hso Hacc]. split; [lia |].
    replace (16129 * Z.of_nat (o + C - start)) with (16129 * Z.of_nat (o - start) + 16129 * Z.of_nat C) by lia.
    rewrite (zdot_load C o q v Hl Ho).
    replace (zdot (take o q) (take o v) + zdot (load_lanes C o q) (load_lanes C o v) - zdot (take start q) (take start v))
      with (zdot (take o q) (take o v) - zdot (take start q) (take start v) + zdot (load_lanes C o q) (load_lanes C o v)) by lia.
    apply Hstep; [done | by apply length_load | apply length_load; lia | by apply small_load.. | lia].
  - done.
  - lia.
  - split; [done |]. rewrite Z.sub_diag, Nat.sub_diag. apply lanes_zeros.
  - exists acc, o. split; [done |]. split; [done | lia].
Qed.

(** ** The kernels are exact *)

Lemma sse41_exact q v : inputs q v -> dot_i8_sse41 q v = zdot q v.
Proof.
  intros Hi. destruct (chunk_loop 4 16 _ q v 0 adds_sse41 ltac:(lia) Hi ltac:(lia)) as (acc & o & E & Ha & Ho).
  unfold dot_i8_sse41. cbv zeta beta in E |- *. rewrite E. pose proof (dimension_fits _ (in_dimension _ _ Hi)).
  rewrite (sum_i64_lanes _ _ _ _ Ha) by lia. rewrite !take_0, Z.sub_0_r. by apply finish.
Qed.

Lemma avx2_exact q v : inputs q v -> dot_i8_avx2 q v = zdot q v.
Proof.
  intros Hi. destruct (chunk_loop 8 32 _ q v 0 adds_avx2 ltac:(lia) Hi ltac:(lia)) as (acc & o & E & Ha & Ho).
  unfold dot_i8_avx2. cbv zeta beta in E |- *. rewrite E. pose proof (dimension_fits _ (in_dimension _ _ Hi)).
  rewrite (sum_i64_lanes _ _ _ _ Ha) by lia. rewrite !take_0, Z.sub_0_r. by apply finish.
Qed.

Lemma avx512_exact q v : inputs q v -> dot_i8_avx512_vnni q v = zdot q v.
Proof.
  intros Hi. destruct (chunk_loop 16 64 _ q v 0 adds_avx512 ltac:(lia) Hi ltac:(lia)) as (acc & o & E & Ha & Ho).
  unfold dot_i8_avx512_vnni. cbv zeta beta in E |- *. rewrite E. pose proof (dimension_fits _ (in_dimension _ _ Hi)).
  rewrite (reduce_add_lanes _ _ _ _ Ha) by lia. rewrite !take_0, Z.sub_0_r. by apply finish.
Qed.

Lemma four_accumulators_exact step q v : adds 4 16 step -> inputs q v ->
  forall groups, (groups * 64 <= length q)%nat -> exists a0 a1 a2 a3 s0 s1 s2 s3,
  four_accumulators step q v groups = (a0, a1, a2, a3) /\
  let m := 16129 * Z.of_nat (16 * groups) in lanes a0 4 s0 m /\ lanes a1 4 s1 m /\ lanes a2 4 s2 m /\ lanes a3 4 s3 m /\
  s0 + s1 + s2 + s3 = zdot (take (groups * 64) q) (take (groups * 64) v).
Proof.
  intros Hstep [Hq Hv Hl Hd]. apply dimension_fits in Hd. induction groups as [|g IH]; intros Hg.
  { exists (zero_lanes 4), (zero_lanes 4), (zero_lanes 4), (zero_lanes 4), 0, 0, 0, 0. split; [done |]. split_and!; done || apply lanes_zeros. }
  destruct (IH ltac:(lia)) as (a0 & a1 & a2 & a3 & s0 & s1 & s2 & s3 & E & I0 & I1 & I2 & I3 & Es).
  unfold four_accumulators in *. rewrite seq_S, fold_left_app, E. cbn [fold_left Nat.add].
  set (d := fun k => zdot (load_lanes 16 (g * 64 + k) q) (load_lanes 16 (g * 64 + k) v)).
  assert (Hadd : forall a s k, (k <= 48)%nat -> lanes a 4 s (16129 * Z.of_nat (16 * g)) ->
    lanes (step a (load_lanes 16 (g * 64 + k) q) (load_lanes 16 (g * 64 + k) v)) 4 (s + d k) (16129 * Z.of_nat (16 * S g))).
  { intros a s k Hk Ha. replace (16129 * Z.of_nat (16 * S g)) with (16129 * Z.of_nat (16 * g) + 16129 * Z.of_nat 16) by lia.
    apply Hstep; [done | apply length_load; lia | apply length_load; lia | by apply small_load.. | lia]. }
  eexists _, _, _, _, (s0 + d 0%nat), (s1 + d 16%nat), (s2 + d 32%nat), (s3 + d 48%nat). split; [reflexivity |].
  pose proof (Hadd a0 s0 0%nat ltac:(lia) I0) as H0. rewrite Nat.add_0_r in H0.
  split_and!; [exact H0 | (apply Hadd; [lia | done]).. |].
  replace (S g * 64)%nat with (g * 64 + 16 + 16 + 16 + 16)%nat by lia.
  rewrite !zdot_load by lia. unfold d. rewrite Nat.add_0_r, <- Es.
  replace (g * 64 + 16 + 16)%nat with (g * 64 + 32)%nat by lia. replace (g * 64 + 32 + 16)%nat with (g * 64 + 48)%nat by lia. lia.
Qed.

Lemma arm_exact step q v : adds 4 16 step -> inputs q v -> dot_i8_arm step q v = zdot q v.
Proof.
  intros Hstep Hi. unfold dot_i8_arm. set (groups := (length q / 16 / 4)%nat).
  assert (Hg : (groups * 64 <= length q)%nat).
  { unfold groups. rewrite Nat.Div0.div_div. pose proof (Nat.Div0.mul_div_le (length q) (16 * 4)). lia. }
  destruct (four_accumulators_exact step q v Hstep Hi groups Hg) as (a0 & a1 & a2 & a3 & s0 & s1 & s2 & s3 & -> & I0 & I1 & I2 & I3 & Es).
  destruct (chunk_loop 4 16 step q v (groups * 64) Hstep ltac:(lia) Hi Hg) as (acc & o & -> & Ha & Ho).
  pose proof (dimension_fits _ (in_dimension _ _ Hi)) as Hd. set (m := 16129 * Z.of_nat (16 * groups)) in *.
  pose proof (add_epi32_lanes _ _ _ _ _ _ _ I0 I1 ltac:(lia)) as J0. pose proof (add_epi32_lanes _ _ _ _ _ _ _ I2 I3 ltac:(lia)) as J1.
  pose proof (add_epi32_lanes _ _ _ _ _ _ _ J0 J1 ltac:(lia)) as J2. pose proof (add_epi32_lanes _ _ _ _ _ _ _ J2 Ha ltac:(lia)) as J3.
  rewrite (reduce_add_lanes _ _ _ _ J3) by lia. rewrite <- (finish q v o Hi). do 2 f_equal. lia.
Qed.

(** Four rows at once. *)
Lemma x4_tail q vs o sums : small q -> Forall (fun v => small v /\ length v = length q) vs -> fits_sum q ->
  Forall2 (fun sum v => sum = zdot (take o q) (take o v)) sums vs ->
  forall n, (o + n <= length q)%nat ->
  Forall2 (fun sum v => sum = zdot (take (o + n) q) (take (o + n) v))
    (fold_left (fun sums coordinate => zip_with (fun sum vector => wrap 64 (sum + index q coordinate * index vector coordinate)) sums vs)
       (seq o n) sums) vs.
Proof.
  intros Hq Hvs Hf H0. induction n as [|n IH]; intros Hn; [by rewrite Nat.add_0_r |].
  rewrite seq_S, fold_left_app. cbn [fold_left]. specialize (IH ltac:(lia)).
  set (sums' := fold_left _ (seq o n) sums) in *. clearbody sums'. clear H0 sums.
  induction IH as [|sum v sums vs Es _ IH']; [constructor |]. apply Forall_cons in Hvs as [[Sv Lv] Hvs].
  cbn [zip_with]. constructor; [|by apply IH'].
  destruct (lookup_lt_is_Some_2 q (o + n)) as [x Hx]; [lia |]. destruct (lookup_lt_is_Some_2 v (o + n)) as [y Hy]; [lia |].
  unfold index. rewrite (list_lookup_total_correct _ _ _ Hx), (list_lookup_total_correct _ _ _ Hy).
  replace (o + S n)%nat with (S (o + n)) by lia. rewrite (take_S_r _ _ _ Hx), (take_S_r _ _ _ Hy), zdot_app by (rewrite !length_take; lia).
  subst sum. assert (E1 : zdot [x] [y] = x * y) by (unfold zdot; cbn; lia). rewrite E1.
  pose proof (zdot_bound (take (S (o + n)) q) (take (S (o + n)) v) (Forall_take _ _ _ Hq) (Forall_take _ _ _ Sv)) as Hb.
  rewrite (take_S_r _ _ _ Hx), (take_S_r _ _ _ Hy), zdot_app, E1 in Hb by (rewrite !length_take; lia).
  rewrite length_app, length_take in Hb. unfold fits_sum in Hf. simpl length in Hb.
  apply wrap_small; [lia | change (2 ^ (64 - 1)) with (2 ^ 63); lia].
Qed.

Lemma x4_step q o accs vs : small q -> Forall (fun v => small v /\ length v = length q) vs -> 16129 * Z.of_nat (length q) <= i32_MAX ->
  (o + 16 <= length q)%nat ->
  Forall2 (fun acc v => lanes acc 4 (zdot (take o q) (take o v)) (16129 * Z.of_nat o)) accs vs ->
  Forall2 (fun acc v => lanes acc 4 (zdot (take (o + 16) q) (take (o + 16) v)) (16129 * Z.of_nat (o + 16)))
    (zip_with (fun acc vector => sdot acc (load_lanes 16 o q) (load_lanes 16 o vector)) accs vs) vs.
Proof.
  intros Hq Hvs Hd Ho HP. induction HP as [|acc v accs vs Ha _ IH]; [constructor |]. apply Forall_cons in Hvs as [[Sv Lv] Hvs].
  cbn [zip_with]. constructor; [|by apply IH]. rewrite zdot_load by lia. rewrite Nat2Z.inj_add, Z.mul_add_distr_l.
  apply adds_sdot; [done | apply length_load; lia | apply length_load; lia | by apply small_load.. | lia].
Qed.

Lemma x4_exact q vs : length vs = 4%nat -> small q -> (length q <= MAX_I32_DIMENSION)%nat ->
  Forall (fun v => small v /\ length v = length q) vs -> dot_i8_x4_sdot q vs = zdot q <$> vs.
Proof.
  intros L4 Hq Hd Hvs. apply dimension_fits in Hd. assert (Hf : fits_sum q) by (unfold fits_sum, i32_MAX in *; lia).
  destruct (while_chunks_inv (fun accs o => Forall2 (fun acc v => lanes acc 4 (zdot (take o q) (take o v)) (16129 * Z.of_nat o)) accs vs)
    16 (length q) (fun accs offset => zip_with (fun acc vector => sdot acc (load_lanes 16 offset q) (load_lanes 16 offset vector)) accs vs) ltac:(lia))
    with (fuel := length q) (acc := replicate 4 (zero_lanes 4)) (o := 0%nat) as (accs & o & E & H1 & H2).
  - intros accs o Ho HP. by apply x4_step.
  - lia.
  - lia.
  - assert (replicate 4 (zero_lanes 4) = replicate (length vs) (zero_lanes 4)) as -> by by rewrite L4. clear. induction vs as [|v vs IH]; [constructor |]. cbn [replicate length]. constructor; [apply lanes_zeros | done].
  - unfold dot_i8_x4_sdot. rewrite E.
    assert (Hs : Forall2 (fun sum v => sum = zdot (take o q) (take o v)) (reduce_add_epi32 <$> accs) vs).
    { apply Forall2_fmap_l. apply Forall2_impl with (1 := H1). intros acc v Ha. by apply (reduce_add_lanes _ _ _ _ Ha); lia. }
    pose proof (x4_tail q vs o _ Hq Hvs Hf Hs (length q - o) ltac:(lia)) as Ht.
    replace (o + (length q - o))%nat with (length q) in Ht by lia. set (r := fold_left _ _ _) in *. clearbody r.
    clear -Ht Hvs. induction Ht as [|sum v r vs -> _ IH]; [done |]. apply Forall_cons in Hvs as [[_ Lv] Hvs].
    cbn [fmap list_fmap]. rewrite !take_ge by lia. f_equal. by apply IH.
Qed.

Lemma resolve_exact arch cpu q v : small q -> small v -> length q = length v -> fits_sum q ->
  resolve_dot_i8 arch cpu (length q) q v = zdot q v.
Proof.
  intros Hq Hv Hl Hf. pose proof (dot_scalar_exact q v Hq Hv Hf) as Hs. unfold resolve_dot_i8.
  destruct (Nat.ltb_spec MAX_I32_DIMENSION (length q)) as [|Hd]; [done |]. assert (Hi : inputs q v) by by split.
  destruct arch; [| |done].
  - destruct (_ && _); [by apply avx512_exact |]. destruct (avx2 cpu); [by apply avx2_exact |].
    destruct (sse41 cpu); [by apply sse41_exact | done].
  - destruct (dotprod cpu); apply arm_exact; auto using adds_sdot, adds_neon.
Qed.

Lemma resolve_x4_exact arch cpu q vs dot_x4 : resolve_dot_i8_x4 arch cpu (length q) = Some dot_x4 -> length vs = 4%nat -> small q ->
  Forall (fun v => small v /\ length v = length q) vs -> dot_x4 q vs = zdot q <$> vs.
Proof.
  intros E L4 Hq Hvs. unfold resolve_dot_i8_x4 in E. destruct (Nat.ltb_spec MAX_I32_DIMENSION (length q)) as [|Hd]; [done |].
  destruct arch; [done | | done]. destruct (dotprod cpu); [|done]. injection E as <-. by apply x4_exact.
Qed.

(** [C00] Whatever the processor, the kernels chosen for codes in [-127, 127]
    give the sum of the products, as the scalar loop does, for one row and for
    four rows at once: below [MAX_I32_DIMENSION] no 32-bit lane and no
    horizontal sum of the SSE4.1, AVX2, AVX512-VNNI, NEON and SDOT kernels
    wraps around, above it the scalar loop is used. *)
Theorem resolve_dot_i8_exact arch cpu q v :
  small q -> small v -> length q = length v -> fits_sum q ->
  resolve_dot_i8 arch cpu (length q) q v = dot_i8_scalar q v /\ dot_i8_scalar q v = zdot q v /\
  forall dot_x4 vs, resolve_dot_i8_x4 arch cpu (length q) = Some dot_x4 -> length vs = 4%nat ->
    Forall (fun v => small v /\ length v = length q) vs -> dot_x4 q vs = dot_i8_scalar q <$> vs.
Proof.
  intros Hq Hv Hl Hf. pose proof (dot_scalar_exact q v Hq Hv Hf) as Hs. split_and!; [by rewrite Hs; apply resolve_exact | done |].
  intros dot_x4 vs E L4 Hvs. rewrite (resolve_x4_exact arch cpu q vs dot_x4 E L4 Hq Hvs). clear L4.
  induction Hvs as [|w vs [Sw Lw] _ IH]; [done |]. cbn [fmap list_fmap]. by rewrite dot_scalar_exact, IH by done.
Qed.

(** ** Examples *)

Definition sample_codes (k : Z) (n : nat) : list Z := (fun i => (Z.of_nat i * k) mod 255 - 127) <$> seq 0 n.

Definition small_check (l : list Z) : bool := forallb (fun c => Z.abs c <=? 127) l.

Lemma small_check_ok l : small_check l = true -> small l.
Proof. unfold small_check, small. rewrite forallb_forall. rewrite Forall_forall. intros H x Hx. apply Z.leb_le, H. by apply list_elem_of_In. Qed.

Definition sample_cpu : CpuFeatures :=
  {| avx512f := false; avx512bw := false; avx512vnni := false; avx2 := true; sse41 := true; dotprod := true |}.

Lemma resolve_dot_i8_exact_witness :
  dot_i8_avx2 (sample_codes 37 40) (sample_codes 53 40) = dot_i8_scalar (sample_codes 37 40) (sample_codes 53 40).
Proof.
  apply (resolve_dot_i8_exact X86_64 sample_cpu (sample_codes 37 40) (sample_codes 53 40));
    [by apply small_check_ok | by apply small_check_ok | done | by vm_compute].
Defined.
