(* ===== verification/ScoreKernels.v ===== *)
(** * The dot product scorer of [f32] vectors

    lib/segment/src/spaces/{simple,simple_sse,simple_avx,simple_neon}.rs: the
    dot product of two [f32] vectors, by a scalar loop, SSE, AVX with fused
    multiply-add, or NEON.  A register is the list of its lanes; the order of
    the additions is the one of the instructions.

    The file proves a bound for the rounding error of every kernel: whenever the
    score is finite, it differs from the exact inner product by at most
    [(n + 8) * 2^-23] times the sum of the absolute products, plus one unit of
    the smallest subnormal per product that is not zero. *)

From S2P Require Import Prelude Float FloatReal RealSums DotKernels.
From Stdlib Require Import Reals Lra.

(** ** Fused multiply-add *)

(** [x * y + z] with one rounding. *)
Definition ffma (f : format) (x y z : float) : float :=
  match x, y, z with
  | Fin s a, Fin t b, Fin u c =>
      let v := (signed (xorb s t) (a * b) + signed u c * 2 ^ (- emin f))%Z in
      if (v =? 0)%Z then Fin (xorb s t && u) 0 else fin_round f (v <? 0)%Z (Z.abs v) (2 ^ (- emin f))
  | Fin _ _, Fin _ _, _ => z
  | _, _, _ => fadd f (fmul f x y) z
  end.

(** ** The kernels *)

Local Abbreviation add := (fadd binary32).
Local Abbreviation mul := (fmul binary32).

(** [-0.0], from which [Iterator::sum] starts. *)
Definition neg_zero : float := Fin true 0.

Definition dot_similarity (v1 v2 : list float) : float :=
  fold_left (fun sum '(a, b) => add sum (mul a b)) (zip v1 v2) neg_zero.

(** [while i < m { acc = body(acc, i); i += W }] *)
Fixpoint while_below {A} (fuel W m : nat) (body : A -> nat -> A) (acc : A) (i : nat) : A :=
  match fuel with
  | O => acc
  | S fuel => if (i <? m)%nat then while_below fuel W m body (body acc i) (i + W) else acc
  end.

(** [result += v1[m + i] * v2[m + i]] for the coordinates from [m]. *)
Definition add_tail (m : nat) (v1 v2 : list float) (result : float) : float :=
  fold_left (fun result '(a, b) => add result (mul a b)) (zip (drop m v1) (drop m v2)) result.

(** [_mm_add_ps], [_mm_mul_ps], [_mm256_fmadd_ps] *)
Definition add_ps (a b : list float) : list float := zip_with add a b.
Definition mul_ps (a b : list float) : list float := zip_with mul a b.
Definition fmadd_ps (a b c : list float) : list float :=
  zip_with (fun p z => ffma binary32 (fst p) (snd p) z) (zip a b) c.

Definition setzero_ps (W : nat) : list float := replicate W fzero.

(** [x + movehl(x, x)], then its first lane plus its second. *)
Definition hsum128_ps_sse (x : list float) : float :=
  match x with
  | [x0; x1; x2; x3] => add (add x0 x2) (add x1 x3)
  | _ => NaN
  end.

(** [vaddvq_f32]: pairwise. *)
Definition vaddvq_f32 (x : list float) : float :=
  match x with
  | [x0; x1; x2; x3] => add (add x0 x1) (add x2 x3)
  | _ => NaN
  end.

Definition hsum256_ps_avx (x : list float) : float :=
  match x with
  | [x0; x1; x2; x3; x4; x5; x6; x7] => add (add (add x4 x0) (add x5 x1)) (add (add x6 x2) (add x7 x3))
  | _ => NaN
  end.

Definition four_way_hsum (a b c d : list float) : float :=
  let sum1 := add_ps a b in
  let sum2 := add_ps c d in
  let total := add_ps sum1 sum2 in
  hsum256_ps_avx total.

Definition dot_similarity_sse (v1 v2 : list float) : float :=
  let n := length v1 in
  let m := (n - n mod 16)%nat in
  let '(sum128_1, sum128_2, sum128_3, sum128_4) :=
    while_below n 16 m (fun '(s1, s2, s3, s4) i =>
      (add_ps (mul_ps (load_lanes 4 i v1) (load_lanes 4 i v2)) s1,
       add_ps (mul_ps (load_lanes 4 (i + 4) v1) (load_lanes 4 (i + 4) v2)) s2,
       add_ps (mul_ps (load_lanes 4 (i + 8) v1) (load_lanes 4 (i + 8) v2)) s3,
       add_ps (mul_ps (load_lanes 4 (i + 12) v1) (load_lanes 4 (i + 12) v2)) s4))
      (setzero_ps 4, setzero_ps 4, setzero_ps 4, setzero_ps 4) 0 in
  let result := add (add (add (hsum128_ps_sse sum128_1) (hsum128_ps_sse sum128_2)) (hsum128_ps_sse sum128_3))
                  (hsum128_ps_sse sum128_4) in
  add_tail m v1 v2 result.

Definition dot_similarity_avx (v1 v2 : list float) : float :=
  let n := length v1 in
  let m := (n - n mod 32)%nat in
  let '(sum256_1, sum256_2, sum256_3, sum256_4) :=
    while_below n 32 m (fun '(s1, s2, s3, s4) i =>
      (fmadd_ps (load_lanes 8 i v1) (load_lanes 8 i v2) s1,
       fmadd_ps (load_lanes 8 (i + 8) v1) (load_lanes 8 (i + 8) v2) s2,
       fmadd_ps (load_lanes 8 (i + 16) v1) (load_lanes 8 (i + 16) v2) s3,
       fmadd_ps (load_lanes 8 (i + 24) v1) (load_lanes 8 (i + 24) v2) s4))
      (setzero_ps 8, setzero_ps 8, setzero_ps 8, setzero_ps 8) 0 in
  let result := four_way_hsum sum256_1 sum256_2 sum256_3 sum256_4 in
  add_tail m v1 v2 result.

Definition dot_similarity_neon (v1 v2 : list float) : float :=
  let n := length v1 in
  let m := (n - n mod 16)%nat in
  let '(sum1, sum2, sum3, sum4) :=
    while_below n 16 m (fun '(s1, s2, s3, s4) i =>
      (fmadd_ps (load_lanes 4 i v1) (load_lanes 4 i v2) s1,
       fmadd_ps (load_lanes 4 (i + 4) v1) (load_lanes 4 (i + 4) v2) s2,
       fmadd_ps (load_lanes 4 (i + 8) v1) (load_lanes 4 (i + 8) v2) s3,
       fmadd_ps (load_lanes 4 (i + 12) v1) (load_lanes 4 (i + 12) v2) s4))
      (setzero_ps 4, setzero_ps 4, setzero_ps 4, setzero_ps 4) 0 in
  let result := add (add (add (vaddvq_f32 sum1) (vaddvq_f32 sum2)) (vaddvq_f32 sum3)) (vaddvq_f32 sum4) in
  add_tail m v1 v2 result.

(** ** Selection *)

Definition MIN_DIM_SIZE_AVX : nat := 32.
Definition MIN_DIM_SIZE_SIMD : nat := 16.

(** The processor, as [DotProductMetric::similarity] asks for it. *)
Record SpaceFeatures : Type := mkSpaceFeatures { has_avx : bool; has_fma : bool; has_sse : bool; has_neon : bool }.

Definition dot_product_similarity (arch : Arch) (cpu : SpaceFeatures) (v1 v2 : list float) : float :=
  match arch with
  | X86_64 =>
      if has_avx cpu && has_fma cpu && (MIN_DIM_SIZE_AVX <=? length v1)%nat then dot_similarity_avx v1 v2
      else if has_sse cpu && (MIN_DIM_SIZE_SIMD <=? length v1)%nat then dot_similarity_sse v1 v2
      else dot_similarity v1 v2
  | Aarch64 =>
      if has_neon cpu && (MIN_DIM_SIZE_SIMD <=? length v1)%nat then dot_similarity_neon v1 v2
      else dot_similarity v1 v2
  | OtherArch => dot_similarity v1 v2
  end.

(** ** Operations with a finite result *)

Local Open Scope R_scope.

Section Finite.
Context (f : format) {Hf : Format_ok f}.

(** One for a product that is not zero. *)
Definition active (r : R) : R := if Req_EM_T r 0 then 0 else 1.

Lemma active_range r : 0 <= active r <= 1.
Proof. unfold active. destruct (Req_EM_T r 0); lra. Qed.

Lemma finite_round_value s p q : is_finite (fin_round f s p q) = true -> fin_round f s p q = Fin s (round_mag f p q).
Proof. unfold fin_round. by destruct (_ <? _)%Z. Qed.

Lemma finite_round_error s p q (x : R) : (0 <= p)%Z -> (0 < q)%Z -> x = IZR (signed s p) / IZR q * runit f ->
  is_finite (fin_round f s p q) = true ->
  Rabs (rv f (fin_round f s p q) - x) <= u_round f * Rabs x + active x * (runit f / 2).
Proof.
  intros Hp Hq Ex Hfin. rewrite (finite_round_value s p q Hfin). pose proof (runit_pos f). pose proof (u_round_pos f) as Hu. apply IZR_lt in Hq as Hq'.
  assert (Eabs : Rabs x = IZR p / IZR q * runit f).
  { rewrite Ex. apply Rinv_0_lt_compat in Hq' as Hi. unfold Rdiv.
    rewrite !Rabs_mult, IZR_abs_signed, (Rabs_pos_eq (runit f)), (Rabs_pos_eq (/ IZR q)) by (done || lra). done. }
  unfold active. destruct (Req_EM_T x 0) as [E0|_].
  - rewrite E0, Rabs_R0 in *. assert (Ep : p = 0%Z).
    { apply eq_IZR. apply Rmult_eq_reg_r with (/ IZR q * runit f); [rewrite Rmult_0_l; unfold Rdiv in Eabs; lra |].
      apply Rinv_0_lt_compat in Hq'. apply Rgt_not_eq. nra. }
    assert (Em : round_mag f p q = 0%Z).
    { rewrite Ep. transitivity (round_mag f (0 * q) q); [by rewrite Z.mul_0_l |]. rewrite (round_mag_scale f) by done.
      apply (round_mag_fits f 0 0); [|lia]. split; [lia |]. apply Z.pow_nonneg. lia. }
    rewrite Em. unfold rv. destruct s; cbn [val signed]; rewrite ?Z.opp_0, Rmult_0_l, Rminus_0_r, Rabs_R0; lra.
  - rewrite Eabs, Ex. unfold rv. cbn [val]. rewrite <- Rmult_minus_distr_r, Rabs_mult, (Rabs_pos_eq (runit f)) by lra.
    replace (u_round f * (IZR p / IZR q * runit f) + 1 * (runit f / 2)) with ((u_round f * (IZR p / IZR q) + / 2) * runit f) by lra.
    apply Rmult_le_compat_r; [lra |]. etrans; [|by apply (round_mag_error f)]. right.
    destruct s; simpl; [|done]. rewrite !opp_IZR, <- Rabs_Ropp. f_equal. field. lra.
Qed.

Lemma fadd_finite x y : wf f x -> wf f y -> is_finite (fadd f x y) = true ->
  is_finite x = true /\ is_finite y = true /\ Rabs (rv f (fadd f x y) - (rv f x + rv f y)) <= u_round f * Rabs (rv f x + rv f y).
Proof.
  intros Wx Wy Hfin. destruct x as [|[]|s a], y as [|[]|t b]; try done. split_and!; [done | done |].
  unfold rv. cbn [val]. rewrite <- Rmult_plus_distr_r, <- plus_IZR, (Rabs_rv f). pose proof (u_round_pos f). pose proof (runit_pos f).
  unfold fadd in *. set (v := (signed s a + signed t b)%Z) in *. destruct (Z.eqb_spec v 0) as [Ev|Ev].
  - rewrite Ev. replace (val (Fin (s && t) 0)) with 0%Z by by destruct s, t.
    unfold Rminus. rewrite Rplus_opp_r, Rabs_R0. simpl. rewrite Rmult_0_l, Rmult_0_r. lra.
  - rewrite (finite_round_value _ _ _ Hfin). cbn [val]. rewrite <- Rmult_minus_distr_r, Rabs_mult, signed_error, (Rabs_pos_eq (runit f)) by lra.
    rewrite <- Rmult_assoc. apply Rmult_le_compat_r; [lra |]. apply (round_mag_error1 f). lia.
Qed.

Lemma fmul_operands x y : is_finite (fmul f x y) = true -> is_finite x = true /\ is_finite y = true.
Proof.
  destruct x as [|s|s a], y as [|t|t b]; try done; unfold fmul; [by destruct (b =? 0)%Z | by destruct (a =? 0)%Z].
Qed.

Lemma fmul_finite x y : wf f x -> wf f y -> is_finite (fmul f x y) = true ->
  is_finite x = true /\ is_finite y = true /\
  Rabs (rv f (fmul f x y) - rv f x * rv f y) <= u_round f * Rabs (rv f x * rv f y) + active (rv f x * rv f y) * (runit f / 2).
Proof.
  intros Wx Wy Hfin. destruct (fmul_operands x y Hfin) as [Fx Fy]. split_and!; [done | done |].
  destruct x as [| |s a]; [done..|]. destruct y as [| |t b]; [done..|].
  destruct Wx as [[Ha _] _], Wy as [[Hb _] _]. pose proof (emin_neg (f := f)).
  apply finite_round_error; [lia | apply Z.pow_pos_nonneg; lia | | done]. rewrite <- val_product. unfold rv, Rdiv. fold (runit f). lra.
Qed.

Lemma ffma_wf x y z : wf f x -> wf f y -> wf f z -> wf f (ffma f x y z).
Proof.
  intros Wx Wy Wz. pose proof (emin_neg (f := f)). pose proof (fadd_wf _ _ _ (fmul_wf _ _ _ Wx Wy) Wz) as Hadd.
  destruct x as [|s|s a], y as [|t|t b]; try exact Hadd. destruct z as [|u|u c]; [done | done |]. cbn [ffma].
  destruct (_ =? 0)%Z; [by apply (wf_zero f) |]. apply (fin_round_wf f); [apply Z.abs_nonneg | apply Z.pow_pos_nonneg; lia].
Qed.

Lemma ffma_operands x y z : is_finite (ffma f x y z) = true -> is_finite x = true /\ is_finite y = true /\ is_finite z = true.
Proof.
  intros H. assert (Hxy : is_finite x = true /\ is_finite y = true).
  { destruct x as [| |s a], y as [| |t b]; try done; unfold ffma in H; apply fmul_operands;
    destruct (fmul f _ _) as [|[]|] eqn:E; try done; by destruct z as [|[]|]. }
  destruct x as [| |s a]; [by destruct Hxy.. |]. destruct y as [| |t b]; [by destruct Hxy.. |]. by destruct z.
Qed.

Lemma ffma_finite x y z : wf f x -> wf f y -> wf f z -> is_finite (ffma f x y z) = true ->
  is_finite x = true /\ is_finite y = true /\ is_finite z = true /\
  Rabs (rv f (ffma f x y z) - (rv f x * rv f y + rv f z))
  <= u_round f * Rabs (rv f x * rv f y + rv f z) + active (rv f x * rv f y) * (runit f / 2).
Proof.
  intros Wx Wy Wz Hfin. destruct (ffma_operands x y z Hfin) as (Fx & Fy & Fz). split_and!; try done.
  destruct x as [| |s a]; [done..|]. destruct y as [| |t b]; [done..|]. destruct z as [| |u c]; [done..|].
  destruct Wx as [[Ha _] _], Wy as [[Hb _] _], Wz as [[Hc _] Rc]. pose proof (emin_neg (f := f)).
  pose proof (runit_pos f) as Hr. pose proof (u_round_pos f) as Hu. unfold ffma in *. set (Q := (2 ^ (- emin f))%Z) in *.
  assert (HQ : (0 < Q)%Z) by (apply Z.pow_pos_nonneg; lia). apply IZR_lt in HQ as HQ'.
  set (v := (signed (xorb s t) (a * b) + signed u c * Q)%Z) in *.
  assert (Eprod : rv f (Fin s a) * rv f (Fin t b) = IZR (signed (xorb s t) (a * b)) / IZR Q * runit f).
  { rewrite <- val_product. unfold rv, Rdiv. unfold Q. fold (runit f). lra. }
  assert (Ex : rv f (Fin s a) * rv f (Fin t b) + rv f (Fin u c) = IZR v / IZR Q * runit f).
  { rewrite Eprod. unfold v, rv. cbn [val]. rewrite plus_IZR, mult_IZR. field. lra. }
  pose proof (active_range (rv f (Fin s a) * rv f (Fin t b))) as Hact. rewrite Ex.
  destruct (Z.eqb_spec v 0) as [Ev|Ev].
  { rewrite Ev. replace (rv f (Fin (xorb s t && u) 0)) with 0 by (unfold rv; destruct (xorb s t && u); cbn [val signed]; rewrite ?Z.opp_0, Rmult_0_l; done).
    replace (0 - 0 / IZR Q * runit f) with 0 by (field; lra). rewrite Rabs_R0. pose proof (Rabs_pos (0 / IZR Q * runit f)). nra. }
  unfold active in *. destruct (Req_EM_T (rv f (Fin s a) * rv f (Fin t b)) 0) as [E0|_].
  - rewrite E0 in Ex. assert (Eab : signed (xorb s t) (a * b) = 0%Z).
    { rewrite Eprod in E0. apply eq_IZR. apply Rmult_eq_reg_r with (/ IZR Q * runit f); [rewrite Rmult_0_l; unfold Rdiv in E0; lra |].
      apply Rinv_0_lt_compat in HQ'. apply Rgt_not_eq. nra. }
    assert (Ev' : v = (signed u c * Q)%Z) by (unfold v; lia).
    assert (Es : (v <? 0)%Z = u /\ Z.abs v = (c * Q)%Z).
    { rewrite Ev' in *. destruct u; simpl in *; (split; [|nia]); [apply Z.ltb_lt | apply Z.ltb_ge]; nia. }
    destruct Es as [Es1 Es2]. rewrite (finite_round_value _ _ _ Hfin), Es1, Es2, (round_mag_scale f), Rc by done.
    rewrite <- Ex, Rplus_0_l. unfold Rminus. rewrite Rplus_opp_r, Rabs_R0. pose proof (Rabs_pos (rv f (Fin u c))). nra.
  - pose proof (finite_round_error (v <? 0)%Z (Z.abs v) Q (IZR v / IZR Q * runit f) ltac:(lia) HQ) as He.
    assert (Esv : signed (v <? 0)%Z (Z.abs v) = v) by (unfold signed; destruct (Z.ltb_spec v 0); lia). rewrite Esv in He.
    specialize (He eq_refl Hfin). unfold active in He. destruct (Req_EM_T _ 0); lra.
Qed.
End Finite.

(** ** Accumulated errors *)

Local Abbreviation r32 := (rv binary32).
Local Abbreviation fin32 := (fin binary32).

Definition u32 : R := u_round binary32.
Definition h32 : R := runit binary32 / 2.

Lemma u32_pos : 0 < u32 <= / 4.
Proof. pose proof (u_round_pos binary32). unfold u32. lra. Qed.

Lemma h32_pos : 0 < h32.
Proof. pose proof (runit_pos binary32). unfold h32. lra. Qed.

(** [x] is [r] after at most [d] roundings of a sum of terms whose absolute
    values sum up to [a], [k] of which are products that are not zero. *)
Definition approx (d : nat) (k : R) (x : float) (r a : R) : Prop :=
  wf binary32 x /\ 0 <= k /\ Rabs r <= a /\
  (is_finite x = true -> Rabs (r32 x - r) <= ((1 + u32) ^ d - 1) * a + (1 + u32) ^ d * k * h32).

Lemma pow_ge_1 d : 1 <= (1 + u32) ^ d.
Proof. apply pow_R1_Rle. pose proof u32_pos. lra. Qed.

Lemma approx_eq d k x r a k' r' a' : k = k' -> r = r' -> a = a' -> approx d k x r a -> approx d k' x r' a'.
Proof. by intros -> -> ->. Qed.

Lemma approx_more d d' k x r a : (d <= d')%nat -> approx d k x r a -> approx d' k x r a.
Proof.
  intros Hd (W & Hk & Ha & H). split_and!; [done | done | done |]. intros Hx. specialize (H Hx). pose proof h32_pos as Hh.
  assert (Hp : (1 + u32) ^ d <= (1 + u32) ^ d') by (apply Rle_pow; [pose proof u32_pos; lra | done]). pose proof (Rabs_pos r).
  assert (((1 + u32) ^ d - 1) * a <= ((1 + u32) ^ d' - 1) * a) by (apply Rmult_le_compat_r; lra).
  assert ((1 + u32) ^ d * k * h32 <= (1 + u32) ^ d' * k * h32) by (apply Rmult_le_compat_r; [lra | by apply Rmult_le_compat_r]). lra.
Qed.

Lemma approx_zero s : approx 0 0 (Fin s 0) 0 0.
Proof.
  split_and!; [by apply (wf_zero binary32) | lra | rewrite Rabs_R0; lra |]. intros _.
  replace (r32 (Fin s 0)) with 0 by (unfold rv; destruct s; cbn [val signed]; rewrite ?Z.opp_0, Rmult_0_l; done).
  rewrite Rminus_0_r, Rabs_R0. lra.
Qed.

(** A rounding on top of an error. *)
Lemma rounding_step u p x y r a e k h : 0 < u -> 1 <= p -> 0 <= a -> 0 <= k -> 0 < h ->
  Rabs r <= a -> Rabs (y - r) <= (p - 1) * a + p * e * h -> 0 <= e -> Rabs (x - y) <= u * Rabs y + k * h ->
  Rabs (x - r) <= ((1 + u) * p - 1) * a + (1 + u) * p * (e + k) * h.
Proof.
  intros Hu Hp Ha Hk Hh Hr Hy He Hx. pose proof (Rabs_triang (x - y) (y - r)) as T1. replace (x - y + (y - r)) with (x - r) in T1 by ring.
  pose proof (Rabs_triang (y - r) r) as T2. replace (y - r + r) with y in T2 by ring.
  assert (H1 : u * Rabs y <= u * (p * a + p * e * h)) by (apply Rmult_le_compat_l; lra).
  assert (H2 : k * h <= (1 + u) * p * (k * h)).
  { assert (0 <= k * h) by (apply Rmult_le_pos; lra). assert (1 <= (1 + u) * p) by nra. nra. }
  replace (((1 + u) * p - 1) * a + (1 + u) * p * (e + k) * h) with (u * (p * a + p * e * h) + ((p - 1) * a + p * e * h) + (1 + u) * p * (k * h)) by ring.
  lra.
Qed.

Lemma approx_add d k k' x y r s a b : approx d k x r a -> approx d k' y s b -> approx (S d) (k + k') (fadd binary32 x y) (r + s) (a + b).
Proof.
  intros (Wx & Hk & Ha & Hx) (Wy & Hk' & Hb & Hy). pose proof (Rabs_triang r s) as Trs. pose proof h32_pos as Hh. pose proof (pow_ge_1 d) as Hp.
  split_and!; [by apply fadd_wf | lra | lra |]. intros Hfin.
  destruct (fadd_finite binary32 x y Wx Wy Hfin) as (Fx & Fy & He). specialize (Hx Fx). specialize (Hy Fy). fold u32 in He.
  pose proof (Rabs_pos r). pose proof (Rabs_pos s). pose proof u32_pos.
  pose proof (rounding_step u32 ((1 + u32) ^ d) (r32 (fadd binary32 x y)) (r32 x + r32 y) (r + s) (a + b) (k + k') 0 h32) as Hs.
  rewrite Rplus_0_r, Rmult_0_l, Rplus_0_r in Hs. cbn [pow]. apply Hs; [lra | lra | lra | lra | lra | lra | | lra | done].
  pose proof (Rabs_triang (r32 x - r) (r32 y - s)) as T. replace (r32 x - r + (r32 y - s)) with (r32 x + r32 y - (r + s)) in T by ring. lra.
Qed.

Lemma approx_mul x y : fin32 x -> fin32 y -> let p := r32 x * r32 y in approx 1 (active p) (fmul binary32 x y) p (Rabs p).
Proof.
  intros [Wx Fx] [Wy Fy] p. pose proof (active_range p) as Ha. pose proof u32_pos. pose proof h32_pos.
  split_and!; [by apply fmul_wf | lra | lra |]. intros Hfin.
  destruct (fmul_finite binary32 x y Wx Wy Hfin) as (_ & _ & He). fold p u32 h32 in He. cbn [pow].
  assert (0 <= active p * h32) by (apply Rmult_le_pos; lra). assert (active p * h32 <= (1 + u32) * (active p * h32)) by nra. lra.
Qed.

Lemma approx_fma d k x y z r a : fin32 x -> fin32 y -> approx d k z r a ->
  let p := r32 x * r32 y in approx (S d) (k + active p) (ffma binary32 x y z) (r + p) (a + Rabs p).
Proof.
  intros [Wx Fx] [Wy Fy] (Wz & Hk & Ha & Hz) p. pose proof (active_range p) as Hap. pose proof (Rabs_triang r p) as Trp.
  pose proof h32_pos as Hh. pose proof (pow_ge_1 d) as Hp. pose proof (Rabs_pos p). pose proof (Rabs_pos r). pose proof u32_pos.
  split_and!; [by apply ffma_wf | lra | lra |]. intros Hfin.
  destruct (ffma_finite binary32 x y z Wx Wy Wz Hfin) as (_ & _ & Fz & He). fold p u32 h32 in He. specialize (Hz Fz). cbn [pow].
  apply (rounding_step u32 ((1 + u32) ^ d) _ (p + r32 z)); try lra.
  replace (p + r32 z - (r + p)) with (r32 z - r) by ring. apply Rle_trans with (1 := Hz).
  assert (0 <= ((1 + u32) ^ d - 1) * Rabs p) by (apply Rmult_le_pos; lra). lra.
Qed.

(** ** Sums over pairs *)

Definition psum (g : R -> R -> R) (xs ys : list float) : R := rsum (zip_with (fun x y => g (r32 x) (r32 y)) xs ys).

Local Abbreviation pdot := (psum Rmult).
Local Abbreviation pabs := (psum (fun x y => Rabs (x * y))).
Local Abbreviation pact := (psum (fun x y => active (x * y))).

Lemma psum_app g a a' b b' : length a = length b -> psum g (a ++ a') (b ++ b') = psum g a b + psum g a' b'.
Proof. intros Hl. unfold psum. by rewrite zip_with_app, rsum_app. Qed.

Lemma psum_load g V o a b : length a = length b -> (o + V <= length a)%nat ->
  psum g (take (o + V) a) (take (o + V) b) = psum g (take o a) (take o b) + psum g (load_lanes V o a) (load_lanes V o b).
Proof. intros Hl Ho. rewrite !take_load. apply psum_app. rewrite !length_take. lia. Qed.

Lemma psum_drop g o a b : length a = length b -> psum g (take o a) (take o b) + psum g (drop o a) (drop o b) = psum g a b.
Proof. intros Hl. rewrite <- psum_app by (rewrite !length_take; lia). by rewrite !take_drop. Qed.

Lemma psum_cons g x y a b : psum g (x :: a) (y :: b) = g (r32 x) (r32 y) + psum g a b.
Proof. done. Qed.

(** ** Registers *)

(** Every lane is approximated; the totals are [k], [r] and [a]. *)
Inductive approxs (d : nat) : list float -> R -> R -> R -> Prop :=
  | approxs_nil : approxs d [] 0 0 0
  | approxs_cons x xs k r a k' r' a' :
      approx d k x r a -> approxs d xs k' r' a' -> approxs d (x :: xs) (k + k') (r + r') (a + a').

Lemma approxs_eq d xs k r a k' r' a' : k = k' -> r = r' -> a = a' -> approxs d xs k r a -> approxs d xs k' r' a'.
Proof. by intros -> -> ->. Qed.

Lemma approxs_zeros V : approxs 1 (setzero_ps V) 0 0 0.
Proof.
  unfold setzero_ps. induction V as [|V IH]; [constructor |]. cbn [replicate].
  apply approxs_eq with (0 + 0) (0 + 0) (0 + 0); [lra.. |]. constructor; [|done]. apply approx_more with 0%nat; [lia | apply approx_zero].
Qed.

Lemma add_ps_approxs d xs ys k r a k' r' a' : length xs = length ys -> approxs d xs k r a -> approxs d ys k' r' a' ->
  approxs (S d) (add_ps xs ys) (k + k') (r + r') (a + a').
Proof.
  intros Hl Hx. revert ys k' r' a' Hl. unfold add_ps. induction Hx as [|x xs k r a k1 r1 a1 Hx _ IH]; intros ys k' r' a' Hl Hy.
  - destruct Hy as [|]; [|done]. apply approxs_eq with 0 0 0; [lra.. | constructor].
  - destruct Hy as [|y ys k2 r2 a2 k3 r3 a3 Hy Hys]; [done |]. injection Hl as Hl. cbn [zip_with].
    apply approxs_eq with (k + k2 + (k1 + k3)) (r + r2 + (r1 + r3)) (a + a2 + (a1 + a3)); [lra.. |].
    constructor; [by apply approx_add | by apply IH].
Qed.

(** A step of a kernel over [V] lanes. *)
Definition step_ok (V : nat) (step : list float -> list float -> list float -> list float) : Prop :=
  forall d s k r a xs ys, (1 <= d)%nat -> approxs d s k r a -> length s = V -> length xs = V -> length ys = V ->
  Forall fin32 xs -> Forall fin32 ys ->
  approxs (S d) (step xs ys s) (k + pact xs ys) (r + pdot xs ys) (a + pabs xs ys) /\ length (step xs ys s) = V.

Lemma mul_add_ok V : step_ok V (fun xs ys s => add_ps (mul_ps xs ys) s).
Proof.
  intros d s k r a xs ys Hd Hs Ls Lx Ly Fx Fy. split; [|unfold add_ps, mul_ps; rewrite !length_zip_with; lia].
  apply approxs_eq with (pact xs ys + k) (pdot xs ys + r) (pabs xs ys + a); [lra.. |].
  apply add_ps_approxs; [unfold mul_ps; rewrite length_zip_with; lia | | done]. clear s k r a Hs Ls. revert V ys Lx Ly Fy. unfold mul_ps.
  induction Fx as [|x xs Hx _ IH]; intros V ys Lx Ly Fy; destruct Fy as [|y ys Hy Fy]; simpl in Lx, Ly; try lia; [constructor |].
  cbn [zip_with]. rewrite !psum_cons. constructor; [by apply approx_more with 1%nat, approx_mul |]. by apply (IH (V - 1)%nat); [lia | lia |].
Qed.

Lemma fmadd_ok V : step_ok V fmadd_ps.
Proof.
  intros d s k r a xs ys Hd Hs Ls Lx Ly Fx Fy. split; [|unfold fmadd_ps; rewrite length_zip_with, length_zip_with; lia].
  revert V xs ys Ls Lx Ly Fx Fy. unfold fmadd_ps. induction Hs as [|z s k r a k' r' a' Hz _ IH]; intros V xs ys Ls Lx Ly Fx Fy.
  - destruct Fx, Fy; simpl in *; try lia. apply approxs_eq with 0 0 0; [unfold psum; cbn; lra.. | constructor].
  - destruct Fx as [|x xs Hx Fx], Fy as [|y ys Hy Fy]; simpl in *; try lia. rewrite !psum_cons.
    specialize (IH (V - 1)%nat xs ys ltac:(lia) ltac:(lia) ltac:(lia) Fx Fy).
    apply approxs_eq with (k + active (r32 x * r32 y) + (k' + pact xs ys)) (r + r32 x * r32 y + (r' + pdot xs ys)) (a + Rabs (r32 x * r32 y) + (a' + pabs xs ys)); [lra.. |].
    constructor; [by apply approx_fma | done].
Qed.

(** ** Loops *)

Lemma while_below_fold {A} W (body : A -> nat -> A) : (0 < W)%nat -> forall g fuel acc j, (g <= fuel)%nat ->
  while_below fuel W ((j + g) * W) body acc (j * W) = fold_left (fun acc i => body acc (i * W)%nat) (seq j g) acc.
Proof.
  intros HW g. induction g as [|g IH]; intros fuel acc j Hf.
  - rewrite Nat.add_0_r. destruct fuel; [done |]. cbn [while_below seq fold_left]. by rewrite Nat.ltb_irrefl.
  - destruct fuel as [|fuel]; [lia |]. cbn [while_below seq fold_left]. rewrite (proj2 (Nat.ltb_lt _ _)) by nia.
    replace (j * W + W)%nat with (S j * W)%nat by lia. rewrite <- (IH fuel) by lia. f_equal. lia.
Qed.

Definition four_step (V : nat) (step : list float -> list float -> list float -> list float) (v1 v2 : list float)
    : list float * list float * list float * list float -> nat -> list float * list float * list float * list float :=
  fun '(s1, s2, s3, s4) i =>
    (step (load_lanes V i v1) (load_lanes V i v2) s1, step (load_lanes V (i + V) v1) (load_lanes V (i + V) v2) s2,
     step (load_lanes V (i + (V + V)) v1) (load_lanes V (i + (V + V)) v2) s3, step (load_lanes V (i + (V + V + V)) v1) (load_lanes V (i + (V + V + V)) v2) s4).

(** Four registers at depth [d] whose totals are those of the pairs. *)
Definition registers (V d : nat) (ss : list float * list float * list float * list float) (xs ys : list float) : Prop :=
  let '(s1, s2, s3, s4) := ss in exists k1 k2 k3 k4 r1 r2 r3 r4 a1 a2 a3 a4,
  approxs d s1 k1 r1 a1 /\ approxs d s2 k2 r2 a2 /\ approxs d s3 k3 r3 a3 /\ approxs d s4 k4 r4 a4 /\
  (length s1 = V /\ length s2 = V /\ length s3 = V /\ length s4 = V) /\
  k1 + k2 + k3 + k4 = pact xs ys /\ r1 + r2 + r3 + r4 = pdot xs ys /\ a1 + a2 + a3 + a4 = pabs xs ys.

Lemma four_loop V step v1 v2 : step_ok V step -> Forall fin32 v1 -> Forall fin32 v2 -> length v1 = length v2 ->
  forall g, (g * (4 * V) <= length v1)%nat ->
  registers V (S g) (fold_left (fun ss i => four_step V step v1 v2 ss (i * (4 * V))%nat) (seq 0 g)
    (setzero_ps V, setzero_ps V, setzero_ps V, setzero_ps V)) (take (g * (4 * V)) v1) (take (g * (4 * V)) v2).
Proof.
  intros Hstep F1 F2 Hl g. induction g as [|g IH]; intros Hg.
  { exists 0, 0, 0, 0, 0, 0, 0, 0, 0, 0, 0, 0. rewrite Nat.mul_0_l, !take_0.
    split_and!; try apply approxs_zeros; try apply length_replicate; unfold psum; cbn; lra. }
  rewrite seq_S, fold_left_app. specialize (IH ltac:(lia)). destruct (fold_left _ _ _) as [[[s1 s2] s3] s4].
  destruct IH as (k1 & k2 & k3 & k4 & r1 & r2 & r3 & r4 & a1 & a2 & a3 & a4 & A1 & A2 & A3 & A4 & (L1 & L2 & L3 & L4) & Ek & Er & Ea).
  cbn [fold_left Nat.add four_step]. assert (Eo : (S g * (4 * V) = g * (4 * V) + (V + V + V) + V)%nat) by lia. rewrite Eo in *.
  set (o := (g * (4 * V))%nat) in *. clearbody o.
  assert (Hload : forall j, (j + V <= 4 * V)%nat -> length (load_lanes V (o + j) v1) = V /\ length (load_lanes V (o + j) v2) = V /\
    Forall fin32 (load_lanes V (o + j) v1) /\ Forall fin32 (load_lanes V (o + j) v2)).
  { intros j Hj. split_and!; [apply length_load; lia.. | by apply Forall_take, Forall_drop | by apply Forall_take, Forall_drop]. }
  destruct (Hload 0%nat ltac:(lia)) as (X1 & X2 & X3 & X4). rewrite Nat.add_0_r in X1, X2, X3, X4.
  destruct (Hload V ltac:(lia)) as (Y1 & Y2 & Y3 & Y4). destruct (Hload (V + V)%nat ltac:(lia)) as (Z1 & Z2 & Z3 & Z4).
  destruct (Hload (V + V + V)%nat ltac:(lia)) as (W1 & W2 & W3 & W4).
  destruct (Hstep (S g) s1 k1 r1 a1 _ _ ltac:(lia) A1 L1 X1 X2 X3 X4) as [B1 M1].
  destruct (Hstep (S g) s2 k2 r2 a2 _ _ ltac:(lia) A2 L2 Y1 Y2 Y3 Y4) as [B2 M2].
  destruct (Hstep (S g) s3 k3 r3 a3 _ _ ltac:(lia) A3 L3 Z1 Z2 Z3 Z4) as [B3 M3].
  destruct (Hstep (S g) s4 k4 r4 a4 _ _ ltac:(lia) A4 L4 W1 W2 W3 W4) as [B4 M4].
  do 12 eexists. split; [exact B1 |]. split; [exact B2 |]. split; [exact B3 |]. split; [exact B4 |]. split; [done |].
  assert (Es : forall f, psum f (take (o + (V + V + V) + V) v1) (take (o + (V + V + V) + V) v2) = psum f (take o v1) (take o v2)
    + psum f (load_lanes V o v1) (load_lanes V o v2) + psum f (load_lanes V (o + V) v1) (load_lanes V (o + V) v2)
    + psum f (load_lanes V (o + (V + V)) v1) (load_lanes V (o + (V + V)) v2) + psum f (load_lanes V (o + (V + V + V)) v1) (load_lanes V (o + (V + V + V)) v2)).
  { intros f. rewrite psum_load by lia.
    replace (o + (V + V + V))%nat with (o + (V + V) + V)%nat at 1 2 by lia. rewrite psum_load by lia.
    replace (o + (V + V))%nat with (o + V + V)%nat at 1 2 by lia. rewrite psum_load by lia. by rewrite psum_load by lia. }
  rewrite !Es, <- Ek, <- Er, <- Ea. split_and!; lra.
Qed.

(** ** Horizontal sums *)

Lemma approxs_inv d x xs k r a : approxs d (x :: xs) k r a -> exists k1 r1 a1 k2 r2 a2,
  approx d k1 x r1 a1 /\ approxs d xs k2 r2 a2 /\ k = k1 + k2 /\ r = r1 + r2 /\ a = a1 + a2.
Proof. inversion 1; subst. by do 6 eexists. Qed.

Lemma approxs_nil_inv d k r a : approxs d [] k r a -> k = 0 /\ r = 0 /\ a = 0.
Proof. by inversion 1. Qed.

Lemma approxs4 d x k r a : approxs d x k r a -> length x = 4%nat -> exists x0 x1 x2 x3 k0 k1 k2 k3 r0 r1 r2 r3 a0 a1 a2 a3,
  x = [x0; x1; x2; x3] /\ approx d k0 x0 r0 a0 /\ approx d k1 x1 r1 a1 /\ approx d k2 x2 r2 a2 /\ approx d k3 x3 r3 a3 /\
  k = k0 + k1 + k2 + k3 /\ r = r0 + r1 + r2 + r3 /\ a = a0 + a1 + a2 + a3.
Proof.
  intros H Hl. destruct x as [|x0 [|x1 [|x2 [|x3 [|]]]]]; try done.
  apply approxs_inv in H as (k0 & r0 & a0 & kk1 & rr1 & aa1 & H0 & H & -> & -> & ->).
  apply approxs_inv in H as (k1 & r1 & a1 & kk2 & rr2 & aa2 & H1 & H & -> & -> & ->).
  apply approxs_inv in H as (k2 & r2 & a2 & kk3 & rr3 & aa3 & H2 & H & -> & -> & ->).
  apply approxs_inv in H as (k3 & r3 & a3 & kk4 & rr4 & aa4 & H3 & H & -> & -> & ->).
  apply approxs_nil_inv in H as (-> & -> & ->). exists x0, x1, x2, x3, k0, k1, k2, k3, r0, r1, r2, r3, a0, a1, a2, a3.
  split_and!; try done; lra.
Qed.

Lemma hsum128_approx d x k r a : approxs d x k r a -> length x = 4%nat -> approx (S (S d)) k (hsum128_ps_sse x) r a.
Proof.
  intros H Hl. destruct (approxs4 d x k r a H Hl) as (x0 & x1 & x2 & x3 & k0 & k1 & k2 & k3 & r0 & r1 & r2 & r3 & a0 & a1 & a2 & a3 & -> & H0 & H1 & H2 & H3 & -> & -> & ->).
  apply approx_eq with (k0 + k2 + (k1 + k3)) (r0 + r2 + (r1 + r3)) (a0 + a2 + (a1 + a3)); [lra.. |]. by repeat apply approx_add.
Qed.

Lemma vaddvq_approx d x k r a : approxs d x k r a -> length x = 4%nat -> approx (S (S d)) k (vaddvq_f32 x) r a.
Proof.
  intros H Hl. destruct (approxs4 d x k r a H Hl) as (x0 & x1 & x2 & x3 & k0 & k1 & k2 & k3 & r0 & r1 & r2 & r3 & a0 & a1 & a2 & a3 & -> & H0 & H1 & H2 & H3 & -> & -> & ->).
  apply approx_eq with (k0 + k1 + (k2 + k3)) (r0 + r1 + (r2 + r3)) (a0 + a1 + (a2 + a3)); [lra.. |]. by repeat apply approx_add.
Qed.

Lemma hsum256_approx d x k r a : approxs d x k r a -> length x = 8%nat -> approx (S (S (S d))) k (hsum256_ps_avx x) r a.
Proof.
  intros H Hl. destruct x as [|x0 [|x1 [|x2 [|x3 x]]]]; try done.
  apply approxs_inv in H as (k0 & r0 & a0 & kk5 & rr5 & aa5 & H0 & H & -> & -> & ->).
  apply approxs_inv in H as (k1 & r1 & a1 & kk6 & rr6 & aa6 & H1 & H & -> & -> & ->).
  apply approxs_inv in H as (k2 & r2 & a2 & kk7 & rr7 & aa7 & H2 & H & -> & -> & ->).
  apply approxs_inv in H as (k3 & r3 & a3 & kk8 & rr8 & aa8 & H3 & H & -> & -> & ->).
  apply approxs4 in H; [|simpl in Hl; lia].
  destruct H as (x4 & x5 & x6 & x7 & k4 & k5 & k6 & k7 & r4 & r5 & r6 & r7 & a4 & a5 & a6 & a7 & -> & H4 & H5 & H6 & H7 & -> & -> & ->).
  apply approx_eq with (k4 + k0 + (k5 + k1) + (k6 + k2 + (k7 + k3))) (r4 + r0 + (r5 + r1) + (r6 + r2 + (r7 + r3)))
    (a4 + a0 + (a5 + a1) + (a6 + a2 + (a7 + a3))); [lra.. |]. by repeat apply approx_add.
Qed.

(** ** The coordinates that remain *)

Lemma tail_approx xs ys : Forall fin32 xs -> Forall fin32 ys -> length xs = length ys -> forall d k acc r a, (1 <= d)%nat -> approx d k acc r a ->
  approx (d + length xs) (k + pact xs ys) (fold_left (fun result '(a, b) => fadd binary32 result (fmul binary32 a b)) (zip xs ys) acc)
    (r + pdot xs ys) (a + pabs xs ys).
Proof.
  intros Fx. revert ys. induction Fx as [|x xs Hx Fx IH]; intros ys Fy Hl d k acc r a Hd Ha; destruct Fy as [|y ys Hy Fy]; try done.
  - cbn. rewrite Nat.add_0_r. apply approx_eq with (4 := Ha); unfold psum; cbn; lra.
  - injection Hl as Hl. rewrite !psum_cons. cbn [zip_with fold_left length]. replace (d + S (length xs))%nat with (S d + length xs)%nat by lia.
    apply approx_eq with (k + active (r32 x * r32 y) + pact xs ys) (r + r32 x * r32 y + pdot xs ys) (a + Rabs (r32 x * r32 y) + pabs xs ys); [lra.. |].
    apply IH; [done | done | lia |]. apply approx_add; [done |]. by apply approx_more with 1%nat, approx_mul.
Qed.

(** What a kernel guarantees. *)
Definition kernel_ok (v1 v2 : list float) (score : float) : Prop :=
  approx (length v1 + 8) (pact v1 v2) score (pdot v1 v2) (pabs v1 v2).

Lemma add_tail_ok m d v1 v2 result : Forall fin32 v1 -> Forall fin32 v2 -> length v1 = length v2 -> (1 <= d)%nat -> (d <= m + 8)%nat -> (m <= length v1)%nat ->
  approx d (pact (take m v1) (take m v2)) result (pdot (take m v1) (take m v2)) (pabs (take m v1) (take m v2)) ->
  kernel_ok v1 v2 (add_tail m v1 v2 result).
Proof.
  intros F1 F2 Hl Hd Hd' Hm Ha.
  pose proof (tail_approx (drop m v1) (drop m v2) ltac:(by apply Forall_drop) ltac:(by apply Forall_drop) ltac:(rewrite !length_drop; lia) d _ _ _ _ Hd Ha) as H.
  rewrite !psum_drop in H by done. apply approx_more with (2 := H). rewrite length_drop. lia.
Qed.

(** ** The kernels *)

Section Kernels.
Context (v1 v2 : list float) (F1 : Forall fin32 v1) (F2 : Forall fin32 v2) (Hl : length v1 = length v2).

(** The loop of a kernel with four registers of [V] lanes. *)
Lemma kernel_loop V step : (0 < V)%nat -> step_ok V step ->
  let n := length v1 in let m := (n - n mod (4 * V))%nat in
  let ss := while_below n (4 * V) m (four_step V step v1 v2) (setzero_ps V, setzero_ps V, setzero_ps V, setzero_ps V) 0 in
  registers V (S (n / (4 * V))) ss (take m v1) (take m v2) /\ (m = n / (4 * V) * (4 * V))%nat /\ (m <= n)%nat.
Proof.
  intros HV Hstep n m ss. set (g := (n / (4 * V))%nat).
  assert (Em : m = (g * (4 * V))%nat) by (unfold m, g; pose proof (Nat.div_mod_eq n (4 * V)); lia).
  assert (Hg : (g <= n)%nat) by (unfold g; apply Nat.Div0.div_le_upper_bound; nia).
  split_and!; [|done | unfold m; lia]. unfold ss. rewrite Em.
  pose proof (while_below_fold (4 * V) (four_step V step v1 v2) ltac:(lia) g n (setzero_ps V, setzero_ps V, setzero_ps V, setzero_ps V) 0 Hg) as E.
  rewrite Nat.add_0_l, Nat.mul_0_l in E. rewrite E. apply four_loop; try done. unfold m in Em. lia.
Qed.

Lemma scalar_ok : kernel_ok v1 v2 (dot_similarity v1 v2).
Proof.
  unfold kernel_ok, dot_similarity. assert (Hz : approx 1 0 neg_zero 0 0) by (apply approx_more with 0%nat; [lia | apply approx_zero]).
  pose proof (tail_approx v1 v2 F1 F2 Hl 1 0 neg_zero 0 0 ltac:(lia) Hz) as H. rewrite !Rplus_0_l in H.
  apply approx_more with (2 := H). lia.
Qed.

Lemma four_sums d hsum s1 s2 s3 s4 V : (forall x k r a, approxs d x k r a -> length x = V -> approx (S (S d)) k (hsum x) r a) ->
  forall xs ys, registers V d (s1, s2, s3, s4) xs ys ->
  approx (5 + d) (pact xs ys) (fadd binary32 (fadd binary32 (fadd binary32 (hsum s1) (hsum s2)) (hsum s3)) (hsum s4)) (pdot xs ys) (pabs xs ys).
Proof.
  intros Hh xs ys (k1 & k2 & k3 & k4 & r1 & r2 & r3 & r4 & a1 & a2 & a3 & a4 & A1 & A2 & A3 & A4 & (L1 & L2 & L3 & L4) & <- & <- & <-).
  apply Hh in A1, A2, A3, A4; try done.
  apply approx_add; [apply approx_add; [by apply approx_add |] |]; (eapply approx_more; [|eassumption]; lia).
Qed.

Lemma sse_ok : kernel_ok v1 v2 (dot_similarity_sse v1 v2).
Proof.
  destruct (kernel_loop 4 (fun xs ys s => add_ps (mul_ps xs ys) s) ltac:(lia) (mul_add_ok 4)) as (Hr & Em & Hm). unfold dot_similarity_sse.
  change (while_below _ 16 _ _ _ _) with (while_below (length v1) (4 * 4) (length v1 - length v1 mod (4 * 4))
    (four_step 4 (fun xs ys s => add_ps (mul_ps xs ys) s) v1 v2) (setzero_ps 4, setzero_ps 4, setzero_ps 4, setzero_ps 4) 0).
  destruct (while_below _ _ _ _ _ _) as [[[s1 s2] s3] s4]. change (16%nat) with (4 * 4)%nat.
  apply (add_tail_ok _ (5 + S (length v1 / (4 * 4)))); try done; [lia | nia |].
  apply (four_sums _ hsum128_ps_sse) with 4%nat; [intros; by apply hsum128_approx | done].
Qed.

Lemma neon_ok : kernel_ok v1 v2 (dot_similarity_neon v1 v2).
Proof.
  destruct (kernel_loop 4 fmadd_ps ltac:(lia) (fmadd_ok 4)) as (Hr & Em & Hm). unfold dot_similarity_neon.
  change (while_below _ 16 _ _ _ _) with (while_below (length v1) (4 * 4) (length v1 - length v1 mod (4 * 4))
    (four_step 4 fmadd_ps v1 v2) (setzero_ps 4, setzero_ps 4, setzero_ps 4, setzero_ps 4) 0).
  destruct (while_below _ _ _ _ _ _) as [[[s1 s2] s3] s4]. change (16%nat) with (4 * 4)%nat.
  apply (add_tail_ok _ (5 + S (length v1 / (4 * 4)))); try done; [lia | nia |].
  apply (four_sums _ vaddvq_f32) with 4%nat; [intros; by apply vaddvq_approx | done].
Qed.

Lemma avx_ok : kernel_ok v1 v2 (dot_similarity_avx v1 v2).
Proof.
  destruct (kernel_loop 8 fmadd_ps ltac:(lia) (fmadd_ok 8)) as (Hr & Em & Hm). unfold dot_similarity_avx.
  change (while_below _ 32 _ _ _ _) with (while_below (length v1) (4 * 8) (length v1 - length v1 mod (4 * 8))
    (four_step 8 fmadd_ps v1 v2) (setzero_ps 8, setzero_ps 8, setzero_ps 8, setzero_ps 8) 0).
  destruct (while_below _ _ _ _ _ _) as [[[s1 s2] s3] s4]. change (32%nat) with (4 * 8)%nat.
  apply (add_tail_ok _ (5 + S (length v1 / (4 * 8)))); try done; [lia | nia |]. unfold four_way_hsum.
  destruct Hr as (k1 & k2 & k3 & k4 & r1 & r2 & r3 & r4 & a1 & a2 & a3 & a4 & A1 & A2 & A3 & A4 & (L1 & L2 & L3 & L4) & <- & <- & <-).
  assert (Hlen : forall x y : list float, length x = 8%nat -> length y = 8%nat -> length (add_ps x y) = 8%nat) by (intros x y E1 E2; unfold add_ps; rewrite length_zip_with; lia).
  pose proof (add_ps_approxs _ s1 s2 _ _ _ _ _ _ (eq_trans L1 (eq_sym L2)) A1 A2) as B1. pose proof (add_ps_approxs _ s3 s4 _ _ _ _ _ _ (eq_trans L3 (eq_sym L4)) A3 A4) as B2.
  pose proof (add_ps_approxs _ _ _ _ _ _ _ _ _ (eq_trans (Hlen s1 s2 L1 L2) (eq_sym (Hlen s3 s4 L3 L4))) B1 B2) as B3. apply hsum256_approx in B3; [|rewrite Hlen; auto].
  apply approx_eq with (4 := B3); lra.
Qed.
End Kernels.

(** *** A linear bound *)

Lemma pow_linear d : 2 * INR d * u32 <= 1 -> (1 + u32) ^ d <= 1 + 2 * INR d * u32.
Proof.
  induction d as [|d IH]; intros Hd; [simpl; lra |]. rewrite S_INR in *. pose proof u32_pos. pose proof (pos_INR d).
  specialize (IH ltac:(nra)). cbn [pow]. apply Rle_trans with ((1 + u32) * (1 + 2 * INR d * u32)); [apply Rmult_le_compat_l; lra |]. nra.
Qed.

Lemma u32_value : u32 = / 16777216.
Proof. reflexivity. Qed.

Lemma pdot_dot v1 v2 : pdot v1 v2 = dot (r32 <$> v1) (r32 <$> v2).
Proof. unfold psum, dot. by rewrite zip_with_fmap_l, zip_with_fmap_r. Qed.

Lemma pabs_absdot v1 v2 : pabs v1 v2 = absdot (r32 <$> v1) (r32 <$> v2).
Proof. unfold psum, absdot. by rewrite zip_with_fmap_l, zip_with_fmap_r. Qed.

(** The number of products that are not zero. *)
Definition nonzero_products (v1 v2 : list float) : R := pact v1 v2.

Lemma nonzero_range v1 v2 : 0 <= nonzero_products v1 v2 <= INR (length v1).
Proof.
  unfold nonzero_products, psum. revert v2. induction v1 as [|x v1 IH]; intros [|y v2]; cbn [zip_with rsum fold_right]; [simpl; lra | simpl; lra | simpl length; rewrite S_INR; pose proof (pos_INR (length v1)); simpl; lra |].
  specialize (IH v2). pose proof (active_range (r32 x * r32 y)). simpl length. rewrite S_INR. unfold rsum in IH. lra.
Qed.

Lemma similarity_ok arch cpu v1 v2 : Forall fin32 v1 -> Forall fin32 v2 -> length v1 = length v2 ->
  kernel_ok v1 v2 (dot_product_similarity arch cpu v1 v2).
Proof.
  intros F1 F2 Hl. unfold dot_product_similarity. destruct arch.
  - destruct (_ && _); [by apply avx_ok |]. destruct (_ && _); [by apply sse_ok | by apply scalar_ok].
  - destruct (_ && _); [by apply neon_ok | by apply scalar_ok].
  - by apply scalar_ok.
Qed.

Lemma kernel_error v1 v2 score : (N.of_nat (length v1) < 2 ^ 20)%N -> kernel_ok v1 v2 score -> is_finite score = true ->
  Rabs (r32 score - dot (r32 <$> v1) (r32 <$> v2))
  <= (INR (length v1) + 8) / 8388608 * absdot (r32 <$> v1) (r32 <$> v2) + nonzero_products v1 v2 * runit binary32.
Proof.
  intros Hn (_ & _ & Ha & H) Hfin. specialize (H Hfin). rewrite <- pdot_dot, <- pabs_absdot. apply Rle_trans with (1 := H).
  pose proof (nonzero_range v1 v2) as Hk. fold (nonzero_products v1 v2) in *. set (d := (length v1 + 8)%nat) in *.
  assert (Hd : INR d = INR (length v1) + 8) by (unfold d; rewrite plus_INR; f_equal; simpl; lra).
  assert (Hn' : INR (length v1) <= 1048576). { rewrite INR_IZR_INZ. apply IZR_le. lia. } pose proof (pos_INR (length v1)) as Hn0.
  pose proof (pow_linear d) as Hp. rewrite u32_value in Hp. specialize (Hp ltac:(lra)). rewrite <- u32_value in Hp.
  pose proof (pow_ge_1 d) as Hp1. set (p := (1 + u32) ^ d) in *. clearbody p. rewrite Hd, u32_value in Hp.
  pose proof (Rabs_pos (pdot v1 v2)). assert (HA : (p - 1) * pabs v1 v2 <= (INR (length v1) + 8) / 8388608 * pabs v1 v2) by (apply Rmult_le_compat_r; lra).
  pose proof (runit_pos binary32) as Hr. unfold h32.
  assert (p * nonzero_products v1 v2 * (runit binary32 / 2) <= 2 * nonzero_products v1 v2 * (runit binary32 / 2)) by (apply Rmult_le_compat_r; [lra | apply Rmult_le_compat_r; lra]).
  lra.
Qed.

(** [C00] Whatever the processor, a finite score of two vectors of [n < 2^20]
    finite coordinates differs from their exact inner product by at most
    [(n + 8) * 2^-23] times the sum of the absolute products, plus [2^-149] for
    every product that is not zero. *)
Theorem dot_product_similarity_error arch cpu v1 v2 :
  Forall fin32 v1 -> Forall fin32 v2 -> length v1 = length v2 -> (N.of_nat (length v1) < 2 ^ 20)%N ->
  let score := dot_product_similarity arch cpu v1 v2 in is_finite score = true ->
  Rabs (r32 score - dot (r32 <$> v1) (r32 <$> v2))
  <= (INR (length v1) + 8) / 8388608 * absdot (r32 <$> v1) (r32 <$> v2) + nonzero_products v1 v2 * runit binary32.
Proof. intros F1 F2 Hl Hn score Hfin. apply kernel_error; [done | by apply similarity_ok | done]. Qed.

(** ** Examples *)

Definition sample_left : list float := of_Z binary32 <$> [3; -5; 1]%Z.
Definition sample_right : list float := of_Z binary32 <$> [2; 7; 0]%Z.
Definition no_features : SpaceFeatures := {| has_avx := false; has_fma := false; has_sse := false; has_neon := false |}.

Lemma dot_product_similarity_error_witness :
  Rabs (r32 (dot_product_similarity X86_64 no_features sample_left sample_right) - dot (r32 <$> sample_left) (r32 <$> sample_right))
  <= (INR 3 + 8) / 8388608 * absdot (r32 <$> sample_left) (r32 <$> sample_right) + nonzero_products sample_left sample_right * runit binary32.
Proof.
  apply (dot_product_similarity_error X86_64 no_features sample_left sample_right);
    [apply (fin_check_ok binary32); by vm_compute | apply (fin_check_ok binary32); by vm_compute | done | done | by vm_compute].
Defined.
