(* ===== verification/ScalarRows.v ===== *)
(** * Per-vector scalar quantization: rows and bounds

    lib/quantization/src/per_vector_scalar/{mod,format,bounds}.rs.  A vector of
    [f32] coordinates is stored as signed 8-bit codes times one scale, with
    upper bounds of the norms of the original, of its reconstruction and of the
    residual.  The bounds are computed in [f64], every operation followed by a
    step upwards.

    The file proves that the three norms are upper bounds of the exact ones,
    for every finite vector; that the residual is computed without rounding;
    and that a row is read back as it was written. *)

From S2P Require Import Prelude Float FloatBits FloatReal RealSums MachineInt.
From Stdlib Require Import Reals Lra.

(** ** Errors *)

Inductive PerVectorScalarError : Type :=
  | InvalidQuery | InvalidRow | NonFinite | UnsupportedDistance | Overflow.

(** [Result<A, PerVectorScalarError>] *)
Abbreviation pvs A := (A + PerVectorScalarError)%type.

Notation "'let!' x := m 'in' k" :=
  (match m with inl x => k | inr e => inr e end)
  (at level 200, x pattern, m at level 100, k at level 200).

(** ** Casts *)

(** [x.round()], half-way cases away from zero. *)
Definition f64_round (x : float) : float :=
  match x with
  | Fin s m => let u := (2 ^ 1074)%Z in Fin s ((2 * m + u) / (2 * u) * u)
  | _ => x
  end.

(** [x.clamp(lo, hi)] *)
Definition f64_clamp (x lo hi : float) : float :=
  let x := if flt x lo then lo else x in if flt hi x then hi else x.

(** [x as i8] *)
Definition f64_as_i8 (x : float) : Z :=
  match x with
  | NaN => 0
  | Inf s => if s then -128 else 127
  | Fin s m => Z.max (-128) (Z.min 127 (signed s (m / 2 ^ 1074)))
  end%Z.

(** [code as u8] and back. *)
Definition i8_as_u8 (c : Z) : N := Z.to_N (c mod 256).
Definition u8_as_i8 (b : N) : Z := if (b <? 128)%N then Z.of_N b else (Z.of_N b - 256)%Z.

(** ** Directed arithmetic *)

Definition add_up (left right : float) : float :=
  if feq left fzero then right else if feq right fzero then left else next_up binary64 (left + right)%f64.

Definition mul_up (left right : float) : float :=
  if feq left fzero || feq right fzero then fzero else next_up binary64 (left * right)%f64.

Definition sqrt_up (value : float) : float :=
  if feq value fzero then fzero else next_up binary64 (fsqrt binary64 value).

Definition f32_upper (value : float) : pvs float :=
  if negb (is_finite value) || flt value fzero then inr NonFinite
  else
    let rounded := f32_of_f64 value in
    if negb (is_finite rounded) then inr NonFinite
    else inl (if flt (f64_of_f32 rounded) value then next_up binary32 rounded else rounded).

(** ** Rows *)

Record PerVectorScalarRowStats : Type := mkRowStats {
  scale : float;
  original_norm_upper : float;
  reconstructed_norm_upper : float;
  residual_norm_upper : float;
}.

Record EncodedQueryPerVectorScalar : Type := mkEncodedQuery {
  q_scale : float;
  q_codes : list Z;
  q_original_norm_upper : float;
  q_reconstructed_norm_upper : float;
  q_residual_norm_upper : float;
}.

Definition HEADER_BYTES : nat := 16.
Definition ALIGNMENT : nat := 16.
Definition MAX_CODE : float := of_Z binary64 127.

Definition aligned_dimension (dimension : nat) : nat :=
  dimension + (ALIGNMENT - dimension mod ALIGNMENT) mod ALIGNMENT.

Definition max_abs (vector : list float) : float :=
  fold_left (fun acc value => fmax acc (fabs value)) vector fzero.

Definition scale_for (vector : list float) : float :=
  let max_abs := max_abs vector in
  if feq max_abs fzero then of_Z binary32 1
  else
    let candidate := f32_of_f64 (f64_of_f32 max_abs / MAX_CODE)%f64 in
    if feq candidate fzero then f32_from_bits 1 else candidate.

Definition code_of (scale value : float) : Z :=
  f64_as_i8 (f64_clamp (f64_round (f64_of_f32 value / f64_of_f32 scale)%f64) (fneg MAX_CODE) MAX_CODE).

(** [Vec::resize] *)
Definition resize_codes (codes : list Z) (n : nat) : list Z := take n codes ++ replicate (n - length codes) 0%Z.

(** The loop over the coordinates: the three sums of squares. *)
Definition add_squares (scale : float) (sums : float * float * float) (coordinate : float * Z)
    : float * float * float :=
  let '(original_squared, reconstructed_squared, residual_squared) := sums in
  let '(value, code) := coordinate in
  let original := f64_of_f32 value in
  let reconstructed := (of_Z binary64 code * f64_of_f32 scale)%f64 in
  let residual := (original - reconstructed)%f64 in
  (add_up original_squared (mul_up (fabs original) (fabs original)),
   add_up reconstructed_squared (mul_up (fabs reconstructed) (fabs reconstructed)),
   add_up residual_squared (mul_up (fabs residual) (fabs residual))).

Definition encode_coordinates (vector : list float) (actual_dimension : nat)
    : pvs (float * list Z * PerVectorScalarRowStats) :=
  let scale := scale_for vector in
  if negb (is_finite scale) || fle scale fzero then inr NonFinite
  else
    let codes := resize_codes (code_of scale <$> vector) actual_dimension in
    let '(original_squared, reconstructed_squared, residual_squared) :=
      fold_left (add_squares scale) (zip vector codes) (fzero, fzero, fzero) in
    let! original := f32_upper (sqrt_up original_squared) in
    let! reconstructed := f32_upper (sqrt_up reconstructed_squared) in
    let! residual := f32_upper (sqrt_up residual_squared) in
    inl (scale, codes,
         {| scale := scale; original_norm_upper := original; reconstructed_norm_upper := reconstructed;
            residual_norm_upper := residual |}).

Definition f32_le_bytes (x : float) : list N := to_le_bytes 4 (f32_to_bits x).

Definition encode_row (vector : list float) (dimension actual_dimension : nat) : pvs (list N) :=
  if negb (length vector =? dimension) || existsb (fun value => negb (is_finite value)) vector then inr NonFinite
  else
    let! (scale, codes, stats) := encode_coordinates vector actual_dimension in
    inl (f32_le_bytes scale ++ f32_le_bytes (original_norm_upper stats)
         ++ f32_le_bytes (reconstructed_norm_upper stats) ++ f32_le_bytes (residual_norm_upper stats)
         ++ (i8_as_u8 <$> codes)).

Definition encode_query (query : list float) (actual_dimension : nat) : pvs EncodedQueryPerVectorScalar :=
  let! (scale, codes, stats) := encode_coordinates query actual_dimension in
  inl {| q_scale := scale; q_codes := codes;
         q_original_norm_upper := f64_of_f32 (original_norm_upper stats);
         q_reconstructed_norm_upper := f64_of_f32 (reconstructed_norm_upper stats);
         q_residual_norm_upper := f64_of_f32 (residual_norm_upper stats) |}.

(** [parse_validated_row] of a row of [row_bytes] bytes. *)
Definition header_word (row : list N) (i : nat) : float := f32_from_bits (from_le_bytes (take 4 (drop (4 * i) row))).

Definition parse_validated_row (row : list N) (row_bytes : nat) : pvs (PerVectorScalarRowStats * list Z) :=
  if negb (length row =? row_bytes) then inr InvalidRow
  else
    inl ({| scale := header_word row 0; original_norm_upper := header_word row 1;
            reconstructed_norm_upper := header_word row 2; residual_norm_upper := header_word row 3 |},
         u8_as_i8 <$> drop HEADER_BYTES row).

Definition parse_row (row : list N) (row_bytes : nat) : pvs (PerVectorScalarRowStats * list Z) :=
  let! (stats, codes) := parse_validated_row row row_bytes in
  if negb (is_finite (scale stats)) || fle (scale stats) fzero
     || existsb (fun value => negb (is_finite value) || flt value fzero)
          [original_norm_upper stats; reconstructed_norm_upper stats; residual_norm_upper stats]
  then inr InvalidRow
  else inl (stats, codes).

(** ** Constants of the formats *)

Local Open Scope R_scope.

Local Abbreviation r32 := (rv binary32).
Local Abbreviation r64 := (rv binary64).
Local Abbreviation fin32 := (fin binary32).
Local Abbreviation fin64 := (fin binary64).

Lemma u32_small : 0 < u_round binary32 <= 1 / 1000.
Proof.
  unfold u_round. simpl prec. change (2 ^ 24)%Z with 16777216%Z. split; [apply Rinv_0_lt_compat; lra |].
  apply Rmult_le_reg_r with 16777216; [lra |]. rewrite Rinv_l by lra. lra.
Qed.

Lemma u64_small : 0 < u_round binary64 <= / 1000000000000.
Proof.
  unfold u_round. simpl prec. split; [apply Rinv_0_lt_compat, IZR_pow2; lia |].
  apply Rinv_le_contravar; [lra |]. apply IZR_le. vm_compute. discriminate.
Qed.

Lemma runit64_eq : runit binary64 = / IZR (2 ^ 925) * runit binary32.
Proof.
  unfold runit. rewrite <- Rinv_mult, <- mult_IZR. do 2 f_equal.
Qed.

Lemma runit64_small : 0 < runit binary64 <= runit binary32 / 1000.
Proof.
  split; [apply (runit_pos binary64) |]. rewrite runit64_eq. pose proof (runit_pos binary32).
  assert (H1 : 1000 <= IZR (2 ^ 925)) by (apply IZR_le; vm_compute; discriminate).
  assert (/ IZR (2 ^ 925) <= / 1000) by (apply Rinv_le_contravar; lra). nra.
Qed.

(** *** The scale *)

Lemma fmax_real (f : format) `{!Format_ok f} x y : fin f x -> fin f y ->
  fin f (fmax x y) /\ rv f x <= rv f (fmax x y) /\ rv f y <= rv f (fmax x y).
Proof.
  intros [Wx Fx] [Wy Fy]. assert (E : fmax x y = if flt x y then y else x) by by destruct x, y.
  rewrite E. pose proof (flt_rv f x y Fx Fy) as H1. pose proof (flt_rv_false f x y Fx Fy) as H2.
  destruct (flt x y); [destruct H1 as [H1 _]; specialize (H1 eq_refl) | destruct H2 as [H2 _]; specialize (H2 eq_refl)].
  - split_and!; [done | lra | lra].
  - split_and!; [done | lra | lra].
Qed.

Lemma max_abs_spec vector : Forall fin32 vector ->
  fin32 (max_abs vector) /\ 0 <= r32 (max_abs vector) /\ forall x, x ∈ vector -> Rabs (r32 x) <= r32 (max_abs vector).
Proof.
  intros Hv. unfold max_abs.
  assert (Hgen : forall acc, fin32 acc -> 0 <= r32 acc ->
    let m := fold_left (fun acc value => fmax acc (fabs value)) vector acc in
    fin32 m /\ r32 acc <= r32 m /\ forall x, x ∈ vector -> Rabs (r32 x) <= r32 m).
  { induction Hv as [|x l Hx Hl IH]; intros acc Ha H0; simpl.
    { split_and!; [done | lra |]. intros x Hx%elem_of_nil. done. }
    destruct (fmax_real binary32 acc (fabs x) Ha (fin_fabs _ x Hx)) as (F1 & F2 & F3).
    destruct (IH (fmax acc (fabs x)) F1 ltac:(lra)) as (G1 & G2 & G3). split_and!; [done | lra |].
    intros z [->|Hz]%elem_of_cons; [|by apply G3]. rewrite <- (rv_fabs binary32) by done. lra. }
  destruct (Hgen fzero) as (H1 & H2 & H3).
  - split; [by apply (wf_zero binary32) | done].
  - unfold rv. simpl. lra.
  - unfold rv in H2 at 1. simpl in H2. split_and!; [done | lra | done].
Qed.

Lemma fin_range (f : format) `{!Format_ok f} x : fin f x -> Rabs (rv f x) <= 2 * half_range f.
Proof.
  intros [Hw Hx]. destruct x as [| |s m]; [done..|]. destruct Hw as [[H0 Hl] _]. unfold rv. rewrite (Rabs_rv f).
  unfold half_range. rewrite <- Rmult_assoc. apply Rmult_le_compat_r; [left; apply (runit_pos f) |].
  rewrite <- mult_IZR. apply IZR_le. unfold limit in Hl. pose proof (emin_neg (f := f)). pose proof (emax_big (f := f)). pose proof (prec_pos (f := f)).
  rewrite <- Z.pow_succ_r by lia. replace (Z.succ (emax f - emin f - 1))%Z with (emax f - emin f)%Z by lia.
  destruct s; simpl; lia.
Qed.

Lemma half_range_eq (f : format) `{!Format_ok f} : half_range f = IZR (2 ^ (emax f - 1)).
Proof.
  unfold half_range, runit. pose proof (emin_neg (f := f)). pose proof (emax_big (f := f)). pose proof (prec_pos (f := f)).
  replace (emax f - emin f - 1)%Z with (emax f - 1 + - emin f)%Z by lia. rewrite Z.pow_add_r, mult_IZR by lia.
  assert (0 < IZR (2 ^ (- emin f))) by (apply IZR_pow2; lia). by rewrite Rmult_assoc, Rinv_r, Rmult_1_r by lra.
Qed.

Lemma half_range64_large : 2 ^ 900 <= half_range binary64.
Proof. rewrite (half_range_eq binary64), pow_IZR. apply IZR_le. vm_compute. discriminate. Qed.

Lemma half_range32_small : half_range binary32 = 2 ^ 127.
Proof. rewrite (half_range_eq binary32). by rewrite pow_IZR. Qed.

Lemma pow_large : 1000 * 2 ^ 128 <= 2 ^ 900.
Proof. rewrite !pow_IZR, <- mult_IZR. apply IZR_le. vm_compute. discriminate. Qed.

Lemma max_code : fin64 MAX_CODE /\ r64 MAX_CODE = 127.
Proof.
  apply (of_Z_exact binary64); [vm_compute; discriminate |]. pose proof half_range64_large. pose proof pow_large.
  assert (1 <= 2 ^ 128) by (rewrite pow_IZR; apply IZR_le; vm_compute; discriminate). change (IZR (Z.abs 127)) with 127. set (a := 2 ^ 900) in *. set (b := 2 ^ 128) in *. lra.
Qed.

(** Every [f32] is far inside the range of [f64]. *)
Lemma f32_range x : fin32 x -> Rabs (r32 x) <= 2 ^ 128.
Proof.
  intros Hx. pose proof (fin_range binary32 x Hx) as H. rewrite half_range32_small in H.
  replace (2 ^ 128) with (2 * 2 ^ 127) by by rewrite <- tech_pow_Rmult. done.
Qed.

Lemma val_ge_one x : is_finite x = true -> 0 < r32 x -> runit binary32 <= r32 x.
Proof.
  unfold rv. pose proof (runit_pos binary32) as Hu. intros _ Hp.
  assert (0 < val x)%Z by (apply lt_IZR; apply Rmult_lt_reg_r with (runit binary32); lra).
  assert (H1 : 1 <= IZR (val x)) by (apply IZR_le; lia). nra.
Qed.

Lemma fle_zero_false x : is_finite x = true -> fle x fzero = false -> 0 < r32 x.
Proof.
  intros Hx Hf. assert (Hlt : flt fzero x = true).
  { unfold fle, flt in *. rewrite (finite_compare x fzero) in Hf by done. rewrite (finite_compare fzero x) by done.
    destruct (Z.compare_spec (val x) (val fzero)); try done. by rewrite (proj2 (Z.compare_lt_iff _ _)) by lia. }
  apply (flt_rv binary32) in Hlt; [|done | done]. unfold rv in Hlt at 1. simpl in Hlt. lra.
Qed.

(** The largest coordinate is at most 256 times the scale. *)
Lemma scale_spec vector : Forall fin32 vector -> is_finite (scale_for vector) = true -> fle (scale_for vector) fzero = false ->
  fin32 (scale_for vector) /\ 0 < r32 (scale_for vector) /\
  forall x, x ∈ vector -> Rabs (r32 x) <= 256 * r32 (scale_for vector).
Proof.
  intros Hv Hfin Hpos. apply fle_zero_false in Hpos as Hp; [|done].
  destruct (max_abs_spec vector Hv) as (Fm & M0 & Hmax). unfold scale_for in *. set (M := max_abs vector) in *.
  destruct (feq M fzero) eqn:Ez.
  { apply (feq_zero binary32) in Ez; [|done]. split_and!; [|done |].
    - split; [apply (of_Z_wf binary32) | done].
    - intros x Hx. specialize (Hmax x Hx). pose proof (Rabs_pos (r32 x)). lra. }
  destruct max_code as [F127 E127]. pose proof (f32_range M Fm) as HM. rewrite Rabs_pos_eq in HM by done.
  pose proof u64_small. pose proof u32_small. pose proof runit64_small. pose proof half_range64_large. pose proof pow_large.
  destruct (fdiv_real binary64 (f64_of_f32 M) MAX_CODE) as [Ft Bt]; [by apply fin_f64 | done | lra | |].
  { rewrite rv_f64, E127. rewrite Rabs_pos_eq by lra. set (a := 2 ^ 900) in *. set (b := 2 ^ 128) in *. lra. }
  rewrite rv_f64, E127, (Rabs_pos_eq (r32 M / 127)) in Bt by lra. apply Rabs_le_inv in Bt.
  set (t := (f64_of_f32 M / MAX_CODE)%f64) in *.
  assert (HMt : r32 M <= 128 * r64 t + runit binary32).
  { assert (u_round binary64 * (r32 M / 127) <= / 1000000000000 * (r32 M / 127)) by (apply Rmult_le_compat_r; lra). lra. }
  assert (Ht : Rabs (r64 t) <= half_range binary32).
  { rewrite half_range32_small. assert (E2 : 2 ^ 128 = 2 * 2 ^ 127) by by rewrite <- tech_pow_Rmult.
    assert (1 <= 2 ^ 127) by (rewrite pow_IZR; apply IZR_le; vm_compute; discriminate).
    assert (Hr1 : runit binary32 <= 1).
    { unfold runit. replace 1 with (/ 1) by lra. apply Rinv_le_contravar; [lra | apply IZR_le; vm_compute; discriminate]. }
    assert (u_round binary64 * (r32 M / 127) <= / 1000000000000 * (r32 M / 127)) by (apply Rmult_le_compat_r; lra).
    apply Rabs_le. set (a := 2 ^ 127) in *. set (b := 2 ^ 128) in *. lra. }
  destruct (f32_of_f64_real t Ft Ht) as [Fc Bc]. apply Rabs_le_inv in Bc.
  assert (Hat : Rabs (r64 t) <= r64 t + runit binary32 / 1000) by (apply Rabs_le; assert (u_round binary64 * (r32 M / 127) <= / 1000000000000 * (r32 M / 127)) by (apply Rmult_le_compat_r; lra); lra).
  set (c := f32_of_f64 t) in *.
  assert (Hut : u_round binary32 * Rabs (r64 t) <= 1 / 1000 * Rabs (r64 t)) by (apply Rmult_le_compat_r; [apply Rabs_pos | lra]).
  destruct (feq c fzero) eqn:Ec.
  - apply (feq_zero binary32) in Ec; [|done]. change (f32_from_bits 1) with (Fin false 1) in *.
    assert (E1 : r32 (Fin false 1) = runit binary32) by (unfold rv; simpl; lra). rewrite E1 in *.
    split_and!; [split; [by split; vm_compute | done] | lra |]. intros x Hx. specialize (Hmax x Hx). lra.
  - pose proof (val_ge_one c Hfin Hp). split_and!; [done | done |]. intros x Hx. specialize (Hmax x Hx). lra.
Qed.

(** *** Codes *)

(** A finite quotient of [m] units gives the nearest code. *)
Lemma code_of_quotient sg m : (0 <= m)%Z ->
  f64_as_i8 (f64_clamp (f64_round (Fin sg m)) (fneg MAX_CODE) MAX_CODE) =
  signed sg (Z.min ((2 * m + 2 ^ 1074) / (2 * 2 ^ 1074)) 127).
Proof.
  intros Hm. assert (EM : MAX_CODE = Fin false (127 * 2 ^ 1074)) by (vm_compute; reflexivity). rewrite EM.
  assert (Hu : (0 < 2 ^ 1074)%Z) by (apply Z.pow_pos_nonneg; lia). unfold f64_round. cbv zeta.
  set (U := (2 ^ 1074)%Z) in *. set (k := ((2 * m + U) / (2 * U))%Z). assert (Hk : (0 <= k)%Z) by (apply Z.div_pos; lia).
  unfold f64_clamp. cbn [fneg negb].
  destruct sg.
  - rewrite (finite_lt (Fin true (k * U)) (Fin true (127 * U))) by done. cbn [val signed].
    destruct (Z.ltb_spec (- (k * U)) (- (127 * U))).
    + rewrite finite_lt by done. cbn [val signed]. rewrite (proj2 (Z.ltb_ge _ _)) by lia. cbn [f64_as_i8 signed].
      fold U. rewrite Z.div_mul by lia. assert (127 < k)%Z by nia. lia.
    + rewrite finite_lt by done. cbn [val signed]. rewrite (proj2 (Z.ltb_ge _ _)) by nia. cbn [f64_as_i8 signed].
      fold U. rewrite Z.div_mul by lia. assert (k <= 127)%Z by nia. lia.
  - rewrite (finite_lt (Fin false (k * U)) (Fin true (127 * U))) by done. cbn [val signed].
    rewrite (proj2 (Z.ltb_ge (k * U) (- (127 * U)))) by nia.
    rewrite finite_lt by done. cbn [val signed]. destruct (Z.ltb_spec (127 * U) (k * U)).
    + cbn [f64_as_i8 signed]. fold U. rewrite Z.div_mul by lia. assert (127 < k)%Z by nia. lia.
    + cbn [f64_as_i8 signed]. fold U. rewrite Z.div_mul by lia. assert (k <= 127)%Z by nia. lia.
Qed.

(** A code is in range, and zero when the value is below a quarter of the scale. *)
Lemma code_spec sc x : fin32 sc -> 0 < r32 sc -> fin32 x -> Rabs (r32 x) <= 256 * r32 sc ->
  (Z.abs (code_of sc x) <= 127)%Z /\ (code_of sc x <> 0%Z -> r32 sc <= 4 * Rabs (r32 x)).
Proof.
  intros Fs Hs Fx Hx. pose proof u64_small. pose proof runit64_small. pose proof half_range64_large. pose proof pow_large.
  assert (Hq : Rabs (r32 x / r32 sc) = Rabs (r32 x) / r32 sc).
  { unfold Rdiv. rewrite Rabs_mult, (Rabs_pos_eq (/ r32 sc)); [done | left; by apply Rinv_0_lt_compat]. }
  assert (Hq2 : Rabs (r32 x) / r32 sc <= 256).
  { apply Rmult_le_reg_r with (r32 sc); [done |]. unfold Rdiv. rewrite Rmult_assoc, Rinv_l, Rmult_1_r by lra. lra. }
  pose proof (Rabs_pos (r32 x)). assert (Hq0 : 0 <= Rabs (r32 x) / r32 sc).
  { apply Rmult_le_pos; [done | left; by apply Rinv_0_lt_compat]. }
  destruct (fdiv_real binary64 (f64_of_f32 x) (f64_of_f32 sc)) as [[Wd Fd] Bd]; [by apply fin_f64.. | rewrite rv_f64; lra | |].
  { rewrite !rv_f64, Hq. assert (1 <= 2 ^ 128) by (rewrite pow_IZR; apply IZR_le; vm_compute; discriminate).
    set (a := 2 ^ 900) in *. set (b := 2 ^ 128) in *. lra. }
  rewrite !rv_f64, Hq in Bd. unfold code_of. destruct (f64_of_f32 x / f64_of_f32 sc)%f64 as [| |sg m] eqn:Ed; [done..|].
  destruct Wd as [[Hm _] _]. rewrite code_of_quotient by done.
  assert (Hu : (0 < 2 ^ 1074)%Z) by (apply Z.pow_pos_nonneg; lia). set (U := (2 ^ 1074)%Z) in *.
  assert (Hk : (0 <= (2 * m + U) / (2 * U))%Z) by (apply Z.div_pos; lia). split; [destruct sg; simpl; lia |].
  intros Hc. assert (Hhalf : (U <= 2 * m)%Z).
  { apply Z.nlt_ge. intros Hlt. apply Hc. rewrite Z.div_small by lia. by destruct sg. }
  assert (Hd : / 2 <= Rabs (r64 (Fin sg m))).
  { unfold rv. rewrite (Rabs_rv binary64). cbn [val]. replace (Z.abs (signed sg m)) with m by (destruct sg; simpl; lia).
    assert (E : runit binary64 = / IZR U) by reflexivity. rewrite E. apply IZR_le in Hhalf. rewrite mult_IZR in Hhalf. apply IZR_lt in Hu.
    apply Rmult_le_reg_r with (IZR U); [done |]. rewrite Rmult_assoc, Rinv_l by lra. lra. }
  assert (Hr1 : runit binary32 <= 1).
  { unfold runit. replace 1 with (/ 1) by lra. apply Rinv_le_contravar; [lra | apply IZR_le; vm_compute; discriminate]. }
  assert (Hquart : / 4 <= Rabs (r32 x) / r32 sc).
  { pose proof (Rabs_triang_inv (r64 (Fin sg m)) (r32 x / r32 sc)) as Ht. rewrite Hq in Ht.
    assert (u_round binary64 * (Rabs (r32 x) / r32 sc) <= / 1000000000000 * (Rabs (r32 x) / r32 sc)) by (apply Rmult_le_compat_r; lra).
    lra. }
  apply Rmult_le_compat_r with (r := r32 sc) in Hquart; [|lra]. unfold Rdiv in Hquart. rewrite Rmult_assoc, Rinv_l, Rmult_1_r in Hquart by lra. lra.
Qed.

(** *** The residual is exact *)

(** The difference of a coordinate and a multiple of the scale fits into 53 bits. *)
Lemma residual_fits a sc c : (0 <= a)%Z -> (0 < sc)%Z -> round_mag binary32 a 1 = a -> round_mag binary32 sc 1 = sc ->
  (Z.abs c <= 127)%Z -> (c <> 0 -> sc <= 4 * a)%Z -> (a <= 256 * sc)%Z ->
  forall s, exists k e, (Z.abs (signed s a - c * sc) = k * 2 ^ e /\ 0 <= k <= 2 ^ 53 /\ 0 <= e)%Z.
Proof.
  intros Ha Hsc Ra Rs Hc Hlow Hhigh s.
  destruct (significand binary32 a Ha Ra) as (ka & Ea & Hka & Na & _).
  destruct (significand binary32 sc ltac:(lia) Rs) as (ks & Es & Hks & Ns & _).
  pose proof (shift_of_nonneg binary32 a) as Hea. pose proof (shift_of_nonneg binary32 sc) as Hes.
  set (ea := shift_of binary32 a) in *. set (es := shift_of binary32 sc) in *. simpl prec in *. change (24 - 1)%Z with 23%Z in *.
  destruct (Z.eq_dec c 0) as [->|Hc0].
  { exists ka, ea. split_and!; try lia. destruct s; simpl; lia. }
  specialize (Hlow Hc0). assert (Pa : (0 < 2 ^ ea)%Z) by (apply Z.pow_pos_nonneg; lia). assert (Ps : (0 < 2 ^ es)%Z) by (apply Z.pow_pos_nonneg; lia).
  destruct (Z.le_gt_cases es ea) as [Hle|Hgt].
  - exists (Z.abs (signed s (ka * 2 ^ (ea - es)) - c * ks))%Z, es.
    assert (Ediff : (signed s a - c * sc = (signed s (ka * 2 ^ (ea - es)) - c * ks) * 2 ^ es)%Z).
    { rewrite Z.mul_sub_distr_r, <- (Z.mul_assoc c), <- Es. f_equal. rewrite Ea at 1.
      replace ea with (ea - es + es)%Z at 1 by lia. rewrite Z.pow_add_r by lia. destruct s; simpl; ring. }
    rewrite Ediff, Z.abs_mul, (Z.abs_eq (2 ^ es)) by lia. split_and!; [done | lia | | done].
    assert (Hka2 : (ka * 2 ^ (ea - es) <= 256 * ks)%Z).
    { apply (Z.mul_le_mono_pos_r _ _ (2 ^ es)); [done |]. rewrite <- !Z.mul_assoc, <- Es, <- Z.pow_add_r by lia.
      replace (ea - es + es)%Z with ea by lia. lia. }
    assert (0 <= ka * 2 ^ (ea - es))%Z by (apply Z.mul_nonneg_nonneg; [lia | apply Z.pow_nonneg; lia]).
    destruct s; simpl; nia.
  - assert (Hks23 : (2 ^ 23 <= ks)%Z) by (destruct Ns; [lia | done]).
    assert (Hgap : (es <= ea + 2)%Z).
    { apply Z.nlt_ge. intros Hlt. assert (2 ^ (ea + 3) <= 2 ^ es)%Z by (apply Z.pow_le_mono_r; lia).
      rewrite Z.pow_add_r in H by lia. change (2 ^ 3)%Z with 8%Z in H. change (2 ^ 24)%Z with (2 * 2 ^ 23)%Z in *. nia. }
    exists (Z.abs (signed s ka - c * (ks * 2 ^ (es - ea))))%Z, ea.
    assert (Ediff : (signed s a - c * sc = (signed s ka - c * (ks * 2 ^ (es - ea))) * 2 ^ ea)%Z).
    { rewrite Z.mul_sub_distr_r, <- !Z.mul_assoc, <- Z.pow_add_r by lia. replace (es - ea + ea)%Z with es by lia.
      rewrite <- Es. f_equal. rewrite Ea at 1. destruct s; simpl; ring. }
    rewrite Ediff, Z.abs_mul, (Z.abs_eq (2 ^ ea)) by lia. split_and!; [done | lia | | done].
    assert (2 ^ (es - ea) <= 4)%Z by (change 4%Z with (2 ^ 2)%Z; apply Z.pow_le_mono_r; lia).
    assert (0 < 2 ^ (es - ea))%Z by (apply Z.pow_pos_nonneg; lia). change (2 ^ 24)%Z with 16777216%Z in *. change (2 ^ 53)%Z with 9007199254740992%Z.
    assert (0 <= ks * 2 ^ (es - ea) <= 67108864)%Z by nia. destruct s; simpl; nia.
Qed.

(** [original - reconstructed], without rounding. *)
Lemma coordinate_exact sc x c : fin32 sc -> 0 < r32 sc -> fin32 x -> (Z.abs c <= 127)%Z ->
  (c <> 0%Z -> r32 sc <= 4 * Rabs (r32 x)) -> Rabs (r32 x) <= 256 * r32 sc ->
  let reconstructed := (of_Z binary64 c * f64_of_f32 sc)%f64 in
  let residual := (f64_of_f32 x - reconstructed)%f64 in
  fin64 reconstructed /\ r64 reconstructed = IZR c * r32 sc /\
  fin64 residual /\ r64 residual = r32 x - IZR c * r32 sc.
Proof.
  intros Fs Hs Fx Hc Hlow Hhigh reconstructed residual. pose proof (runit_pos binary32) as Hu.
  pose proof (fin_f64 sc Fs) as Fs64. pose proof (fin_f64 x Fx) as Fx64.
  destruct Fs as [Ws _]. destruct sc as [| |[] sc]; [by unfold rv in Hs; simpl in Hs; lra.. | |].
  { exfalso. destruct Ws as [[? _] _]. unfold rv in Hs. simpl in Hs. assert (IZR (- sc) <= 0) by (apply IZR_le; lia). nra. }
  destruct Fx as [Wx Fx]. destruct x as [| |s a]; [done..|]. destruct Ws as [[Hs0 Hsl] Hsr], Wx as [[Ha0 Hal] Har].
  assert (Hsc : (0 < sc)%Z) by (apply lt_IZR; unfold rv in Hs; simpl in Hs; apply Rmult_lt_reg_r with (runit binary32); lra).
  assert (Eabs : Rabs (r32 (Fin s a)) = IZR a * runit binary32).
  { unfold rv. rewrite (Rabs_rv binary32). cbn [val]. do 2 f_equal. destruct s; simpl; lia. }
  rewrite Eabs in Hlow, Hhigh. unfold rv in Hlow, Hhigh. cbn [val signed] in Hlow, Hhigh.
  assert (Hlow' : (c <> 0 -> sc <= 4 * a)%Z).
  { intros H0. apply le_IZR. rewrite mult_IZR. apply Rmult_le_reg_r with (runit binary32); [done |]. specialize (Hlow H0). lra. }
  assert (Hhigh' : (a <= 256 * sc)%Z).
  { apply le_IZR. rewrite mult_IZR. apply Rmult_le_reg_r with (runit binary32); [done |]. lra. }
  assert (Hof : fin64 (of_Z binary64 c) /\ val (of_Z binary64 c) = (c * 2 ^ (- emin binary64))%Z).
  { assert (Hr127 : IZR (Z.abs c) <= half_range binary64).
    { pose proof half_range64_large. pose proof pow_large. assert (1 <= 2 ^ 128) by (rewrite pow_IZR; apply IZR_le; vm_compute; discriminate).
      apply IZR_le in Hc. set (p := 2 ^ 900) in *. set (q := 2 ^ 128) in *. lra. }
    destruct (of_Z_exact binary64 c) as [F E]; [simpl prec; lia | done |]. split; [done |]. unfold rv, runit in E. apply eq_IZR. rewrite mult_IZR.
    assert (0 < IZR (2 ^ (- emin binary64))) by (apply IZR_pow2; simpl; lia). rewrite <- E. field. lra. }
  destruct Hof as [Fc Ec]. assert (Hdim : forall z, (Z.abs z <= 2 ^ 320)%Z -> (Z.abs (z * 2 ^ 925) < limit binary64)%Z).
  { intros z Hz. rewrite Z.abs_mul, (Z.abs_eq (2 ^ 925)) by (apply Z.pow_nonneg; lia). change (limit binary64) with (2 ^ 2098)%Z.
    apply Z.le_lt_trans with (2 ^ 320 * 2 ^ 925)%Z; [apply Z.mul_le_mono_nonneg_r; [apply Z.pow_nonneg; lia | done] |].
    rewrite <- Z.pow_add_r by lia. apply Z.pow_lt_mono_r; lia. }
  assert (Hscl : (sc < 2 ^ 277)%Z) by exact Hsl. assert (Hal' : (a < 2 ^ 277)%Z) by exact Hal.
  assert (Hbig : (2 ^ 277 * 1024 <= 2 ^ 320)%Z) by (vm_compute; discriminate).
  assert (Hmul : fin64 reconstructed /\ val reconstructed = (c * sc * 2 ^ 925)%Z).
  { apply (fmul_exact binary64); [done | done | | | ].
    - rewrite Ec, val_f64. change f64_unit with (2 ^ 925)%Z. simpl val. ring.
    - apply Hdim. nia.
    - destruct (significand binary32 sc Hs0 Hsr) as (ks & Es & Hks & _ & _). rewrite Es at 1 2. pose proof (shift_of_nonneg binary32 sc).
      set (es := shift_of binary32 sc) in *. simpl prec in Hks. assert (0 < 2 ^ es)%Z by (apply Z.pow_pos_nonneg; lia).
      replace (Z.abs (c * (ks * 2 ^ es) * 2 ^ 925)) with (Z.abs c * ks * 2 ^ (es + 925))%Z.
      + apply (round_mag_fits binary64); [|lia]. simpl prec. change (2 ^ 24)%Z with 16777216%Z in *. change (2 ^ 53)%Z with 9007199254740992%Z. nia.
      + rewrite Z.pow_add_r by lia. rewrite !Z.abs_mul, (Z.abs_eq ks), (Z.abs_eq (2 ^ es)), (Z.abs_eq (2 ^ 925)) by (lia || apply Z.pow_nonneg; lia). ring. }
  destruct Hmul as [Fr Er]. destruct (residual_fits a sc c Ha0 Hsc Har Hsr Hc Hlow' Hhigh' s) as (k & e & Ek & Hk & He).
  assert (Hsub : fin64 residual /\ val residual = ((signed s a - c * sc) * 2 ^ 925)%Z).
  { apply (fsub_exact binary64); [done | done | | |].
    - rewrite Er, val_f64. change f64_unit with (2 ^ 925)%Z. simpl val. ring.
    - apply Hdim. destruct s; simpl; nia.
    - rewrite Z.abs_mul, (Z.abs_eq (2 ^ 925)), Ek, <- Z.mul_assoc, <- Z.pow_add_r by (lia || apply Z.pow_nonneg; lia).
      apply (round_mag_fits binary64); simpl prec; lia. }
  destruct Hsub as [Fd Ed]. assert (Eu : IZR (2 ^ 925) * runit binary64 = runit binary32).
  { rewrite runit64_eq. field. apply not_0_IZR, Z.pow_nonzero; lia. }
  split_and!; [done | | done |].
  - unfold rv. rewrite Er. cbn [val signed]. rewrite !mult_IZR, !Rmult_assoc, Eu. ring.
  - unfold rv. rewrite Ed. cbn [val signed]. rewrite mult_IZR, minus_IZR, mult_IZR, Rmult_assoc, Eu. ring.
Qed.

(** *** Sums rounded upwards *)

Local Abbreviation upper64 := (upper binary64).

Lemma rv_zero (f : format) : rv f fzero = 0.
Proof. apply Rmult_0_l. Qed.

Lemma upper_zero r : r <= 0 -> upper64 fzero r.
Proof. intros Hr. split; [by apply (wf_zero binary64) |]. unfold rv. simpl. lra. Qed.

Lemma upper_feq_zero x r : upper64 x r -> feq x fzero = true -> r <= 0.
Proof.
  intros Hx E. destruct x as [|[]|[] m]; try done. destruct Hx as [Hw Hr]. apply (feq_zero binary64) in E; [lra |]. by split.
Qed.

Lemma add_up_upper x y a b : upper64 x a -> upper64 y b -> upper64 (add_up x y) (a + b).
Proof.
  intros Hx Hy. unfold add_up. destruct (feq x fzero) eqn:Ex.
  { apply upper_feq_zero with (r := a) in Ex; [|done]. apply (upper_le binary64 y b); [done | lra]. }
  destruct (feq y fzero) eqn:Ey.
  { apply upper_feq_zero with (r := b) in Ey; [|done]. apply (upper_le binary64 x a); [done | lra]. }
  by apply (fadd_up binary64).
Qed.

Lemma mul_up_square x : fin64 x -> upper64 (mul_up (fabs x) (fabs x)) (r64 x * r64 x).
Proof.
  intros Hx. pose proof (upper_fabs binary64 x Hx) as Hu. pose proof (fin_fabs binary64 x Hx) as [_ Hf].
  assert (E : r64 x * r64 x = Rabs (r64 x) * Rabs (r64 x)) by (rewrite <- Rabs_mult, Rabs_pos_eq by nra; done).
  unfold mul_up. destruct (feq (fabs x) fzero) eqn:Ez; simpl.
  - apply upper_feq_zero with (r := Rabs (r64 x)) in Ez; [|done]. pose proof (Rabs_pos (r64 x)). apply upper_zero. rewrite E. nra.
  - rewrite E. apply (fmul_up binary64); auto using Rabs_pos.
Qed.

(** A bound, rounded upwards to [f32]. *)
Lemma f32_upper_spec value a r : upper64 value a -> f32_upper value = inl r -> upper binary32 r a.
Proof.
  intros Hv E. unfold f32_upper in E. destruct value as [|[]|[] m]; try done. destruct Hv as [Wv Hv]. cbn [is_finite negb orb] in E.
  destruct (flt (Fin false m) fzero); [done |]. destruct Wv as [[Hm _] _].
  assert (Hpos : (0 < 2 ^ (emin binary32 - emin binary64))%Z) by (apply Z.pow_pos_nonneg; simpl; lia).
  pose proof (fin_round_wf binary32 false m _ Hm Hpos) as Wr. pose proof (round_up_upper binary32 m _ Hm Hpos) as Hup.
  rewrite (rv_f64_units false m) in Hv. cbn [signed] in Hv. unfold f32_of_f64 in E.
  destruct (fin_round binary32 false m _) as [|[]|sg m'] eqn:Er; [done..|]. cbn [is_finite negb] in E. apply (inj inl) in E as <-.
  destruct (flt (f64_of_f32 (Fin sg m')) (Fin false m)) eqn:Elt; [by apply (upper_le binary32) with (2 := Hv) |].
  apply (flt_rv_false binary64) in Elt; [|done | done]. rewrite rv_f64, (rv_f64_units false m) in Elt. cbn [signed] in Elt.
  assert (sg = false) as -> by (unfold fin_round in Er; destruct (_ <? _)%Z; congruence). split; [done | lra].
Qed.

Lemma sqrt_up_upper value a : upper64 value a -> 0 <= a -> exists b, upper64 (sqrt_up value) b /\ 0 <= b /\ a <= b * b.
Proof.
  intros Hv Ha. unfold sqrt_up. destruct (feq value fzero) eqn:Ez.
  { apply upper_feq_zero with (r := a) in Ez; [|done]. exists 0. split_and!; [by apply upper_zero; lra | lra | lra]. }
  destruct (is_finite value) eqn:Ef.
  - destruct (upper_finite binary64 value a Hv Ef) as (F1 & F2 & F3).
    assert (Hself : upper64 value (r64 value)) by (destruct value as [|[]|[] m]; try done; split; [apply F1 | lra]).
    destruct (fsqrt_up binary64 value F1 F3 Hself ltac:(simpl; lia)) as (G1 & G2 & G3 & _).
    exists (r64 (next_up binary64 (fsqrt binary64 value))). split; [done |].
    destruct (upper_finite binary64 _ _ G1 G2) as (_ & _ & G4). split; [done | lra].
  - exists (a + 1). split_and!; [by destruct value as [|[]|] | lra | nra].
Qed.

Lemma norm_upper_spec value a r : upper64 value a -> 0 <= a -> f32_upper (sqrt_up value) = inl r ->
  wf binary32 r /\ (is_finite r = true -> fin32 r /\ 0 <= r32 r /\ a <= r32 r * r32 r).
Proof.
  intros Hv Ha E. destruct (sqrt_up_upper value a Hv Ha) as (b & Hb & Hb0 & Hab).
  pose proof (f32_upper_spec _ b r Hb E) as Hr. split; [by destruct r as [|[]|[] m]; try done; apply Hr |].
  intros Hf. destruct (upper_finite binary32 r b Hr Hf) as (F1 & F2 & F3). split_and!; [done | done | nra].
Qed.

(** ** The norms of a row *)

(** The exact reconstruction. *)
Definition reconstruction (sc : float) (codes : list Z) : list R := (fun c => IZR c * r32 sc) <$> codes.

Lemma add_squares_step sc x s1 s2 s3 a1 a2 a3 : fin32 sc -> 0 < r32 sc -> fin32 x -> Rabs (r32 x) <= 256 * r32 sc ->
  upper64 s1 a1 -> upper64 s2 a2 -> upper64 s3 a3 ->
  let c := code_of sc x in let e := IZR c * r32 sc in
  exists t1 t2 t3, add_squares sc (s1, s2, s3) (x, c) = (t1, t2, t3) /\
    upper64 t1 (a1 + r32 x * r32 x) /\ upper64 t2 (a2 + e * e) /\ upper64 t3 (a3 + (r32 x - e) * (r32 x - e)).
Proof.
  intros Fs Hs Hx Hxs U1 U2 U3 c e. destruct (code_spec sc x Fs Hs Hx Hxs) as [Hc Hlow].
  destruct (coordinate_exact sc x c Fs Hs Hx Hc Hlow Hxs) as (Fr & Er & Fd & Ed).
  pose proof (mul_up_square _ (fin_f64 x Hx)) as M1. pose proof (mul_up_square _ Fr) as M2. pose proof (mul_up_square _ Fd) as M3.
  rewrite rv_f64 in M1. rewrite Er in M2. rewrite Ed in M3. do 3 eexists. split; [reflexivity |].
  split_and!; by apply add_up_upper.
Qed.

Lemma add_squares_upper sc vector : fin32 sc -> 0 < r32 sc -> Forall fin32 vector ->
  (forall x, x ∈ vector -> Rabs (r32 x) <= 256 * r32 sc) ->
  let codes := code_of sc <$> vector in
  forall s1 s2 s3 a1 a2 a3, upper64 s1 a1 -> upper64 s2 a2 -> upper64 s3 a3 ->
  let '(t1, t2, t3) := fold_left (add_squares sc) (zip vector codes) (s1, s2, s3) in
  upper64 t1 (a1 + sqsum (r32 <$> vector)) /\ upper64 t2 (a2 + sqsum (reconstruction sc codes)) /\
  upper64 t3 (a3 + sqsum (diff (r32 <$> vector) (reconstruction sc codes))).
Proof.
  intros Fs Hs Hv Hmax codes. unfold codes, sqsum, reconstruction, diff.
  induction Hv as [|x l Hx Hl IH]; intros s1 s2 s3 a1 a2 a3 U1 U2 U3.
  { cbn [fmap list_fmap zip_with fold_left rsum foldr]. by rewrite !Rplus_0_r. }
  destruct (add_squares_step sc x s1 s2 s3 a1 a2 a3 Fs Hs Hx (Hmax x ltac:(left)) U1 U2 U3) as (t1 & t2 & t3 & E & V1 & V2 & V3).
  cbn [fmap list_fmap zip_with fold_left]. rewrite E.
  specialize (IH ltac:(intros z Hz; apply Hmax; by right) _ _ _ _ _ _ V1 V2 V3).
  destruct (fold_left _ _ _) as [[v1 v2] v3]. rewrite !Rplus_assoc in IH. exact IH.
Qed.

Lemma zip_padded {A B} (l : list A) (k r : list B) : (length l <= length k)%nat -> zip l (k ++ r) = zip l k.
Proof.
  revert k. induction l as [|x l IH]; intros [|y k] Hl; simpl in *; try done; [lia |]. f_equal. apply IH. lia.
Qed.

Lemma resize_longer codes n : (length codes <= n)%nat -> resize_codes codes n = codes ++ replicate (n - length codes)%nat 0%Z.
Proof. intros Hl. unfold resize_codes. by rewrite take_ge. Qed.

(** What encoding a vector guarantees: exact codes, padded with zeros, and
    norms that are upper bounds. *)
Definition codes_for (vector : list float) (n : nat) (scale : float) : list Z :=
  (code_of scale <$> vector) ++ replicate (n - length vector)%nat 0%Z.

Record encodes (vector : list float) (n : nat) (codes : list Z) (stats : PerVectorScalarRowStats) : Prop := {
  en_scale : fin32 (scale stats);
  en_pos : 0 < r32 (scale stats);
  en_codes : codes = codes_for vector n (scale stats);
  en_range : Forall (fun c => (Z.abs c <= 127)%Z) codes;
  en_original : 0 <= r32 (original_norm_upper stats);
  en_reconstructed : 0 <= r32 (reconstructed_norm_upper stats);
  en_residual : 0 <= r32 (residual_norm_upper stats);
  en_fin : fin32 (original_norm_upper stats) /\ fin32 (reconstructed_norm_upper stats) /\ fin32 (residual_norm_upper stats);
  en_original_norm : sqsum (r32 <$> vector) <= r32 (original_norm_upper stats) * r32 (original_norm_upper stats);
  en_reconstructed_norm : sqsum (reconstruction (scale stats) (code_of (scale stats) <$> vector))
    <= r32 (reconstructed_norm_upper stats) * r32 (reconstructed_norm_upper stats);
  en_residual_norm : sqsum (diff (r32 <$> vector) (reconstruction (scale stats) (code_of (scale stats) <$> vector)))
    <= r32 (residual_norm_upper stats) * r32 (residual_norm_upper stats);
}.

Definition finite_stats (stats : PerVectorScalarRowStats) : bool :=
  is_finite (original_norm_upper stats) && is_finite (reconstructed_norm_upper stats) && is_finite (residual_norm_upper stats).

Definition wf_stats (stats : PerVectorScalarRowStats) : Prop :=
  wf binary32 (scale stats) /\ wf binary32 (original_norm_upper stats) /\
  wf binary32 (reconstructed_norm_upper stats) /\ wf binary32 (residual_norm_upper stats).

(** The encoded codes are those of the vector, the header holds numbers of the
    format, and the finite norms are bounds. *)
Lemma encode_coordinates_spec vector n sc codes stats :
  Forall fin32 vector -> (length vector <= n)%nat -> encode_coordinates vector n = inl (sc, codes, stats) ->
  scale stats = sc /\ wf_stats stats /\ length codes = n /\ Forall (fun c => (Z.abs c <= 127)%Z) codes /\
  (finite_stats stats = true -> encodes vector n codes stats).
Proof.
  intros Hv Hn E. unfold encode_coordinates in E.
  destruct (is_finite (scale_for vector)) eqn:Ef; [|done]. destruct (fle (scale_for vector) fzero) eqn:El; [done |].
  cbn [negb orb] in E. destruct (scale_spec vector Hv Ef El) as (Fs & Hs & Hmax). set (sc' := scale_for vector) in *.
  rewrite resize_longer in E by by rewrite length_fmap. rewrite zip_padded in E by by rewrite length_fmap.
  pose proof (add_squares_upper sc' vector Fs Hs Hv Hmax fzero fzero fzero 0 0 0
    (upper_zero 0 ltac:(lra)) (upper_zero 0 ltac:(lra)) (upper_zero 0 ltac:(lra))) as HU. cbv zeta in HU.
  destruct (fold_left _ _ _) as [[t1 t2] t3]. destruct HU as (U1 & U2 & U3).
  destruct (f32_upper (sqrt_up t1)) as [o|] eqn:E1; [|done]. destruct (f32_upper (sqrt_up t2)) as [r|] eqn:E2; [|done].
  destruct (f32_upper (sqrt_up t3)) as [d|] eqn:E3; [|done]. rewrite !Rplus_0_l in *.
  destruct (norm_upper_spec t1 _ o U1 (sqsum_nonneg _) E1) as [W1 A].
  destruct (norm_upper_spec t2 _ r U2 (sqsum_nonneg _) E2) as [W2 B].
  destruct (norm_upper_spec t3 _ d U3 (sqsum_nonneg _) E3) as [W3 C].
  rewrite length_fmap in E. injection E as <- <- <-. fold (codes_for vector n sc').
  assert (Hr : Forall (fun c => (Z.abs c <= 127)%Z) (codes_for vector n sc')).
  { apply Forall_app. split; [|by apply Forall_replicate]. apply Forall_fmap, Forall_forall. intros x Hx. simpl.
    rewrite Forall_forall in Hv. by apply (code_spec sc' x Fs Hs (Hv x Hx) (Hmax x Hx)). }
  split_and!; [done | by destruct Fs | unfold codes_for; rewrite length_app, length_fmap, length_replicate; lia | done |].
  intros Hfin. unfold finite_stats in Hfin. cbn [original_norm_upper reconstructed_norm_upper residual_norm_upper] in Hfin.
  apply andb_prop in Hfin as [[H1 H2]%andb_prop H3].
  destruct (A H1) as (A1 & A2 & A3). destruct (B H2) as (B1 & B2 & B3). destruct (C H3) as (C1 & C2 & C3).
  by split.
Qed.

(** ** Rows in bytes *)

Lemma le_bytes_back x : wf binary32 x -> f32_from_bits (from_le_bytes (f32_le_bytes x)) = x.
Proof.
  intros Hx. destruct (f32_bits_back x Hx) as [E Hlt]. unfold f32_le_bytes. rewrite from_to_le_bytes, N.mod_small; done.
Qed.

Lemma code_back c : (Z.abs c <= 127)%Z -> u8_as_i8 (i8_as_u8 c) = c /\ (i8_as_u8 c < 256)%N.
Proof.
  intros Hc. unfold u8_as_i8, i8_as_u8. destruct (Z.leb_spec 0 c).
  - rewrite Z.mod_small by lia. destruct (N.ltb_spec (Z.to_N c) 128); lia.
  - assert ((c mod 256 = c + 256)%Z) as -> by (rewrite <- (Z.mod_add c 1 256), Z.mod_small; lia).
    destruct (N.ltb_spec (Z.to_N (c + 256)) 128); lia.
Qed.

Lemma header_word_back a b c d rest i x : wf binary32 x -> [a; b; c; d] !! i = Some x ->
  header_word (f32_le_bytes a ++ f32_le_bytes b ++ f32_le_bytes c ++ f32_le_bytes d ++ rest) i = x.
Proof.
  intros Hx Hi. transitivity (f32_from_bits (from_le_bytes (f32_le_bytes x))); [|by apply le_bytes_back].
  unfold header_word. do 2 f_equal.
  do 4 (destruct i as [|i]; [injection Hi as ->; reflexivity |]). done.
Qed.

Lemma parse_encoded vector dimension actual row :
  Forall fin32 vector -> (dimension <= actual)%nat -> encode_row vector dimension actual = inl row ->
  exists codes stats, encode_coordinates vector actual = inl (scale stats, codes, stats) /\
    parse_validated_row row (HEADER_BYTES + actual)%nat = inl (stats, codes) /\ length row = (HEADER_BYTES + actual)%nat /\ bytes_ok row.
Proof.
  intros Hv Hd E. unfold encode_row in E. destruct (Nat.eqb_spec (length vector) dimension) as [Hl|]; [|done].
  destruct (existsb _ vector); [done |]. cbn [negb orb] in E.
  destruct (encode_coordinates vector actual) as [[[sc codes] stats]|] eqn:Ec; [|done].
  destruct (encode_coordinates_spec vector actual sc codes stats Hv ltac:(lia) Ec) as (<- & (W1 & W2 & W3 & W4) & Hc & Hr & _).
  apply (inj inl) in E as <-. exists codes, stats.
  assert (Hlen : length (f32_le_bytes (scale stats) ++ f32_le_bytes (original_norm_upper stats)
         ++ f32_le_bytes (reconstructed_norm_upper stats) ++ f32_le_bytes (residual_norm_upper stats)
         ++ (i8_as_u8 <$> codes)) = (HEADER_BYTES + actual)%nat).
  { unfold f32_le_bytes. by rewrite !length_app, !length_to_le_bytes, length_fmap, Hc. }
  split_and!; [done | | done |].
  - unfold parse_validated_row. rewrite Hlen, Nat.eqb_refl. cbn [negb].
    rewrite (header_word_back _ _ _ _ _ 0 _ W1 eq_refl), (header_word_back _ _ _ _ _ 1 _ W2 eq_refl),
      (header_word_back _ _ _ _ _ 2 _ W3 eq_refl), (header_word_back _ _ _ _ _ 3 _ W4 eq_refl).
    f_equal. f_equal; [by destruct stats |].
    transitivity (u8_as_i8 <$> (i8_as_u8 <$> codes)); [reflexivity |]. clear -Hr.
    induction Hr as [|c l Hcode _ IH]; [done |]. cbn [fmap list_fmap]. f_equal; [by apply code_back | exact IH].
  - repeat (apply Forall_app; split; [apply to_le_bytes_ok |]).
    apply Forall_fmap. apply Forall_impl with (1 := Hr). intros c Hc'. by apply code_back.
Qed.

Lemma fin_flt_zero x : fin32 x -> 0 <= r32 x -> flt x fzero = false.
Proof.
  intros [_ Hf] Hx. apply (flt_rv_false binary32); [done | done |]. by rewrite (rv_zero binary32).
Qed.

Lemma parse_encodes vector n codes stats row : encodes vector n codes stats ->
  parse_validated_row row (HEADER_BYTES + n)%nat = inl (stats, codes) -> parse_row row (HEADER_BYTES + n)%nat = inl (stats, codes).
Proof.
  intros Hen Ep. unfold parse_row. rewrite Ep. destruct Hen as [[W1 F1] P1 _ _ P2 P3 P4 (F2 & F3 & F4) _ _ _].
  assert (fle (scale stats) fzero = false) as ->.
  { destruct (scale stats) as [| |sg m]; [done..|]. unfold fle. rewrite (finite_compare (Fin sg m) fzero) by done.
    destruct (Z.compare_spec (val (Fin sg m)) (val fzero)) as [Hz|Hz|]; [..|done]; exfalso; unfold rv in P1;
    [rewrite Hz in P1; simpl in P1; lra |]. apply IZR_lt in Hz. pose proof (runit_pos binary32). simpl val in Hz at 2. nra. }
  rewrite F1. cbn [negb orb existsb]. destruct F2 as [W2 F2], F3 as [W3 F3], F4 as [W4 F4]. rewrite F2, F3, F4.
  by rewrite !fin_flt_zero.
Qed.

(** [C00] A row written for a finite vector is read back: the codes are those of
    the coordinates, padded with zeros, and when the three norms of the header
    are finite, the row passes the checks of [parse_row] and the norms are upper
    bounds of the exact norms of the vector, of its reconstruction from the
    codes and of the difference of the two; when one is not, the row is
    rejected. *)
Theorem encoded_row_certified vector actual row :
  Forall fin32 vector -> (length vector <= actual)%nat -> encode_row vector (length vector) actual = inl row ->
  exists stats codes, length row = (HEADER_BYTES + actual)%nat /\
    parse_validated_row row (HEADER_BYTES + actual)%nat = inl (stats, codes) /\
    (finite_stats stats = true ->
       parse_row row (HEADER_BYTES + actual)%nat = inl (stats, codes) /\ encodes vector actual codes stats) /\
    (finite_stats stats = false -> parse_row row (HEADER_BYTES + actual)%nat = inr InvalidRow).
Proof.
  intros Hv Hl E. destruct (parse_encoded vector _ actual row Hv Hl E) as (codes & stats & Ec & Ep & Elen & _).
  exists stats, codes. split_and!; [done | done | |].
  - intros Hf. destruct (encode_coordinates_spec vector actual _ codes stats Hv Hl Ec) as (_ & _ & _ & _ & Hen). specialize (Hen Hf).
    split; [by apply (parse_encodes vector) | done].
  - intros Hf. unfold parse_row. rewrite Ep. unfold finite_stats in Hf. cbn [existsb].
    destruct (is_finite (original_norm_upper stats)), (is_finite (reconstructed_norm_upper stats)), (is_finite (residual_norm_upper stats)); try done;
    cbn [negb orb]; by rewrite ?orb_true_r.
Qed.

(** ** Examples *)

Definition sample_vector : list float := of_Z binary32 <$> [3; -5]%Z.

Lemma sample_fin : Forall fin32 sample_vector.
Proof. apply (fin_check_ok binary32). by vm_compute. Qed.

Definition row_of (r : pvs (list N)) : list N := match r with inl row => row | inr _ => [] end.

Definition sample_row : list N :=
  [133; 66; 33; 61; 41; 151; 186; 64; 1; 118; 186; 64; 17; 2; 1; 60;
   76; 129; 0; 0; 0; 0; 0; 0; 0; 0; 0; 0; 0; 0; 0; 0]%N.

Lemma encoded_row_certified_witness :
  exists stats codes, length sample_row = 32%nat /\ parse_row sample_row 32 = inl (stats, codes) /\
    encodes sample_vector 16 codes stats.
Proof.
  destruct (encoded_row_certified sample_vector 16 sample_row sample_fin ltac:(by vm_compute; lia) ltac:(by vm_compute))
    as (stats & codes & H1 & H2 & H3 & _).
  exists stats, codes. split; [done |]. apply H3. clear H3. revert H2. vm_compute. by intros [= <- _].
Defined.

Lemma sample_encodes : exists stats codes, encodes sample_vector 16 codes stats.
Proof.
  destruct (parse_encoded sample_vector 2 16 sample_row sample_fin ltac:(lia) ltac:(by vm_compute)) as (codes & stats & Ec & Ep & _).
  exists stats, codes.
  destruct (encode_coordinates_spec sample_vector 16 _ codes stats sample_fin ltac:(by vm_compute; lia) Ec) as (_ & _ & _ & _ & Hen).
  apply Hen. revert Ep. clear. vm_compute. by intros [= <- _].
Qed.

(** Two coordinates whose norm is just above the largest [f32]: it rounds to
    the largest [f32], below it, and the step upwards gives infinity.  The row
    is written, and rejected when it is read. *)
Definition large_vector : list float := [Fin false (limit binary32 - 3 * 2 ^ 253); Fin false (2 ^ 266)].

Example largest_row_rejected : let r := encode_row large_vector 2 16 in
  r = inl (row_of r) /\ parse_row (row_of r) 32 = inr InvalidRow.
Proof. vm_compute. by split. Qed.
