(* ===== verification/ScalarBounds.v ===== *)
(** * Per-vector scalar quantization: bounds

    lib/quantization/src/per_vector_scalar/bounds.rs and the guard of
    lib/segment/src/index/per_vector_scalar_index/rank_state.rs.  From the
    integer dot product of the codes of a query and of a document, an interval
    around the score: the centre is the product of the reconstructions, the
    radius the quantization error by the triangle and Cauchy-Schwarz
    inequalities, widened by a guard for the rounding of [f64] and of the [f32]
    scorer.

    The file proves that the interval contains every value that differs from
    the exact inner product by at most three quarters of the guard factor times
    the product of the norms, and that it is finite; and that the steps to a
    neighbour by bits are the ones of the standard library. *)

From S2P Require Import Prelude Float FloatBits FloatReal RealSums MachineInt DotKernels ScalarRows.
From Stdlib Require Import Reals Lra.

(** ** Neighbours by bits *)

Definition wrapping_sub (w a b : N) : N := (a + 2 ^ w - b) mod 2 ^ w.

Definition next_up_finite (value : float) : float :=
  let bits := f64_to_bits value in
  let magnitude := N.land bits 0x7fffffffffffffff in
  let advanced := if (N.shiftr bits 63 =? 0)%N then wrapping_add 64 bits 1 else wrapping_sub 64 bits 1 in
  f64_from_bits (if (magnitude =? 0)%N then 1 else advanced)%N.

Definition next_down_finite (value : float) : float :=
  let bits := f64_to_bits value in
  let magnitude := N.land bits 0x7fffffffffffffff in
  let advanced := if (N.shiftr bits 63 =? 0)%N then wrapping_sub 64 bits 1 else wrapping_add 64 bits 1 in
  f64_from_bits (if (magnitude =? 0)%N then 0x8000000000000001 else advanced)%N.

(** ** Bounds *)

(** [64.0 * f64::EPSILON] *)
Definition f64_EPSILON : float := Fin false (2 ^ 1022).
Definition CERTIFICATE_F64_GUARD : float := (of_Z binary64 64 * f64_EPSILON)%f64.

Record PerVectorScalarBounds : Type := mkScalarBounds {
  point_id : nat;
  bounds_center : float;
  document_original_norm_upper : float;
  quantization_lower : float;
  quantization_upper : float;
}.

Definition quantization_bounds_from_integer_dot (point_id : nat) (query : EncodedQueryPerVectorScalar)
    (document : PerVectorScalarRowStats) (integer_dot : Z) : pvs PerVectorScalarBounds :=
  let integer := of_Z binary64 integer_dot in
  let query_scale := f64_of_f32 (q_scale query) in
  let document_scale := f64_of_f32 (scale document) in
  let center := (integer * query_scale * document_scale)%f64 in
  let document_original := f64_of_f32 (original_norm_upper document) in
  let document_residual := f64_of_f32 (residual_norm_upper document) in
  let error := (q_residual_norm_upper query * document_original
                + q_reconstructed_norm_upper query * document_residual)%f64 in
  let magnitude := (fabs center + error)%f64 in
  let arithmetic_guard := next_up binary64 (magnitude * CERTIFICATE_F64_GUARD)%f64 in
  let radius := next_up binary64 (error + arithmetic_guard)%f64 in
  let quantization_lower := next_down binary64 (center - radius)%f64 in
  let quantization_upper := next_up binary64 (center + radius)%f64 in
  if existsb (fun value => negb (is_finite value)) [center; quantization_lower; quantization_upper] then inr NonFinite
  else
    inl {| point_id := point_id; bounds_center := center; document_original_norm_upper := document_original;
           quantization_lower := quantization_lower; quantization_upper := quantization_upper |}.

Definition final_bounds_from_integer_dot (query : EncodedQueryPerVectorScalar) (document : PerVectorScalarRowStats)
    (integer_dot : Z) (final_guard_factor : float) : float * float :=
  let center := (of_Z binary64 integer_dot * f64_of_f32 (q_scale query) * f64_of_f32 (scale document))%f64 in
  let document_original := f64_of_f32 (original_norm_upper document) in
  let document_residual := f64_of_f32 (residual_norm_upper document) in
  let quantization_error := (q_residual_norm_upper query * document_original
                             + q_reconstructed_norm_upper query * document_residual)%f64 in
  let guard_scale := (fabs center + quantization_error + q_original_norm_upper query * document_original)%f64 in
  let guard := next_up_finite (guard_scale * final_guard_factor)%f64 in
  let lower := next_down_finite (center - quantization_error - guard)%f64 in
  let upper := next_up_finite (center + quantization_error + guard)%f64 in
  (lower, upper).

(** ** The guard factor of the segment *)

(** [f64::from(f32::EPSILON)] *)
Definition f32_EPSILON : float := Fin false (2 ^ 126).

Definition sub_down (left right : float) : float :=
  if feq right fzero then left else next_down binary64 (left - right)%f64.

Definition div_up (left right : float) : float :=
  if feq left fzero then fzero else next_up binary64 (left / right)%f64.

Definition compact_style_guard_factor (dimension : N) : option float :=
  match checked_mul 64 dimension 8 with
  | None => None
  | Some product =>
      match checked_add 64 product 64 with
      | None => None
      | Some sum =>
          let operations := of_Z binary64 (Z.of_N sum) in
          let numerator := mul_up operations (f64_of_f32 f32_EPSILON) in
          if fle f64_one numerator then None
          else
            let denominator := sub_down f64_one numerator in
            Some (div_up numerator denominator)
      end
  end.

(** ** The neighbours are those of the standard library *)

Local Open Scope R_scope.

Local Abbreviation r32 := (rv binary32).
Local Abbreviation r64 := (rv binary64).
Local Abbreviation fin32 := (fin binary32).
Local Abbreviation fin64 := (fin binary64).

Definition sign_bit (s : bool) : N := if s then 2 ^ 63 else 0.

Lemma fields64 (s : bool) (b : N) : (b < 2 ^ 63)%N ->
  N.land (sign_bit s + b) 0x7fffffffffffffff = b /\ (N.shiftr (sign_bit s + b) 63 =? 0)%N = negb s.
Proof.
  intros Hb. destruct (sign_rest binary64 64 ltac:(done) s b Hb) as [_ Hr].
  change 0x7fffffffffffffff%N with (N.ones 63). rewrite N.land_ones, N.shiftr_div_pow2. split; [exact Hr |].
  apply Bool.eq_true_iff_eq. rewrite N.eqb_eq, negb_true_iff, N.div_small_iff by done. unfold sign_bit. destruct s; split; lia || done.
Qed.

Lemma magnitude64 m : (0 <= m < limit binary64)%Z -> round_mag binary64 m 1 = m ->
  (Z.to_N (magnitude_bits binary64 m) < 2 ^ 63 - 1)%N /\ ((Z.to_N (magnitude_bits binary64 m) =? 0)%N = (m =? 0)%Z).
Proof.
  intros Hm Hr. pose proof (bits_bound binary64 m Hm Hr) as Hb. pose proof (bits_zero binary64 m ltac:(lia) Hr) as Hz. split.
  - assert (inf_bits binary64 < 2 ^ 63 - 1)%Z by done. lia.
  - apply Bool.eq_true_iff_eq. rewrite N.eqb_eq, Z.eqb_eq. lia.
Qed.

Lemma next_up_finite_eq x : fin64 x -> next_up_finite x = next_up binary64 x.
Proof.
  intros [Hw Hx]. destruct x as [| |s m]; [done..|]. destruct Hw as [Hm Hr]. destruct (magnitude64 m Hm Hr) as [Hb Hz].
  unfold next_up_finite. change (f64_to_bits (Fin s m)) with (sign_bit s + Z.to_N (magnitude_bits binary64 m))%N.
  pose proof (from_bits_after binary64 64 ltac:(done) s m Hm Hr) as Ha.
  pose proof (from_bits_before binary64 64 ltac:(done) s m) as Hbef.
  change (from_bits binary64 64) with f64_from_bits in *. change (if s then _ else _)%N with (sign_bit s) in *.
  set (b := Z.to_N (magnitude_bits binary64 m)) in *. destruct (fields64 s b ltac:(lia)) as [-> ->]. rewrite Hz.
  unfold next_up. destruct (Z.eqb_spec m 0) as [->|Hm0]; [by vm_compute |]. apply Z.eqb_neq in Hm0 as Hm0'. rewrite ?Hm0' in Hz. apply N.eqb_neq in Hz.
  unfold wrapping_add, wrapping_sub. destruct s; cbn [negb].
  - rewrite <- Hbef by (done || lia). f_equal. unfold sign_bit.
    replace (2 ^ 63 + b + 2 ^ 64 - 1)%N with (2 ^ 63 + (b - 1) + 1 * 2 ^ 64)%N by lia.
    rewrite N.Div0.mod_add, N.mod_small; lia.
  - transitivity (f64_from_bits (sign_bit false + (b + 1))); [|exact Ha]. f_equal. unfold sign_bit. rewrite N.mod_small; lia.
Qed.

Lemma next_down_finite_eq x : fin64 x -> next_down_finite x = next_down binary64 x.
Proof.
  intros [Hw Hx]. destruct x as [| |s m]; [done..|]. destruct Hw as [Hm Hr]. destruct (magnitude64 m Hm Hr) as [Hb Hz].
  unfold next_down_finite. change (f64_to_bits (Fin s m)) with (sign_bit s + Z.to_N (magnitude_bits binary64 m))%N.
  pose proof (from_bits_after binary64 64 ltac:(done) s m Hm Hr) as Ha.
  pose proof (from_bits_before binary64 64 ltac:(done) s m) as Hbef.
  change (from_bits binary64 64) with f64_from_bits in *. change (if s then _ else _)%N with (sign_bit s) in *.
  set (b := Z.to_N (magnitude_bits binary64 m)) in *. destruct (fields64 s b ltac:(lia)) as [-> ->]. rewrite Hz.
  unfold next_down. cbn [fneg]. unfold next_up.
  destruct (Z.eqb_spec m 0) as [->|Hm0]; [by vm_compute |]. apply Z.eqb_neq in Hm0 as Hm0'. rewrite ?Hm0' in Hz. apply N.eqb_neq in Hz.
  unfold wrapping_add, wrapping_sub. destruct s; cbn [negb].
  - transitivity (f64_from_bits (sign_bit true + (b + 1))); [f_equal; unfold sign_bit; rewrite N.mod_small; lia |].
    rewrite Ha. cbv zeta. by destruct (_ <? _)%Z.
  - transitivity (f64_from_bits (sign_bit false + (b - 1))); [|by rewrite Hbef by (done || lia)].
    f_equal. unfold sign_bit. replace (0 + b + 2 ^ 64 - 1)%N with (0 + (b - 1) + 1 * 2 ^ 64)%N by lia.
    rewrite N.Div0.mod_add, N.mod_small; lia.
Qed.

(** ** Relative errors in [f64] *)

Definition tiny : R := runit binary32 ^ 6.
Definition huge : R := 2 ^ 400.
Definition u64 : R := u_round binary64.

(** [x] is [r] up to [k] roundings. *)
Definition near (k : R) (x : float) (r : R) : Prop := fin64 x /\ Rabs (r64 x - r) <= k * u64 * Rabs r.

(** A number that is zero or not too small. *)
Definition atleast (k : nat) (x : R) : Prop := x = 0 \/ runit binary32 ^ k <= Rabs x.

Lemma u64_pos : 0 < u64 <= / 1000000000000.
Proof. exact u64_small. Qed.

Lemma huge_range : 16 <= huge /\ 16 * (huge * huge) <= half_range binary64.
Proof.
  unfold huge. split; [replace 16 with (2 ^ 4) by (simpl; lra); apply Rle_pow; [lra | lia] |]. apply Rle_trans with (2 ^ 900); [|apply half_range64_large].
  replace 16 with (2 ^ 4) by (simpl; lra). rewrite <- !pow_add. apply Rle_pow; [lra | lia].
Qed.

Lemma runit32_small : 0 < runit binary32 <= 1.
Proof.
  split; [apply (runit_pos binary32) |]. unfold runit. rewrite <- Rinv_1. apply Rinv_le_contravar; [lra |].
  apply IZR_le. vm_compute. discriminate.
Qed.

Lemma tiny_unit : runit binary64 / 2 <= u64 * tiny.
Proof.
  rewrite runit64_eq. unfold tiny, u64, u_round. simpl prec.
  assert (E : runit binary32 = / 2 ^ 149) by (unfold runit; by rewrite pow_IZR).
  rewrite E, !pow_IZR, pow_inv, pow_IZR, <- !Rinv_mult, <- !mult_IZR. unfold Rdiv. rewrite <- Rinv_mult, <- mult_IZR.
  apply Rinv_le_contravar; [apply IZR_lt; vm_compute; reflexivity |]. apply IZR_le. vm_compute. discriminate.
Qed.

Lemma atleast_mul j k x y : atleast j x -> atleast k y -> atleast (j + k) (x * y).
Proof.
  intros [->|Hx] [->|Hy]; [left; lra | left; lra | left; lra |]. right. rewrite pow_add, Rabs_mult.
  pose proof runit32_small. apply Rmult_le_compat; try done; apply pow_le; lra.
Qed.

Lemma atleast_add k x y : 0 <= x -> 0 <= y -> atleast k x -> atleast k y -> atleast k (x + y).
Proof.
  intros H1 H2 [->|Hx] [->|Hy]; unfold atleast; rewrite ?Rplus_0_l, ?Rplus_0_r; [by left | by right.. |].
  right. rewrite Rabs_pos_eq in * by lra. lra.
Qed.

Lemma atleast_more j k x : (j <= k)%nat -> atleast j x -> atleast k x.
Proof.
  intros Hjk [->|Hx]; [by left | right]. apply Rle_trans with (2 := Hx). replace k with (j + (k - j))%nat by lia.
  rewrite pow_add. pose proof runit32_small. assert (0 <= runit binary32 ^ j) by (apply pow_le; lra).
  assert (runit binary32 ^ (k - j) <= 1) by (rewrite <- (pow1 (k - j)); apply pow_incr; lra). nra.
Qed.

Lemma atleast_abs k x : atleast k x -> atleast k (Rabs x).
Proof. intros [->|Hx]; [left; apply Rabs_R0 | right; by rewrite Rabs_Rabsolu]. Qed.

Lemma atleast_f32 x : fin32 x -> atleast 1 (r32 x).
Proof.
  intros [_ Hx]. destruct x as [| |s m]; [done..|]. unfold rv, atleast. set (v := val (Fin s m)).
  destruct (Z.eq_dec v 0) as [->|Hv]; [left; lra | right]. rewrite (Rabs_rv binary32). pose proof (runit_pos binary32).
  assert (1 <= IZR (Z.abs v)) by (apply IZR_le; lia). rewrite pow_1. nra.
Qed.

Lemma atleast_int z : atleast 0 (IZR z).
Proof.
  destruct (Z.eq_dec z 0) as [->|Hz]; [by left | right]. rewrite <- abs_IZR. simpl. apply IZR_le. lia.
Qed.

(** A value below half a unit is zero. *)
Lemma half_unit_zero x : Rabs (r64 x) <= runit binary64 / 2 -> r64 x = 0.
Proof.
  intros H. pose proof (runit_pos binary64) as Hu. unfold rv in *. rewrite (Rabs_rv binary64) in H.
  assert (IZR (Z.abs (val x)) < 1) by nra. apply lt_IZR in H0. replace (val x) with 0%Z by lia. lra.
Qed.

Lemma near_exact x : fin64 x -> near 0 x (r64 x).
Proof. intros Hx. split; [done |]. replace (r64 x - r64 x) with 0 by lra. rewrite Rabs_R0. pose proof (Rabs_pos (r64 x)). pose proof u64_pos. nra. Qed.

Lemma near_abs_le k x r : 0 <= k <= 100 -> near k x r -> Rabs (r64 x) <= 2 * Rabs r.
Proof.
  intros Hk [_ H]. pose proof u64_pos. pose proof (Rabs_pos r). pose proof (Rabs_triang (r64 x - r) r) as Ht.
  replace (r64 x - r + r) with (r64 x) in Ht by lra. assert (k * u64 <= 1) by nra. nra.
Qed.

Lemma product_error w j k X Y a b : 0 < w <= / 1000000000000 -> 0 <= j <= 100 -> 0 <= k <= 100 ->
  Rabs (X - a) <= j * w * Rabs a -> Rabs (Y - b) <= k * w * Rabs b ->
  Rabs (X * Y - a * b) <= (j + k + / 4) * w * Rabs (a * b).
Proof.
  intros Hw Hj Hk HX HY. rewrite (Rabs_mult a b). pose proof (Rabs_pos a) as Pa. pose proof (Rabs_pos b) as Pb.
  replace (X * Y - a * b) with ((X - a) * (Y - b) + (X - a) * b + a * (Y - b)) by ring.
  pose proof (Rabs_triang ((X - a) * (Y - b) + (X - a) * b) (a * (Y - b))) as T1.
  pose proof (Rabs_triang ((X - a) * (Y - b)) ((X - a) * b)) as T2. rewrite (Rabs_mult a) in T1. rewrite (Rabs_mult _ (Y - b)), (Rabs_mult _ b) in T2.
  assert (A1 : Rabs (X - a) * Rabs (Y - b) <= (j * w * Rabs a) * (k * w * Rabs b)) by (apply Rmult_le_compat; auto using Rabs_pos).
  assert (A2 : Rabs (X - a) * Rabs b <= (j * w * Rabs a) * Rabs b) by (apply Rmult_le_compat_r; lra).
  assert (A3 : Rabs a * Rabs (Y - b) <= Rabs a * (k * w * Rabs b)) by (apply Rmult_le_compat_l; lra).
  assert (Hjk : j * k * w <= / 4).
  { apply Rle_trans with (10000 * / 1000000000000); [|lra]. apply Rmult_le_compat; try lra; nra. }
  assert (P : 0 <= Rabs a * Rabs b) by nra. assert (j * k * w * (w * (Rabs a * Rabs b)) <= / 4 * (w * (Rabs a * Rabs b))) by (apply Rmult_le_compat_r; [nra | lra]).
  replace ((j + k + / 4) * w * (Rabs a * Rabs b)) with (/ 4 * (w * (Rabs a * Rabs b)) + j * w * Rabs a * Rabs b + Rabs a * (k * w * Rabs b)) by ring.
  replace (j * w * Rabs a * (k * w * Rabs b)) with (j * k * w * (w * (Rabs a * Rabs b))) in A1 by ring. lra.
Qed.

Lemma near_mul j k x y a b : 0 <= j <= 100 -> 0 <= k <= 100 -> near j x a -> near k y b ->
  Rabs a <= huge -> Rabs b <= huge -> atleast 6 (a * b) -> near (j + k + 3) (x * y)%f64 (a * b).
Proof.
  intros Hj Hk Hx Hy Ha Hb Hab. pose proof (near_abs_le j x a Hj Hx) as Bx. pose proof (near_abs_le k y b Hk Hy) as By.
  destruct Hx as [Fx Hx], Hy as [Fy Hy]. pose proof huge_range as [Hh1 Hh2]. pose proof u64_pos as Hu.
  pose proof (Rabs_pos a) as Pa. pose proof (Rabs_pos b) as Pb.
  pose proof (product_error u64 j k _ _ a b Hu Hj Hk Hx Hy) as Hp.
  assert (Hr : Rabs (r64 x * r64 y) <= half_range binary64).
  { rewrite Rabs_mult. apply Rle_trans with (2 * huge * (2 * huge)); [|nra]. apply Rmult_le_compat; auto using Rabs_pos; lra. }
  destruct (fmul_real binary64 x y Fx Fy Hr) as [Fm Hm]. split; [done |]. change (u_round binary64) with u64 in Hm.
  destruct Hab as [Hz|Ht].
  - rewrite Hz, Rabs_R0, Rmult_0_r in *. rewrite Rminus_0_r in Hp. pose proof (Rabs_pos (r64 x * r64 y)).
    assert (E0 : r64 x * r64 y = 0) by (destruct (Req_dec (r64 x * r64 y) 0); [done | by apply Rabs_no_R0 in H0; lra]).
    rewrite E0, Rabs_R0, Rminus_0_r in Hm. rewrite Rminus_0_r.
    assert (r64 (x * y)%f64 = 0) as -> by (apply half_unit_zero; lra). rewrite Rabs_R0. lra.
  - fold tiny in Ht. pose proof tiny_unit as Hty. set (P := Rabs (a * b)) in *. set (M := Rabs (r64 x * r64 y)) in *.
    assert (HM : M <= 2 * P).
    { pose proof (Rabs_triang (r64 x * r64 y - a * b) (a * b)) as T. replace (r64 x * r64 y - a * b + a * b) with (r64 x * r64 y) in T by ring.
      assert ((j + k + / 4) * u64 <= 1) by nra. assert (0 <= P) by apply Rabs_pos. fold M P in T. nra. }
    pose proof (Rabs_triang (r64 (x * y)%f64 - r64 x * r64 y) (r64 x * r64 y - a * b)) as T.
    replace (r64 (x * y)%f64 - r64 x * r64 y + (r64 x * r64 y - a * b)) with (r64 (x * y)%f64 - a * b) in T by ring.
    assert (HM' : M <= (1 + / 4) * P).
    { pose proof (Rabs_triang (r64 x * r64 y - a * b) (a * b)) as T'. replace (r64 x * r64 y - a * b + a * b) with (r64 x * r64 y) in T' by ring.
      assert ((j + k + / 4) * u64 <= / 4) by nra. assert (0 <= P) by apply Rabs_pos. fold M P in T'. nra. }
    assert (u64 * tiny <= u64 * P) by nra. assert (u64 * M <= u64 * ((1 + / 4) * P)) by nra. nra.
Qed.

Lemma near_add k x y a b : 0 <= k <= 100 -> near k x a -> near k y b -> 0 <= a <= huge -> 0 <= b <= huge ->
  near (k + 2) (x + y)%f64 (a + b).
Proof.
  intros Hk Hx Hy Ha Hb. pose proof (near_abs_le k x a Hk Hx) as Bx. pose proof (near_abs_le k y b Hk Hy) as By.
  destruct Hx as [Fx Hx], Hy as [Fy Hy]. pose proof huge_range as [Hh1 Hh2]. pose proof u64_pos as Hu.
  rewrite (Rabs_pos_eq a) in * by lra. rewrite (Rabs_pos_eq b) in * by lra.
  pose proof (Rabs_triang (r64 x) (r64 y)) as T. assert (HM : Rabs (r64 x + r64 y) <= 2 * (a + b)) by lra.
  destruct (fadd_real binary64 x y Fx Fy) as [Fm Hm]; [apply Rle_trans with (4 * huge); nra |]. split; [done |]. change (u_round binary64) with u64 in Hm.
  rewrite (Rabs_pos_eq (a + b)) by lra. pose proof (Rabs_triang (r64 x - a) (r64 y - b)) as T1.
  replace (r64 x - a + (r64 y - b)) with (r64 x + r64 y - (a + b)) in T1 by ring.
  pose proof (Rabs_triang (r64 (x + y)%f64 - (r64 x + r64 y)) (r64 x + r64 y - (a + b))) as T2.
  replace (r64 (x + y)%f64 - (r64 x + r64 y) + (r64 x + r64 y - (a + b))) with (r64 (x + y)%f64 - (a + b)) in T2 by ring.
  assert (u64 * Rabs (r64 x + r64 y) <= u64 * (2 * (a + b))) by (apply Rmult_le_compat_l; lra). lra.
Qed.

Lemma near_more j k x r : j <= k -> near j x r -> near k x r.
Proof.
  intros Hjk [Fx Hx]. split; [done |]. pose proof u64_pos. pose proof (Rabs_pos r).
  assert (j * u64 * Rabs r <= k * u64 * Rabs r); [|lra]. apply Rmult_le_compat_r; [done | nra].
Qed.

Lemma near_fabs k x r : near k x r -> near k (fabs x) (Rabs r).
Proof.
  intros [Fx Hx]. split; [by apply (fin_fabs binary64) |]. rewrite (rv_fabs binary64), Rabs_Rabsolu by done.
  apply Rle_trans with (2 := Hx). apply Rabs_triang_inv2.
Qed.

(** The lower endpoint, computed with errors, is below every admissible score. *)
Lemma endpoint_below w F G O C E c err g guard l1 l2 t s : 0 < w <= / 1000000000000 -> / 262144 <= F -> 0 <= O -> 0 <= E ->
  G = Rabs C + E + O ->
  Rabs (c - C) <= 6 * w * Rabs C -> Rabs (err - E) <= 5 * w * E -> Rabs (g - G * F) <= 20 * w * (G * F) -> g <= guard ->
  Rabs (l1 - (c - err)) <= w * Rabs (c - err) -> Rabs (l2 - (l1 - guard)) <= w * Rabs (l1 - guard) ->
  Rabs (t - C) <= E -> Rabs (s - t) <= 3 / 4 * (G * F) -> l2 <= s.
Proof.
  intros Hw HF HO HE HG Hc Herr Hg Hguard H1 H2 Ht Hs. pose proof (Rabs_pos C) as PC. assert (HG0 : 0 <= G) by lra.
  set (K := Rabs C + E). assert (HK : 0 <= K <= G) by (unfold K; lra).
  assert (Bc : Rabs c <= 2 * Rabs C).
  { pose proof (Rabs_triang (c - C) C) as T. replace (c - C + C) with c in T by ring. assert (6 * w * Rabs C <= Rabs C) by nra. lra. }
  assert (Berr : 0 <= err <= 2 * E) by (apply Rabs_le_inv in Herr; assert (5 * w * E <= E) by nra; lra).
  assert (Bce : Rabs (c - err) <= 2 * K).
  { pose proof (Rabs_triang c (- err)) as T. rewrite Rabs_Ropp, (Rabs_pos_eq err) in T by lra. unfold K, Rminus. lra. }
  assert (Bw : w * Rabs (c - err) <= 2 * (w * G)) by (assert (w * Rabs (c - err) <= w * (2 * K)) by (apply Rmult_le_compat_l; lra); nra).
  assert (Bl1 : Rabs l1 <= 3 * G).
  { pose proof (Rabs_triang (l1 - (c - err)) (c - err)) as T. replace (l1 - (c - err) + (c - err)) with l1 in T by ring.
    assert (w * G <= G / 4) by nra. lra. }
  assert (Hgf : 0 <= G * F) by nra. assert (Bg : G * F * (1 - 20 * w) <= g) by (apply Rabs_le_inv in Hg; lra).
  assert (Hguard0 : 0 <= guard) by nra.
  assert (Bl2 : w * Rabs (l1 - guard) <= 3 * (w * G) + w * guard).
  { pose proof (Rabs_triang l1 (- guard)) as T. rewrite Rabs_Ropp, (Rabs_pos_eq guard) in T by lra. unfold Rminus.
    assert (w * Rabs (l1 + - guard) <= w * (3 * G + guard)) by (apply Rmult_le_compat_l; lra). lra. }
  assert (BC : 6 * w * Rabs C <= 6 * (w * G)) by nra. assert (BE : 5 * w * E <= 5 * (w * G)) by nra.
  assert (Hgg : G * F * (1 - 21 * w) <= guard - w * guard) by nra.
  assert (Hend : 16 * (w * G) <= G * F * (/ 4 - 21 * w)).
  { assert (16 * w <= F * (/ 4 - 21 * w)) by nra. nra. }
  apply Rabs_le_inv in Hc, Herr, H1, H2, Ht, Hs. lra.
Qed.

(** Sizes: scales and norms are below [2^128]. *)
Definition top32 : R := 2 ^ 128.

Lemma top32_pos : 1 <= top32.
Proof. unfold top32. apply pow_R1_Rle. lra. Qed.

Lemma top32_huge : 2 ^ 70 * (2 ^ 41 * (top32 * top32)) <= huge.
Proof. unfold top32, huge. rewrite <- !pow_add. apply Rle_pow; [lra | lia]. Qed.

Lemma f32_top x : fin32 x -> Rabs (r32 x) <= top32.
Proof.
  intros Hx. pose proof (fin_range binary32 x Hx) as H. rewrite half_range32_small in H. unfold top32.
  replace (2 ^ 128) with (2 * 2 ^ 127) by (simpl; ring). done.
Qed.

Lemma near_f32 x : fin32 x -> near 0 (f64_of_f32 x) (r32 x).
Proof. intros Hx. rewrite <- rv_f64. by apply near_exact, fin_f64. Qed.

Lemma product_top a b : Rabs a <= top32 -> Rabs b <= top32 -> Rabs (a * b) <= top32 * top32.
Proof. intros Ha Hb. rewrite Rabs_mult. apply Rmult_le_compat; auto using Rabs_pos. Qed.

Lemma near_f32_mul x y : fin32 x -> fin32 y -> near 3 (f64_of_f32 x * f64_of_f32 y)%f64 (r32 x * r32 y).
Proof.
  intros Hx Hy. pose proof top32_pos as Ht. pose proof top32_huge as Hh. pose proof (f32_top x Hx). pose proof (f32_top y Hy).
  assert (Hth : top32 <= huge). { assert (1 <= 2 ^ 70) by (apply pow_R1_Rle; lra). assert (1 <= 2 ^ 41) by (apply pow_R1_Rle; lra). nra. }
  replace 3 with (0 + 0 + 3) by lra. apply near_mul; [lra | lra | by apply near_f32.. | lra | lra |].
  apply atleast_more with 2%nat; [lia |]. apply (atleast_mul 1 1); by apply atleast_f32.
Qed.

(** ** Endpoints *)

Lemma half_range_huge : 16 * huge <= half_range binary64.
Proof. pose proof huge_range as [? ?]. nra. Qed.

Lemma lower_endpoint c e guard : fin64 c -> fin64 e -> fin64 guard ->
  Rabs (r64 c) <= huge -> Rabs (r64 e) <= huge -> Rabs (r64 guard) <= huge ->
  let l1 := (c - e)%f64 in let l2 := (l1 - guard)%f64 in
  Rabs (r64 l1 - (r64 c - r64 e)) <= u64 * Rabs (r64 c - r64 e) /\
  Rabs (r64 l2 - (r64 l1 - r64 guard)) <= u64 * Rabs (r64 l1 - r64 guard) /\
  is_finite (next_down_finite l2) = true /\ r64 (next_down_finite l2) <= r64 l2.
Proof.
  intros Fc Fe Fg Bc Be Bg l1 l2. pose proof half_range_huge as Hh. pose proof huge_range as [H1 _]. pose proof u64_pos as Hu.
  assert (T1 : Rabs (r64 c - r64 e) <= 2 * huge) by (pose proof (Rabs_triang (r64 c) (- r64 e)) as T; rewrite Rabs_Ropp in T; unfold Rminus; lra).
  destruct (fsub_real binary64 c e Fc Fe) as [F1 E1]; [lra |]. change (u_round binary64) with u64 in E1. fold l1 in F1, E1.
  assert (B1 : Rabs (r64 l1) <= 4 * huge).
  { pose proof (Rabs_triang (r64 l1 - (r64 c - r64 e)) (r64 c - r64 e)) as T. replace (r64 l1 - (r64 c - r64 e) + (r64 c - r64 e)) with (r64 l1) in T by ring. nra. }
  assert (T2 : Rabs (r64 l1 - r64 guard) <= 5 * huge) by (pose proof (Rabs_triang (r64 l1) (- r64 guard)) as T; rewrite Rabs_Ropp in T; unfold Rminus; lra).
  destruct (fsub_real binary64 l1 guard F1 Fg) as [F2 E2]; [lra |]. change (u_round binary64) with u64 in E2. fold l2 in F2, E2.
  rewrite (next_down_finite_eq l2 F2). destruct (next_down_below binary64 l2 F2) as [F3 H3]; [|by split_and!].
  apply Rabs_le_inv in E2, T2. assert (u64 * Rabs (r64 l1 - r64 guard) <= huge) by (assert (0 <= Rabs (r64 l1 - r64 guard) <= 5 * huge) by (split; [apply Rabs_pos | apply Rabs_le; lra]); nra). lra.
Qed.

Lemma upper_endpoint c e guard : fin64 c -> fin64 e -> fin64 guard ->
  Rabs (r64 c) <= huge -> Rabs (r64 e) <= huge -> Rabs (r64 guard) <= huge ->
  let l1 := (c + e)%f64 in let l2 := (l1 + guard)%f64 in
  Rabs (r64 l1 - (r64 c + r64 e)) <= u64 * Rabs (r64 c + r64 e) /\
  Rabs (r64 l2 - (r64 l1 + r64 guard)) <= u64 * Rabs (r64 l1 + r64 guard) /\
  is_finite (next_up_finite l2) = true /\ r64 l2 <= r64 (next_up_finite l2).
Proof.
  intros Fc Fe Fg Bc Be Bg l1 l2. pose proof half_range_huge as Hh. pose proof huge_range as [H1 _]. pose proof u64_pos as Hu.
  assert (T1 : Rabs (r64 c + r64 e) <= 2 * huge) by (pose proof (Rabs_triang (r64 c) (r64 e)); lra).
  destruct (fadd_real binary64 c e Fc Fe) as [F1 E1]; [lra |]. change (u_round binary64) with u64 in E1. fold l1 in F1, E1.
  assert (B1 : Rabs (r64 l1) <= 4 * huge).
  { pose proof (Rabs_triang (r64 l1 - (r64 c + r64 e)) (r64 c + r64 e)) as T. replace (r64 l1 - (r64 c + r64 e) + (r64 c + r64 e)) with (r64 l1) in T by ring. nra. }
  assert (T2 : Rabs (r64 l1 + r64 guard) <= 5 * huge) by (pose proof (Rabs_triang (r64 l1) (r64 guard)); lra).
  destruct (fadd_real binary64 l1 guard F1 Fg) as [F2 E2]; [lra |]. change (u_round binary64) with u64 in E2. fold l2 in F2, E2.
  rewrite (next_up_finite_eq l2 F2). destruct (next_up_above binary64 l2 F2) as [F3 H3]; [|by split_and!].
  apply Rabs_le_inv in E2, T2. assert (u64 * Rabs (r64 l1 + r64 guard) <= huge) by (assert (0 <= Rabs (r64 l1 + r64 guard) <= 5 * huge) by (split; [apply Rabs_pos | apply Rabs_le; lra]); nra). lra.
Qed.

(** The interval around [c], widened by [e] and [guard], contains every [s] that
    is within three quarters of the exact guard of an admissible value. *)
Lemma interval_sound c e guard g C E O F t s : fin64 c -> fin64 e -> fin64 guard ->
  Rabs (r64 c) <= huge -> Rabs (r64 e) <= huge -> Rabs (r64 guard) <= huge -> / 262144 <= F -> 0 <= O -> 0 <= E ->
  let G := Rabs C + E + O in
  Rabs (r64 c - C) <= 6 * u64 * Rabs C -> Rabs (r64 e - E) <= 5 * u64 * E ->
  Rabs (g - G * F) <= 20 * u64 * (G * F) -> g <= r64 guard -> Rabs (t - C) <= E -> Rabs (s - t) <= 3 / 4 * (G * F) ->
  let lower := next_down_finite (c - e - guard)%f64 in
  let upper := next_up_finite (c + e + guard)%f64 in
  is_finite lower = true /\ is_finite upper = true /\ r64 lower <= s <= r64 upper.
Proof.
  intros Fc Fe Fg Bc Be Bg HF HO HE G Hc He Hg Hgg Ht Hs lower upper. pose proof u64_pos as Hu.
  destruct (lower_endpoint _ _ _ Fc Fe Fg Bc Be Bg) as (L1 & L2 & L3 & L4).
  destruct (upper_endpoint _ _ _ Fc Fe Fg Bc Be Bg) as (U1 & U2 & U3 & U4). split_and!; [done | done | |].
  - apply Rle_trans with (1 := L4).
    by apply (endpoint_below u64 F G O C E (r64 c) (r64 e) g (r64 guard) (r64 (c - e)%f64) _ t).
  - apply Rle_trans with (2 := U4). apply Ropp_le_cancel.
    apply (endpoint_below u64 F G O (- C) E (- r64 c) (r64 e) g (r64 guard) (- r64 (c + e)%f64) _ (- t));
      [done | done | done | done | by rewrite Rabs_Ropp | | done | done | done | | | |].
    + rewrite Rabs_Ropp. replace (- r64 c - - C) with (- (r64 c - C)) by ring. by rewrite Rabs_Ropp.
    + rewrite <- (Rabs_Ropp (- r64 c - _)), <- Rabs_Ropp.
      replace (- (- r64 (c + e)%f64 - (- r64 c - r64 e))) with (r64 (c + e)%f64 - (r64 c + r64 e)) by ring.
      replace (- (- r64 c - r64 e)) with (r64 c + r64 e) by ring. done.
    + rewrite <- (Rabs_Ropp (_ - r64 guard)), <- Rabs_Ropp.
      match goal with |- Rabs ?a <= _ * Rabs ?b => replace a with (r64 (c + e + guard)%f64 - (r64 (c + e)%f64 + r64 guard)) by ring;
        replace b with (r64 (c + e)%f64 + r64 guard) by ring end. done.
    + replace (- t - - C) with (- (t - C)) by ring. by rewrite Rabs_Ropp.
    + replace (- s - - t) with (- (s - t)) by ring. by rewrite Rabs_Ropp.
Qed.

(** ** The parts of the bounds *)

Section Parts.
Context (I : Z) (sq sv Dq Rq Oq Ov Dv : float).
Context (HI : (Z.abs I <= 2 ^ 40)%Z) (Fsq : fin32 sq) (Fsv : fin32 sv).
Context (FDq : fin32 Dq) (FRq : fin32 Rq) (FOq : fin32 Oq) (FOv : fin32 Ov) (FDv : fin32 Dv).
Context (PDq : 0 <= r32 Dq) (PRq : 0 <= r32 Rq) (POq : 0 <= r32 Oq) (POv : 0 <= r32 Ov) (PDv : 0 <= r32 Dv).

Let C : R := IZR I * r32 sq * r32 sv.
Let E : R := r32 Dq * r32 Ov + r32 Rq * r32 Dv.
Let O : R := r32 Oq * r32 Ov.

Definition part_center : float := (of_Z binary64 I * f64_of_f32 sq * f64_of_f32 sv)%f64.
Definition part_error : float := (f64_of_f32 Dq * f64_of_f32 Ov + f64_of_f32 Rq * f64_of_f32 Dv)%f64.

Lemma near_part_center : near 6 part_center C /\ Rabs C <= 2 ^ 40 * (top32 * top32) /\ atleast 2 C.
Proof.
  pose proof top32_pos as Ht. pose proof top32_huge as Hh. pose proof (f32_top sq Fsq). pose proof (f32_top sv Fsv).
  assert (H41 : 2 ^ 41 = 2 * 2 ^ 40) by (simpl; ring). assert (H40 : 1 <= 2 ^ 40) by (apply pow_R1_Rle; lra).
  assert (H70 : 1 <= 2 ^ 70) by (apply pow_R1_Rle; lra).
  assert (BI : Rabs (IZR I) <= 2 ^ 40) by (rewrite <- abs_IZR, pow_IZR; by apply IZR_le).
  set (T := top32) in *. set (B := 2 ^ 40) in *. set (D := 2 ^ 70) in *. clearbody T B D. rewrite H41 in Hh.
  assert (HTT : 1 <= T * T) by nra. assert (HBT : B * (T * T) <= huge) by nra. assert (B <= huge) by nra. assert (T <= huge) by nra.
  destruct (of_Z_exact binary64 I) as [FI EI].
  { simpl prec. lia. }
  { rewrite abs_IZR. pose proof huge_range as [? ?]. nra. }
  assert (N0 : near 0 (of_Z binary64 I) (IZR I)) by (rewrite <- EI; by apply near_exact).
  assert (A0 : atleast 1 (IZR I * r32 sq)) by (apply (atleast_mul 0 1); [apply atleast_int | by apply atleast_f32]).
  assert (A1 : atleast 2 C) by (apply (atleast_mul 1 1); [done | by apply atleast_f32]).
  assert (B1 : Rabs (IZR I * r32 sq) <= B * T) by (rewrite Rabs_mult; apply Rmult_le_compat; auto using Rabs_pos).
  assert (N1 : near 3 (of_Z binary64 I * f64_of_f32 sq)%f64 (IZR I * r32 sq)).
  { replace 3 with (0 + 0 + 3) by lra. apply near_mul; [lra | lra | done | by apply near_f32 | lra | lra | by apply atleast_more with 1%nat; [lia |]]. }
  split_and!; [|unfold C; rewrite Rabs_mult; apply Rle_trans with (B * T * T); [apply Rmult_le_compat; auto using Rabs_pos | lra] | done].
  replace 6 with (3 + 0 + 3) by lra.
  apply near_mul; [lra | lra | done | by apply near_f32 | nra | lra | by apply atleast_more with 2%nat; [lia |]].
Qed.

Lemma near_part_error : near 5 part_error E /\ 0 <= E <= 2 * (top32 * top32) /\ atleast 2 E.
Proof.
  pose proof top32_pos as Ht. pose proof top32_huge as Hh.
  pose proof (product_top _ _ (f32_top Dq FDq) (f32_top Ov FOv)) as B1. pose proof (product_top _ _ (f32_top Rq FRq) (f32_top Dv FDv)) as B2.
  assert (P1 : 0 <= r32 Dq * r32 Ov) by nra. assert (P2 : 0 <= r32 Rq * r32 Dv) by nra. rewrite Rabs_pos_eq in B1, B2 by done.
  assert (H1 : 1 <= 2 ^ 41) by (apply pow_R1_Rle; lra). assert (H2 : 1 <= 2 ^ 70) by (apply pow_R1_Rle; lra).
  set (T := top32 * top32) in *. assert (HT : 0 < T) by (unfold T; nra). assert (T <= huge) by nra.
  split_and!; [|unfold E; lra | unfold E; lra |].
  - replace 5 with (3 + 2) by lra. apply near_add; [lra | by apply near_f32_mul.. | lra | lra].
  - apply atleast_add; try done; apply (atleast_mul 1 1); by apply atleast_f32.
Qed.

Lemma near_guard F : fin64 F -> / 262144 <= r64 F <= 2 ^ 60 ->
  near 13 ((fabs part_center + part_error + f64_of_f32 Oq * f64_of_f32 Ov) * F)%f64 ((Rabs C + E + O) * r64 F) /\
  (Rabs C + E + O) * r64 F <= huge / 16 /\ Rabs C + E + O <= huge / 16 /\ 0 <= O.
Proof.
  intros FF HF. destruct near_part_center as (N1 & B1 & A1). destruct near_part_error as (N2 & B2 & A2).
  pose proof top32_pos as Ht. pose proof top32_huge as Hh. pose proof (product_top _ _ (f32_top Oq FOq) (f32_top Ov FOv)) as B3.
  assert (P3 : 0 <= O) by (unfold O; nra). fold O in B3. rewrite Rabs_pos_eq in B3 by done.
  assert (A3 : atleast 2 O) by (apply (atleast_mul 1 1); by apply atleast_f32).
  assert (N3 : near 3 (f64_of_f32 Oq * f64_of_f32 Ov)%f64 O) by by apply near_f32_mul.
  assert (H70 : 2 ^ 70 = 1024 * 2 ^ 60) by (simpl; ring). assert (H41 : 2 ^ 41 = 2 * 2 ^ 40) by (simpl; ring).
  assert (H40 : 16 <= 2 ^ 40) by (apply Rle_trans with (2 ^ 4); [simpl; lra | apply Rle_pow; [lra | lia]]).
  assert (H60 : 1 <= 2 ^ 60) by (apply pow_R1_Rle; lra). rewrite H70, H41 in Hh.
  set (T := top32 * top32) in *. assert (HT : 1 <= T) by (unfold T; nra). set (B := 2 ^ 40) in *. set (D := 2 ^ 60) in *. clearbody T B D.
  pose proof (Rabs_pos C) as PC. set (G := Rabs C + E + O). assert (BG : 0 <= G <= 2 * (B * T)) by (unfold G; nra).
  assert (HGF : G * r64 F <= 2 * (B * T) * D) by (apply Rmult_le_compat; lra).
  assert (HBT : 1 <= B * T) by nra. assert (H16 : G * r64 F <= huge / 16) by nra. assert (HG16 : G <= huge / 16) by nra. assert (HGh : G <= huge) by lra. assert (HDh : D <= huge) by nra.
  split_and!; [|done | done | done].
  replace 13 with (10 + 0 + 3) by lra. apply near_mul; [lra | lra | | by apply near_exact | by rewrite Rabs_pos_eq by lra | by rewrite Rabs_pos_eq; lra |].
  - replace 10 with (8 + 2) by lra. apply near_add; [lra | | by apply near_more with 3; [lra |] | unfold G in *; lra | unfold G in *; lra].
    replace 8 with (6 + 2) by lra.
    apply near_add; [lra | by apply near_fabs | by apply near_more with 5; [lra |] | unfold G in *; lra | unfold G in *; lra].
  - apply atleast_more with 3%nat; [lia |]. apply (atleast_mul 2 1).
    + apply atleast_add; [lra | done | | done]. apply atleast_add; [done | lra | by apply atleast_abs | done].
    + right. rewrite Rabs_pos_eq, pow_1 by lra. apply Rle_trans with (/ 262144); [|lra]. unfold runit. apply Rinv_le_contravar; [lra |].
      apply IZR_le. vm_compute. discriminate.
Qed.

(** The interval is finite and contains every value close to one the
    quantization error allows. *)
Lemma final_parts_sound F t s : fin64 F -> / 262144 <= r64 F <= 2 ^ 60 ->
  Rabs (t - C) <= E -> Rabs (s - t) <= 3 / 4 * r64 F * O ->
  let guard := next_up_finite ((fabs part_center + part_error + f64_of_f32 Oq * f64_of_f32 Ov) * F)%f64 in
  let lower := next_down_finite (part_center - part_error - guard)%f64 in
  let upper := next_up_finite (part_center + part_error + guard)%f64 in
  is_finite lower = true /\ is_finite upper = true /\ r64 lower <= s <= r64 upper.
Proof.
  intros FF HF Ht Hs guard lower upper. destruct near_part_center as (N1 & _ & _). destruct near_part_error as (N2 & B2 & _).
  destruct (near_guard F FF HF) as (N3 & BGF & BG & PO). set (G := Rabs C + E + O) in *. pose proof (Rabs_pos C) as PC.
  pose proof huge_range as [Hh1 _]. pose proof half_range_huge as Hh. pose proof u64_pos as Hu.
  pose proof (near_abs_le 6 _ _ ltac:(lra) N1) as Bc. pose proof (near_abs_le 5 _ _ ltac:(lra) N2) as Be.
  rewrite (Rabs_pos_eq E) in Be by lra. destruct N1 as [Fc Ec], N2 as [Fe Ee], N3 as [Fg Eg]. rewrite (Rabs_pos_eq E) in Ee by lra.
  set (g := (_ * F)%f64) in *. assert (PG : 0 <= G * r64 F) by (apply Rmult_le_pos; unfold G; lra). rewrite (Rabs_pos_eq (G * r64 F)) in Eg by done.
  assert (Bg : 0 <= r64 g <= huge / 8) by (apply Rabs_le_inv in Eg; assert (13 * u64 * (G * r64 F) <= 1 * (G * r64 F)) by (apply Rmult_le_compat_r; [done | lra]); lra).
  destruct (next_up_near binary64 g Fg ltac:(lra)) as [Fgu Bgu]. change (u_round binary64) with u64 in Bgu.
  assert (Eguard : guard = next_up binary64 g) by by apply next_up_finite_eq. rewrite <- Eguard in Fgu, Bgu.
  assert (Hunit : runit binary64 <= 1) by (pose proof runit64_small; pose proof runit32_small; lra).
  assert (Bguard : Rabs (r64 guard) <= huge) by (rewrite Rabs_pos_eq by lra; assert (2 * u64 * r64 g <= 1 * r64 g) by (apply Rmult_le_compat_r; lra); lra).
  assert (Bc' : Rabs (r64 part_center) <= huge) by (unfold G in BG; lra). assert (Be' : Rabs (r64 part_error) <= huge) by (unfold G in BG; lra).
  apply (interval_sound part_center part_error guard (r64 g) C E O (r64 F) t s); try done; try lra.
  - fold G. assert (13 * u64 * (G * r64 F) <= 20 * u64 * (G * r64 F)) by (apply Rmult_le_compat_r; [done | lra]). lra.
  - fold G. assert (3 / 4 * r64 F * O <= 3 / 4 * (G * r64 F)) by (assert (O <= G) by (unfold G; lra); nra). lra.
Qed.
End Parts.

(** ** The guard factor *)

Lemma next_down_near x : fin64 x -> 0 < r64 x <= half_range binary64 ->
  fin64 (next_down binary64 x) /\ r64 x - 2 * u64 * r64 x - runit binary64 <= r64 (next_down binary64 x) <= r64 x.
Proof.
  intros Fx Hx. pose proof half_range_huge. destruct (next_down_below binary64 x Fx) as [F1 H1]; [pose proof huge_range; lra |].
  destruct x as [| |s m]; [by destruct Fx.. |]. destruct Fx as [[[Hm Hl] Hr] _]. pose proof (runit_pos binary64) as Hu.
  assert (s = false /\ (0 < m)%Z) as [-> Hm0].
  { unfold rv in Hx. destruct s; simpl in Hx; [rewrite opp_IZR in Hx; apply IZR_le in Hm; nra |]. split; [done |].
    apply lt_IZR. nra. }
  destruct (previous binary64 m Hm0 Hr) as (P1 & P2 & P3).
  assert (E : next_down binary64 (Fin false m) = Fin false (m - 2 ^ shift_of binary64 (m - 1))).
  { unfold next_down, next_up. cbn [fneg negb]. by destruct (Z.eqb_spec m 0); [lia |]. }
  rewrite E in *. assert (Hpos : (0 < 2 ^ shift_of binary64 (m - 1))%Z) by (apply Z.pow_pos_nonneg; [lia | apply shift_of_nonneg]).
  split; [split; [split; [lia | done] | done] |]. split; [|done].
  pose proof (pow_shift binary64 (m - 1) ltac:(lia)) as Hs. change (u_round binary64) with u64 in Hs.
  unfold rv. cbn [val signed]. rewrite minus_IZR in *. pose proof u64_pos. apply IZR_lt in Hm0. nra.
Qed.

Lemma of_Z_near n : (0 < n < 2 ^ 64)%Z -> fin64 (of_Z binary64 n) /\ Rabs (r64 (of_Z binary64 n) - IZR n) <= IZR n / 2.
Proof.
  intros Hn. pose proof (IZR_lt _ _ (proj1 Hn)) as H0. assert (H64 : IZR n <= 2 ^ 64) by (rewrite pow_IZR; apply IZR_le; lia).
  destruct (rounded_error binary64 (n <? 0)%Z (Z.abs n * 2 ^ (- emin binary64)) 1 (IZR n)) as [E1 E2].
  - apply Z.mul_nonneg_nonneg; [lia |]. apply Z.pow_nonneg. lia.
  - lia.
  - rewrite (proj2 (Z.ltb_ge n 0)) by lia. cbn [signed]. rewrite Z.abs_eq by lia. rewrite mult_IZR. unfold runit.
    assert (0 < IZR (2 ^ - emin binary64)) by (apply IZR_pow2; simpl; lia). field. lra.
  - rewrite Rabs_pos_eq by lra. pose proof half_range_huge. pose proof huge_range. assert (2 ^ 64 <= huge) by (unfold huge; apply Rle_pow; [lra | lia]). lra.
  - change (fin_round binary64 (n <? 0)%Z (Z.abs n * 2 ^ (- emin binary64)) 1) with (of_Z binary64 n) in E1. rewrite E1. split.
    + split; [|done]. rewrite <- E1. apply (of_Z_wf binary64).
    + rewrite (Rabs_pos_eq (IZR n)) in E2 by lra. apply Rle_trans with (1 := E2). change (u_round binary64) with u64. pose proof u64_pos.
      pose proof runit64_small. pose proof runit32_small. assert (1 <= IZR n) by (apply IZR_le; lia). nra.
Qed.

Lemma f32_EPSILON_value : fin32 f32_EPSILON /\ r32 f32_EPSILON = / 8388608.
Proof.
  split; [split; [|done]; split; [done | by vm_compute] |]. unfold rv, runit. cbn [val signed f32_EPSILON].
  apply Rmult_eq_reg_r with (IZR (2 ^ (- emin binary32))); [|apply Rgt_not_eq, IZR_pow2; simpl; lia].
  rewrite Rmult_assoc, Rinv_l, Rmult_1_r by (apply Rgt_not_eq, IZR_pow2; simpl; lia).
  replace (IZR (2 ^ (- emin binary32))) with (IZR (2 ^ 126) * 8388608) by (rewrite <- mult_IZR; f_equal). field.
Qed.

Lemma f64_one_value : fin64 f64_one /\ r64 f64_one = 1.
Proof.
  apply (of_Z_exact binary64 1); [simpl prec; lia |]. pose proof half_range_huge. pose proof huge_range. change (IZR (Z.abs 1)) with 1. lra.
Qed.

Lemma fle_one_false one x r : is_finite one = true -> r64 one = 1 -> upper binary64 x r -> fle one x = false -> fin64 x /\ r <= r64 x < 1.
Proof.
  intros F1 E1 Hx E. destruct (is_finite x) eqn:Fx.
  - destruct (upper_finite binary64 x r Hx Fx) as (G1 & G2 & _). split; [done |]. split; [done |].
    rewrite <- E1. apply (flt_rv binary64); [done | done |]. unfold fle in E. unfold flt. rewrite finite_compare in * by done.
    rewrite Z.compare_antisym in E. by destruct (Z.compare (val x) (val one)).
  - by destruct x as [|[]|], one.
Qed.

Lemma upper_pos x : fin64 x -> 0 < r64 x -> feq x fzero = false /\ upper binary64 x (r64 x).
Proof.
  intros Fx Px. split; [apply not_true_is_false; intros Hz; apply (feq_zero binary64) in Hz; [lra | done] |].
  destruct x as [| |[] m]; [by destruct Fx.. | | by split; [apply Fx | lra]]. unfold rv in Px. cbn [val signed] in Px. rewrite opp_IZR in Px.
  destruct Fx as [[[Hm _] _] _]. apply IZR_le in Hm. pose proof (runit_pos binary64). nra.
Qed.

Lemma runit64_tiny : 0 < runit binary64 <= / 500000000000.
Proof.
  split; [apply (runit_pos binary64) |]. pose proof u64_pos. pose proof runit32_small.
  apply Rle_trans with (u64 * tiny * 2); [pose proof tiny_unit; lra |].
  assert (tiny <= 1) by (unfold tiny; rewrite <- (pow1 6); apply pow_incr; lra). assert (0 <= tiny) by (apply pow_le; lra). nra.
Qed.

(** The numerator: [operations * epsilon], rounded up, below one. *)
Lemma numerator_spec k op ep one : fin64 op -> fin64 ep -> is_finite one = true -> r64 one = 1 -> r64 ep = / 8388608 ->
  64 <= IZR k -> Rabs (r64 op - IZR k) <= IZR k / 2 -> (IZR k < 16777216 -> r64 op = IZR k) -> fle one (mul_up op ep) = false ->
  fin64 (mul_up op ep) /\ IZR k / 8388608 <= r64 (mul_up op ep) <= 1 - / 16777216.
Proof.
  intros Fo Fep F1 E1 Eep Hk Eo Eop E. assert (Pop : 0 < r64 op) by (apply Rabs_le_inv in Eo; lra).
  destruct (upper_pos op Fo Pop) as [Z1 U1]. destruct (upper_pos ep Fep ltac:(lra)) as [Z2 U2].
  assert (En : mul_up op ep = next_up binary64 (op * ep)%f64) by (unfold mul_up; by rewrite Z1, Z2). rewrite En in *.
  assert (U3 : upper binary64 (next_up binary64 (op * ep)%f64) (r64 op * r64 ep)).
  { apply (fmul_up binary64); try done; [apply Fo | apply Fep | lra | lra]. }
  destruct (fle_one_false _ _ _ F1 E1 U3 E) as [Fn [Bn1 Bn2]]. rewrite Eep in Bn1. apply Rabs_le_inv in Eo.
  specialize (Eop ltac:(lra)). rewrite Eop in *. split; [done |]. split; [lra |].
  assert (Hk23 : (k <= 2 ^ 23 - 1)%Z).
  { assert (k < 2 ^ 23)%Z; [|lia]. apply lt_IZR. change (IZR (2 ^ 23)) with 8388608. lra. }
  apply IZR_le in Hk23. change (IZR (2 ^ 23 - 1)) with 8388607 in Hk23.
  pose proof half_range_huge as Hh. pose proof huge_range as [Hh1 _]. pose proof u64_pos as Hu. pose proof runit64_tiny as Hr.
  destruct (fmul_real binary64 op ep Fo Fep) as [Fm Em]. { rewrite Eop, Eep, Rabs_pos_eq by lra. lra. }
  change (u_round binary64) with u64 in Em. rewrite Eop, Eep, (Rabs_pos_eq (IZR k * _)) in Em by lra. apply Rabs_le_inv in Em.
  assert (Hp : u64 * (IZR k * / 8388608) <= / 1000000000000 * 1) by (apply Rmult_le_compat; lra).
  destruct (next_up_near binary64 (op * ep)%f64 Fm) as [_ Hup]; [lra |]. change (u_round binary64) with u64 in Hup.
  assert (2 * u64 * r64 (op * ep)%f64 <= 2 * / 1000000000000 * 2) by (apply Rmult_le_compat; lra). lra.
Qed.

(** The factor: the numerator over one minus it, rounded up. *)
Lemma factor_spec num one lo : fin64 num -> fin64 one -> r64 one = 1 -> / 262144 <= lo -> lo <= r64 num <= 1 - / 16777216 ->
  fin64 (div_up num (sub_down one num)) /\ lo <= r64 (div_up num (sub_down one num)) <= 2 ^ 60.
Proof.
  intros Fn F1 E1 Hlo Hn. destruct (upper_pos num Fn ltac:(lra)) as [Z1 U1]. pose proof u64_pos as Hu. pose proof runit64_tiny as Hr.
  pose proof half_range_huge as Hh. pose proof huge_range as [Hh1 _]. unfold sub_down, div_up. rewrite Z1.
  destruct (fsub_real binary64 one num F1 Fn) as [Fd Ed]. { rewrite E1, Rabs_pos_eq by lra. lra. }
  change (u_round binary64) with u64 in Ed. rewrite E1, (Rabs_pos_eq (1 - _)) in Ed by lra. apply Rabs_le_inv in Ed.
  assert (u64 * (1 - r64 num) <= / 1000000000000 * 1) by (apply Rmult_le_compat; lra).
  destruct (next_down_near (one - num)%f64 Fd) as [Fd' Hd]; [lra |].
  assert (2 * u64 * r64 (one - num)%f64 <= 2 * / 1000000000000 * 2) by (apply Rmult_le_compat; lra).
  set (den := next_down binary64 (one - num)%f64) in *. assert (Hden : / 33554432 <= r64 den <= 1) by lra.
  assert (Z0 : feq num fzero = false) by done. destruct (upper_pos den Fd' ltac:(lra)) as [_ U2].
  assert (Hq : r64 num <= r64 num / r64 den <= 33554432).
  { assert (1 <= / r64 den <= 33554432).
    { split; [rewrite <- Rinv_1; apply Rinv_le_contravar; lra |]. rewrite <- (Rinv_inv 33554432). apply Rinv_le_contravar; lra. }
    unfold Rdiv. nra. }
  destruct (fdiv_real binary64 num den Fn Fd' ltac:(lra)) as [Fq Eq]. { rewrite Rabs_pos_eq by lra. assert (33554432 <= huge); [|lra].
    unfold huge. apply Rle_trans with (2 ^ 25); [simpl; lra | apply Rle_pow; [lra | lia]]. }
  change (u_round binary64) with u64 in Eq. rewrite (Rabs_pos_eq (_ / _)) in Eq by lra. apply Rabs_le_inv in Eq.
  assert (u64 * (r64 num / r64 den) <= / 1000000000000 * (r64 num / r64 den)) by (apply Rmult_le_compat_r; lra).
  assert (H60 : 2 ^ 27 <= 2 ^ 60) by (apply Rle_pow; [lra | lia]). assert (H27 : 134217728 <= 2 ^ 27) by (simpl; lra).
  assert (Hhh : 134217728 <= huge) by (apply Rle_trans with (1 := H27); unfold huge; apply Rle_pow; [lra | lia]).
  destruct (next_up_near binary64 (num / den)%f64 Fq) as [Fu Hup]; [lra |]. change (u_round binary64) with u64 in Hup.
  pose proof (fdiv_up binary64 num den Fn Fd' ltac:(lra) ltac:(lra) U1 U2) as U3. destruct (upper_finite binary64 _ _ U3 (proj2 Fu)) as (_ & U4 & _).
  assert (2 * u64 * r64 (num / den)%f64 <= 2 * / 1000000000000 * 134217728) by (apply Rmult_le_compat; lra). split; [done | lra].
Qed.

Lemma guard_factor_spec n F : compact_style_guard_factor n = Some F ->
  fin64 F /\ IZR (8 * Z.of_N n + 64) / 8388608 <= r64 F <= 2 ^ 60 /\ (n < 2 ^ 20)%N.
Proof.
  unfold compact_style_guard_factor, checked_mul, checked_add. destruct (N.ltb_spec (n * 8) (2 ^ 64)); [|done].
  destruct (N.ltb_spec (n * 8 + 64) (2 ^ 64)); [|done].
  destruct f64_one_value as [F1 E1]. destruct f32_EPSILON_value as [Fe Ee]. apply fin_f64 in Fe. rewrite <- rv_f64 in Ee.
  set (k := Z.of_N (n * 8 + 64)). destruct (of_Z_near k ltac:(lia)) as [Fo Eo].
  assert (Eop : IZR k < 16777216 -> r64 (of_Z binary64 k) = IZR k).
  { intros Hk. apply lt_IZR in Hk. apply (of_Z_exact binary64 k); [simpl prec; lia |]. rewrite Z.abs_eq by lia.
    pose proof half_range_huge. pose proof huge_range. assert (2 ^ 24 <= huge) by (unfold huge; apply Rle_pow; [lra | lia]).
    assert (IZR k <= 2 ^ 24) by (rewrite pow_IZR; apply IZR_le; lia). lra. }
  revert F1 E1 Fe Ee Fo Eo Eop. generalize f64_one as one, (f64_of_f32 f32_EPSILON) as ep, (of_Z binary64 k) as op.
  intros one ep op F1 E1 Fe Ee Fo Eo Eop HF. cbv zeta in HF. destruct (fle one (mul_up op ep)) eqn:El; [done |]. injection HF as <-.
  assert (H64 : 64 <= IZR k) by (apply IZR_le; lia).
  destruct (numerator_spec k op ep one Fo Fe (proj2 F1) E1 Ee H64 Eo Eop El) as [Fn Hn].
  destruct (factor_spec _ one (IZR k / 8388608) Fn F1 E1 ltac:(lra) Hn) as [H3 H4].
  assert (Ek : (8 * Z.of_N n + 64 = k)%Z) by lia. rewrite Ek. split; [done |]. split; [done |].
  assert (IZR k < 8388608) by lra. apply lt_IZR in H1. lia.
Qed.

(** ** The quantization error *)

Lemma zdot_reals sq sv (a b : list Z) : IZR (zdot a b) * r32 sq * r32 sv = dot (reconstruction sq a) (reconstruction sv b).
Proof.
  unfold zdot, zsum, dot, rsum, reconstruction. revert b. induction a as [|x a IH]; intros [|y b]; csimpl; try lra.
  rewrite <- IH, plus_IZR, mult_IZR. ring.
Qed.

Lemma zdot_padding a b j k : length a = length b -> zdot (a ++ replicate j 0%Z) (b ++ replicate k 0%Z) = zdot a b.
Proof.
  intros Hl. rewrite zdot_app by done. assert (E : forall j k, zdot (replicate j 0%Z) (replicate k 0%Z) = 0%Z); [|by rewrite E, Z.add_0_r].
  clear. unfold zdot, zsum. induction j as [|j IH]; intros [|k]; [done.. |]. cbn [replicate zip_with foldr]. by rewrite IH.
Qed.

Lemma length_reconstruction sc codes : length (reconstruction sc codes) = length codes.
Proof. apply length_fmap. Qed.

Lemma quantization_error q v n qc qs vc vs : length q = length v -> encodes q n qc qs -> encodes v n vc vs ->
  Rabs (dot (r32 <$> q) (r32 <$> v) - IZR (zdot qc vc) * r32 (scale qs) * r32 (scale vs))
  <= r32 (residual_norm_upper qs) * r32 (original_norm_upper vs) + r32 (reconstructed_norm_upper qs) * r32 (residual_norm_upper vs).
Proof.
  intros Hl Hq Hv. destruct Hq as [_ _ -> _ Oq Rq Dq _ Nq1 Nq2 Nq3]. destruct Hv as [_ _ -> _ Ov Rv Dv _ Nv1 Nv2 Nv3].
  unfold codes_for. rewrite zdot_padding by by rewrite !length_fmap. rewrite zdot_reals.
  set (q' := reconstruction (scale qs) (code_of (scale qs) <$> q)) in *. set (v' := reconstruction (scale vs) (code_of (scale vs) <$> v)) in *.
  assert (Lq : length (r32 <$> q) = length q') by (unfold q'; rewrite length_reconstruction, !length_fmap; done).
  assert (Lv : length (r32 <$> v) = length v') by (unfold v'; rewrite length_reconstruction, !length_fmap; done).
  assert (L : length (r32 <$> q) = length (r32 <$> v)) by by rewrite !length_fmap.
  rewrite (dot_split _ q' _ v') by done.
  assert (Ld : forall a b, length a = length b -> length (diff a b) = length a) by (intros a b E; unfold diff; rewrite length_zip_with; lia).
  pose proof (dot_bound (diff (r32 <$> q) q') (r32 <$> v) _ _ ltac:(rewrite Ld; done) Dq Ov Nq3 Nv1) as B1.
  pose proof (dot_bound q' (diff (r32 <$> v) v') _ _ ltac:(rewrite Ld; congruence) Rq Dv Nq2 Nv3) as B2.
  pose proof (Rabs_triang (dot (diff (r32 <$> q) q') (r32 <$> v)) (dot q' (diff (r32 <$> v) v'))). lra.
Qed.

(** [encode_query] of a vector with these codes and statistics. *)
Definition query_of (codes : list Z) (stats : PerVectorScalarRowStats) : EncodedQueryPerVectorScalar :=
  {| q_scale := scale stats; q_codes := codes;
     q_original_norm_upper := f64_of_f32 (original_norm_upper stats);
     q_reconstructed_norm_upper := f64_of_f32 (reconstructed_norm_upper stats);
     q_residual_norm_upper := f64_of_f32 (residual_norm_upper stats) |}.

Lemma encoded_dot_small q v n qc qs vc vs : length q = length v -> (N.of_nat (length q) < 2 ^ 20)%N ->
  encodes q n qc qs -> encodes v n vc vs -> (Z.abs (zdot qc vc) <= 2 ^ 40)%Z.
Proof.
  intros Hl Hn Hq Hv. pose proof (en_range _ _ _ _ Hq) as Sq. pose proof (en_range _ _ _ _ Hv) as Sv.
  destruct Hq as [_ _ -> _ _ _ _ _ _ _ _]. destruct Hv as [_ _ -> _ _ _ _ _ _ _ _]. unfold codes_for in *.
  apply Forall_app in Sq as [Sq _], Sv as [Sv _]. rewrite zdot_padding by by rewrite !length_fmap.
  pose proof (zdot_bound _ _ Sq Sv) as Hb. rewrite length_fmap in Hb. lia.
Qed.

Lemma final_bounds_sound q v n qc qs vc vs F s :
  length q = length v -> encodes q n qc qs -> encodes v n vc vs ->
  compact_style_guard_factor (N.of_nat (length q)) = Some F ->
  Rabs (s - dot (r32 <$> q) (r32 <$> v)) <= 3 / 4 * r64 F * (r32 (original_norm_upper qs) * r32 (original_norm_upper vs)) ->
  let '(lower, upper) := final_bounds_from_integer_dot (query_of qc qs) vs (zdot qc vc) F in
  is_finite lower = true /\ is_finite upper = true /\ r64 lower <= s <= r64 upper.
Proof.
  intros Hl Hq Hv HF Hs. destruct (guard_factor_spec _ _ HF) as (FF & BF & Hn).
  assert (BF' : / 262144 <= r64 F <= 2 ^ 60).
  { split; [|lra]. assert (64 <= IZR (8 * Z.of_N (N.of_nat (length q)) + 64)) by (apply IZR_le; lia). lra. }
  pose proof (quantization_error q v n qc qs vc vs Hl Hq Hv) as He.
  pose proof (encoded_dot_small q v n qc qs vc vs Hl Hn Hq Hv) as HI.
  destruct Hq as [F1 _ _ _ P1 P2 P3 (F2 & F3 & F4) _ _ _]. destruct Hv as [F5 _ _ _ P4 P5 P6 (F6 & F7 & F8) _ _ _].
  exact (final_parts_sound (zdot qc vc) (scale qs) (scale vs) (residual_norm_upper qs) (reconstructed_norm_upper qs) (original_norm_upper qs)
    (original_norm_upper vs) (residual_norm_upper vs) HI F1 F5 F4 F3 F2 F6 F8 P3 P2 P1 P4 P6 F _ s FF BF' He Hs).
Qed.

(** [C00] The certificate.  For a query and a document of the same dimension,
    both finite with finite norms, the interval computed from the integer dot
    product of their codes is finite and contains every number whose distance
    from the exact inner product is at most three quarters of the guard factor
    times the product of the norms of the headers. *)
Theorem final_bounds_certified q v n qc qs vc vs F s :
  length q = length v -> encodes q n qc qs -> encodes v n vc vs ->
  compact_style_guard_factor (N.of_nat (length q)) = Some F ->
  Rabs (s - dot (r32 <$> q) (r32 <$> v)) <= 3 / 4 * r64 F * (r32 (original_norm_upper qs) * r32 (original_norm_upper vs)) ->
  let '(lower, upper) := final_bounds_from_integer_dot (query_of qc qs) vs (zdot qc vc) F in
  is_finite lower = true /\ is_finite upper = true /\ r64 lower <= s <= r64 upper.
Proof. apply final_bounds_sound. Qed.

(** ** Examples *)

Definition sample_factor : float := default fzero (compact_style_guard_factor 2).

Lemma final_bounds_certified_witness : exists codes stats,
  let '(lower, upper) := final_bounds_from_integer_dot (query_of codes stats) stats (zdot codes codes) sample_factor in
  is_finite lower = true /\ is_finite upper = true /\
  r64 lower <= dot (r32 <$> sample_vector) (r32 <$> sample_vector) <= r64 upper.
Proof.
  destruct sample_encodes as (stats & codes & Hen). exists codes, stats.
  assert (HF : compact_style_guard_factor (N.of_nat (length sample_vector)) = Some sample_factor) by by vm_compute.
  apply (final_bounds_certified sample_vector sample_vector 16 codes stats codes stats sample_factor _ eq_refl Hen Hen HF).
  unfold Rminus. rewrite Rplus_opp_r, Rabs_R0. destruct (guard_factor_spec _ _ HF) as (_ & [B _] & _).
  assert (0 <= IZR (8 * Z.of_N (N.of_nat (length sample_vector)) + 64)) by (apply IZR_le; lia).
  pose proof (en_original _ _ _ _ Hen). apply Rmult_le_pos; [lra | nra].
Defined.
